(* ===== verification/_CoqProject ===== *)
-Q . S2P
Prelude.v
Utf8.v
Core.v
Capability.v
Protocol.v
Schedule.v
UnitTests.v
ChildProtocol.v
PgTable.v
PgJobs.v
PgCron.v
PgRetention.v
PgWorkflow.v
PgInvariant.v
PgSteps.v
PgReach.v
PgExample.v
PgTypes.v
Compose.v
WorkflowRun.v
PgSafety.v
PgFetch.v
PgSettle.v
WorkflowFinish.v
PgRecover.v
PgHistory.v
Redis.v
RedisClaim.v
Contract.v
RedisSafety.v
RedisKeys.v
PgQueue.v
RedisQueue.v
LeaseQueue.v
Worker.v
WorkerLoop.v
WorkerSafety.v
WorkerTasks.v
WorkerOwnership.v
Observe.v
Drain.v
Cli.v
CliSafety.v
CliWorker.v
WorkerLease.v
Chaos.v
ChaosSafety.v
WorkerSession.v
WorkerStream.v
System.v
SystemExample.v
SystemLeases.v
SystemDispatch.v
SystemReports.v
SystemWedge.v
Fleet.v
