(* ===== verification/Prelude.v ===== *)
(** * gylo: a verification development

    gylo is a job queue: clients enqueue jobs, workers lease them, run them in
    Python children and report what became of them. This development models its
    Rust code, under [crates/], with the SQL and Lua that code sends to its
    stores, and proves the properties that make it correct.

    ** The program and the files that model it

    - [gylo-core/src/protocol.rs], the frames exchanged with a child: file
      [Protocol]. [encode] appends to a buffer (the [writer] monad), [Decoder]
      keeps its buffer and position, and slicing, subtraction and indexing panic
      as in Rust (type [comp] of this file). [rmp_serde] is a parameter, the
      class [RmpSerde], with the laws [RmpSerdeLaws]; [NumberedCodec] is an
      instance. File [Utf8] has Rust's strings: validation, lossy decoding,
      whitespace. [python/gylo/_protocol.py], the child's side of the same frames:
      [ChildProtocol], over the class [Msgspec]. The unit tests of [protocol.rs] and
      [capability.rs], run on the models: [UnitTests].
    - [gylo-core/src/capability.rs] with both backends' declarations: [Capability].
      [gylo-core/src/schedule.rs]: [Schedule], over the class [CronCrate] that
      stands for the [cron] and [chrono-tz] crates. The [Job] struct: [Core].
    - [gylo-pg/src/lib.rs] and [migrations/*.sql]: [PgTable] (tables, checks, the
      unique index, statements as updates of a [db] that commit or roll back, the
      class [Planner] for what SQL leaves unordered, and [deliver] for what a
      connection does to a statement); [PgJobs] (enqueue, the two-pass [fetch],
      complete, retry, discard with its cascade, renew, abandon, reclaim, cancel,
      dead letters); [PgCron] (schedules, durable steps); [PgRetention] (pruning
      and the operator's queries); [PgWorkflow] (the one transaction of
      [python/gylo] that inserts a graph, and reachability along its edges).
    - [python/gylo/_workflow.py], the constructors of graphs: [Compose], where a
      [Workflow] is an object on a heap, since [chord] changes its argument.
    - [gylo-pg/examples/drain.rs]: [Drain], leasers taking turns.
    - [gylo-redis/src/lib.rs]: [Redis], a server of sorted sets and hashes, the Lua
      scripts as functions on it, and the operations.
    - [gylo-worker/src/lib.rs]: [Worker] (configuration, jobs in flight, the
      restart loop, the completion buffer, a child's last words), [WorkerLoop]
      (one turn of each task: flush, hand back, dispatch, the completion reader as
      an event machine, schedules, maintenance) and [WorkerSession] (a session
      from handshake to drain, the dispatch and renewal loops with their waits,
      the notification listener). [gylo-worker/src/observe.rs]: [Observe], the
      calls made to the [metrics] facade and what each loop reports.
    - The same file's tasks together, with [serve] of [python/gylo/_worker.py] at
      the other end of the socket: [System], a supervisor and its child as a
      transition system. Its state is the database, the jobs in flight, where
      [dispatch], [collect_completions] and [supervise] stand, the bytes under way
      in both directions and the child; an event is one step of one of them, from
      one await to the next, or something another session does. [SystemExample]
      has concrete runs. [Fleet]: [run], any number of supervisors and the
      statements of [recover] and [retain] on one database.
    - [gylo-cli/src/main.rs]: [Cli], the commands past [clap] as a monad that
      prints, asks the database and fails, and the worker's configuration;
      [CliWorker], the [worker] command with its signals and metrics endpoint.
    - [gylo-chaos/src/main.rs]: [Chaos], what the harness measures, its scenarios
      and the verdict; the processes it kills are an environment record.

    Machine integers are [Z] with their width where it matters: frame lengths,
    [u16] names, [i16] counters, the [float8] overflow of a retry delay. Time is
    whole microseconds for Postgres and the worker, milliseconds for Redis. A
    statement is atomic; what other sessions commit between two statements, the
    clock, the rows they hold locked, random draws and the fate of the connection
    are arguments of every exchange ([turn] of [PgJobs], [moment] and [world] of
    [WorkerLoop]), and the theorems quantify over them.

    ** What is proved

    - Protocol ([Protocol]): round trip of a batch through any cut of the stream;
      the cut is invisible; the decoder is total, never panics and stays within its
      memory bound; a rejected message leaves the buffer alone; what decodes is
      well typed and canonical. [ChildProtocol]: the Rust and the Python side read
      exactly what the other wrote. [UnitTests]: the models pass the tests.
    - Postgres: [PgInvariant] states what every database holds, [PgSteps] proves
      that each statement keeps it, [PgReach] has the step relation of all of them
      and what a job's row may become; [PgSafety] concludes: the invariant, the
      life cycle, workers that do not hold a job cannot change it, workflow order,
      the concurrency limit. [reachable] includes jobs enqueued with no attempt to
      their name; where one would fail the fetch that meets it ([poison_job]), the
      theorem asks for queues without one ([funded]). [PgFetch]: what a fetch
      leases, that keyed work progresses. [PgSettle]: completing, fan-in, backoff,
      the cascade. [PgRecover]: sweeps and dead letters. [PgHistory]: schedules
      fire once, steps are recorded once, pruning touches only history. [PgTypes]:
      what is stored keeps its type, and what a statement may insert. [PgExample]
      is a concrete deployment the theorems are applied to.
    - Workflows: [Compose] (what [chain], [group] and [chord] build, and the order
      it imposes); [WorkflowRun] (a graph in the database: through any run of
      statements its jobs start in that order, and it is never stuck unless one of
      its jobs failed or was deleted unfinished); [WorkflowFinish] (from wherever
      such a run has brought it, leasing and completing can finish it).
    - Redis: [RedisClaim] (the claim script against its specification),
      [RedisSafety] (no job lost or doubled while callers are honest, with the two
      round trips of [abandon] as two steps; what a fetch returns, and what a late
      completion does), [RedisKeys] (namespaces).
    - Both: [Contract] states what a worker relies on, an abstract lease queue whose
      operations say where they may leave a job, as a class; [PgQueue] and
      [RedisQueue] make each backend an instance, and [LeaseQueue] has both and what
      follows for every run (no waiting job vanishes).
    - Worker: [Worker] (restart policy, last words); [WorkerSafety] (a flush
      settles every report, the child reads exactly what was reserved for it);
      [WorkerTasks] (jobs in flight are bounded, every completion read is
      settled in the table or waits under a timer, hand-back recovers, retention ends); [WorkerLease] (renewals in time
      keep a job against everything else that runs); [WorkerSession] (why a
      session ends, and what the drain does to the leases it waits for);
      [WorkerStream] (what a child reads over a whole session);
      [WorkerOwnership] (as long as rounds run to their end, every lease of a worker
      is in its supervisor's record, so renewals, drains and hand-backs miss none);
      [Observe] (the counters add up to the outcomes read).
    - The worker's tasks interleaved at every await: [SystemLeases] (every lease is
      in flight, in hand, or was let go of at one of six places), [SystemDispatch]
      (what a child runs was leased for it), [SystemReports] (what a supervisor
      settles is what its child reported), [SystemWedge] (what a frame the reader
      refuses does to the rest of the session), [Fleet] (each of several
      supervisors goes through a run of [System], so all of this holds of each).
    - [Drain]: any number of concurrent leasers empty a queue, each job completed
      once, in a bounded number of turns.
    - Operator: [CliSafety] ([jobs prune] ends and clears, [retry] and [purge] are
      exact, the rest only reads); [CliWorker] (one signal drains, the next is
      ignored). [ChaosSafety]: what a pass of the harness means.
    - Some theorems prove what the code does where its documentation says
      otherwise or its intent is missed: [exhaustion_strands], [poison_job],
      [late_completion_poisons], [drain_outlives_lease],
      [unreadable_report_wedges], the lemmas [chord_extends_body],
      [exhausted_counts_as_retried], [second_signal_ignored], [written_refused],
      [adrift_until_back], and
      the runs [dies_early_strands] and [retried_meanwhile_unrenewed].

    ** Fuel

    [Protocol.drain] takes one turn more than there are bytes buffered, and
    [drain_enough] shows that is enough; [ChildProtocol.drain] has the same fuel,
    and [drain_prefix] shows it is enough for frames that were written.
    [PgJobs.walk] takes one round per edge,
    and [PgWorkflow.elem_of_walk] shows it then equals reachability.
    [WorkerLoop.prune_batches] and [Cli.prune_loop] return [None] when fuel runs
    out; [retention_ends] and [prune_finished_clears] show that one batch more
    than there are jobs suffices. The loops of [Chaos] poll until a timeout:
    [ChaosSafety.scenario_ends] bounds them by the timeout over the shortest
    sleep. Tasks that run until they are stopped ([dispatch], [supervise],
    [collect_completions], [renew], [listen], the leasers of [Drain], the tasks of
    [System] and [Fleet]) are functions of the list of events that occur, so they
    need no fuel; [drain_completes] bounds
    the turns the leasers take.

    ** Not modelled

    Opening connections and migrations; logging, and the recorder and HTTP server
    behind the metrics; of [gylo-cli], argument parsing; of [gylo-chaos], the processes themselves and the
    table it prints; of the drain benchmark, its timing; indexes, which change no
    result; the Python package beyond its workflows, its protocol and what its child
    reads and writes, and of its workflows the placeholder form of the psycopg adapter
    (the transaction is the asyncpg adapter's). Float rounding in intervals is not
    modelled: durations are whole microseconds. A statement is atomic, so that
    [RECLAIM]'s reading of lapsed leases and its update are one step, where at READ
    COMMITTED a renewal may come between. Lua's [unpack] raises above some 8000 ids;
    [CLAIM] and [RECLAIM] are the scripts for limits below that. In [System] a renewal
    takes its snapshot of the jobs in flight and sends its statement in one step, and
    a statement cancelled with its task takes effect then or not at all. In [Fleet]
    the [Notify] the children share and the bound of the connection pool are left
    out: they decide when a task goes on, and any task may go on at any time. In
    [Drain] the statements of one fetch are one turn.

    ** What comes next

    Progress of a workflow under a fair scheduler; the Python adapters' single-job
    inserts. *)

From stdpp Require Export base gmap list strings option.
From stdpp Require Export sorting.
From coqutil Require Export Byte.
From coqutil Require Export Word.LittleEndianList.

#[global] Open Scope Z_scope.

(** ** Results, panics and the bytes of Rust values *)

(** [Result<A, E>]. *)
Inductive result (E A : Type) : Type :=
| Ok (a : A)
| Err (e : E).
Arguments Ok {E A} _.
Arguments Err {E A} _.

#[global] Instance result_ret {E} : MRet (result E) := λ A a, Ok a.
#[global] Instance result_bind {E} : MBind (result E) := λ A B f r,
  match r with Ok a => f a | Err e => Err e end.
#[global] Instance result_fmap {E} : FMap (result E) := λ A B f r,
  match r with Ok a => Ok (f a) | Err e => Err e end.

Definition map_err {E F A : Type} (f : E → F) (r : result E A) : result F A :=
  match r with Ok a => Ok a | Err e => Err (f e) end.

Definition is_ok {E A : Type} (r : result E A) : bool :=
  match r with Ok _ => true | Err _ => false end.

(** A computation that can also panic: an index out of bounds, or a
    subtraction below zero on an unsigned integer. *)
Inductive comp (E A : Type) : Type :=
| Ret (a : A)
| Throw (e : E)
| Panic.
Arguments Ret {E A} _.
Arguments Throw {E A} _.
Arguments Panic {E A}.

#[global] Instance comp_ret {E} : MRet (comp E) := λ A a, Ret a.
#[global] Instance comp_bind {E} : MBind (comp E) := λ A B f c,
  match c with Ret a => f a | Throw e => Throw e | Panic => Panic end.

Definition of_result {E A : Type} (r : result E A) : comp E A :=
  match r with Ok a => Ret a | Err e => Throw e end.

(** Lengths are compared with machine constants of several megabytes, so they
    live in [Z]. *)
Definition len {A : Type} (l : list A) : Z := Z.of_nat (length l).

(** [l[lo..hi]], which panics unless [lo <= hi <= l.len()]. *)
Definition slice {E A : Type} (lo hi : Z) (l : list A) : comp E (list A) :=
  if (0 <=? lo) && (lo <=? hi) && (hi <=? len l)
  then Ret (take (Z.to_nat (hi - lo)) (drop (Z.to_nat lo) l))
  else Panic.

(** [a - b] on [usize]. *)
Definition usub {E : Type} (a b : Z) : comp E Z :=
  if b <=? a then Ret (a - b) else Panic.

(** ** Machine integers *)

Definition in_unsigned (w : Z) (z : Z) : Prop := 0 <= z < 2 ^ w.
Definition in_signed (w : Z) (z : Z) : Prop := - 2 ^ (w - 1) <= z < 2 ^ (w - 1).

#[global] Instance in_unsigned_dec w z : Decision (in_unsigned w z).
Proof. unfold in_unsigned. apply _. Defined.
#[global] Instance in_signed_dec w z : Decision (in_signed w z).
Proof. unfold in_signed. apply _. Defined.

(** Two's complement reading of the low [w] bits. *)
Definition signed_wrap (w z : Z) : Z := (z + 2 ^ (w - 1)) mod 2 ^ w - 2 ^ (w - 1).

(** [uN::try_from(z)]. *)
Definition try_from_unsigned (w z : Z) : option Z :=
  if decide (in_unsigned w z) then Some z else None.

Definition to_le_bytes (n : nat) (z : Z) : list byte := le_split n z.
Definition from_le_unsigned (bs : list byte) : Z := le_combine bs.
Definition from_le_signed (bs : list byte) : Z :=
  signed_wrap (8 * len bs) (le_combine bs).

#[global] Arguments to_le_bytes : simpl never.
#[global] Arguments from_le_unsigned : simpl never.
#[global] Arguments from_le_signed : simpl never.

#[global] Instance byte_eq_dec : EqDecision byte := Byte.byte_eq_dec.

(** Rust's [String] is a byte string that holds valid UTF-8; Rocq's [string] is
    the byte string. *)
Definition as_bytes (s : string) : list byte := String.list_byte_of_string s.
Definition of_bytes (bs : list byte) : string := String.string_of_list_byte bs.
#[global] Arguments as_bytes : simpl never.
#[global] Arguments of_bytes : simpl never.

(** ** Notation and automation *)

Declare Scope gylo_scope.
Delimit Scope gylo_scope with gylo.
Notation "r '|>' f" := (f r) (at level 61, left associativity, only parsing) : gylo_scope.
#[global] Open Scope gylo_scope.

Create HintDb gylo discriminated.
Create Rewrite HintDb gylo.

(** Splits every conditional and match in sight, keeping the equations. *)
Ltac cases :=
  repeat (case_match || case_decide || case_bool_decide); simplify_eq/=.

(** Turns boolean comparisons into propositions. *)
Ltac bool_facts :=
  repeat match goal with
    | H : _ && _ = true |- _ => apply andb_prop in H as [? ?]
    | H : _ && _ = false |- _ => apply andb_false_iff in H
    | H : negb _ = true |- _ => apply negb_true_iff in H
    | H : negb _ = false |- _ => apply negb_false_iff in H
    | H : bool_decide _ = true |- _ => apply bool_decide_eq_true in H
    | H : bool_decide _ = false |- _ => apply bool_decide_eq_false in H
    | H : Bool.eqb _ _ = true |- _ => apply Bool.eqb_prop in H
    | H : (_ <=? _) = true |- _ => apply Z.leb_le in H
    | H : (_ <=? _) = false |- _ => apply Z.leb_gt in H
    | H : (_ <? _) = true |- _ => apply Z.ltb_lt in H
    | H : (_ <? _) = false |- _ => apply Z.ltb_ge in H
    | H : (_ =? _) = true |- _ => apply Z.eqb_eq in H
    | H : (_ =? _) = false |- _ => apply Z.eqb_neq in H
    end.

(** ** Lists *)

Lemma len_app {A} (l k : list A) : len (l ++ k) = len l + len k.
Proof. unfold len. rewrite length_app. lia. Qed.

Lemma len_cons {A} (x : A) (l : list A) : len (x :: l) = 1 + len l.
Proof. unfold len. simpl. lia. Qed.

Lemma len_nil {A} : len (@nil A) = 0.
Proof. done. Qed.

Lemma len_nonneg {A} (l : list A) : 0 <= len l.
Proof. unfold len. lia. Qed.

Lemma len_to_le_bytes n z : len (to_le_bytes n z) = Z.of_nat n.
Proof. unfold len, to_le_bytes. by rewrite length_le_split. Qed.

Lemma len_as_bytes s : len (as_bytes s) = Z.of_nat (String.length s).
Proof.
  unfold len, as_bytes, String.list_byte_of_string. f_equal. rewrite length_map.
  induction s as [|c s IH]; simpl; [done|]. by rewrite IH.
Qed.

#[export] Hint Rewrite @len_app @len_cons @len_nil @len_to_le_bytes : gylo.
#[export] Hint Resolve len_nonneg : gylo.

Lemma slice_app {E A} (a b c : list A) :
  slice (E:=E) (len a) (len a + len b) (a ++ b ++ c) = Ret b.
Proof.
  unfold slice. pose proof (len_nonneg a). pose proof (len_nonneg b).
  pose proof (len_nonneg c).
  assert ((0 <=? len a) && (len a <=? len a + len b) &&
          (len a + len b <=? len (a ++ b ++ c)) = true) as ->.
  { rewrite !len_app. apply andb_true_intro; split; [apply andb_true_intro; split|]; apply Z.leb_le; lia. }
  f_equal. unfold len.
  replace (Z.to_nat (Z.of_nat (length a))) with (length a) by lia.
  rewrite drop_app_length.
  replace (Z.to_nat (Z.of_nat (length a) + Z.of_nat (length b) - Z.of_nat (length a)))
    with (length b) by lia.
  by rewrite take_app_length.
Qed.

Lemma slice_at {E A} lo hi (l a b c : list A) :
  l = a ++ b ++ c → lo = len a → hi = lo + len b → slice (E:=E) lo hi l = Ret b.
Proof. intros -> -> ->. apply slice_app. Qed.

Lemma slice_ok {E A} lo hi (l : list A) :
  0 <= lo <= hi → hi <= len l →
  slice (E:=E) lo hi l = Ret (take (Z.to_nat (hi - lo)) (drop (Z.to_nat lo) l)).
Proof.
  intros [Hlo Hhi] Hlen. unfold slice.
  assert ((0 <=? lo) && (lo <=? hi) && (hi <=? len l) = true) as ->; [|done].
  apply andb_true_intro; split; [apply andb_true_intro; split|]; apply Z.leb_le; lia.
Qed.

(** Filtering a list of bindings keeps its keys distinct. *)
Lemma NoDup_filter_ids {A B} (p : A * B → bool) (l : list (A * B)) :
  NoDup l.*1 → NoDup (List.filter p l).*1.
Proof.
  induction l as [|x l IH]; [done|]. simpl. intros [Hx Hl]%NoDup_cons.
  destruct (p x); simpl; [|by apply IH]. apply NoDup_cons. split; [|by apply IH].
  intros Hin. apply Hx. apply list_elem_of_fmap in Hin as (y & -> & Hy).
  apply list_elem_of_fmap. exists y. split; [done|].
  rewrite list_elem_of_In, filter_In in Hy. apply list_elem_of_In, Hy.
Qed.

(** ** Sets *)

Lemma size_list_to_set_le `{Countable A} (l : list A) :
  (size (list_to_set l : gset A) <= length l)%nat.
Proof.
  assert (elements (list_to_set l : gset A) ⊆+ l) as Hs; [|by apply submseteq_length in Hs].
  apply NoDup_submseteq; [apply NoDup_elements|]. intros x. by rewrite elem_of_elements, elem_of_list_to_set.
Qed.

Lemma size_set_map_le `{Countable A, Countable B} (f : A → B) (X : gset A) :
  (size (set_map f X : gset B) <= size X)%nat.
Proof.
  unfold set_map. etrans; [apply size_list_to_set_le|]. by rewrite length_fmap.
Qed.

(** ** Little-endian integers and strings round trip *)

Lemma signed_wrap_id w z : 0 < w → in_signed w z → signed_wrap w (z mod 2 ^ w) = z.
Proof.
  intros Hw [Hlo Hhi]. unfold signed_wrap.
  assert (2 ^ w = 2 * 2 ^ (w - 1)) as Hpow.
  { rewrite <- Z.pow_succ_r by lia. f_equal. lia. }
  rewrite Zplus_mod_idemp_l. rewrite Z.mod_small; lia.
Qed.

Lemma from_le_signed_to_le n z :
  (0 < n)%nat → in_signed (8 * Z.of_nat n) z →
  from_le_signed (to_le_bytes n z) = z.
Proof.
  intros Hn Hz. unfold from_le_signed. rewrite len_to_le_bytes.
  unfold to_le_bytes. rewrite le_combine_split.
  replace (Z.of_nat n * 8) with (8 * Z.of_nat n) by lia.
  apply signed_wrap_id; [lia|done].
Qed.

Lemma from_le_unsigned_to_le n z :
  in_unsigned (8 * Z.of_nat n) z → from_le_unsigned (to_le_bytes n z) = z.
Proof.
  intros Hz. unfold from_le_unsigned, to_le_bytes. rewrite le_combine_split.
  apply Z.mod_small. by rewrite Z.mul_comm.
Qed.

Lemma from_le_signed_range bs :
  bs ≠ [] → in_signed (8 * len bs) (from_le_signed bs).
Proof.
  intros Hbs. unfold from_le_signed, signed_wrap, in_signed.
  assert (0 < len bs) as Hpos.
  { destruct bs; [done|]. rewrite len_cons. pose proof (len_nonneg bs). lia. }
  assert (2 ^ (8 * len bs) = 2 * 2 ^ (8 * len bs - 1)) as Hpow.
  { rewrite <- Z.pow_succ_r by lia. f_equal. lia. }
  pose proof (Z.mod_pos_bound (le_combine bs + 2 ^ (8 * len bs - 1)) (2 ^ (8 * len bs))).
  lia.
Qed.

Lemma to_le_from_le_signed n bs :
  length bs = n → to_le_bytes n (from_le_signed bs) = bs.
Proof.
  intros <-. unfold to_le_bytes, from_le_signed, signed_wrap, len.
  rewrite le_split_mod. rewrite (Z.mul_comm (Z.of_nat (length bs)) 8).
  rewrite Zminus_mod_idemp_l.
  replace (le_combine bs + 2 ^ (8 * Z.of_nat (length bs) - 1) - 2 ^ (8 * Z.of_nat (length bs) - 1))
    with (le_combine bs) by lia.
  rewrite Z.mul_comm, <- le_split_mod. apply split_le_combine.
Qed.

Lemma to_le_from_le_unsigned n bs :
  length bs = n → to_le_bytes n (from_le_unsigned bs) = bs.
Proof. intros <-. apply split_le_combine. Qed.

Lemma of_bytes_as_bytes s : of_bytes (as_bytes s) = s.
Proof. apply String.string_of_list_byte_of_string. Qed.

Lemma as_bytes_of_bytes bs : as_bytes (of_bytes bs) = bs.
Proof. apply String.list_byte_of_string_of_list_byte. Qed.

#[export] Hint Rewrite of_bytes_as_bytes as_bytes_of_bytes : gylo.
