(* ===== verification/Utf8.v ===== *)
(** * Rust strings

    What the repository uses of Rust's [str]: UTF-8 validation
    ([std::str::from_utf8]), decoding to [char]s, Unicode white space
    ([split_whitespace], [trim]), [starts_with], [String::from_utf8_lossy].
    A [String] of the program is modelled by the byte string of its UTF-8
    encoding, with [utf8] as the type's invariant. *)

From S2P Require Import Prelude.

Module Utf8.

Definition u (b : byte) : Z := byte.unsigned b.

Definition between (lo hi z : Z) : bool := (lo <=? z) && (z <=? hi).

(** A continuation byte, [10xxxxxx]. *)
Definition cont (b : byte) : bool := between 0x80 0xBF (u b).

(** The second byte a three-byte sequence admits after [b0]: no overlong
    encodings, no surrogates. *)
Definition second_of_three (b0 b1 : byte) : bool :=
  if u b0 =? 0xE0 then between 0xA0 0xBF (u b1)
  else if u b0 =? 0xED then between 0x80 0x9F (u b1)
  else cont b1.

(** The second byte a four-byte sequence admits after [b0]: no overlong
    encodings, nothing above U+10FFFF. *)
Definition second_of_four (b0 b1 : byte) : bool :=
  if u b0 =? 0xF0 then between 0x90 0xBF (u b1)
  else if u b0 =? 0xF4 then between 0x80 0x8F (u b1)
  else cont b1.

(** Splits one character off the front: its code point and the bytes after it. *)
Definition next_char (bs : list byte) : option (Z * list byte) :=
  match bs with
  | [] => None
  | b0 :: r0 =>
    if u b0 <? 0x80 then Some (u b0, r0)
    else if between 0xC2 0xDF (u b0) then
      match r0 with
      | b1 :: r1 =>
        if cont b1 then Some (Z.lor (Z.shiftl (Z.land (u b0) 0x1F) 6) (Z.land (u b1) 0x3F), r1)
        else None
      | _ => None
      end
    else if between 0xE0 0xEF (u b0) then
      match r0 with
      | b1 :: b2 :: r2 =>
        if second_of_three b0 b1 && cont b2 then
          Some (Z.lor (Z.shiftl (Z.land (u b0) 0x0F) 12)
                  (Z.lor (Z.shiftl (Z.land (u b1) 0x3F) 6) (Z.land (u b2) 0x3F)), r2)
        else None
      | _ => None
      end
    else if between 0xF0 0xF4 (u b0) then
      match r0 with
      | b1 :: b2 :: b3 :: r3 =>
        if second_of_four b0 b1 && cont b2 && cont b3 then
          Some (Z.lor (Z.shiftl (Z.land (u b0) 0x07) 18)
                  (Z.lor (Z.shiftl (Z.land (u b1) 0x3F) 12)
                    (Z.lor (Z.shiftl (Z.land (u b2) 0x3F) 6) (Z.land (u b3) 0x3F))), r3)
        else None
      | _ => None
      end
    else None
  end.

(** Every character consumes a byte, so as much fuel as there are bytes is
    enough ([chars_fuel]). *)
Fixpoint chars_of (fuel : nat) (bs : list byte) : option (list Z) :=
  match bs with
  | [] => Some []
  | _ =>
    match fuel with
    | O => None
    | S fuel' =>
      match next_char bs with
      | Some (c, rest) => cons c <$> chars_of fuel' rest
      | None => None
      end
    end
  end.

(** The characters of a byte string, [None] when it is not UTF-8. *)
Definition chars (bs : list byte) : option (list Z) := chars_of (length bs) bs.

(** The type invariant of [String] and [str]. *)
Definition utf8 (s : string) : Prop := is_Some (chars (as_bytes s)).

#[global] Instance utf8_dec s : Decision (utf8 s).
Proof. unfold utf8. apply _. Defined.

(** [std::str::from_utf8]. *)
Definition from_utf8 (bs : list byte) : option string :=
  match chars bs with Some _ => Some (of_bytes bs) | None => None end.

(** [char::is_whitespace]: the Unicode [White_Space] property. *)
Definition is_whitespace (c : Z) : bool :=
  between 0x09 0x0D c || (c =? 0x20) || (c =? 0x85) || (c =? 0xA0) || (c =? 0x1680)
  || between 0x2000 0x200A c || (c =? 0x2028) || (c =? 0x2029) || (c =? 0x202F)
  || (c =? 0x205F) || (c =? 0x3000).

(** The characters of a [str], which by its invariant always decode. *)
Definition str_chars (s : string) : list Z := default [] (chars (as_bytes s)).

(** The words of [cs], with [cur] the reversed start of the word being read. *)
Fixpoint words_from (cur : list Z) (cs : list Z) : list (list Z) :=
  match cs with
  | [] => if decide (cur = []) then [] else [rev cur]
  | c :: cs' =>
    if is_whitespace c
    then (if decide (cur = []) then [] else [rev cur]) ++ words_from [] cs'
    else words_from (c :: cur) cs'
  end.

(** [s.split_whitespace()], each word as its characters. *)
Definition split_whitespace (s : string) : list (list Z) := words_from [] (str_chars s).

(** [s.trim().is_empty()]: nothing is left once white space is stripped from
    both ends exactly when every character is white space. *)
Definition trim_is_empty (s : string) : bool := forallb is_whitespace (str_chars s).

(** [s.starts_with(' ')]. *)
Definition starts_with_space (s : string) : bool :=
  match as_bytes s with b :: _ => u b =? 0x20 | [] => false end.

(** [s.lines()]: split after each newline; the newline goes, and a carriage return
    before it; what follows the last newline is a line unless it is empty. *)
Definition strip_cr (line : list byte) : list byte :=
  match rev line with
  | b :: r => if decide (b = Byte.x0d) then rev r else line
  | [] => line
  end.

Fixpoint lines_from (cur bs : list byte) : list (list byte) :=
  match bs with
  | [] => if decide (cur = []) then [] else [cur]
  | b :: bs' => if decide (b = Byte.x0a) then strip_cr cur :: lines_from [] bs' else lines_from (cur ++ [b]) bs'
  end.

Definition str_lines (s : string) : list string := of_bytes <$> lines_from [] (as_bytes s).

(** [{:<n}] and [{:>n}]: padded with spaces to [n] characters. *)
Definition spaces (n : nat) : string := of_bytes (replicate n Byte.x20).
Definition pad_right (n : nat) (s : string) : string := s +:+ spaces (n - length (str_chars s)).
Definition pad_left (n : nat) (s : string) : string := spaces (n - length (str_chars s)) +:+ s.

(** How many bytes of a sequence that is not a character belong together: the
    longest prefix that could have started one, at least one byte. *)
Definition bad_prefix (bs : list byte) : nat :=
  match bs with
  | b0 :: b1 :: r =>
    if between 0xE0 0xEF (u b0) then (if second_of_three b0 b1 then 2 else 1)
    else if between 0xF0 0xF4 (u b0) then
      if second_of_four b0 b1 then
        match r with b2 :: _ => if cont b2 then 3 else 2 | [] => 2 end
      else 1
    else 1
  | _ => 1
  end.

(** U+FFFD. *)
Definition replacement : list byte := [Byte.xef; Byte.xbf; Byte.xbd].

Fixpoint lossy_of (fuel : nat) (bs : list byte) : list byte :=
  match fuel with
  | O => []
  | S fuel' =>
    match bs with
    | [] => []
    | _ =>
      match next_char bs with
      | Some (_, rest) => take (length bs - length rest) bs ++ lossy_of fuel' rest
      | None => replacement ++ lossy_of fuel' (drop (bad_prefix bs) bs)
      end
    end
  end.

(** [String::from_utf8_lossy]; every turn consumes a byte. *)
Definition from_utf8_lossy (bs : list byte) : string := of_bytes (lossy_of (length bs) bs).

(** ** Facts *)

Lemma next_char_shorter bs c rest :
  next_char bs = Some (c, rest) → (length rest < length bs)%nat.
Proof. unfold next_char. intros H. cases; simpl; lia. Qed.

Lemma next_char_suffix bs c rest :
  next_char bs = Some (c, rest) → bs = take (length bs - length rest) bs ++ rest.
Proof.
  intros H. assert (∃ pre, bs = pre ++ rest) as [pre ->].
  { unfold next_char in H. cases;
      solve [by eexists [_] | by eexists [_; _] | by eexists [_; _; _] | by eexists [_; _; _; _]]. }
  rewrite length_app. replace (length pre + length rest - length rest)%nat with (length pre) by lia.
  by rewrite take_app_length.
Qed.

Lemma next_char_app bs c rest k :
  next_char bs = Some (c, rest) → next_char (bs ++ k) = Some (c, rest ++ k).
Proof.
  unfold next_char. intros H.
  repeat (case_match; simplify_eq/=; try done).
Qed.

Lemma chars_fuel n m bs :
  (length bs <= n)%nat → (length bs <= m)%nat → chars_of n bs = chars_of m bs.
Proof.
  revert m bs. induction n as [|n IH]; intros m bs Hn Hm.
  - destruct bs; [by destruct m|simpl in Hn; lia].
  - destruct bs as [|b bs]; [by destruct m|].
    destruct m as [|m]; [simpl in Hm; lia|]. cbn [chars_of].
    destruct (next_char (b :: bs)) as [[c rest]|] eqn:E; [|done].
    apply next_char_shorter in E. simpl in *. f_equal. apply IH; lia.
Qed.

Lemma chars_cons bs c rest :
  next_char bs = Some (c, rest) → chars bs = cons c <$> chars rest.
Proof.
  intros E. pose proof (next_char_shorter _ _ _ E) as Hlt. unfold chars.
  destruct bs as [|b bs]; [done|]. cbn [length chars_of] in *. rewrite E. f_equal.
  apply chars_fuel; lia.
Qed.

Lemma from_utf8_as_bytes s : utf8 s → from_utf8 (as_bytes s) = Some s.
Proof. intros [cs Hcs]. unfold from_utf8. rewrite Hcs. by rewrite of_bytes_as_bytes. Qed.

Lemma from_utf8_Some bs s : from_utf8 bs = Some s → as_bytes s = bs ∧ utf8 s.
Proof.
  unfold from_utf8, utf8. intros H. cases. rewrite as_bytes_of_bytes. eauto.
Qed.

Lemma from_utf8_None bs : from_utf8 bs = None ↔ ¬ utf8 (of_bytes bs).
Proof.
  unfold from_utf8, utf8. rewrite as_bytes_of_bytes.
  rewrite <- eq_None_not_Some. by destruct (chars bs).
Qed.

(** Concatenation keeps strings valid: [format!] of valid parts is valid. *)
Lemma chars_app a b ca cb :
  chars a = Some ca → chars b = Some cb → chars (a ++ b) = Some (ca ++ cb).
Proof.
  intros Ha Hb. remember (length a) as n eqn:Hn. revert a ca Ha Hn.
  induction (lt_wf n) as [n _ IH]; intros a ca Ha ->.
  destruct (next_char a) as [[c rest]|] eqn:E.
  - rewrite (chars_cons _ _ _ E) in Ha. rewrite (chars_cons _ _ _ (next_char_app _ _ _ b E)).
    destruct (chars rest) as [cr|] eqn:Er; simplify_eq/=.
    by rewrite (IH _ (next_char_shorter _ _ _ E) rest cr Er eq_refl).
  - destruct a as [|x a]; [injection Ha as <-; exact Hb|].
    unfold chars in Ha. cbn [length chars_of] in Ha. by rewrite E in Ha.
Qed.

Lemma as_bytes_app a b : as_bytes (a +:+ b) = as_bytes a ++ as_bytes b.
Proof.
  unfold as_bytes, String.list_byte_of_string. rewrite <- map_app. f_equal.
  induction a as [|c a IH]; [done|]. simpl. by rewrite IH.
Qed.

Lemma utf8_app a b : utf8 a → utf8 b → utf8 (a +:+ b).
Proof.
  intros [ca Ha] [cb Hb]. exists (ca ++ cb).
  rewrite as_bytes_app. by apply chars_app.
Qed.

Lemma str_chars_app a b : utf8 a → utf8 b → str_chars (a +:+ b) = str_chars a ++ str_chars b.
Proof.
  intros [ca Ha] [cb Hb]. unfold str_chars. by rewrite as_bytes_app, (chars_app _ _ _ _ Ha Hb), Ha, Hb.
Qed.

Lemma words_from_app cur a c b :
  is_whitespace c = true → words_from cur (a ++ c :: b) = words_from cur a ++ words_from [] b.
Proof.
  intros Hc. revert cur. induction a as [|x a IH]; intros cur; simpl.
  - by rewrite Hc.
  - destruct (is_whitespace x); rewrite IH; by rewrite ?app_assoc.
Qed.

(** The replacement character is three bytes, for at least one dropped. *)
Lemma lossy_of_len fuel bs : len (lossy_of fuel bs) <= 3 * len bs.
Proof.
  revert bs. induction fuel as [|fuel IH]; intros bs; cbn [lossy_of]; [rewrite len_nil; pose proof (len_nonneg bs); lia|].
  destruct bs as [|b bs]; [done|].
  destruct (next_char (b :: bs)) as [[c rest]|] eqn:E; rewrite len_app.
  - apply next_char_shorter in E. specialize (IH rest). unfold len in *. rewrite length_take. lia.
  - specialize (IH (drop (bad_prefix (b :: bs)) (b :: bs))).
    assert (1 <= bad_prefix (b :: bs))%nat by (unfold bad_prefix; repeat case_match; lia).
    unfold len in *. rewrite length_drop in IH.
    change (length replacement) with 3%nat. cbn [length] in *. lia.
Qed.

Lemma lossy_len bs : len (as_bytes (from_utf8_lossy bs)) <= 3 * len bs.
Proof. unfold from_utf8_lossy. rewrite as_bytes_of_bytes. apply lossy_of_len. Qed.

(** Valid text passes through unchanged. *)
Lemma lossy_valid s : utf8 s → from_utf8_lossy (as_bytes s) = s.
Proof.
  intros Hs. unfold from_utf8_lossy. rewrite <- (of_bytes_as_bytes s) at 3. f_equal.
  assert (∀ n bs, (length bs <= n)%nat → is_Some (chars bs) → lossy_of n bs = bs) as H; [|by apply H].
  clear. induction n as [|n IH]; intros bs Hn [cs Hcs]; [by destruct bs; [|simpl in Hn; lia]|].
  destruct bs as [|b bs]; [done|]. cbn [lossy_of].
  destruct (next_char (b :: bs)) as [[c rest]|] eqn:E.
  - pose proof (next_char_shorter _ _ _ E) as Hlt. rewrite (chars_cons _ _ _ E) in Hcs.
    rewrite IH; [|simpl in *; lia|by destruct (chars rest)].
    symmetry. by eapply next_char_suffix.
  - unfold chars in Hcs. cbn [length chars_of] in Hcs. by rewrite E in Hcs.
Qed.

End Utf8.
