(* ===== verification/Core.v ===== *)
(** * The job every backend hands out

    [crates/gylo-core/src/lib.rs]. *)

From S2P Require Import Prelude.

Module Core.

(** [gylo_core::Job], as fetched. *)
Record Job := {
  job_id : Z;
  job_task : string;
  job_payload : list byte;
  job_attempt : Z;
  job_max_attempts : Z;
  job_durable : bool
}.

End Core.
