(* ===== verification/Capability.v ===== *)
(** * Backend capabilities

    [crates/gylo-core/src/capability.rs], with the two declarations of what a
    backend can do: [gylo_pg::CAPABILITIES] and [gylo_redis::Backend::capabilities].
    A worker refuses to start when its configuration asks for a feature the
    backend does not have. *)

From S2P Require Import Prelude.

Module Capability.

Record Capabilities := {
  backend : string;
  durable_acknowledgement : bool;
  transactional_enqueue : bool;
  priorities : bool;
  delayed_jobs : bool;
  unique_jobs : bool;
  keyed_concurrency : bool;
  workflows : bool;
  durable_steps : bool;
  cron : bool;
  results : bool
}.

Inductive Feature :=
| DurableAcknowledgement
| TransactionalEnqueue
| Priorities
| DelayedJobs
| UniqueJobs
| KeyedConcurrency
| Workflows
| DurableSteps
| Cron
| Results.

#[global] Instance Feature_eq_dec : EqDecision Feature.
Proof. solve_decision. Defined.

Definition as_str (f : Feature) : string :=
  match f with
  | DurableAcknowledgement => "durable acknowledgement"
  | TransactionalEnqueue => "transactional enqueue"
  | Priorities => "priorities"
  | DelayedJobs => "delayed jobs"
  | UniqueJobs => "unique jobs"
  | KeyedConcurrency => "keyed concurrency"
  | Workflows => "workflows"
  | DurableSteps => "durable steps"
  | Cron => "cron"
  | Results => "results"
  end.

Record Unsupported := {
  refused_by : string;
  feature : Feature
}.

(** The [#[error]] rendering of [Unsupported]. *)
Definition Unsupported_to_string (e : Unsupported) : string :=
  "the " +:+ refused_by e +:+ " backend does not support " +:+ as_str (feature e).

Definition supports (c : Capabilities) (f : Feature) : bool :=
  match f with
  | DurableAcknowledgement => durable_acknowledgement c
  | TransactionalEnqueue => transactional_enqueue c
  | Priorities => priorities c
  | DelayedJobs => delayed_jobs c
  | UniqueJobs => unique_jobs c
  | KeyedConcurrency => keyed_concurrency c
  | Workflows => workflows c
  | DurableSteps => durable_steps c
  | Cron => cron c
  | Results => results c
  end.

Fixpoint require (c : Capabilities) (wanted : list Feature) : result Unsupported unit :=
  match wanted with
  | [] => Ok tt
  | f :: rest =>
    if negb (supports c f)
    then Err {| refused_by := backend c; feature := f |}
    else require c rest
  end.

(** The array [gaps] walks, in its order. *)
Definition every_feature : list Feature :=
  [DurableAcknowledgement; TransactionalEnqueue; Priorities; DelayedJobs; UniqueJobs;
   KeyedConcurrency; Workflows; DurableSteps; Cron; Results].

Definition gaps (c : Capabilities) : list Feature :=
  List.filter (λ f, negb (supports c f)) every_feature.

(** [gylo_pg::CAPABILITIES]. *)
Definition pg_capabilities : Capabilities := {|
  backend := "postgres";
  durable_acknowledgement := true;
  transactional_enqueue := true;
  priorities := true;
  delayed_jobs := true;
  unique_jobs := true;
  keyed_concurrency := true;
  workflows := true;
  durable_steps := true;
  cron := true;
  results := true
|}.

(** [gylo_redis::Backend::capabilities], given what [fsync_every_write] found. *)
Definition redis_capabilities (durable : bool) : Capabilities := {|
  backend := "redis";
  durable_acknowledgement := durable;
  transactional_enqueue := false;
  priorities := true;
  delayed_jobs := true;
  unique_jobs := false;
  keyed_concurrency := false;
  workflows := false;
  durable_steps := false;
  cron := false;
  results := false
|}.

(** ** Facts *)

Lemma every_feature_complete f : f ∈ every_feature.
Proof. destruct f; unfold every_feature; set_solver. Qed.

Lemma require_app c pre f post :
  Forall (λ g, supports c g = true) pre → supports c f = false →
  require c (pre ++ f :: post) = Err {| refused_by := backend c; feature := f |}.
Proof.
  intros Hpre Hf. induction Hpre as [|g pre Hg _ IH]; simpl.
  - by rewrite Hf.
  - by rewrite Hg.
Qed.

Lemma require_supported c wanted :
  Forall (λ g, supports c g = true) wanted → require c wanted = Ok tt.
Proof. induction 1 as [|g w Hg _ IH]; simpl; [done|]. by rewrite Hg. Qed.

Lemma first_gap c wanted :
  Forall (λ g, supports c g = true) wanted ∨
  ∃ pre f post, wanted = pre ++ f :: post ∧
    Forall (λ g, supports c g = true) pre ∧ supports c f = false.
Proof.
  induction wanted as [|g w IH]; [by left|].
  destruct (supports c g) eqn:Hg.
  - destruct IH as [IH|(pre & f & post & -> & Hpre & Hf)]; [left; by constructor|].
    right. exists (g :: pre), f, post. split; [done|]. by split; [constructor|].
  - right. by exists [], g, w.
Qed.

Lemma elem_of_gaps c f : f ∈ gaps c ↔ supports c f = false.
Proof.
  unfold gaps. rewrite list_elem_of_In, filter_In, negb_true_iff.
  split; [by intros [_ ?]|]. intros Hf. split; [|done].
  apply list_elem_of_In, every_feature_complete.
Qed.

(** [require] and [gaps] against their contract: every answer is either
    acceptance of a list the backend supports in full, or the first feature of
    the list it does not support. *)
Lemma require_iff c wanted e :
  require c wanted = Err e ↔
  ∃ pre post, wanted = pre ++ feature e :: post ∧
    Forall (λ g, supports c g = true) pre ∧
    supports c (feature e) = false ∧ refused_by e = backend c.
Proof.
  split.
  - intros He. destruct (first_gap c wanted) as [Hall|(pre & f & post & -> & Hpre & Hf)].
    + by rewrite (require_supported _ _ Hall) in He.
    + rewrite (require_app _ _ _ _ Hpre Hf) in He. simplify_eq/=. by exists pre, post.
  - intros (pre & post & -> & Hpre & Hf & Hb). rewrite (require_app _ _ _ _ Hpre Hf).
    destruct e; simplify_eq/=. done.
Qed.

End Capability.
