(* ===== verification/Protocol.v ===== *)
(** * The wire protocol

    [crates/gylo-core/src/protocol.rs]: the messages the supervisor and its
    Python children exchange, [encode] into a shared buffer, and the [Decoder]
    that reassembles frames from arbitrarily chunked reads.

    Four kinds of message are carried as MessagePack. [rmp_serde] is a
    dependency, not code of this repository, so it is a parameter: the class
    [RmpSerde] has one [to_vec]/[from_slice] pair per wire type, and
    [RmpSerdeLaws] states what the crate documents, that a value it wrote reads
    back as itself and that what it reads is a value of the type. *)

From S2P Require Import Prelude.
From S2P Require Import Utf8.
Import Utf8.

Module Protocol.

(** ** Constants *)

Definition HEADER_BYTES : Z := 4.
Definition KIND_DISPATCH : byte := Byte.x00.
Definition KIND_COMPLETE : byte := Byte.x01.
Definition KIND_REGISTER : byte := Byte.x02.
Definition KIND_STEPS : byte := Byte.x03.
Definition KIND_RECORD : byte := Byte.x04.
Definition KIND_STORED : byte := Byte.x05.
Definition OUTCOME_SUCCESS : byte := Byte.x00.
Definition OUTCOME_RETRY : byte := Byte.x01.
Definition OUTCOME_TERMINAL : byte := Byte.x02.
Definition COMPACT_THRESHOLD : Z := Z.shiftl 1 16.
Definition MAX_FRAME_BYTES : Z := 16 * 1024 * 1024.
Definition DISPATCH_HEAD_BYTES : Z := 1 + 8 + 2 + 2 + 2.
Definition COMPLETE_HEAD_BYTES : Z := 1 + 8 + 1.

(** ** Data *)

Inductive Outcome :=
| Success (result : list byte)
| Failure (error : string) (retry : bool).

(** [WireStep] and its borrowing twin [WireStepRef]. *)
Record WireStep := { step_name : string; step_result : list byte }.

(** [WireRecord] and [WireRecordRef]. *)
Record WireRecord := { record_id : Z; record_name : string; record_result : list byte }.

Record CronRegistration := {
  cr_name : string;
  cr_queue : string;
  cr_task : string;
  cr_expression : string;
  cr_timezone : string;
  cr_payload : list byte
}.

Inductive Message :=
| Register (entries : list CronRegistration)
| Steps (id : Z) (steps : list (string * list byte))
| Record_ (id : Z) (name : string) (result : list byte)
| Stored (id : Z) (name : string)
| Dispatch (id : Z) (attempt : Z) (max_attempts : Z) (task : string) (payload : list byte)
| Complete (id : Z) (outcome : Outcome).

Inductive ProtocolError :=
| FrameTooLarge (n : Z)
| Truncated
| UnknownKind (b : byte)
| UnknownOutcome (b : byte)
| NotUtf8 (what : string)
| TaskNameTooLong (n : Z)
| Malformed (reason : string).

#[global] Instance Outcome_eq_dec : EqDecision Outcome.
Proof. solve_decision. Defined.
#[global] Instance CronRegistration_eq_dec : EqDecision CronRegistration.
Proof. solve_decision. Defined.
#[global] Instance Message_eq_dec : EqDecision Message.
Proof. solve_decision. Defined.
#[global] Instance ProtocolError_eq_dec : EqDecision ProtocolError.
Proof. solve_decision. Defined.

(** ** What the Rust types guarantee of a value *)

Definition wf_i64 (z : Z) : Prop := in_signed 64 z.
Definition wf_i16 (z : Z) : Prop := in_signed 16 z.

Definition wf_outcome (o : Outcome) : Prop :=
  match o with Success _ => True | Failure e _ => utf8 e end.

Definition wf_registration (c : CronRegistration) : Prop :=
  utf8 (cr_name c) ∧ utf8 (cr_queue c) ∧ utf8 (cr_task c) ∧
  utf8 (cr_expression c) ∧ utf8 (cr_timezone c).

Definition wf_step (s : WireStep) : Prop := utf8 (step_name s).
Definition wf_record (r : WireRecord) : Prop := wf_i64 (record_id r) ∧ utf8 (record_name r).

Definition wf_message (m : Message) : Prop :=
  match m with
  | Register es => Forall wf_registration es
  | Steps id steps => wf_i64 id ∧ Forall (λ s, utf8 s.1) steps
  | Record_ id name _ => wf_i64 id ∧ utf8 name
  | Stored id name => wf_i64 id ∧ utf8 name
  | Dispatch id a ma task _ => wf_i64 id ∧ wf_i16 a ∧ wf_i16 ma ∧ utf8 task
  | Complete id o => wf_i64 id ∧ wf_outcome o
  end.

#[global] Instance wf_message_dec m : Decision (wf_message m).
Proof.
  destruct m as [es|id steps|id name r|id name|id a ma t p|id o];
    try destruct o; simpl; unfold wf_i64, wf_i16, wf_registration; apply _.
Defined.

(** ** MessagePack, a parameter *)

Class RmpSerde := {
  to_vec_register : list CronRegistration → result string (list byte);
  from_slice_register : list byte → result string (list CronRegistration);
  to_vec_steps : Z * list WireStep → result string (list byte);
  from_slice_steps : list byte → result string (Z * list WireStep);
  to_vec_record : WireRecord → result string (list byte);
  from_slice_record : list byte → result string WireRecord;
  to_vec_stored : Z * string → result string (list byte);
  from_slice_stored : list byte → result string (Z * string)
}.

(** A writer and a reader for values of one type: what was written reads back,
    and whatever reads is a value of the type. *)
Definition codec {A} (wf : A → Prop) (w : A → result string (list byte))
    (r : list byte → result string A) : Prop :=
  (∀ v bs, wf v → w v = Ok bs → r bs = Ok v) ∧ (∀ bs v, r bs = Ok v → wf v).

Class RmpSerdeLaws (R : RmpSerde) : Prop := {
  register_codec : codec (Forall wf_registration) to_vec_register from_slice_register;
  steps_codec :
    codec (λ p, wf_i64 p.1 ∧ Forall wf_step p.2) to_vec_steps from_slice_steps;
  record_codec : codec wf_record to_vec_record from_slice_record;
  stored_codec : codec (λ p, wf_i64 p.1 ∧ utf8 p.2) to_vec_stored from_slice_stored
}.

(** [pack] and [unpack], at the type each call site uses. *)
Definition pack {A} (to_vec : A → result string (list byte)) (v : A)
  : result ProtocolError (list byte) := map_err Malformed (to_vec v).

Definition unpack {A} (from_slice : list byte → result string A) (bs : list byte)
  : result ProtocolError A := map_err Malformed (from_slice bs).

(** ** Encoding

    A computation over the output buffer: it appends bytes and may fail, and a
    failure keeps whatever had been appended, as the [&mut Vec<u8>] does. *)

Definition writer (A : Type) : Type := list byte → result ProtocolError A * list byte.

#[global] Instance writer_ret : MRet writer := λ A a out, (Ok a, out).
#[global] Instance writer_bind : MBind writer := λ A B f c out,
  match c out with
  | (Ok a, out') => f a out'
  | (Err e, out') => (Err e, out')
  end.

Definition throw {A} (e : ProtocolError) : writer A := λ out, (Err e, out).
Definition lift {A} (r : result ProtocolError A) : writer A := λ out, (r, out).
Definition extend_from_slice (bs : list byte) : writer unit := λ out, (Ok tt, out ++ bs).
Definition push (b : byte) : writer unit := extend_from_slice [b].

Section Codec.
Context {R : RmpSerde}.

(** The packed body, empty for the hand-framed kinds, and the body's length. *)
Definition measure (message : Message) : result ProtocolError (list byte * Z) :=
  match message with
  | Register entries =>
    packed ← pack to_vec_register entries; Ok (packed, 1 + len packed)
  | Steps id steps =>
    let wire := (λ s, {| step_name := s.1; step_result := s.2 |}) <$> steps in
    packed ← pack to_vec_steps (id, wire); Ok (packed, 1 + len packed)
  | Record_ id name r =>
    packed ← pack to_vec_record {| record_id := id; record_name := name; record_result := r |};
    Ok (packed, 1 + len packed)
  | Stored id name =>
    packed ← pack to_vec_stored (id, name); Ok (packed, 1 + len packed)
  | Dispatch _ _ _ task payload =>
    match try_from_unsigned 16 (len (as_bytes task)) with
    | None => Err (TaskNameTooLong (len (as_bytes task)))
    | Some _ => Ok ([], DISPATCH_HEAD_BYTES + len (as_bytes task) + len payload)
    end
  | Complete _ (Success r) => Ok ([], COMPLETE_HEAD_BYTES + len r)
  | Complete _ (Failure error _) => Ok ([], COMPLETE_HEAD_BYTES + len (as_bytes error))
  end.

(** The second [match] of [encode_frame]: the body. *)
Definition write_body (message : Message) (packed : list byte) : writer unit :=
  match message with
  | Register _ => push KIND_REGISTER;; extend_from_slice packed
  | Steps _ _ => push KIND_STEPS;; extend_from_slice packed
  | Record_ _ _ _ => push KIND_RECORD;; extend_from_slice packed
  | Stored _ _ => push KIND_STORED;; extend_from_slice packed
  | Dispatch id attempt max_attempts task payload =>
    match try_from_unsigned 16 (len (as_bytes task)) with
    | None => throw (TaskNameTooLong (len (as_bytes task)))
    | Some name_len =>
      push KIND_DISPATCH;;
      extend_from_slice (to_le_bytes 8 id);;
      extend_from_slice (to_le_bytes 2 attempt);;
      extend_from_slice (to_le_bytes 2 max_attempts);;
      extend_from_slice (to_le_bytes 2 name_len);;
      extend_from_slice (as_bytes task);;
      extend_from_slice payload
    end
  | Complete id outcome =>
    push KIND_COMPLETE;;
    extend_from_slice (to_le_bytes 8 id);;
    match outcome with
    | Success r => push OUTCOME_SUCCESS;; extend_from_slice r
    | Failure error retry =>
      push (if retry then OUTCOME_RETRY else OUTCOME_TERMINAL);;
      extend_from_slice (as_bytes error)
    end
  end.

Definition encode_frame (message : Message) : writer unit :=
  '(packed, body_len) ← lift (measure message);
  if MAX_FRAME_BYTES <? body_len then throw (FrameTooLarge body_len)
  else match try_from_unsigned 32 body_len with
  | None => throw (FrameTooLarge body_len)
  | Some header =>
    extend_from_slice (to_le_bytes 4 header);;
    write_body message packed
  end.

(** [encode]: on failure the buffer is truncated to where it started. *)
Definition encode (message : Message) : writer unit := λ out,
  let start := length out in
  match encode_frame message out with
  | (Ok _, out') => (Ok tt, out')
  | (Err error, out') => (Err error, take start out')
  end.

(** ** Decoding *)

(** [rest[lo..hi]] read as a signed or unsigned integer. *)
Definition read_signed (lo hi : Z) (rest : list byte) : comp ProtocolError Z :=
  bs ← slice lo hi rest; mret (from_le_signed bs).
Definition read_unsigned (lo hi : Z) (rest : list byte) : comp ProtocolError Z :=
  bs ← slice lo hi rest; mret (from_le_unsigned bs).

Definition read_str (what : string) (bs : list byte) : comp ProtocolError string :=
  match from_utf8 bs with Some s => Ret s | None => Throw (NotUtf8 what) end.

Definition decode_dispatch (rest : list byte) : comp ProtocolError Message :=
  if len rest <? 14 then Throw Truncated else
  id ← read_signed 0 8 rest;
  attempt ← read_signed 8 10 rest;
  max_attempts ← read_signed 10 12 rest;
  name_len ← read_unsigned 12 14 rest;
  rest' ← slice 14 (len rest) rest;
  if len rest' <? name_len then Throw Truncated else
  name ← slice 0 name_len rest';
  task ← read_str "task name" name;
  payload ← slice name_len (len rest') rest';
  mret (Dispatch id attempt max_attempts task payload).

(** [rest[i]]. *)
Definition index (i : Z) (rest : list byte) : comp ProtocolError byte :=
  match rest !! Z.to_nat i with Some b => Ret b | None => Panic end.

Definition decode_complete (rest : list byte) : comp ProtocolError Message :=
  if len rest <? 9 then Throw Truncated else
  id ← read_signed 0 8 rest;
  code ← index 8 rest;
  tail ← slice 9 (len rest) rest;
  if decide (code = OUTCOME_SUCCESS) then mret (Complete id (Success tail))
  else if decide (code = OUTCOME_RETRY ∨ code = OUTCOME_TERMINAL) then
    error ← read_str "error message" tail;
    mret (Complete id (Failure error (bool_decide (code = OUTCOME_RETRY))))
  else Throw (UnknownOutcome code).

Definition decode_body (body : list byte) : comp ProtocolError Message :=
  match body with
  | [] => Throw Truncated
  | kind :: rest =>
    if decide (kind = KIND_DISPATCH) then decode_dispatch rest
    else if decide (kind = KIND_COMPLETE) then decode_complete rest
    else if decide (kind = KIND_REGISTER) then
      of_result (Register <$> unpack from_slice_register rest)
    else if decide (kind = KIND_STEPS) then
      of_result ((λ p : Z * list WireStep,
                    Steps p.1 ((λ s, (step_name s, step_result s)) <$> p.2))
                 <$> unpack from_slice_steps rest)
    else if decide (kind = KIND_RECORD) then
      of_result ((λ r, Record_ (record_id r) (record_name r) (record_result r))
                 <$> unpack from_slice_record rest)
    else if decide (kind = KIND_STORED) then
      of_result ((λ p : Z * string, Stored p.1 p.2) <$> unpack from_slice_stored rest)
    else Throw (UnknownKind kind)
  end.

Record Decoder := { buf : list byte; pos : Z }.

Definition new : Decoder := {| buf := []; pos := 0 |}.

Definition extend (d : Decoder) (bytes : list byte) : Decoder :=
  {| buf := buf d ++ bytes; pos := pos d |}.

Definition buffered (d : Decoder) : comp ProtocolError Z := usub (len (buf d)) (pos d).

(** The [?] and the panics of [next_message]: anything but a value. *)
Definition escalate {A B} (c : comp ProtocolError A) : comp ProtocolError B :=
  match c with Throw e => Throw e | _ => Panic end.

(** [next_message]. The decoder is returned beside the answer because an early
    return leaves it as it was. *)
Definition next_message (d : Decoder) : comp ProtocolError (option Message) * Decoder :=
  match buffered d with
  | Ret n =>
    if n <? HEADER_BYTES then (Ret None, d) else
    match slice (pos d) (pos d + HEADER_BYTES) (buf d) with
    | Ret header =>
      let body_len := from_le_unsigned header in
      if MAX_FRAME_BYTES <? body_len then (Throw (FrameTooLarge body_len), d) else
      if n - HEADER_BYTES <? body_len then (Ret None, d) else
      let body_start := pos d + HEADER_BYTES in
      match slice body_start (body_start + body_len) (buf d) with
      | Ret body =>
        match decode_body body with
        | Ret message =>
          let pos' := body_start + body_len in
          if COMPACT_THRESHOLD <=? pos'
          then (Ret (Some message), {| buf := drop (Z.to_nat pos') (buf d); pos := 0 |})
          else (Ret (Some message), {| buf := buf d; pos := pos' |})
        | c => (escalate c, d)
        end
      | c => (escalate c, d)
      end
    | c => (escalate c, d)
    end
  | c => (escalate c, d)
  end.

(** The decoder as its reader drives it: after every read, messages are taken
    until the decoder asks for more bytes or fails. Every message consumes bytes,
    so the number of buffered bytes bounds the number of turns ([drain_enough]). *)
Fixpoint drain (fuel : nat) (d : Decoder) : list Message * comp ProtocolError unit * Decoder :=
  match fuel with
  | O => ([], Ret tt, d)
  | S fuel' =>
    match next_message d with
    | (Ret (Some m), d') =>
      let '(ms, stop, d'') := drain fuel' d' in (m :: ms, stop, d'')
    | (Ret None, d') => ([], Ret tt, d')
    | (Throw e, d') => ([], Throw e, d')
    | (Panic, d') => ([], Panic, d')
    end
  end.

Definition read (d : Decoder) (chunk : list byte) :=
  let d' := extend d chunk in drain (S (length (buf d'))) d'.

(** A sequence of reads, given up at the first failure. *)
Fixpoint reads (d : Decoder) (chunks : list (list byte))
  : list Message * comp ProtocolError unit * Decoder :=
  match chunks with
  | [] => ([], Ret tt, d)
  | c :: cs =>
    match read d c with
    | (ms, Ret _, d') => let '(ms', stop, d'') := reads d' cs in (ms ++ ms', stop, d'')
    | r => r
    end
  end.

(** ** Reference definitions *)

(** The bytes of a body, given its MessagePack part. *)
Definition body (message : Message) (packed : list byte) : list byte :=
  match message with
  | Register _ => KIND_REGISTER :: packed
  | Steps _ _ => KIND_STEPS :: packed
  | Record_ _ _ _ => KIND_RECORD :: packed
  | Stored _ _ => KIND_STORED :: packed
  | Dispatch id a ma task payload =>
    KIND_DISPATCH :: to_le_bytes 8 id ++ to_le_bytes 2 a ++ to_le_bytes 2 ma ++
      to_le_bytes 2 (len (as_bytes task)) ++ as_bytes task ++ payload
  | Complete id (Success r) => KIND_COMPLETE :: to_le_bytes 8 id ++ OUTCOME_SUCCESS :: r
  | Complete id (Failure e retry) =>
    KIND_COMPLETE :: to_le_bytes 8 id ++
      (if retry then OUTCOME_RETRY else OUTCOME_TERMINAL) :: as_bytes e
  end.

(** The frame of a message, or why it has none. *)
Definition frame_of (message : Message) : result ProtocolError (list byte) :=
  '(packed, n) ← measure message;
  if MAX_FRAME_BYTES <? n then Err (FrameTooLarge n)
  else Ok (to_le_bytes 4 n ++ body message packed).

(** What is at the front of a byte stream. *)
Inductive parsed :=
| NeedMore
| Bad (e : ProtocolError)
| Frame (m : Message) (rest : list byte).

Definition parse (s : list byte) : parsed :=
  if len s <? HEADER_BYTES then NeedMore else
  let n := from_le_unsigned (take 4 s) in
  if MAX_FRAME_BYTES <? n then Bad (FrameTooLarge n) else
  if len s - HEADER_BYTES <? n then NeedMore else
  match decode_body (take (Z.to_nat n) (drop 4 s)) with
  | Ret m => Frame m (drop (Z.to_nat (HEADER_BYTES + n)) s)
  | Throw e => Bad e
  | Panic => NeedMore
  end.

Definition pending (d : Decoder) : list byte := drop (Z.to_nat (pos d)) (buf d).

Definition decoder_ok (d : Decoder) : Prop := 0 <= pos d <= len (buf d).

(** Everything a byte stream holds: its messages, the error that ends it if
    one does, and the bytes left. *)
Fixpoint parse_all (fuel : nat) (s : list byte)
  : list Message * comp ProtocolError unit * list byte :=
  match fuel with
  | O => ([], Ret tt, s)
  | S fuel' =>
    match parse s with
    | NeedMore => ([], Ret tt, s)
    | Bad e => ([], Throw e, s)
    | Frame m rest =>
      let '(ms, stop, rest') := parse_all fuel' rest in (m :: ms, stop, rest')
    end
  end.

Definition stream (s : list byte) := parse_all (S (length s)) s.

(** Messages encoded one after the other into a shared buffer, as the
    dispatcher batches them. *)
Definition encode_all (ms : list Message) (out : list byte) : list byte :=
  foldl (λ out m, (encode m out).2) out ms.

(** Whether [encode] takes a message; the buffer does not matter ([encode_frame_of]). *)
Definition accepted (m : Message) : bool := is_ok (encode m []).1.

#[local] Opaque to_le_bytes.

(** ** Encoding facts *)

Lemma measure_nonneg m packed n : measure m = Ok (packed, n) → 1 <= n.
Proof.
  destruct m as [es|id st|id nm r|id nm|id a ma t p|id [r|e rt]]; simpl;
    unfold mbind, result_bind, pack, map_err, DISPATCH_HEAD_BYTES, COMPLETE_HEAD_BYTES;
    intros H; cases;
    repeat match goal with |- context [len ?l] =>
      lazymatch goal with Hl : 0 <= len l |- _ => fail | _ => pose proof (len_nonneg l) end end; lia.
Qed.

Lemma write_body_spec m packed n out :
  measure m = Ok (packed, n) →
  write_body m packed out = (Ok tt, out ++ body m packed) ∧ len (body m packed) = n.
Proof.
  destruct m as [es|id st|id nm r|id nm|id a ma t p|id [r|e rt]]; simpl;
    unfold mbind, result_bind, writer_bind, pack, map_err, DISPATCH_HEAD_BYTES,
      COMPLETE_HEAD_BYTES, push, extend_from_slice, try_from_unsigned;
    intros H; cases; rewrite <- ?app_assoc; (split; [done|]);
    repeat (rewrite len_app || rewrite len_cons || rewrite len_to_le_bytes); lia.
Qed.

Lemma encode_frame_of m out :
  encode m out =
  match frame_of m with Ok f => (Ok tt, out ++ f) | Err e => (Err e, out) end.
Proof.
  unfold encode, encode_frame, frame_of, lift, throw, mbind, writer_bind, result_bind.
  destruct (measure m) as [[packed n]|e] eqn:Hm; [|by rewrite firstn_all].
  destruct (MAX_FRAME_BYTES <? n) eqn:Hmax; [by rewrite firstn_all|].
  pose proof (measure_nonneg _ _ _ Hm). apply Z.ltb_ge in Hmax. unfold MAX_FRAME_BYTES in Hmax.
  unfold try_from_unsigned. rewrite decide_True by (unfold in_unsigned; lia).
  unfold extend_from_slice.
  destruct (write_body_spec m packed n (out ++ to_le_bytes 4 n) Hm) as [-> _].
  by rewrite <- app_assoc.
Qed.

(** ** Decoding facts *)

Lemma decode_dispatch_body id a ma t p :
  wf_message (Dispatch id a ma t p) → len (as_bytes t) < 2 ^ 16 →
  decode_dispatch (to_le_bytes 8 id ++ to_le_bytes 2 a ++ to_le_bytes 2 ma ++
    to_le_bytes 2 (len (as_bytes t)) ++ as_bytes t ++ p) = Ret (Dispatch id a ma t p).
Proof.
  intros (Hid & Ha & Hma & Ht) Hlen.
  set (i8 := to_le_bytes 8 id). set (a2 := to_le_bytes 2 a). set (m2 := to_le_bytes 2 ma).
  set (n2 := to_le_bytes 2 (len (as_bytes t))). set (tb := as_bytes t).
  assert (len i8 = 8 ∧ len a2 = 2 ∧ len m2 = 2 ∧ len n2 = 2) as (L1 & L2 & L3 & L4)
    by (unfold i8, a2, m2, n2; by rewrite !len_to_le_bytes).
  pose proof (len_nonneg tb) as Lt. pose proof (len_nonneg p) as Lp.
  assert (len (i8 ++ a2 ++ m2 ++ n2 ++ tb ++ p) = 14 + len tb + len p) as Lall
    by (rewrite !len_app; lia).
  unfold decode_dispatch, read_signed, read_unsigned. rewrite Lall.
  destruct (Z.ltb_spec (14 + len tb + len p) 14); [lia|].
  rewrite (slice_at 0 8 _ [] i8 (a2 ++ m2 ++ n2 ++ tb ++ p)) by (done || lia).
  rewrite (slice_at 8 10 _ i8 a2 (m2 ++ n2 ++ tb ++ p)) by (done || lia).
  rewrite (slice_at 10 12 _ (i8 ++ a2) m2 (n2 ++ tb ++ p))
    by (rewrite <- ?app_assoc, ?len_app; done || lia).
  rewrite (slice_at 12 14 _ (i8 ++ a2 ++ m2) n2 (tb ++ p))
    by (rewrite <- ?app_assoc, ?len_app; done || lia).
  rewrite (slice_at 14 (14 + len tb + len p) _ (i8 ++ a2 ++ m2 ++ n2) (tb ++ p) [])
    by (rewrite <- ?app_assoc, ?len_app, ?app_nil_r; done || lia).
  unfold mbind, comp_bind, mret, comp_ret.
  assert (from_le_unsigned n2 = len tb) as ->
    by (apply from_le_unsigned_to_le; split; [lia|exact Hlen]).
  rewrite len_app. destruct (Z.ltb_spec (len tb + len p) (len tb)); [lia|].
  rewrite (slice_at 0 (len tb) _ [] tb p) by (done || lia).
  rewrite (slice_at (len tb) (len tb + len p) _ tb p [])
    by (rewrite ?app_nil_r; done || lia).
  unfold read_str, tb. rewrite (from_utf8_as_bytes t Ht).
  do 2 f_equal; apply from_le_signed_to_le; done || lia.
Qed.

Lemma decode_complete_body id (code : byte) tail :
  wf_i64 id →
  decode_complete (to_le_bytes 8 id ++ code :: tail) =
  if decide (code = OUTCOME_SUCCESS) then Ret (Complete id (Success tail))
  else if decide (code = OUTCOME_RETRY ∨ code = OUTCOME_TERMINAL) then
    match from_utf8 tail with
    | Some e => Ret (Complete id (Failure e (bool_decide (code = OUTCOME_RETRY))))
    | None => Throw (NotUtf8 "error message")
    end
  else Throw (UnknownOutcome code).
Proof.
  intros Hid. set (i8 := to_le_bytes 8 id).
  assert (len i8 = 8) as L1 by (unfold i8; by rewrite len_to_le_bytes).
  pose proof (len_nonneg tail) as Lt.
  assert (len (i8 ++ code :: tail) = 9 + len tail) as Lall by (rewrite len_app, len_cons; lia).
  unfold decode_complete, read_signed. rewrite Lall.
  destruct (Z.ltb_spec (9 + len tail) 9); [lia|].
  rewrite (slice_at 0 8 _ [] i8 (code :: tail)) by (done || lia).
  unfold index. rewrite lookup_app_r by (unfold len in L1; lia).
  replace (Z.to_nat 8 - length i8)%nat with 0%nat by (unfold len in L1; lia).
  rewrite (slice_at 9 (9 + len tail) _ (i8 ++ [code]) tail [])
    by (rewrite <- ?app_assoc, ?len_app, ?app_nil_r, ?len_cons, ?len_nil; done || lia).
  unfold mbind, comp_bind, mret, comp_ret, read_str; simpl.
  assert (from_le_signed i8 = id) as -> by (apply from_le_signed_to_le; done || lia).
  by repeat case_decide; destruct (from_utf8 tail).
Qed.

Lemma decode_body_no_panic b : decode_body b ≠ Panic.
Proof.
  destruct b as [|k rest]; [done|]. unfold decode_body, of_result.
  repeat case_decide; try done; try (case_match; done).
  - unfold decode_dispatch, read_signed, read_unsigned, read_str.
    destruct (Z.ltb_spec (len rest) 14) as [?|Hr]; [done|].
    rewrite !slice_ok by lia. unfold mbind, comp_bind, mret, comp_ret.
    set (n := from_le_unsigned _). set (r := take _ _).
    assert (0 <= n) by apply (le_combine_bound (take (Z.to_nat (14 - 12)) (drop (Z.to_nat 12) rest))).
    destruct (Z.ltb_spec (len r) n); [done|].
    rewrite !slice_ok by (lia || apply len_nonneg). by destruct (from_utf8 _).
  - unfold decode_complete, read_signed, read_str, index.
    destruct (Z.ltb_spec (len rest) 9) as [?|Hr]; [done|].
    rewrite !slice_ok by lia. unfold mbind, comp_bind, mret, comp_ret.
    destruct (rest !! Z.to_nat 8) eqn:E.
    + by repeat case_decide; try destruct (from_utf8 _).
    + apply lookup_ge_None in E. unfold len in Hr. lia.
Qed.

Lemma decode_body_body `{!RmpSerdeLaws R} m packed n :
  wf_message m → measure m = Ok (packed, n) → decode_body (body m packed) = Ret m.
Proof.
  intros Hwf Hm. destruct m as [es|id st|id nm r|id nm|id a ma t p|id [r|e rt]]; simpl in *;
    unfold mbind, result_bind, pack, map_err in Hm.
  - destruct (to_vec_register es) as [bs|] eqn:E; simplify_eq/=.
    unfold unpack. by rewrite (proj1 register_codec _ _ Hwf E).
  - destruct (to_vec_steps _) as [bs|] eqn:E; simplify_eq/=. destruct Hwf as [Hid Hst].
    unfold unpack. rewrite (λ H, proj1 steps_codec _ _ H E) by (split; [done|by apply Forall_fmap]).
    simpl. rewrite <- list_fmap_compose. do 2 f_equal.
    rewrite <- (list_fmap_id st) at 2. apply list_fmap_ext. by intros ? [] ?.
  - destruct (to_vec_record _) as [bs|] eqn:E; simplify_eq/=.
    unfold unpack. by rewrite (λ H, proj1 record_codec _ _ H E).
  - destruct (to_vec_stored _) as [bs|] eqn:E; simplify_eq/=.
    unfold unpack. by rewrite (λ H, proj1 stored_codec _ _ H E).
  - unfold try_from_unsigned in Hm. case_decide as Hlen; simplify_eq/=.
    apply decode_dispatch_body; [done|]. unfold in_unsigned in Hlen; lia.
  - by etrans; [apply (decode_complete_body id OUTCOME_SUCCESS r); apply Hwf|].
  - etrans; [apply (decode_complete_body id (if rt then _ else _) (as_bytes e)); apply Hwf|].
    rewrite from_utf8_as_bytes by apply Hwf. by destruct rt.
Qed.

(** ** The decoder refines [parse] on its pending bytes *)

Lemma len_pending d : decoder_ok d → len (pending d) = len (buf d) - pos d.
Proof.
  intros [H1 H2]. unfold pending, len in *. rewrite length_drop. lia.
Qed.

Lemma pending_extend d c : decoder_ok d → pending (extend d c) = pending d ++ c.
Proof.
  intros [H1 H2]. unfold pending, extend, len in *; simpl.
  apply drop_app_le. lia.
Qed.

Lemma decoder_ok_extend d c : decoder_ok d → decoder_ok (extend d c).
Proof.
  unfold decoder_ok, extend; simpl. rewrite len_app. pose proof (len_nonneg c). lia.
Qed.

(** The answer [next_message] owes for each verdict of [parse]. *)
Definition answers (d : Decoder) (p : parsed) : Prop :=
  match p with
  | NeedMore => next_message d = (Ret None, d)
  | Bad e => next_message d = (Throw e, d)
  | Frame m rest =>
    ∃ d', next_message d = (Ret (Some m), d') ∧ pending d' = rest ∧
      decoder_ok d' ∧ pos d' < COMPACT_THRESHOLD
  end.

Lemma next_message_answers d : decoder_ok d → answers d (parse (pending d)).
Proof.
  intros Hok. pose proof (len_pending _ Hok) as Hlen. destruct Hok as [Hp0 Hp1].
  unfold answers, parse, next_message, buffered, usub. rewrite Hlen.
  destruct (Z.leb_spec (pos d) (len (buf d))); [|lia].
  destruct (Z.ltb_spec (len (buf d) - pos d) HEADER_BYTES) as [?|Hhead]; [done|].
  unfold HEADER_BYTES in *. rewrite (slice_ok (pos d)) by lia.
  replace (Z.to_nat (pos d + 4 - pos d)) with 4%nat by lia.
  fold (pending d). set (n := from_le_unsigned (take 4 (pending d))).
  assert (0 <= n) as Hn by apply le_combine_bound.
  destruct (MAX_FRAME_BYTES <? n); [done|].
  destruct (Z.ltb_spec (len (buf d) - pos d - 4) n) as [?|Hbody]; [done|].
  rewrite slice_ok by lia.
  replace (Z.to_nat (pos d + 4 + n - (pos d + 4))) with (Z.to_nat n) by lia.
  replace (drop (Z.to_nat (pos d + 4)) (buf d)) with (drop 4 (pending d))
    by (unfold pending; rewrite drop_drop; f_equal; lia).
  pose proof (decode_body_no_panic (take (Z.to_nat n) (drop 4 (pending d)))) as Hnp.
  destruct (decode_body _) as [m|e|]; [|done|done].
  assert (drop (Z.to_nat (4 + n)) (pending d) = drop (Z.to_nat (pos d + 4 + n)) (buf d)) as ->
    by (unfold pending; rewrite drop_drop; f_equal; lia).
  destruct (Z.leb_spec COMPACT_THRESHOLD (pos d + 4 + n)); eexists; (split; [done|]);
    unfold pending, decoder_ok; simpl; repeat split; try lia; auto using len_nonneg.
Qed.

Lemma parse_app s k :
  match parse s with
  | NeedMore => True
  | Bad e => parse (s ++ k) = Bad e
  | Frame m rest => parse (s ++ k) = Frame m (rest ++ k)
  end.
Proof.
  unfold parse, HEADER_BYTES. destruct (Z.ltb_spec (len s) 4) as [?|H4]; [done|].
  assert (4 <= length s)%nat as H4' by (unfold len in H4; lia).
  rewrite len_app. pose proof (len_nonneg k).
  destruct (Z.ltb_spec (len s + len k) 4); [lia|].
  rewrite take_app_le by done. set (n := from_le_unsigned (take 4 s)).
  assert (0 <= n) as Hn by apply le_combine_bound.
  destruct (MAX_FRAME_BYTES <? n); [done|].
  destruct (Z.ltb_spec (len s - 4) n) as [?|Hb]; [done|].
  destruct (Z.ltb_spec (len s + len k - 4) n); [lia|].
  assert (Z.to_nat n <= length (drop 4 s))%nat as Hle
    by (rewrite length_drop; unfold len in Hb; lia).
  rewrite drop_app_le by done. rewrite take_app_le by done.
  destruct (decode_body _); [|done|done].
  rewrite drop_app_le; [done|]. rewrite length_drop in Hle. lia.
Qed.

Lemma parse_shorter s m rest : parse s = Frame m rest → (length rest < length s)%nat.
Proof.
  unfold parse, HEADER_BYTES.
  assert (0 <= from_le_unsigned (take 4 s)) by apply le_combine_bound.
  intros H'. cases. bool_facts. rewrite length_drop. unfold len in *. lia.
Qed.

Lemma parse_frame `{!RmpSerdeLaws R} m f k :
  wf_message m → frame_of m = Ok f → parse (f ++ k) = Frame m k.
Proof.
  unfold frame_of, mbind, result_bind. intros Hwf Hf.
  destruct (measure m) as [[packed n]|] eqn:Hm; [|done].
  destruct (Z.ltb_spec MAX_FRAME_BYTES n) as [|Hmax]; [done|].
  assert (f = to_le_bytes 4 n ++ body m packed) as -> by congruence. clear Hf.
  destruct (write_body_spec m packed n [] Hm) as [_ Hn].
  pose proof (len_to_le_bytes 4 n) as L4. pose proof (len_nonneg k).
  pose proof (measure_nonneg _ _ _ Hm) as Hpos.
  assert (from_le_unsigned (to_le_bytes 4 n) = n) as Hhd.
  { apply from_le_unsigned_to_le. split; [lia|]. unfold MAX_FRAME_BYTES in Hmax. simpl. lia. }
  assert (length (to_le_bytes 4 n) = 4)%nat as N4 by (unfold len in L4; lia).
  rewrite <- app_assoc. unfold parse, HEADER_BYTES. rewrite !len_app, L4, Hn.
  change (Z.of_nat 4) with 4. destruct (Z.ltb_spec (4 + (n + len k)) 4); [lia|].
  rewrite (take_app_length' _ _ 4), (drop_app_length' _ _ 4) by done. rewrite Hhd.
  destruct (Z.ltb_spec MAX_FRAME_BYTES n); [lia|].
  destruct (Z.ltb_spec (4 + (n + len k) - 4) n); [lia|].
  rewrite (take_app_length' (body m packed)) by (unfold len in Hn; lia).
  rewrite (decode_body_body _ _ _ Hwf Hm). f_equal.
  rewrite app_assoc. apply drop_app_length'. rewrite length_app. unfold len in Hn. lia.
Qed.

(** ** Streams *)

Lemma parse_all_fuel n k s :
  (length s < n)%nat → (length s < k)%nat → parse_all n s = parse_all k s.
Proof.
  revert k s. induction n as [|n IH]; intros k s Hn Hk; [lia|].
  destruct k as [|k]; [lia|]. simpl.
  destruct (parse s) as [|e|m rest] eqn:E; [done|done|].
  apply parse_shorter in E. rewrite (IH k rest); [done|lia|lia].
Qed.

Lemma stream_eq s :
  stream s =
  match parse s with
  | NeedMore => ([], Ret tt, s)
  | Bad e => ([], Throw e, s)
  | Frame m rest => let '(ms, stop, rest') := stream rest in (m :: ms, stop, rest')
  end.
Proof.
  unfold stream at 1. simpl. destruct (parse s) as [|e|m rest] eqn:E; [done|done|].
  apply parse_shorter in E. unfold stream. by rewrite (parse_all_fuel _ (S (length rest)) rest) by lia.
Qed.

(** Induction on a stream, one frame at a time. *)
Lemma stream_ind (P : list byte → Prop) :
  (∀ s, (∀ m rest, parse s = Frame m rest → P rest) → P s) → ∀ s, P s.
Proof.
  intros H s. remember (length s) as n eqn:Hn. revert s Hn.
  induction (lt_wf n) as [n _ IH]; intros s ->. apply H.
  intros m rest E. by apply (IH (length rest)); [apply (parse_shorter _ _ _ E)|].
Qed.

Lemma stream_stop s ms stop rest :
  stream s = (ms, stop, rest) →
  (stop = Ret tt ∧ parse rest = NeedMore) ∨ (∃ e, stop = Throw e ∧ parse rest = Bad e).
Proof.
  revert ms. induction s as [s IH] using stream_ind; intros ms.
  rewrite stream_eq. destruct (parse s) as [|e|m r] eqn:E; intros ?; simplify_eq/=; [by left|right; eauto|].
  destruct (stream r) as [[ms' stop'] r'] eqn:E'. simplify_eq/=. eauto.
Qed.

Lemma stream_app s k :
  stream (s ++ k) =
  match stream s with
  | (ms, Ret _, rest) => let '(ms', stop, rest') := stream (rest ++ k) in (ms ++ ms', stop, rest')
  | (ms, stop, rest) => (ms, stop, rest ++ k)
  end.
Proof.
  induction s as [s IH] using stream_ind. rewrite (stream_eq s).
  pose proof (parse_app s k) as Hp. destruct (parse s) as [|e|m r] eqn:E.
  - by destruct (stream (s ++ k)) as [[??]?].
  - rewrite (stream_eq (s ++ k)). by rewrite Hp.
  - rewrite (stream_eq (s ++ k)), Hp, (IH m r eq_refl).
    destruct (stream r) as [[ms [[]|e|]] r']; [|done|done].
    by destruct (stream (r' ++ k)) as [[??]?].
Qed.

Lemma drain_enough fuel d ms stop rest :
  decoder_ok d → (length (pending d) < fuel)%nat → stream (pending d) = (ms, stop, rest) →
  ∃ d', drain fuel d = (ms, stop, d') ∧ pending d' = rest ∧ decoder_ok d'.
Proof.
  revert d ms. induction fuel as [|fuel IH]; intros d ms Hok Hf; [lia|].
  rewrite stream_eq. pose proof (next_message_answers d Hok) as Ha. simpl.
  destruct (parse (pending d)) as [|e|m r] eqn:E; simpl in Ha.
  - rewrite Ha. intros ?; simplify_eq/=. eauto.
  - rewrite Ha. intros ?; simplify_eq/=. eauto.
  - destruct Ha as (d1 & -> & <- & Hok1 & _). apply parse_shorter in E.
    destruct (stream (pending d1)) as [[ms1 stop1] r1] eqn:Es. intros ?; simplify_eq/=.
    destruct (IH d1 ms1) as (d' & -> & Hp & Hok'); [done|lia|done|]. eauto.
Qed.

Lemma read_stream d c ms stop rest :
  decoder_ok d → stream (pending d ++ c) = (ms, stop, rest) →
  ∃ d', read d c = (ms, stop, d') ∧ pending d' = rest ∧ decoder_ok d'.
Proof.
  intros Hok Hs. unfold read. apply drain_enough.
  - by apply decoder_ok_extend.
  - unfold pending, extend; simpl. rewrite length_drop. lia.
  - by rewrite pending_extend.
Qed.

(** A decoder between two reads has taken every complete frame it holds. *)
Definition waiting (d : Decoder) : Prop := decoder_ok d ∧ parse (pending d) = NeedMore.

Lemma waiting_new : waiting new.
Proof. done. Qed.

Lemma reads_stream d chunks ms stop rest :
  waiting d → stream (pending d ++ concat chunks) = (ms, stop, rest) →
  ∃ d', reads d chunks = (ms, stop, d') ∧ decoder_ok d' ∧
    (stop = Ret tt → pending d' = rest ∧ waiting d').
Proof.
  revert d ms. induction chunks as [|c cs IH]; intros d ms [Hok Hw]; simpl.
  - rewrite app_nil_r, stream_eq, Hw. intros ?; simplify_eq. exists d.
    split; [done|]. split; [done|]. by split.
  - rewrite app_assoc, stream_app.
    destruct (stream (pending d ++ c)) as [[ms1 stop1] r1] eqn:Es.
    destruct (read_stream d c _ _ _ Hok Es) as (d1 & Hr & Hp1 & Hok1). rewrite Hr.
    destruct (stream_stop _ _ _ _ Es) as [[-> Hn]|(e & -> & Hb)]; simpl.
    + destruct (stream (r1 ++ concat cs)) as [[ms2 stop2] r2] eqn:Es2. intros ?; simplify_eq.
      destruct (IH d1 ms2) as (d' & -> & Hd'); [by split|done|]. eauto.
    + intros ?; simplify_eq. exists d1. repeat split; done || apply Hok1.
Qed.

Lemma encode_all_app ms out :
  encode_all ms out = out ++ encode_all ms [].
Proof.
  unfold encode_all. revert out. induction ms as [|m ms IH]; intros out; simpl; [by rewrite app_nil_r|].
  rewrite IH, (IH (encode m []).2), !encode_frame_of.
  destruct (frame_of m); simpl; by rewrite ?app_assoc.
Qed.

Lemma accepted_frame_of m : accepted m = is_ok (frame_of m).
Proof. unfold accepted. rewrite encode_frame_of. by destruct (frame_of m). Qed.

Lemma stream_encode_all `{!RmpSerdeLaws R} ms :
  Forall wf_message ms →
  stream (encode_all ms []) = (List.filter accepted ms, Ret tt, []).
Proof.
  induction 1 as [|m ms Hm _ IH]; [done|]. unfold encode_all. simpl. fold (encode_all ms (encode m []).2).
  rewrite encode_frame_of, accepted_frame_of. destruct (frame_of m) as [f|e] eqn:Hf; simpl; [|done].
  rewrite encode_all_app, stream_eq, (parse_frame _ _ _ Hm Hf). by rewrite IH.
Qed.

(** ** Decoding inverts encoding, the other way *)

Lemma split_at {A} (n k : nat) (l : list A) :
  (n + k <= length l)%nat → drop n l = take k (drop n l) ++ drop (n + k) l.
Proof. intros. rewrite <- drop_drop, take_drop. done. Qed.

Lemma decode_dispatch_inv rest m :
  decode_dispatch rest = Ret m →
  wf_message m ∧ measure m = Ok ([], 1 + len rest) ∧ body m [] = KIND_DISPATCH :: rest.
Proof.
  unfold decode_dispatch, read_signed, read_unsigned, read_str.
  destruct (Z.ltb_spec (len rest) 14) as [?|Hr]; [done|].
  rewrite !slice_ok by lia. unfold mbind, comp_bind, mret, comp_ret.
  rewrite !(Z2Nat.inj_sub _ _) by lia.
  change (Z.to_nat 0) with 0%nat. change (Z.to_nat 8) with 8%nat. change (Z.to_nat 10) with 10%nat.
  change (Z.to_nat 12) with 12%nat. change (Z.to_nat 14) with 14%nat.
  assert (14 <= length rest)%nat as Hr' by (unfold len in Hr; lia).
  rewrite (take_ge (drop 14 rest)) by (rewrite length_drop; unfold len; lia).
  set (i8 := take (8 - 0) (drop 0 rest)). set (a2 := take (10 - 8) (drop 8 rest)).
  set (m2 := take (12 - 10) (drop 10 rest)). set (n2 := take (14 - 12) (drop 12 rest)).
  set (r := drop 14 rest).
  assert (rest = i8 ++ a2 ++ m2 ++ n2 ++ r) as Hrest.
  { unfold i8, a2, m2, n2, r. rewrite <- (split_at 12 2), <- (split_at 10 2), <- (split_at 8 2),
      <- (split_at 0 8) by lia. done. }
  assert (length i8 = 8 ∧ length a2 = 2 ∧ length m2 = 2 ∧ length n2 = 2)%nat as (L1 & L2 & L3 & L4)
    by (unfold i8, a2, m2, n2; rewrite !length_take, !length_drop; lia).
  clearbody i8 a2 m2 n2 r. subst rest.
  assert (0 <= from_le_unsigned n2 < 2 ^ 16) as Hn.
  { pose proof (le_combine_bound n2) as H. by rewrite L4 in H. }
  destruct (Z.ltb_spec (len r) (from_le_unsigned n2)) as [?|Hname]; [done|].
  rewrite !slice_ok by (lia || apply len_nonneg). rewrite Z.sub_0_r, drop_0.
  set (t := take (Z.to_nat (from_le_unsigned n2)) r).
  destruct (from_utf8 t) as [task|] eqn:Ht; [|done]. intros ?; simplify_eq/=.
  apply from_utf8_Some in Ht as [Hb Hu].
  rewrite (take_ge (drop _ r)) by (rewrite length_drop; unfold len in *; lia).
  assert (len (as_bytes task) = from_le_unsigned n2) as Hlen.
  { rewrite Hb. unfold t, len in *. rewrite length_take. lia. }
  assert (∀ bs : list byte, length bs = 2%nat → wf_i16 (from_le_signed bs)) as Hi16.
  { intros bs Hbs. pose proof (from_le_signed_range bs) as H. unfold len in H. rewrite Hbs in H.
    apply H. by intros ->. }
  assert (wf_i64 (from_le_signed i8)) as Hi64.
  { pose proof (from_le_signed_range i8) as H. unfold len in H. rewrite L1 in H.
    apply H. by intros ->. }
  split; [by repeat split; try apply Hi16; try apply Hi64|]. rewrite Hlen, Hb. split.
  - unfold try_from_unsigned. rewrite decide_True by done. unfold DISPATCH_HEAD_BYTES, len in *.
    rewrite !length_app, length_drop. do 2 f_equal. lia.
  - rewrite !to_le_from_le_signed, to_le_from_le_unsigned by done. unfold t. by rewrite take_drop.
Qed.

Lemma decode_complete_inv rest m :
  decode_complete rest = Ret m →
  wf_message m ∧ measure m = Ok ([], 1 + len rest) ∧ body m [] = KIND_COMPLETE :: rest.
Proof.
  intros Hd. assert (9 <= length rest)%nat as Hr.
  { unfold decode_complete in Hd. destruct (Z.ltb_spec (len rest) 9); [done|]. unfold len in *. lia. }
  destruct (drop 8 rest) as [|code tail] eqn:Et.
  { apply (f_equal length) in Et. rewrite length_drop in Et. simpl in Et. lia. }
  assert (rest = to_le_bytes 8 (from_le_signed (take 8 rest)) ++ code :: tail) as Hrest.
  { rewrite to_le_from_le_signed by (rewrite length_take; lia). by rewrite <- Et, take_drop. }
  assert (wf_i64 (from_le_signed (take 8 rest))) as Hi64.
  { pose proof (from_le_signed_range (take 8 rest)) as H. unfold len in H.
    rewrite length_take, Nat.min_l in H by lia. apply H. destruct rest; done || (simpl in Hr; lia). }
  revert Hd. generalize dependent (from_le_signed (take 8 rest)). intros id Hrest Hid.
  clear Et Hr. subst rest. rewrite decode_complete_body by done.
  assert (∀ e, len (to_le_bytes 8 id ++ code :: e) = 9 + len e) as Hlen.
  { intros e. rewrite len_app, len_to_le_bytes, len_cons. lia. }
  rewrite Hlen. case_decide as Hc; [intros ?; simplify_eq/=|].
  { unfold COMPLETE_HEAD_BYTES. repeat split; try apply Hid. do 2 f_equal. lia. }
  case_decide as Hc2; [|done]. destruct (from_utf8 tail) as [e|] eqn:He; [|done].
  intros ?; simplify_eq/=. apply from_utf8_Some in He as [<- Hu].
  repeat split; try done; try apply Hid.
  - unfold COMPLETE_HEAD_BYTES. do 2 f_equal. lia.
  - do 2 f_equal. destruct Hc2 as [->| ->]; done.
Qed.

(** ** Bounds on what the decoder holds *)

Lemma next_message_pos d c d' :
  decoder_ok d → pos d < COMPACT_THRESHOLD → next_message d = (c, d') →
  decoder_ok d' ∧ pos d' < COMPACT_THRESHOLD.
Proof.
  intros Hok Hpos Hn. pose proof (next_message_answers d Hok) as Ha.
  destruct (parse (pending d)) as [|e|m r]; simpl in Ha.
  - rewrite Ha in Hn. by simplify_eq.
  - rewrite Ha in Hn. by simplify_eq.
  - destruct Ha as (d1 & Hd1 & _ & ? & ?). rewrite Hd1 in Hn. by simplify_eq.
Qed.

Lemma drain_pos fuel d ms stop d' :
  decoder_ok d → pos d < COMPACT_THRESHOLD → drain fuel d = (ms, stop, d') →
  decoder_ok d' ∧ pos d' < COMPACT_THRESHOLD.
Proof.
  revert d ms. induction fuel as [|fuel IH]; intros d ms Hok Hpos; simpl.
  { intros ?; by simplify_eq. }
  destruct (next_message d) as [c d1] eqn:E.
  destruct (next_message_pos _ _ _ Hok Hpos E) as [Hok1 Hpos1].
  destruct c as [[m|]|e|]; intros H; [|by simplify_eq..].
  destruct (drain fuel d1) as [[ms1 st1] d2] eqn:E2. simplify_eq. eauto.
Qed.

Lemma reads_pos d chunks ms stop d' :
  decoder_ok d → pos d < COMPACT_THRESHOLD → reads d chunks = (ms, stop, d') →
  decoder_ok d' ∧ pos d' < COMPACT_THRESHOLD.
Proof.
  revert d ms. induction chunks as [|c cs IH]; intros d ms Hok Hpos; simpl.
  { intros ?; by simplify_eq. }
  destruct (read d c) as [[ms1 st1] d1] eqn:E.
  destruct (drain_pos _ (extend d c) ms1 st1 d1 (decoder_ok_extend d c Hok) Hpos E) as [Hok1 Hpos1].
  destruct st1 as [u|e|]; intros H; [|by simplify_eq..].
  destruct (reads d1 cs) as [[ms2 st2] d2] eqn:E2. simplify_eq. eauto.
Qed.

Lemma parse_need_more_len s :
  parse s = NeedMore → len s < HEADER_BYTES + MAX_FRAME_BYTES.
Proof.
  unfold parse, HEADER_BYTES, MAX_FRAME_BYTES. intros H.
  pose proof (decode_body_no_panic (take (Z.to_nat (from_le_unsigned (take 4 s))) (drop 4 s))).
  cases; bool_facts; lia.
Qed.

(** ** Properties *)

(** C22. Whatever a sender batches into one buffer with [encode], rejected
    messages included, a fresh [Decoder] fed that buffer in reads of any sizes
    returns exactly the accepted messages, in order, with no byte left over. *)
Theorem batch_round_trip `{!RmpSerdeLaws R} (ms : list Message) (chunks : list (list byte)) :
  Forall wf_message ms → concat chunks = encode_all ms [] →
  ∃ d, reads new chunks = (List.filter accepted ms, Ret tt, d) ∧ pending d = [].
Proof.
  intros Hms Hc. destruct (reads_stream new chunks (List.filter accepted ms) (Ret tt) [])
    as (d & Hr & _ & Hp); [apply waiting_new|by rewrite Hc; apply stream_encode_all|].
  exists d. split; [done|]. by apply Hp.
Qed.

(** C23. Where the socket cuts the byte stream is invisible: for any bytes at
    all, garbage included, two ways of cutting them into reads give the same
    messages and the same verdict. *)
Theorem chunking_is_invisible (chunks chunks' : list (list byte)) :
  concat chunks = concat chunks' → (reads new chunks).1 = (reads new chunks').1.
Proof.
  intros Heq. destruct (stream (concat chunks)) as [[ms stop] rest] eqn:Es.
  destruct (reads_stream new chunks ms stop rest) as (d & -> & _); [apply waiting_new|done|].
  rewrite Heq in Es.
  by destruct (reads_stream new chunks' ms stop rest) as (d' & -> & _); [apply waiting_new|done|].
Qed.

(** C39. The decoder never panics on any bytes, and each read's loop ends because
    the decoder asks for more bytes or reports an error, never because the bound
    on its turns ran out. *)
Theorem decoder_total (chunks : list (list byte)) :
  ∃ ms d, reads new chunks = (ms, Ret tt, d) ∧ next_message d = (Ret None, d) ∨
    ∃ e, reads new chunks = (ms, Throw e, d).
Proof.
  destruct (stream (concat chunks)) as [[ms stop] rest] eqn:Es.
  destruct (reads_stream new chunks ms stop rest) as (d & Hr & Hok & Hw); [apply waiting_new|done|].
  exists ms, d. destruct (stream_stop _ _ _ _ Es) as [[-> _]|(e & -> & _)]; [left|right; eauto].
  split; [done|]. destruct Hw as [_ [_ Hn]]; [done|].
  pose proof (next_message_answers d Hok) as Ha. by rewrite Hn in Ha.
Qed.

(** However long a stream is, the decoder's buffer stays below the
    compaction threshold plus one maximal frame and its header. *)
Lemma decoder_memory_bounded (chunks : list (list byte)) ms d :
  reads new chunks = (ms, Ret tt, d) →
  len (buf d) < COMPACT_THRESHOLD + HEADER_BYTES + MAX_FRAME_BYTES.
Proof.
  intros Hr. destruct (reads_pos new chunks ms (Ret tt) d) as [Hok Hpos]; [done|done|done|].
  destruct (stream (concat chunks)) as [[ms' stop] rest] eqn:Es.
  destruct (reads_stream new chunks ms' stop rest) as (d' & Hr' & _ & Hw); [apply waiting_new|done|].
  rewrite Hr' in Hr. simplify_eq. destruct Hw as [_ [_ Hn]]; [done|].
  apply parse_need_more_len in Hn. rewrite (len_pending _ Hok) in Hn. lia.
Qed.

(** [encode] is atomic on the shared buffer: it appends one whole frame,
    whose header is the length of its body and whose body is within the limit,
    or it reports an error and leaves the buffer byte for byte as it was. *)
Lemma encode_atomic (m : Message) (out : list byte) :
  match encode m out with
  | (Ok _, out') =>
    ∃ b, out' = out ++ to_le_bytes 4 (len b) ++ b ∧ 1 <= len b <= MAX_FRAME_BYTES
  | (Err _, out') => out' = out
  end.
Proof.
  rewrite encode_frame_of. unfold frame_of, mbind, result_bind.
  destruct (measure m) as [[packed n]|e] eqn:Hm; [|done].
  destruct (Z.ltb_spec MAX_FRAME_BYTES n); [done|].
  destruct (write_body_spec m packed n [] Hm) as [_ <-].
  exists (body m packed). split; [done|]. split; [|done]. by eapply measure_nonneg.
Qed.

(** Which dispatches [encode] refuses and with which error, and the exact
    bytes of those it takes. *)
Lemma encode_dispatch_exact id a ma task payload out :
  encode (Dispatch id a ma task payload) out =
  let n := len (as_bytes task) in
  if 65535 <? n then (Err (TaskNameTooLong n), out)
  else if MAX_FRAME_BYTES <? 15 + n + len payload
  then (Err (FrameTooLarge (15 + n + len payload)), out)
  else (Ok tt, out ++ to_le_bytes 4 (15 + n + len payload) ++ [KIND_DISPATCH] ++
          to_le_bytes 8 id ++ to_le_bytes 2 a ++ to_le_bytes 2 ma ++ to_le_bytes 2 n ++
          as_bytes task ++ payload).
Proof.
  rewrite encode_frame_of. unfold frame_of, mbind, result_bind, DISPATCH_HEAD_BYTES. simpl.
  pose proof (len_nonneg (as_bytes task)).
  unfold try_from_unsigned, in_unsigned. destruct (Z.ltb_spec 65535 (len (as_bytes task))).
  - by rewrite decide_False by lia.
  - rewrite decide_True by lia. by destruct (_ <? _).
Qed.

(** What the decoder reads is well typed (integers in range, strings valid
    UTF-8), and a hand-framed body it accepts is the only encoding of its
    message: encoding the message again gives the same bytes. *)
Lemma decode_canonical `{!RmpSerdeLaws R} (b : list byte) (m : Message) :
  decode_body b = Ret m →
  wf_message m ∧
  match m with
  | Dispatch _ _ _ _ _ | Complete _ _ =>
    len b <= MAX_FRAME_BYTES → encode m [] = (Ok tt, to_le_bytes 4 (len b) ++ b)
  | _ => True
  end.
Proof.
  destruct b as [|k rest]; [done|]. unfold decode_body, of_result, unpack.
  assert (∀ m', wf_message m' ∧ measure m' = Ok ([], 1 + len rest) ∧ body m' [] = k :: rest →
    wf_message m' ∧ (len (k :: rest) <= MAX_FRAME_BYTES →
      encode m' [] = (Ok tt, to_le_bytes 4 (len (k :: rest)) ++ k :: rest))) as Hinv.
  { intros m' (Hwf & Hm & Hb). split; [done|]. intros Hmax. rewrite encode_frame_of.
    unfold frame_of. rewrite Hm. simpl. rewrite len_cons in *.
    destruct (Z.ltb_spec MAX_FRAME_BYTES (1 + len rest)); [lia|]. by rewrite Hb. }
  repeat case_decide; subst.
  - intros Hd. apply decode_dispatch_inv, Hinv in Hd as [??]. by destruct m.
  - intros Hd. apply decode_complete_inv, Hinv in Hd as [??]. by destruct m.
  - destruct (from_slice_register rest) eqn:E; intros ?; simplify_eq/=.
    by apply (proj2 register_codec) in E.
  - destruct (from_slice_steps rest) as [[id st]|] eqn:E; intros ?; simplify_eq/=.
    apply (proj2 steps_codec) in E as [??]. split; [|done]. by split; [|apply Forall_fmap].
  - destruct (from_slice_record rest) eqn:E; intros ?; simplify_eq/=.
    by apply (proj2 record_codec) in E.
  - destruct (from_slice_stored rest) as [[id nm]|] eqn:E; intros ?; simplify_eq/=.
    by apply (proj2 stored_codec) in E.
  - done.
Qed.

End Codec.

(** ** A serializer that satisfies [RmpSerdeLaws]

    Any countable type has one: write the value's number in base 256. It stands
    in for MessagePack where a concrete instance is evaluated. *)

Module NumberedCodec.

#[global] Instance byte_countable : Countable byte :=
  inj_countable Byte.to_N Byte.of_N Byte.of_to_N.
#[global] Instance CronRegistration_countable : Countable CronRegistration.
Proof.
  apply (inj_countable'
    (λ c, (cr_name c, cr_queue c, cr_task c, cr_expression c, cr_timezone c, cr_payload c))
    (λ '(n, q, t, e, z, p), {| cr_name := n; cr_queue := q; cr_task := t;
       cr_expression := e; cr_timezone := z; cr_payload := p |})). by intros [].
Defined.
#[global] Instance WireStep_eq_dec : EqDecision WireStep.
Proof. solve_decision. Defined.
#[global] Instance WireStep_countable : Countable WireStep.
Proof.
  apply (inj_countable' (λ s, (step_name s, step_result s))
    (λ '(n, r), {| step_name := n; step_result := r |})). by intros [].
Defined.
#[global] Instance WireRecord_eq_dec : EqDecision WireRecord.
Proof. solve_decision. Defined.
#[global] Instance WireRecord_countable : Countable WireRecord.
Proof.
  apply (inj_countable' (λ r, (record_id r, record_name r, record_result r))
    (λ '(i, n, r), {| record_id := i; record_name := n; record_result := r |})). by intros [].
Defined.

Definition number_bytes (p : positive) : list byte := le_split (Pos.size_nat p) (Zpos p).
Definition bytes_number (bs : list byte) : positive := Z.to_pos (le_combine bs).

Lemma bytes_number_bytes p : bytes_number (number_bytes p) = p.
Proof.
  unfold bytes_number, number_bytes. rewrite le_combine_split, Z.mod_small; [done|].
  split; [done|]. apply (Z.lt_le_trans _ (2 ^ Z.of_nat (Pos.size_nat p))).
  - induction p as [p IH|p IH|]; cbn [Pos.size_nat]; [| |done];
      rewrite Nat2Z.inj_succ, Z.pow_succ_r by lia; lia.
  - apply Z.pow_le_mono_r; lia.
Qed.

Definition write {A} `{Countable A} (v : A) : result string (list byte) :=
  Ok (number_bytes (countable.encode v)).
Definition readback {A} `{Countable A} (wf : A → Prop) `{∀ v, Decision (wf v)} (bs : list byte)
  : result string A :=
  match countable.decode (bytes_number bs) with
  | Some v => if decide (wf v) then Ok v else Err "value out of range"%string
  | None => Err "not a value"%string
  end.

Lemma numbered_codec {A} `{Countable A} (wf : A → Prop) `{∀ v, Decision (wf v)} :
  codec wf write (readback wf).
Proof.
  split.
  - intros v bs Hv [= <-]. unfold readback. rewrite bytes_number_bytes, decode_encode.
    by rewrite decide_True.
  - intros bs v. unfold readback. intros ?. by cases.
Qed.

#[global] Instance wf_registration_dec c : Decision (wf_registration c).
Proof. unfold wf_registration. apply _. Defined.
#[global] Instance wf_steps_dec (p : Z * list WireStep) :
  Decision (wf_i64 p.1 ∧ Forall wf_step p.2).
Proof. unfold wf_i64, wf_step. apply _. Defined.
#[global] Instance wf_record_dec r : Decision (wf_record r).
Proof. unfold wf_record, wf_i64. apply _. Defined.
#[global] Instance wf_stored_dec (p : Z * string) : Decision (wf_i64 p.1 ∧ utf8 p.2).
Proof. unfold wf_i64. apply _. Defined.

#[global] Instance numbered : RmpSerde := {|
  to_vec_register := write;
  from_slice_register := readback (Forall wf_registration);
  to_vec_steps := write;
  from_slice_steps := readback (λ p, wf_i64 p.1 ∧ Forall wf_step p.2);
  to_vec_record := write;
  from_slice_record := readback wf_record;
  to_vec_stored := write;
  from_slice_stored := readback (λ p, wf_i64 p.1 ∧ utf8 p.2)
|}.

#[global] Instance numbered_laws : RmpSerdeLaws numbered.
Proof. split; apply numbered_codec. Qed.

End NumberedCodec.

(** ** Concrete runs *)

Section Examples.
Import NumberedCodec.

Definition a_dispatch : Message :=
  Dispatch (-42) 3 20 "billing.charge" [Byte.x93; Byte.x01; Byte.x02; Byte.x03].
Definition a_failure : Message := Complete 7 (Failure "ValueError: nope" true).
Definition a_register : Message :=
  Register [{| cr_name := "nightly"; cr_queue := "default"; cr_task := "reports.nightly";
               cr_expression := "0 3 * * *"; cr_timezone := "Europe/London";
               cr_payload := [Byte.x92; Byte.x90; Byte.x80] |}].
Definition a_record : Message := Record_ 7 "charge" [Byte.x92; Byte.x01].
Definition an_oversized_name : Message :=
  Dispatch 2 1 1 (of_bytes (replicate (Z.to_nat 65536) Byte.x78)) [].
Definition a_batch : list Message :=
  [a_dispatch; an_oversized_name; a_failure; a_register; a_record].

(** The bytes cut after every third one. *)
Fixpoint thirds (fuel : nat) (bs : list byte) : list (list byte) :=
  match fuel, bs with
  | S fuel', _ :: _ => take 3 bs :: thirds fuel' (drop 3 bs)
  | _, _ => []
  end.

Lemma batch_round_trip_witness :
  let wire := encode_all a_batch [] in
  (reads new (thirds (length wire) wire)).1 =
    ([a_dispatch; a_failure; a_register; a_record], Ret tt).
Proof.
  intros wire.
  destruct (batch_round_trip a_batch (thirds (length wire) wire)) as (d & -> & _).
  - apply (bool_decide_unpack _). vm_compute. exact I.
  - vm_compute. reflexivity.
  - vm_compute. reflexivity.
Defined.

Lemma chunking_is_invisible_witness :
  (reads new [[Byte.x01; Byte.x00]; [Byte.x00; Byte.x00; Byte.xfe]]).1 =
  (reads new [[Byte.x01; Byte.x00; Byte.x00; Byte.x00; Byte.xfe]]).1 ∧
  (reads new [[Byte.x01; Byte.x00; Byte.x00; Byte.x00; Byte.xfe]]).1 =
    ([], Throw (UnknownKind Byte.xfe)).
Proof.
  split; [|vm_compute; reflexivity].
  apply (chunking_is_invisible [[Byte.x01; Byte.x00]; [Byte.x00; Byte.x00; Byte.xfe]]).
  reflexivity.
Defined.

End Examples.
End Protocol.
