(* ===== verification/Schedule.v ===== *)
(** * Cron schedules

    [crates/gylo-core/src/schedule.rs]. The [cron] and [chrono_tz] crates are
    dependencies: [CronCrate] has the calls the code makes to them. Instants are
    microseconds since the Unix epoch. *)

From S2P Require Import Prelude.
From S2P Require Import Utf8.
Import Utf8.

Module Schedule.

(** [Tz::from_str], [cron::Schedule::from_str], its [Display], and
    [after(..).next()]: the first occurrence of a schedule, read in a zone, that
    follows an instant. *)
Class CronCrate := {
  Tz : Type;
  CronSchedule : Type;
  tz_from_str : string → option Tz;
  cron_from_str : string → result string CronSchedule;
  cron_to_string : CronSchedule → string;
  occurrence_after : CronSchedule → Tz → Z → option Z
}.

(** The crate documents [after] as the occurrences strictly after the given time. *)
Class CronCrateLaws (C : CronCrate) : Prop := {
  occurrence_strictly_after c z t t' : occurrence_after c z t = Some t' → t < t'
}.

Inductive ScheduleError :=
| Expression (expression reason : string)
| Timezone (name : string)
| NoOccurrence (expression : string).

(** The [cron] crate reads seven fields; five-field and six-field expressions
    are completed. *)
Definition normalise (expression : string) : string :=
  match length (split_whitespace expression) with
  | 5%nat => "0 " +:+ expression +:+ " *"
  | 6%nat => expression +:+ " *"
  | _ => expression
  end.

Section Schedule.
Context {C : CronCrate}.

Record t := { cron : CronSchedule; zone : Tz }.

Definition parse (expression timezone : string) : result ScheduleError t :=
  match tz_from_str timezone with
  | None => Err (Timezone timezone)
  | Some zone =>
    match cron_from_str (normalise expression) with
    | Err error => Err (Expression expression error)
    | Ok cron => Ok {| cron := cron; zone := zone |}
    end
  end.

Definition next_after (s : t) (after : Z) : result ScheduleError Z :=
  match occurrence_after (cron s) (zone s) after with
  | Some at_ => Ok at_
  | None => Err (NoOccurrence (cron_to_string (cron s)))
  end.

Lemma next_after_later `{!CronCrateLaws C} s after at_ :
  next_after s after = Ok at_ → after < at_.
Proof.
  unfold next_after. intros H. cases. by eapply occurrence_strictly_after.
Qed.

End Schedule.

(** The characters ['0'] and ['*']. *)
Definition zero_field : list Z := [48].
Definition star_field : list Z := [42].

Lemma split_suffix e : utf8 e →
  split_whitespace (e +:+ " *") = split_whitespace e ++ [star_field].
Proof.
  intros He. unfold split_whitespace. rewrite str_chars_app by (done || by apply (bool_decide_unpack _)).
  by rewrite (words_from_app [] _ 32 [42]).
Qed.

Lemma split_prefix e : utf8 e →
  split_whitespace ("0 " +:+ e) = zero_field :: split_whitespace e.
Proof.
  intros He. unfold split_whitespace. rewrite str_chars_app by (done || by apply (bool_decide_unpack _)).
  change (str_chars "0 " ++ str_chars e) with ([48] ++ 32 :: str_chars e).
  by rewrite (words_from_app [] [48] 32 (str_chars e)).
Qed.

(** [normalise] completes an expression to the seven fields the [cron] crate
    reads and changes none the user wrote: five fields gain a leading zero for
    the seconds and a trailing star for the year, six gain the star, and
    anything else is passed on as it is. *)
Lemma normalise_fields (e : string) : utf8 e →
  split_whitespace (normalise e) =
    match length (split_whitespace e) with
    | 5%nat => zero_field :: split_whitespace e ++ [star_field]
    | 6%nat => split_whitespace e ++ [star_field]
    | _ => split_whitespace e
    end ∧
  ((5 <= length (split_whitespace e) <= 7)%nat → length (split_whitespace (normalise e)) = 7%nat).
Proof.
  intros He. unfold normalise. destruct (length (split_whitespace e)) as [|[|[|[|[|[|[|n]]]]]]] eqn:E;
    try (split; [done|lia]).
  - rewrite split_prefix, split_suffix; [|done|].
    + split; [done|]. intros _. simpl. rewrite length_app, E. done.
    + apply utf8_app; [done|by apply (bool_decide_unpack _)].
  - rewrite split_suffix by done. split; [done|]. intros _. rewrite length_app, E. done.
Qed.

End Schedule.
