(* ===== verification/UnitTests.v ===== *)
(** * The unit tests of [gylo-core]

    The tests the repository ships for the wire protocol
    ([crates/gylo-core/src/protocol.rs]) and the capabilities
    ([crates/gylo-core/src/capability.rs]), each as the check it makes, run on the
    model: they pass, for every MessagePack library that serializes the messages
    they send. *)

From S2P Require Import Prelude.
From S2P Require Import Capability.
From S2P Require Import Protocol.

Module UnitTests.

(** ** The wire protocol *)

Module Wire.
Import Protocol.

Section Tests.
Context {R : RmpSerde}.

(** [assert_eq!(round_trip(&message), message)]: encoded alone, decoded from one
    read, with nothing left in the decoder. *)
Definition round_trip (message : Message) : option Message :=
  match encode message [] with
  | (Ok _, buf) =>
    match next_message (extend new buf) with
    | (Ret (Some decoded), decoder) =>
      match buffered decoder with Ret n => if n =? 0 then Some decoded else None | _ => None end
    | _ => None
    end
  | _ => None
  end.
Definition round_trips (message : Message) : bool := bool_decide (round_trip message = Some message).

Definition dispatch : Message :=
  Dispatch (-42) 3 20 "billing.charge" [Byte.x93; Byte.x01; Byte.x02; Byte.x03].
Definition succeeded (id : Z) : Message := Complete id (Success []).

Definition a_registration : Message :=
  Register [{| cr_name := "nightly"; cr_queue := "default"; cr_task := "reports.nightly"; cr_expression := "0 3 * * *";
               cr_timezone := "Europe/London"; cr_payload := [Byte.x92; Byte.x90; Byte.x80] |}].
Definition two_steps : Message := Steps 7 [("charge", [Byte.x01]); ("email", [])].
Definition a_step : Message := Record_ 7 "charge" [Byte.x92; Byte.x01].
Definition an_acknowledgement : Message := Stored 7 "charge".

Definition registration_round_trips : bool := round_trips a_registration.
Definition an_empty_registration_round_trips : bool := round_trips (Register []).
Definition a_corrupt_registration_body_is_rejected : bool :=
  match (next_message (extend new [Byte.x03; Byte.x00; Byte.x00; Byte.x00; KIND_REGISTER; Byte.xc1; Byte.xc1])).1 with
  | Throw (Malformed _) => true | _ => false end.
Definition steps_round_trip : bool := round_trips two_steps.
Definition a_recorded_step_round_trips : bool := round_trips a_step.
Definition a_stored_acknowledgement_round_trips : bool := round_trips an_acknowledgement.
Definition dispatch_round_trips : bool := round_trips dispatch.
Definition success_round_trips : bool := round_trips (succeeded 7).
Definition a_success_carrying_a_result_round_trips : bool :=
  round_trips (Complete 7 (Success [Byte.x92; Byte.x01; Byte.x02])).
Definition retryable_failure_round_trips : bool := round_trips (Complete 7 (Failure "ValueError: café" true)).
Definition terminal_failure_round_trips : bool := round_trips (Complete 7 (Failure "ValueError: nope" false)).
Definition retryable_and_terminal_use_distinct_codes : bool :=
  match encode (Complete 1 (Failure "" true)) [], encode (Complete 1 (Failure "" false)) [] with
  | (Ok _, retryable), (Ok _, terminal) => bool_decide (retryable ≠ terminal)
  | _, _ => false
  end.
Definition empty_payload_and_task_survive : bool := round_trips (Dispatch 0 0 0 "" []).

(** [next_message().unwrap().unwrap()] of each of [expected] in turn, and what the
    decoder has then. *)
Fixpoint yields (expected : list Message) (d : Decoder) : option Decoder :=
  match expected with
  | [] => Some d
  | m :: ms =>
    match next_message d with
    | (Ret (Some m'), d') => if decide (m' = m) then yields ms d' else None
    | _ => None
    end
  end.
Definition waits (d : Decoder) : bool := match (next_message d).1 with Ret None => true | _ => false end.

Definition ids : list Z := Z.of_nat <$> seq 0 64.
Definition messages_batched_into_one_buffer_all_decode : bool :=
  forallb accepted (succeeded <$> ids) &&
  match yields (succeeded <$> ids) (extend new (encode_all (succeeded <$> ids) [])) with Some d => waits d | None => false end.

(** One byte at a time, waiting after each. *)
Fixpoint trickle (bytes : list byte) (d : Decoder) : option Decoder :=
  match bytes with
  | [] => Some d
  | b :: bs => let d := extend d [b] in if waits d then trickle bs (next_message d).2 else None
  end.
Definition frame_split_across_reads_waits_for_the_rest : bool :=
  accepted dispatch &&
  let buf := (encode dispatch []).2 in
  match trickle (removelast buf) new with
  | Some d => match yields [dispatch] (extend d (drop (length buf - 1) buf)) with Some _ => true | None => false end
  | None => false
  end.

(** [assert_eq!(decoder.next_message(), Err(e))] after one read. *)
Definition refuses (bytes : list byte) (e : ProtocolError) : bool :=
  match (next_message (extend new bytes)).1 with Throw e' => bool_decide (e' = e) | _ => false end.
Definition oversized_length_prefix_is_rejected : bool :=
  refuses (to_le_bytes 4 (2 ^ 32 - 1)) (FrameTooLarge (2 ^ 32 - 1)).
Definition unknown_kind_is_rejected : bool :=
  refuses [Byte.x01; Byte.x00; Byte.x00; Byte.x00; Byte.xfe] (UnknownKind Byte.xfe).
Definition unknown_outcome_is_rejected : bool :=
  let body := KIND_COMPLETE :: to_le_bytes 8 1 ++ [Byte.x7f] in
  refuses (to_le_bytes 4 (len body) ++ body) (UnknownOutcome Byte.x7f).
Definition truncated_body_is_rejected : bool :=
  refuses [Byte.x03; Byte.x00; Byte.x00; Byte.x00; KIND_DISPATCH; Byte.x00; Byte.x00] Truncated.

(** ["x".repeat(n)]. *)
Definition repeat_x (n : nat) : string := of_bytes (replicate n Byte.x78).
Definition oversized (id : Z) : Message := Dispatch id 1 1 (repeat_x (Z.to_nat 65536)) [].
Definition task_name_over_u16_is_rejected : bool :=
  match encode (oversized 1) [] with (Err e, buf) => bool_decide (e = TaskNameTooLong 65536 ∧ buf = []) | _ => false end.
Definition rejected_message_leaves_a_batch_intact : bool :=
  accepted dispatch &&
  let good := (encode dispatch []).2 in
  let '(refused, buf) := encode (oversized 2) good in
  negb (is_ok refused) && bool_decide (buf = good) &&
  match yields [dispatch] (extend new buf) with Some d => waits d | None => false end.

(** [n] reads of one frame, each taken before the next. *)
Fixpoint sustained (n : nat) (frame : list byte) (d : Decoder) : option Decoder :=
  match n with
  | O => Some d
  | S n' =>
    match next_message (extend d frame) with
    | (Ret (Some _), d') => sustained n' frame d'
    | _ => None
    end
  end.
Definition compacts_after (n : nat) : bool :=
  accepted (succeeded 1) &&
  let frame := (encode (succeeded 1) []).2 in
  match sustained n frame new with
  | Some d =>
    match buffered d with Ret k => (k =? 0) && (len (buf d) <? COMPACT_THRESHOLD + len frame) | _ => false end
  | None => false
  end.
Definition decoder_compacts_after_sustained_reads : bool := compacts_after (Z.to_nat 20000).

(** ** They pass *)

Lemma buffered_pending d : decoder_ok d → buffered d = Ret (len (pending d)).
Proof.
  intros Hok. rewrite len_pending by done. unfold buffered, usub. destruct Hok as [_ Hle]. by rewrite (proj2 (Z.leb_le _ _)).
Qed.

Lemma decoder_ok_new : decoder_ok new.
Proof. apply waiting_new. Qed.

Lemma taken d m f k `{!RmpSerdeLaws R} :
  decoder_ok d → wf_message m → frame_of m = Ok f → pending d = f ++ k →
  ∃ d', next_message d = (Ret (Some m), d') ∧ pending d' = k ∧ decoder_ok d' ∧ pos d' < COMPACT_THRESHOLD.
Proof.
  intros Hok Hwf Hf Hp. pose proof (next_message_answers d Hok) as Ha. rewrite Hp, (parse_frame m f k Hwf Hf) in Ha. exact Ha.
Qed.

Lemma encoded m : accepted m = true → ∃ f, frame_of m = Ok f ∧ ∀ out, encode m out = (Ok tt, out ++ f).
Proof.
  rewrite accepted_frame_of. destruct (frame_of m) as [f|] eqn:E; [|done]. intros _. exists f. split; [done|].
  intros out. by rewrite encode_frame_of, E.
Qed.

Lemma round_trips_wf `{!RmpSerdeLaws R} m : wf_message m → accepted m = true → round_trips m = true.
Proof.
  intros Hwf (f & Hf & He)%encoded. unfold round_trips, round_trip. rewrite He. cbn [app]. apply bool_decide_eq_true.
  destruct (taken (extend new f) m f [] ) as (d & -> & Hd & Hok & _); try done.
  - apply decoder_ok_extend, decoder_ok_new.
  - by rewrite pending_extend, app_nil_r by apply decoder_ok_new.
  - by rewrite buffered_pending, Hd.
Qed.

Lemma sustained_reads `{!RmpSerdeLaws R} n d m f :
  wf_message m → frame_of m = Ok f → decoder_ok d → pending d = [] → pos d < COMPACT_THRESHOLD →
  ∃ d', sustained n f d = Some d' ∧ decoder_ok d' ∧ pending d' = [] ∧ pos d' < COMPACT_THRESHOLD.
Proof.
  intros Hwf Hf. revert d. induction n as [|n IH]; intros d Hok Hp Hpos; [by exists d|]. simpl.
  destruct (taken (extend d f) m f []) as (d' & -> & Hp' & Hok' & Hpos'); try done; [by apply decoder_ok_extend| |by apply IH].
  by rewrite pending_extend, Hp, app_nil_r.
Qed.

Lemma compacts_after_all `{!RmpSerdeLaws R} n : compacts_after n = true.
Proof.
  unfold compacts_after. assert (accepted (succeeded 1) = true) as -> by by vm_compute. cbn [andb]. destruct (encoded (succeeded 1)) as (f & Hf & He); [by vm_compute|]. rewrite He. cbn [snd app].
  destruct (sustained_reads n new (succeeded 1) f) as (d & -> & Hok & Hp & Hpos);
    [by apply (bool_decide_unpack _)|done|apply decoder_ok_new|done|done|].
  rewrite buffered_pending, Hp by done. pose proof (len_pending d Hok) as Hl. rewrite Hp in Hl. change (len []) with 0 in *.
  pose proof (len_nonneg f). simpl. apply Z.ltb_lt. lia.
Qed.

(** The messages of the suite that go through the MessagePack library. *)
Definition packed_messages : list Message :=
  [a_registration; Register []; two_steps; a_step; an_acknowledgement].

Definition packed_suite : list bool :=
  [registration_round_trips; an_empty_registration_round_trips; a_corrupt_registration_body_is_rejected; steps_round_trip;
   a_recorded_step_round_trips; a_stored_acknowledgement_round_trips].
Definition plain_suite : list bool :=
  [dispatch_round_trips; success_round_trips;
   a_success_carrying_a_result_round_trips; retryable_failure_round_trips; terminal_failure_round_trips;
   retryable_and_terminal_use_distinct_codes; empty_payload_and_task_survive; messages_batched_into_one_buffer_all_decode;
   frame_split_across_reads_waits_for_the_rest; oversized_length_prefix_is_rejected; unknown_kind_is_rejected;
   unknown_outcome_is_rejected; truncated_body_is_rejected; task_name_over_u16_is_rejected;
   rejected_message_leaves_a_batch_intact].
Definition suite : list bool := packed_suite ++ plain_suite ++ [decoder_compacts_after_sustained_reads].

(** The tests that leave MessagePack alone run as they are. *)
Lemma plain_tests_pass : Forall (λ passed, passed = true) plain_suite.
Proof. assert (plain_suite = replicate 15 true) as -> by (vm_compute; reflexivity). by apply Forall_replicate. Qed.

Lemma corrupt_test_passes reason :
  from_slice_register [Byte.xc1; Byte.xc1] = Err reason → a_corrupt_registration_body_is_rejected = true.
Proof.
  intros H. vm_compute in H. vm_compute. by rewrite H.
Qed.

Lemma packed_tests_pass `{!RmpSerdeLaws R} :
  Forall (λ m, accepted m = true) packed_messages → Forall (λ m, round_trips m = true) packed_messages.
Proof.
  intros Ha. apply Forall_forall. intros m Hm. apply round_trips_wf; [|exact (proj1 (Forall_forall _ _) Ha m Hm)].
  revert m Hm. apply Forall_forall. by apply (bool_decide_unpack _).
Qed.

(** The suite passes for every MessagePack library whose laws hold, that serializes
    what the suite sends, and that refuses the byte MessagePack reserves. *)
Lemma protocol_tests_pass `{!RmpSerdeLaws R} reason :
  Forall (λ m, accepted m = true) packed_messages → from_slice_register [Byte.xc1; Byte.xc1] = Err reason →
  Forall (λ passed, passed = true) suite.
Proof.
  intros Ha Hc. pose proof (packed_tests_pass Ha) as Hp. unfold packed_messages in Hp. rewrite !Forall_cons in Hp.
  destruct Hp as (H1 & H2 & H3 & H4 & H5 & _). apply Forall_app. split.
  - apply Forall_cons_2; [exact H1|]. apply Forall_cons_2; [exact H2|]. apply Forall_cons_2; [by eapply corrupt_test_passes|].
    apply Forall_cons_2; [exact H3|]. apply Forall_cons_2; [exact H4|]. apply Forall_cons_2; [exact H5|]. constructor.
  - apply Forall_app. split; [apply plain_tests_pass|]. apply Forall_singleton, compacts_after_all.
Qed.

End Tests.
End Wire.

(** ** Capabilities *)

Module Capable.
Import Capability.

Definition EVERYTHING : Capabilities := {|
  backend := "postgres"; durable_acknowledgement := true; transactional_enqueue := true; priorities := true;
  delayed_jobs := true; unique_jobs := true; keyed_concurrency := true; workflows := true; durable_steps := true;
  cron := true; results := true |}.
(** The rest as in [EVERYTHING]. *)
Definition LOSSY : Capabilities := {|
  backend := "redis"; durable_acknowledgement := false; transactional_enqueue := false; priorities := priorities EVERYTHING;
  delayed_jobs := delayed_jobs EVERYTHING; unique_jobs := unique_jobs EVERYTHING; keyed_concurrency := false;
  workflows := false; durable_steps := false; cron := cron EVERYTHING; results := results EVERYTHING |}.

Definition a_full_backend_accepts_everything : bool :=
  is_ok (require EVERYTHING (gaps EVERYTHING)) && bool_decide (gaps EVERYTHING = []).
Definition a_missing_feature_names_itself_and_the_backend : bool :=
  match require LOSSY [Workflows] with
  | Err refused =>
    bool_decide (refused_by refused = "redis") && bool_decide (feature refused = Workflows) &&
    bool_decide (Unsupported_to_string refused = "the redis backend does not support workflows")
  | Ok _ => false
  end.
Definition what_a_backend_can_do_is_still_accepted : bool := is_ok (require LOSSY [Priorities; DelayedJobs; Cron]).
Definition the_first_gap_is_the_one_reported : bool :=
  match require LOSSY [Priorities; DurableSteps; Workflows] with
  | Err refused => bool_decide (feature refused = DurableSteps) | Ok _ => false end.
Definition gaps_are_listable_for_a_startup_report : bool :=
  bool_decide (gaps LOSSY = [DurableAcknowledgement; TransactionalEnqueue; KeyedConcurrency; Workflows; DurableSteps]).
Definition losing_accepted_jobs_is_a_capability_like_any_other : bool := negb (supports LOSSY DurableAcknowledgement).

Lemma capability_tests_pass :
  a_full_backend_accepts_everything && a_missing_feature_names_itself_and_the_backend &&
  what_a_backend_can_do_is_still_accepted && the_first_gap_is_the_one_reported && gaps_are_listable_for_a_startup_report &&
  losing_accepted_jobs_is_a_capability_like_any_other = true.
Proof. by vm_compute. Qed.

End Capable.
End UnitTests.
