(* ===== verification/ChildProtocol.v ===== *)
(** * The child's side of the protocol

    [python/gylo/_protocol.py], which says of itself that it mirrors
    [crates/gylo-core/src/protocol.rs]: what the child writes, its [Decoder], and
    that each side reads what the other writes. A Python [str] is the list of its
    code points, lone surrogates included. [msgspec] is a dependency: the class
    [Msgspec] has the calls the code makes to it and [Interop] what both sides
    rely on, that it and [rmp_serde] write and read one format. *)

From S2P Require Import Prelude.
From S2P Require Import Utf8.
From S2P Require Import Protocol.
Import Utf8.

Module ChildProtocol.

(** ** Constants *)

Definition DISPATCH_HEAD_BYTES : Z := 15.
Definition COMPLETE_BODY_BYTES : Z := 10.
Definition MAX_ERROR_BYTES : Z := 64 * 1024.

(** ** Python *)

(** What the code raises or lets through. *)
Inductive raised :=
| StructError
| FrameTooLarge (n : Z)
| UnexpectedKind (kind : byte)
| Truncated
| IndexError
| UnicodeDecodeError
| DecodeError.

(** [c.encode("utf-8", "replace")] of one code point: a lone surrogate has no
    encoding and becomes a question mark. *)
Definition encode_char (c : Z) : list byte :=
  byte.of_Z <$>
  if c <? 0x80 then [c]
  else if c <? 0x800 then [0xC0 + c / 64; 0x80 + c mod 64]
  else if between 0xD800 0xDFFF c then [0x3F]
  else if c <? 0x10000 then [0xE0 + c / 4096; 0x80 + c / 64 mod 64; 0x80 + c mod 64]
  else [0xF0 + c / 262144; 0x80 + c / 4096 mod 64; 0x80 + c / 64 mod 64; 0x80 + c mod 64].

Definition encode_str (s : list Z) : list byte := s ≫= encode_char.

Definition code_point (c : Z) : Prop := 0 <= c < 0x110000.

(** [buf[lo:hi]], which never fails. *)
Definition cut (lo hi : Z) (buf : list byte) : list byte :=
  take (Z.to_nat (hi - lo)) (drop (Z.to_nat lo) buf).

(** ** Encoding *)

(** [_LENGTH.pack(n)]. *)
Definition pack_length (n : Z) : result raised (list byte) :=
  if decide (in_unsigned 32 n) then Ok (to_le_bytes 4 n) else Err StructError.

(** [_COMPLETE.pack(n, KIND_COMPLETE, job_id, outcome)]. *)
Definition pack_complete (n job_id : Z) (outcome : byte) : result raised (list byte) :=
  if decide (in_unsigned 32 n ∧ in_signed 64 job_id)
  then Ok (to_le_bytes 4 n ++ Protocol.KIND_COMPLETE :: to_le_bytes 8 job_id ++ [outcome])
  else Err StructError.

Definition encode_success (job_id : Z) (res : list byte) : result raised (list byte) :=
  head ← pack_complete (COMPLETE_BODY_BYTES + len res) job_id Protocol.OUTCOME_SUCCESS;
  Ok (head ++ res).

(** The mark left where an error was cut. *)
Definition trimmed : list byte := Byte.x0a :: as_bytes "... truncated".

(** The bytes of an error, trimmed to the most the frame may carry. *)
Definition rendered (error : list Z) : list byte :=
  let bytes := encode_str error in
  if MAX_ERROR_BYTES <? len bytes then cut 0 MAX_ERROR_BYTES bytes ++ trimmed else bytes.

Definition encode_failure (job_id : Z) (error : list Z) (retry : bool) : result raised (list byte) :=
  head ← pack_complete (COMPLETE_BODY_BYTES + len (rendered error)) job_id
           (if retry then Protocol.OUTCOME_RETRY else Protocol.OUTCOME_TERMINAL);
  Ok (head ++ rendered error).

(** [payload_limit], of the encoded task name. *)
Definition payload_limit (task : string) : Z :=
  Protocol.MAX_FRAME_BYTES - DISPATCH_HEAD_BYTES - len (as_bytes task).

(** [msgspec.msgpack.encode] and [decode] at the types the code uses them at; a
    value that does not decode, or not to that shape, raises. *)
Class Msgspec := {
  encode_entries : list Protocol.CronRegistration → list byte;
  encode_step : Protocol.WireRecord → list byte;
  decode_steps : list byte → option (Z * list (string * list byte));
  decode_stored : list byte → option (Z * string)
}.

(** Both libraries implement MessagePack: what one wrote the other reads. *)
Class Interop (R : Protocol.RmpSerde) (M : Msgspec) : Prop := {
  entries_read es : Forall Protocol.wf_registration es →
    Protocol.from_slice_register (encode_entries es) = Ok es;
  step_read r : Protocol.wf_record r → Protocol.from_slice_record (encode_step r) = Ok r;
  steps_read id (steps : list (string * list byte)) bs :
    Protocol.to_vec_steps (id, (λ s, {| Protocol.step_name := s.1; Protocol.step_result := s.2 |}) <$> steps) = Ok bs →
    decode_steps bs = Some (id, steps);
  stored_read id name bs : Protocol.to_vec_stored (id, name) = Ok bs → decode_stored bs = Some (id, name)
}.

Section Child.
Context {M : Msgspec}.

Definition encode_register (entries : list Protocol.CronRegistration) : result raised (list byte) :=
  let body := Protocol.KIND_REGISTER :: encode_entries entries in
  head ← pack_length (len body); Ok (head ++ body).

Definition encode_record (job_id : Z) (name : string) (res : list byte) : result raised (list byte) :=
  let body := Protocol.KIND_RECORD ::
    encode_step {| Protocol.record_id := job_id; Protocol.record_name := name; Protocol.record_result := res |} in
  head ← pack_length (len body); Ok (head ++ body).

(** ** Decoding *)

(** The frame whose body starts at [body]: its message and where it ends. *)
Definition drain_body (buf : list byte) (body body_len : Z) : result raised (Protocol.Message * Z) :=
  let end_ := body + body_len in
  match buf !! Z.to_nat body with
  | None => Err IndexError
  | Some kind =>
    if decide (kind = Protocol.KIND_STEPS) then
      match decode_steps (cut (body + 1) end_ buf) with
      | Some (id, steps) => Ok (Protocol.Steps id steps, end_)
      | None => Err DecodeError
      end
    else if decide (kind = Protocol.KIND_STORED) then
      match decode_stored (cut (body + 1) end_ buf) with
      | Some (id, name) => Ok (Protocol.Stored id name, end_)
      | None => Err DecodeError
      end
    else if decide (kind ≠ Protocol.KIND_DISPATCH) then Err (UnexpectedKind kind)
    else if body_len <? DISPATCH_HEAD_BYTES then Err Truncated else
    let job_id := from_le_signed (cut (body + 1) (body + 9) buf) in
    let attempt := from_le_signed (cut (body + 9) (body + 11) buf) in
    let max_attempts := from_le_signed (cut (body + 11) (body + 13) buf) in
    let name_len := from_le_unsigned (cut (body + 13) (body + 15) buf) in
    let name_at := body + DISPATCH_HEAD_BYTES in
    let payload_at := name_at + name_len in
    if end_ <? payload_at then Err Truncated else
    match from_utf8 (cut name_at payload_at buf) with
    | None => Err UnicodeDecodeError
    | Some task => Ok (Protocol.Dispatch job_id attempt max_attempts task (cut payload_at end_ buf), end_)
    end
  end.

(** One turn of [drain]'s loop: the message at [pos] and where the next starts,
    or [None] where the loop breaks. *)
Definition drain_turn (buf : list byte) (pos : Z) : result raised (option (Protocol.Message * Z)) :=
  let size := len buf in
  if size - pos <? Protocol.HEADER_BYTES then Ok None else
  let body_len := from_le_unsigned (cut pos (pos + 4) buf) in
  if Protocol.MAX_FRAME_BYTES <? body_len then Err (FrameTooLarge body_len) else
  if size - pos - Protocol.HEADER_BYTES <? body_len then Ok None else
  Some <$> drain_body buf (pos + Protocol.HEADER_BYTES) body_len.

(** The loop; a turn takes at least a header, so one turn more than there are
    bytes is enough ([drain_prefix]). *)
Fixpoint drain_from (fuel : nat) (buf : list byte) (pos : Z) : result raised (list Protocol.Message * Z) :=
  match fuel with
  | O => Ok ([], pos)
  | S fuel' =>
    turn ← drain_turn buf pos;
    match turn with
    | None => Ok ([], pos)
    | Some (m, pos') => '(out, last) ← drain_from fuel' buf pos'; Ok (m :: out, last)
    end
  end.

(** [Decoder.drain]: the messages, and what is left of the buffer. *)
Definition drain (buf : list byte) : result raised (list Protocol.Message * list byte) :=
  '(out, pos) ← drain_from (S (length buf)) buf 0;
  Ok (out, drop (Z.to_nat pos) buf).

(** [extend] and [drain] for each chunk read; what is raised ends the child. *)
Fixpoint reads (buf : list byte) (chunks : list (list byte)) : result raised (list Protocol.Message * list byte) :=
  match chunks with
  | [] => Ok ([], buf)
  | c :: cs => '(out, buf') ← drain (buf ++ c); '(out', buf'') ← reads buf' cs; Ok (out ++ out', buf'')
  end.

End Child.

(** ** What Python writes is UTF-8, until it is cut *)

Lemma u_of_Z z : 0 <= z < 256 → u (byte.of_Z z) = z.
Proof. intros Hz. unfold u. rewrite byte.unsigned_of_Z. unfold byte.wrap. by apply Z.mod_small. Qed.

Lemma encode_char_next c k : code_point c → ∃ c', next_char (encode_char c ++ k) = Some (c', k).
Proof.
  unfold code_point, encode_char. intros Hc.
  assert (∀ lo hi z, lo <= z <= hi → between lo hi z = true) as Hin.
  { intros lo hi z H. unfold between. rewrite !(proj2 (Z.leb_le _ _)) by lia. done. }
  assert (∀ lo hi z, z < lo ∨ hi < z → between lo hi z = false) as Hout.
  { intros lo hi z H. unfold between. destruct (Z.leb_spec lo z), (Z.leb_spec z hi); try done; lia. }
  destruct (Z.ltb_spec c 0x80); [|destruct (Z.ltb_spec c 0x800)].
  - simpl. rewrite u_of_Z by lia. rewrite (proj2 (Z.ltb_lt c 128)) by done. eauto.
  - simpl. unfold cont. rewrite !u_of_Z by (Z.div_mod_to_equations; lia).
    rewrite (proj2 (Z.ltb_ge _ 128)), !Hin by (Z.div_mod_to_equations; lia). eauto.
  - destruct (between 0xD800 0xDFFF c) eqn:Es; [by eexists|].
    assert (c < 0xD800 ∨ 0xDFFF < c) as Hs.
    { unfold between in Es. apply andb_false_iff in Es as [E|E]; apply Z.leb_gt in E; lia. }
    destruct (Z.ltb_spec c 0x10000); simpl; unfold second_of_three, second_of_four, cont;
      rewrite !u_of_Z by (Z.div_mod_to_equations; lia);
      rewrite (proj2 (Z.ltb_ge _ 128)) by (Z.div_mod_to_equations; lia);
      rewrite (Hout 0xC2 0xDF) by (Z.div_mod_to_equations; lia).
    + rewrite (Hin 0xE0 0xEF), (Hin 0x80 0xBF (0x80 + c mod 64)) by (Z.div_mod_to_equations; lia).
      rewrite andb_true_r. destruct (Z.eqb_spec (0xE0 + c / 4096) 0xE0);
        [|destruct (Z.eqb_spec (0xE0 + c / 4096) 0xED)]; rewrite Hin by (Z.div_mod_to_equations; lia); eauto.
    + rewrite (Hout 0xE0 0xEF), (Hin 0xF0 0xF4), (Hin 0x80 0xBF (0x80 + c mod 64)),
        (Hin 0x80 0xBF (0x80 + c / 64 mod 64)) by (Z.div_mod_to_equations; lia).
      rewrite !andb_true_r. destruct (Z.eqb_spec (0xF0 + c / 262144) 0xF0);
        [|destruct (Z.eqb_spec (0xF0 + c / 262144) 0xF4)]; rewrite Hin by (Z.div_mod_to_equations; lia); eauto.
Qed.

Lemma encode_str_valid s : Forall code_point s → is_Some (chars (encode_str s)).
Proof.
  induction 1 as [|c s Hc _ [cs IH]]; [by eexists|]. change (encode_str (c :: s)) with (encode_char c ++ encode_str s).
  destruct (encode_char_next c (encode_str s) Hc) as [c' E]. rewrite (chars_cons _ _ _ E), IH. eauto.
Qed.

(** Cutting valid text in two leaves both halves valid or neither. *)
Lemma chars_rest a b : is_Some (chars (a ++ b)) → is_Some (chars a) → is_Some (chars b).
Proof.
  remember (length a) as n eqn:Hn. revert a Hn. induction (lt_wf n) as [n _ IH]. intros a -> Hab Ha.
  destruct (next_char a) as [[c rest]|] eqn:E.
  - pose proof (next_char_shorter _ _ _ E) as Hlt. rewrite (chars_cons _ _ _ E) in Ha.
    rewrite (chars_cons _ _ _ (next_char_app _ _ _ b E)) in Hab.
    apply fmap_is_Some in Ha. apply fmap_is_Some in Hab. by eapply (IH _ Hlt rest).
  - destruct a as [|x a]; [done|]. unfold chars in Ha. cbn [length chars_of] in Ha. rewrite E in Ha. by destruct Ha.
Qed.

Lemma next_char_before a x k c rest :
  cont x = false → a ≠ [] → next_char (a ++ x :: k) = Some (c, rest) → ∃ a', rest = a' ++ x :: k ∧ next_char a = Some (c, a').
Proof.
  intros Hc Ha H. assert (¬ 128 <= u x <= 191) as Hx.
  { intros [? ?]. unfold cont, between in Hc. by rewrite !(proj2 (Z.leb_le _ _)) in Hc by lia. }
  assert (∀ lo hi, 128 <= lo → hi <= 191 → between lo hi (u x) = false) as Hout.
  { intros lo hi ? ?. unfold between. destruct (Z.leb_spec lo (u x)), (Z.leb_spec (u x) hi); try done; lia. }
  assert (∀ b, second_of_three b x = false) as H3 by (intros b; unfold second_of_three, cont; repeat case_match; by apply Hout).
  assert (∀ b, second_of_four b x = false) as H4 by (intros b; unfold second_of_four, cont; repeat case_match; by apply Hout).
  destruct a as [|b0 a]; [done|]. unfold next_char in *. cbn [app] in H.
  destruct (u b0 <? 128); [simplify_eq; eauto|].
  destruct (between 194 223 (u b0)); [|destruct (between 224 239 (u b0)); [|destruct (between 240 244 (u b0)); [|done]]];
    destruct a as [|b1 a]; cbn [app] in H; rewrite ?Hc, ?H3, ?H4, ?andb_false_r in H; try done.
  - destruct (cont b1); simplify_eq. eauto.
  - by destruct k; rewrite ?H3 in H.
  - destruct a as [|b2 a]; cbn [app] in H; rewrite ?Hc, ?andb_false_r in H; [done|].
    destruct (_ && _); simplify_eq. eauto.
  - destruct k as [|? [|? ?]]; by rewrite ?H4 in H.
  - destruct a as [|b2 a]; cbn [app] in H; rewrite ?Hc, ?andb_false_r in H; [by destruct k; rewrite ?Hc, ?andb_false_r in H|].
    destruct a as [|b3 a]; cbn [app] in H; rewrite ?Hc, ?andb_false_r in H; [done|].
    destruct (_ && _); simplify_eq. eauto.
Qed.

Lemma chars_before a x k : cont x = false → is_Some (chars (a ++ x :: k)) → is_Some (chars a).
Proof.
  intros Hx. remember (length a) as n eqn:Hn. revert a Hn. induction (lt_wf n) as [n _ IH]. intros a -> Hc.
  destruct a as [|b a]; [by eexists|].
  destruct (next_char ((b :: a) ++ x :: k)) as [[c rest]|] eqn:E.
  - rewrite (chars_cons _ _ _ E) in Hc. apply fmap_is_Some in Hc.
    apply next_char_before in E as (a' & -> & E); [|done|done]. rewrite (chars_cons _ _ _ E).
    apply fmap_is_Some. by apply (IH (length a') (next_char_shorter _ _ _ E)).
  - unfold chars in Hc. cbn [app] in E, Hc. cbn [length chars_of] in Hc. rewrite E in Hc. by destruct Hc.
Qed.

Lemma not_cont_first b k : cont b = true → chars (b :: k) = None.
Proof.
  intros Hb. unfold chars. cbn [length chars_of]. replace (next_char (b :: k)) with (@None (Z * list byte)); [done|].
  unfold cont, between in Hb. bool_facts. unfold next_char, between.
  rewrite (proj2 (Z.ltb_ge _ _)) by lia.
  rewrite (proj2 (Z.leb_gt 194 (u b))), (proj2 (Z.leb_gt 224 (u b))), (proj2 (Z.leb_gt 240 (u b))) by lia. done.
Qed.

(** ** The child reads what the supervisor writes *)

#[local] Opaque to_le_bytes.

Lemma cut_at lo hi l a b c : l = a ++ b ++ c → lo = len a → hi = lo + len b → cut lo hi l = b.
Proof.
  intros -> -> ->. unfold cut, len. rewrite Nat2Z.id, drop_app_length.
  replace (Z.to_nat (Z.of_nat (length a) + Z.of_nat (length b) - Z.of_nat (length a))) with (length b) by lia.
  apply take_app_length.
Qed.

(** The messages a child is sent. *)
Definition for_child (m : Protocol.Message) : Prop :=
  match m with
  | Protocol.Dispatch _ _ _ _ _ | Protocol.Steps _ _ | Protocol.Stored _ _ => True
  | _ => False
  end.

Section Agreement.
Context {R : Protocol.RmpSerde} {M : Msgspec} `{!Interop R M}.

Lemma frame_split m f :
  Protocol.frame_of m = Ok f →
  ∃ packed n, Protocol.measure m = Ok (packed, n) ∧ f = to_le_bytes 4 n ++ Protocol.body m packed ∧
    len (Protocol.body m packed) = n ∧ 1 <= n <= Protocol.MAX_FRAME_BYTES ∧ from_le_unsigned (to_le_bytes 4 n) = n.
Proof.
  unfold Protocol.frame_of, mbind, result_bind. destruct (Protocol.measure m) as [[packed n]|] eqn:Hm; [|done].
  destruct (Z.ltb_spec Protocol.MAX_FRAME_BYTES n) as [|Hmax]; [done|]. intros [= <-].
  pose proof (Protocol.measure_nonneg _ _ _ Hm). exists packed, n.
  destruct (Protocol.write_body_spec m packed n [] Hm) as [_ Hn]. split_and!; try done.
  apply from_le_unsigned_to_le. unfold in_unsigned, Protocol.MAX_FRAME_BYTES in *. lia.
Qed.

(** A body in the middle of a buffer: its kind, and what follows the kind. *)
Lemma body_parts pre kind rest k (h := len pre) :
  (pre ++ (kind :: rest) ++ k) !! Z.to_nat h = Some kind ∧
  cut (h + 1) (h + len (kind :: rest)) (pre ++ (kind :: rest) ++ k) = rest.
Proof.
  split.
  - unfold h, len. rewrite Nat2Z.id. cbn [app]. by apply list_lookup_middle.
  - apply (cut_at _ _ _ (pre ++ [kind]) rest k); rewrite <- ?app_assoc, ?len_app, ?len_cons, ?len_nil; done || lia.
Qed.

Lemma body_dispatch id a ma t p pre k :
  Protocol.wf_message (Protocol.Dispatch id a ma t p) → len (as_bytes t) < 2 ^ 16 →
  let b := Protocol.body (Protocol.Dispatch id a ma t p) [] in
  drain_body (pre ++ b ++ k) (len pre) (len b) = Ok (Protocol.Dispatch id a ma t p, len pre + len b).
Proof.
  intros (Hid & Ha & Hma & Ht) Hlen. cbn [Protocol.body].
  set (i8 := to_le_bytes 8 id). set (a2 := to_le_bytes 2 a). set (m2 := to_le_bytes 2 ma).
  set (n2 := to_le_bytes 2 (len (as_bytes t))). set (tb := as_bytes t) in *. cbv zeta.
  assert (len i8 = 8 ∧ len a2 = 2 ∧ len m2 = 2 ∧ len n2 = 2) as (L1 & L2 & L3 & L4)
    by (unfold i8, a2, m2, n2; by rewrite !len_to_le_bytes).
  pose proof (len_nonneg tb). pose proof (len_nonneg p). set (rest := i8 ++ a2 ++ m2 ++ n2 ++ tb ++ p).
  assert (len (Protocol.KIND_DISPATCH :: rest) = 15 + len tb + len p) as Ln by (unfold rest; rewrite len_cons, !len_app; lia).
  destruct (body_parts pre Protocol.KIND_DISPATCH rest k) as [Hk _]. unfold drain_body. rewrite Hk, Ln. clear Hk Ln.
  rewrite !decide_False by (done || (intros H'; by apply H')). unfold DISPATCH_HEAD_BYTES. rewrite (proj2 (Z.ltb_ge _ _)) by lia.
  set (h := pre ++ [Protocol.KIND_DISPATCH]). assert (len h = len pre + 1) as Lh by (unfold h; by rewrite len_app).
  replace (pre ++ (Protocol.KIND_DISPATCH :: rest) ++ k) with (h ++ i8 ++ a2 ++ m2 ++ n2 ++ tb ++ p ++ k)
    by (unfold h, rest; rewrite <- !app_assoc; simpl; by rewrite <- !app_assoc).
  rewrite (cut_at (len pre + 1) (len pre + 9) _ h i8 (a2 ++ m2 ++ n2 ++ tb ++ p ++ k)) by (done || lia).
  rewrite (cut_at (len pre + 9) (len pre + 11) _ (h ++ i8) a2 (m2 ++ n2 ++ tb ++ p ++ k)) by (rewrite <- ?app_assoc, ?len_app; done || lia).
  rewrite (cut_at (len pre + 11) (len pre + 13) _ (h ++ i8 ++ a2) m2 (n2 ++ tb ++ p ++ k)) by (rewrite <- ?app_assoc, ?len_app; done || lia).
  rewrite (cut_at (len pre + 13) (len pre + 15) _ (h ++ i8 ++ a2 ++ m2) n2 (tb ++ p ++ k)) by (rewrite <- ?app_assoc, ?len_app; done || lia).
  assert (from_le_unsigned n2 = len tb) as -> by (apply from_le_unsigned_to_le; split; [done|exact Hlen]).
  rewrite (proj2 (Z.ltb_ge _ _)) by lia.
  rewrite (cut_at (len pre + 15) _ _ (h ++ i8 ++ a2 ++ m2 ++ n2) tb (p ++ k)) by (rewrite <- ?app_assoc, ?len_app; done || lia).
  rewrite (cut_at (len pre + 15 + len tb) _ _ (h ++ i8 ++ a2 ++ m2 ++ n2 ++ tb) p k) by (rewrite <- ?app_assoc, ?len_app; done || lia).
  unfold tb, i8, a2, m2. by rewrite (from_utf8_as_bytes t Ht), !from_le_signed_to_le by (done || lia).
Qed.

Lemma body_frame m packed n pre k :
  for_child m → Protocol.wf_message m → Protocol.measure m = Ok (packed, n) →
  let b := Protocol.body m packed in drain_body (pre ++ b ++ k) (len pre) (len b) = Ok (m, len pre + len b).
Proof.
  intros Hm Hwf Hms. destruct m as [es|id st|id nm r|id nm|id a ma t p|id [r|e rt]]; try done;
    simpl in Hms; unfold mbind, result_bind, Protocol.pack, map_err in Hms.
  - destruct (Protocol.to_vec_steps _) as [bs|] eqn:E; [|done]. injection Hms as <- _.
    destruct (body_parts pre Protocol.KIND_STEPS bs k) as [Hk Hc]. unfold drain_body. cbn [Protocol.body]. cbv zeta.
    by rewrite Hk, Hc, decide_True, (steps_read _ _ _ E).
  - destruct (Protocol.to_vec_stored _) as [bs|] eqn:E; [|done]. injection Hms as <- _.
    destruct (body_parts pre Protocol.KIND_STORED bs k) as [Hk Hc]. unfold drain_body. cbn [Protocol.body]. cbv zeta.
    by rewrite Hk, Hc, decide_False, decide_True, (stored_read _ _ _ E).
  - unfold try_from_unsigned in Hms. case_decide as Hlen; [|done]. injection Hms as <- _.
    apply body_dispatch; [done|]. apply Hlen.
Qed.

(** A turn that starts at a whole frame takes it. *)
Lemma turn_frame m f pre k :
  for_child m → Protocol.wf_message m → Protocol.frame_of m = Ok f →
  drain_turn (pre ++ f ++ k) (len pre) = Ok (Some (m, len pre + len f)).
Proof.
  intros Hm Hwf (packed & n & Hms & -> & Hn & Hmax & Hhead)%frame_split.
  pose proof (body_frame m packed n (pre ++ to_le_bytes 4 n) k Hm Hwf Hms) as Hb. cbv zeta in Hb.
  set (b := Protocol.body m packed) in *. pose proof (len_to_le_bytes 4 n) as L4. change (Z.of_nat 4) with 4 in L4.
  pose proof (len_nonneg k). unfold drain_turn, Protocol.HEADER_BYTES. rewrite !len_app, L4, Hn.
  rewrite (proj2 (Z.ltb_ge _ _)) by lia.
  rewrite (cut_at _ _ _ pre (to_le_bytes 4 n) (b ++ k)) by (rewrite <- ?app_assoc; done || lia).
  rewrite Hhead, (proj2 (Z.ltb_ge _ _)), (proj2 (Z.ltb_ge _ _)) by lia.
  rewrite <- !app_assoc, len_app, L4, Hn in Hb. rewrite <- !app_assoc, Hb. simpl. do 3 f_equal. lia.
Qed.

(** One that starts at a frame not all there waits. *)
Lemma turn_short m f pre p q :
  Protocol.frame_of m = Ok f → f = p ++ q → q ≠ [] → drain_turn (pre ++ p) (len pre) = Ok None.
Proof.
  intros (packed & n & _ & Hf & Hn & Hmax & Hhead)%frame_split -> Hq. unfold drain_turn, Protocol.HEADER_BYTES.
  pose proof (len_to_le_bytes 4 n) as L4. change (Z.of_nat 4) with 4 in L4.
  assert (len p < 4 + n) as Hlt.
  { apply (f_equal len) in Hf. rewrite !len_app, L4, Hn in Hf. assert (0 < len q); [|lia].
    destruct q; [done|]. rewrite len_cons. pose proof (len_nonneg q). lia. }
  rewrite len_app. destruct (Z.ltb_spec (len pre + len p - len pre) 4) as [|H4]; [done|].
  assert (∃ p', p = to_le_bytes 4 n ++ p') as [p' ->].
  { exists (drop 4 p). rewrite <- (take_drop 4 p) at 1. f_equal. apply (f_equal (take 4)) in Hf.
    rewrite take_app_le in Hf by (unfold len in H4; lia). rewrite Hf. apply take_app_length'. unfold len in L4. lia. }
  rewrite (cut_at _ _ _ pre (to_le_bytes 4 n) p') by (done || lia).
  rewrite Hhead, (proj2 (Z.ltb_ge _ _)) by lia. by rewrite (proj2 (Z.ltb_lt _ _)) by lia.
Qed.

(** Frames one after the other. *)
Inductive framed : list Protocol.Message → list byte → Prop :=
| framed_nil : framed [] []
| framed_cons m f ms s :
    for_child m → Protocol.wf_message m → Protocol.frame_of m = Ok f → framed ms s → framed (m :: ms) (f ++ s).

Lemma framed_batch ms :
  Forall for_child ms → Forall Protocol.wf_message ms →
  framed (List.filter Protocol.accepted ms) (Protocol.encode_all ms []).
Proof.
  intros Hc Hwf. induction ms as [|m ms IH]; [constructor|]. apply Forall_cons in Hc as [Hm Hc], Hwf as [Hw Hwf].
  unfold Protocol.encode_all. simpl. fold (Protocol.encode_all ms (Protocol.encode m []).2).
  rewrite Protocol.accepted_frame_of, Protocol.encode_frame_of, Protocol.encode_all_app.
  destruct (Protocol.frame_of m) as [f|] eqn:Hf; simpl; [|auto]. constructor; auto.
Qed.

(** A buffer that ends within the first of [ms], or where they end. *)
Definition starved (buf : list byte) (ms : list Protocol.Message) : Prop :=
  match ms with [] => buf = [] | m :: _ => ∀ f, Protocol.frame_of m = Ok f → (length buf < length f)%nat end.

Lemma frame_nonempty m f : Protocol.frame_of m = Ok f → (4 < length f)%nat.
Proof.
  intros (packed & n & _ & -> & Hn & Hmax & _)%frame_split. rewrite length_app.
  pose proof (len_to_le_bytes 4 n). unfold len in *. lia.
Qed.

Lemma drain_prefix ms s fuel pre b k :
  framed ms s → b ++ k = s → (length b < fuel)%nat →
  ∃ ms1 ms2 r, ms = ms1 ++ ms2 ∧ framed ms2 (r ++ k) ∧ starved r ms2 ∧ r = drop (length b - length r) b ∧
    (length r <= length b)%nat ∧ drain_from fuel (pre ++ b) (len pre) = Ok (ms1, len pre + len b - len r).
Proof.
  intros Hfr. revert fuel pre b. induction Hfr as [|m f ms s Hm Hwf Hf Hfr IH]; intros fuel pre b Hs Hfuel.
  - apply app_nil in Hs as [-> ->]. exists [], [], []. destruct fuel; [lia|]. split_and!; try done; [constructor|].
    rewrite app_nil_r. simpl. unfold drain_turn, Protocol.HEADER_BYTES.
    rewrite (proj2 (Z.ltb_lt _ _)) by lia. simpl. do 2 f_equal. rewrite len_nil. lia.
  - destruct fuel as [|fuel]; [lia|]. destruct (decide (length b < length f)%nat) as [Hlt|Hge].
    + exists [], (m :: ms), b. rewrite Hs. split_and!; try done; [by constructor|by intros f' [= <-]%(eq_trans (eq_sym Hf))| |].
      { by rewrite Nat.sub_diag. }
      assert (f = b ++ drop (length b) f) as Ef.
      { rewrite <- (take_drop (length b) f) at 1. f_equal. apply (f_equal (take (length b))) in Hs.
        rewrite take_app_length, take_app_le in Hs by lia. done. }
      simpl. rewrite (turn_short m f pre b (drop (length b) f)); [|done|done|].
      * simpl. do 2 f_equal. lia.
      * intros Hz. apply (f_equal length) in Hz. rewrite length_drop in Hz. simpl in Hz. lia.
    + assert (b = f ++ drop (length f) b) as Eb.
      { rewrite <- (take_drop (length f) b) at 1. f_equal. apply (f_equal (take (length f))) in Hs.
        rewrite take_app_length, take_app_le in Hs by lia. done. }
      set (b' := drop (length f) b) in *. rewrite Eb in Hs. rewrite <- app_assoc in Hs. apply app_inv_head in Hs.
      pose proof (frame_nonempty m f Hf) as Hpos. assert (length b = length f + length b')%nat as Lb by (rewrite Eb at 1; apply length_app).
      destruct (IH fuel (pre ++ f) b' Hs) as (ms1 & ms2 & r & -> & Hfr2 & Hst & Er & Hle & E); [lia|].
      exists (m :: ms1), ms2, r. split_and!; try done; [|lia|].
      { rewrite Eb, length_app. replace (length f + length b' - length r)%nat with (length f + (length b' - length r))%nat by lia.
        by rewrite <- drop_drop, drop_app_length. }
      rewrite Eb. cbn [drain_from]. rewrite (turn_frame m f pre b' Hm Hwf Hf). cbn [mbind result_bind].
      rewrite <- len_app, app_assoc, E. cbn [mbind result_bind]. do 2 f_equal. rewrite !len_app. lia.
Qed.

Lemma drain_framed ms b k :
  framed ms (b ++ k) → ∃ ms1 ms2 r, ms = ms1 ++ ms2 ∧ framed ms2 (r ++ k) ∧ starved r ms2 ∧ drain b = Ok (ms1, r).
Proof.
  intros Hfr. destruct (drain_prefix ms _ (S (length b)) [] b k Hfr eq_refl) as (ms1 & ms2 & r & -> & Hfr2 & Hst & Er & Hle & E); [lia|].
  exists ms1, ms2, r. split_and!; try done. unfold drain. change (len []) with 0 in E. cbn [app] in E. rewrite E.
  cbn [mbind result_bind]. do 2 f_equal. rewrite Er at 2. f_equal. unfold len. lia.
Qed.

Lemma reads_framed ms buf chunks :
  starved buf ms → framed ms (buf ++ concat chunks) → reads buf chunks = Ok (ms, []).
Proof.
  revert ms buf. induction chunks as [|c cs IH]; intros ms buf Hst Hfr; simpl in *.
  - rewrite app_nil_r in Hfr. destruct Hfr as [|m f ms s Hm Hwf Hf Hfr]; [done|].
    specialize (Hst f Hf). rewrite length_app in Hst. lia.
  - rewrite app_assoc in Hfr. destruct (drain_framed _ _ _ Hfr) as (ms1 & ms2 & r & -> & Hfr2 & Hst2 & ->).
    cbn [mbind result_bind]. by rewrite (IH ms2 r).
Qed.

Lemma reads_batch ms chunks :
  Forall for_child ms → Forall Protocol.wf_message ms → concat chunks = Protocol.encode_all ms [] →
  reads [] chunks = Ok (List.filter Protocol.accepted ms, []).
Proof.
  intros Hc Hwf Hd. pose proof (framed_batch ms Hc Hwf) as Hfr. apply reads_framed; [|by rewrite Hd].
  destruct (List.filter _ _); [done|]. intros f Hf%frame_nonempty. simpl. lia.
Qed.

(** ** The supervisor reads what the child writes *)

(** What a child says. *)
Inductive said :=
| Registers (entries : list Protocol.CronRegistration)
| Records (id : Z) (name : string) (res : list byte)
| Succeeds (id : Z) (res : list byte)
| Fails (id : Z) (error : list Z) (retry : bool).

Definition written (s : said) : result raised (list byte) :=
  match s with
  | Registers entries => encode_register entries
  | Records id name res => encode_record id name res
  | Succeeds id res => encode_success id res
  | Fails id error retry => encode_failure id error retry
  end.

Definition means (s : said) : Protocol.Message :=
  match s with
  | Registers entries => Protocol.Register entries
  | Records id name res => Protocol.Record_ id name res
  | Succeeds id res => Protocol.Complete id (Protocol.Success res)
  | Fails id error retry => Protocol.Complete id (Protocol.Failure (of_bytes (rendered error)) retry)
  end.

(** The error is short enough, or cut between two characters. *)
Definition cut_clean (error : list Z) : Prop :=
  ∀ b, encode_str error !! Z.to_nat MAX_ERROR_BYTES = Some b → cont b = false.

(** Within the limits the other side sets. *)
Definition readable (s : said) : Prop :=
  match s with
  | Registers entries => Forall Protocol.wf_registration entries ∧ 1 + len (encode_entries entries) <= Protocol.MAX_FRAME_BYTES
  | Records id name res =>
    let r := {| Protocol.record_id := id; Protocol.record_name := name; Protocol.record_result := res |} in
    Protocol.wf_record r ∧ 1 + len (encode_step r) <= Protocol.MAX_FRAME_BYTES
  | Succeeds id res => in_signed 64 id ∧ COMPLETE_BODY_BYTES + len res <= Protocol.MAX_FRAME_BYTES
  | Fails id error _ => in_signed 64 id ∧ Forall code_point error ∧ cut_clean error
  end.

Lemma rendered_size error : len (rendered error) <= MAX_ERROR_BYTES + 14.
Proof.
  unfold rendered. destruct (Z.ltb_spec MAX_ERROR_BYTES (len (encode_str error))); [|lia].
  rewrite len_app. change (len trimmed) with 14. unfold cut, len, MAX_ERROR_BYTES. rewrite length_take. lia.
Qed.

Lemma from_utf8_is_Some bs : is_Some (from_utf8 bs) ↔ is_Some (chars bs).
Proof. unfold from_utf8. destruct (chars bs); split; intros [? ?]; done || eauto. Qed.

Lemma rendered_valid error :
  Forall code_point error → is_Some (from_utf8 (rendered error)) ↔ cut_clean error.
Proof.
  intros Hv%encode_str_valid. unfold cut_clean. rewrite from_utf8_is_Some. unfold rendered. set (bytes := encode_str error) in *.
  destruct (Z.ltb_spec MAX_ERROR_BYTES (len bytes)) as [Hlong|Hshort].
  - set (n := Z.to_nat MAX_ERROR_BYTES). replace (cut 0 MAX_ERROR_BYTES bytes) with (take n bytes)
      by (unfold cut, n; by rewrite Z.sub_0_r, drop_0).
    assert (is_Some (bytes !! n)) as [b Hb] by (apply lookup_lt_is_Some; unfold n, len, MAX_ERROR_BYTES in *; lia).
    assert (bytes = take n bytes ++ b :: drop (S n) bytes) as Eb by (symmetry; by apply take_drop_middle).
    assert (is_Some (chars (take n bytes ++ trimmed)) ↔ cont b = false) as Hiff.
    { split.
      - intros Hp%(chars_before (take n bytes) Byte.x0a); [|done]. destruct (cont b) eqn:Ec; [|done].
        rewrite Eb in Hv. apply (chars_rest _ _ Hv) in Hp. rewrite not_cont_first in Hp by done. by destruct Hp.
      - intros Hc. rewrite Eb in Hv. apply chars_before in Hv as [cs Hcs]; [|done].
        rewrite (chars_app _ trimmed _ (10 :: str_chars "... truncated") Hcs); [by eexists|by vm_compute]. }
    rewrite Hiff, Hb. split; [by intros H b' [= <-]|auto].
  - split; [|done]. intros _ b Hb%lookup_lt_Some. unfold len, MAX_ERROR_BYTES in *. lia.
Qed.

(** A frame at the front of a stream is read as its body says. *)
Lemma parse_body n b k :
  len b = n → n <= Protocol.MAX_FRAME_BYTES →
  Protocol.parse (to_le_bytes 4 n ++ b ++ k) =
  match Protocol.decode_body b with Ret m => Protocol.Frame m k | Throw e => Protocol.Bad e | Panic => Protocol.NeedMore end.
Proof.
  intros Hb Hn. pose proof (len_nonneg b). pose proof (len_nonneg k).
  pose proof (len_to_le_bytes 4 n) as L4. change (Z.of_nat 4) with 4 in L4.
  assert (from_le_unsigned (to_le_bytes 4 n) = n) as Hhead.
  { apply from_le_unsigned_to_le. unfold in_unsigned, Protocol.MAX_FRAME_BYTES in *. lia. }
  assert (length (to_le_bytes 4 n) = 4)%nat as N4 by (unfold len in L4; lia).
  unfold Protocol.parse, Protocol.HEADER_BYTES. rewrite !len_app, L4, (proj2 (Z.ltb_ge _ 4)) by lia.
  rewrite (take_app_length' _ _ 4), (drop_app_length' _ _ 4), Hhead, !(proj2 (Z.ltb_ge _ _)) by (done || lia).
  rewrite (take_app_length' b) by (unfold len in Hb; lia). destruct (Protocol.decode_body b); try done. f_equal.
  rewrite app_assoc. apply drop_app_length'. rewrite length_app. unfold len in *. lia.
Qed.

Lemma written_complete id (code : byte) tail n :
  in_signed 64 id → n = COMPLETE_BODY_BYTES + len tail → n <= Protocol.MAX_FRAME_BYTES →
  ∃ f, (head ← pack_complete n id code; Ok (head ++ tail)) = Ok f ∧ ∀ k,
    Protocol.parse (f ++ k) =
    match Protocol.decode_complete (to_le_bytes 8 id ++ code :: tail) with
    | Ret m => Protocol.Frame m k | Throw e => Protocol.Bad e | Panic => Protocol.NeedMore end.
Proof.
  intros Hid -> Hn. pose proof (len_nonneg tail). unfold pack_complete, COMPLETE_BODY_BYTES in *.
  rewrite decide_True by (split; [unfold in_unsigned, Protocol.MAX_FRAME_BYTES in *; lia|done]).
  eexists. split; [done|]. intros k. set (b := Protocol.KIND_COMPLETE :: to_le_bytes 8 id ++ code :: tail).
  replace (((to_le_bytes 4 (10 + len tail) ++ _) ++ tail) ++ k) with (to_le_bytes 4 (10 + len tail) ++ b ++ k)
    by (unfold b; rewrite <- !app_assoc; cbn [app]; by rewrite <- !app_assoc).
  rewrite parse_body; [done| |done]. unfold b. rewrite len_cons, len_app, len_cons, len_to_le_bytes. lia.
Qed.

Lemma written_packed kind packed :
  1 + len packed <= Protocol.MAX_FRAME_BYTES →
  ∃ f, (head ← pack_length (len (kind :: packed)); Ok (head ++ kind :: packed)) = Ok f ∧ ∀ k,
    Protocol.parse (f ++ k) =
    match Protocol.decode_body (kind :: packed) with
    | Ret m => Protocol.Frame m k | Throw e => Protocol.Bad e | Panic => Protocol.NeedMore end.
Proof.
  intros Hn. pose proof (len_nonneg packed). unfold pack_length. rewrite len_cons.
  rewrite decide_True by (unfold in_unsigned, Protocol.MAX_FRAME_BYTES in *; lia).
  eexists. split; [done|]. intros k. rewrite <- app_assoc. apply parse_body; [by rewrite len_cons|done].
Qed.

Lemma written_read s :
  readable s → ∃ f, written s = Ok f ∧ ∀ k, Protocol.parse (f ++ k) = Protocol.Frame (means s) k.
Proof.
  destruct s as [es|id name res|id res|id error retry]; simpl.
  - intros [Hes Hn]. destruct (written_packed Protocol.KIND_REGISTER _ Hn) as (f & Hf & Hp).
    exists f. split; [exact Hf|]. intros k. rewrite Hp. simpl. unfold Protocol.unpack. by rewrite (entries_read es Hes).
  - intros [Hr Hn]. destruct (written_packed Protocol.KIND_RECORD _ Hn) as (f & Hf & Hp).
    exists f. split; [exact Hf|]. intros k. rewrite Hp. simpl. unfold Protocol.unpack. by rewrite (step_read _ Hr).
  - intros [Hid Hn]. destruct (written_complete id Protocol.OUTCOME_SUCCESS res _ Hid eq_refl Hn) as (f & Hf & Hp).
    exists f. split; [exact Hf|]. intros k. rewrite Hp, Protocol.decode_complete_body by done. by rewrite decide_True.
  - intros (Hid & Hv & Hc). pose proof (rendered_size error) as Hsize. apply rendered_valid in Hc as [e He]; [|done].
    destruct (written_complete id (if retry then Protocol.OUTCOME_RETRY else Protocol.OUTCOME_TERMINAL) (rendered error) _ Hid eq_refl)
      as (f & Hf & Hp); [unfold COMPLETE_BODY_BYTES, MAX_ERROR_BYTES, Protocol.MAX_FRAME_BYTES in *; lia|].
    exists f. split; [exact Hf|]. intros k. rewrite Hp, Protocol.decode_complete_body, He by done.
    unfold from_utf8 in He. destruct (chars _); simplify_eq. by destruct retry.
Qed.

(** An error cut within a character is refused. *)
Lemma written_refused id error retry :
  in_signed 64 id → Forall code_point error → ¬ cut_clean error →
  ∃ f, written (Fails id error retry) = Ok f ∧
    ∀ k, Protocol.parse (f ++ k) = Protocol.Bad (Protocol.NotUtf8 "error message").
Proof.
  intros Hid Hv Hc. pose proof (rendered_size error) as Hsize.
  destruct (written_complete id (if retry then Protocol.OUTCOME_RETRY else Protocol.OUTCOME_TERMINAL) (rendered error) _ Hid eq_refl)
    as (f & Hf & Hp); [unfold COMPLETE_BODY_BYTES, MAX_ERROR_BYTES, Protocol.MAX_FRAME_BYTES in *; lia|].
  exists f. split; [exact Hf|]. intros k. rewrite Hp, Protocol.decode_complete_body by done.
  destruct (from_utf8 (rendered error)) eqn:E; [|by destruct retry].
  destruct Hc. apply rendered_valid; [done|]. by rewrite E.
Qed.

Lemma stream_written ss frames :
  Forall readable ss → Forall2 (λ s f, written s = Ok f) ss frames →
  Protocol.stream (concat frames) = (means <$> ss, Ret tt, []).
Proof.
  intros Hs Hf. induction Hf as [|s f ss fs Hf _ IH]; [done|]. apply Forall_cons in Hs as [Hs Hss].
  destruct (written_read s Hs) as (f' & Hf' & Hp). rewrite Hf in Hf'. injection Hf' as <-.
  cbn [concat]. by rewrite Protocol.stream_eq, Hp, IH.
Qed.

(** C10. The two implementations of the protocol agree. Whatever well-formed jobs,
    prior steps and acknowledgements the supervisor batches, however the socket cuts
    the bytes, the child's [Decoder] returns exactly the messages [encode] took, in
    order, and keeps no byte. Whatever a child registers, records and reports within
    the limits ([readable]: frames of at most [MAX_FRAME_BYTES], ids of 64 bits, valid
    text, an error whose cut does not fall inside a character), it can write, and
    the supervisor's [Decoder] returns exactly that. *)
Theorem both_sides_agree ms down ss up :
  Forall for_child ms → Forall Protocol.wf_message ms → concat down = Protocol.encode_all ms [] →
  Forall readable ss →
  reads [] down = Ok (List.filter Protocol.accepted ms, []) ∧
  ∃ frames, Forall2 (λ s f, written s = Ok f) ss frames ∧
    (concat up = concat frames → ∃ dec, Protocol.reads Protocol.new up = (means <$> ss, Ret tt, dec) ∧ Protocol.pending dec = []).
Proof.
  intros Hc Hwf Hd Hs. split.
  - by apply reads_batch.
  - assert (∃ frames, Forall2 (λ s f, written s = Ok f) ss frames) as [frames Hf].
    { clear -Hs Interop0. induction Hs as [|s ss Hs _ [fs IH]]; [by exists []|].
      destruct (written_read s Hs) as (f & ? & _). exists (f :: fs). by constructor. }
    exists frames. split; [done|]. intros Hup.
    destruct (Protocol.reads_stream Protocol.new up (means <$> ss) (Ret tt) []) as (dec & Hr & _ & Hp);
      [apply Protocol.waiting_new|rewrite Hup; by apply stream_written|].
    exists dec. split; [done|]. by apply Hp.
Qed.

(** A payload within [payload_limit] is one the supervisor can dispatch, as long
    as the task's name fits its two-byte length, which nothing checks. *)
Lemma payload_limit_exact id a ma task payload :
  Protocol.accepted (Protocol.Dispatch id a ma task payload) =
  (len (as_bytes task) <=? 65535) && (len payload <=? payload_limit task).
Proof.
  unfold Protocol.accepted. rewrite Protocol.encode_dispatch_exact. cbv zeta.
  unfold payload_limit, DISPATCH_HEAD_BYTES. set (n := len (as_bytes task)).
  destruct (Z.ltb_spec 65535 n); [by rewrite (proj2 (Z.leb_gt n 65535))|].
  rewrite (proj2 (Z.leb_le n 65535)) by done.
  destruct (Z.ltb_spec Protocol.MAX_FRAME_BYTES (15 + n + len payload)); simpl; symmetry; [apply Z.leb_gt|apply Z.leb_le]; lia.
Qed.

End Agreement.

(** ** An instance *)

Module NumberedMsgspec.
Import Protocol.NumberedCodec.

#[global] Instance numbered_msgspec : Msgspec := {|
  encode_entries es := number_bytes (countable.encode es);
  encode_step r := number_bytes (countable.encode r);
  decode_steps bs :=
    match (countable.decode (bytes_number bs) : option (Z * list Protocol.WireStep)) with
    | Some (id, steps) => Some (id, map (λ s, (Protocol.step_name s, Protocol.step_result s)) steps)
    | None => None
    end;
  decode_stored bs := countable.decode (bytes_number bs)
|}.

#[global] Instance numbered_interop : Interop numbered numbered_msgspec.
Proof.
  split.
  - intros es Hes. simpl. unfold readback. by rewrite bytes_number_bytes, decode_encode, decide_True.
  - intros r Hr. simpl. unfold readback. by rewrite bytes_number_bytes, decode_encode, decide_True.
  - intros id steps bs [= <-]. simpl. rewrite bytes_number_bytes, decode_encode.
    do 2 f_equal. induction steps as [|[n r] steps IH]; [done|]. simpl. by f_equal.
  - intros id name bs [= <-]. simpl. by rewrite bytes_number_bytes, decode_encode.
Qed.

End NumberedMsgspec.

(** ** Applied to a conversation *)

Definition sent : list Protocol.Message :=
  [Protocol.Steps 7 [("charge", [Byte.x01])]; Protocol.Dispatch 7 2 20 "billing.charge" [Byte.x93];
   Protocol.Stored 7 "email"].
(** A failure whose traceback quotes a message beyond ASCII. *)
Definition answered : list said :=
  [Registers []; Records 7 "email" [Byte.x02]; Succeeds 7 [Byte.x92]; Fails 8 [86; 233; 8364; 128512; 0xD800] true].

Lemma both_sides_agree_witness :
  let wire := Protocol.encode_all (R := Protocol.NumberedCodec.numbered) sent [] in
  reads (M := NumberedMsgspec.numbered_msgspec) [] (Protocol.thirds (length wire) wire) = Ok (sent, []) ∧
  ∃ frames, Forall2 (λ s f, written (M := NumberedMsgspec.numbered_msgspec) s = Ok f) answered frames.
Proof.
  intros wire.
  destruct (both_sides_agree (R := Protocol.NumberedCodec.numbered) (M := NumberedMsgspec.numbered_msgspec) sent
    (Protocol.thirds (length wire) wire) answered []) as (H1 & frames & H2 & _).
  - repeat constructor.
  - apply (bool_decide_unpack _). vm_compute. exact I.
  - vm_compute. reflexivity.
  - unfold answered. repeat apply Forall_cons_2; [..|apply Forall_nil_2].
    + split; [constructor|vm_compute; discriminate].
    + split; [apply (bool_decide_unpack _); vm_compute; exact I|vm_compute; discriminate].
    + split; [apply (bool_decide_unpack _); vm_compute; exact I|vm_compute; discriminate].
    + split; [apply (bool_decide_unpack _); vm_compute; exact I|]. split.
      * repeat constructor; vm_compute; discriminate || reflexivity.
      * intros b Hb. vm_compute in Hb. discriminate.
  - split; [|by exists frames]. rewrite H1. vm_compute. reflexivity.
Defined.

End ChildProtocol.
