(* ===== verification/PgTable.v ===== *)
(** * The Postgres schema and its statements' building blocks

    The tables of [migrations/*.sql] as the queries of [crates/gylo-pg/src/lib.rs]
    see them, the constraints Postgres enforces on them, and the pieces the
    queries are made of: an [UPDATE .. WHERE], an [ORDER BY priority,
    scheduled_at, id], a commit that checks constraints.

    One statement is one atomic step on the database. What SQL leaves open is a
    parameter, the class [Planner]: the order in which rows of an unordered query
    come, and which of several matching rows an [UPDATE .. FROM] joins with.
    [now()] and the set of rows other transactions have locked, which
    [SKIP LOCKED] passes over, are arguments of each statement.

    Instants and intervals are whole microseconds, Postgres's resolution; a
    column that admits ['infinity'] has type [timestamp]. *)

From S2P Require Import Prelude.

Module Table.

(** ** Columns *)

Inductive timestamp := At (us : Z) | Infinity.

Inductive job_state := available | running | completed | discarded | cancelled.

#[global] Instance timestamp_eq_dec : EqDecision timestamp.
Proof. solve_decision. Defined.
#[global] Instance job_state_eq_dec : EqDecision job_state.
Proof. solve_decision. Defined.

(** [ts <= now()]. *)
Definition due (now : Z) (ts : timestamp) : bool :=
  match ts with At us => us <=? now | Infinity => false end.

Definition ts_leb (a b : timestamp) : bool :=
  match a, b with
  | _, Infinity => true
  | Infinity, At _ => false
  | At x, At y => x <=? y
  end.

(** One element of the [errors] array. *)
Record error_entry := { err_attempt : Z; err_at : Z; err_text : option string }.

(** A worker's identity, a 128-bit UUID. *)
Definition uuid : Type := Z.

(** The columns of [gylo_job] that an insert sets and no statement updates. *)
Record job_spec := {
  queue : string;
  task : string;
  payload : list byte;
  priority : Z;
  max_attempts : Z;
  created_at : Z;
  unique_key : option (list byte);
  concurrency_key : option string;
  max_concurrency : option Z;
  durable : bool;
  workflow_id : option Z
}.

(** A row of [gylo_job]; the [id] column is the key of the table. *)
Record job_row := {
  spec : job_spec;
  state : job_state;
  attempt : Z;
  errors : list error_entry;
  scheduled_at : timestamp;
  started_at : option Z;
  finalized_at : option Z;
  locked_by : option uuid;
  lease_expires_at : option Z;
  result : option (list byte);
  pending_deps : Z
}.

Record step_row := { step_result : list byte; step_created_at : Z }.

Record cron_row := {
  cron_queue : string;
  cron_task : string;
  cron_payload : list byte;
  cron_expression : string;
  cron_timezone : string;
  cron_paused : bool;
  cron_next_run_at : Z;
  cron_last_run_at : option Z;
  cron_updated_at : Z
}.

(** The database: [gylo_job] and its identity sequence, [gylo_step] by
    [(job_id, name)], [gylo_edge] by [(parent, child)] with its workflow,
    [gylo_workflow] and its sequence, [gylo_cron] by [name]. *)
Record db := {
  jobs : gmap Z job_row;
  next_job : Z;
  steps : gmap (Z * string) step_row;
  edges : gmap (Z * Z) Z;
  workflows : gset Z;
  next_workflow : Z;
  crons : gmap string cron_row
}.

Definition empty : db := {|
  jobs := ∅; next_job := 1; steps := ∅; edges := ∅; workflows := ∅; next_workflow := 1; crons := ∅
|}.

(** ** Column updates *)

Definition set_state v r := {|
  spec := spec r; state := v; attempt := attempt r; errors := errors r;
  scheduled_at := scheduled_at r; started_at := started_at r; finalized_at := finalized_at r;
  locked_by := locked_by r; lease_expires_at := lease_expires_at r; result := result r;
  pending_deps := pending_deps r |}.
Definition set_attempt v r := {|
  spec := spec r; state := state r; attempt := v; errors := errors r;
  scheduled_at := scheduled_at r; started_at := started_at r; finalized_at := finalized_at r;
  locked_by := locked_by r; lease_expires_at := lease_expires_at r; result := result r;
  pending_deps := pending_deps r |}.
Definition set_errors v r := {|
  spec := spec r; state := state r; attempt := attempt r; errors := v;
  scheduled_at := scheduled_at r; started_at := started_at r; finalized_at := finalized_at r;
  locked_by := locked_by r; lease_expires_at := lease_expires_at r; result := result r;
  pending_deps := pending_deps r |}.
Definition set_scheduled_at v r := {|
  spec := spec r; state := state r; attempt := attempt r; errors := errors r;
  scheduled_at := v; started_at := started_at r; finalized_at := finalized_at r;
  locked_by := locked_by r; lease_expires_at := lease_expires_at r; result := result r;
  pending_deps := pending_deps r |}.
Definition set_started_at v r := {|
  spec := spec r; state := state r; attempt := attempt r; errors := errors r;
  scheduled_at := scheduled_at r; started_at := v; finalized_at := finalized_at r;
  locked_by := locked_by r; lease_expires_at := lease_expires_at r; result := result r;
  pending_deps := pending_deps r |}.
Definition set_finalized_at v r := {|
  spec := spec r; state := state r; attempt := attempt r; errors := errors r;
  scheduled_at := scheduled_at r; started_at := started_at r; finalized_at := v;
  locked_by := locked_by r; lease_expires_at := lease_expires_at r; result := result r;
  pending_deps := pending_deps r |}.
Definition set_locked_by v r := {|
  spec := spec r; state := state r; attempt := attempt r; errors := errors r;
  scheduled_at := scheduled_at r; started_at := started_at r; finalized_at := finalized_at r;
  locked_by := v; lease_expires_at := lease_expires_at r; result := result r;
  pending_deps := pending_deps r |}.
Definition set_lease_expires_at v r := {|
  spec := spec r; state := state r; attempt := attempt r; errors := errors r;
  scheduled_at := scheduled_at r; started_at := started_at r; finalized_at := finalized_at r;
  locked_by := locked_by r; lease_expires_at := v; result := result r;
  pending_deps := pending_deps r |}.
Definition set_result v r := {|
  spec := spec r; state := state r; attempt := attempt r; errors := errors r;
  scheduled_at := scheduled_at r; started_at := started_at r; finalized_at := finalized_at r;
  locked_by := locked_by r; lease_expires_at := lease_expires_at r; result := v;
  pending_deps := pending_deps r |}.
Definition set_pending_deps v r := {|
  spec := spec r; state := state r; attempt := attempt r; errors := errors r;
  scheduled_at := scheduled_at r; started_at := started_at r; finalized_at := finalized_at r;
  locked_by := locked_by r; lease_expires_at := lease_expires_at r; result := result r;
  pending_deps := v |}.

(** [errors || jsonb_build_object('attempt', attempt, 'at', now(), 'error', text)]. *)
Definition append_error (now : Z) (text : option string) (r : job_row) : job_row :=
  set_errors (errors r ++ [{| err_attempt := attempt r; err_at := now; err_text := text |}]) r.

Definition set_jobs v d := {|
  jobs := v; next_job := next_job d; steps := steps d; edges := edges d;
  workflows := workflows d; next_workflow := next_workflow d; crons := crons d |}.
Definition set_steps v d := {|
  jobs := jobs d; next_job := next_job d; steps := v; edges := edges d;
  workflows := workflows d; next_workflow := next_workflow d; crons := crons d |}.
Definition set_crons v d := {|
  jobs := jobs d; next_job := next_job d; steps := steps d; edges := edges d;
  workflows := workflows d; next_workflow := next_workflow d; crons := v |}.

(** ** Constraints *)

(** [gylo_job_attempt_bounds], [gylo_job_lease_paired],
    [gylo_job_concurrency_paired], [gylo_job_concurrency_positive],
    [gylo_job_pending_deps_positive]. *)
Definition row_checks (r : job_row) : Prop :=
  attempt r <= max_attempts (spec r) ∧
  (locked_by r = None ↔ lease_expires_at r = None) ∧
  (concurrency_key (spec r) = None ↔ max_concurrency (spec r) = None) ∧
  match max_concurrency (spec r) with None => True | Some n => 0 < n end ∧
  0 <= pending_deps r.

#[global] Instance row_checks_dec r : Decision (row_checks r).
Proof.
  unfold row_checks. repeat apply and_dec; try apply _.
  destruct (max_concurrency _); apply _.
Defined.

Definition live (r : job_row) : Prop := state r = available ∨ state r = running.
#[global] Instance live_dec r : Decision (live r).
Proof. unfold live. apply _. Defined.

(** Two rows the partial unique index [gylo_job_unique] cannot hold together. *)
Definition clash (r r' : job_row) : Prop :=
  live r ∧ live r' ∧ is_Some (unique_key (spec r)) ∧ unique_key (spec r) = unique_key (spec r').
#[global] Instance clash_dec r r' : Decision (clash r r').
Proof. unfold clash. apply _. Defined.

Definition unique_index (t : gmap Z job_row) : Prop :=
  map_Forall (λ i r, map_Forall (λ j r', ¬ (i ≠ j ∧ clash r r')) t) t.
#[global] Instance unique_index_dec t : Decision (unique_index t).
Proof. unfold unique_index. apply _. Defined.

Inductive db_error :=
| CheckViolation
| UniqueViolation
| ForeignKeyViolation
| NumericOverflow
| NegativeLimit
| ConnectionLost.

(** A statement that leaves a row violating a constraint is rolled back. *)
Definition commit (d : db) : Prelude.result db_error db :=
  if decide (map_Forall (λ _, row_checks) (jobs d)) then
    if decide (unique_index (jobs d)) then Ok d else Err UniqueViolation
  else Err CheckViolation.

(** What becomes of a statement sent over a connection: it is answered, it never
    reaches the server, or it runs and the answer is lost. *)
Inductive delivery := Answered | Undelivered | Unanswered.

(** A statement as its caller sees it, and the database it leaves behind; one
    that fails changes nothing. *)
Definition deliver {A} (k : delivery) (statement : db → Prelude.result db_error (A * db)) (d : db)
  : Prelude.result db_error A * db :=
  match k, statement d with
  | Undelivered, _ => (Err ConnectionLost, d)
  | Answered, Ok (a, d') => (Ok a, d')
  | Answered, Err e => (Err e, d)
  | Unanswered, Ok (_, d') => (Err ConnectionLost, d')
  | Unanswered, Err _ => (Err ConnectionLost, d)
  end.

(** ** What a query leaves open *)

Class Planner := {
  arrange : list Z → list Z;
  arrange_perm l : arrange l ≡ₚ l;
  pick : ∀ {A : Type}, list A → option A;
  pick_in {A} (l : list A) x : pick l = Some x → x ∈ l;
  pick_some {A} (l : list A) : l ≠ [] → is_Some (pick l)
}.

(** The planner that keeps the order it finds and joins with the first match. *)
Definition head_pick {A} (l : list A) : option A := head l.

Lemma head_pick_in {A} (l : list A) x : head_pick l = Some x → x ∈ l.
Proof. destruct l; simpl; intros ?; simplify_eq. by left. Qed.

Lemma head_pick_some {A} (l : list A) : l ≠ [] → is_Some (head_pick l).
Proof. destruct l; [done|]. eauto. Qed.

Definition plain_planner : Planner := {|
  arrange := id; arrange_perm := λ l, reflexivity l;
  pick := @head_pick; pick_in := @head_pick_in; pick_some := @head_pick_some
|}.

(** ** Queries *)

(** [UPDATE gylo_job SET .. WHERE ..]: [f id r] is the new row when the row
    matches, [None] when it does not. *)
Definition update (f : Z → job_row → option job_row) (d : db) : db :=
  set_jobs (map_imap (λ i r, Some (default r (f i r))) (jobs d)) d.

(** The ids a predicate selects, in no particular order. *)
Definition select (p : Z → job_row → bool) (d : db) : list Z :=
  (List.filter (λ ir : Z * job_row, p ir.1 ir.2) (map_to_list (jobs d))).*1.

Definition count (p : Z → job_row → bool) (d : db) : Z := len (select p d).

(** [ORDER BY priority, scheduled_at, id], the order [FETCH_UNKEYED] and
    [FETCH_KEYED] lease in. *)
Definition lease_order (a b : Z * job_row) : Prop :=
  if priority (spec a.2) <? priority (spec b.2) then True
  else if priority (spec b.2) <? priority (spec a.2) then False
  else if negb (ts_leb (scheduled_at b.2) (scheduled_at a.2)) then True
  else if negb (ts_leb (scheduled_at a.2) (scheduled_at b.2)) then False
  else a.1 <= b.1.

#[global] Instance lease_order_dec : RelDecision lease_order.
Proof. intros a b. unfold lease_order. repeat case_match; apply _. Defined.

Definition ordered (p : Z → job_row → bool) (d : db) : list (Z * job_row) :=
  merge_sort lease_order (List.filter (λ ir : Z * job_row, p ir.1 ir.2) (map_to_list (jobs d))).

(** [LIMIT n]. *)
Definition limit {A} (n : Z) (l : list A) : list A := take (Z.to_nat n) l.

(** ** Facts *)

Lemma lookup_update f d i : jobs (update f d) !! i = (λ r, default r (f i r)) <$> jobs d !! i.
Proof. unfold update; simpl. rewrite map_lookup_imap. by destruct (jobs d !! i). Qed.

Lemma lookup_update_Some f d i r' :
  jobs (update f d) !! i = Some r' ↔ ∃ r, jobs d !! i = Some r ∧ r' = default r (f i r).
Proof. rewrite lookup_update, fmap_Some. done. Qed.

Lemma dom_update f d : dom (jobs (update f d)) = dom (jobs d).
Proof.
  apply set_eq. intros i. rewrite !elem_of_dom, lookup_update. by rewrite fmap_is_Some.
Qed.

Lemma elem_of_select p d i : i ∈ select p d ↔ ∃ r, jobs d !! i = Some r ∧ p i r = true.
Proof.
  unfold select. rewrite list_elem_of_fmap. split.
  - intros ([j r] & -> & H). rewrite list_elem_of_In, filter_In, <- list_elem_of_In in H.
    destruct H as [H%elem_of_map_to_list Hp]. eauto.
  - intros (r & Hr & Hp). exists (i, r). split; [done|].
    rewrite list_elem_of_In, filter_In, <- list_elem_of_In. by rewrite elem_of_map_to_list.
Qed.

Lemma NoDup_select p d : NoDup (select p d).
Proof. apply NoDup_filter_ids, NoDup_fst_map_to_list. Qed.

Lemma ordered_perm p d :
  ordered p d ≡ₚ List.filter (λ ir : Z * job_row, p ir.1 ir.2) (map_to_list (jobs d)).
Proof. apply merge_sort_Permutation. Qed.

Lemma elem_of_ordered p d i r :
  (i, r) ∈ ordered p d ↔ jobs d !! i = Some r ∧ p i r = true.
Proof.
  rewrite ordered_perm, list_elem_of_In, filter_In, <- list_elem_of_In.
  by rewrite elem_of_map_to_list.
Qed.

Lemma NoDup_ordered p d : NoDup (ordered p d).*1.
Proof. rewrite ordered_perm. apply NoDup_filter_ids, NoDup_fst_map_to_list. Qed.

#[global] Instance lease_order_total : Total lease_order.
Proof.
  intros [i r] [j s]. unfold lease_order; simpl.
  destruct (Z.ltb_spec (priority (spec r)) (priority (spec s)));
    destruct (Z.ltb_spec (priority (spec s)) (priority (spec r))); auto; try lia.
  destruct (scheduled_at r) as [x|], (scheduled_at s) as [y|]; simpl; auto; try lia.
  destruct (Z.leb_spec x y); destruct (Z.leb_spec y x); simpl; auto; lia.
Qed.

#[global] Instance lease_order_trans : Transitive lease_order.
Proof.
  intros [i r] [j s] [k t]. unfold lease_order; simpl.
  destruct (Z.ltb_spec (priority (spec r)) (priority (spec s)));
    destruct (Z.ltb_spec (priority (spec s)) (priority (spec r)));
    destruct (Z.ltb_spec (priority (spec s)) (priority (spec t)));
    destruct (Z.ltb_spec (priority (spec t)) (priority (spec s)));
    destruct (Z.ltb_spec (priority (spec r)) (priority (spec t)));
    destruct (Z.ltb_spec (priority (spec t)) (priority (spec r))); try lia; try done.
  destruct (scheduled_at r) as [x|], (scheduled_at s) as [y|], (scheduled_at t) as [z|];
    simpl; try done; try lia.
  destruct (Z.leb_spec x y); destruct (Z.leb_spec y x); destruct (Z.leb_spec y z);
    destruct (Z.leb_spec z y); destruct (Z.leb_spec x z); destruct (Z.leb_spec z x);
    simpl; try done; lia.
Qed.

Lemma ordered_sorted p d : StronglySorted lease_order (ordered p d).
Proof. apply StronglySorted_merge_sort; apply _. Qed.

Lemma commit_Ok d d' :
  commit d = Ok d' ↔ d' = d ∧ map_Forall (λ _, row_checks) (jobs d) ∧ unique_index (jobs d).
Proof. unfold commit. split; [intros ?; by cases|]. intros (-> & H1 & H2). by rewrite !decide_True. Qed.

Lemma commit_ok d :
  map_Forall (λ _, row_checks) (jobs d) → unique_index (jobs d) → commit d = Ok d.
Proof. intros. by apply commit_Ok. Qed.

(** An update that revives no row keeps the unique index. *)
Lemma unique_index_update f d :
  (∀ i r, jobs d !! i = Some r → live (default r (f i r)) → live r) →
  (∀ i r, jobs d !! i = Some r → spec (default r (f i r)) = spec r) →
  unique_index (jobs d) → unique_index (jobs (update f d)).
Proof.
  intros Hlive Hspec Hu i r' Hr j s' Hs (Hij & H1 & H2 & H3 & H4).
  apply lookup_update_Some in Hr as (r & Hr & ->), Hs as (s & Hs & ->).
  apply (Hu i r Hr j s Hs). rewrite !Hspec in * by done.
  repeat split; eauto.
Qed.

(** Checks a decidable property of every row of a concrete table. *)
Lemma forall_rows (p : Z → job_row → bool) d :
  forallb (λ ir : Z * job_row, p ir.1 ir.2) (map_to_list (jobs d)) = true →
  ∀ i r, jobs d !! i = Some r → p i r = true.
Proof.
  rewrite forallb_forall. intros H i r Hr. apply (H (i, r)).
  by apply list_elem_of_In, elem_of_map_to_list.
Qed.

End Table.
