(* ===== verification/PgJobs.v ===== *)
(** * The life of a job in Postgres

    The statements of [crates/gylo-pg/src/lib.rs] that move a job through its
    states, each as a function of the database, and the Rust functions around
    them: enqueue, the two-pass fetch, complete, retry, discard, renew, abandon,
    reclaim, cancel, and the operator's retry and purge of dead letters.

    A statement takes [now], the value of [now()] in its transaction. It returns
    the new database, or the error that rolled it back. *)

From S2P Require Import Prelude.
From S2P Require Import PgTable.
From S2P Require Import Core.
Import Table.

Module Jobs.
Export Core.

(** ** Data *)

(** [gylo_pg::NewJob]; [delay] in microseconds. *)
Record NewJob := {
  nj_queue : string;
  nj_task : string;
  nj_payload : list byte;
  nj_priority : Z;
  nj_max_attempts : Z;
  nj_delay : Z;
  nj_concurrency : option (string * Z);
  nj_durable : bool
}.

(** [NewJob::new] and its builder methods. *)
Definition NewJob_new (task : string) (payload : list byte) : NewJob := {|
  nj_queue := "default"; nj_task := task; nj_payload := payload; nj_priority := 0;
  nj_max_attempts := 20; nj_delay := 0; nj_concurrency := None; nj_durable := false |}.

Definition on_queue (q : string) (j : NewJob) : NewJob := {|
  nj_queue := q; nj_task := nj_task j; nj_payload := nj_payload j; nj_priority := nj_priority j;
  nj_max_attempts := nj_max_attempts j; nj_delay := nj_delay j;
  nj_concurrency := nj_concurrency j; nj_durable := nj_durable j |}.

Definition delayed_by (delay : Z) (j : NewJob) : NewJob := {|
  nj_queue := nj_queue j; nj_task := nj_task j; nj_payload := nj_payload j;
  nj_priority := nj_priority j; nj_max_attempts := nj_max_attempts j; nj_delay := delay;
  nj_concurrency := nj_concurrency j; nj_durable := nj_durable j |}.

Definition with_priority (p : Z) (j : NewJob) : NewJob := {|
  nj_queue := nj_queue j; nj_task := nj_task j; nj_payload := nj_payload j; nj_priority := p;
  nj_max_attempts := nj_max_attempts j; nj_delay := nj_delay j;
  nj_concurrency := nj_concurrency j; nj_durable := nj_durable j |}.

Definition limited_to (key : string) (at_once : Z) (j : NewJob) : NewJob := {|
  nj_queue := nj_queue j; nj_task := nj_task j; nj_payload := nj_payload j;
  nj_priority := nj_priority j; nj_max_attempts := nj_max_attempts j; nj_delay := nj_delay j;
  nj_concurrency := Some (key, at_once); nj_durable := nj_durable j |}.

(** ** Enqueue *)

(** The row [ENQUEUE] inserts: what it does not list takes the column default. *)
Definition new_row (now : Z) (j : NewJob) : job_row := {|
  spec := {|
    queue := nj_queue j; task := nj_task j; payload := nj_payload j; priority := nj_priority j;
    max_attempts := nj_max_attempts j; created_at := now; unique_key := None;
    concurrency_key := fst <$> nj_concurrency j; max_concurrency := snd <$> nj_concurrency j;
    durable := nj_durable j; workflow_id := None |};
  state := available; attempt := 0; errors := []; scheduled_at := At (now + nj_delay j);
  started_at := None; finalized_at := None; locked_by := None; lease_expires_at := None;
  result := None; pending_deps := 0 |}.

(** [INSERT INTO gylo_job]: the identity column draws the next id. *)
Definition insert_job (r : job_row) (d : db) : db := {|
  jobs := <[next_job d := r]> (jobs d); next_job := next_job d + 1; steps := steps d;
  edges := edges d; workflows := workflows d; next_workflow := next_workflow d;
  crons := crons d |}.

Definition enqueue (now : Z) (j : NewJob) (d : db) : Prelude.result db_error (Z * db) :=
  d' ← commit (insert_job (new_row now j) d); Ok (next_job d, d').

(** The queues [gylo_notify_available] announces for one inserted row. *)
Definition notify_on_insert (now : Z) (r : job_row) : list string :=
  if due now (scheduled_at r) then [queue (spec r)] else [].

(** ** Fetch *)

Section Planned.
Context {Pl : Planner}.

(** [state = 'available' AND queue = ANY($1) AND scheduled_at <= now()]. *)
Definition runnable (now : Z) (queues : list string) (r : job_row) : bool :=
  bool_decide (state r = available) && bool_decide (queue (spec r) ∈ queues) &&
  due now (scheduled_at r).

Definition keyed (r : job_row) : bool := bool_decide (is_Some (concurrency_key (spec r))).

(** The [SET] clause both fetches share. *)
Definition lease_row (now : Z) (worker : uuid) (lease : Z) (r : job_row) : job_row :=
  r |> set_state running
    |> set_locked_by (Some worker)
    |> set_lease_expires_at (Some (now + lease))
    |> set_started_at (Some now)
    |> set_attempt (attempt r + 1).

Definition job_from (i : Z) (r : job_row) : Job := {|
  job_id := i; job_task := task (spec r); job_payload := payload (spec r);
  job_attempt := attempt r; job_max_attempts := max_attempts (spec r);
  job_durable := durable (spec r) |}.

(** [UPDATE .. FROM picked .. RETURNING ..]: leases the picked rows and returns them. *)
Definition lease_rows (now : Z) (worker : uuid) (lease : Z) (ids : list Z) (d : db)
  : Prelude.result db_error (list Job * db) :=
  d' ← commit (update (λ i r, if decide (i ∈ ids) then Some (lease_row now worker lease r)
                              else None) d);
  Ok (omap (λ i, job_from i <$> jobs d' !! i) (arrange ids), d').

(** The [locked] CTE of [FETCH_UNKEYED]. *)
Definition unkeyed_candidates (now : Z) (queues : list string) (skip : gset Z) (d : db)
  : list (Z * job_row) :=
  ordered (λ i r, runnable now queues r && negb (keyed r) && negb (bool_decide (i ∈ skip))) d.

Definition KEYED_WAITING (now : Z) (queues : list string) (d : db) : bool :=
  bool_decide (select (λ _ r, runnable now queues r && keyed r) d ≠ []).

(** [FETCH_UNKEYED]: the leased jobs, and whether keyed work waits, as each
    returned row carries it (the statement reads its own snapshot). *)
Definition FETCH_UNKEYED (now : Z) (queues : list string) (n : Z) (worker : uuid) (lease : Z)
    (skip : gset Z) (d : db) : Prelude.result db_error (list Job * bool * db) :=
  if n <? 0 then Err NegativeLimit else
  '(leased, d') ← lease_rows now worker lease
     (limit n (unkeyed_candidates now queues skip d)).*1 d;
  Ok (leased, KEYED_WAITING now queues d, d').

(** The [active] CTE: running jobs of a key, over every queue. *)
Definition running_with (k : string) (d : db) : Z :=
  count (λ _ r, bool_decide (state r = running) && bool_decide (concurrency_key (spec r) = Some k)) d.

(** [COALESCE(a.running, 0)]. *)
Definition already (r : job_row) (d : db) : Z :=
  match concurrency_key (spec r) with Some k => running_with k d | None => 0 end.

(** [x < j.max_concurrency] and [x <= max_concurrency], false on NULL. *)
Definition below_limit (x : Z) (r : job_row) : bool :=
  match max_concurrency (spec r) with Some m => x <? m | None => false end.
Definition within_limit (x : Z) (r : job_row) : bool :=
  match max_concurrency (spec r) with Some m => x <=? m | None => false end.

(** The [locked] CTE of [FETCH_KEYED]. *)
Definition keyed_candidates (now : Z) (queues : list string) (n : Z) (skip : gset Z) (d : db)
  : list (Z * job_row) :=
  limit n (ordered (λ i r, runnable now queues r && keyed r && below_limit (already r d) r
                           && negb (bool_decide (i ∈ skip))) d).

(** The [admitted] CTE: [row_number()] within the key, in lease order, against
    what is already running. [seen] holds the keys of the rows ranked before. *)
Fixpoint admitted (seen : list (option string)) (l : list (Z * job_row)) (d : db)
  : list (Z * job_row) :=
  match l with
  | [] => []
  | (i, r) :: l' =>
    let n := len (List.filter (λ k, bool_decide (k = concurrency_key (spec r))) seen) + 1 in
    (if within_limit (already r d + n) r then [(i, r)] else []) ++
    admitted (concurrency_key (spec r) :: seen) l' d
  end.

Definition FETCH_KEYED (now : Z) (queues : list string) (n : Z) (worker : uuid) (lease : Z)
    (skip : gset Z) (d : db) : Prelude.result db_error (list Job * db) :=
  if n <? 0 then Err NegativeLimit else
  lease_rows now worker lease (admitted [] (keyed_candidates now queues n skip d) d).*1 d.

(** What surrounds one statement of a longer exchange: what other sessions
    committed since the previous one, [now()] in its transaction, the rows other
    transactions hold locked, and what the connection does. *)
Record turn := { others : db → db; at_time : Z; locked_rows : gset Z; link : delivery }.

(** [fetch]: one statement for the jobs without a key; whether keyed work waits,
    which the returned rows carry or a second statement asks; and, when it does,
    the keyed pass in the transaction that holds the admission lock. What the
    first pass leased stays leased when a later one fails. *)
Definition fetch (t1 t2 t3 : turn) (queues : list string) (n : Z) (lease : Z) (worker : uuid)
    (d : db) : Prelude.result db_error (list Job) * db :=
  match deliver (link t1) (FETCH_UNKEYED (at_time t1) queues n worker lease (locked_rows t1)) (others t1 d) with
  | (Err e, d1) => (Err e, d1)
  | (Ok (rows, carried), d1) =>
    let '(keyed_waiting, d2) :=
      if decide (rows = [])
      then deliver (link t2) (λ d, Ok (KEYED_WAITING (at_time t2) queues d, d)) (others t2 d1)
      else (Ok carried, d1) in
    match keyed_waiting with
    | Err e => (Err e, d2)
    | Ok false => (Ok rows, d2)
    | Ok true =>
      let spare := Z.max (n - len rows) 1 in
      match deliver (link t3) (FETCH_KEYED (at_time t3) queues spare worker lease (locked_rows t3)) (others t3 d2) with
      | (Err e, d3) => (Err e, d3)
      | (Ok keyed, d3) => (Ok (rows ++ keyed), d3)
      end
    end
  end.

(** ** Complete, retry, discard *)

(** [locked_by = $worker AND state = 'running']. *)
Definition held (worker : uuid) (r : job_row) : bool :=
  bool_decide (locked_by r = Some worker) && bool_decide (state r = running).

(** [FROM unnest(ids, values) AS v WHERE j.id = v.id]: the value a row joins
    with, one of them when its id occurs more than once. *)
Definition joined {A} (v : list (Z * A)) (i : Z) : option A :=
  pick (List.filter (λ p, bool_decide (p.1 = i)) v).*2.

(** [unnest(ids, values)], which pads the shorter array with NULL; a NULL id
    matches no row. *)
Definition unnest {A} (ids : list Z) (vs : list (option A)) : list (Z * option A) :=
  zip ids (vs ++ replicate (length ids) None).

Definition unlock (r : job_row) : job_row :=
  r |> set_locked_by None |> set_lease_expires_at None.

Definition complete_row (now : Z) (res : option (list byte)) (r : job_row) : job_row :=
  unlock r |> set_state completed |> set_finalized_at (Some now) |> set_result res.

(** The [done] CTE of [COMPLETE]. *)
Definition completing (v : list (Z * option (list byte))) (worker : uuid) (d : db) : list Z :=
  select (λ i r, held worker r && bool_decide (is_Some (joined v i))) d.

(** The [counted] CTE: how many edges lead to [child] from the finished parents. *)
Definition edges_from (parents : list Z) (child : Z) (d : db) : Z :=
  Z.of_nat (size (filter (λ e : Z * Z, e.1 ∈ parents ∧ e.2 = child) (dom (edges d)))).

(** The [released] CTE's [SET] clause. *)
Definition release_row (now n : Z) (r : job_row) : job_row :=
  r |> set_scheduled_at (if pending_deps r - n =? 0 then At now else scheduled_at r)
    |> set_pending_deps (pending_deps r - n).

(** What [COMPLETE] does to a row: the [done] and [released] CTEs. A row is not
    both finished and released by one statement in any reachable database (a job
    that runs has no open parent); the model finishes it. *)
Definition complete_update (now : Z) (v : list (Z * option (list byte))) (worker : uuid) (d : db)
    (i : Z) (r : job_row) : option job_row :=
  let n := edges_from (completing v worker d) i d in
  match joined v i with
  | Some res =>
    if held worker r then Some (complete_row now res r)
    else if 0 <? n then Some (release_row now n r) else None
  | None => if 0 <? n then Some (release_row now n r) else None
  end.

Definition COMPLETE (now : Z) (v : list (Z * option (list byte))) (worker : uuid) (d : db)
  : Prelude.result db_error (Z * db) :=
  d' ← commit (update (complete_update now v worker d) d);
  Ok (len (completing v worker d), d').

(** [complete], [complete_many] and [complete_many_with_results]. *)
Definition complete (now : Z) (ids : list Z) (results : list (option (list byte)))
    (worker : uuid) (d : db) : Prelude.result db_error (Z * db) :=
  if decide (ids = []) then Ok (0, d) else COMPLETE now (unnest ids results) worker d.

Definition complete_many (now : Z) (ids : list Z) (worker : uuid) (d : db) :=
  complete now ids (replicate (length ids) None) worker d.

Definition complete_many_with_results (now : Z) (ids : list Z) (results : list (list byte))
    (worker : uuid) (d : db) :=
  complete now ids (Some <$> results) worker d.

(** The delay of [RETRY_MANY] before jitter: [least(base * power(2, attempt - 1), cap)]. *)
Definition nominal_delay (base cap att : Z) : Z := Z.min (base * 2 ^ att / 2) cap.

(** [* (0.5 + random() * 0.5)], rounded to the microsecond: [random()] is
    [u / 2^52] with [0 <= u < 2^52]. *)
Definition jittered (nominal u : Z) : Z := (nominal * (2 ^ 52 + u) + 2 ^ 52) / 2 ^ 53.

(** [power(2, attempt - 1)] and its product with the base are double precision
    and raise an error past its range. *)
Definition overflows (base att : Z) : bool :=
  (1024 <=? att - 1) || (2 ^ 1024 * 1000000 <=? base * 2 ^ att / 2).

Definition retry_row (now base cap u : Z) (error : option string) (r : job_row) : job_row :=
  unlock (append_error now error r)
    |> set_state available
    |> set_scheduled_at (At (now + jittered (nominal_delay base cap (attempt r)) u)).

Definition discard_row (now : Z) (error : option string) (r : job_row) : job_row :=
  unlock (append_error now error r)
    |> set_state discarded
    |> set_finalized_at (Some now).

Definition attempts_left (r : job_row) : bool := attempt r <? max_attempts (spec r).

(** The rows of the [scheduled] and [exhausted] CTEs. *)
Definition retrying (input : list (Z * option string)) (worker : uuid) (left : bool) (d : db) : list Z :=
  select (λ i r, held worker r && bool_decide (is_Some (joined input i)) &&
                 Bool.eqb (attempts_left r) left) d.

(** [RETRY_MANY]; [random i] is the draw for row [i]. *)
Definition RETRY_MANY (now : Z) (random : Z → Z) (input : list (Z * option string)) (base cap : Z)
    (worker : uuid) (d : db) : Prelude.result db_error (Z * Z * db) :=
  let scheduled := retrying input worker true d in
  if existsb (λ i, match jobs d !! i with Some r => overflows base (attempt r) | None => false end)
       scheduled
  then Err NumericOverflow else
  d' ← commit (update (λ i r,
         match joined input i with
         | Some error =>
           if held worker r then
             if attempts_left r then Some (retry_row now base cap (random i) error r)
             else Some (discard_row now error r)
           else None
         | None => None
         end) d);
  Ok (len scheduled, len (retrying input worker false d), d').

Record Retried := { scheduled : Z; retry_exhausted : Z }.

Definition retry_many (now : Z) (random : Z → Z) (ids : list Z) (errs : list string)
    (worker : uuid) (base cap : Z) (d : db) : Prelude.result db_error (Retried * db) :=
  if decide (ids = []) then Ok ({| scheduled := 0; retry_exhausted := 0 |}, d) else
  '(s, e, d') ← RETRY_MANY now random (unnest ids (Some <$> errs)) base cap worker d;
  Ok ({| scheduled := s; retry_exhausted := e |}, d').

(** The [walk] CTE: everything downstream of [from], found by following edges
    until nothing new turns up, which takes at most one round per edge. *)
Definition children (from : gset Z) (d : db) : gset Z :=
  set_map snd (filter (λ e : Z * Z, e.1 ∈ from) (dom (edges d))).

Fixpoint walk_from (fuel : nat) (found : gset Z) (d : db) : gset Z :=
  match fuel with
  | O => found
  | S fuel' => walk_from fuel' (found ∪ children found d) d
  end.

Definition walk (dead : gset Z) (d : db) : gset Z :=
  walk_from (size (dom (edges d))) (children dead d) d.

Definition discarding (v : list (Z * option string)) (worker : uuid) (d : db) : list Z :=
  select (λ i r, held worker r && bool_decide (is_Some (joined v i))) d.

(** The [cancelled] CTE's [SET] clause. *)
Definition cascade_row (now : Z) (r : job_row) : job_row :=
  r |> set_state cancelled |> set_finalized_at (Some now).

Definition DISCARD_MANY (now : Z) (v : list (Z * option string)) (worker : uuid) (d : db)
  : Prelude.result db_error (Z * Z * db) :=
  let dead := discarding v worker d in
  let downstream := walk (list_to_set dead) d in
  let cascade (i : Z) (r : job_row) :=
    bool_decide (i ∈ downstream) && bool_decide (state r = available) in
  d' ← commit (update (λ i r,
         match joined v i with
         | Some error =>
           if held worker r then Some (discard_row now error r)
           else if cascade i r then Some (cascade_row now r) else None
         | None => if cascade i r then Some (cascade_row now r) else None
         end) d);
  Ok (len dead, count cascade d, d').

Definition discard_many (now : Z) (ids : list Z) (errs : list string) (worker : uuid) (d : db)
  : Prelude.result db_error (Z * db) :=
  if decide (ids = []) then Ok (0, d) else
  '(settled, _, d') ← DISCARD_MANY now (unnest ids (Some <$> errs)) worker d; Ok (settled, d').

(** ** Leases *)

Definition RENEW (now : Z) (ids : list Z) (worker : uuid) (lease : Z) (d : db)
  : Prelude.result db_error (Z * db) :=
  let p (i : Z) (r : job_row) := bool_decide (i ∈ ids) && held worker r in
  d' ← commit (update (λ i r, if p i r then Some (set_lease_expires_at (Some (now + lease)) r)
                              else None) d);
  Ok (count p d, d').

Definition renew_leases (now : Z) (ids : list Z) (worker : uuid) (lease : Z) (d : db) :=
  if decide (ids = []) then Ok (0, d) else RENEW now ids worker lease d.

Definition ABANDON (now : Z) (ids : list Z) (worker : uuid) (d : db)
  : Prelude.result db_error (Z * db) :=
  let p (i : Z) (r : job_row) := bool_decide (i ∈ ids) && held worker r in
  d' ← commit (update (λ i r, if p i r then Some (set_lease_expires_at (Some (now - 1)) r)
                              else None) d);
  Ok (count p d, d').

Definition abandon_leases (now : Z) (ids : list Z) (worker : uuid) (d : db) :=
  if decide (ids = []) then Ok (0, d) else ABANDON now ids worker d.

(** [state = 'running' AND lease_expires_at < now()]. *)
Definition lapsed (now : Z) (r : job_row) : bool :=
  bool_decide (state r = running) &&
  match lease_expires_at r with Some t => t <? now | None => false end.

Definition lease_expired_text : string := "lease expired before the worker reported an outcome".

Definition release_lease_row (r : job_row) : job_row := unlock r |> set_state available.

Record Reclaimed := { released : Z; exhausted : Z }.

(** [RECLAIM]; its [LIMIT] takes any of the lapsed leases. *)
Definition RECLAIM (now : Z) (n : Z) (d : db) : Prelude.result db_error (Reclaimed * db) :=
  if n <? 0 then Err NegativeLimit else
  let expired := limit n (arrange (select (λ _ r, lapsed now r) d)) in
  let p (left : bool) (i : Z) (r : job_row) :=
    bool_decide (i ∈ expired) && Bool.eqb (attempts_left r) left in
  d' ← commit (update (λ i r,
         if decide (i ∈ expired) then
           Some (if attempts_left r then release_lease_row r
                 else discard_row now (Some lease_expired_text) r)
         else None) d);
  Ok ({| released := count (p true) d; exhausted := count (p false) d |}, d').

Definition reclaim_expired (now : Z) (n : Z) (d : db) : Prelude.result db_error (Reclaimed * db) :=
  RECLAIM now n d.

(** ** Cancellation and dead letters *)

Definition cancel_row (now : Z) (r : job_row) : job_row :=
  unlock r |> set_state cancelled |> set_finalized_at (Some now).

Definition cancel (now : Z) (ids : list Z) (d : db) : Prelude.result db_error (Z * db) :=
  if decide (ids = []) then Ok (0, d) else
  let p (i : Z) (r : job_row) := bool_decide (i ∈ ids) && bool_decide (state r = available) in
  d' ← commit (update (λ i r, if p i r then Some (cancel_row now r) else None) d);
  Ok (count p d, d').

(** [($1::bigint[] IS NULL OR id = ANY($1)) AND ($2::text IS NULL OR queue = $2)]. *)
Definition in_scope (ids : option (list Z)) (q : option string) (i : Z) (r : job_row) : bool :=
  match ids with None => true | Some l => bool_decide (i ∈ l) end &&
  match q with None => true | Some name => bool_decide (queue (spec r) = name) end.

(** The [SET] clause of [RETRY_DISCARDED]. *)
Definition requeue_row (now : Z) (r : job_row) : job_row :=
  unlock r |> set_state available |> set_attempt 0 |> set_scheduled_at (At now)
    |> set_finalized_at None.

Definition retry_discarded (now : Z) (ids : option (list Z)) (q : option string) (d : db)
  : Prelude.result db_error (list Z * db) :=
  let p (i : Z) (r : job_row) := bool_decide (state r = discarded) && in_scope ids q i r in
  d' ← commit (update (λ i r, if p i r then Some (requeue_row now r) else None) d);
  Ok (arrange (select p d), d').

(** [DELETE FROM gylo_job]: edges and steps of a deleted row go with it
    ([ON DELETE CASCADE]). *)
Definition delete_jobs (ids : list Z) (d : db) : db := {|
  jobs := filter (λ ir : Z * job_row, ir.1 ∉ ids) (jobs d);
  next_job := next_job d;
  steps := filter (λ kv : (Z * string) * step_row, ¬ (kv.1.1 ∈ ids)) (steps d);
  edges := filter (λ ev : (Z * Z) * Z, ¬ (ev.1.1 ∈ ids) ∧ ¬ (ev.1.2 ∈ ids)) (edges d);
  workflows := workflows d; next_workflow := next_workflow d; crons := crons d |}.

Definition purge_discarded (q : option string) (d : db) : Z * db :=
  let victims := select (λ i r, bool_decide (state r = discarded) && in_scope None q i r) d in
  (len victims, delete_jobs victims d).

End Planned.
End Jobs.
