(* ===== verification/PgCron.v ===== *)
(** * Schedules and durable steps in Postgres

    [gylo_cron] and [gylo_step]: the statements of [crates/gylo-pg/src/lib.rs]
    that record schedules and steps, fire the schedules that are due, and read
    both back. *)

From S2P Require Import Prelude.
From S2P Require Import PgTable.
From S2P Require Import PgJobs.
Import Table.
Import Jobs.

Module Cron.

Record CronEntry := {
  ce_name : string;
  ce_queue : string;
  ce_task : string;
  ce_payload : list byte;
  ce_expression : string;
  ce_timezone : string
}.

Record DueCron := { dc_name : string; dc_expression : string; dc_timezone : string }.

(** [UPSERT_CRON]. *)
Definition UPSERT_CRON (now : Z) (e : CronEntry) (next_run_at : Z) (d : db) : db :=
  let row :=
    match crons d !! ce_name e with
    | None => {|
        cron_queue := ce_queue e; cron_task := ce_task e; cron_payload := ce_payload e;
        cron_expression := ce_expression e; cron_timezone := ce_timezone e;
        cron_paused := false; cron_next_run_at := next_run_at; cron_last_run_at := None;
        cron_updated_at := now |}
    | Some old => {|
        cron_queue := ce_queue e; cron_task := ce_task e; cron_payload := ce_payload e;
        cron_expression := ce_expression e; cron_timezone := ce_timezone e;
        cron_paused := cron_paused old;
        cron_next_run_at :=
          if bool_decide (cron_expression old ≠ ce_expression e) ||
             bool_decide (cron_timezone old ≠ ce_timezone e)
          then next_run_at else cron_next_run_at old;
        cron_last_run_at := cron_last_run_at old; cron_updated_at := now |}
    end in
  set_crons (<[ce_name e := row]> (crons d)) d.

Definition upsert_cron (now : Z) (e : CronEntry) (next_run_at : Z) (d : db) : db :=
  UPSERT_CRON now e next_run_at d.

(** [NOT paused AND next_run_at <= now()]. *)
Definition cron_due (now : Z) (c : cron_row) : bool :=
  negb (cron_paused c) && (cron_next_run_at c <=? now).

Definition run_order (a b : string * cron_row) : Prop :=
  cron_next_run_at a.2 <= cron_next_run_at b.2.
#[global] Instance run_order_dec : RelDecision run_order.
Proof. intros a b. unfold run_order. apply _. Defined.

(** [DUE_CRON]. *)
Definition due_cron (now n : Z) (d : db) : Prelude.result db_error (list DueCron) :=
  if n <? 0 then Err NegativeLimit else
  Ok ((λ nc : string * cron_row, {| dc_name := nc.1; dc_expression := cron_expression nc.2;
                                    dc_timezone := cron_timezone nc.2 |}) <$>
      limit n (merge_sort run_order
        (List.filter (λ nc : string * cron_row, cron_due now nc.2) (map_to_list (crons d))))).

(** The job [FIRE_CRON] inserts: every column it does not list has its default. *)
Definition fired_row (now : Z) (c : cron_row) : job_row :=
  new_row now (NewJob_new (cron_task c) (cron_payload c) |> on_queue (cron_queue c)).

Definition advance (now next_run_at : Z) (c : cron_row) : cron_row := {|
  cron_queue := cron_queue c; cron_task := cron_task c; cron_payload := cron_payload c;
  cron_expression := cron_expression c; cron_timezone := cron_timezone c;
  cron_paused := cron_paused c; cron_next_run_at := next_run_at;
  cron_last_run_at := Some now; cron_updated_at := cron_updated_at c |}.

(** [FIRE_CRON]: advances the schedule and enqueues its job in one statement. *)
Definition FIRE_CRON (now : Z) (name : string) (next_run_at : Z) (d : db)
  : Prelude.result db_error (option Z * db) :=
  match crons d !! name with
  | Some c =>
    if cron_due now c then
      d' ← commit (insert_job (fired_row now c)
                     (set_crons (<[name := advance now next_run_at c]> (crons d)) d));
      Ok (Some (next_job d), d')
    else Ok (None, d)
  | None => Ok (None, d)
  end.

Definition fire_cron (now : Z) (name : string) (next_run_at : Z) (d : db)
  : Prelude.result db_error (option Z * db) :=
  FIRE_CRON now name next_run_at d.

(** [RECORD_STEP]: [ON CONFLICT (job_id, name) DO NOTHING]; the job must exist. *)
Definition RECORD_STEP (now : Z) (job : Z) (name : string) (res : list byte) (d : db)
  : Prelude.result db_error db :=
  match steps d !! (job, name) with
  | Some _ => Ok d
  | None =>
    if decide (is_Some (jobs d !! job)) then
      Ok (set_steps (<[(job, name) := {| step_result := res; step_created_at := now |}]> (steps d)) d)
    else Err ForeignKeyViolation
  end.

Definition record_step (now : Z) (job : Z) (name : string) (res : list byte) (d : db)
  : Prelude.result db_error db :=
  RECORD_STEP now job name res d.

Definition step_order (a b : Z * string * step_row) : Prop :=
  step_created_at a.2 < step_created_at b.2 ∨
  (step_created_at a.2 = step_created_at b.2 ∧ String.leb a.1.2 b.1.2 = true).
#[global] Instance step_order_dec : RelDecision step_order.
Proof. intros a b. unfold step_order. apply _. Defined.

(** [STEPS_FOR]: a job's steps in the order they were recorded. *)
Definition STEPS_FOR (job : Z) (d : db) : list (string * list byte) :=
  (λ kv : Z * string * step_row, (kv.1.2, step_result kv.2)) <$>
  merge_sort step_order
    (List.filter (λ kv : Z * string * step_row, bool_decide (kv.1.1 = job))
       (map_to_list (steps d))).

Definition steps_for (job : Z) (d : db) : list (string * list byte) :=
  STEPS_FOR job d.

End Cron.
