(* ===== verification/PgRetention.v ===== *)
(** * Retention and operator queries

    The statements of [crates/gylo-pg/src/lib.rs] that delete finished history
    and those that only read: queue depth, dead letters, outcomes. *)

From S2P Require Import Prelude.
From S2P Require Import PgTable.
From S2P Require Import PgJobs.
Import Table.
Import Jobs.

Module Retention.

(** Some member of the workflow is still waiting or running. *)
Definition workflow_live (w : Z) (d : db) : bool :=
  bool_decide (select (λ _ r, bool_decide (workflow_id (spec r) = Some w) && bool_decide (live r)) d ≠ []).

(** The [WHERE] clause of [PRUNE]. *)
Definition prunable (now : Z) (states : list job_state) (older_than : Z) (q : option string)
    (d : db) (r : job_row) : bool :=
  bool_decide (state r ∈ states) &&
  match finalized_at r with Some t => t <? now - older_than | None => false end &&
  match q with None => true | Some name => bool_decide (queue (spec r) = name) end &&
  match workflow_id (spec r) with None => true | Some w => negb (workflow_live w d) end.

(** [ORDER BY finalized_at]. *)
Definition prune_order (a b : Z * job_row) : Prop :=
  match finalized_at a.2, finalized_at b.2 with
  | Some x, Some y => x <= y
  | _, None => True
  | None, Some _ => False
  end.
#[global] Instance prune_order_dec : RelDecision prune_order.
Proof. intros a b. unfold prune_order. repeat case_match; apply _. Defined.

Definition victims (now : Z) (states : list job_state) (older_than : Z) (q : option string)
    (n : Z) (skip : gset Z) (d : db) : list Z :=
  (limit n (merge_sort prune_order
     (List.filter (λ ir : Z * job_row, prunable now states older_than q d ir.2 &&
                                        negb (bool_decide (ir.1 ∈ skip)))
        (map_to_list (jobs d))))).*1.

(** [prune_states] with the [PRUNE] statement. *)
Definition prune_states (now : Z) (skip : gset Z) (states : list job_state) (older_than : Z)
    (q : option string) (n : Z) (d : db) : Prelude.result db_error (Z * db) :=
  if n <? 0 then Err NegativeLimit else
  let v := victims now states older_than q n skip d in
  Ok (len v, delete_jobs v d).

Definition prune_completed (now : Z) (skip : gset Z) (older_than : Z) (q : option string) (n : Z)
    (d : db) := prune_states now skip [completed; cancelled] older_than q n d.

Definition prune_discarded (now : Z) (skip : gset Z) (older_than : Z) (q : option string) (n : Z)
    (d : db) := prune_states now skip [discarded] older_than q n d.

(** [prune_workflows]: an edge of a deleted workflow goes with it. *)
Definition prune_workflows (d : db) : Z * db :=
  let empty_ones := filter (λ w, select (λ _ r, bool_decide (workflow_id (spec r) = Some w)) d = [])
                      (workflows d) in
  (Z.of_nat (size empty_ones), {|
    jobs := jobs d; next_job := next_job d; steps := steps d;
    edges := filter (λ ev : Z * Z * Z, ev.2 ∉ empty_ones) (edges d);
    workflows := workflows d ∖ empty_ones; next_workflow := next_workflow d; crons := crons d |}).

(** ** Reading *)

Record Depth := { ready : Z; depth_scheduled : Z; blocked : Z; depth_running : Z }.

Definition depth (now : Z) (q : string) (d : db) : Depth :=
  let here r := bool_decide (queue (spec r) = q) in
  {| ready := count (λ _ r, here r && bool_decide (state r = available) && due now (scheduled_at r)) d;
     depth_scheduled := count (λ _ r, here r && bool_decide (state r = available) &&
       negb (due now (scheduled_at r)) && negb (bool_decide (scheduled_at r = Infinity))) d;
     blocked := count (λ _ r, here r && bool_decide (state r = available) &&
       bool_decide (scheduled_at r = Infinity)) d;
     depth_running := count (λ _ r, here r && bool_decide (state r = running)) d |}.

Record JobOutcome := {
  jo_state : job_state; jo_result : option (list byte); jo_errors : list error_entry }.

Definition outcome (i : Z) (d : db) : option JobOutcome :=
  (λ r, {| jo_state := state r; jo_result := result r; jo_errors := errors r |}) <$> jobs d !! i.

Record Discarded := {
  di_id : Z; di_queue : string; di_task : string; di_attempt : Z;
  di_finalized_at : option Z; di_error : option string }.

(** [ORDER BY finalized_at DESC NULLS LAST, id DESC]. *)
Definition dead_letter_order (a b : Z * job_row) : Prop :=
  match finalized_at a.2, finalized_at b.2 with
  | Some x, Some y => y < x ∨ (x = y ∧ b.1 <= a.1)
  | Some _, None => True
  | None, Some _ => False
  | None, None => b.1 <= a.1
  end.
#[global] Instance dead_letter_order_dec : RelDecision dead_letter_order.
Proof. intros a b. unfold dead_letter_order. repeat case_match; apply _. Defined.

(** [errors -> -1 ->> 'error'] reads the last element. *)
Definition list_discarded (q : option string) (n : Z) (d : db)
  : Prelude.result db_error (list Discarded) :=
  if n <? 0 then Err NegativeLimit else
  Ok ((λ ir : Z * job_row, {|
         di_id := ir.1; di_queue := queue (spec ir.2); di_task := task (spec ir.2);
         di_attempt := attempt ir.2; di_finalized_at := finalized_at ir.2;
         di_error := last (errors ir.2) ≫= err_text |}) <$>
      limit n (merge_sort dead_letter_order
        (List.filter (λ ir : Z * job_row,
            bool_decide (state ir.2 = discarded) && in_scope None q ir.1 ir.2)
           (map_to_list (jobs d))))).

Definition name_order (a b : string) : Prop := String.leb a b = true.
#[global] Instance name_order_dec : RelDecision name_order.
Proof. intros a b. unfold name_order. apply _. Defined.

(** [SELECT DISTINCT queue .. ORDER BY queue]. *)
Definition queues (d : db) : list string :=
  merge_sort name_order
    (elements (list_to_set ((λ ir : Z * job_row, queue (spec ir.2)) <$>
       List.filter (λ ir : Z * job_row, bool_decide (live ir.2)) (map_to_list (jobs d))) : gset string)).

End Retention.
