(* ===== verification/PgWorkflow.v ===== *)
(** * Workflows

    A graph of jobs enters the database in one transaction
    ([Workflow.enqueue] and [insert_workflow] of the Python client, the only
    writer of [gylo_edge]); the statements of [crates/gylo-pg/src/lib.rs] then
    release children as parents complete and cancel them when a parent dies.
    Here are the insertion, and the walk of [DISCARD_MANY] as reachability. *)

From S2P Require Import Prelude.
From S2P Require Import PgTable.
From S2P Require Import PgJobs.
Import Table.
Import Jobs.

Module Workflow.

(** ** Insertion *)

(** [Workflow]: nodes and the edges between their indices. *)
Record Workflow := { nodes : list NewJob; links : gset (nat * nat) }.

(** [dependencies]: how many edges lead to each node, on a graph whose edges lead
    to nodes it has. *)
Definition dependencies (w : Workflow) : list Z :=
  imap (λ c _, Z.of_nat (size (filter (λ e : nat * nat, e.2 = c) (links w)))) (nodes w).

Definition set_workflow (w : Z) (s : job_spec) : job_spec := {|
  queue := queue s; task := task s; payload := payload s; priority := priority s;
  max_attempts := max_attempts s; created_at := created_at s; unique_key := unique_key s;
  concurrency_key := concurrency_key s; max_concurrency := max_concurrency s;
  durable := durable s; workflow_id := Some w |}.

(** The row [_node_statement] inserts. *)
Definition node_row (now w : Z) (j : NewJob) (pending : Z) : job_row :=
  let r := new_row now j in {|
    spec := set_workflow w (spec r); state := state r; attempt := attempt r; errors := errors r;
    scheduled_at := if 0 <? pending then Infinity else scheduled_at r;
    started_at := started_at r; finalized_at := finalized_at r; locked_by := locked_by r;
    lease_expires_at := lease_expires_at r; result := Table.result r; pending_deps := pending |}.

Definition new_workflow (d : db) : db := {|
  jobs := jobs d; next_job := next_job d; steps := steps d; edges := edges d;
  workflows := workflows d ∪ {[next_workflow d]}; next_workflow := next_workflow d + 1;
  crons := crons d |}.

(** The nodes one by one, as the asyncpg adapter's statement has them. *)
Fixpoint insert_nodes (now w : Z) (l : list (NewJob * Z)) (d : db)
  : Prelude.result db_error (list Z * db) :=
  match l with
  | [] => Ok ([], d)
  | (j, pending) :: l' =>
    d1 ← commit (insert_job (node_row now w j pending) d);
    '(ids, d2) ← insert_nodes now w l' d1;
    Ok (next_job d :: ids, d2)
  end.

Definition set_edges v d := {|
  jobs := jobs d; next_job := next_job d; steps := steps d; edges := v;
  workflows := workflows d; next_workflow := next_workflow d; crons := crons d |}.

(** [ids[p]], [ids[c]] and the [INSERT INTO gylo_edge] of each pair; [None] is
    the [IndexError] of an edge that names no node. *)
Fixpoint insert_edges (w : Z) (ids : list Z) (l : list (nat * nat)) (m : gmap (Z * Z) Z)
  : option (gmap (Z * Z) Z) :=
  match l with
  | [] => Some m
  | (p, c) :: l' =>
    parent ← ids !! p; child ← ids !! c;
    insert_edges w ids l' (<[(parent, child) := w]> m)
  end.

Inductive workflow_error := Database (e : db_error) | IndexError.

(** [Workflow.enqueue] with [insert_workflow]: the graph appears whole or not
    at all. [counts[child] += 1] raises on an edge to no node, before anything is
    sent. *)
Definition enqueue_workflow (now : Z) (f : Workflow) (d : db)
  : Prelude.result workflow_error (list Z * db) :=
  if decide (nodes f = []) then Ok ([], d) else
  if decide (set_Exists (λ e : nat * nat, (length (nodes f) <= e.2)%nat) (links f)) then Err IndexError else
  let w := next_workflow d in
  '(ids, d1) ← map_err Database
     (insert_nodes now w (zip (nodes f) (dependencies f)) (new_workflow d));
  match insert_edges w ids (elements (links f)) (edges d1) with
  | Some m => Ok (ids, set_edges m d1)
  | None => Err IndexError
  end.

(** ** Reachability *)

(** [c] is downstream of [p]. *)
Inductive downstream (d : db) (p : Z) : Z → Prop :=
| child_of c : is_Some (edges d !! (p, c)) → downstream d p c
| further b c : downstream d p b → is_Some (edges d !! (b, c)) → downstream d p c.

Lemma elem_of_children from d c :
  c ∈ children from d ↔ ∃ p, p ∈ from ∧ is_Some (edges d !! (p, c)).
Proof.
  unfold children. rewrite elem_of_map. split.
  - intros ([p c'] & -> & H). apply elem_of_filter in H as [? H%elem_of_dom]. eauto.
  - intros (p & Hp & H). exists (p, c). split; [done|]. apply elem_of_filter.
    split; [done|]. by apply elem_of_dom.
Qed.

Lemma children_mono d X Y : X ⊆ Y → children X d ⊆ children Y d.
Proof. intros H c. rewrite !elem_of_children. set_solver. Qed.

Lemma walk_from_mono fuel X d : X ⊆ walk_from fuel X d.
Proof.
  revert X. induction fuel as [|fuel IH]; intros X; simpl; [done|].
  etrans; [|apply IH]. set_solver.
Qed.

Lemma walk_from_fixed fuel X d : children X d ⊆ X → walk_from fuel X d = X.
Proof.
  revert X. induction fuel as [|fuel IH]; intros X HX; simpl; [done|].
  replace (X ∪ children X d) with X by set_solver. by apply IH.
Qed.

(** Every child there is. *)
Definition targets (d : db) : gset Z := set_map snd (dom (edges d)).

Lemma children_targets X d : children X d ⊆ targets d.
Proof.
  intros c (p & _ & H)%elem_of_children. unfold targets. apply elem_of_map.
  exists (p, c). split; [done|]. by apply elem_of_dom.
Qed.

(** A round that adds nothing ends the walk; each other one adds a child, and
    there are no more children than edges. *)
Lemma walk_from_closed fuel X d :
  X ⊆ targets d → (size (targets d) <= size X + fuel)%nat →
  children (walk_from fuel X d) d ⊆ walk_from fuel X d.
Proof.
  revert X. induction fuel as [|fuel IH]; intros X HX Hs; simpl.
  - assert (X = targets d) as ->.
    { apply leibniz_equiv, set_subseteq_size_equiv; [done|lia]. }
    apply children_targets.
  - destruct (decide (children X d ⊆ X)) as [Hc|Hc].
    + replace (X ∪ children X d) with X by set_solver. by rewrite walk_from_fixed.
    + apply IH; [pose proof (children_targets X d); set_solver|].
      assert (size X < size (X ∪ children X d))%nat; [|lia].
      apply subset_size. set_solver.
Qed.

Lemma walk_closed X d : children (walk X d) d ⊆ walk X d.
Proof.
  unfold walk. apply walk_from_closed; [apply children_targets|].
  pose proof (size_set_map_le snd (dom (edges d))). unfold targets. lia.
Qed.

(** The walk finds exactly what is downstream of its starting points. *)
Lemma elem_of_walk X d c : c ∈ walk X d ↔ ∃ p, p ∈ X ∧ downstream d p c.
Proof.
  split.
  - revert c. unfold walk. generalize (size (dom (edges d))). intros fuel.
    assert (∀ Y, (∀ c, c ∈ Y → ∃ p, p ∈ X ∧ downstream d p c) →
      ∀ c, c ∈ walk_from fuel Y d → ∃ p, p ∈ X ∧ downstream d p c) as H.
    { induction fuel as [|fuel IH]; intros Y HY c Hc; simpl in *; [auto|].
      eapply IH; [|done]. intros b [Hb|Hb]%elem_of_union; [auto|].
      apply elem_of_children in Hb as (a & Ha & He). destruct (HY a Ha) as (p & Hp & Hd).
      exists p. split; [done|]. by eapply further. }
    apply H. intros c (p & Hp & He)%elem_of_children. exists p. split; [done|]. by constructor.
  - intros (p & Hp & Hd). induction Hd as [c He|b c Hd IH He].
    + apply walk_from_mono, elem_of_children. eauto.
    + apply walk_closed, elem_of_children. eauto.
Qed.

End Workflow.
