(* ===== verification/PgInvariant.v ===== *)
(** * What every database holds

    The invariant of the Postgres backend: what is true of each row, of the
    tables together, of the dependency counters and of the concurrency keys,
    beyond what the constraints enforce. [PgSteps] shows that every statement
    keeps it; here are the invariant and the lemmas on updates that carry those
    proofs. *)

From S2P Require Import Prelude.
From S2P Require Import PgTable.
From S2P Require Import PgJobs.
Import Table.
Import Jobs.

Module Invariant.

(** ** The invariant *)

(** A job's place in its life determines the columns around it. [enqueue] accepts a
    job with no attempts at all; such a job waits with none spent, since leasing it
    would break the check on its attempts. *)
Record row_ok (r : job_row) : Prop := {
  ok_checks : row_checks r;
  ok_lock : state r = running ↔ is_Some (locked_by r);
  ok_final : live r ↔ finalized_at r = None;
  ok_attempt : 0 <= attempt r;
  ok_left : state r = available → attempt r < max_attempts (spec r) ∨ max_attempts (spec r) = 0;
  ok_started : state r = running → 1 <= attempt r ∧ is_Some (started_at r);
  ok_parked : live r → (scheduled_at r = Infinity ↔ 0 < pending_deps r);
  ok_met : state r ≠ available → state r ≠ cancelled → pending_deps r = 0
}.

(** The parent [p] has not completed. *)
Definition open_parent (d : db) (p : Z) : Prop := (state <$> jobs d !! p) ≠ Some completed.

(** Edges into [i] whose parent has not completed. *)
Definition open_edges (i : Z) (d : db) : gset (Z * Z) :=
  filter (λ e : Z * Z, e.2 = i ∧ open_parent d e.1) (dom (edges d)).

Definition outstanding (i : Z) (d : db) : Z := Z.of_nat (size (open_edges i d)).

(** Jobs of key [k] whose limit is [m] or less, and those of them that run. *)
Definition capped (k : string) (m : Z) (s : job_spec) : bool :=
  bool_decide (concurrency_key s = Some k) &&
  match max_concurrency s with Some n => n <=? m | None => false end.

Definition limited (k : string) (m : Z) (_ : Z) (r : job_row) : bool :=
  bool_decide (state r = running) && capped k m (spec r).

(** Every job of these queues has an attempt to its name. *)
Definition funded (queues : list string) (d : db) : Prop :=
  map_Forall (λ _ r, queue (spec r) ∈ queues → 0 < max_attempts (spec r)) (jobs d).

Record db_ok (d : db) : Prop := {
  rows_ok : map_Forall (λ _, row_ok) (jobs d);
  index_ok : unique_index (jobs d);
  ids_ok i : is_Some (jobs d !! i) → i < next_job d;
  edges_ok p c : is_Some (edges d !! (p, c)) → is_Some (jobs d !! p) ∧ is_Some (jobs d !! c);
  members_ok p c w r :
    edges d !! (p, c) = Some w → jobs d !! c = Some r → workflow_id (spec r) = Some w;
  deps_ok i r : jobs d !! i = Some r → outstanding i d <= pending_deps r;
  steps_ok i name : is_Some (steps d !! (i, name)) → is_Some (jobs d !! i);
  keys_ok k m : 0 <= m → count (limited k m) d <= m
}.

(** ** Counting *)

Lemma count_mono p q d d' :
  (∀ i r, jobs d !! i = Some r → p i r = true → ∃ r', jobs d' !! i = Some r' ∧ q i r' = true) →
  count p d <= count q d'.
Proof.
  intros H. unfold count, len. apply inj_le. apply submseteq_length.
  apply NoDup_submseteq; [apply NoDup_select|].
  intros i (r & Hr & Hp)%elem_of_select. apply elem_of_select. eauto.
Qed.

Lemma open_edges_mono i d d' :
  dom (edges d') ⊆ dom (edges d) →
  (∀ p c, (p, c) ∈ dom (edges d') → open_parent d' p → open_parent d p) →
  outstanding i d' <= outstanding i d.
Proof.
  intros He Ho. unfold outstanding. apply inj_le, subseteq_size.
  unfold open_edges. intros [p c]. rewrite !elem_of_filter. naive_solver.
Qed.

(** A job with an open parent has something pending. *)
Lemma open_edge_pending d p c r w :
  db_ok d → edges d !! (p, c) = Some w → jobs d !! c = Some r → open_parent d p →
  0 < pending_deps r.
Proof.
  intros Hd He Hr Ho. eapply Z.lt_le_trans; [|by apply (deps_ok _ Hd c)]. unfold outstanding.
  assert ((p, c) ∈ open_edges c d) as Hin.
  { unfold open_edges. apply elem_of_filter. split; [done|]. apply elem_of_dom. eauto. }
  apply elem_of_subseteq_singleton, subseteq_size in Hin. rewrite size_singleton in Hin. lia.
Qed.

(** ** Updates *)

(** What a statement may do to a row without touching anything around it. *)
Record tame (r r' : job_row) : Prop := {
  tame_ok : row_ok r → row_ok r';
  tame_spec : spec r' = spec r;
  tame_live : live r' → live r;
  tame_running : state r' = running → state r = running;
  tame_deps : pending_deps r' = pending_deps r;
  tame_completed : state r = completed → state r' = completed
}.

Lemma tame_refl r : tame r r.
Proof. by constructor. Qed.

(** The shared frame of an update: everything but the rows is as it was. *)
Lemma update_ok f d :
  db_ok d →
  (∀ i r, jobs d !! i = Some r → spec (default r (f i r)) = spec r) →
  (∀ i r, jobs d !! i = Some r → row_ok (default r (f i r))) →
  unique_index (jobs (update f d)) →
  (∀ i r, jobs d !! i = Some r → outstanding i (update f d) <= pending_deps (default r (f i r))) →
  (∀ k m, 0 <= m → count (limited k m) (update f d) <= m) →
  commit (update f d) = Ok (update f d) ∧ db_ok (update f d).
Proof.
  intros Hd Hspec Hrow Hidx Hdep Hkey.
  assert (map_Forall (λ _, row_ok) (jobs (update f d))) as Hrows.
  { intros i r' Hr'. apply lookup_update_Some in Hr' as (r & Hr & ->). eauto. }
  split.
  - apply commit_ok; [|done]. intros i r Hr. apply (ok_checks _ (Hrows i r Hr)).
  - destruct Hd. constructor; auto.
    + intros i. rewrite <- elem_of_dom, dom_update, elem_of_dom. auto.
    + intros p c. rewrite <- !(elem_of_dom (jobs _)), !dom_update, !elem_of_dom. auto.
    + intros p c w r' Hw Hr'. apply lookup_update_Some in Hr' as (r & Hr & ->).
      rewrite Hspec by done. eauto.
    + intros i r' Hr'. apply lookup_update_Some in Hr' as (r & Hr & ->). eauto.
    + intros i name. rewrite <- (elem_of_dom (jobs _)), dom_update, elem_of_dom. eauto.
Qed.

Lemma limited_mono k m r r' :
  spec r' = spec r → (state r' = running → state r = running) →
  limited k m 0 r' = true → limited k m 0 r = true.
Proof.
  unfold limited. intros -> Hs H. bool_facts.
  apply andb_true_intro. split; [|done]. apply bool_decide_eq_true; auto.
Qed.

Lemma tame_update_ok f d :
  db_ok d →
  (∀ i r r', jobs d !! i = Some r → f i r = Some r' → tame r r') →
  commit (update f d) = Ok (update f d) ∧ db_ok (update f d).
Proof.
  intros Hd Hf.
  assert (∀ i r, jobs d !! i = Some r → tame r (default r (f i r))) as Ht.
  { intros i r Hr. destruct (f i r) eqn:E; [by eapply Hf|apply tame_refl]. }
  apply update_ok; auto.
  - intros i r Hr. apply (Ht i r Hr).
  - intros i r Hr. apply (Ht i r Hr). by apply (rows_ok _ Hd i).
  - apply unique_index_update; [..|apply Hd]; intros i r Hr; apply (Ht i r Hr).
  - intros i r Hr. rewrite (tame_deps _ _ (Ht i r Hr)).
    etrans; [|by apply (deps_ok _ Hd)]. apply open_edges_mono; [done|].
    intros p c _. unfold open_parent. rewrite lookup_update. intros Hn Hp. apply Hn.
    destruct (jobs d !! p) as [q|] eqn:Hq; [|done]. simpl in *. simplify_eq.
    f_equal. by apply (Ht p q Hq).
  - intros k m Hm. etrans; [|by apply (keys_ok _ Hd k m)].
    apply count_mono. intros i r' Hr' Hl.
    apply lookup_update_Some in Hr' as (r & Hr & ->). exists r. split; [done|].
    eapply limited_mono; [..|exact Hl]; apply (Ht i r Hr).
Qed.

(** ** Rows *)

Ltac row_facts :=
  unfold held, runnable, attempts_left, lapsed in *; bool_facts.

(** What a running row and a waiting row look like. *)
Lemma running_row r :
  row_ok r → state r = running →
  is_Some (locked_by r) ∧ is_Some (lease_expires_at r) ∧ finalized_at r = None ∧
  pending_deps r = 0 ∧ scheduled_at r ≠ Infinity ∧ 1 <= attempt r <= max_attempts (spec r).
Proof.
  intros [(Ha & Hp & _ & _ & _) Hl Hf _ _ Hs Hpk Hmet] Hr.
  assert (live r) as Hlive by by right. apply Hl in Hr as Hlk.
  assert (is_Some (lease_expires_at r)).
  { destruct (lease_expires_at r); [done|]. destruct Hp as [_ Hp]. rewrite Hp in Hlk by done.
    by destruct Hlk. }
  assert (pending_deps r = 0) as H0 by (apply Hmet; congruence).
  split_and!; try done; [by apply Hf| |apply Hs in Hr; lia].
  rewrite Hpk by done. lia.
Qed.

Lemma available_row r :
  row_ok r → state r = available →
  locked_by r = None ∧ lease_expires_at r = None ∧ finalized_at r = None ∧
  (0 < max_attempts (spec r) → attempt r < max_attempts (spec r)).
Proof.
  intros [(Ha & Hp & _ & _ & _) Hl Hf _ Hlf Hs Hpk Hmet] Hr.
  assert (locked_by r = None) as Hn.
  { destruct (locked_by r); [|done]. destruct Hl as [_ Hl]. rewrite Hl in Hr by done. done. }
  split_and!; [done|by apply Hp|apply Hf; by left|]. intros ?. destruct (Hlf Hr); lia.
Qed.

Ltac row_close :=
  repeat match goal with
    | H : ?P |- ?P => exact H
    | |- _ ∧ _ => split
    | |- _ ↔ _ => split
    | |- _ → _ => intro
    | H : is_Some None |- _ => by destruct H
    | H : is_Some ?x, E : ?x = None |- _ => rewrite E in H
    | H : _ ∨ _ |- _ => destruct H
    end;
  solve [done | congruence | lia | eauto | left; congruence | right; congruence].

(** Proves [row_ok] of a changed row from the facts of the old one. *)
Ltac row_fields :=
  match goal with H : row_ok _ |- _ => destruct H as [(?&_&?&?&?) _ _ ? _ ? _ _] end;
  constructor; unfold row_checks, unlock, append_error, live in *; simpl in *; row_close.

Ltac row_tame :=
  constructor; [|unfold live in *; simpl; intros; try done; intuition congruence..].

Lemma retry_row_tame now base cap u e worker r :
  held worker r = true → attempts_left r = true → tame r (retry_row now base cap u e r).
Proof.
  intros H1 H2. row_facts. row_tame. intros Hr.
  destruct (running_row r) as (?&?&?&?&?&?); [done..|]. unfold retry_row. row_fields.
Qed.

Lemma discard_row_tame now e r : state r = running → tame r (discard_row now e r).
Proof.
  intros H. row_tame. intros Hr.
  destruct (running_row r) as (?&?&?&?&?&?); [done..|]. unfold discard_row. row_fields.
Qed.

Lemma cascade_row_tame now r : state r = available → tame r (cascade_row now r).
Proof.
  intros H. row_tame. intros Hr.
  destruct (available_row r) as (?&?&?&?); [done..|]. unfold cascade_row. row_fields.
Qed.

Lemma cancel_row_tame now r : state r = available → tame r (cancel_row now r).
Proof.
  intros H. row_tame. intros Hr.
  destruct (available_row r) as (?&?&?&?); [done..|]. unfold cancel_row. row_fields.
Qed.

Lemma release_lease_row_tame r :
  state r = running → attempts_left r = true → tame r (release_lease_row r).
Proof.
  intros H1 H2. row_facts. row_tame. intros Hr.
  destruct (running_row r) as (?&?&?&?&?&?); [done..|]. unfold release_lease_row. row_fields.
Qed.

Lemma set_lease_tame t worker r : held worker r = true → tame r (set_lease_expires_at (Some t) r).
Proof.
  intros H. row_facts. row_tame. intros Hr.
  destruct (running_row r) as (?&?&?&?&?&?); [done..|]. row_fields.
Qed.

(** The rows that come to life: a leased job, a completed one, a requeued dead
    letter. *)
Lemma lease_row_ok now worker lease r :
  row_ok r → state r = available → due now (scheduled_at r) = true → attempt r < max_attempts (spec r) →
  row_ok (lease_row now worker lease r).
Proof.
  intros Hr Ha Hdue Hleft. destruct (available_row r) as (?&?&?&?); [done..|].
  assert (scheduled_at r ≠ Infinity) by (intros E; by rewrite E in Hdue).
  assert (pending_deps r = 0).
  { pose proof (ok_checks _ Hr) as (_&_&_&_&?).
    destruct (ok_parked _ Hr) as [_ Hp]; [by left|]. destruct (decide (0 < pending_deps r)); [|lia].
    exfalso. auto. }
  unfold lease_row. row_fields.
Qed.

Lemma complete_row_ok now res r : row_ok r → state r = running → row_ok (complete_row now res r).
Proof.
  intros Hr H. destruct (running_row r) as (?&?&?&?&?&?); [done..|]. unfold complete_row. row_fields.
Qed.

Lemma requeue_row_ok now r : row_ok r → state r = discarded → row_ok (requeue_row now r).
Proof.
  intros Hr H. pose proof (ok_met _ Hr) as Hm.
  assert (pending_deps r = 0) by (apply Hm; congruence). unfold requeue_row. row_fields.
Qed.

End Invariant.
