(* ===== verification/PgSteps.v ===== *)
(** * Every statement keeps the invariant

    For each statement of the Postgres backend: on a database that satisfies
    [Invariant.db_ok] it succeeds, or fails for a reason that is named, and
    leaves a database that satisfies it again. *)

From S2P Require Import Prelude.
From S2P Require Import PgTable.
From S2P Require Import PgJobs.
From S2P Require Import PgCron.
From S2P Require Import PgRetention.
From S2P Require Import PgWorkflow.
From S2P Require Import PgInvariant.
Import Table.
Import Jobs.
Import Cron.
Import Retention.
Import Workflow.
Import Invariant.

Module Steps.

(** A statement that goes through and leaves a good database. *)
Definition succeeds {A} (r : Prelude.result db_error (A * db)) : Prop :=
  ∃ a d', r = Ok (a, d') ∧ db_ok d'.

Lemma succeeds_ok {A} r (a : A) d' : succeeds r → r = Ok (a, d') → db_ok d'.
Proof. intros (? & ? & -> & ?) ?. by simplify_eq. Qed.

(** Reduces a statement made of one in-place update to what it does to a row. *)
Ltac by_tame :=
  match goal with |- context [commit (update ?f ?d)] =>
    let H := fresh in let i := fresh "i" in let r := fresh "r" in let r' := fresh "r'" in
    let Hr := fresh "Hr" in let Hf := fresh "Hf" in
    assert (commit (update f d) = Ok (update f d) ∧ db_ok (update f d)) as [H ?];
    [ apply tame_update_ok; [done|]; intros i r r' Hr Hf
    | rewrite H; simpl; do 2 eexists; split; [reflexivity|done] ]
  end.

Section Planned.
Context {Pl : Planner}.

(** ** Statements that change rows in place *)

Lemma held_running worker r : held worker r = true → state r = running.
Proof. intros H. by row_facts. Qed.

Lemma retry_ok now random input base cap worker d :
  db_ok d →
  (∀ i r, is_Some (joined input i) → jobs d !! i = Some r → held worker r = true → overflows base (attempt r) = false) →
  succeeds ('(s, e, d') ← RETRY_MANY now random input base cap worker d; Ok ((s, e), d')).
Proof.
  intros Hd Ho. unfold RETRY_MANY.
  assert (existsb (λ i, match jobs d !! i with Some r => overflows base (attempt r) | None => false end)
            (retrying input worker true d) = false) as ->.
  { apply not_true_is_false. intros (i & Hi & H)%existsb_exists.
    apply list_elem_of_In, elem_of_select in Hi as (r & Hr & Hh). rewrite Hr in H.
    bool_facts. rewrite (Ho i r) in H by done. done. }
  by_tame.
    destruct (joined input i); [|done]. destruct (held worker r) eqn:Hh; [|done].
    destruct (attempts_left r) eqn:Hl; simplify_eq.
    - by eapply retry_row_tame.
    - eauto using discard_row_tame, held_running.
Qed.

Lemma discard_ok now v worker d :
  db_ok d → succeeds ('(s, c, d') ← DISCARD_MANY now v worker d; Ok ((s, c), d')).
Proof.
  intros Hd. unfold DISCARD_MANY.
  by_tame.
    destruct (joined v i); [destruct (held worker r) eqn:Hh|].
    - simplify_eq. eauto using discard_row_tame, held_running.
    - cases; bool_facts; by apply cascade_row_tame.
    - cases; bool_facts; by apply cascade_row_tame.
Qed.

Lemma renew_ok now ids worker lease d : db_ok d → succeeds (renew_leases now ids worker lease d).
Proof.
  intros Hd. unfold renew_leases, RENEW. case_decide; [do 2 eexists; eauto|].
  by_tame.
  destruct (_ && _) eqn:Hp; simplify_eq. apply andb_prop in Hp as [_ Hh].
  by eapply set_lease_tame.
Qed.

Lemma abandon_ok now ids worker d : db_ok d → succeeds (abandon_leases now ids worker d).
Proof.
  intros Hd. unfold abandon_leases, ABANDON. case_decide; [do 2 eexists; eauto|].
  by_tame.
  destruct (_ && _) eqn:Hp; simplify_eq. apply andb_prop in Hp as [_ Hh].
  by eapply set_lease_tame.
Qed.

Lemma cancel_ok now ids d : db_ok d → succeeds (cancel now ids d).
Proof.
  intros Hd. unfold cancel. case_decide; [do 2 eexists; eauto|].
  by_tame.
  destruct (_ && _) eqn:Hp; simplify_eq. bool_facts. by apply cancel_row_tame.
Qed.

(** The leases [RECLAIM] takes have lapsed. *)
Lemma expired_lapsed now n d i r :
  i ∈ limit n (arrange (select (λ _ r, lapsed now r) d)) → jobs d !! i = Some r →
  lapsed now r = true.
Proof.
  intros Hi Hr. unfold limit in Hi. apply elem_of_take in Hi as (j & Hj & _).
  apply list_elem_of_lookup_2 in Hj. rewrite arrange_perm in Hj.
  apply elem_of_select in Hj as (r' & Hr' & ?). by simplify_eq.
Qed.

Lemma reclaim_ok now n d : 0 <= n → db_ok d → succeeds (reclaim_expired now n d).
Proof.
  intros Hn Hd. unfold reclaim_expired, RECLAIM. destruct (Z.ltb_spec n 0); [lia|].
  by_tame.
    destruct (decide _) as [Hi|]; simplify_eq.
    assert (state r = running) by (apply expired_lapsed with (r := r) in Hi; [|done]; by row_facts).
    destruct (attempts_left r) eqn:Hl.
    - by apply release_lease_row_tame.
    - by apply discard_row_tame.
Qed.

(** ** Completion *)

(** Completing parents closes exactly the edges it releases children by. *)
Lemma edges_from_closed parents i d d' :
  edges d' = edges d →
  (∀ p, open_parent d' p → open_parent d p) →
  (∀ p, p ∈ parents → open_parent d p ∧ ¬ open_parent d' p) →
  outstanding i d' + edges_from parents i d <= outstanding i d.
Proof.
  intros He Hmono Hp. unfold outstanding, edges_from.
  rewrite <- Nat2Z.inj_add, <- size_union.
  - apply inj_le, subseteq_size. intros [p c].
    unfold open_edges. rewrite elem_of_union, !elem_of_filter, He. naive_solver.
  - intros [p c]. unfold open_edges. rewrite !elem_of_filter. naive_solver.
Qed.

Lemma release_row_ok now n r :
  row_ok r → 0 < n → 0 <= pending_deps r - n → row_ok (release_row now n r).
Proof.
  intros Hr Hn Hpos. pose proof Hr as [Hc Hl Hf Ha Hlf Hs Hpk Hmet].
  assert (state r = available ∨ state r = cancelled) as Hst.
  { destruct (decide (state r = available)); [by left|].
    destruct (decide (state r = cancelled)); [by right|]. rewrite Hmet in Hpos by done. lia. }
  destruct Hc as (?&?&?&?&?).
  constructor; unfold release_row, row_checks, live in *; simpl; try done.
  - intros Hlive. destruct (Z.eqb_spec (pending_deps r - n) 0) as [E|E].
    + split; [done|lia].
    + rewrite Hpk by done. lia.
  - intros. naive_solver.
Qed.

(** The three things completion can do to a row. *)
Inductive completion now v worker d i r : option job_row → Prop :=
| Finished res : i ∈ completing v worker d → held worker r = true →
    joined v i = Some res → completion now v worker d i r (Some (complete_row now res r))
| Released n : ¬ (i ∈ completing v worker d) → n = edges_from (completing v worker d) i d → 0 < n →
    completion now v worker d i r (Some (release_row now n r))
| Untouched : ¬ (i ∈ completing v worker d) → edges_from (completing v worker d) i d = 0 →
    completion now v worker d i r None.

Lemma complete_cases now v worker d i r :
  jobs d !! i = Some r → completion now v worker d i r (complete_update now v worker d i r).
Proof.
  intros Hr. unfold complete_update.
  assert (i ∈ completing v worker d ↔ held worker r = true ∧ is_Some (joined v i)) as Hin.
  { unfold completing. rewrite elem_of_select. split.
    - intros (r' & ? & ?). simplify_eq. by bool_facts.
    - intros [Hh Hj]. exists r. split; [done|]. rewrite Hh. by apply bool_decide_eq_true. }
  assert (0 <= edges_from (completing v worker d) i d) by (unfold edges_from; lia).
  destruct (joined v i) as [res|] eqn:Hj; [destruct (held worker r) eqn:Hh|].
  - constructor; [|done..]. apply Hin. eauto.
  - destruct (Z.ltb_spec 0 (edges_from (completing v worker d) i d)); constructor; try done; try lia;
      rewrite Hin; naive_solver.
  - destruct (Z.ltb_spec 0 (edges_from (completing v worker d) i d)); constructor; try done; try lia;
      rewrite Hin; intros [_ []]; done.
Qed.

Lemma complete_closes now v worker d :
  let d' := update (complete_update now v worker d) d in
  (∀ p, open_parent d' p → open_parent d p) ∧
  (∀ p, p ∈ completing v worker d → open_parent d p ∧ ¬ open_parent d' p).
Proof.
  split; intros p; unfold open_parent; rewrite lookup_update.
  - destruct (jobs d !! p) as [r|] eqn:Hr; [|done]. simpl. intros Hn Hc. simplify_eq.
    destruct (complete_cases now v worker d p r Hr) as [res ? Hh%held_running|n ??|]; simpl in Hn; congruence.
  - intros Hp. pose proof Hp as (r & Hr & Hh)%elem_of_select. rewrite Hr. simpl.
    apply andb_prop in Hh as [Hh%held_running _].
    destruct (complete_cases now v worker d p r Hr); simpl; split; try done; try congruence; auto.
Qed.

Lemma complete_outstanding now v worker d i :
  outstanding i (update (complete_update now v worker d) d) +
  edges_from (completing v worker d) i d <= outstanding i d.
Proof. apply edges_from_closed; [done|apply complete_closes..]. Qed.

Lemma complete_ok now v worker d : db_ok d → succeeds (COMPLETE now v worker d).
Proof.
  intros Hd. unfold COMPLETE.
  pose proof (complete_outstanding now v worker d) as Hout.
  pose proof (complete_cases now v worker d) as Hf.
  set (f := complete_update now v worker d) in *.
  assert (∀ i, 0 <= outstanding i (update f d)) as Hpos by (intros; unfold outstanding; lia).
  assert (commit (update f d) = Ok (update f d) ∧ db_ok (update f d)) as [H ?].
  2:{ rewrite H; simpl; do 2 eexists; split; [reflexivity|done]. }
  apply update_ok; [done|..].
  - intros i r Hr. by destruct (Hf i r Hr).
  - intros i r Hr. pose proof (rows_ok _ Hd i r Hr) as Hrow. pose proof (deps_ok _ Hd i r Hr).
    specialize (Hout i). specialize (Hpos i).
    destruct (Hf i r Hr) as [res ? Hh%held_running|n ???|]; simpl.
    + by apply complete_row_ok.
    + apply release_row_ok; [done..|]. lia.
    + done.
  - apply unique_index_update; [..|apply Hd]; intros i r Hr; destruct (Hf i r Hr); try done.
    intros [?|?]; done.
  - intros i r Hr. pose proof (deps_ok _ Hd i r Hr). specialize (Hout i).
    destruct (Hf i r Hr); simpl; try lia.
    assert (0 <= edges_from (completing v worker d) i d) by (unfold edges_from; lia). lia.
  - intros k m Hm. etrans; [|by apply (keys_ok _ Hd k m)].
    apply count_mono. intros i r' Hr' Hl.
    apply lookup_update_Some in Hr' as (r & Hr & ->). exists r. split; [done|].
    eapply limited_mono; [..|exact Hl]; by destruct (Hf i r Hr).
Qed.

(** ** Leasing *)

Definition lease_update now worker lease (ids : list Z) (i : Z) (r : job_row) : option job_row :=
  if decide (i ∈ ids) then Some (lease_row now worker lease r) else None.

(** The rows a fetch picked may be leased. *)
Definition leasable (now : Z) (ids : list Z) (d : db) : Prop :=
  ∀ i, i ∈ ids → ∃ r, jobs d !! i = Some r ∧ state r = available ∧ due now (scheduled_at r) = true.

(** Each of them has an attempt left: always when every job of its queue has one to
    its name, and whenever the lease went through. *)
Definition affords (ids : list Z) (d : db) : Prop :=
  ∀ i r, i ∈ ids → jobs d !! i = Some r → attempt r < max_attempts (spec r).

Lemma commit_affords now worker lease ids d d' :
  commit (update (lease_update now worker lease ids) d) = Ok d' → affords ids d.
Proof.
  intros (-> & Hrows & _)%commit_Ok i r Hi Hr.
  assert (row_checks (lease_row now worker lease r)) as (Hc & _); [|simpl in Hc; lia].
  apply (Hrows i). apply lookup_update_Some. exists r. split; [done|]. unfold lease_update. by rewrite decide_True.
Qed.

Lemma lease_ok now worker lease ids d :
  db_ok d → leasable now ids d → affords ids d →
  (∀ k m, 0 <= m → count (limited k m) (update (lease_update now worker lease ids) d) <= m) →
  commit (update (lease_update now worker lease ids) d) =
    Ok (update (lease_update now worker lease ids) d) ∧
  db_ok (update (lease_update now worker lease ids) d).
Proof.
  intros Hd Hids Haff Hkey.
  assert (∀ i r, jobs d !! i = Some r → lease_update now worker lease ids i r = None ∨
    (lease_update now worker lease ids i r = Some (lease_row now worker lease r) ∧
     state r = available ∧ due now (scheduled_at r) = true)) as Hf.
  { intros i r Hr. unfold lease_update. case_decide as Hi; [|by left]. right.
    destruct (Hids i Hi) as (r' & ? & ? & ?). by simplify_eq. }
  assert (∀ i r, jobs d !! i = Some r → is_Some (lease_update now worker lease ids i r) →
    attempt r < max_attempts (spec r)) as Hl.
  { intros i r Hr. unfold lease_update. case_decide; [by intros _; eapply Haff|by intros []]. }
  apply update_ok; [done|..|done].
  - intros i r Hr. by destruct (Hf i r Hr) as [->|(-> & ? & ?)].
  - intros i r Hr. pose proof (rows_ok _ Hd i r Hr).
    destruct (Hf i r Hr) as [->|(E & ? & ?)]; [done|]. pose proof (Hl i r Hr) as Hleft. rewrite E in *.
    apply lease_row_ok; eauto.
  - apply unique_index_update; [..|apply Hd]; intros i r Hr; destruct (Hf i r Hr) as [->|(-> & ? & ?)];
      try done. intros _. by left.
  - intros i r Hr. etrans; [|destruct (Hf i r Hr) as [->|(-> & ? & ?)]; by apply (deps_ok _ Hd i r Hr)].
    apply open_edges_mono; [done|]. intros p c _. unfold open_parent. rewrite lookup_update.
    destruct (jobs d !! p) as [q|] eqn:Hq; [|done]. simpl. intros Hn Hc. simplify_eq.
    destruct (Hf p q Hq) as [E|(E & ? & ?)]; rewrite E in Hn; simpl in Hn; congruence.
Qed.

(** Leasing adds at most the rows it picked to those that run under a key. *)
Lemma limited_lease k m now worker lease l d :
  (∀ i r, (i, r) ∈ l → jobs d !! i = Some r) →
  count (limited k m) (update (lease_update now worker lease l.*1) d) <=
  count (limited k m) d + len (List.filter (λ ir : Z * job_row, capped k m (spec ir.2)) l).
Proof.
  intros Hl. unfold count, len. rewrite <- (length_fmap fst (List.filter _ l)), <- Nat2Z.inj_add, <- length_app.
  apply inj_le, submseteq_length, NoDup_submseteq; [apply NoDup_select|].
  intros i (r' & Hr' & Hlim)%elem_of_select. apply elem_of_app.
  apply lookup_update_Some in Hr' as (r & Hr & ->). unfold lease_update in Hlim.
  case_decide as Hi; [right|left; apply elem_of_select; eauto].
  apply list_elem_of_fmap in Hi as ([j s] & -> & Hj). simpl in *.
  apply list_elem_of_fmap. exists (j, s). split; [done|].
  apply list_elem_of_In, filter_In. split; [by apply list_elem_of_In|].
  rewrite (Hl j s) in Hr by done. simplify_eq. unfold limited in Hlim. by bool_facts.
Qed.

(** Every rank the admission gives out stays within the limit: the rows admitted
    under a key, those ranked before and those already running all count. *)
Lemma admitted_ranks k m seen l d :
  let n := List.filter (λ ir : Z * job_row, capped k m (spec ir.2)) (admitted seen l d) in
  n = [] ∨
  running_with k d + len (List.filter (λ x, bool_decide (x = Some k)) seen) + len n <= m.
Proof.
  revert seen. induction l as [|[i r] l IH]; intros seen; simpl; [by left|].
  specialize (IH (concurrency_key (spec r) :: seen)). simpl in IH.
  rewrite List.filter_app.
  set (n := List.filter _ (admitted _ l d)) in *.
  destruct (decide (concurrency_key (spec r) = Some k)) as [Hk|Hk].
  - rewrite Hk in *. rewrite bool_decide_true in IH by done. rewrite len_cons in IH.
    pose proof (len_nonneg n).
    destruct (within_limit _ r) eqn:Hw; simpl.
    + destruct (capped k m (spec r)) eqn:Hc; simpl; [|destruct IH; [by left|right; lia]].
      right. rewrite len_cons. destruct IH as [->|IH]; [|lia]. rewrite len_nil.
      unfold within_limit, capped, already in *. rewrite Hk in *.
      destruct (max_concurrency (spec r)); [|by bool_facts]. bool_facts. lia.
    + destruct IH; [by left|right; lia].
  - rewrite bool_decide_false in IH by done.
    assert (capped k m (spec r) = false) as Hc by (unfold capped; by rewrite bool_decide_false).
    destruct (within_limit _ r); simpl; [rewrite Hc|]; done.
Qed.

Lemma elem_of_limit {A} n (l : list A) x : x ∈ limit n l → x ∈ l.
Proof. unfold limit. intros (j & Hj & _)%elem_of_take. by eapply list_elem_of_lookup_2. Qed.

Lemma elem_of_admitted seen l d ir : ir ∈ admitted seen l d → ir ∈ l.
Proof.
  revert seen. induction l as [|[i r] l IH]; intros seen; simpl; [done|].
  rewrite elem_of_app. intros [H|H]; [|right; eauto].
  destruct (within_limit _ r); [|by apply elem_of_nil in H].
  apply list_elem_of_singleton in H as ->. left.
Qed.

Lemma lease_rows_eq now worker lease ids d :
  lease_rows now worker lease ids d =
  (d' ← commit (update (lease_update now worker lease ids) d);
   Ok (omap (λ i, job_from i <$> jobs d' !! i) (arrange ids), d')).
Proof. done. Qed.

(** What both fetches pick: rows that are there and runnable. *)
Definition picked_from (now : Z) (queues : list string) (l : list (Z * job_row)) (d : db) : Prop :=
  ∀ i r, (i, r) ∈ l → jobs d !! i = Some r ∧ runnable now queues r = true.

Lemma picked_leasable now queues l d : picked_from now queues l d → leasable now l.*1 d.
Proof.
  intros H i ([j r] & -> & Hi)%list_elem_of_fmap. destruct (H j r Hi) as [Hr Hrun].
  exists r. row_facts. done.
Qed.

Lemma funded_affords now queues l d :
  db_ok d → funded queues d → picked_from now queues l d → affords l.*1 d.
Proof.
  intros Hd Hf Hl i r ([j r'] & -> & Hi)%list_elem_of_fmap Hr. destruct (Hl j r' Hi) as [Hr' Hrun]. simpl in *. simplify_eq.
  row_facts. destruct (available_row r (rows_ok _ Hd j r Hr)) as (_ & _ & _ & Hleft); [done|]. by apply Hleft, (Hf j).
Qed.

Lemma unkeyed_picked now queues skip n d :
  picked_from now queues (limit n (unkeyed_candidates now queues skip d)) d.
Proof.
  intros i r Hi%elem_of_limit. unfold unkeyed_candidates in Hi.
  apply elem_of_ordered in Hi as [Hr Hp]. split; [done|]. apply andb_prop in Hp as [Hp _].
  by apply andb_prop in Hp as [Hp _].
Qed.

Lemma keyed_picked now queues n skip d :
  picked_from now queues (admitted [] (keyed_candidates now queues n skip d) d) d.
Proof.
  intros i r Hi%elem_of_admitted. apply elem_of_limit in Hi.
  apply elem_of_ordered in Hi as [Hr Hp]. split; [done|].
  do 3 apply andb_prop in Hp as [Hp _]. done.
Qed.

(** No key's count grows by leasing jobs without one. *)
Lemma unkeyed_limited now queues skip n k m d :
  List.filter (λ ir : Z * job_row, capped k m (spec ir.2))
    (limit n (unkeyed_candidates now queues skip d)) = [].
Proof.
  destruct (List.filter _ _) as [|[i r] l] eqn:E; [done|].
  assert (In (i, r) (List.filter (λ ir : Z * job_row, capped k m (spec ir.2))
    (limit n (unkeyed_candidates now queues skip d)))) as Hi by (rewrite E; by left).
  apply filter_In in Hi as [Hi Hc]. apply list_elem_of_In, elem_of_limit, elem_of_ordered in Hi as [_ Hp].
  unfold capped, keyed in *. bool_facts. simpl in *. rewrite H in *. naive_solver.
Qed.

(** What either statement leases keeps every key within its limit. *)
Lemma unkeyed_keys now queues skip n worker lease k m d :
  db_ok d → 0 <= m →
  count (limited k m) (update (lease_update now worker lease (limit n (unkeyed_candidates now queues skip d)).*1) d) <= m.
Proof.
  intros Hd Hm. etrans; [apply limited_lease; intros i r Hi; by apply unkeyed_picked in Hi as [? _]|].
  rewrite unkeyed_limited, len_nil. pose proof (keys_ok _ Hd k m). lia.
Qed.

Lemma limited_running k m d : count (limited k m) d <= running_with k d.
Proof.
  apply count_mono. intros i r Hr Hl. exists r. split; [done|].
  unfold limited, capped in Hl. bool_facts. by rewrite !bool_decide_true.
Qed.

Lemma keyed_keys now queues n skip worker lease k m d :
  db_ok d → 0 <= m →
  count (limited k m)
    (update (lease_update now worker lease (admitted [] (keyed_candidates now queues n skip d) d).*1) d) <= m.
Proof.
  intros Hd Hm. etrans; [apply limited_lease; intros i r Hi; by apply keyed_picked in Hi as [? _]|].
  destruct (admitted_ranks k m [] (keyed_candidates now queues n skip d) d) as [->|H0]; simpl in *.
  - rewrite len_nil. pose proof (keys_ok _ Hd k m). lia.
  - rewrite len_nil in H0. pose proof (limited_running k m d). lia.
Qed.

(** Both keep the invariant when they go through, and go through when every job
    of their queues has an attempt to its name. *)
Lemma unkeyed_keeps now queues n worker lease skip d l w d' :
  db_ok d → FETCH_UNKEYED now queues n worker lease skip d = Ok (l, w, d') → db_ok d'.
Proof.
  intros Hd. unfold FETCH_UNKEYED. destruct (n <? 0); [done|]. rewrite lease_rows_eq.
  destruct (commit _) as [d1|] eqn:E; simpl; [|done]. intros ?; simplify_eq. pose proof (commit_affords _ _ _ _ _ _ E).
  destruct (lease_ok now worker lease (limit n (unkeyed_candidates now queues skip d)).*1 d) as [E' ?];
    [done|by eapply picked_leasable, unkeyed_picked|done|intros; by apply unkeyed_keys|].
  rewrite E' in E. by simplify_eq.
Qed.

Lemma keyed_keeps now queues n worker lease skip d l d' :
  db_ok d → FETCH_KEYED now queues n worker lease skip d = Ok (l, d') → db_ok d'.
Proof.
  intros Hd. unfold FETCH_KEYED. destruct (n <? 0); [done|]. rewrite lease_rows_eq.
  destruct (commit _) as [d1|] eqn:E; simpl; [|done]. intros ?; simplify_eq. pose proof (commit_affords _ _ _ _ _ _ E).
  destruct (lease_ok now worker lease (admitted [] (keyed_candidates now queues n skip d) d).*1 d) as [E' ?];
    [done|by eapply picked_leasable, keyed_picked|done|intros; by apply keyed_keys|].
  rewrite E' in E. by simplify_eq.
Qed.

Lemma unkeyed_ok now queues n worker lease skip d :
  0 <= n → db_ok d → funded queues d →
  succeeds ('(l, w, d') ← FETCH_UNKEYED now queues n worker lease skip d; Ok ((l, w), d')).
Proof.
  intros Hn Hd Hf. unfold FETCH_UNKEYED. destruct (Z.ltb_spec n 0); [lia|]. rewrite lease_rows_eq.
  pose proof (unkeyed_picked now queues skip n d) as Hp. pose proof (picked_leasable _ _ _ _ Hp) as Hl.
  destruct (lease_ok now worker lease (limit n (unkeyed_candidates now queues skip d)).*1 d)
    as [-> ?]; [done|done|by eapply funded_affords|intros; by apply unkeyed_keys|simpl; do 2 eexists; split; done].
Qed.

Lemma keyed_ok now queues n worker lease skip d :
  0 <= n → db_ok d → funded queues d → succeeds (FETCH_KEYED now queues n worker lease skip d).
Proof.
  intros Hn Hd Hf. unfold FETCH_KEYED. destruct (Z.ltb_spec n 0); [lia|]. rewrite lease_rows_eq.
  pose proof (keyed_picked now queues n skip d) as Hp. pose proof (picked_leasable _ _ _ _ Hp) as Hl.
  destruct (lease_ok now worker lease (admitted [] (keyed_candidates now queues n skip d) d).*1 d)
    as [-> ?]; [done|done|by eapply funded_affords|intros; by apply keyed_keys|simpl; do 2 eexists; split; done].
Qed.

(** ** Rows that appear, return and go *)

Lemma requeue_ok now ids q d l d' :
  db_ok d → retry_discarded now ids q d = Ok (l, d') → db_ok d'.
Proof.
  intros Hd. unfold retry_discarded.
  match goal with |- context [commit (update ?f _)] => set (f' := f) end.
  destruct (commit (update f' d)) as [d1|] eqn:E; simpl; [|done]. intros ?; simplify_eq.
  apply commit_Ok in E as (-> & _ & Hu).
  assert (∀ i r, jobs d !! i = Some r → f' i r = None ∨
            (f' i r = Some (requeue_row now r) ∧ state r = discarded)) as Hf.
  { intros i r _. unfold f'. destruct (_ && _) eqn:E; [|by left]. bool_facts. auto. }
  apply update_ok; [done|..].
  - intros i r Hr. by destruct (Hf i r Hr) as [->|[-> ?]].
  - intros i r Hr. pose proof (rows_ok _ Hd i r Hr).
    destruct (Hf i r Hr) as [->|[-> ?]]; simpl; [done|]. by apply requeue_row_ok.
  - done.
  - intros i r Hr. etrans; [|destruct (Hf i r Hr) as [->|[-> ?]]; by apply (deps_ok _ Hd i r Hr)].
    apply open_edges_mono; [done|]. intros p c _. unfold open_parent. rewrite lookup_update.
    destruct (jobs d !! p) as [r1|] eqn:Hq; [|done]. simpl. intros Hn Hc. simplify_eq.
    destruct (Hf p r1 Hq) as [E|[E ?]]; rewrite E in Hn; simpl in Hn; congruence.
  - intros k m Hm. etrans; [|by apply (keys_ok _ Hd k m)].
    apply count_mono. intros i r' Hr' Hl.
    apply lookup_update_Some in Hr' as (r & Hr & ->). exists r. split; [done|].
    eapply limited_mono; [..|exact Hl]; by destruct (Hf i r Hr) as [->|[-> ?]].
Qed.

Lemma fresh_id d : db_ok d → jobs d !! next_job d = None.
Proof.
  intros Hd. destruct (jobs d !! next_job d) eqn:E; [|done].
  assert (next_job d < next_job d) by (apply (ids_ok _ Hd); eauto). lia.
Qed.

Lemma insert_ok r d d' :
  db_ok d → row_ok r → state r = available → commit (insert_job r d) = Ok d' →
  d' = insert_job r d ∧ db_ok d'.
Proof.
  intros Hd Hr Ha H. apply commit_Ok in H as (-> & _ & Hu). split; [done|].
  pose proof (fresh_id d Hd) as Hfresh.
  assert (∀ i, is_Some (jobs d !! i) → i ≠ next_job d) as Hold.
  { intros i Hi ->. rewrite Hfresh in Hi. by destruct Hi. }
  assert (∀ i, is_Some (jobs d !! i) → jobs (insert_job r d) !! i = jobs d !! i) as Hsame.
  { intros i Hi. simpl. rewrite lookup_insert_ne; [done|]. intros <-. by apply (Hold (next_job d)). }
  assert (∀ i, outstanding i (insert_job r d) <= outstanding i d) as Hout.
  { intros i. apply open_edges_mono; [done|]. intros p c Hpc%elem_of_dom. unfold open_parent.
    destruct (edges_ok _ Hd p c Hpc) as [Hp _]. by rewrite Hsame. }
  constructor; simpl.
  - apply map_Forall_insert_2; [done|apply Hd].
  - done.
  - intros i [->|[? Hi]]%lookup_insert_is_Some; [lia|]. apply (ids_ok _ Hd) in Hi. lia.
  - intros p c Hpc. destruct (edges_ok _ Hd p c Hpc).
    split; apply lookup_insert_is_Some'; auto.
  - intros p c w s Hw Hs. destruct (edges_ok _ Hd p c) as [_ Hc]; [by eexists|].
    rewrite lookup_insert_ne in Hs by (apply not_eq_sym; auto). by eapply (members_ok _ Hd).
  - intros i s [[<- <-]|[Hne Hs]]%lookup_insert_Some.
    + etrans; [|apply (ok_checks _ Hr)]. etrans; [apply Hout|].
      unfold outstanding. assert (open_edges (next_job d) d = ∅) as ->; [|done].
      apply set_eq. intros [p c]. unfold open_edges. rewrite elem_of_filter, elem_of_dom.
      split; [|set_solver]. intros [[Hc _] He]. simpl in Hc. subst c.
      destruct (edges_ok _ Hd _ _ He) as [_ Hc]. by apply Hold in Hc.
    + etrans; [apply Hout|]. by apply (deps_ok _ Hd).
  - intros i name Hi. apply lookup_insert_is_Some'. right. by eapply (steps_ok _ Hd).
  - intros k m Hm. etrans; [|by apply (keys_ok _ Hd k m)]. apply count_mono.
    intros i s Hs Hl. simpl in Hs. apply lookup_insert_Some in Hs as [[<- <-]|[Hne Hs]]; [|eauto].
    unfold limited in Hl. rewrite Ha in Hl. done.
Qed.

(** What the client's inserts leave: a row that waits, with no attempt spent. *)
Definition fresh_row (r : job_row) : Prop :=
  row_checks r ∧ state r = available ∧ attempt r = 0 ∧
  locked_by r = None ∧ finalized_at r = None ∧ (scheduled_at r = Infinity ↔ 0 < pending_deps r).

Lemma fresh_row_ok r : fresh_row r → row_ok r.
Proof.
  intros (Hc & Hs & Ha & Hl & Hf & Hp). destruct Hc as (?&?&?&?&?).
  constructor; unfold row_checks, live; try lia; try done; try congruence.
  - rewrite Hs, Hl. by split; [|intros []].
  - rewrite Hs. split; auto.
Qed.

(** ** Deletion *)

Lemma delete_lookup ids d i r :
  jobs (delete_jobs ids d) !! i = Some r ↔ jobs d !! i = Some r ∧ ¬ (i ∈ ids).
Proof. unfold delete_jobs; simpl. by rewrite map_lookup_filter_Some. Qed.

Lemma delete_edges ids d p c w :
  edges (delete_jobs ids d) !! (p, c) = Some w ↔
  edges d !! (p, c) = Some w ∧ ¬ (p ∈ ids) ∧ ¬ (c ∈ ids).
Proof. unfold delete_jobs; simpl. by rewrite map_lookup_filter_Some. Qed.

Lemma delete_ok ids d : db_ok d → db_ok (delete_jobs ids d).
Proof.
  intros Hd.
  assert (∀ i, is_Some (jobs d !! i) → ¬ (i ∈ ids) → is_Some (jobs (delete_jobs ids d) !! i)) as Hkeep.
  { intros i [r Hr] Hi. exists r. by apply delete_lookup. }
  constructor.
  - intros i r [Hr _]%delete_lookup. by apply (rows_ok _ Hd i).
  - intros i r [Hr _]%delete_lookup j s [Hs _]%delete_lookup. by apply (index_ok _ Hd i r Hr j s).
  - intros i [r [Hr _]%delete_lookup]. apply (ids_ok _ Hd). eauto.
  - intros p c [w (Hw & Hp & Hc)%delete_edges]. destruct (edges_ok _ Hd p c); eauto.
  - intros p c w r (Hw & _)%delete_edges [Hr _]%delete_lookup. by eapply (members_ok _ Hd).
  - intros i r [Hr _]%delete_lookup. etrans; [|by apply (deps_ok _ Hd)].
    apply open_edges_mono.
    + intros [p c]. rewrite !elem_of_dom. intros [w (Hw & _)%delete_edges]. eauto.
    + intros p c [w (Hw & Hp & _)%delete_edges]%elem_of_dom. unfold open_parent.
      destruct (edges_ok _ Hd p c) as [[r' Hr'] _]; [by eexists|].
      destruct (Hkeep p) as [r'' Hr'']; [eauto..|]. rewrite Hr''.
      apply delete_lookup in Hr'' as [-> _]. done.
  - intros i name [x Hx]. unfold delete_jobs in Hx; simpl in Hx.
    apply map_lookup_filter_Some in Hx as [Hx Hi]. simpl in Hi.
    apply Hkeep; [|done]. eapply (steps_ok _ Hd). eauto.
  - intros k m Hm. etrans; [|by apply (keys_ok _ Hd k m)]. apply count_mono.
    intros i r [Hr _]%delete_lookup Hl. eauto.
Qed.

(** ** The tables around jobs *)

Lemma set_crons_ok v d : db_ok d → db_ok (set_crons v d).
Proof. intros []. by constructor. Qed.

Lemma new_workflow_ok d : db_ok d → db_ok (new_workflow d).
Proof. intros []. by constructor. Qed.

Lemma record_step_ok now job name res d d' :
  db_ok d → record_step now job name res d = Ok d' → db_ok d'.
Proof.
  intros Hd. unfold record_step, RECORD_STEP. destruct (steps d !! (job, name)); [by intros; simplify_eq|].
  case_decide as Hj; intros ?; simplify_eq. destruct Hd. constructor; try done.
  intros i n. simpl. intros [Hi|[_ Hi]]%lookup_insert_is_Some; [by simplify_eq|eauto].
Qed.

Lemma new_row_fresh now j :
  row_checks (new_row now j) → fresh_row (new_row now j).
Proof. intros Hc. split_and!; done. Qed.

Lemma enqueue_ok now j d i d' :
  db_ok d → enqueue now j d = Ok (i, d') →
  db_ok d' ∧ i = next_job d ∧ d' = insert_job (new_row now j) d.
Proof.
  intros Hd. unfold enqueue. destruct (commit _) as [d1|] eqn:E; simpl; [|done].
  intros ?; simplify_eq. pose proof E as (-> & Hrows & _)%commit_Ok.
  apply insert_ok in E as [_ Hok]; auto.
  apply fresh_row_ok, new_row_fresh. apply (Hrows (next_job d)). simpl. by rewrite lookup_insert_eq.
Qed.

Lemma fresh_unique r d :
  db_ok d → unique_key (spec r) = None → row_checks r → commit (insert_job r d) = Ok (insert_job r d).
Proof.
  intros Hd Hk Hc. apply commit_ok; simpl.
  - apply map_Forall_insert_2; [done|]. intros i s Hs. apply (rows_ok _ Hd i s Hs).
  - intros i s Hs j t Ht (Hne & Hcl). destruct Hcl as (L1 & L2 & K1 & K2).
    apply lookup_insert_Some in Hs as [[<- <-]|[_ Hs]]; [rewrite Hk in K1; by destruct K1|].
    apply lookup_insert_Some in Ht as [[<- <-]|[_ Ht]]; [rewrite K2, Hk in K1; by destruct K1|].
    by apply (index_ok _ Hd i s Hs j t Ht).
Qed.

Lemma fire_ok now name next d : db_ok d → succeeds (fire_cron now name next d).
Proof.
  intros Hd. unfold fire_cron, FIRE_CRON. destruct (crons d !! name) as [c|]; [|do 2 eexists; eauto].
  destruct (cron_due now c); [|do 2 eexists; eauto].
  set (d1 := set_crons _ d). assert (db_ok d1) as Hd1 by by apply set_crons_ok.
  assert (row_checks (fired_row now c)) as Hc by (unfold row_checks; simpl; split_and!; by try lia).
  rewrite fresh_unique by done. simpl. do 2 eexists. split; [done|].
  eapply insert_ok; [done|..|by apply fresh_unique]; [|done].
  by apply fresh_row_ok, new_row_fresh.
Qed.

Lemma prune_workflows_ok d : db_ok d → db_ok (prune_workflows d).2.
Proof.
  intros Hd. unfold prune_workflows. simpl.
  set (dead := filter _ _). set (d' := Build_db _ _ _ _ _ _ _).
  assert (∀ e w, edges d' !! e = Some w → edges d !! e = Some w) as He.
  { intros e w Hw. unfold d' in Hw; simpl in Hw. by apply map_lookup_filter_Some in Hw as [Hw _]. }
  destruct Hd. constructor; try done.
  - intros p c [w Hw]. eauto.
  - intros p c w r Hw Hr. eauto.
  - intros i r Hr. etrans; [|by apply deps_ok0]. apply open_edges_mono; [|done].
    intros e. rewrite !elem_of_dom. intros [w Hw]. eauto.
Qed.

(** ** Inserting a graph *)

Lemma node_row_fresh now w j pending :
  row_checks (node_row now w j pending) → fresh_row (node_row now w j pending).
Proof.
  intros Hc. split_and!; try done. simpl.
  destruct (Z.ltb_spec 0 pending); split; try done; lia.
Qed.

(** The nodes take consecutive ids and everything older stays. *)
Lemma insert_nodes_ok now w l d ids d' :
  db_ok d → insert_nodes now w l d = Ok (ids, d') →
  db_ok d' ∧ edges d' = edges d ∧ length ids = length l ∧
  (∀ c i, ids !! c = Some i → i = next_job d + Z.of_nat c) ∧
  (∀ i, is_Some (jobs d !! i) → jobs d' !! i = jobs d !! i) ∧
  (∀ c i j pending, ids !! c = Some i → l !! c = Some (j, pending) →
     jobs d' !! i = Some (node_row now w j pending)) ∧
  (∀ i r, jobs d' !! i = Some r → jobs d !! i = Some r ∨ ∃ c, ids !! c = Some i).
Proof.
  revert d ids d'. induction l as [|[j pending] l IH]; intros d ids d' Hd; simpl.
  { intros ?; simplify_eq. split_and!; try done; eauto. }
  destruct (commit _) as [d1|] eqn:E; simpl; [|done].
  destruct (insert_nodes now w l d1) as [[ids' d2]|] eqn:E'; simpl; [|done]. intros ?; simplify_eq.
  pose proof E as (_ & Hrows & _)%commit_Ok.
  pose proof (fresh_id d Hd) as Hfresh.
  apply insert_ok in E as [-> Hd1]; [|done| |done].
  2:{ apply fresh_row_ok, node_row_fresh. apply (Hrows (next_job d)). simpl.
      by rewrite lookup_insert_eq. }
  destruct (IH _ _ _ Hd1 E') as (Hd' & He & Hlen & Hids & Hold & Hnew & Hall).
  assert (jobs d' !! next_job d = Some (node_row now w j pending)) as Hhead.
  { rewrite Hold; simpl; rewrite lookup_insert_eq; eauto. }
  split_and!; [done|done|simpl; congruence|..].
  - intros [|c] i Hi; simpl in Hi; simplify_eq; [lia|]. rewrite (Hids _ _ Hi). simpl. lia.
  - intros i Hi. assert (i ≠ next_job d) by (intros ->; rewrite Hfresh in Hi; by destruct Hi).
    rewrite Hold; simpl; by rewrite lookup_insert_ne by done.
  - intros [|c] i j' p' Hi Hj'; simpl in *; simplify_eq; [done|eauto].
  - intros i r Hr. destruct (Hall i r Hr) as [Hi|[c Hc]]; [|right; by exists (S c)].
    simpl in Hi. apply lookup_insert_Some in Hi as [[<- _]|[_ Hi]]; [right; by exists 0%nat|by left].
Qed.

Lemma insert_edges_spec w ids l m m' e x :
  insert_edges w ids l m = Some m' → m' !! e = Some x →
  m !! e = Some x ∨
  (x = w ∧ ∃ p c, (p, c) ∈ l ∧ ids !! p = Some e.1 ∧ ids !! c = Some e.2).
Proof.
  revert m. induction l as [|[p c] l IH]; intros m; simpl.
  { intros ?; simplify_eq. by left. }
  destruct (ids !! p) as [parent|] eqn:Hp; simpl; [|done].
  destruct (ids !! c) as [child|] eqn:Hc; simpl; [|done]. intros H Hx.
  destruct (IH _ H Hx) as [Hm|(-> & p' & c' & Hin & ? & ?)].
  - apply lookup_insert_Some in Hm as [[<- <-]|[_ Hm]]; [|by left].
    right. split; [done|]. exists p, c. split_and!; [left|done..].
  - right. split; [done|]. exists p', c'. split_and!; [by right|done..].
Qed.

Lemma dependencies_lookup f c j :
  nodes f !! c = Some j →
  dependencies f !! c = Some (Z.of_nat (size (filter (λ e : nat * nat, e.2 = c) (links f)))).
Proof. intros H. unfold dependencies. by rewrite list_lookup_imap, H. Qed.

(** The edges a graph brings to a node are no more than it counted. *)
Lemma graph_outstanding f w ids m d1 c i :
  insert_edges w ids (elements (links f)) (edges d1) = Some m →
  NoDup ids → ids !! c = Some i → (∀ p, edges d1 !! (p, i) = None) →
  outstanding i (set_edges m d1) <=
  Z.of_nat (size (filter (λ e : nat * nat, e.2 = c) (links f))).
Proof.
  intros Hm Hnd Hc Hnone. unfold outstanding. apply inj_le.
  etrans; [|apply (size_set_map_le (λ e : nat * nat, (ids !!! e.1, ids !!! e.2)))].
  apply subseteq_size. intros [p c']. unfold open_edges; simpl.
  rewrite elem_of_filter, elem_of_dom. intros [[Hci _] [x Hx]]. simpl in Hci. subst c'.
  destruct (insert_edges_spec _ _ _ _ _ _ _ Hm Hx) as [H|(_ & p' & c' & Hin & Hp & Hc')].
  { by rewrite Hnone in H. }
  simpl in *. assert (c' = c) as -> by by eapply NoDup_lookup.
  apply elem_of_map. exists (p', c). split.
  - simpl. by rewrite (list_lookup_total_correct _ _ _ Hp), (list_lookup_total_correct _ _ _ Hc').
  - apply elem_of_filter. split; [done|]. by apply elem_of_elements.
Qed.

Lemma workflow_ok now f d ids d' :
  db_ok d → enqueue_workflow now f d = Ok (ids, d') → db_ok d'.
Proof.
  intros Hd. unfold enqueue_workflow. case_decide; [by intros; simplify_eq|]. case_decide; [done|].
  destruct (insert_nodes _ _ _ _) as [[ids' d1]|] eqn:E; simpl; [|done].
  destruct (insert_edges _ _ _ _) as [m|] eqn:Em; [|done]. intros ?; simplify_eq.
  pose proof (new_workflow_ok _ Hd) as Hw.
  apply insert_nodes_ok in E as (Hd1 & He & Hlen & Hids & Hold & Hnew & Hall); [|done].
  simpl in *. rewrite length_zip in Hlen.
  assert (length (dependencies f) = length (nodes f)) as Hdeps
    by (unfold dependencies; by rewrite length_imap).
  assert (NoDup ids) as Hnd.
  { apply NoDup_alt. intros a b i Ha Hb. apply Hids in Ha, Hb. lia. }
  assert (∀ c i, ids !! c = Some i → jobs d !! i = None) as Hfresh.
  { intros c i Hc%Hids. destruct (jobs d !! i) eqn:Ei; [|done].
    assert (i < next_job d) by (apply (ids_ok _ Hd); eauto). lia. }
  assert (∀ c i, ids !! c = Some i → ∃ j, nodes f !! c = Some j ∧ jobs d1 !! i =
     Some (node_row now (next_workflow d) j
       (Z.of_nat (size (filter (λ e : nat * nat, e.2 = c) (links f)))))) as Hnode.
  { intros c i Hc. destruct (lookup_lt_is_Some_2 (nodes f) c) as [j Hj].
    { apply lookup_lt_Some in Hc. lia. }
    exists j. split; [done|]. eapply Hnew; [done|]. by rewrite lookup_zip_with, Hj, (dependencies_lookup _ _ _ Hj). }
  rewrite He in Em.
  assert (∀ e x, m !! e = Some x → edges d !! e = Some x ∨ (x = next_workflow d ∧
    ∃ p c, ids !! p = Some e.1 ∧ ids !! c = Some e.2)) as Hm.
  { intros e x Hx. destruct (insert_edges_spec _ _ _ _ _ _ _ Em Hx); naive_solver. }
  pose proof Hd1 as []. constructor; simpl; try done.
  - intros p c [x Hx]. destruct (Hm _ _ Hx) as [H1|(_ & p' & c' & Hp & Hc)]; simpl in *.
    + apply edges_ok0. rewrite He. eauto.
    + destruct (Hnode _ _ Hp) as (? & _ & ->), (Hnode _ _ Hc) as (? & _ & ->). eauto.
  - intros p c w r Hx Hr. destruct (Hm _ _ Hx) as [H1|(-> & p' & c' & Hp & Hc)]; simpl in *.
    + eapply members_ok0; [by rewrite He|done].
    + destruct (Hnode _ _ Hc) as (j & _ & Hj). by simplify_eq.
  - intros i r Hr. destruct (Hall i r Hr) as [Hi|[c Hc]].
    + etrans; [|by apply deps_ok0]. unfold outstanding. apply inj_le, subseteq_size.
      intros [p c]. unfold open_edges; simpl. rewrite !elem_of_filter, !elem_of_dom, He.
      intros [[Hci Ho] [x Hx]]. simpl in *. subst c. split; [done|].
      destruct (Hm _ _ Hx) as [H1|(_ & p' & c' & _ & Hc')]; [eauto|]. simpl in Hc'.
      rewrite (Hfresh _ _ Hc') in Hi. done.
    + destruct (Hnode _ _ Hc) as (j & _ & Hj). simplify_eq. simpl.
      eapply graph_outstanding; [by rewrite He|done..|]. intros p. rewrite He.
      destruct (edges d !! (p, i)) eqn:Ee; [|done].
      destruct (edges_ok _ Hd p i) as [_ H1]; [eauto|]. rewrite (Hfresh _ _ Hc) in H1. by destruct H1.
Qed.

End Planned.
End Steps.
