(* ===== verification/PgReach.v ===== *)
(** * Reachable databases

    The system as a transition relation: any session may run any statement of
    the Postgres backend at any time, with any worker, clock and planner. What
    holds of every reachable database, and what one step can do to a job. *)

From S2P Require Import Prelude.
From S2P Require Import Utf8.
From S2P Require Import PgTable.
From S2P Require Import PgJobs.
From S2P Require Import PgCron.
From S2P Require Import PgRetention.
From S2P Require Import PgWorkflow.
From S2P Require Import PgInvariant.
From S2P Require Import PgSteps.
Import Utf8.
Import Table.
Import Jobs.
Import Cron.
Import Retention.
Import Workflow.
Import Invariant.
Import Steps.

Module Reach.

Lemma update_keeps f d d' i r :
  f i r = None → commit (update f d) = Ok d' → jobs d !! i = Some r → jobs d' !! i = Some r.
Proof. intros Hf (-> & _)%commit_Ok Hr. apply lookup_update_Some. exists r. by rewrite Hf. Qed.

(** Shows that a statement made of one in-place update leaves a row alone. *)
Ltac by_keeping :=
  destruct (commit _) as [?|] eqn:?; simplify_eq/=; eapply update_keeps; [|eassumption..]; cbv beta.

Section Planned.
Context {Pl : Planner}.

(** ** Steps *)

(** The Rust and SQL types of what is inserted: names are UTF-8 text, priority
    and attempts are [i16]. *)
Definition typed_spec (s : job_spec) : bool :=
  bool_decide (utf8 (queue s)) && bool_decide (utf8 (task s)) &&
  bool_decide (in_signed 16 (priority s)) && bool_decide (in_signed 16 (max_attempts s)).

Definition typed_job (j : NewJob) : bool := typed_spec (spec (new_row 0 j)).

Definition typed_entry (e : CronEntry) : bool :=
  bool_decide (utf8 (ce_name e)) && bool_decide (utf8 (ce_queue e)) && bool_decide (utf8 (ce_task e)).

Inductive step (d : db) : db → Prop :=
| by_enqueue now j i d' :
    enqueue now j d = Ok (i, d') → typed_job j = true → step d d'
| by_client r d' :
    fresh_row r → commit (insert_job r d) = Ok d' → typed_spec (spec r) = true → step d d'
| by_workflow now f ids d' :
    enqueue_workflow now f d = Ok (ids, d') → forallb typed_job (nodes f) = true → step d d'
| by_unkeyed now queues n worker lease skip l w d' :
    FETCH_UNKEYED now queues n worker lease skip d = Ok (l, w, d') → step d d'
| by_keyed now queues n worker lease skip l d' :
    FETCH_KEYED now queues n worker lease skip d = Ok (l, d') → step d d'
| by_complete now ids results worker n d' :
    complete now ids results worker d = Ok (n, d') → step d d'
| by_retry now random ids errs worker base cap n d' :
    retry_many now random ids errs worker base cap d = Ok (n, d') → step d d'
| by_discard now ids errs worker n d' :
    discard_many now ids errs worker d = Ok (n, d') → step d d'
| by_renew now ids worker lease n d' :
    renew_leases now ids worker lease d = Ok (n, d') → step d d'
| by_abandon now ids worker n d' :
    abandon_leases now ids worker d = Ok (n, d') → step d d'
| by_reclaim now n c d' : reclaim_expired now n d = Ok (c, d') → step d d'
| by_cancel now ids n d' : cancel now ids d = Ok (n, d') → step d d'
| by_requeue now ids q l d' : retry_discarded now ids q d = Ok (l, d') → step d d'
| by_purge q : step d (purge_discarded q d).2
| by_prune_completed now skip older q n c d' :
    prune_completed now skip older q n d = Ok (c, d') → step d d'
| by_prune_discarded now skip older q n c d' :
    prune_discarded now skip older q n d = Ok (c, d') → step d d'
| by_prune_workflows : step d (prune_workflows d).2
| by_upsert now e next : typed_entry e = true → step d (upsert_cron now e next d)
| by_fire now name next i d' : fire_cron now name next d = Ok (i, d') → step d d'
| by_record now job name res d' : record_step now job name res d = Ok d' → bool_decide (utf8 name) = true → step d d'.

Definition reachable (d : db) : Prop := rtc step empty d.

(** ** The invariant *)

Lemma empty_ok : db_ok empty.
Proof.
  constructor; try apply map_Forall_empty; try (by intros k m Hm);
    intros; repeat match goal with H : is_Some _ |- _ => destruct H end; by simplify_map_eq.
Qed.

Lemma prune_ok now skip states older q n d c d' :
  db_ok d → prune_states now skip states older q n d = Ok (c, d') → db_ok d'.
Proof.
  intros Hd. unfold prune_states. destruct (n <? 0); [done|]. intros ?; simplify_eq.
  by apply delete_ok.
Qed.

Lemma negative_limit n {A} (x : Prelude.result db_error A) a :
  (if n <? 0 then Err NegativeLimit else x) = Ok a → 0 <= n ∧ x = Ok a.
Proof. destruct (Z.ltb_spec n 0); [done|]. auto. Qed.

Lemma retry_keeps now random input base cap worker d s e d' :
  db_ok d → RETRY_MANY now random input base cap worker d = Ok (s, e, d') → db_ok d'.
Proof.
  intros Hd. unfold RETRY_MANY. destruct (existsb _ _); [done|].
  match goal with |- context [commit (update ?f d)] =>
    assert (commit (update f d) = Ok (update f d) ∧ db_ok (update f d)) as [-> ?] end.
  { apply tame_update_ok; [done|]. intros i r r' Hr Hf.
    destruct (joined input i); [|done]. destruct (held worker r) eqn:Hh; [|done].
    destruct (attempts_left r) eqn:Hl; simplify_eq; eauto using retry_row_tame, discard_row_tame, held_running. }
  simpl. intros ?. by simplify_eq.
Qed.

Lemma step_ok d d' : db_ok d → step d d' → db_ok d'.
Proof.
  intros Hd []; 
    try solve [eapply succeeds_ok; [|eassumption]; eauto using renew_ok, abandon_ok, cancel_ok, fire_ok].
  - by eapply enqueue_ok in H as (? & _).
  - eapply insert_ok in H0 as [_ ?]; [done|done|by apply fresh_row_ok|by destruct H as (_ & ? & _)].
  - by eapply workflow_ok.
  - by eapply unkeyed_keeps.
  - by eapply keyed_keeps.
  - unfold complete in H. case_decide; [by simplify_eq|]. eapply succeeds_ok; [by eapply complete_ok|done].
  - unfold retry_many in H. case_decide; [by simplify_eq|].
    destruct (RETRY_MANY _ _ _ _ _ _ _) as [[[s e] d1]|] eqn:E; simplify_eq/=. by eapply retry_keeps.
  - unfold discard_many in H. case_decide; [by simplify_eq|].
    pose proof (discard_ok now (unnest ids (Some <$> errs)) worker d Hd) as (x & d1 & E & ?).
    destruct (DISCARD_MANY _ _ _ _) as [[[s c] d2]|]; by simplify_eq/=.
  - pose proof H as [Hn _]%negative_limit. eapply succeeds_ok; [by eapply reclaim_ok|done].
  - by eapply requeue_ok.
  - by apply delete_ok.
  - by eapply prune_ok.
  - by eapply prune_ok.
  - by apply prune_workflows_ok.
  - by apply set_crons_ok.
  - by eapply record_step_ok.
Qed.

Lemma reachable_ok d : reachable d → db_ok d.
Proof. intros H. eapply (rtc_ind_r (λ x, db_ok x)); [exact empty_ok| |exact H]. eauto using step_ok. Qed.

(** ** What a step does to a job *)

(** The moves of a job's life. Whatever the move, the columns an insert set and
    the errors recorded so far are kept. *)
Inductive move (r r' : job_row) : Prop :=
| stays : state r' = state r → attempt r' = attempt r → locked_by r' = locked_by r → move r r'
| leased : state r = available → state r' = running → attempt r' = attempt r + 1 →
    is_Some (locked_by r') → scheduled_at r ≠ Infinity → move r r'
| settled : state r = running → state r' ∈ [completed; available; discarded] →
    attempt r' = attempt r → locked_by r' = None → move r r'
| called_off : state r = available → state r' = cancelled → attempt r' = attempt r → move r r'
| requeued : state r = discarded → state r' = available → attempt r' = 0 → move r r'.

Definition evolves (r r' : job_row) : Prop :=
  spec r' = spec r ∧ errors r `prefix_of` errors r' ∧ move r r'.

Lemma evolves_refl r : evolves r r.
Proof. split_and!; [done|done|by apply stays]. Qed.

Lemma update_evolves f d d' i r :
  (∀ r', f i r = Some r' → evolves r r') →
  commit (update f d) = Ok d' → jobs d !! i = Some r → ∃ r', jobs d' !! i = Some r' ∧ evolves r r'.
Proof.
  intros Hf (-> & _)%commit_Ok Hr. exists (default r (f i r)).
  split; [apply lookup_update_Some; eauto|]. destruct (f i r) eqn:E; [by apply Hf|apply evolves_refl].
Qed.

Lemma retry_row_evolves now base cap u e r :
  state r = running → evolves r (retry_row now base cap u e r).
Proof. intros H. split_and!; [done|by apply prefix_app_r|]. apply settled; try done. set_solver. Qed.

Lemma discard_row_evolves now e r : state r = running → evolves r (discard_row now e r).
Proof. intros H. split_and!; [done|by apply prefix_app_r|]. apply settled; try done. set_solver. Qed.

Lemma cascade_row_evolves now r : state r = available → evolves r (cascade_row now r).
Proof. intros H. split_and!; [done..|]. by apply called_off. Qed.

(** A live job stays; one that is gone had finished. *)
Definition carries_on (d' : db) (i : Z) (r : job_row) : Prop :=
  (∃ r', jobs d' !! i = Some r' ∧ evolves r r') ∨ (jobs d' !! i = None ∧ ¬ live r).

Lemma same_carries d d' i r :
  jobs d' !! i = jobs d !! i → jobs d !! i = Some r → carries_on d' i r.
Proof. intros E H. left. exists r. rewrite E. split; [done|apply evolves_refl]. Qed.

Lemma delete_carries ids d i r :
  (∀ j s, j ∈ ids → jobs d !! j = Some s → ¬ live s) →
  jobs d !! i = Some r → carries_on (delete_jobs ids d) i r.
Proof.
  intros Hids Hr. destruct (decide (i ∈ ids)) as [Hi|Hi].
  - right. split; [|eauto]. apply eq_None_not_Some. intros [s Hs].
    apply delete_lookup in Hs as [_ ?]. done.
  - left. exists r. split; [by apply delete_lookup|apply evolves_refl].
Qed.

Lemma lease_evolves now worker lease ids d d' i r l :
  db_ok d → leasable now ids d → jobs d !! i = Some r →
  lease_rows now worker lease ids d = Ok (l, d') → carries_on d' i r.
Proof.
  intros Hd Hids Hr. rewrite lease_rows_eq. destruct (commit _) as [d1|] eqn:E; simpl; [|done].
  intros ?; simplify_eq. left. eapply update_evolves; [|done..]. intros r'. unfold lease_update.
  case_decide as Hi; [|done]. intros ?; simplify_eq. destruct (Hids i Hi) as (r1 & ? & ? & ?); simplify_eq.
  split_and!; [done..|]. apply leased; try done. by intros E1; rewrite E1 in *.
Qed.

(** What pruning and purging delete had finished. *)
Lemma pruned_finished now skip states older q n d c d' :
  (∀ s, s ∈ states → s ≠ available ∧ s ≠ running) →
  prune_states now skip states older q n d = Ok (c, d') →
  ∃ ids, d' = delete_jobs ids d ∧ ∀ j r, j ∈ ids → jobs d !! j = Some r → ¬ live r.
Proof.
  intros Hst. unfold prune_states. destruct (n <? 0); [done|]. intros ?; simplify_eq.
  eexists. split; [done|]. intros j s Hj Hs. unfold victims in Hj.
  apply list_elem_of_fmap in Hj as ([j' s'] & -> & Hj). apply elem_of_limit in Hj.
  rewrite merge_sort_Permutation, list_elem_of_In, filter_In, <- list_elem_of_In in Hj.
  destruct Hj as [Hj%elem_of_map_to_list Hp]. simpl in *. simplify_eq.
  unfold prunable in Hp. bool_facts. edestruct Hst; [done|]. by intros [?|?].
Qed.

Lemma purged_finished q d :
  ∃ ids, (purge_discarded q d).2 = delete_jobs ids d ∧ ∀ j r, j ∈ ids → jobs d !! j = Some r → ¬ live r.
Proof.
  eexists. split; [done|]. intros j s (s' & Hs' & Hp)%elem_of_select Hj [?|?]; simplify_eq; bool_facts; congruence.
Qed.

Lemma prune_carries now skip states older q n d c d' i r :
  (∀ s, s ∈ states → s ≠ available ∧ s ≠ running) →
  prune_states now skip states older q n d = Ok (c, d') → jobs d !! i = Some r → carries_on d' i r.
Proof. intros Hst (ids & -> & Hids)%pruned_finished; [|done]. by apply delete_carries. Qed.

Lemma insert_carries r0 d d' i r :
  db_ok d → commit (insert_job r0 d) = Ok d' → jobs d !! i = Some r → carries_on d' i r.
Proof.
  intros Hd (-> & _)%commit_Ok Hr. eapply same_carries; [|done]. simpl.
  apply lookup_insert_ne. intros <-. by rewrite fresh_id in Hr.
Qed.

Lemma workflow_keeps now f d ids d' i r :
  db_ok d → enqueue_workflow now f d = Ok (ids, d') → jobs d !! i = Some r → jobs d' !! i = Some r.
Proof.
  intros Hd. unfold enqueue_workflow. case_decide; [intros ?; by simplify_eq|]. case_decide; [done|].
  destruct (insert_nodes _ _ _ _) as [[ids' d1]|] eqn:E; simpl; [|done].
  destruct (insert_edges _ _ _ _) as [m|] eqn:Em; [|done]. intros ? Hr; simplify_eq.
  apply insert_nodes_ok in E as (_ & _ & _ & _ & Hold & _); [|by apply new_workflow_ok].
  simpl. rewrite Hold; [done|]. simpl. eauto.
Qed.

Lemma workflow_carries now f d ids d' i r :
  db_ok d → enqueue_workflow now f d = Ok (ids, d') → jobs d !! i = Some r → carries_on d' i r.
Proof. intros ?? Hr. eapply same_carries; [|done]. rewrite Hr. by eapply workflow_keeps. Qed.

(** Settles a statement made of one in-place update. *)
Ltac by_update :=
  destruct (commit _) as [?|] eqn:?; simplify_eq/=; left; eapply update_evolves; [|eassumption..];
  match goal with H : commit _ = _ |- _ => clear H end;
  cbv beta; intros; cases; bool_facts.

Lemma step_carries d d' i r :
  db_ok d → step d d' → jobs d !! i = Some r → carries_on d' i r.
Proof.
  intros Hd Hs Hr. destruct Hs.
  - unfold enqueue in H. destruct (commit _) eqn:E; simplify_eq/=. by eapply insert_carries.
  - by eapply insert_carries.
  - by eapply workflow_carries.
  - unfold FETCH_UNKEYED in H. apply negative_limit in H as [_ H].
    destruct (lease_rows _ _ _ _ _) as [[? ?]|] eqn:E; simplify_eq/=.
    eapply lease_evolves; [done|by eapply picked_leasable, unkeyed_picked|done..].
  - unfold FETCH_KEYED in H. apply negative_limit in H as [_ H].
    eapply lease_evolves; [done|by eapply picked_leasable, keyed_picked|done..].
  - unfold complete in H. case_decide; [simplify_eq; by eapply same_carries|].
    unfold COMPLETE in H. destruct (commit _) as [d1|] eqn:E; simplify_eq/=.
    left. eapply update_evolves; [|done..]. intros r'.
    destruct (complete_cases now (unnest ids results) worker d i r Hr) as [? ? Hh%held_running|n0 ???|];
      intros ?; simplify_eq; split_and!; try done; [apply settled; try done; set_solver|by apply stays].
  - unfold retry_many in H. case_decide; [simplify_eq; by eapply same_carries|].
    destruct (RETRY_MANY _ _ _ _ _ _ _) as [[[? ?] d1]|] eqn:E; simplify_eq/=.
    unfold RETRY_MANY in E. destruct (existsb _ _); [done|].
    by_update; eauto using retry_row_evolves, discard_row_evolves, held_running.
  - unfold discard_many in H. case_decide; [simplify_eq; by eapply same_carries|].
    destruct (DISCARD_MANY _ _ _ _) as [[[? ?] d1]|] eqn:E; simplify_eq/=.
    unfold DISCARD_MANY in E.
    by_update; eauto using cascade_row_evolves, discard_row_evolves, held_running.
  - unfold renew_leases, RENEW in H. case_decide; [simplify_eq; by eapply same_carries|].
    by_update. split_and!; [done..|by apply stays].
  - unfold abandon_leases, ABANDON in H. case_decide; [simplify_eq; by eapply same_carries|].
    by_update. split_and!; [done..|by apply stays].
  - unfold reclaim_expired, RECLAIM in H. apply negative_limit in H as [_ H].
    by_update; assert (lapsed now r = true) by (eapply expired_lapsed; eassumption); row_facts;
      [split_and!; [done..|apply settled; try done; set_solver]|by apply discard_row_evolves].
  - unfold cancel in H. case_decide; [simplify_eq; by eapply same_carries|].
    by_update. split_and!; [done..|by apply called_off].
  - unfold retry_discarded in H. by_update. split_and!; [done..|by apply requeued].
  - destruct (purged_finished q d) as (ids & -> & Hids). by apply delete_carries.
  - eapply prune_carries; [|done..]. intros s Hs. set_solver.
  - eapply prune_carries; [|done..]. intros s Hs. set_solver.
  - by eapply same_carries.
  - by eapply same_carries.
  - unfold fire_cron, FIRE_CRON in H. destruct (crons d !! name); [|simplify_eq; by eapply same_carries].
    destruct (cron_due _ _); [|simplify_eq; by eapply same_carries].
    destruct (commit _) as [d1|] eqn:E; simplify_eq/=.
    eapply insert_carries in E; [done|by apply set_crons_ok|done].
  - unfold record_step, RECORD_STEP in H. repeat case_match; simplify_eq; by eapply same_carries.
Qed.

(** ** Joining a batch with the table *)

Lemma elem_of_joined {A} (v : list (Z * A)) i x : joined v i = Some x → (i, x) ∈ v.
Proof.
  intros H%pick_in. apply list_elem_of_fmap in H as ([j y] & -> & H).
  rewrite list_elem_of_In, filter_In, <- list_elem_of_In in H. destruct H as [H E].
  bool_facts. simpl in *. by subst.
Qed.

Lemma joined_is_Some {A} (v : list (Z * A)) i : is_Some (joined v i) ↔ i ∈ v.*1.
Proof.
  split.
  - intros [x H%elem_of_joined]. apply list_elem_of_fmap. by exists (i, x).
  - intros ([j x] & -> & H)%list_elem_of_fmap. apply pick_some. simpl.
    intros E%fmap_nil_inv. assert (In (j, x) (List.filter (λ p : Z * A, bool_decide (p.1 = j)) v)) as Hin.
    { apply filter_In. split; [by apply list_elem_of_In|]. by apply bool_decide_eq_true. }
    by rewrite E in Hin.
Qed.

Lemma fst_unnest {A} ids (vs : list (option A)) : (unnest ids vs).*1 = ids.
Proof.
  unfold unnest. apply fst_zip. rewrite length_app, length_replicate. lia.
Qed.

Lemma unnest_lookup {A} ids (vs : list (option A)) k i :
  ids !! k = Some i → unnest ids vs !! k = Some (i, mjoin (vs !! k)).
Proof.
  intros H. unfold unnest. rewrite lookup_zip_with, H. simpl.
  destruct (vs !! k) as [x|] eqn:E.
  - by rewrite (lookup_app_l_Some _ _ _ _ E).
  - rewrite lookup_app, E. rewrite lookup_replicate_2; [done|].
    apply lookup_lt_Some in H. lia.
Qed.

(** With distinct ids, each row joins with its own value. *)
Lemma joined_unnest {A} ids (vs : list (option A)) k i :
  NoDup ids → ids !! k = Some i → joined (unnest ids vs) i = Some (mjoin (vs !! k)).
Proof.
  intros Hnd Hk. destruct (joined (unnest ids vs) i) as [x|] eqn:E.
  - apply elem_of_joined, list_elem_of_lookup in E as [k' Hk'].
    assert (ids !! k' = Some i) as Hi.
    { rewrite <- (fst_unnest ids vs), list_lookup_fmap, Hk'. done. }
    assert (k' = k) as -> by by eapply NoDup_lookup.
    rewrite (unnest_lookup ids vs k i Hk) in Hk'. congruence.
  - assert (is_Some (joined (unnest ids vs) i)) as [? ?]; [|congruence].
    apply joined_is_Some. rewrite fst_unnest. by eapply list_elem_of_lookup_2.
Qed.

Lemma joined_unnest_None {A} ids (vs : list (option A)) i : i ∉ ids → joined (unnest ids vs) i = None.
Proof.
  intros H. apply eq_None_not_Some. by rewrite joined_is_Some, fst_unnest.
Qed.

(** ** Calls of one worker *)

(** What a worker says about jobs it names. *)
Inductive worker_call (worker : uuid) (ids : list Z) (d : db) : db → Prop :=
| calls_complete now results n d' :
    complete now ids results worker d = Ok (n, d') → worker_call worker ids d d'
| calls_retry now random errs base cap n d' :
    retry_many now random ids errs worker base cap d = Ok (n, d') → worker_call worker ids d d'
| calls_discard now errs n d' :
    discard_many now ids errs worker d = Ok (n, d') → worker_call worker ids d d'
| calls_renew now lease n d' :
    renew_leases now ids worker lease d = Ok (n, d') → worker_call worker ids d d'
| calls_abandon now n d' :
    abandon_leases now ids worker d = Ok (n, d') → worker_call worker ids d d'.

Lemma worker_call_step worker ids d d' : worker_call worker ids d d' → step d d'.
Proof. intros []; eauto using step. Qed.

Lemma not_held worker r : state r = running → locked_by r ≠ Some worker → held worker r = false.
Proof. intros _ H. unfold held. by rewrite bool_decide_false. Qed.

(** A call cannot settle a job it does not name or does not hold. *)
Definition spared (worker : uuid) (ids : list Z) (i : Z) (r : job_row) : Prop :=
  i ∉ ids ∨ locked_by r ≠ Some worker.

(** Whatever is downstream of a job that has not completed is parked. *)
Lemma downstream_pending d p c r :
  db_ok d → open_parent d p → downstream d p c → jobs d !! c = Some r → 0 < pending_deps r.
Proof.
  intros Hd Hp Hds. revert r. induction Hds as [c [w He]|b c Hds IH [w He]]; intros r Hr.
  - by eapply open_edge_pending.
  - destruct (edges_ok _ Hd b c) as [[q Hq] _]; [eauto|]. eapply open_edge_pending; [done..|].
    unfold open_parent. rewrite Hq. simpl. intros Hs; simplify_eq.
    specialize (IH q Hq). rewrite (ok_met q) in IH; [lia|by apply (rows_ok _ Hd b)|congruence..].
Qed.

(** What a call does to a job it does not name or does not hold: nothing, unless
    the job is still parked behind one the call names and holds. *)
Definition behind (worker : uuid) (ids : list Z) (d : db) (i : Z) (r : job_row) : Prop :=
  0 < pending_deps r ∧
  ∃ p q, p ∈ ids ∧ jobs d !! p = Some q ∧ held worker q = true ∧ downstream d p i.

Lemma downstream_behind worker ids d p q i r :
  db_ok d → p ∈ ids → jobs d !! p = Some q → held worker q = true → downstream d p i → jobs d !! i = Some r →
  behind worker ids d i r.
Proof.
  intros Hd Hp Hq Hh Hds Hr. split; [|by exists p, q]. eapply (downstream_pending d p i); try done.
  unfold open_parent. rewrite Hq. simpl. apply held_running in Hh. congruence.
Qed.

Lemma named_held {A} worker ids (vs : list (option A)) d i :
  i ∈ select (λ i r, held worker r && bool_decide (is_Some (joined (unnest ids vs) i))) d →
  i ∈ ids ∧ ∃ r, jobs d !! i = Some r ∧ held worker r = true.
Proof.
  intros (r & Hr & H)%elem_of_select. apply andb_prop in H as [Hh H%bool_decide_eq_true%joined_is_Some].
  rewrite fst_unnest in H. eauto.
Qed.

Lemma released_behind worker ids (vs : list (option (list byte))) d i r :
  db_ok d → jobs d !! i = Some r → 0 < edges_from (completing (unnest ids vs) worker d) i d → behind worker ids d i r.
Proof.
  intros Hd Hr Hn. unfold edges_from in Hn.
  destruct (size_pos_elem_of (filter (λ e : Z * Z, e.1 ∈ completing (unnest ids vs) worker d ∧ e.2 = i) (dom (edges d))))
    as [[p c] [[Hp Hc] He]%elem_of_filter]; [lia|]. simpl in *. subst c. apply elem_of_dom in He.
  apply named_held in Hp as (Hp & q & Hq & Hh). eapply downstream_behind; try done. by constructor.
Qed.

Lemma worker_call_touches worker ids d d' i r :
  db_ok d → worker_call worker ids d d' → jobs d !! i = Some r → i ∉ ids ∨ held worker r = false →
  jobs d' !! i = Some r ∨ behind worker ids d i r.
Proof.
  intros Hd Hc Hr Hw.
  assert (bool_decide (i ∈ ids) && held worker r = false) as Hnamed.
  { destruct Hw as [Hi| ->]; [by rewrite bool_decide_false|apply andb_false_r]. }
  assert (∀ A (vs : list (option A)), joined (unnest ids vs) i = None ∨ held worker r = false) as Hj.
  { intros A vs. destruct Hw as [Hi|?]; [left; by apply joined_unnest_None|by right]. }
  destruct Hc.
  - unfold complete, COMPLETE in H. case_decide; [left; by simplify_eq|].
    destruct (decide (0 < edges_from (completing (unnest ids results) worker d) i d)) as [Hn|Hn];
      [right; by eapply released_behind|left]. by_keeping.
    destruct (complete_cases now (unnest ids results) worker d i r Hr) as [|n0 ? -> ?|]; [|lia|done].
    destruct (Hj _ results); congruence.
  - left. unfold retry_many in H. case_decide; [by simplify_eq|].
    destruct (RETRY_MANY _ _ _ _ _ _ _) as [[[? ?] d1]|] eqn:E; simplify_eq/=.
    unfold RETRY_MANY in E. destruct (existsb _ _); [done|]. by_keeping.
    destruct (Hj _ (Some <$> errs)) as [-> | ->]; [done|by case_match].
  - unfold discard_many in H. case_decide; [left; by simplify_eq|].
    destruct (DISCARD_MANY _ _ _ _) as [[[? ?] d1]|] eqn:E; simplify_eq/=. unfold DISCARD_MANY in E.
    destruct (decide (i ∈ walk (list_to_set (discarding (unnest ids (Some <$> errs)) worker d)) d)) as [Hin|Hin].
    + right. apply elem_of_walk in Hin as (p & (Hp & q & Hq & Hh)%elem_of_list_to_set%named_held & Hds).
      by eapply downstream_behind.
    + left. by_keeping. rewrite (bool_decide_false _ Hin). simpl.
      destruct (Hj _ (Some <$> errs)) as [-> | ->]; [done|by case_match].
  - left. unfold renew_leases, RENEW in H. case_decide; [by simplify_eq|]. by_keeping. by rewrite Hnamed.
  - left. unfold abandon_leases, ABANDON in H. case_decide; [by simplify_eq|]. by_keeping. by rewrite Hnamed.
Qed.

Lemma worker_call_keeps worker ids d d' i r :
  db_ok d → worker_call worker ids d d' → jobs d !! i = Some r →
  state r = running → spared worker ids i r → jobs d' !! i = Some r.
Proof.
  intros Hd Hc Hr Hs Hw. destruct (worker_call_touches worker ids d d' i r Hd Hc Hr) as [?|[Hp _]]; [|done|].
  - destruct Hw; [by left|right; by apply not_held].
  - destruct (running_row r (rows_ok _ Hd i r Hr) Hs) as (_ & _ & _ & ? & _). lia.
Qed.

End Planned.
End Reach.
