(* ===== verification/PgExample.v ===== *)
(** * A small deployment

    A concrete run of the Postgres backend: an unkeyed job, a two-job workflow
    and three jobs under one concurrency key, enqueued, leased and settled. The
    theorems about the backend are applied to its databases. *)

From S2P Require Import Prelude.
From S2P Require Import PgTable.
From S2P Require Import PgJobs.
From S2P Require Import PgCron.
From S2P Require Import PgRetention.
From S2P Require Import PgWorkflow.
From S2P Require Import PgInvariant.
From S2P Require Import PgSteps.
From S2P Require Import PgReach.
Import Table.
Import Jobs.
Import Cron.
Import Retention.
Import Workflow.
Import Invariant.
Import Steps.
Import Reach.

Module Example.

#[global] Existing Instance plain_planner.

Definition after {E A} (r : Prelude.result E (A * db)) : db :=
  match r with Ok (_, d) => d | Err _ => empty end.

Definition mail : NewJob := NewJob_new "mail" [].
Definition pair : Workflow := {| nodes := [NewJob_new "extract" []; NewJob_new "load" []];
                                 links := {[(0%nat, 1%nat)]} |}.
Definition sync : NewJob := NewJob_new "sync" [] |> limited_to "tenant" 1.

(** Job 1 is [mail], 2 and 3 the workflow, 4 and 5 compete for [tenant]. *)
Definition enqueued1 : db := after (enqueue 100 mail empty).
Definition enqueued2 : db := after (enqueue_workflow 100 pair enqueued1).
Definition enqueued3 : db := after (enqueue 100 sync enqueued2).
Definition enqueued : db := after (enqueue 100 sync enqueued3).

Definition alice : uuid := 7.
Definition bob : uuid := 8.

Definition unkeyed_leased : db :=
  match FETCH_UNKEYED 200 ["default"] 10 alice 1000 ∅ enqueued with
  | Ok (_, _, d) => d | Err _ => empty end.
Definition leased_all : db := after (FETCH_KEYED 200 ["default"] 10 bob 1000 ∅ unkeyed_leased).

Lemma enqueued3_reachable : reachable enqueued3.
Proof.
  apply rtc_r with enqueued2; [apply rtc_r with enqueued1; [apply rtc_r with empty; [done|]|]|].
  - eapply (by_enqueue _ 100 mail 1); by vm_compute.
  - eapply (by_workflow _ 100 pair [2; 3]); by vm_compute.
  - eapply (by_enqueue _ 100 sync 4); by vm_compute.
Qed.

Lemma enqueued_reachable : reachable enqueued.
Proof.
  apply rtc_r with enqueued3; [apply enqueued3_reachable|]. eapply (by_enqueue _ 100 sync 5); by vm_compute.
Qed.

Lemma enqueued_funded : funded ["default"] enqueued.
Proof. apply (bool_decide_unpack _). vm_compute. exact I. Qed.

Lemma unkeyed_leased_reachable : reachable unkeyed_leased.
Proof.
  apply rtc_r with enqueued; [apply enqueued_reachable|].
  eapply (by_unkeyed _ 200 ["default"] 10 alice 1000 ∅). by vm_compute.
Qed.

Lemma leased_all_reachable : reachable leased_all.
Proof.
  apply rtc_r with unkeyed_leased; [apply unkeyed_leased_reachable|].
  eapply (by_keyed _ 200 ["default"] 10 bob 1000 ∅). by vm_compute.
Qed.

(** Who holds what once everything runnable is leased. *)
Example leased_all_states :
  (λ i, (λ r, (state r, locked_by r)) <$> jobs leased_all !! i) <$> [1; 2; 3; 4; 5] =
  [Some (running, Some alice); Some (running, Some alice); Some (available, None);
   Some (running, Some bob); Some (available, None)].
Proof. by vm_compute. Qed.

(** A workflow whose jobs have a single attempt, with its first job leased. *)
Definition once (task : string) : NewJob := {|
  nj_queue := "default"; nj_task := task; nj_payload := []; nj_priority := 0;
  nj_max_attempts := 1; nj_delay := 0; nj_concurrency := None; nj_durable := false |}.
Definition fragile : Workflow := {| nodes := [once "charge"; once "ship"]; links := {[(0%nat, 1%nat)]} |}.
Definition fragile_enqueued : db := after (enqueue_workflow 100 fragile empty).
Definition fragile_leased : db :=
  match FETCH_UNKEYED 200 ["default"] 10 alice 1000 ∅ fragile_enqueued with
  | Ok (_, _, d) => d | Err _ => empty end.

Lemma fragile_leased_reachable : reachable fragile_leased.
Proof.
  apply rtc_r with fragile_enqueued; [apply rtc_r with empty; [done|]|].
  - eapply (by_workflow _ 100 fragile [1; 2]); by vm_compute.
  - eapply (by_unkeyed _ 200 ["default"] 10 alice 1000 ∅). by vm_compute.
Qed.

End Example.
