(* ===== verification/PgTypes.v ===== *)
(** * Types of the columns

    Rust and SQL type what goes into the tables; here, that what is in them
    keeps its type, whatever statements run: a name read back is text, a counter
    read back fits the [i16] it is read into. *)

From S2P Require Import Prelude.
From S2P Require Import Utf8.
From S2P Require Import PgTable.
From S2P Require Import PgJobs.
From S2P Require Import PgCron.
From S2P Require Import PgRetention.
From S2P Require Import PgWorkflow.
From S2P Require Import PgInvariant.
From S2P Require Import PgSteps.
From S2P Require Import PgReach.
From S2P Require Import PgExample.
Import Utf8.
Import Table.
Import Jobs.
Import Cron.
Import Retention.
Import Workflow.
Import Invariant.
Import Steps.
Import Reach.
Import Example.

Module Types.

(** ** What a statement brings *)

Definition typed_cron (name : string) (c : cron_row) : Prop :=
  utf8 name ∧ utf8 (cron_queue c) ∧ utf8 (cron_task c).

Definition typed_crons (d : db) : Prop := map_Forall typed_cron (crons d).

(** What is in [d'] and was not in [d]: jobs, all waiting and under new ids,
    steps and schedules, all typed. *)
Record arrivals (d d' : db) : Prop := {
  arrive_next : next_job d <= next_job d';
  arrive_jobs i r : jobs d !! i = None → jobs d' !! i = Some r →
    state r = available ∧ next_job d <= i ∧ (typed_crons d → typed_spec (spec r) = true);
  arrive_steps k : is_Some (steps d' !! k) → is_Some (steps d !! k) ∨ utf8 k.2;
  arrive_crons : typed_crons d → typed_crons d' }.

Lemma arrivals_refl d : arrivals d d.
Proof. split; [done|congruence|by left|done]. Qed.

Lemma insert_arrives r d d' :
  commit (insert_job r d) = Ok d' → state r = available →
  (typed_crons d → typed_spec (spec r) = true) → arrivals d d'.
Proof.
  intros (-> & _)%commit_Ok Hs Hr. split; [simpl; lia| |by left|done].
  intros i r' Hn. simpl. rewrite lookup_insert_Some. intros [[<- <-]|[_ ?]]; [|congruence]. split_and!; [done|lia|done].
Qed.

Lemma update_arrives f d d' : commit (update f d) = Ok d' → arrivals d d'.
Proof.
  intros (-> & _)%commit_Ok. split; [done| |by left|done].
  intros i r Hn (r0 & ? & _)%lookup_update_Some. congruence.
Qed.

Lemma delete_arrives ids d : arrivals d (delete_jobs ids d).
Proof.
  split; [done| | |done].
  - intros i r Hn [? _]%delete_lookup. congruence.
  - intros k [x Hx]. unfold delete_jobs in Hx; simpl in Hx. apply map_lookup_filter_Some in Hx as [? _]. eauto.
Qed.

Lemma insert_nodes_same now w l d ids d' :
  insert_nodes now w l d = Ok (ids, d') →
  next_job d <= next_job d' ∧ steps d' = steps d ∧ crons d' = crons d.
Proof.
  revert d ids d'. induction l as [|[j p] l IH]; intros d ids d' E; simpl in E; [by simplify_eq|].
  destruct (commit _) as [d1|] eqn:Ec; simpl in E; [|done].
  destruct (insert_nodes now w l d1) as [[ids1 d2]|] eqn:E1; simplify_eq/=.
  apply IH in E1 as (Hn & -> & ->). apply commit_Ok in Ec as [-> _]. simpl in *. split_and!; [lia|done..].
Qed.

Lemma workflow_arrives now f d ids d' :
  db_ok d → forallb typed_job (nodes f) = true →
  enqueue_workflow now f d = Ok (ids, d') → arrivals d d'.
Proof.
  intros Hd Ht. unfold enqueue_workflow. case_decide; [intros ?; simplify_eq; apply arrivals_refl|].
  case_decide; [done|]. destruct (insert_nodes _ _ _ _) as [[ids' d1]|] eqn:E; simpl; [|done].
  destruct (insert_edges _ _ _ _) as [m|] eqn:Em; [|done]. intros ?; simplify_eq.
  pose proof (insert_nodes_same _ _ _ _ _ _ E) as (Hn & Hs & Hc). simpl in *.
  apply insert_nodes_ok in E as (_ & _ & Hlen & Hids & _ & Hnew & Hback); [|by apply new_workflow_ok].
  split; simpl; [done| |rewrite Hs; by left|unfold typed_crons; simpl; by rewrite Hc].
  intros i r Hnone Hr. destruct (Hback i r Hr) as [?|[k Hk]]; [simpl in *; congruence|].
  pose proof (Hids _ _ Hk) as Hi. pose proof (lookup_lt_Some _ _ _ Hk) as Hlt. rewrite Hlen in Hlt.
  apply lookup_lt_is_Some in Hlt as [[j p] Hj]. rewrite (Hnew _ _ _ _ Hk Hj) in Hr. simplify_eq.
  apply list_elem_of_lookup_2, elem_of_zip_l, list_elem_of_In in Hj. rewrite forallb_forall in Ht.
  split_and!; [done|simpl; lia|]. intros _. by apply Ht in Hj.
Qed.

(** Settles a statement that updates rows in place. *)
Ltac by_update_only :=
  repeat case_decide; simplify_eq/=; try (by apply arrivals_refl);
  repeat match goal with
  | H : context [if ?b then _ else _] |- _ => destruct b; try done
  | H : context [commit ?x] |- _ =>
    let E := fresh in destruct (commit x) eqn:E; simplify_eq/=; by eapply update_arrives
  end.

Section Planned.
Context {Pl : Planner}.

Lemma fire_arrives now name next d i d' : fire_cron now name next d = Ok (i, d') → arrivals d d'.
Proof.
  unfold fire_cron, FIRE_CRON. destruct (crons d !! name) as [c|] eqn:Hc; [|intros ?; simplify_eq; apply arrivals_refl].
  destruct (cron_due now c); [|intros ?; simplify_eq; apply arrivals_refl].
  destruct (commit _) as [d1|] eqn:E; simpl; [|done]. intros ?; simplify_eq.
  apply commit_Ok in E as [-> _]. split; simpl; [lia| |by left|].
  - intros j r Hn [[<- <-]|[_ ?]]%lookup_insert_Some; [|congruence]. split_and!; [done|lia|].
    intros Ht. destruct (Ht _ _ Hc) as (_ & Hq & Hk). unfold typed_spec; simpl.
    by rewrite !bool_decide_true by done.
  - intros Ht. unfold typed_crons; simpl. apply map_Forall_insert_2; [|done]. exact (Ht _ _ Hc).
Qed.

Lemma upsert_arrives now e next d : typed_entry e = true → arrivals d (upsert_cron now e next d).
Proof.
  intros He. split; [done|simpl; congruence|by left|]. intros Ht. apply map_Forall_insert_2; [|done].
  unfold typed_entry in He. bool_facts. by destruct (crons d !! ce_name e).
Qed.

Lemma record_arrives now job name res d d' :
  utf8 name → record_step now job name res d = Ok d' → arrivals d d'.
Proof.
  intros Hu. unfold record_step, RECORD_STEP. repeat case_match; intros ?; simplify_eq; [apply arrivals_refl|].
  split; [done|simpl; congruence| |done]. intros k. simpl. rewrite lookup_insert_is_Some. intros [<-|[_ ?]]; auto.
Qed.

(** Every statement brings only waiting jobs under new ids, and typed rows. *)
Lemma step_arrives d d' : db_ok d → step d d' → arrivals d d'.
Proof.
  intros Hd Hs. destruct Hs as
    [now j i' d' E Ht|r d' Hr E Ht|now f ids d' E Ht|? ? ? ? ? ? ? ? d' E|? ? ? ? ? ? ? d' E|? ? ? ? ? d' E
    |? ? ? ? ? ? ? ? d' E|? ? ? ? ? d' E|? ? ? ? ? d' E|? ? ? ? d' E|? ? ? d' E|? ? ? d' E|? ? ? ? d' E
    |q|? ? ? ? ? ? d' E|? ? ? ? ? ? d' E| |? ? ? Ht|now name next i' d' E|? ? ? ? d' E Ht].
  - unfold enqueue in E. destruct (commit _) eqn:Ec; simplify_eq/=. by eapply insert_arrives.
  - eapply insert_arrives; [done| |done]. by destruct Hr as (_ & ? & _).
  - by eapply workflow_arrives.
  - unfold FETCH_UNKEYED in E. apply negative_limit in E as [_ E].
    destruct (lease_rows _ _ _ _ _) as [[l0 d1]|] eqn:E1; simplify_eq/=. unfold lease_rows in E1. by_update_only.
  - unfold FETCH_KEYED in E. apply negative_limit in E as [_ E]. unfold lease_rows in E. by_update_only.
  - unfold complete, COMPLETE in E. by_update_only.
  - unfold retry_many, RETRY_MANY in E. by_update_only.
  - unfold discard_many, DISCARD_MANY in E. by_update_only.
  - unfold renew_leases, RENEW in E. by_update_only.
  - unfold abandon_leases, ABANDON in E. by_update_only.
  - unfold reclaim_expired, RECLAIM in E. apply negative_limit in E as [_ E]. by_update_only.
  - unfold cancel in E. by_update_only.
  - unfold retry_discarded in E. by_update_only.
  - apply delete_arrives.
  - unfold prune_completed, prune_states in E. apply negative_limit in E as [_ E]. simplify_eq. apply delete_arrives.
  - unfold prune_discarded, prune_states in E. apply negative_limit in E as [_ E]. simplify_eq. apply delete_arrives.
  - split; [done|simpl; congruence|by left|done].
  - by apply upsert_arrives.
  - by eapply fire_arrives.
  - bool_facts. by eapply record_arrives.
Qed.

(** ** The invariant *)

Record typed (d : db) : Prop := {
  typed_next : 1 <= next_job d;
  typed_rows i r : jobs d !! i = Some r → 1 <= i ∧ typed_spec (spec r) = true;
  typed_steps k : is_Some (steps d !! k) → utf8 k.2;
  typed_schedules : typed_crons d }.

Lemma step_typed d d' : db_ok d → step d d' → typed d → typed d'.
Proof.
  intros Hd Hs [Hn Hr Hst Hc]. pose proof (step_arrives d d' Hd Hs) as [An Aj As Ac]. split; [lia| | |auto].
  - intros i r' Hr'. destruct (jobs d !! i) as [r|] eqn:E.
    + destruct (step_carries d d' i r Hd Hs E) as [(r2 & ? & Hsp & _)|[? _]]; [|congruence].
      simplify_eq. rewrite Hsp. eauto.
    + destruct (Aj i r' E Hr') as (_ & ? & Ht). split; [lia|auto].
  - intros k [?|?]%As; auto.
Qed.

Lemma reachable_typed d : reachable d → typed d.
Proof.
  intros H. assert (db_ok d ∧ typed d) as [_ ?]; [|done].
  eapply (rtc_ind_r (λ x, db_ok x ∧ typed x)); [|by intros y z _ Hs [? ?]; eauto using step_ok, step_typed|exact H].
  split; [exact empty_ok|]. split; [done|intros i r; by simplify_map_eq|intros k [? ?]; by simplify_map_eq|by intros ?].
Qed.

(** A row's columns fit the Rust types they are read into. *)
Lemma row_typed d i r :
  reachable d → next_job d <= 2 ^ 63 → jobs d !! i = Some r →
  in_signed 64 i ∧ utf8 (queue (spec r)) ∧ utf8 (task (spec r)) ∧ in_signed 16 (priority (spec r)) ∧
  in_signed 16 (max_attempts (spec r)) ∧ in_signed 16 (attempt r).
Proof.
  intros Hd Hn Hr. pose proof (reachable_typed d Hd) as [_ Ht _ _]. destruct (Ht i r Hr) as [Hi Hs].
  apply reachable_ok in Hd. assert (i < next_job d) by (apply (ids_ok _ Hd); eauto).
  pose proof (rows_ok _ Hd i r Hr) as Hok. pose proof (ok_checks _ Hok) as (Ha & _). pose proof (ok_attempt _ Hok).
  unfold typed_spec in Hs. bool_facts. unfold in_signed in *. split_and!; try done; lia.
Qed.

(** C16. What is stored keeps its type: in every reachable database that has not
    used up its identity sequence, an id fits the [i64] it is read into,
    priority, attempt and maximum fit [i16] (a job is never leased past
    32767 attempts), and queue, task, step and schedule names are UTF-8. *)
Theorem columns_typed d :
  reachable d → next_job d <= 2 ^ 63 →
  (∀ i r, jobs d !! i = Some r →
     in_signed 64 i ∧ utf8 (queue (spec r)) ∧ utf8 (task (spec r)) ∧ in_signed 16 (priority (spec r)) ∧
     in_signed 16 (max_attempts (spec r)) ∧ in_signed 16 (attempt r)) ∧
  (∀ i name s, steps d !! (i, name) = Some s → in_signed 64 i ∧ utf8 name) ∧
  (∀ name c, crons d !! name = Some c → utf8 name ∧ utf8 (cron_queue c) ∧ utf8 (cron_task c)).
Proof.
  intros Hd Hn. split_and!.
  - intros i r Hr. by eapply row_typed.
  - intros i name s Hs. pose proof (reachable_typed d Hd) as [_ _ Ht _]. split; [|by apply (Ht (i, name))].
    destruct (steps_ok _ (reachable_ok _ Hd) i name) as [r Hr]; [by eexists|]. by eapply row_typed.
  - intros name c. apply (typed_schedules _ (reachable_typed d Hd)).
Qed.

End Planned.

(** ** Applied to the example *)

Definition mail_leased : job_row := default (new_row 0 mail) (jobs leased_all !! 1).

Lemma columns_typed_witness :
  jobs leased_all !! 1 = Some mail_leased ∧ utf8 (task (spec mail_leased)) ∧ in_signed 16 (attempt mail_leased).
Proof.
  destruct (columns_typed leased_all) as (H & _).
  - apply leased_all_reachable.
  - vm_compute. discriminate.
  - assert (jobs leased_all !! 1 = Some mail_leased) as Hr by (vm_compute; reflexivity).
    destruct (H 1 mail_leased Hr) as (_ & _ & Ht & _ & _ & Ha). split_and!; assumption.
Defined.

End Types.
