(* ===== verification/Compose.v ===== *)
(** * Workflow constructors

    [chain], [group] and [chord] of [python/gylo/_workflow.py]. A [Workflow] is a
    Python object that is mutated in place, so the constructors are functions on
    a heap of them; beside them are the graphs they are meant to build, as
    compositions of values. *)

From S2P Require Import Prelude.
From S2P Require Import PgTable.
From S2P Require Import PgJobs.
From S2P Require Import PgWorkflow.
Import Table.
Import Jobs.
Import Workflow.

Module Compose.

(** ** The objects *)

Definition no_nodes : Workflow := {| nodes := []; links := ∅ |}.
Definition single (s : NewJob) : Workflow := {| nodes := [s]; links := ∅ |}.
Definition order (w : Workflow) : nat := length (nodes w).

(** [h] holds every [Workflow] object, by its reference. *)
Definition deref (h : gmap nat Workflow) (ref : nat) : Workflow := default no_nodes (h !! ref).

(** [Workflow(..)]. *)
Definition alloc (w : Workflow) (h : gmap nat Workflow) : nat * gmap nat Workflow :=
  let ref := fresh (dom h) in (ref, <[ref := w]> h).

(** An argument of a constructor. *)
Inductive item := OfSignature (s : NewJob) | OfWorkflow (ref : nat).

(** ** Methods *)

Definition shift (offset : nat) (e : nat * nat) : nat * nat := ((e.1 + offset)%nat, (e.2 + offset)%nat).

(** [self._absorb(other)], for two different objects. *)
Definition absorb (self other : nat) (h : gmap nat Workflow) : list nat * gmap nat Workflow :=
  let w := deref h self in
  let o := deref h other in
  let offset := order w in
  (seq offset (order o),
   <[self := {| nodes := nodes w ++ nodes o; links := links w ∪ set_map (shift offset) (links o) |}]> h).

Definition roots (w : Workflow) : list nat :=
  let blocked : gset nat := set_map snd (links w) in
  List.filter (λ i, negb (bool_decide (i ∈ blocked))) (seq 0 (order w)).

Definition leaves (w : Workflow) : list nat :=
  let parents : gset nat := set_map fst (links w) in
  List.filter (λ i, negb (bool_decide (i ∈ parents))) (seq 0 (order w)).

Definition as_workflow (i : item) (h : gmap nat Workflow) : nat * gmap nat Workflow :=
  match i with OfWorkflow ref => (ref, h) | OfSignature s => alloc (single s) h end.

(** [flow.edges.add((parent, child))] for every pair. *)
Definition add_edges (flow : nat) (es : gset (nat * nat)) (h : gmap nat Workflow) : gmap nat Workflow :=
  let w := deref h flow in <[flow := {| nodes := nodes w; links := links w ∪ es |}]> h.

(** [for parent in a: for child in b]. *)
Definition every_pair (a b : list nat) : gset (nat * nat) :=
  list_to_set (p ← a; (λ c, (p, c)) <$> b).

(** ** Constructors *)

Fixpoint chain_loop (flow : nat) (tails : list nat) (steps : list item) (h : gmap nat Workflow) : gmap nat Workflow :=
  match steps with
  | [] => h
  | step :: rest =>
    let '(sub, h) := as_workflow step h in
    let s := deref h sub in
    if decide (nodes s = []) then chain_loop flow tails rest h else
    let offset := order (deref h flow) in
    let heads := (λ root, (offset + root)%nat) <$> roots s in
    let next_tails := (λ leaf, (offset + leaf)%nat) <$> leaves s in
    let h := (absorb flow sub h).2 in
    let h := add_edges flow (every_pair tails heads) h in
    chain_loop flow next_tails rest h
  end.

Definition chain (steps : list item) (h : gmap nat Workflow) : nat * gmap nat Workflow :=
  let '(flow, h) := alloc no_nodes h in (flow, chain_loop flow [] steps h).

Fixpoint group_loop (flow : nat) (branches : list item) (h : gmap nat Workflow) : gmap nat Workflow :=
  match branches with
  | [] => h
  | branch :: rest =>
    let '(sub, h) := as_workflow branch h in
    group_loop flow rest (absorb flow sub h).2
  end.

Definition group (branches : list item) (h : gmap nat Workflow) : nat * gmap nat Workflow :=
  let '(flow, h) := alloc no_nodes h in (flow, group_loop flow branches h).

(** [added[0]] is the callback's index. *)
Definition chord (body : item) (callback : NewJob) (h : gmap nat Workflow) : nat * gmap nat Workflow :=
  let '(flow, h) := as_workflow body h in
  let tails := leaves (deref h flow) in
  let '(last, h) := alloc (single callback) h in
  let '(added, h) := absorb flow last h in
  (flow, add_edges flow (every_pair tails (take 1 added)) h).

(** ** The graphs they mean *)

(** [a] beside [b]. *)
Definition beside (a b : Workflow) : Workflow := {|
  nodes := nodes a ++ nodes b; links := links a ∪ set_map (shift (order a)) (links b) |}.

(** [b] after [a]: every leaf of [a] is a parent of every root of [b]. *)
Definition after_all (a b : Workflow) : Workflow := {|
  nodes := nodes a ++ nodes b;
  links := links a ∪ set_map (shift (order a)) (links b)
             ∪ every_pair (leaves a) ((λ root, (order a + root)%nat) <$> roots b) |}.

Definition value (h : gmap nat Workflow) (i : item) : Workflow :=
  match i with OfSignature s => single s | OfWorkflow ref => deref h ref end.

(** The graph a chain and a group of the values build. *)
Definition in_series (l : list Workflow) : Workflow := foldl after_all no_nodes l.
Definition in_parallel (l : list Workflow) : Workflow := foldl beside no_nodes l.

(** ** Order *)

(** Edges lead from earlier nodes to later ones, all of them there: what every
    constructor builds, and what makes a graph one that can finish. *)
Definition ascending (w : Workflow) : Prop :=
  ∀ p c, (p, c) ∈ links w → (p < c < order w)%nat.

(** Node [i] has to finish before node [j] may start. *)
Definition before (w : Workflow) : nat → nat → Prop := tc (λ p c, (p, c) ∈ links w).

(** ** Leaves, roots and composition *)

Lemma elem_of_roots w i : i ∈ roots w ↔ (i < order w)%nat ∧ ∀ p, (p, i) ∉ links w.
Proof.
  unfold roots. rewrite list_elem_of_In, filter_In, in_seq, negb_true_iff, bool_decide_eq_false.
  rewrite elem_of_map. split.
  - intros [? H]. split; [lia|]. intros p Hp. apply H. by exists (p, i).
  - intros [? H]. split; [lia|]. intros ([p c] & -> & Hp). by apply (H p).
Qed.

Lemma elem_of_leaves w i : i ∈ leaves w ↔ (i < order w)%nat ∧ ∀ c, (i, c) ∉ links w.
Proof.
  unfold leaves. rewrite list_elem_of_In, filter_In, in_seq, negb_true_iff, bool_decide_eq_false.
  rewrite elem_of_map. split.
  - intros [? H]. split; [lia|]. intros c Hc. apply H. by exists (i, c).
  - intros [? H]. split; [lia|]. intros ([p c] & -> & Hc). by apply (H c).
Qed.

Lemma elem_of_every_pair a b p c : (p, c) ∈ every_pair a b ↔ p ∈ a ∧ c ∈ b.
Proof.
  unfold every_pair. rewrite elem_of_list_to_set, list_elem_of_bind. split.
  - intros (q & (k & ? & ?)%list_elem_of_fmap & ?). by simplify_eq.
  - intros [? ?]. exists p. split; [|done]. by apply list_elem_of_fmap_2.
Qed.

Lemma elem_of_shifted (n : nat) (es : gset (nat * nat)) (p c : nat) :
  (p, c) ∈ (set_map (shift n) es : gset _) ↔
  ∃ p' c', p = (n + p')%nat ∧ c = (n + c')%nat ∧ (p', c') ∈ es.
Proof.
  rewrite elem_of_map. unfold shift. split.
  - intros ([p' c'] & ? & ?). simplify_eq/=. exists p', c'. split_and!; [lia..|done].
  - intros (p' & c' & -> & -> & ?). exists (p', c'). split; [|done]. simpl. f_equal; lia.
Qed.

Lemma order_after_all a b : order (after_all a b) = (order a + order b)%nat.
Proof. unfold order. simpl. apply length_app. Qed.

Lemma order_beside a b : order (beside a b) = (order a + order b)%nat.
Proof. unfold order. simpl. apply length_app. Qed.

Lemma links_beside a b p c :
  (p, c) ∈ links (beside a b) ↔
  (p, c) ∈ links a ∨ ∃ p' c', p = (order a + p')%nat ∧ c = (order a + c')%nat ∧ (p', c') ∈ links b.
Proof. simpl. by rewrite elem_of_union, elem_of_shifted. Qed.

Lemma links_after_all a b p c :
  (p, c) ∈ links (after_all a b) ↔
  (p, c) ∈ links a ∨
  (∃ p' c', p = (order a + p')%nat ∧ c = (order a + c')%nat ∧ (p', c') ∈ links b) ∨
  p ∈ leaves a ∧ ∃ c', c = (order a + c')%nat ∧ c' ∈ roots b.
Proof.
  simpl. rewrite !elem_of_union, elem_of_shifted, elem_of_every_pair, list_elem_of_fmap. tauto.
Qed.

Lemma ascending_no_nodes : ascending no_nodes.
Proof. intros p c. simpl. set_solver. Qed.

Lemma ascending_single s : ascending (single s).
Proof. intros p c. simpl. set_solver. Qed.

Lemma ascending_beside a b : ascending a → ascending b → ascending (beside a b).
Proof.
  intros Ha Hb p c. rewrite links_beside, order_beside.
  intros [H|(p' & c' & -> & -> & H)]; [apply Ha in H|apply Hb in H]; lia.
Qed.

Lemma ascending_after_all a b : ascending a → ascending b → ascending (after_all a b).
Proof.
  intros Ha Hb p c. rewrite links_after_all, order_after_all.
  intros [H|[(p' & c' & -> & -> & H)|[[? _]%elem_of_leaves (c' & -> & [? _]%elem_of_roots)]]];
    [apply Ha in H|apply Hb in H|]; lia.
Qed.

#[local] Hint Resolve ascending_no_nodes ascending_single ascending_beside ascending_after_all : core.

Lemma ascending_series a l : ascending a → Forall ascending l → ascending (foldl after_all a l).
Proof. intros Ha Hl. revert a Ha. induction Hl; simpl; auto. Qed.

Lemma ascending_parallel a l : ascending a → Forall ascending l → ascending (foldl beside a l).
Proof. intros Ha Hl. revert a Ha. induction Hl; simpl; auto. Qed.

(** An empty step changes nothing. *)
Lemma ascending_empty w : ascending w → nodes w = [] → w = no_nodes.
Proof.
  intros Hw Hn. destruct w as [n e]. simpl in *. subst. unfold no_nodes. f_equal.
  apply set_eq. intros [p c]. split; [|set_solver]. intros H%Hw. unfold order in H. simpl in H. lia.
Qed.

Lemma after_all_empty a : after_all a no_nodes = a.
Proof.
  destruct a as [n e]. unfold after_all, no_nodes. simpl. rewrite app_nil_r. f_equal.
  apply set_eq. intros [p c]. rewrite !elem_of_union, elem_of_shifted, elem_of_every_pair.
  set_solver.
Qed.

(** Filtering a later range is filtering the first one, moved. *)
Lemma filter_seq_shift (P Q : nat → bool) n m :
  (∀ i, (i < m)%nat → P (n + i)%nat = Q i) →
  List.filter P (seq n m) = (λ i, (n + i)%nat) <$> List.filter Q (seq 0 m).
Proof.
  induction m as [|m IH]; intros H; [done|].
  rewrite !seq_S, !List.filter_app, fmap_app, IH by (intros; apply H; lia).
  f_equal. simpl. rewrite H by lia. by destruct (Q m).
Qed.

Lemma root_zero w : ascending w → nodes w ≠ [] → 0%nat ∈ roots w.
Proof.
  intros Hw Hn. apply elem_of_roots. split.
  - unfold order. destruct (nodes w); simpl; [done|lia].
  - intros p H%Hw. lia.
Qed.

(** What comes last in [b] comes last after [a]. *)
Lemma leaves_after_all a b :
  ascending a → ascending b → nodes b ≠ [] →
  leaves (after_all a b) = (λ leaf, (order a + leaf)%nat) <$> leaves b.
Proof.
  intros Ha Hb Hn. unfold leaves at 1. rewrite order_after_all, seq_app, List.filter_app.
  rewrite (List.filter_ext_in _ (λ _, false) (seq 0 _)).
  - rewrite filter_false. simpl. apply filter_seq_shift. intros i Hi. f_equal.
    apply bool_decide_ext. rewrite !elem_of_map. split.
    + intros ([p c] & E & H). simpl in E. subst p. apply links_after_all in H as [H|[H|[H _]]].
      * apply Ha in H. lia.
      * destruct H as (p' & c' & ? & _ & H). exists (p', c'). split; [simpl; lia|done].
      * apply elem_of_leaves in H as [H _]. lia.
    + intros ([p c] & -> & H). exists ((order a + p)%nat, (order a + c)%nat). split; [done|].
      apply links_after_all. right. left. eauto 10.
  - intros i Hi%in_seq. apply negb_false_iff, bool_decide_eq_true, elem_of_map.
    destruct (decide (i ∈ leaves a)) as [Hl|Hl].
    + exists (i, (order a + 0)%nat). split; [done|]. apply links_after_all. right. right.
      split; [done|]. exists 0%nat. split; [done|]. by apply root_zero.
    + rewrite elem_of_leaves in Hl.
      destruct (decide (set_Exists (λ e : nat * nat, e.1 = i) (links a))) as [([p c] & H & <-)|He].
      * exists (p, c). split; [done|]. apply links_after_all. by left.
      * destruct Hl. split; [lia|]. intros c H. apply He. by exists (i, c).
Qed.

(** ** The heap *)

Definition valid (h : gmap nat Workflow) (i : item) : Prop :=
  match i with OfSignature _ => True | OfWorkflow ref => is_Some (h !! ref) end.

Lemma deref_at h ref w : h !! ref = Some w → deref h ref = w.
Proof. unfold deref. by intros ->. Qed.

Lemma value_later h h' i : h ⊆ h' → valid h i → value h' i = value h i.
Proof.
  destruct i as [s|ref]; simpl; [done|]. intros Hs [w Hw].
  rewrite (deref_at h _ w) by done. apply deref_at. by eapply lookup_weaken.
Qed.

Lemma alloc_spec w h :
  (alloc w h).2 !! (alloc w h).1 = Some w ∧ h !! (alloc w h).1 = None ∧ h ⊆ (alloc w h).2.
Proof.
  unfold alloc. simpl. assert (h !! fresh (dom h) = None) as Hn.
  { apply not_elem_of_dom, is_fresh. }
  split_and!; [apply lookup_insert_eq|done|by apply insert_subseteq].
Qed.

(** An item becomes an object of its value; what was there stays. *)
Lemma as_workflow_spec i h :
  valid h i →
  (as_workflow i h).2 !! (as_workflow i h).1 = Some (value h i) ∧ h ⊆ (as_workflow i h).2.
Proof.
  destruct i as [s|ref]; simpl.
  - intros _. destruct (alloc_spec (single s) h) as (? & _ & ?). done.
  - intros [w Hw]. split; [|done]. by rewrite (deref_at h ref w).
Qed.

Lemma as_workflow_new i h h0 flow :
  valid h0 i → h0 !! flow = None → h !! flow ≠ None → (as_workflow i h).1 ≠ flow.
Proof.
  destruct i as [s|ref]; simpl.
  - intros _ _ H E. apply H. rewrite <- E. by apply not_elem_of_dom, is_fresh.
  - intros [w Hw] Hn _ ->. congruence.
Qed.

Lemma add_edges_at flow es h w :
  h !! flow = Some w →
  add_edges flow es h = <[flow := {| nodes := nodes w; links := links w ∪ es |}]> h.
Proof. intros Hw. unfold add_edges. by rewrite (deref_at h flow w). Qed.

Lemma kept_under (h0 h : gmap nat Workflow) flow w : h0 !! flow = None → h0 ⊆ h → h0 ⊆ <[flow := w]> h.
Proof. intros Hn Hs. by apply insert_subseteq_r. Qed.

(** The loops, from any graph built so far: [flow] is no object the caller has,
    and [tails] are the leaves of what is there. *)
Lemma chain_loop_spec h0 flow steps h w :
  h0 !! flow = None → h0 ⊆ h → h !! flow = Some w → ascending w →
  Forall (valid h0) steps → Forall (λ i, ascending (value h0 i)) steps →
  h0 ⊆ chain_loop flow (leaves w) steps h ∧
  chain_loop flow (leaves w) steps h !! flow = Some (foldl after_all w (value h0 <$> steps)).
Proof.
  intros Hn Hs Hw Ha Hv. revert h w Hs Hw Ha.
  induction Hv as [|i l Hi _ IH]; intros h w Hs Hw Ha Has; simpl; [done|].
  apply Forall_cons in Has as [Hi' Has].
  assert (valid h i) as Hih by (destruct i; [done|by eapply lookup_weaken_is_Some]).
  pose proof (as_workflow_spec i h Hih) as [Hsub Hh].
  pose proof (as_workflow_new i h h0 flow Hi Hn) as Hne.
  destruct (as_workflow i h) as [sub h1]. simpl in *.
  rewrite (value_later h0) in Hsub by done. rewrite (deref_at h1 sub _ Hsub).
  assert (h1 !! flow = Some w) as Hw1 by by eapply lookup_weaken.
  destruct (decide (nodes (value h0 i) = [])) as [He|He].
  - rewrite (ascending_empty (value h0 i)), after_all_empty by done.
    apply IH; [by etrans|done..].
  - rewrite (deref_at h1 flow w Hw1).
    rewrite (add_edges_at _ _ _ (beside w (value h0 i))) by apply lookup_insert_eq.
    rewrite <- leaves_after_all by done. apply IH; [|apply lookup_insert_eq|auto|done].
    apply kept_under; [done|]. apply kept_under; [done|by etrans].
Qed.

Lemma group_loop_spec h0 flow branches h w :
  h0 !! flow = None → h0 ⊆ h → h !! flow = Some w → Forall (valid h0) branches →
  h0 ⊆ group_loop flow branches h ∧
  group_loop flow branches h !! flow = Some (foldl beside w (value h0 <$> branches)).
Proof.
  intros Hn Hs Hw Hv. revert h w Hs Hw.
  induction Hv as [|i l Hi _ IH]; intros h w Hs Hw; simpl; [done|].
  assert (valid h i) as Hih by (destruct i; [done|by eapply lookup_weaken_is_Some]).
  pose proof (as_workflow_spec i h Hih) as [Hsub Hh].
  destruct (as_workflow i h) as [sub h1]. simpl in *.
  rewrite (value_later h0) in Hsub by done.
  assert (h1 !! flow = Some w) as Hw1 by by eapply lookup_weaken.
  rewrite (deref_at h1 flow w Hw1), (deref_at h1 sub _ Hsub).
  apply (IH _ (beside w (value h0 i))).
  - apply kept_under; [done|by etrans].
  - apply lookup_insert_eq.
Qed.

Lemma chain_builds steps h :
  Forall (valid h) steps → Forall (λ i, ascending (value h i)) steps →
  h !! (chain steps h).1 = None ∧ h ⊆ (chain steps h).2 ∧
  (chain steps h).2 !! (chain steps h).1 = Some (in_series (value h <$> steps)).
Proof.
  intros Hv Ha. unfold chain. pose proof (alloc_spec no_nodes h) as (Hw & Hn & Hs).
  destruct (alloc no_nodes h) as [flow h1]. simpl in *. split; [done|].
  by apply (chain_loop_spec h flow steps h1 no_nodes).
Qed.

Lemma group_builds branches h :
  Forall (valid h) branches →
  h !! (group branches h).1 = None ∧ h ⊆ (group branches h).2 ∧
  (group branches h).2 !! (group branches h).1 = Some (in_parallel (value h <$> branches)).
Proof.
  intros Hv. unfold group. pose proof (alloc_spec no_nodes h) as (Hw & Hn & Hs).
  destruct (alloc no_nodes h) as [flow h1]. simpl in *. split; [done|].
  by apply group_loop_spec.
Qed.

(** A chord is its body followed by its callback, built in the body's own object
    when it has one. *)
Lemma chord_builds body callback h :
  valid h body →
  (chord body callback h).2 !! (chord body callback h).1 =
    Some (after_all (value h body) (single callback)) ∧
  match body with
  | OfSignature _ => h !! (chord body callback h).1 = None ∧ h ⊆ (chord body callback h).2
  | OfWorkflow ref => (chord body callback h).1 = ref ∧
      delete ref h ⊆ (chord body callback h).2
  end.
Proof.
  intros Hv. unfold chord. pose proof (as_workflow_spec body h Hv) as [Hw Hs].
  assert (match body with
    | OfSignature _ => h !! (as_workflow body h).1 = None
    | OfWorkflow ref => (as_workflow body h).1 = ref end) as Hb.
  { destruct body as [s|ref]; [|done]. apply (alloc_spec (single s) h). }
  destruct (as_workflow body h) as [flow h1]. cbn [fst snd] in *.
  pose proof (alloc_spec (single callback) h1) as (Hl & Hn & Hs1).
  destruct (alloc (single callback) h1) as [lst h2]. cbn [fst snd] in *.
  assert (h2 !! flow = Some (value h body)) as Hw2 by by eapply lookup_weaken.
  unfold absorb. rewrite (deref_at h1 flow _ Hw), (deref_at h2 flow _ Hw2), (deref_at h2 lst _ Hl).
  rewrite (add_edges_at _ _ _ (beside (value h body) (single callback)))
    by apply lookup_insert_eq.
  cbn [fst snd]. split.
  - rewrite lookup_insert_eq. unfold after_all, beside. simpl.
    change (roots (single callback)) with [0%nat]. simpl. by rewrite Nat.add_0_r.
  - destruct body as [s|ref].
    + split; [done|]. by apply kept_under, kept_under, (transitivity Hs).
    + split; [done|]. subst. apply kept_under, kept_under, (transitivity (y := h));
        [apply lookup_delete_eq..|apply delete_subseteq|by etrans].
Qed.

(** ** What runs before what *)

Definition linked (w : Workflow) (p c : nat) : Prop := (p, c) ∈ links w.

Lemma before_range w i j : ascending w → before w i j → (i < j < order w)%nat.
Proof. intros Hw H. induction H as [p c H|p b c H _ IH]; apply Hw in H; lia. Qed.

(** Every node leads to a leaf and comes from a root. *)
Lemma reaches_leaf w i :
  ascending w → (i < order w)%nat → ∃ l, l ∈ leaves w ∧ rtc (linked w) i l.
Proof.
  intros Hw. remember (order w - i)%nat as n eqn:E. revert i E.
  induction (lt_wf n) as [n _ IH]. intros i -> Hi.
  destruct (decide (set_Exists (λ e : nat * nat, e.1 = i) (links w))) as [([p c] & H & <-)|He].
  - pose proof (Hw _ _ H) as Hc. simpl. destruct (IH (order w - c)%nat) with (i := c) as (l & ? & ?);
      [simpl; lia|done|lia|]. exists l. split; [done|]. by apply rtc_l with c.
  - exists i. split; [|done]. apply elem_of_leaves. split; [done|]. intros c H. apply He. by exists (i, c).
Qed.

Lemma comes_from_root w i :
  ascending w → (i < order w)%nat → ∃ r, r ∈ roots w ∧ rtc (linked w) r i.
Proof.
  intros Hw. induction (lt_wf i) as [i _ IH]. intros Hi.
  destruct (decide (set_Exists (λ e : nat * nat, e.2 = i) (links w))) as [([p c] & H & <-)|He].
  - pose proof (Hw _ _ H) as Hc. simpl in *. destruct (IH p) as (r & ? & ?); [lia..|].
    exists r. split; [done|]. by apply rtc_r with p.
  - exists i. split; [|done]. apply elem_of_roots. split; [done|]. intros p H. apply He. by exists (p, i).
Qed.

(** A composition keeps the order of its parts and puts the first before the
    second, and that is all it orders. *)
Lemma before_after_all a b i j :
  ascending a → ascending b →
  before (after_all a b) i j ↔
  before a i j ∨
  (∃ i' j', i = (order a + i')%nat ∧ j = (order a + j')%nat ∧ before b i' j') ∨
  (i < order a <= j ∧ j < order a + order b)%nat.
Proof.
  intros Ha Hb. split.
  - intros H. induction H as [p c H|p m c H _ IH].
    + apply links_after_all in H as [H|[(p' & c' & -> & -> & H)|[Hp (c' & -> & Hc)]]].
      * left. by apply tc_once.
      * right. left. exists p', c'. split_and!; [done..|]. by apply tc_once.
      * right. right. apply elem_of_leaves in Hp as [? _]. apply elem_of_roots in Hc as [? _]. lia.
    + apply links_after_all in H as [H|[(p' & m' & -> & -> & H)|[Hp (m' & -> & Hc)]]].
      * pose proof (Ha _ _ H). destruct IH as [IH|[(i' & j' & ? & ? & IH)|IH]]; [|lia|].
        -- left. by apply tc_l with m.
        -- right. right. lia.
      * destruct IH as [IH|[(i' & j' & ? & -> & IH)|IH]]; [apply (before_range a) in IH; [lia|done]| |lia].
        assert (i' = m') as -> by lia. right. left. exists p', j'. split_and!; [done..|].
        by apply tc_l with m'.
      * apply elem_of_leaves in Hp as [? _]. apply elem_of_roots in Hc as [? _].
        destruct IH as [IH|[(i' & j' & ? & -> & IH)|IH]]; [apply (before_range a) in IH; [lia|done]| |lia].
        apply (before_range b) in IH; [|done]. right. right. lia.
  - intros [H|[(i' & j' & -> & -> & H)|H]].
    + unfold before. revert H. apply tc_congruence with (f := id). intros p c ?.
      apply links_after_all. by left.
    + unfold before. revert H. apply tc_congruence with (f := λ k, (order a + k)%nat). intros p c ?.
      apply links_after_all. right. left. eauto 10.
    + destruct (reaches_leaf a i) as (l & Hl & Hil); [done|lia|].
      destruct (comes_from_root b (j - order a)) as (r & Hr & Hrj); [done|lia|].
      apply tc_rtc_l with l.
      { revert Hil. apply rtc_congruence with (f := id). intros p c ?. apply links_after_all. by left. }
      apply tc_rtc_r with (order a + r)%nat.
      { apply tc_once, links_after_all. right. right. eauto. }
      replace j with (order a + (j - order a))%nat by lia. revert Hrj.
      apply rtc_congruence with (f := λ k, (order a + k)%nat). intros p c ?.
      apply links_after_all. right. left. eauto 10.
Qed.

Lemma order_series a l : order (foldl after_all a l) = (order a + sum_list (order <$> l))%nat.
Proof.
  revert a. induction l as [|b l IH]; intros a; csimpl; [lia|]. rewrite IH, order_after_all. lia.
Qed.

(** What follows leaves the order of what is there and waits for all of it. *)
Lemma before_series a l i j :
  ascending a → Forall ascending l → (i < order a)%nat → (j < order (foldl after_all a l))%nat →
  before (foldl after_all a l) i j ↔ before a i j ∨ (order a <= j)%nat.
Proof.
  intros Ha Hl. revert a Ha. induction Hl as [|b l Hb _ IH]; intros a Ha Hi Hj; simpl in *.
  - intuition lia.
  - rewrite IH by (rewrite ?order_after_all; auto; lia).
    rewrite before_after_all, order_after_all by done. rewrite order_series, order_after_all in Hj.
    split; [|intuition lia].
    intros [[H|[(i' & j' & -> & _)|H]]|H]; [by left|lia|right; lia..].
Qed.

(** The steps of a chain, each whole before the next and each ordered as it
    was. *)
Lemma series_orders pre post s i j :
  Forall ascending (pre ++ s :: post) →
  let n := order (in_series pre) in
  let w := in_series (pre ++ s :: post) in
  (j < order w)%nat →
  ((i < n)%nat → (n <= j)%nat → before w i j) ∧
  ((n <= i < n + order s)%nat → (n <= j < n + order s)%nat →
     before w i j ↔ before s (i - n) (j - n)).
Proof.
  intros Hl n w Hj. apply Forall_app in Hl as [Hpre [Hs Hpost]%Forall_cons].
  assert (ascending (in_series pre)) as Hp by by apply ascending_series.
  unfold w, in_series in *. rewrite foldl_app in *. split.
  - intros Hi Hn. apply before_series; auto.
  - intros Hi Hjn. simpl in *.
    rewrite before_series by (rewrite ?order_after_all; auto; fold n; lia).
    rewrite order_after_all, before_after_all by done. fold n. split.
    + intros [[H%before_range|[(i' & j' & -> & -> & H)|H]]|H]; [fold n in H; lia|done| |fold n in H; lia|lia].
      by replace (n + i' - n)%nat with i' by lia; replace (n + j' - n)%nat with j' by lia.
    + intros H. left. right. left. exists (i - n)%nat, (j - n)%nat. split_and!; [lia..|done].
Qed.

(** Side by side, nothing waits on the other side. *)
Lemma before_beside a b i j :
  ascending a → ascending b →
  before (beside a b) i j ↔
  before a i j ∨ ∃ i' j', i = (order a + i')%nat ∧ j = (order a + j')%nat ∧ before b i' j'.
Proof.
  intros Ha Hb. split.
  - intros H. induction H as [p c H|p m c H _ IH].
    + apply links_beside in H as [H|(p' & c' & -> & -> & H)]; [left; by apply tc_once|].
      right. exists p', c'. split_and!; [done..|]. by apply tc_once.
    + apply links_beside in H as [H|(p' & m' & -> & -> & H)].
      * pose proof (Ha _ _ H). destruct IH as [IH|(i' & j' & ? & ? & IH)]; [|lia].
        left. by apply tc_l with m.
      * destruct IH as [IH|(i' & j' & ? & -> & IH)]; [apply (before_range a) in IH; [lia|done]|].
        assert (i' = m') as -> by lia. right. exists p', j'. split_and!; [done..|].
        by apply tc_l with m'.
  - intros [H|(i' & j' & -> & -> & H)]; unfold before; revert H.
    + apply tc_congruence with (f := id). intros p c ?. apply links_beside. by left.
    + apply tc_congruence with (f := λ k, (order a + k)%nat). intros p c ?.
      apply links_beside. right. eauto 10.
Qed.

(** ** What the constructors promise *)

Lemma nodes_fold op l :
  (∀ a b, nodes (op a b) = nodes a ++ nodes b) → nodes (foldl op no_nodes l) = concat (nodes <$> l).
Proof.
  intros Hop. change (concat _) with (nodes no_nodes ++ concat (nodes <$> l)).
  generalize no_nodes. induction l as [|b l IH]; intros a; simpl; [by rewrite app_nil_r|].
  rewrite IH, Hop. by rewrite app_assoc.
Qed.

Lemma value_ascending h steps :
  Forall (λ i, ascending (value h i)) steps → Forall ascending (value h <$> steps).
Proof. by rewrite Forall_fmap. Qed.

(** Later branches bring no edge to what is there, nor from it. *)
Lemma links_parallel a l p c :
  (p, c) ∈ links (foldl beside a l) → (p, c) ∈ links a ∨ (order a <= p ∧ order a <= c)%nat.
Proof.
  revert a. induction l as [|b l IH]; intros a; simpl; [by left|].
  intros [H|H]%IH; [|rewrite order_beside in H; right; lia].
  apply links_beside in H as [H|(p' & c' & -> & -> & _)]; [by left|right; lia].
Qed.

Lemma before_parallel a l i j :
  ascending a → before (foldl beside a l) i j → ((i < order a)%nat ↔ (j < order a)%nat).
Proof.
  intros Ha H. induction H as [p c H|p m c H _ IH]; [|rewrite <- IH];
    (apply links_parallel in H as [H|H]; [apply Ha in H; lia|lia]).
Qed.

(** C6. The constructors build the graphs they are named for, out of arguments
    that are tasks or graphs whose edges lead forward. In a chain everything in
    the first [k] steps, for each [k], comes before everything after them; in a
    group nothing of the first [k] branches comes before anything after them, nor
    the other way round; in a chord the callback comes after every node of the
    body. Each result has its edges leading forward again, so constructors nest.
    A chain and a group are new objects and change none of the caller's; a chord
    over a graph is the caller's own object, extended. *)
Theorem constructors_build h items body callback :
  Forall (valid h) (body :: items) → Forall (λ i, ascending (value h i)) (body :: items) →
  (∃ flow h' w, chain items h = (flow, h') ∧ h !! flow = None ∧ h ⊆ h' ∧ h' !! flow = Some w ∧
     ascending w ∧ nodes w = concat (nodes <$> (value h <$> items)) ∧
     ∀ k i j, (i < order (in_series (take k (value h <$> items))) <= j)%nat → (j < order w)%nat →
       before w i j) ∧
  (∃ flow h' w, group items h = (flow, h') ∧ h !! flow = None ∧ h ⊆ h' ∧ h' !! flow = Some w ∧
     ascending w ∧ nodes w = concat (nodes <$> (value h <$> items)) ∧
     ∀ k i j, before w i j →
       (i < order (in_parallel (take k (value h <$> items))) ↔
        j < order (in_parallel (take k (value h <$> items))))%nat) ∧
  (∃ flow h' w, chord body callback h = (flow, h') ∧ h' !! flow = Some w ∧
     ascending w ∧ nodes w = nodes (value h body) ++ [callback] ∧
     (∀ i, (i < order (value h body))%nat → before w i (order (value h body))) ∧
     match body with
     | OfSignature _ => h !! flow = None ∧ h ⊆ h'
     | OfWorkflow ref => flow = ref ∧ delete ref h ⊆ h'
     end).
Proof.
  intros [Hb Hv]%Forall_cons [Hba Ha]%Forall_cons. pose proof (value_ascending h items Ha) as Hl.
  split_and!; do 3 eexists; (split; [apply surjective_pairing|]).
  - destruct (chain_builds items h Hv Ha) as (? & ? & ?).
    split_and!; [done..|by apply ascending_series|by apply nodes_fold|]. intros k i j [Hi Hj] Hw.
    rewrite <- (take_drop k (value h <$> items)) in Hw |- *. unfold in_series in *. rewrite foldl_app in *.
    apply before_series; [|by apply Forall_drop|done..|by right]. by apply ascending_series, Forall_take.
  - destruct (group_builds items h Hv) as (? & ? & ?).
    split_and!; [done..|by apply ascending_parallel|by apply nodes_fold|]. intros k i j.
    rewrite <- (take_drop k (value h <$> items)) at 1. unfold in_parallel. rewrite foldl_app.
    apply before_parallel. by apply ascending_parallel, Forall_take.
  - destruct (chord_builds body callback h Hb) as [? ?]. split_and!; [done|auto|done| |done].
    intros i Hi. apply before_after_all; auto. right. right.
    change (order (single callback)) with 1%nat. lia.
Qed.

(** ** Reuse of a body *)

(** A body used for two chords: the second callback waits for the first too, for
    it is part of the body by then. *)
Lemma chord_extends_body h ref w first second :
  h !! ref = Some w → ascending w →
  let h1 := (chord (OfWorkflow ref) first h).2 in
  let h2 := (chord (OfWorkflow ref) second h1).2 in
  h1 !! ref = Some (after_all w (single first)) ∧
  ∃ w2, h2 !! ref = Some w2 ∧ nodes w2 = nodes w ++ [first; second] ∧ before w2 (order w) (S (order w)).
Proof.
  intros Hw Ha. destruct (chord_builds (OfWorkflow ref) first h) as [H1 [E1 _]]; [by eexists|].
  rewrite E1 in H1. unfold value in H1. rewrite (deref_at h ref w Hw) in H1.
  generalize dependent ((chord (OfWorkflow ref) first h).2). intros h1 H1.
  destruct (chord_builds (OfWorkflow ref) second h1) as [H2 [E2 _]]; [by eexists|].
  rewrite E2 in H2. unfold value in H2. rewrite (deref_at _ ref _ H1) in H2. split; [done|]. eexists. split; [done|]. split.
  - simpl. by rewrite <- app_assoc.
  - apply before_after_all; auto. rewrite order_after_all. right. right.
    change (order (single first)) with 1%nat. change (order (single second)) with 1%nat. lia.
Qed.

(** ** An example *)

(** Two tasks in a row, their values extended by a third. *)
Definition extract : NewJob := NewJob_new "extract" [].
Definition load : NewJob := NewJob_new "load" [].
Definition notify : NewJob := NewJob_new "notify" [].
Definition drawn : gmap nat Workflow := {[0%nat := in_series [single extract; single load]]}.

Lemma constructors_build_witness :
  let items := [OfWorkflow 0; OfSignature notify] in
  (chain items drawn).2 !! (chain items drawn).1 =
    Some {| nodes := [extract; load; notify]; links := {[(0%nat, 1%nat); (1%nat, 2%nat)]} |} ∧
  (∃ flow h' w, chord (OfWorkflow 0) notify drawn = (flow, h') ∧ h' !! flow = Some w ∧
     nodes w = [extract; load; notify] ∧ before w 0 2 ∧ flow = 0%nat).
Proof.
  intros items. split; [by vm_compute|].
  destruct (constructors_build drawn items (OfWorkflow 0) notify) as (_ & _ & flow & h' & w & E & Hw & _ & Hn & Hb & Hf & _).
  - repeat constructor; eexists; by vm_compute.
  - assert (ascending (in_series [single extract; single load])) by by apply ascending_series; auto.
    apply Forall_cons; split; [done|]. apply Forall_cons; split; [done|].
    apply Forall_singleton, ascending_single.
  - exists flow, h', w. split_and!; [done..|exact (Hb 0%nat ltac:(vm_compute; lia))|done].
Defined.

End Compose.
