(* ===== verification/WorkflowRun.v ===== *)
(** * Workflows as they run

    A graph once it is in the database: in every run of statements, by any
    workers, a job starts only after everything before it in the graph has
    completed; and while nothing of the graph is deleted unfinished, it is never
    stuck. *)

From S2P Require Import Prelude.
From S2P Require Import PgTable.
From S2P Require Import PgJobs.
From S2P Require Import PgCron.
From S2P Require Import PgRetention.
From S2P Require Import PgWorkflow.
From S2P Require Import PgInvariant.
From S2P Require Import PgSteps.
From S2P Require Import PgReach.
From S2P Require Import PgExample.
From S2P Require Import PgTypes.
From S2P Require Import Compose.
Import Table.
Import Jobs.
Import Cron.
Import Retention.
Import Workflow.
Import Invariant.
Import Steps.
Import Reach.
Import Example.
Import Types.
Import Compose.

Module WorkflowRun.

(** ** Edges and counters across a statement *)

(** A statement that completes nothing: edges come only with new jobs and go only
    with a job at one of their ends, and no counter moves. *)
Record steady (d d' : db) : Prop := {
  steady_new p c w : edges d' !! (p, c) = Some w → edges d !! (p, c) = Some w ∨ next_job d <= c;
  steady_old p c w : edges d !! (p, c) = Some w →
    is_Some (jobs d' !! p) → is_Some (jobs d' !! c) → edges d' !! (p, c) = Some w;
  steady_rows i r r' : jobs d !! i = Some r → jobs d' !! i = Some r' →
    pending_deps r' = pending_deps r ∧ (state r' = completed → state r = completed) }.

Lemma same_steady d d' : jobs d' = jobs d → edges d' = edges d → steady d d'.
Proof. intros E1 E2. split; rewrite ?E1, ?E2; [by left|done|]. intros. by simplify_eq. Qed.

Lemma update_steady f d d' :
  (∀ i r r', jobs d !! i = Some r → f i r = Some r' →
     pending_deps r' = pending_deps r ∧ (state r' = completed → state r = completed)) →
  commit (update f d) = Ok d' → steady d d'.
Proof.
  intros Hf (-> & _)%commit_Ok. split; [by left|done|].
  intros i r r' Hr (r0 & ? & ->)%lookup_update_Some. simplify_eq.
  destruct (f i r) as [r1|] eqn:E; simpl; [by eapply Hf|done].
Qed.

Lemma insert_steady r0 d d' : db_ok d → commit (insert_job r0 d) = Ok d' → steady d d'.
Proof.
  intros Hd (-> & _)%commit_Ok. split; [by left|done|]. intros i r r' Hr. simpl.
  rewrite lookup_insert_ne; [intros; by simplify_eq|]. intros <-. by rewrite fresh_id in Hr.
Qed.

Lemma delete_steady ids d : steady d (delete_jobs ids d).
Proof.
  split.
  - intros p c w (? & _)%delete_edges. by left.
  - intros p c w Hw [r [_ ?]%delete_lookup] [r' [_ ?]%delete_lookup]. by apply delete_edges.
  - intros i r r' Hr [? _]%delete_lookup. by simplify_eq.
Qed.

Lemma prune_workflows_steady d : db_ok d → steady d (prune_workflows d).2.
Proof.
  intros Hd. split; simpl.
  - intros p c w [? _]%map_lookup_filter_Some. by left.
  - intros p c w Hw _ [r Hr]. apply map_lookup_filter_Some. split; [done|]. simpl.
    rewrite elem_of_filter. intros [Hn _]. assert (c ∈ ([] : list Z)) as Hin; [|by apply elem_of_nil in Hin].
    rewrite <- Hn. apply elem_of_select. exists r. split; [done|].
    apply bool_decide_eq_true. by eapply (members_ok _ Hd).
  - intros. by simplify_eq.
Qed.

(** ** Insertion *)

Lemma insert_edges_has w ids l m m' :
  insert_edges w ids l m = Some m' →
  (∀ e, is_Some (m !! e) → is_Some (m' !! e)) ∧
  (∀ p c, (p, c) ∈ l → ∃ a b, ids !! p = Some a ∧ ids !! c = Some b ∧ is_Some (m' !! (a, b))).
Proof.
  revert m. induction l as [|[p c] l IH]; intros m; simpl.
  { intros ?; simplify_eq. split; [done|]. by intros p c ?%elem_of_nil. }
  destruct (ids !! p) as [a|] eqn:Hp; simpl; [|done].
  destruct (ids !! c) as [b|] eqn:Hc; simpl; [|done]. intros [Hm Hl]%IH. split.
  - intros e He. apply Hm. by apply lookup_insert_is_Some'; right.
  - intros p' c' [?|?]%elem_of_cons; [|by apply Hl]. simplify_eq. exists a, b. split_and!; [done..|].
    apply Hm. rewrite lookup_insert_eq. done.
Qed.

(** How many parents a node has. *)
Definition parents_of (f : Workflow) (c : nat) : gset (nat * nat) := filter (λ e : nat * nat, e.2 = c) (links f).

(** What an inserted graph is: its nodes under consecutive new ids, waiting and
    counting their parents, with an edge for each link and no other edge to
    them. *)
Record inserted (f : Workflow) (base : Z) (d : db) : Prop := {
  in_next : base + Z.of_nat (order f) <= next_job d;
  in_rows c : (c < order f)%nat → ∃ r, jobs d !! (base + Z.of_nat c) = Some r ∧
    state r = available ∧ pending_deps r = Z.of_nat (size (parents_of f c));
  in_links p c : (p, c) ∈ links f → (p < order f)%nat ∧ (c < order f)%nat ∧
    is_Some (edges d !! (base + Z.of_nat p, base + Z.of_nat c));
  in_edges a c : (c < order f)%nat → is_Some (edges d !! (a, base + Z.of_nat c)) →
    ∃ p, a = base + Z.of_nat p ∧ (p, c) ∈ links f }.

Lemma insert_nodes_next now w l d ids d' :
  insert_nodes now w l d = Ok (ids, d') → next_job d' = next_job d + Z.of_nat (length l).
Proof.
  revert d ids d'. induction l as [|[j p] l IH]; intros d ids d' E; simpl in E; [simplify_eq; simpl; lia|].
  destruct (commit _) as [d1|] eqn:Ec; simpl in E; [|done].
  destruct (insert_nodes now w l d1) as [[ids1 d2]|] eqn:E1; simplify_eq/=.
  apply IH in E1. apply commit_Ok in Ec as [-> _]. simpl in *. lia.
Qed.

Lemma workflow_inserted now f d ids d' :
  db_ok d → nodes f ≠ [] →
  enqueue_workflow now f d = Ok (ids, d') →
  inserted f (next_job d) d' ∧ length ids = order f ∧
  (∀ c i, ids !! c = Some i → i = next_job d + Z.of_nat c) ∧
  (∀ e, is_Some (edges d' !! e) → is_Some (edges d !! e) ∨ next_job d <= e.2) ∧
  (∀ e, is_Some (edges d !! e) → is_Some (edges d' !! e)).
Proof.
  intros Hd Hne. unfold enqueue_workflow. rewrite decide_False by done. case_decide; [done|].
  destruct (insert_nodes _ _ _ _) as [[ids' d1]|] eqn:E; simpl; [|done].
  destruct (insert_edges _ _ _ _) as [m|] eqn:Em; [|done]. intros ?; simplify_eq.
  pose proof (insert_nodes_next _ _ _ _ _ _ E) as Hnext.
  apply insert_nodes_ok in E as (Hd1 & He & Hlen & Hids & Hold & Hnew & Hall); [|by apply new_workflow_ok].
  assert (length (zip (nodes f) (dependencies f)) = order f) as Hz.
  { rewrite length_zip. unfold dependencies. rewrite length_imap. unfold order. lia. }
  rewrite Hz in *. simpl in *. rewrite He in Em.
  assert (∀ c, (c < order f)%nat → ids !! c = Some (next_job d + Z.of_nat c)) as Hat.
  { intros c Hc. destruct (lookup_lt_is_Some_2 ids c) as [i Hi]; [lia|]. rewrite Hi. f_equal. by apply Hids. }
  destruct (insert_edges_has _ _ _ _ _ Em) as [Hkept Hhas].
  assert (∀ e, is_Some (m !! e) → is_Some (edges d !! e) ∨
    ∃ p c, (p, c) ∈ links f ∧ e.1 = next_job d + Z.of_nat p ∧ e.2 = next_job d + Z.of_nat c) as Hm.
  { intros e [x Hx]. destruct (insert_edges_spec _ _ _ _ _ _ _ Em Hx) as [?|(_ & p & c & Hin & Hp & Hc)];
      [left; by eexists|right]. exists p, c. split_and!; [by apply elem_of_elements|by apply Hids..]. }
  split_and!; [|done..| |exact Hkept].
  - split; simpl.
    + lia.
    + intros c Hc. destruct (lookup_lt_is_Some_2 (nodes f) c) as [j Hj]; [done|].
      eexists. split; [|split].
      * eapply Hnew; [by apply Hat|]. by rewrite lookup_zip_with, Hj, (dependencies_lookup _ _ _ Hj).
      * done.
      * done.
    + intros p c Hpc. destruct (Hhas p c) as (a & b & Ha & Hb & Hs); [by apply elem_of_elements|].
      pose proof (Hids _ _ Ha) as ->. pose proof (Hids _ _ Hb) as ->.
      apply lookup_lt_Some in Ha, Hb. split_and!; [lia..|done].
    + intros a c Hc [?|(p & c' & Hin & Hp & Hc')]%Hm.
      * destruct (edges_ok _ Hd a (next_job d + Z.of_nat c)) as [_ [r Hr]]; [done|].
        assert (next_job d + Z.of_nat c < next_job d) by (apply (ids_ok _ Hd); eauto). lia.
      * simpl in *. assert (c' = c) as -> by lia. eauto.
  - intros e [?|(p & c & _ & _ & ->)]%Hm; [by left|right; lia].
Qed.
(** Settles a statement that updates rows in place and completes none. *)
Ltac by_steady_update :=
  destruct (commit _) as [?|] eqn:?; simplify_eq/=; eapply update_steady; [|eassumption];
  match goal with H : commit _ = _ |- _ => clear H end;
  cbv beta; intros; cases; bool_facts; simplify_eq/=; try done.

Section Planned.
Context {Pl : Planner}.

Lemma workflow_steady now f d ids d' :
  db_ok d → enqueue_workflow now f d = Ok (ids, d') → steady d d'.
Proof.
  intros Hd E. destruct (decide (nodes f = [])) as [Hn|Hn].
  { unfold enqueue_workflow in E. rewrite decide_True in E by done. simplify_eq. by apply same_steady. }
  destruct (workflow_inserted _ _ _ _ _ Hd Hn E) as (_ & _ & _ & Hnew & Hold).
  assert (∀ e w w', edges d !! e = Some w → edges d' !! e = Some w' → w' = w) as Hsame.
  { intros [p c] w w' Hw Hw'. destruct (edges_ok _ Hd p c) as [_ [r Hr]]; [by eexists|].
    pose proof (members_ok _ Hd _ _ _ _ Hw Hr). pose proof (workflow_keeps _ _ _ _ _ _ _ Hd E Hr) as Hr'.
    pose proof (members_ok _ (workflow_ok _ _ _ _ _ Hd E) _ _ _ _ Hw' Hr'). congruence. }
  split.
  - intros p c w Hw. destruct (Hnew (p, c)) as [[w' Hw']|?]; [by eexists| |by right].
    left. by rewrite Hw', (Hsame _ _ _ Hw' Hw).
  - intros p c w Hw _ _. destruct (Hold (p, c)) as [w' Hw']; [by eexists|].
    by rewrite Hw', (Hsame _ _ _ Hw Hw').
  - intros i r r' Hr Hr'. rewrite (workflow_keeps _ _ _ _ _ _ _ Hd E Hr) in Hr'. by simplify_eq.
Qed.

Lemma lease_steady now worker lease ids d l d' :
  lease_rows now worker lease ids d = Ok (l, d') → steady d d'.
Proof. rewrite lease_rows_eq. unfold lease_update. intros H. by_steady_update. Qed.

(** A statement that is not steady is a completion. *)
Lemma step_steady d d' :
  db_ok d → step d d' →
  steady d d' ∨ ∃ now v worker, d' = update (complete_update now v worker d) d.
Proof.
  intros Hd Hs. destruct Hs.
  - left. unfold enqueue in H. destruct (commit _) eqn:E; simplify_eq/=. by eapply insert_steady.
  - left. by eapply insert_steady.
  - left. by eapply workflow_steady.
  - left. unfold FETCH_UNKEYED in H. apply negative_limit in H as [_ H].
    destruct (lease_rows _ _ _ _ _) as [[? ?]|] eqn:E; simplify_eq/=.
    by eapply lease_steady.
  - left. unfold FETCH_KEYED in H. apply negative_limit in H as [_ H].
    by eapply lease_steady.
  - unfold complete in H. case_decide; [left; simplify_eq; by apply same_steady|right].
    unfold COMPLETE in H. destruct (commit _) as [d1|] eqn:E; simplify_eq/=.
    apply commit_Ok in E as [-> _]. eauto.
  - left. unfold retry_many in H. case_decide; [simplify_eq; by apply same_steady|].
    destruct (RETRY_MANY _ _ _ _ _ _ _) as [[[? ?] d1]|] eqn:E; simplify_eq/=.
    unfold RETRY_MANY in E. destruct (existsb _ _); [done|]. by_steady_update.
  - left. unfold discard_many in H. case_decide; [simplify_eq; by apply same_steady|].
    destruct (DISCARD_MANY _ _ _ _) as [[[? ?] d1]|] eqn:E; simplify_eq/=.
    unfold DISCARD_MANY in E. by_steady_update.
  - left. unfold renew_leases, RENEW in H. case_decide; [simplify_eq; by apply same_steady|]. by_steady_update.
  - left. unfold abandon_leases, ABANDON in H. case_decide; [simplify_eq; by apply same_steady|]. by_steady_update.
  - left. unfold reclaim_expired, RECLAIM in H. apply negative_limit in H as [_ H]. by_steady_update.
  - left. unfold cancel in H. case_decide; [simplify_eq; by apply same_steady|]. by_steady_update.
  - left. unfold retry_discarded in H. by_steady_update.
  - left. apply delete_steady.
  - left. unfold prune_completed, prune_states in H. destruct (n <? 0); simplify_eq. apply delete_steady.
  - left. unfold prune_discarded, prune_states in H. destruct (n <? 0); simplify_eq. apply delete_steady.
  - left. by apply prune_workflows_steady.
  - left. by apply same_steady.
  - left. unfold fire_cron, FIRE_CRON in H. destruct (crons d !! name); [|simplify_eq; by apply same_steady].
    destruct (cron_due _ _); [|simplify_eq; by apply same_steady].
    destruct (commit _) as [d1|] eqn:E; simplify_eq/=.
    eapply insert_steady in E as []; [by split|by apply set_crons_ok].
  - left. unfold record_step, RECORD_STEP in H. repeat case_match; simplify_eq; by apply same_steady.
Qed.

(** A statement that deletes none of [ids] unfinished. *)
Definition sparing (ids : list Z) (d d' : db) : Prop :=
  step d d' ∧ ∀ i r, i ∈ ids → jobs d !! i = Some r → jobs d' !! i = None → state r = completed.

(** A job that is running or has run. *)
Definition started (r : job_row) : Prop := state r ∈ [running; completed; discarded].

(** [i] completed on the way from [d] to [d']. *)
Definition completed_by (d d' : db) (i : Z) : Prop :=
  ∃ d1 r, rtc step d d1 ∧ rtc step d1 d' ∧ jobs d1 !! i = Some r ∧ state r = completed.

(** [i] has completed, and may have been pruned since. *)
Definition finished (d : db) (i : Z) : Prop :=
  match jobs d !! i with Some r => state r = completed | None => True end.

(** The job is running, or waits for nothing but its time and a fetch. *)
Definition movable (r : job_row) : Prop :=
  match state r with
  | available => pending_deps r = 0 ∧ scheduled_at r ≠ Infinity
  | running => True
  | completed | discarded | cancelled => False
  end.

(** The job ended without completing. *)
Definition failed (r : job_row) : Prop := state r ∈ [discarded; cancelled].

(** ** One graph through a run *)

Section Graph.
Variables (f : Workflow) (base : Z).
Hypothesis in_range : ∀ p c, (p, c) ∈ links f → (p < order f)%nat ∧ (c < order f)%nat.

Definition node (c : nat) : Z := base + Z.of_nat c.

(** Edges into node [c] from nodes that have never completed; [E] holds the jobs
    that have. *)
Definition awaited (E : gset Z) (c : nat) : gset (nat * nat) :=
  filter (λ e : nat * nat, e.2 = c ∧ node e.1 ∉ E) (links f).

(** A counter never falls below the parents still awaited. *)
Record tracked (E : gset Z) (d : db) : Prop := {
  tr_next : base + Z.of_nat (order f) <= next_job d;
  tr_edges a c : (c < order f)%nat → is_Some (edges d !! (a, node c)) →
    ∃ p, a = node p ∧ (p, c) ∈ links f;
  tr_done c r : (c < order f)%nat → jobs d !! node c = Some r → (node c ∈ E ↔ state r = completed);
  tr_pending c r : (c < order f)%nat → jobs d !! node c = Some r →
    Z.of_nat (size (awaited E c)) <= pending_deps r }.

(** And is no more, while only finished nodes have been deleted. *)
Record complete_so_far (E : gset Z) (d : db) : Prop := {
  cs_edges p c : (p, c) ∈ links f → is_Some (jobs d !! node p) → is_Some (jobs d !! node c) →
    is_Some (edges d !! (node p, node c));
  cs_pending c r : (c < order f)%nat → jobs d !! node c = Some r →
    pending_deps r <= Z.of_nat (size (awaited E c));
  cs_gone c : (c < order f)%nat → jobs d !! node c = None → node c ∈ E }.

(** The jobs that have completed, one statement later. *)
Definition grown (E : gset Z) (d' : db) : gset Z :=
  E ∪ list_to_set (List.filter (λ i, bool_decide ((state <$> jobs d' !! i) = Some completed))
                     (node <$> seq 0 (order f))).

Lemma elem_of_grown E d' i :
  i ∈ grown E d' ↔ i ∈ E ∨ ∃ c r, i = node c ∧ (c < order f)%nat ∧ jobs d' !! i = Some r ∧ state r = completed.
Proof.
  unfold grown. rewrite elem_of_union, elem_of_list_to_set, list_elem_of_In, filter_In, <- list_elem_of_In.
  rewrite list_elem_of_fmap, bool_decide_eq_true, fmap_Some. split.
  - intros [?|[(c & -> & Hc%elem_of_seq) (r & ? & ?)]]; [by left|]. right. exists c, r. split_and!; [done|lia|done..].
  - intros [?|(c & r & -> & Hc & Hr & Hs)]; [by left|]. right. split; [|by exists r].
    exists c. split; [done|]. apply elem_of_seq. lia.
Qed.

Lemma inserted_tracked d : inserted f base d → tracked ∅ d ∧ complete_so_far ∅ d.
Proof.
  intros [Hn Hr Hl He]. assert (∀ c, awaited ∅ c = parents_of f c) as Ha.
  { intros c. unfold awaited, parents_of. apply set_eq. intros e. rewrite !elem_of_filter. set_solver. }
  split; split; try done.
  - intros c r Hc Hc'. destruct (Hr c Hc) as (r' & ? & Hs & _). unfold node in *. simplify_eq.
    rewrite Hs. set_solver.
  - intros c r Hc Hc'. destruct (Hr c Hc) as (r' & ? & _ & Hp). unfold node in *. simplify_eq.
    rewrite Ha, Hp. done.
  - intros p c Hpc _ _. apply (Hl p c Hpc).
  - intros c r Hc Hc'. destruct (Hr c Hc) as (r' & ? & _ & Hp). unfold node in *. simplify_eq.
    rewrite Ha, Hp. done.
  - intros c Hc Hn'. destruct (Hr c Hc) as (r' & ? & _). unfold node in *. congruence.
Qed.

Lemma awaited_mono E E' c : E ⊆ E' → (size (awaited E' c) <= size (awaited E c))%nat.
Proof. intros H. apply subseteq_size. intros e. unfold awaited. rewrite !elem_of_filter. set_solver. Qed.

(** A row of the graph was there before. *)
Lemma was_there E d d' c r' :
  tracked E d → db_ok d → step d d' → (c < order f)%nat → jobs d' !! node c = Some r' →
  ∃ r, jobs d !! node c = Some r ∧ evolves r r'.
Proof.
  intros Ht Hd Hs Hc Hr'. destruct (jobs d !! node c) as [r|] eqn:Hr.
  - exists r. split; [done|]. destruct (step_carries d d' _ r Hd Hs Hr) as [(r1 & ? & ?)|[? _]]; [|congruence].
    by simplify_eq.
  - destruct (arrive_jobs _ _ (step_arrives d d' Hd Hs) _ _ Hr Hr') as (_ & ? & _).
    pose proof (tr_next _ _ Ht). unfold node in *. lia.
Qed.

Lemma completed_stays r r' : evolves r r' → state r = completed → state r' = completed.
Proof. intros (_ & _ & Hm) Hs. destruct Hm; congruence. Qed.

(** What a completion does to what is awaited: the parents it finishes are
    awaited until then and not after. *)
Definition closed_by (E : gset Z) (v : list (Z * option (list byte))) (worker : uuid) (d : db) (c : nat)
  : gset (nat * nat) :=
  filter (λ e : nat * nat, node e.1 ∈ completing v worker d) (awaited E c).

Lemma completing_row E v worker d p :
  tracked E d → node p ∈ completing v worker d → (p < order f)%nat →
  (node p ∉ E) ∧ ∃ r, jobs d !! node p = Some r ∧ state r = running.
Proof.
  intros Ht (r & Hr & [Hh%held_running _]%andb_prop)%elem_of_select Hp.
  split; [|eauto]. rewrite (tr_done _ _ Ht p r Hp Hr). congruence.
Qed.

Lemma completing_grown E now v worker d p :
  node p ∈ completing v worker d → (p < order f)%nat →
  node p ∈ grown E (update (complete_update now v worker d) d).
Proof.
  intros Hin Hp. pose proof Hin as (r & Hr & _)%elem_of_select. apply elem_of_grown. right.
  exists p. eexists. split_and!; [done|done|apply lookup_update_Some; eauto|].
  by destruct (complete_cases now v worker d (node p) r Hr).
Qed.

Lemma awaited_closed E now v worker d c :
  tracked E d →
  (size (awaited (grown E (update (complete_update now v worker d) d)) c) +
    size (closed_by E v worker d c))%nat = size (awaited E c).
Proof.
  intros Ht. rewrite <- size_union.
  - f_equal. apply set_eq. intros [p c']. unfold closed_by, awaited.
    rewrite elem_of_union, !elem_of_filter. simpl. split.
    + intros [[[-> Hn] Hl]|[_ H]]; [|done]. split; [split; [done|]|done]. intros HE. apply Hn, elem_of_grown. by left.
    + intros [[-> Hn] Hl]. destruct (in_range _ _ Hl) as [Hp _].
      destruct (decide (node p ∈ completing v worker d)) as [Hi|Hi]; [by right|left].
      split_and!; [done| |done]. intros [?|(q & r & Hq & _ & Hr & Hs)]%elem_of_grown; [done|].
      apply lookup_update_Some in Hr as (r0 & Hr0 & ->). apply Hn.
      rewrite (tr_done _ _ Ht p r0 Hp Hr0).
      by destruct (complete_cases now v worker d (node p) r0 Hr0).
  - intros [p c']. unfold closed_by, awaited. rewrite !elem_of_filter. simpl.
    intros [[_ Hn] Hl] [Hi _]. destruct (in_range _ _ Hl) as [Hp _]. by apply Hn, completing_grown.
Qed.

Lemma edges_from_awaited E v worker d c :
  tracked E d → (c < order f)%nat →
  edges_from (completing v worker d) (node c) d <= Z.of_nat (size (closed_by E v worker d c)).
Proof.
  intros Ht Hc. apply inj_le.
  etrans; [|apply (size_set_map_le (λ e : nat * nat, (node e.1, node e.2)))].
  apply subseteq_size. intros [a b]. rewrite elem_of_filter, elem_of_dom. simpl. intros [[Ha ->] He].
  destruct (tr_edges _ _ Ht a c Hc He) as (p & -> & Hpc). apply elem_of_map. exists (p, c). split; [done|].
  destruct (in_range _ _ Hpc) as [Hp _]. unfold closed_by, awaited. rewrite !elem_of_filter.
  split_and!; try done. by eapply completing_row.
Qed.

Lemma awaited_edges_from E v worker d c r :
  tracked E d → complete_so_far E d → (c < order f)%nat → jobs d !! node c = Some r →
  Z.of_nat (size (closed_by E v worker d c)) <= edges_from (completing v worker d) (node c) d.
Proof.
  intros Ht Hk Hc Hr. apply inj_le.
  etrans; [|apply (size_set_map_le (λ e : Z * Z, (Z.to_nat (e.1 - base), Z.to_nat (e.2 - base))))].
  apply subseteq_size. intros [p c']. unfold closed_by, awaited. rewrite !elem_of_filter. simpl.
  intros (Hi & [-> _] & Hpc). destruct (in_range _ _ Hpc) as [Hp _].
  apply elem_of_map. exists (node p, node c). split; [unfold node; simpl; f_equal; lia|].
  apply elem_of_filter. split; [done|]. apply elem_of_dom. apply (cs_edges _ _ Hk); [done| |by eexists].
  destruct (completing_row _ _ _ _ _ Ht Hi Hp) as (_ & q & Hq & _). by eexists.
Qed.

(** ** Steps *)

Lemma step_done E d d' c r' :
  tracked E d → db_ok d → step d d' → (c < order f)%nat → jobs d' !! node c = Some r' →
  (node c ∈ grown E d' ↔ state r' = completed).
Proof.
  intros Ht Hd Hs Hc Hr'. rewrite elem_of_grown. split.
  - intros [HE|(c' & r & _ & _ & Hr & ?)]; [|by simplify_eq].
    destruct (was_there _ _ _ _ _ Ht Hd Hs Hc Hr') as (r & Hr & Hev).
    eapply completed_stays; [done|]. by apply (tr_done _ _ Ht c).
  - intros Hst. right. eauto 10.
Qed.

Lemma step_tracked E d d' : tracked E d → db_ok d → step d d' → tracked (grown E d') d'.
Proof.
  intros Ht Hd Hs. split.
  - pose proof (tr_next _ _ Ht). pose proof (arrive_next _ _ (step_arrives d d' Hd Hs)). lia.
  - intros a c Hc [w Hw]. apply (tr_edges _ _ Ht); [done|].
    destruct (step_steady d d' Hd Hs) as [Hst|(now & v & worker & ->)]; [|by eexists].
    destruct (steady_new _ _ Hst _ _ _ Hw) as [?|?]; [by eexists|].
    pose proof (tr_next _ _ Ht). unfold node in *. lia.
  - intros c r'. by apply (step_done E d).
  - intros c r' Hc Hr'. destruct (was_there _ _ _ _ _ Ht Hd Hs Hc Hr') as (r & Hr & _).
    pose proof (tr_pending _ _ Ht c r Hc Hr) as Hp.
    destruct (step_steady d d' Hd Hs) as [Hst|(now & v & worker & ->)].
    + rewrite (proj1 (steady_rows _ _ Hst _ _ _ Hr Hr')). etrans; [|done]. apply inj_le, awaited_mono.
      intros i Hi. apply elem_of_grown. by left.
    + pose proof (awaited_closed E now v worker d c Ht). pose proof (edges_from_awaited E v worker d c Ht Hc).
      apply lookup_update_Some in Hr' as (r0 & Hr0 & ->). rewrite Hr in Hr0. injection Hr0 as <-.
      destruct (complete_cases now v worker d (node c) r Hr); simpl; lia.
Qed.

Lemma steady_grown E d d' p :
  tracked E d → db_ok d → step d d' → steady d d' → (p < order f)%nat → node p ∈ grown E d' → node p ∈ E.
Proof.
  intros Ht Hd Hs Hst Hp [?|(c & r' & E1 & Hc & Hr' & Hc')]%elem_of_grown; [done|].
  destruct (was_there _ _ _ _ _ Ht Hd Hs Hp Hr') as (r & Hr & _).
  apply (tr_done _ _ Ht p r); [done..|]. by apply (steady_rows _ _ Hst _ _ _ Hr Hr').
Qed.

Lemma step_complete_so_far ids E d d' :
  (∀ c, (c < order f)%nat → node c ∈ ids) →
  tracked E d → complete_so_far E d → db_ok d → sparing ids d d' → complete_so_far (grown E d') d'.
Proof.
  intros Hids Ht Hk Hd [Hs Hdel]. split.
  - intros p c Hpc [rp Hrp] [rc Hrc]. destruct (in_range _ _ Hpc) as [Hp Hc].
    destruct (was_there _ _ _ _ _ Ht Hd Hs Hp Hrp) as (rp0 & Hrp0 & _).
    destruct (was_there _ _ _ _ _ Ht Hd Hs Hc Hrc) as (rc0 & Hrc0 & _).
    destruct (cs_edges _ _ Hk p c) as [w Hw]; [done|by eexists..|]. exists w.
    destruct (step_steady d d' Hd Hs) as [Hst|(now & v & worker & ->)]; [|done].
    apply (steady_old _ _ Hst); by eauto.
  - intros c r' Hc Hr'. destruct (was_there _ _ _ _ _ Ht Hd Hs Hc Hr') as (r & Hr & _).
    pose proof (cs_pending _ _ Hk c r Hc Hr) as Hp.
    destruct (step_steady d d' Hd Hs) as [Hst|(now & v & worker & ->)].
    + rewrite (proj1 (steady_rows _ _ Hst _ _ _ Hr Hr')). etrans; [done|]. apply inj_le, subseteq_size.
      intros [p c']. unfold awaited. rewrite !elem_of_filter. simpl. intros [[-> Hn] Hl].
      split; [split; [done|]|done]. contradict Hn. eapply steady_grown; [done..|by apply in_range in Hl as [? _]|done].
    + pose proof (awaited_closed E now v worker d c Ht).
      pose proof (awaited_edges_from E v worker d c r Ht Hk Hc Hr).
      apply lookup_update_Some in Hr' as (r0 & Hr0 & ->). rewrite Hr in Hr0. injection Hr0 as <-.
      destruct (complete_cases now v worker d (node c) r Hr) as [res ? Hh%held_running|n|]; simpl; [|lia..].
      destruct (running_row r (rows_ok _ Hd _ _ Hr) Hh) as (_ & _ & _ & Hz & _). lia.
  - intros c Hc Hn. apply elem_of_grown. left. destruct (jobs d !! node c) as [r|] eqn:Hr.
    + apply (tr_done _ _ Ht c r); [done..|]. eapply Hdel; [by apply Hids|done..].
    + by apply (cs_gone _ _ Hk).
Qed.

(** ** Runs *)

Lemma run_tracked d d' :
  inserted f base d → db_ok d → rtc step d d' →
  db_ok d' ∧ ∃ E, tracked E d' ∧ ∀ i, i ∈ E → completed_by d d' i.
Proof.
  intros Hi Hd Hrun. revert d' Hrun.
  apply (rtc_ind_r (λ x, db_ok x ∧ ∃ E, tracked E x ∧ ∀ i, i ∈ E → completed_by d x i)).
  - split; [done|]. exists ∅. split; [by apply inserted_tracked|set_solver].
  - intros d1 d2 Hrun Hs (Hd1 & E & Ht & HE). split; [by eapply step_ok|].
    exists (grown E d2). split; [by eapply step_tracked|].
    intros i [(d0 & r & ? & ? & ?)%HE|(c & r & _ & _ & Hr & Hc)]%elem_of_grown.
    + exists d0, r. split_and!; [done| |tauto..]. by eapply rtc_r.
    + exists d2, r. split_and!; [by eapply rtc_r|done..].
Qed.

Lemma parent_completed d d' p c r :
  inserted f base d → db_ok d → rtc step d d' → (p, c) ∈ links f →
  jobs d' !! node c = Some r → started r → completed_by d d' (node p).
Proof.
  intros Hi Hd Hrun Hpc Hr Hs. destruct (run_tracked d d' Hi Hd Hrun) as (Hd' & E & Ht & HE).
  apply HE. destruct (in_range _ _ Hpc) as [Hp Hc]. pose proof (tr_pending _ _ Ht c r Hc Hr) as Hle.
  assert (pending_deps r = 0) as Hz.
  { apply (ok_met r (rows_ok _ Hd' _ _ Hr)); intros E1; unfold started in Hs; rewrite E1 in Hs; set_solver. }
  destruct (decide (node p ∈ E)) as [|Hn]; [done|exfalso].
  assert ((p, c) ∈ awaited E c) as Hin by by apply elem_of_filter.
  apply elem_of_subseteq_singleton, subseteq_size in Hin. rewrite size_singleton in Hin. lia.
Qed.

Lemma completed_by_later d d1 d' i : rtc step d1 d' → completed_by d d1 i → completed_by d d' i.
Proof. intros H (d0 & r & ? & ? & ? & ?). exists d0, r. split_and!; [done|by etrans|done..]. Qed.

Lemma ancestors_completed d p c :
  inserted f base d → db_ok d → before f p c → ∀ d' r,
  rtc step d d' → jobs d' !! node c = Some r → started r → completed_by d d' (node p).
Proof.
  intros Hi Hd Hb. induction Hb as [p c H|p m c H _ IH]; intros d' r Hrun Hr Hs.
  - by eapply parent_completed.
  - destruct (IH _ _ Hrun Hr Hs) as (d1 & q & Hd1 & Hd1' & Hq & Hqs).
    eapply completed_by_later; [done|]. eapply parent_completed; [done..|].
    unfold started. rewrite Hqs. set_solver.
Qed.

Lemma run_complete ids d d' :
  (∀ c, (c < order f)%nat → node c ∈ ids) →
  inserted f base d → db_ok d → rtc (sparing ids) d d' →
  db_ok d' ∧ ∃ E, tracked E d' ∧ complete_so_far E d'.
Proof.
  intros Hids Hi Hd Hrun. revert d' Hrun.
  apply (rtc_ind_r (λ x, db_ok x ∧ ∃ E, tracked E x ∧ complete_so_far E x)).
  - split; [done|]. exists ∅. by apply inserted_tracked.
  - intros d1 d2 _ Hs (Hd1 & E & Ht & Hk). pose proof Hs as [Hs' _]. split; [by eapply step_ok|].
    exists (grown E d2). split; [by eapply step_tracked|by eapply step_complete_so_far].
Qed.

(** The first unfinished node of a graph whose edges lead forward waits for
    nothing. *)
Lemma first_unfinished ids d d' n :
  (∀ c, (c < order f)%nat → node c ∈ ids) → ascending f →
  inserted f base d → db_ok d → rtc (sparing ids) d d' → (n <= order f)%nat →
  (∀ c, (c < n)%nat → finished d' (node c)) ∨
  ∃ c r, (c < n)%nat ∧ jobs d' !! node c = Some r ∧ (movable r ∨ failed r).
Proof.
  intros Hids Hasc Hi Hd Hrun. destruct (run_complete ids d d' Hids Hi Hd Hrun) as (Hd' & E & Ht & Hk).
  induction n as [|n IH]; intros Hn; [left; lia|].
  destruct IH as [Hf|(c & r & ? & ?)]; [lia| |right; exists c, r; split; [lia|done]].
  destruct (jobs d' !! node n) as [r|] eqn:Hr.
  2:{ left. intros c Hc. destruct (decide (c = n)) as [->|]; [|apply Hf; lia]. unfold finished. by rewrite Hr. }
  destruct (decide (state r = completed)) as [Hs|Hs].
  { left. intros c Hc. destruct (decide (c = n)) as [->|]; [|apply Hf; lia]. unfold finished. by rewrite Hr. }
  right. exists n, r. split_and!; [lia|done|]. unfold movable, failed.
  destruct (state r) eqn:Es; try done; [left|by left|right; set_solver..].
  assert (awaited E n = ∅) as Hz.
  { apply set_eq. intros [p c]. split; [|set_solver]. intros [[Hc Hp] Hl]%elem_of_filter. simpl in *. subst c.
    destruct Hp. pose proof (Hasc _ _ Hl) as Hpn. specialize (Hf p). unfold finished in Hf.
    destruct (jobs d' !! node p) as [q|] eqn:Hq; [|apply (cs_gone _ _ Hk); [lia|done]].
    apply (tr_done _ _ Ht p q); [lia|done|]. apply Hf. lia. }
  pose proof (cs_pending _ _ Hk n r ltac:(lia) Hr) as Hp. rewrite Hz, size_empty in Hp.
  pose proof (rows_ok _ Hd' _ _ Hr) as Hok. pose proof (ok_checks _ Hok) as (_ & _ & _ & _ & H0).
  split; [lia|]. intros Hinf. apply (ok_parked r Hok) in Hinf; [lia|by left].
Qed.

End Graph.

Lemma inserted_range f base d :
  inserted f base d → ∀ p c, (p, c) ∈ links f → (p < order f)%nat ∧ (c < order f)%nat.
Proof. intros Hi p c H. by apply (in_links _ _ _ Hi) in H as (? & ? & _). Qed.

(** C4. Once a graph is enqueued, whatever any worker, operator or timer does
    to the database, a job of it runs, completes or is given up on only after
    every job before it in the graph has completed: at some earlier point of the
    run, though its row may have been deleted since. *)
Theorem workflow_runs_in_order now f d0 ids d d' i j a b r :
  reachable d0 → enqueue_workflow now f d0 = Ok (ids, d) → rtc step d d' →
  before f i j → ids !! i = Some a → ids !! j = Some b →
  jobs d' !! b = Some r → started r → completed_by d d' a.
Proof.
  intros Hd0%reachable_ok E Hrun Hb Hi Hj Hr Hs. destruct (decide (nodes f = [])) as [Hn|Hn].
  { unfold enqueue_workflow in E. rewrite decide_True in E by done. simplify_eq. }
  destruct (workflow_inserted _ _ _ _ _ Hd0 Hn E) as (Hin & _ & Hids & _).
  apply Hids in Hi as ->. apply Hids in Hj as ->.
  eapply (ancestors_completed f (next_job d0)); [by eapply inserted_range|done| |done..].
  by eapply workflow_ok.
Qed.

(** A graph whose edges lead forward, which is what the constructors build,
    is never stuck while no job of it is deleted unfinished: all its jobs have
    completed, or one is running or waits for nothing but its time and a fetch,
    or one was discarded or cancelled. *)
Lemma workflow_never_stuck now f d0 ids d d' :
  reachable d0 → ascending f →
  enqueue_workflow now f d0 = Ok (ids, d) → rtc (sparing ids) d d' →
  (∀ a, a ∈ ids → finished d' a) ∨
  ∃ a r, a ∈ ids ∧ jobs d' !! a = Some r ∧ (movable r ∨ failed r).
Proof.
  intros Hd0%reachable_ok Ha E Hrun. destruct (decide (nodes f = [])) as [Hn|Hn].
  { unfold enqueue_workflow in E. rewrite decide_True in E by done. simplify_eq. left. by intros a ?%elem_of_nil. }
  destruct (workflow_inserted _ _ _ _ _ Hd0 Hn E) as (Hin & Hlen & Hids & _).
  assert (∀ c, (c < order f)%nat → ids !! c = Some (node (next_job d0) c)) as Hat.
  { intros c Hc. destruct (lookup_lt_is_Some_2 ids c) as [x Hx]; [lia|]. rewrite Hx. f_equal. by apply Hids. }
  destruct (first_unfinished f (next_job d0) (inserted_range _ _ _ Hin) ids d d' (order f))
    as [Hall|(c & r & Hc & Hr & Hm)]; try done.
  - intros c Hc. eapply list_elem_of_lookup_2, Hat, Hc.
  - by eapply workflow_ok.
  - left. intros x [c Hc]%list_elem_of_lookup. pose proof (lookup_lt_Some _ _ _ Hc).
    apply Hids in Hc as ->. apply Hall. lia.
  - right. exists (node (next_job d0) c), r. split_and!; [|done..]. by eapply list_elem_of_lookup_2, Hat.
Qed.

End Planned.

(** ** A run of the example's workflow *)

(** [extract] is leased and completed, then [load] is leased. *)
Definition extracting : db :=
  match FETCH_UNKEYED 200 ["default"] 10 alice 1000 ∅ enqueued2 with
  | Ok (_, _, d) => d | Err _ => empty end.
Definition extracted : db := after (complete 300 [2] [None] alice extracting).
Definition loading : db :=
  match FETCH_UNKEYED 400 ["default"] 10 bob 1000 ∅ extracted with
  | Ok (_, _, d) => d | Err _ => empty end.

Lemma enqueued1_reachable : reachable enqueued1.
Proof. apply rtc_once. eapply (by_enqueue _ 100 mail 1); by vm_compute. Qed.

Lemma extracting_step : step enqueued2 extracting.
Proof. eapply (by_unkeyed _ 200 ["default"] 10 alice 1000 ∅). by vm_compute. Qed.

Lemma loading_run : rtc step enqueued2 loading.
Proof.
  eapply rtc_l; [apply extracting_step|]. apply rtc_l with extracted; [|apply rtc_once].
  - eapply (by_complete _ 300 [2] [None] alice 1). by vm_compute.
  - eapply (by_unkeyed _ 400 ["default"] 10 bob 1000 ∅). by vm_compute.
Qed.

Lemma workflow_runs_in_order_witness :
  (state <$> jobs loading !! 3) = Some running ∧ completed_by enqueued2 loading 2.
Proof.
  destruct (jobs loading !! 3) as [r|] eqn:Hr; [|by vm_compute in Hr].
  assert (state r = running) as Hs.
  { assert ((state <$> jobs loading !! 3) = Some running) as E by by vm_compute. by rewrite Hr in E; apply (inj Some) in E. }
  split; [simpl; by f_equal|].
  apply (workflow_runs_in_order 100 pair enqueued1 [2; 3] enqueued2 loading 0 1 2 3 r).
  - apply enqueued1_reachable.
  - by vm_compute.
  - apply loading_run.
  - apply tc_once. by vm_compute.
  - done.
  - done.
  - done.
  - unfold started. rewrite Hs. apply list_elem_of_here.
Defined.

End WorkflowRun.
