(* ===== verification/PgSafety.v ===== *)
(** * Safety of the Postgres backend

    What no interleaving of statements can break: the invariant of reachable
    databases, the moves of a job's life, ownership of leases, dependencies and
    concurrency limits. *)

From S2P Require Import Prelude.
From S2P Require Import PgTable.
From S2P Require Import PgJobs.
From S2P Require Import PgCron.
From S2P Require Import PgRetention.
From S2P Require Import PgWorkflow.
From S2P Require Import PgInvariant.
From S2P Require Import PgSteps.
From S2P Require Import PgReach.
From S2P Require Import PgExample.
Import Table.
Import Jobs.
Import Cron.
Import Retention.
Import Workflow.
Import Invariant.
Import Steps.
Import Reach.
Import Example.

Module Safety.

Section Planned.
Context {Pl : Planner}.

(** C1. Every database reachable by any interleaving of statements, whatever is
    enqueued, satisfies the invariant: attempts stay within bounds, a job is leased
    exactly while it runs and finalised exactly when it is not live, a waiting job
    has an attempt left or was enqueued with none, a job is parked at infinity
    exactly while dependencies are outstanding, unique keys are unique among live
    jobs, edges and steps point at jobs that exist, and no key's running jobs
    exceed their limits. *)
Theorem reachable_invariant d : reachable d → db_ok d.
Proof. apply reachable_ok. Qed.

(** C2. One statement moves a job along its life cycle or leaves it where it
    is: the insert's columns never change, recorded errors are never lost,
    every lease costs exactly one attempt, a running job keeps its holder until
    it is settled, and a job that disappears was finished. *)
Theorem life_cycle d d' i r :
  reachable d → step d d' → jobs d !! i = Some r →
  (∃ r', jobs d' !! i = Some r' ∧ evolves r r') ∨ (jobs d' !! i = None ∧ ¬ live r).
Proof. intros Hd. apply step_carries. by apply reachable_ok. Qed.

(** C3. A worker that does not hold a job is powerless over it: whatever it reports
    (completion, failure, discard, renewal, abandonment), a job it does not hold,
    because another runs it, because it waits again after a sweep or because it is
    done, is left exactly as it was. The one exception is a job still parked behind
    one that the worker does hold and reports on, which its completion or discard
    may release or cancel. *)
Theorem stale_worker_powerless worker ids d d' i r :
  reachable d → worker_call worker ids d d' → jobs d !! i = Some r → held worker r = false →
  jobs d' !! i = Some r ∨
  (0 < pending_deps r ∧ ∃ p q, p ∈ ids ∧ jobs d !! p = Some q ∧ held worker q = true ∧ downstream d p i).
Proof. intros Hd%reachable_ok Hc Hr Hh. eapply worker_call_touches; [done..|]. by right. Qed.

(** A job with nothing pending has no open parent. *)
Lemma no_open_parent d i r p w :
  db_ok d → jobs d !! i = Some r → pending_deps r = 0 → edges d !! (p, i) = Some w →
  ∃ q, jobs d !! p = Some q ∧ state q = completed.
Proof.
  intros Hd Hr Hz He. destruct (edges_ok _ Hd p i) as [[q Hq] _]; [by eexists|].
  exists q. split; [done|]. destruct (decide (state q = completed)) as [|Hn]; [done|exfalso].
  assert (0 < pending_deps r); [|lia]. eapply open_edge_pending; [done..|].
  unfold open_parent. rewrite Hq. simpl. congruence.
Qed.

(** A job of a workflow starts only once every job it depends on has
    completed. *)
Lemma dependencies_met d d' i r r' p w :
  reachable d → step d d' →
  jobs d !! i = Some r → state r = available →
  jobs d' !! i = Some r' → state r' = running →
  edges d !! (p, i) = Some w → ∃ q, jobs d !! p = Some q ∧ state q = completed.
Proof.
  intros Hd%reachable_ok Hs Hr Ha Hr' Hrun He.
  destruct (step_carries d d' i r Hd Hs Hr) as [(r1 & Hr1 & _ & _ & Hm)|[Hn _]]; [|congruence].
  simplify_eq. destruct Hm; try congruence.
  eapply no_open_parent; [done..| |done].
  pose proof (rows_ok _ Hd i r Hr) as Hok. pose proof (ok_checks _ Hok) as (_ & _ & _ & _ & ?).
  destruct (ok_parked _ Hok) as [_ Hp]; [by left|].
  destruct (decide (0 < pending_deps r)); [exfalso; auto|lia].
Qed.

(** C12. A concurrency limit means what it says: if every running job under a
    key allows at most [m] at once, no more than [m] run. *)
Theorem concurrency_limit d k m :
  reachable d →
  (∀ i r, jobs d !! i = Some r → state r = running → concurrency_key (spec r) = Some k →
     ∃ n, max_concurrency (spec r) = Some n ∧ n <= m) →
  0 <= m → running_with k d <= m.
Proof.
  intros Hd%reachable_ok Hm Hpos. etrans; [|by apply (keys_ok _ Hd k m)].
  apply count_mono. intros i r Hr Hp. exists r. split; [done|]. bool_facts.
  destruct (Hm i r Hr) as (n & Hn & Hle); [done..|]. unfold limited, capped. rewrite Hn.
  rewrite !bool_decide_true by done. by apply Z.leb_le.
Qed.

End Planned.

(** ** Applied to the example *)

Lemma reachable_invariant_witness : db_ok leased_all.
Proof. apply reachable_invariant, leased_all_reachable. Defined.

Definition mail_running : job_row := default (new_row 0 mail) (jobs unkeyed_leased !! 1).

(** [alice] completes the first job of the pair and the mail. *)
Definition settled_once : db := after (complete_many 300 [1; 2] alice leased_all).

Lemma life_cycle_witness :
  (∃ r', jobs settled_once !! 1 = Some r' ∧ evolves mail_running r') ∨
  (jobs settled_once !! 1 = None ∧ ¬ live mail_running).
Proof.
  apply (life_cycle leased_all).
  - apply leased_all_reachable.
  - eapply (by_complete _ 300 [1; 2] [None; None] alice 2). vm_compute. reflexivity.
  - vm_compute. reflexivity.
Defined.

(** [alice]'s lease of the mail runs out and a sweep takes it back; then she reports
    it done. *)
Definition swept : db := after (reclaim_expired 5000 10 leased_all).
Definition reported_late : db := after (complete_many 5001 [1] alice swept).
Definition mail_again : job_row := default (new_row 0 mail) (jobs swept !! 1).

Lemma stale_worker_powerless_witness : state mail_again = available ∧ jobs reported_late !! 1 = Some mail_again.
Proof.
  split; [vm_compute; reflexivity|].
  destruct (stale_worker_powerless alice [1] swept reported_late 1 mail_again) as [H|[H _]].
  - eapply rtc_r; [apply leased_all_reachable|].
    eapply (by_reclaim _ 5000 10 {| released := 3; exhausted := 0 |}). vm_compute. reflexivity.
  - eapply (calls_complete alice [1] _ 5001 [None] 0). vm_compute. reflexivity.
  - vm_compute. reflexivity.
  - vm_compute. reflexivity.
  - exact H.
  - vm_compute in H. discriminate.
Defined.

Lemma concurrency_limit_witness : running_with "tenant" leased_all <= 1.
Proof.
  apply (concurrency_limit leased_all "tenant" 1).
  - apply leased_all_reachable.
  - intros i r Hr _ Hk.
    assert (bool_decide (concurrency_key (spec r) = Some "tenant" → max_concurrency (spec r) = Some 1) = true)
      as H%bool_decide_eq_true; [|eauto using Z.le_refl].
    clear Hk. revert i r Hr.
    apply (forall_rows (λ _ r, bool_decide (concurrency_key (spec r) = Some "tenant" → max_concurrency (spec r) = Some 1))).
    vm_compute. reflexivity.
  - lia.
Defined.

End Safety.
