(* ===== verification/PgFetch.v ===== *)
(** * Fetching

    What a fetch leases: the best runnable jobs, each to one worker; keyed jobs
    within their limits and never starved by unkeyed ones. *)

From S2P Require Import Prelude.
From S2P Require Import PgTable.
From S2P Require Import PgJobs.
From S2P Require Import PgWorkflow.
From S2P Require Import PgInvariant.
From S2P Require Import PgSteps.
From S2P Require Import PgReach.
From S2P Require Import PgExample.
Import Table.
Import Jobs.
Import Workflow.
Import Invariant.
Import Steps.
Import Reach.
Import Example.

Module Fetch.

Section Planned.
Context {Pl : Planner}.

(** [chosen] holds the first [n] rows that satisfy [p], in lease order. *)
Definition best_of (p : Z → job_row → bool) (n : Z) (d : db) (chosen : list (Z * job_row)) : Prop :=
  NoDup chosen.*1 ∧
  (∀ i r, (i, r) ∈ chosen → jobs d !! i = Some r ∧ p i r = true) ∧
  len chosen = Z.min n (count p d) ∧
  (∀ a i r, a ∈ chosen → jobs d !! i = Some r → p i r = true → (i, r) ∉ chosen →
     lease_order a (i, r)).

(** The outcome of leasing [chosen]: one [Job] per row, and only those rows change. *)
Definition leased_to (now : Z) (worker : uuid) (lease : Z) (chosen : list (Z * job_row))
    (d : db) (l : list Job) (d' : db) : Prop :=
  l ≡ₚ (λ ir, job_from ir.1 (lease_row now worker lease ir.2)) <$> chosen ∧
  ∀ i, jobs d' !! i =
    (λ r, if decide (i ∈ chosen.*1) then lease_row now worker lease r else r) <$> jobs d !! i.

Lemma len_ordered p d : len (ordered p d) = count p d.
Proof. unfold count, select, len. by rewrite ordered_perm, length_fmap. Qed.

Lemma sorted_take_drop {A} (R : relation A) n l a b :
  StronglySorted R l → a ∈ take n l → b ∈ drop n l → R a b.
Proof.
  intros Hs. revert n. induction Hs as [|x l Hs IH Hx]; intros n.
  { rewrite take_nil. by intros ?%elem_of_nil. }
  destruct n as [|n]; simpl; [by intros ?%elem_of_nil|].
  intros [->|Ha]%elem_of_cons Hb; [|eauto].
  rewrite Forall_forall in Hx. apply Hx. rewrite <- (take_drop n l). apply elem_of_app. by right.
Qed.

Lemma limit_best p n d : 0 <= n → best_of p n d (limit n (ordered p d)).
Proof.
  intros Hn. unfold best_of. split_and!.
  - unfold limit. rewrite fmap_take. apply (sublist_NoDup _ (ordered p d).*1); [apply NoDup_ordered|].
    apply sublist_take.
  - intros i r Hi%elem_of_limit. by apply elem_of_ordered.
  - rewrite <- len_ordered. unfold limit, len. rewrite length_take. lia.
  - intros a i r Ha Hr Hp Hni. eapply (sorted_take_drop _ (Z.to_nat n)); [apply ordered_sorted|done|].
    assert ((i, r) ∈ ordered p d) as Hin by by apply elem_of_ordered.
    rewrite <- (take_drop (Z.to_nat n) (ordered p d)) in Hin. by apply elem_of_app in Hin as [?|?].
Qed.

Lemma omap_chosen (g : Z → option Job) (h : Z * job_row → Job) (l : list (Z * job_row)) :
  (∀ ir, ir ∈ l → g ir.1 = Some (h ir)) → omap g l.*1 = h <$> l.
Proof.
  induction l as [|ir l IH]; intros H; [done|]. rewrite fmap_cons. simpl.
  rewrite H by left. simpl. f_equal. apply IH. intros x Hx. apply H. by right.
Qed.

Lemma lease_rows_spec now queues worker lease chosen d d' :
  picked_from now queues chosen d →
  commit (update (lease_update now worker lease chosen.*1) d) = Ok d' →
  ∃ l, lease_rows now worker lease chosen.*1 d = Ok (l, d') ∧
       leased_to now worker lease chosen d l d'.
Proof.
  intros Hp E. rewrite lease_rows_eq, E. simpl. eexists. split; [done|].
  apply commit_Ok in E as (-> & _).
  assert (∀ i, jobs (update (lease_update now worker lease chosen.*1) d) !! i =
    (λ r, if decide (i ∈ chosen.*1) then lease_row now worker lease r else r) <$> jobs d !! i) as Hj.
  { intros i. rewrite lookup_update. destruct (jobs d !! i); [|done]. simpl. f_equal.
    unfold lease_update. by case_decide. }
  split; [|done]. rewrite arrange_perm. apply reflexive_eq, omap_chosen.
  intros [i r] Hi. simpl. rewrite Hj. destruct (Hp i r Hi) as [-> _]. simpl.
  rewrite decide_True; [done|]. apply list_elem_of_fmap. by exists (i, r).
Qed.

(** Jobs without a key that [FETCH_UNKEYED] may take, and keyed ones that
    [FETCH_KEYED] may consider. *)
Definition open_unkeyed now queues (skip : gset Z) (i : Z) (r : job_row) : bool :=
  runnable now queues r && negb (keyed r) && negb (bool_decide (i ∈ skip)).
Definition open_keyed now queues (skip : gset Z) d (i : Z) (r : job_row) : bool :=
  runnable now queues r && keyed r && below_limit (already r d) r && negb (bool_decide (i ∈ skip)).

(** What a pass that went through leased. *)
Lemma unkeyed_took now queues n worker lease skip d l w d' :
  FETCH_UNKEYED now queues n worker lease skip d = Ok (l, w, d') →
  0 <= n ∧ w = KEYED_WAITING now queues d ∧
  ∃ chosen, best_of (open_unkeyed now queues skip) n d chosen ∧ leased_to now worker lease chosen d l d'.
Proof.
  unfold FETCH_UNKEYED. destruct (Z.ltb_spec n 0); [done|]. rewrite lease_rows_eq.
  destruct (commit _) as [d2|] eqn:Ec; simpl; [|done]. intros ?; simplify_eq. split_and!; [done..|].
  destruct (lease_rows_spec now queues worker lease _ _ _ (unkeyed_picked now queues skip n d) Ec) as (l & E & Hl).
  rewrite lease_rows_eq, Ec in E. simplify_eq/=.
  exists (limit n (unkeyed_candidates now queues skip d)). split; [by apply limit_best|done].
Qed.

Lemma keyed_took now queues n worker lease skip d l d' :
  FETCH_KEYED now queues n worker lease skip d = Ok (l, d') →
  0 <= n ∧ leased_to now worker lease (admitted [] (keyed_candidates now queues n skip d) d) d l d'.
Proof.
  unfold FETCH_KEYED. destruct (Z.ltb_spec n 0); [done|]. rewrite lease_rows_eq.
  destruct (commit _) as [d2|] eqn:Ec; simpl; [|done]. intros ?; simplify_eq. split; [done|].
  destruct (lease_rows_spec now queues worker lease _ _ _ (keyed_picked now queues n skip d) Ec) as (l & E & Hl).
  rewrite lease_rows_eq, Ec in E. by simplify_eq/=.
Qed.

(** Both go through when every job of their queues has an attempt to its name. *)
Lemma unkeyed_fetch now queues n worker lease skip d :
  db_ok d → funded queues d → 0 <= n →
  ∃ chosen l d',
    FETCH_UNKEYED now queues n worker lease skip d = Ok (l, KEYED_WAITING now queues d, d') ∧
    best_of (open_unkeyed now queues skip) n d chosen ∧
    leased_to now worker lease chosen d l d' ∧ db_ok d'.
Proof.
  intros Hd Hf Hn. pose proof (unkeyed_ok now queues n worker lease skip d Hn Hd Hf) as (x & d1 & E & Hok).
  destruct (FETCH_UNKEYED _ _ _ _ _ _ _) as [[[l w] d2]|] eqn:E'; simplify_eq/=.
  apply unkeyed_took in E' as (_ & -> & chosen & ? & ?). by exists chosen, l, d1.
Qed.

Lemma keyed_fetch now queues n worker lease skip d :
  db_ok d → funded queues d → 0 <= n →
  ∃ l d', FETCH_KEYED now queues n worker lease skip d = Ok (l, d') ∧
    leased_to now worker lease (admitted [] (keyed_candidates now queues n skip d) d) d l d' ∧ db_ok d'.
Proof.
  intros Hd Hf Hn. pose proof (keyed_ok now queues n worker lease skip d Hn Hd Hf) as (l & d1 & E & Hok).
  exists l, d1. split; [done|]. by apply keyed_took in E as [_ ?].
Qed.

Lemma len_admitted seen l d : len (admitted seen l d) <= len l.
Proof.
  revert seen. induction l as [|[i r] l IH]; intros seen; simpl; [done|].
  specialize (IH (concurrency_key (spec r) :: seen)).
  destruct (within_limit _ r); autorewrite with gylo; lia.
Qed.

Lemma len_limit {A} n (l : list A) : 0 <= n → len (limit n l) <= n.
Proof. intros. unfold limit, len. rewrite length_take. lia. Qed.

(** The first candidate is always admitted. *)
Lemma admitted_head i r l d :
  below_limit (already r d) r = true → ∃ l', admitted [] ((i, r) :: l) d = (i, r) :: l'.
Proof.
  intros H. simpl. rewrite len_nil.
  replace (within_limit (already r d + (0 + 1)) r) with true; [eauto|].
  unfold below_limit, within_limit in *. destruct (max_concurrency (spec r)); [|done].
  bool_facts. symmetry. apply Z.leb_le. lia.
Qed.

(** C24. The unkeyed pass leases the best runnable jobs: on a reachable database in
    which no job of these queues was given zero attempts it always succeeds, takes
    the first [n] runnable unkeyed jobs that no other transaction holds in the order
    priority, schedule, id over all the named queues, hands each to this worker alone
    until [now + lease] for one attempt more, returns exactly those, and touches no
    other row. *)
Theorem fetch_unkeyed_exact now queues n worker lease skip d :
  reachable d → funded queues d → 0 <= n →
  ∃ chosen l d',
    FETCH_UNKEYED now queues n worker lease skip d = Ok (l, KEYED_WAITING now queues d, d') ∧
    best_of (open_unkeyed now queues skip) n d chosen ∧
    leased_to now worker lease chosen d l d'.
Proof.
  intros Hd%reachable_ok Hf Hn. destruct (unkeyed_fetch now queues n worker lease skip d) as (? & ? & ? & ?); [done..|naive_solver].
Qed.

(** C25. The keyed pass leases only runnable keyed jobs whose key is below its
    limit, never more than [n], and leases at least one whenever there is one that
    no other transaction holds: a backlog of other work, or of jobs whose key is
    saturated, cannot starve it. No job of these queues may have been given zero
    attempts. *)
Theorem fetch_keyed_progress now queues n worker lease skip d :
  reachable d → funded queues d → 1 <= n →
  ∃ chosen l d',
    FETCH_KEYED now queues n worker lease skip d = Ok (l, d') ∧
    leased_to now worker lease chosen d l d' ∧ len chosen <= n ∧
    (∀ i r, (i, r) ∈ chosen → jobs d !! i = Some r ∧ open_keyed now queues skip d i r = true) ∧
    ((∃ i r, jobs d !! i = Some r ∧ open_keyed now queues skip d i r = true) → l ≠ []).
Proof.
  intros Hd%reachable_ok Hf Hn.
  destruct (keyed_fetch now queues n worker lease skip d) as (l & d' & E & Hl & _); [done|done|lia|].
  set (cands := keyed_candidates now queues n skip d) in *.
  assert (∀ i r, (i, r) ∈ cands → jobs d !! i = Some r ∧ open_keyed now queues skip d i r = true) as Hc.
  { intros i r Hi%elem_of_limit. by apply elem_of_ordered in Hi. }
  exists (admitted [] cands d), l, d'. split_and!; [done..| | |].
  - etrans; [apply len_admitted|]. apply len_limit. lia.
  - intros i r Hi%elem_of_admitted. by apply Hc.
  - intros (i & r & Hr & Ho) ->. destruct Hl as [Hl _]. symmetry in Hl. apply Permutation_nil_r in Hl.
    apply fmap_nil_inv in Hl.
    assert ((i, r) ∈ ordered (open_keyed now queues skip d) d) as Hin by by apply elem_of_ordered.
    destruct cands as [|[j s] l'] eqn:Ec.
    { unfold cands, keyed_candidates, limit in Ec.
      change (λ (i : Z) (r : job_row), _) with (open_keyed now queues skip d) in Ec.
      destruct (ordered _ d) as [|x l'']; [by apply elem_of_nil in Hin|].
      destruct (Z.to_nat n) eqn:En; [lia|done]. }
    destruct (admitted_head j s l' d) as [l'' H']; [|by rewrite H' in Hl].
    destruct (Hc j s) as [_ Hj]; [left|]. unfold open_keyed in Hj. by bool_facts.
Qed.

(** One of the two passes of a fetch for [worker] took [d0] to [d1] and returned [l]. *)
Definition fetched_by (worker : uuid) (d0 : db) (l : list Job) (d1 : db) : Prop :=
  ∃ now queues n lease skip,
    (∃ w, FETCH_UNKEYED now queues n worker lease skip d0 = Ok (l, w, d1)) ∨
    FETCH_KEYED now queues n worker lease skip d0 = Ok (l, d1).

(** A job some fetch for [worker] on the way to [d] returned. *)
Definition leased_job (worker : uuid) (d : db) (j : Job) : Prop :=
  ∃ d0 l d1, reachable d0 ∧ fetched_by worker d0 l d1 ∧ j ∈ l ∧ rtc step d1 d.

Lemma leased_job_later worker d d' j : rtc step d d' → leased_job worker d j → leased_job worker d' j.
Proof. intros Hs (d0 & l & d1 & ? & ? & ? & ?). exists d0, l, d1. split_and!; try done. by etrans. Qed.

Lemma leased_to_row now worker lease chosen d l d' j :
  (∀ i r, (i, r) ∈ chosen → jobs d !! i = Some r) → leased_to now worker lease chosen d l d' → j ∈ l →
  ∃ r, jobs d' !! job_id j = Some r ∧ held worker r = true ∧ j = job_from (job_id j) r.
Proof.
  intros Hc [Hl Hj] Hin. rewrite Hl in Hin.
  apply list_elem_of_fmap in Hin as ([i r] & -> & Hi). exists (lease_row now worker lease r). split_and!.
  - simpl. rewrite Hj, (Hc i r Hi). simpl. rewrite decide_True; [done|]. apply list_elem_of_fmap. by exists (i, r).
  - unfold held. simpl. by rewrite !bool_decide_true.
  - done.
Qed.

(** It is a row that fetch had just set running for its worker. *)
Lemma leased_row worker d j :
  leased_job worker d j →
  ∃ d1 r, reachable d1 ∧ rtc step d1 d ∧ jobs d1 !! job_id j = Some r ∧ held worker r = true ∧ j = job_from (job_id j) r.
Proof.
  intros (d0 & l & d1 & Hd & (now & queues & n & lease & skip & Hf) & Hj & Hs). exists d1.
  assert (step d0 d1 ∧ ∃ chosen, (∀ i r, (i, r) ∈ chosen → jobs d0 !! i = Some r) ∧ leased_to now worker lease chosen d0 l d1)
    as (Hs1 & chosen & Hc & Hl).
  { destruct Hf as [[w E]|E].
    - split; [by eapply by_unkeyed|]. apply unkeyed_took in E as (_ & _ & chosen & (_ & Hch & _) & Hl).
      exists chosen. split; [|done]. intros i r Hi. by apply Hch.
    - split; [by eapply by_keyed|]. apply keyed_took in E as [_ Hl]. eexists. split; [|done].
      intros i r Hi. by apply keyed_picked in Hi as [? _]. }
  destruct (leased_to_row _ _ _ _ _ _ _ _ Hc Hl Hj) as (r & Hr & Hh & E).
  exists r. split_and!; try done. by eapply rtc_r.
Qed.

(** Its attempt number is within bounds. *)
Lemma leased_attempts worker d j : leased_job worker d j → 1 <= job_attempt j <= job_max_attempts j.
Proof.
  intros (d0 & r & Hd%reachable_ok & _ & Hr & Hs%held_running & ->)%leased_row. simpl.
  by destruct (running_row _ (rows_ok _ Hd _ _ Hr) Hs) as (_ & _ & _ & _ & _ & ?).
Qed.

(** Between two statements of a fetch other sessions run statements of their own. *)
Definition interleaves (t : turn) : Prop := ∀ d, rtc step d (others t d).

(** A statement that takes its turn makes at most its step after the others'. *)
Lemma deliver_steps {A} (t : turn) (st : db → Prelude.result db_error (A * db)) d :
  interleaves t → (∀ d0 a d', st d0 = Ok (a, d') → step d0 d') →
  rtc step d (deliver (link t) st (others t d)).2.
Proof.
  intros Ht Hst. etrans; [apply Ht|]. unfold deliver.
  destruct (link t), (st (others t d)) as [[a d']|e] eqn:E; simpl; try done; (by eapply rtc_once, Hst).
Qed.

(** One that only reads makes none. *)
Lemma deliver_reads {A} (t : turn) (f : db → A) d :
  interleaves t → rtc step d (deliver (link t) (λ d, Ok (f d, d)) (others t d)).2.
Proof. intros Ht. etrans; [apply Ht|]. unfold deliver. by destruct (link t). Qed.

Lemma reachable_later d d' : reachable d → rtc step d d' → reachable d'.
Proof. unfold reachable. by etrans. Qed.

Lemma unkeyed_turn t queues n lease worker d :
  reachable d → interleaves t → 0 <= n →
  let '(outcome, d') := deliver (link t)
    (FETCH_UNKEYED (at_time t) queues n worker lease (locked_rows t)) (others t d) in
  rtc step d d' ∧
  match outcome with
  | Ok (l, _) => len l <= n ∧ ∀ j, j ∈ l → leased_job worker d' j
  | Err _ => True
  end.
Proof.
  intros Hd Ht Hn. pose proof (Ht d) as Hs0. pose proof (reachable_later _ _ Hd Hs0) as Hd0. unfold deliver.
  destruct (FETCH_UNKEYED _ _ _ _ _ _ _) as [[[rows w] d1]|e] eqn:E; [|by destruct (link t)].
  assert (rtc step d d1) as Hs by (eapply rtc_r; [done|by eapply by_unkeyed]).
  destruct (link t); simpl; (split; [done|]); [|done..]. split.
  - apply unkeyed_took in E as (_ & _ & chosen & (_ & _ & Hlen & _) & Hl & _).
    unfold len in *. rewrite Hl, length_fmap. lia.
  - intros j Hj. exists (others t d), rows, d1. split_and!; try done. do 5 eexists. left. by eexists.
Qed.

Lemma keyed_turn t queues n lease worker d :
  reachable d → interleaves t → 0 <= n →
  let '(outcome, d') := deliver (link t)
    (FETCH_KEYED (at_time t) queues n worker lease (locked_rows t)) (others t d) in
  rtc step d d' ∧
  match outcome with
  | Ok l => len l <= n ∧ ∀ j, j ∈ l → leased_job worker d' j
  | Err _ => True
  end.
Proof.
  intros Hd Ht Hn. pose proof (Ht d) as Hs0. pose proof (reachable_later _ _ Hd Hs0) as Hd0. unfold deliver.
  destruct (FETCH_KEYED _ _ _ _ _ _ _) as [[keyed d1]|e] eqn:E; [|by destruct (link t)].
  assert (rtc step d d1) as Hs by (eapply rtc_r; [done|by eapply by_keyed]).
  destruct (link t); simpl; (split; [done|]); [|done..]. split.
  - apply keyed_took in E as (_ & Hk & _). apply Permutation_length in Hk. rewrite length_fmap in Hk.
    unfold len at 1. rewrite Hk. etrans; [apply len_admitted|]. by apply len_limit.
  - intros j Hj. exists (others t d), keyed, d1. split_and!; try done. do 5 eexists. by right.
Qed.

(** What a whole fetch returns and leaves behind, with other sessions running
    between its statements: at most one job more than the limit, each leased for
    this worker. *)
Lemma fetch_outcome t1 t2 t3 queues n lease worker d :
  reachable d → interleaves t1 → interleaves t2 → interleaves t3 → 0 <= n →
  let '(outcome, d') := fetch t1 t2 t3 queues n lease worker d in
  rtc step d d' ∧
  match outcome with
  | Ok l => len l <= n + 1 ∧ ∀ j, j ∈ l → leased_job worker d' j
  | Err _ => True
  end.
Proof.
  intros Hd H1 H2 H3 Hn. unfold fetch.
  pose proof (unkeyed_turn t1 queues n lease worker d Hd H1 Hn) as Hu.
  destruct (deliver (link t1) _ _) as [[[rows carried]|e] d1]; [|done].
  destruct Hu as (Hd1 & Hrows & Hatt).
  set (x := if decide (rows = []) then _ else _).
  assert (rtc step d1 x.2) as Hd2.
  { unfold x. case_decide; simpl; [|done]. by apply deliver_reads. }
  destruct x as [[[]|e] d2]; simpl in *.
  - pose proof (keyed_turn t3 queues (Z.max (n - len rows) 1) lease worker d2) as Hk.
    destruct (deliver (link t3) _ _) as [[keyed|e] d3];
      (destruct Hk as [Hd3 Hk]; [exact (reachable_later _ _ (reachable_later _ _ Hd Hd1) Hd2)|done|lia|]);
      (split; [by etrans; [|etrans]|]); [|done].
    destruct Hk as [Hlen Hk]. split; [rewrite len_app; lia|].
    intros j [Hj|Hj]%elem_of_app; [|auto]. apply (leased_job_later _ d1); [by etrans|auto].
  - split; [by etrans|]. split; [lia|]. intros j Hj. apply (leased_job_later _ d1); auto.
  - split; [by etrans|done].
Qed.

End Planned.

(** ** Applied to the example *)

Lemma fetch_unkeyed_exact_witness :
  ∃ chosen l d', FETCH_UNKEYED 200 ["default"] 1 alice 1000 ∅ enqueued = Ok (l, true, d') ∧
    best_of (open_unkeyed 200 ["default"] ∅) 1 enqueued chosen ∧
    leased_to 200 alice 1000 chosen enqueued l d' ∧ l ≠ [].
Proof.
  destruct (fetch_unkeyed_exact 200 ["default"] 1 alice 1000 ∅ enqueued) as (c & l & d' & E & H1 & H2).
  - apply enqueued_reachable.
  - apply enqueued_funded.
  - lia.
  - exists c, l, d'. split_and!; [by rewrite E|done|done|].
    intros ->. vm_compute in E. discriminate.
Defined.

Lemma fetch_keyed_progress_witness :
  ∃ chosen l d', FETCH_KEYED 200 ["default"] 1 alice 1000 ∅ enqueued = Ok (l, d') ∧
    leased_to 200 alice 1000 chosen enqueued l d' ∧ l ≠ [].
Proof.
  destruct (fetch_keyed_progress 200 ["default"] 1 alice 1000 ∅ enqueued)
    as (c & l & d' & E & H1 & _ & _ & H2).
  - apply enqueued_reachable.
  - apply enqueued_funded.
  - lia.
  - exists c, l, d'. split_and!; [done|done|]. apply H2.
    exists 4, (new_row 100 sync). split; vm_compute; reflexivity.
Defined.

(** A turn in which the clock reads [now] and nobody interferes. *)
Definition quiet (now : Z) : turn :=
  {| others := id; at_time := now; locked_rows := ∅; link := Answered |}.

End Fetch.
