(* ===== verification/PgSettle.v ===== *)
(** * Settling jobs

    What the worker's reports do, exactly: completion and the fan-in it
    triggers, retries with their backoff, discards with their cascade, and the
    recovery of leases nobody honours. *)

From S2P Require Import Prelude.
From S2P Require Import PgTable.
From S2P Require Import PgJobs.
From S2P Require Import PgWorkflow.
From S2P Require Import PgInvariant.
From S2P Require Import PgSteps.
From S2P Require Import PgReach.
From S2P Require Import PgExample.
Import Table.
Import Jobs.
Import Workflow.
Import Invariant.
Import Steps.
Import Reach.
Import Example.

Module Settle.

Section Planned.
Context {Pl : Planner}.

Lemma update_lookup f d d' i r :
  commit (update f d) = Ok d' → jobs d !! i = Some r → jobs d' !! i = Some (default r (f i r)).
Proof. intros (-> & _)%commit_Ok Hr. apply lookup_update_Some. eauto. Qed.

Lemma count_ext p q d : (∀ i r, jobs d !! i = Some r → p i r = q i r) → count p d = count q d.
Proof.
  intros H. apply Z.le_antisymm; apply count_mono; intros i r Hr Hp; exists r; split; try done.
  - by rewrite <- (H i r Hr).
  - by rewrite (H i r Hr).
Qed.

(** ** Completion *)

(** The jobs of a batch that are still this worker's. *)
Definition ours (worker : uuid) (ids : list Z) (i : Z) (r : job_row) : bool :=
  held worker r && bool_decide (i ∈ ids).

Lemma completing_ours ids (rs : list (option (list byte))) worker d :
  completing (unnest ids rs) worker d = select (ours worker ids) d.
Proof.
  unfold completing, select. f_equal. apply List.filter_ext. intros [i r]. simpl.
  unfold ours. f_equal. apply bool_decide_ext. by rewrite joined_is_Some, fst_unnest.
Qed.

Lemma complete_exact now ids results worker d :
  db_ok d → NoDup ids → ids ≠ [] →
  ∃ d', complete now ids results worker d = Ok (count (ours worker ids) d, d') ∧ db_ok d' ∧
    (∀ k i r, ids !! k = Some i → jobs d !! i = Some r → held worker r = true →
       jobs d' !! i = Some (complete_row now (mjoin (results !! k)) r)) ∧
    (∀ i r, jobs d !! i = Some r → ours worker ids i r = false →
       let n := edges_from (select (ours worker ids) d) i d in
       jobs d' !! i = Some (if 0 <? n then release_row now n r else r)).
Proof.
  intros Hd Hnd Hne. unfold complete. rewrite decide_False by done.
  pose proof (complete_ok now (unnest ids results) worker d Hd) as (n & d' & E & Hok).
  exists d'. unfold COMPLETE in *.
  destruct (commit _) as [d1|] eqn:Ec; simplify_eq/=. rewrite completing_ours.
  split_and!; [done|done|..].
  - intros k i r Hk Hr Hh. rewrite (update_lookup _ _ _ _ _ Ec Hr).
    unfold complete_update. by rewrite (joined_unnest _ _ k), Hh.
  - intros i r Hr Ho. rewrite (update_lookup _ _ _ _ _ Ec Hr).
    unfold complete_update. rewrite completing_ours. unfold ours in Ho.
    destruct (decide (i ∈ ids)) as [Hi|Hi].
    + rewrite (bool_decide_true _ Hi), andb_true_r in Ho. rewrite Ho.
      destruct (joined _ i); by case_match.
    + rewrite joined_unnest_None by done. by case_match.
Qed.

(** The edges from a selection of jobs to [c] are as many as the selected parents. *)
Lemma edges_from_count p c d :
  edges_from (select p d) c d = count (λ i r, p i r && bool_decide (is_Some (edges d !! (i, c)))) d.
Proof.
  unfold edges_from, count, len. set (parents := select (λ i r, _) d).
  replace (filter _ _) with (list_to_set ((., c) <$> parents) : gset (Z * Z)).
  - rewrite size_list_to_set, length_fmap; [done|]. apply NoDup_fmap_2; [by intros ?? [=]|apply NoDup_select].
  - apply set_eq. intros [i c']. rewrite elem_of_list_to_set, elem_of_filter, list_elem_of_fmap, elem_of_dom. simpl.
    unfold parents. setoid_rewrite elem_of_select. split.
    + intros (i' & [= -> ->] & r & Hr & Hp). bool_facts. eauto.
    + intros [[(r & Hr & Hp) ->] He]. exists i. split; [done|]. exists r. rewrite Hp. split; [done|]. by apply bool_decide_eq_true.
Qed.

(** C26. Completing a batch settles exactly the jobs still held. Each becomes
    completed, now, with its own result and without its lease, all else about it
    kept; the count returned is theirs. Every other job counts down by the number
    of its parents among them, and becomes due now if that was all it waited for;
    a job without a parent among them is as it was. *)
Theorem complete_settles now ids results worker d :
  reachable d → NoDup ids → ids ≠ [] →
  ∃ d', complete now ids results worker d = Ok (count (ours worker ids) d, d') ∧
    (∀ k i r, ids !! k = Some i → jobs d !! i = Some r → held worker r = true →
       jobs d' !! i = Some {|
         spec := spec r; state := completed; attempt := attempt r; errors := errors r;
         scheduled_at := scheduled_at r; started_at := started_at r; finalized_at := Some now;
         locked_by := None; lease_expires_at := None; result := mjoin (results !! k);
         pending_deps := pending_deps r |}) ∧
    (∀ i r, jobs d !! i = Some r → ours worker ids i r = false →
       let n := count (λ p q, ours worker ids p q && bool_decide (is_Some (edges d !! (p, i)))) d in
       jobs d' !! i = Some {|
         spec := spec r; state := state r; attempt := attempt r; errors := errors r;
         scheduled_at := if decide (0 < n ∧ pending_deps r = n) then At now else scheduled_at r;
         started_at := started_at r; finalized_at := finalized_at r; locked_by := locked_by r;
         lease_expires_at := lease_expires_at r; result := result r;
         pending_deps := pending_deps r - n |}).
Proof.
  intros Hd Hnd Hne. destruct (complete_exact now ids results worker d) as (d' & E & _ & Hin & Hout);
    [by apply reachable_ok|done..|]. exists d'. split_and!; [done| |].
  - intros k i r Hk Hr Hh. by rewrite (Hin k i r Hk Hr Hh).
  - intros i r Hr Ho n. rewrite (Hout i r Hr Ho), edges_from_count. fold n.
    assert (0 <= n) by (unfold n, count, len; lia). f_equal. destruct (Z.ltb_spec 0 n) as [Hn|Hn].
    + unfold release_row, set_scheduled_at, set_pending_deps. simpl. f_equal.
      destruct (Z.eqb_spec (pending_deps r - n) 0); [rewrite decide_True by lia|rewrite decide_False by lia]; done.
    + rewrite decide_False by lia. replace (pending_deps r - n) with (pending_deps r) by lia. by destruct r.
Qed.

Lemma update_nothing f d : (∀ i r, jobs d !! i = Some r → f i r = None) → update f d = d.
Proof.
  intros H. destruct d as [t nj st ed wf nw cr]. unfold update, set_jobs; simpl in *. f_equal.
  apply map_eq. intros i. rewrite map_lookup_imap. destruct (t !! i) eqn:E; [|done]. simpl.
  by rewrite H.
Qed.

Lemma select_nothing p d : (∀ i r, jobs d !! i = Some r → p i r = false) → select p d = [].
Proof.
  intros H. destruct (select p d) as [|i l] eqn:E; [done|].
  assert (i ∈ select p d) as (r & Hr & Hp)%elem_of_select by (rewrite E; left).
  by rewrite H in Hp.
Qed.

(** A completion reported again changes nothing: whoever repeats it, with
    whatever results, is told that none of the jobs was still held. *)
Lemma complete_once now now' ids results results' worker n d d' :
  reachable d → complete now ids results worker d = Ok (n, d') →
  complete now' ids results' worker d' = Ok (0, d').
Proof.
  intros Hd%reachable_ok. unfold complete. case_decide as Hne; [intros; by simplify_eq|]. intros E.
  pose proof (complete_ok now (unnest ids results) worker d Hd) as (n' & d2 & E' & Hok).
  rewrite E in E'. simplify_eq.
  assert (∀ i r, jobs d2 !! i = Some r → ours worker ids i r = false) as Hnone.
  { unfold COMPLETE in E. destruct (commit _) as [d1|] eqn:Ec; simplify_eq/=.
    intros i r Hr. apply commit_Ok in Ec as (-> & _). apply lookup_update_Some in Hr as (r0 & Hr0 & ->).
    unfold ours, held. destruct (complete_cases now (unnest ids results) worker d i r0 Hr0)
      as [res|m Hni|Hni]; simpl; [done|..];
      rewrite completing_ours, elem_of_select in Hni; apply not_true_is_false; intros Hc; apply Hni; eauto. }
  assert (completing (unnest ids results') worker d2 = []) as Hnil.
  { rewrite completing_ours. by apply select_nothing. }
  unfold COMPLETE. rewrite Hnil, len_nil. rewrite update_nothing.
  - assert (commit d2 = Ok d2) as ->; [|done].
    apply commit_ok; [|apply Hok]. intros i r Hr. apply (rows_ok _ Hok i r Hr).
  - intros i r Hr. destruct (complete_cases now' (unnest ids results') worker d2 i r Hr)
      as [res Hin|m _ -> Hpos|]; [by rewrite Hnil in Hin; apply elem_of_nil in Hin| |done].
    rewrite Hnil in Hpos. unfold edges_from in Hpos.
    replace (filter _ _) with (∅ : gset (Z * Z)) in Hpos; [by rewrite size_empty in Hpos|].
    symmetry. apply set_eq. intros e. rewrite elem_of_filter. split; [|set_solver].
    intros [[He _] _]. by apply elem_of_nil in He.
Qed.

(** Completion closes the edges from the jobs it finished and no others. *)
Lemma complete_outstanding_eq now v worker d i :
  outstanding i (update (complete_update now v worker d) d) =
  outstanding i d - edges_from (completing v worker d) i d.
Proof.
  apply Z.le_antisymm; [pose proof (complete_outstanding now v worker d i); lia|].
  assert (outstanding i d <= outstanding i (update (complete_update now v worker d) d) +
    edges_from (completing v worker d) i d); [|lia].
  unfold outstanding, edges_from. rewrite <- Nat2Z.inj_add. apply inj_le.
  etrans; [|apply Nat.eq_le_incl, size_union]; cycle 1.
  { intros [p c]. unfold open_edges. rewrite !elem_of_filter. intros [[_ Ho] _] [[Hp _] _].
    by apply (proj2 (complete_closes now v worker d)) in Hp as [_ ?]. }
  apply subseteq_size. intros [p c]. unfold open_edges. rewrite elem_of_union, !elem_of_filter. simpl.
  intros [[-> Ho] He]. destruct (decide (p ∈ completing v worker d)) as [Hp|Hp]; [by right|left].
  split_and!; try done. unfold open_parent in *. rewrite lookup_update.
  destruct (jobs d !! p) as [q|] eqn:Hq; [|done]. simpl in *.
  by destruct (complete_cases now v worker d p q Hq).
Qed.

(** Fan-in: while no parent of a waiting job has been purged, its counter
    is the number of parents yet to complete, completion keeps it so, and the
    statement that completes the last of them makes the job runnable. *)
Lemma fan_in now ids results worker n d d' c r :
  reachable d → complete now ids results worker d = Ok (n, d') →
  jobs d !! c = Some r → state r = available → 0 < pending_deps r → pending_deps r = outstanding c d →
  ∃ r', jobs d' !! c = Some r' ∧ state r' = available ∧ pending_deps r' = outstanding c d' ∧
    (scheduled_at r' = if decide (outstanding c d' = 0) then At now else Infinity).
Proof.
  intros Hd%reachable_ok. unfold complete. case_decide as Hne.
  { intros ? Hr Hs Hpos Heq; simplify_eq. exists r. split_and!; try done.
    rewrite decide_False by lia. apply (ok_parked r); [by apply (rows_ok _ Hd c)|by left|done]. }
  unfold COMPLETE. destruct (commit _) as [d1|] eqn:Ec; simpl; [|done].
  intros ? Hr Hs Hpos Heq; simplify_eq. pose proof (rows_ok _ Hd c r Hr) as Hok.
  assert (scheduled_at r = Infinity) as Hinf by (apply (ok_parked r Hok); [by left|done]).
  apply commit_Ok in Ec as (-> & _).
  set (v := unnest ids results) in *. rewrite complete_outstanding_eq, <- Heq.
  eexists. split; [apply lookup_update_Some; eauto|].
  destruct (complete_cases now v worker d c r Hr) as [res ? Hh%held_running|m ? -> Hm|? Hz]; [congruence|..];
    simpl; split_and!; try done; try lia.
  - case_decide; case_match; bool_facts; try done; lia.
  - rewrite decide_False by lia. done.
Qed.

(** ** Retries *)

Lemma jitter_bounds n u : 0 <= n → 0 <= u < 2 ^ 52 → n / 2 <= jittered n u <= n.
Proof.
  intros Hn Hu. unfold jittered. split.
  - transitivity ((n * 2 ^ 52) / 2 ^ 53).
    + replace (2 ^ 53) with (2 * 2 ^ 52) by lia. rewrite Z.div_mul_cancel_r by lia. lia.
    + apply Z.div_le_mono; [lia|]. nia.
  - apply Z.lt_succ_r, Z.div_lt_upper_bound; [lia|]. nia.
Qed.

Definition error_entry_of (now : Z) (e : string) (r : job_row) : error_entry :=
  {| err_attempt := attempt r; err_at := now; err_text := Some e |}.

Lemma retry_exact now random ids errs base cap worker d :
  db_ok d → NoDup ids → ids ≠ [] →
  (∀ i r, i ∈ ids → jobs d !! i = Some r → held worker r = true → overflows base (attempt r) = false) →
  ∃ c d', retry_many now random ids errs worker base cap d = Ok (c, d') ∧ db_ok d' ∧
    (∀ k i r, ids !! k = Some i → jobs d !! i = Some r → held worker r = true →
       jobs d' !! i = Some (if attempts_left r then retry_row now base cap (random i) (errs !! k) r
                            else discard_row now (errs !! k) r)) ∧
    (∀ i r, jobs d !! i = Some r → ours worker ids i r = false → jobs d' !! i = Some r).
Proof.
  intros Hd Hnd Hne Ho. unfold retry_many. rewrite decide_False by done.
  pose proof (retry_ok now random (unnest ids (Some <$> errs)) base cap worker d Hd) as (x & d' & E & Hok).
  { intros i r Hi%joined_is_Some. rewrite fst_unnest in Hi. by apply Ho. }
  destruct (RETRY_MANY _ _ _ _ _ _ _) as [[[s e] d1]|] eqn:Er; simplify_eq/=.
  do 2 eexists. split; [done|]. split; [done|].
  unfold RETRY_MANY in Er. destruct (existsb _ _); [done|].
  destruct (commit _) as [d2|] eqn:Ec; simplify_eq/=. split.
  - intros k i r Hk Hr Hh. rewrite (update_lookup _ _ _ _ _ Ec Hr).
    rewrite (joined_unnest _ _ k), Hh by done. rewrite list_lookup_fmap.
    replace (mjoin (Some <$> errs !! k)) with (errs !! k) by by destruct (errs !! k).
    by destruct (attempts_left r).
  - intros i r Hr Hours. rewrite (update_lookup _ _ _ _ _ Ec Hr). unfold ours in Hours.
    destruct (decide (i ∈ ids)) as [Hi|Hi].
    + rewrite (bool_decide_true _ Hi), andb_true_r in Hours. rewrite Hours. by destruct (joined _ i).
    + by rewrite joined_unnest_None.
Qed.

(** C27. A failed job with attempts left waits again, between half and all of
    [min(base * 2^(attempt - 1), cap)] from now; one without is dead-lettered.
    Either way its lease is gone and this attempt's error is appended to its
    history. Jobs the worker no longer holds are untouched. This holds as long as no
    delay of a named job it does hold leaves the range of a double; otherwise the
    whole batch fails ([retry_overflow]). *)
Theorem retry_backs_off now random ids errs base cap worker d :
  reachable d → NoDup ids → ids ≠ [] → 0 <= base → 0 <= cap → (∀ i, 0 <= random i < 2 ^ 52) →
  (∀ i r, i ∈ ids → jobs d !! i = Some r → held worker r = true → overflows base (attempt r) = false) →
  ∃ c d', retry_many now random ids errs worker base cap d = Ok (c, d') ∧
    (∀ k i r e, ids !! k = Some i → errs !! k = Some e → jobs d !! i = Some r → held worker r = true →
       ∃ r', jobs d' !! i = Some r' ∧ locked_by r' = None ∧ lease_expires_at r' = None ∧
         errors r' = errors r ++ [error_entry_of now e r] ∧
         if decide (attempt r < max_attempts (spec r)) then
           ∃ delay, state r' = available ∧ scheduled_at r' = At (now + delay) ∧
             Z.min (base * 2 ^ (attempt r - 1)) cap / 2 <= delay <= Z.min (base * 2 ^ (attempt r - 1)) cap
         else state r' = discarded ∧ finalized_at r' = Some now) ∧
    (∀ i r, jobs d !! i = Some r → ours worker ids i r = false → jobs d' !! i = Some r).
Proof.
  intros Hd%reachable_ok Hnd Hne Hb Hc Hu Ho.
  destruct (retry_exact now random ids errs base cap worker d) as (c & d' & E & _ & Hin & Hout); [done..|].
  exists c, d'. split_and!; [done| |done]. intros k i r e Hk He Hr Hh.
  eexists. split; [by eapply Hin|]. rewrite He. unfold attempts_left.
  pose proof (held_running _ _ Hh) as Hrun.
  destruct (running_row r (rows_ok _ Hd i r Hr) Hrun) as (_ & _ & _ & _ & _ & Hatt).
  assert (nominal_delay base cap (attempt r) = Z.min (base * 2 ^ (attempt r - 1)) cap) as Hnom.
  { unfold nominal_delay. f_equal. replace (attempt r) with (Z.succ (attempt r - 1)) at 1 by lia.
    rewrite Z.pow_succ_r by lia. rewrite (Z.mul_comm 2), Z.mul_assoc. by rewrite Z.div_mul. }
  destruct (Z.ltb_spec (attempt r) (max_attempts (spec r))); [rewrite decide_True by done|rewrite decide_False by lia];
    (split_and!; [done..|]); [|done].
  rewrite <- Hnom. eexists. split_and!; [done|done|..];
    apply jitter_bounds; auto; rewrite Hnom; apply Z.min_glb; [|done| |done];
    apply Z.mul_nonneg_nonneg; lia.
Qed.

(** A job past its 1024th attempt cannot be retried: [power(2, attempt - 1)]
    leaves the range of a double, and the whole batch's statement fails. *)
Lemma retry_overflow now random ids errs base cap worker d i r :
  NoDup ids → i ∈ ids → jobs d !! i = Some r → held worker r = true →
  attempts_left r = true → 1025 <= attempt r →
  retry_many now random ids errs worker base cap d = Err NumericOverflow.
Proof.
  intros Hnd Hi Hr Hh Hl Ha. unfold retry_many.
  rewrite decide_False by (intros ->; by apply elem_of_nil in Hi). unfold RETRY_MANY.
  assert (existsb (λ i, match jobs d !! i with Some r => overflows base (attempt r) | None => false end)
    (retrying (unnest ids (Some <$> errs)) worker true d) = true) as ->; [|done].
  apply existsb_exists. exists i. rewrite Hr. split.
  - apply list_elem_of_In, elem_of_select. exists r. split; [done|]. rewrite Hh, Hl. simpl.
    rewrite andb_true_r. apply bool_decide_eq_true, joined_is_Some. by rewrite fst_unnest.
  - unfold overflows. destruct (Z.leb_spec 1024 (attempt r - 1)); [done|lia].
Qed.

(** ** Discards *)

Lemma discard_exact now ids errs worker d :
  db_ok d → NoDup ids → ids ≠ [] →
  ∃ d', discard_many now ids errs worker d = Ok (count (ours worker ids) d, d') ∧ db_ok d' ∧
    (∀ k i r, ids !! k = Some i → jobs d !! i = Some r → held worker r = true →
       jobs d' !! i = Some (discard_row now (errs !! k) r)) ∧
    (∀ p q i r, jobs d !! p = Some q → ours worker ids p q = true → downstream d p i →
       jobs d !! i = Some r → state r = available → jobs d' !! i = Some (cascade_row now r)) ∧
    (∀ i r, jobs d !! i = Some r → ours worker ids i r = false →
       (state r ≠ available ∨ ¬ ∃ p q, jobs d !! p = Some q ∧ ours worker ids p q = true ∧ downstream d p i) →
       jobs d' !! i = Some r).
Proof.
  intros Hd Hnd Hne. unfold discard_many. rewrite decide_False by done.
  pose proof (discard_ok now (unnest ids (Some <$> errs)) worker d Hd) as (x & d' & E & Hok).
  destruct (DISCARD_MANY _ _ _ _) as [[[s c] d1]|] eqn:Er; simplify_eq/=. exists d'.
  unfold DISCARD_MANY in Er.
  destruct (commit _) as [d2|] eqn:Ec; simplify_eq/=.
  assert (discarding (unnest ids (Some <$> errs)) worker d = select (ours worker ids) d) as Hdead.
  { unfold discarding, select. f_equal. apply List.filter_ext. intros [i r]. simpl.
    unfold ours. f_equal. apply bool_decide_ext. by rewrite joined_is_Some, fst_unnest. }
  rewrite Hdead in *.
  assert (∀ i, i ∈ walk (list_to_set (select (ours worker ids) d)) d ↔
    ∃ p q, jobs d !! p = Some q ∧ ours worker ids p q = true ∧ downstream d p i) as Hwalk.
  { intros i. rewrite elem_of_walk. setoid_rewrite elem_of_list_to_set. setoid_rewrite elem_of_select. naive_solver. }
  split_and!; [done|done|..].
  - intros k i r Hk Hr Hh. rewrite (update_lookup _ _ _ _ _ Ec Hr).
    rewrite (joined_unnest _ _ k), Hh by done. rewrite list_lookup_fmap.
    by destruct (errs !! k).
  - intros p q i r Hp Ho Hds Hr Hs. rewrite (update_lookup _ _ _ _ _ Ec Hr).
    rewrite (bool_decide_true (i ∈ _)) by (apply Hwalk; eauto). rewrite (bool_decide_true (state r = _)) by done.
    replace (held worker r) with false; [by destruct (joined _ i)|].
    symmetry. unfold held. rewrite (bool_decide_false (state r = running)) by congruence. apply andb_false_r.
  - intros i r Hr Ho Hno. rewrite (update_lookup _ _ _ _ _ Ec Hr).
    assert (bool_decide (i ∈ walk (list_to_set (select (ours worker ids) d)) d) &&
      bool_decide (state r = available) = false) as ->.
    { apply andb_false_iff. rewrite !bool_decide_eq_false, Hwalk. naive_solver. }
    destruct (decide (i ∈ ids)) as [Hi|Hi].
    + unfold ours in Ho. rewrite (bool_decide_true _ Hi), andb_true_r in Ho. rewrite Ho. by destruct (joined _ i).
    + by rewrite joined_unnest_None.
Qed.

(** C28. [discard_many] cancels everything downstream of what it discards,
    transitively: each job still held is dead-lettered, now, with its error appended
    and without its lease; every waiting job reachable from one of them over the
    workflow's edges is cancelled, now; and no other row changes. *)
Theorem discard_cascades now ids errs worker d :
  reachable d → NoDup ids → ids ≠ [] →
  ∃ d', discard_many now ids errs worker d = Ok (count (ours worker ids) d, d') ∧
    (∀ k i r, ids !! k = Some i → jobs d !! i = Some r → held worker r = true →
       jobs d' !! i = Some {|
         spec := spec r; state := discarded; attempt := attempt r;
         errors := errors r ++ [{| err_attempt := attempt r; err_at := now; err_text := errs !! k |}];
         scheduled_at := scheduled_at r; started_at := started_at r; finalized_at := Some now;
         locked_by := None; lease_expires_at := None; result := result r; pending_deps := pending_deps r |}) ∧
    (∀ p q i r, jobs d !! p = Some q → ours worker ids p q = true → downstream d p i →
       jobs d !! i = Some r → state r = available →
       jobs d' !! i = Some {|
         spec := spec r; state := cancelled; attempt := attempt r; errors := errors r;
         scheduled_at := scheduled_at r; started_at := started_at r; finalized_at := Some now;
         locked_by := locked_by r; lease_expires_at := lease_expires_at r; result := result r;
         pending_deps := pending_deps r |}) ∧
    (∀ i r, jobs d !! i = Some r → ours worker ids i r = false →
       (state r ≠ available ∨ ¬ ∃ p q, jobs d !! p = Some q ∧ ours worker ids p q = true ∧ downstream d p i) →
       jobs d' !! i = Some r).
Proof.
  intros Hd Hnd Hne. destruct (discard_exact now ids errs worker d) as (d' & E & _ & H);
    [by apply reachable_ok|done..|]. by exists d'.
Qed.

(** C40. Dead-lettering by exhaustion does not cascade: when a failed job runs
    out of attempts in [retry_many], a job waiting on it stays exactly as it
    was, parked at infinity behind a parent that is now discarded. *)
Theorem exhaustion_strands now random ids errs base cap worker n d d' p q c r w :
  reachable d → NoDup ids → retry_many now random ids errs worker base cap d = Ok (n, d') →
  jobs d !! p = Some q → ours worker ids p q = true → attempts_left q = false →
  edges d !! (p, c) = Some w → jobs d !! c = Some r → state r = available →
  (∃ q', jobs d' !! p = Some q' ∧ state q' = discarded) ∧
  jobs d' !! c = Some r ∧ scheduled_at r = Infinity.
Proof.
  intros Hd%reachable_ok Hnd E Hq Ho Hl He Hr Hs. unfold ours in Ho. bool_facts.
  unfold retry_many in E. rewrite decide_False in E by (intros ->; by apply elem_of_nil in H0).
  destruct (RETRY_MANY _ _ _ _ _ _ _) as [[[s e] d1]|] eqn:Er; simplify_eq/=.
  unfold RETRY_MANY in Er. destruct (existsb _ _); [done|].
  destruct (commit _) as [d2|] eqn:Ec; simplify_eq/=.
  apply list_elem_of_lookup in H0 as [k Hk]. split_and!.
  - eexists. rewrite (update_lookup _ _ _ _ _ Ec Hq), (joined_unnest _ _ k), H, Hl by done. done.
  - rewrite (update_lookup _ _ _ _ _ Ec Hr).
    replace (held worker r) with false; [by destruct (joined _ c)|].
    symmetry. unfold held. rewrite (bool_decide_false (state r = running)) by congruence. apply andb_false_r.
  - apply (ok_parked r); [by apply (rows_ok _ Hd c)|by left|].
    eapply open_edge_pending; [done..|]. unfold open_parent. rewrite Hq. simpl.
    apply held_running in H. congruence.
Qed.

End Planned.
(** ** Applied to the example *)

Definition row_of (d : db) (i : Z) : job_row := default (new_row 0 mail) (jobs d !! i).

Lemma complete_settles_witness :
  ∃ d', complete 300 [1; 2] [Some []] alice leased_all = Ok (2, d') ∧
    (∃ r, jobs d' !! 1 = Some r ∧ state r = completed ∧ result r = Some []) ∧
    (∃ r, jobs d' !! 3 = Some r ∧ pending_deps r = 0 ∧ scheduled_at r = At 300).
Proof.
  destruct (complete_settles 300 [1; 2] [Some []] alice leased_all) as (d' & E & H1 & H2).
  - apply leased_all_reachable.
  - apply (bool_decide_unpack _). vm_compute. exact I.
  - discriminate.
  - exists d'. split_and!.
    + rewrite E. vm_compute. reflexivity.
    + eexists. split; [apply (H1 0%nat 1 (row_of leased_all 1)); vm_compute; reflexivity|]. split; reflexivity.
    + eexists. split; [apply (H2 3 (row_of leased_all 3)); vm_compute; reflexivity|]. split; vm_compute; reflexivity.
Defined.

Lemma retry_backs_off_witness :
  ∃ c d' r', retry_many 300 (λ _, 0) [1] ["boom"] alice 1000000 60000000 leased_all = Ok (c, d') ∧
    jobs d' !! 1 = Some r' ∧ state r' = available.
Proof.
  destruct (retry_backs_off 300 (λ _, 0) [1] ["boom"] 1000000 60000000 alice leased_all)
    as (c & d' & E & H & _).
  - apply leased_all_reachable.
  - apply (bool_decide_unpack _). vm_compute. exact I.
  - discriminate.
  - lia.
  - lia.
  - intros _. lia.
  - intros i r _ Hr _. apply negb_true_iff. revert i r Hr.
    apply (forall_rows (λ _ r, negb (overflows 1000000 (attempt r)))). vm_compute. reflexivity.
  - destruct (H 0%nat 1 (row_of leased_all 1) "boom") as (r' & Hr' & _ & _ & _ & Hs);
      [vm_compute; reflexivity..|].
    rewrite decide_True in Hs by (vm_compute; reflexivity). destruct Hs as (_ & Hs & _).
    exists c, d', r'. split; [exact E|]. split; [exact Hr'|exact Hs].
Defined.

Lemma discard_cascades_witness :
  ∃ d', discard_many 300 [2] ["bad"] alice leased_all = Ok (1, d') ∧
    ∃ r, jobs d' !! 3 = Some r ∧ state r = cancelled ∧ finalized_at r = Some 300.
Proof.
  destruct (discard_cascades 300 [2] ["bad"] alice leased_all) as (d' & E & _ & H & _).
  - apply leased_all_reachable.
  - apply (bool_decide_unpack _). vm_compute. exact I.
  - discriminate.
  - exists d'. split; [rewrite E; vm_compute; reflexivity|]. eexists. split; [|split].
    + apply (H 2 (row_of leased_all 2) 3 (row_of leased_all 3)); try (vm_compute; reflexivity).
      constructor. exists 1. vm_compute. reflexivity.
    + reflexivity.
    + reflexivity.
Defined.

Lemma exhaustion_strands_witness :
  let d' := after (retry_many 300 (λ _, 0) [1] ["declined"] alice 1000000 60000000 fragile_leased) in
  (∃ q', jobs d' !! 1 = Some q' ∧ state q' = discarded) ∧
  jobs d' !! 2 = Some (row_of fragile_leased 2) ∧ scheduled_at (row_of fragile_leased 2) = Infinity.
Proof.
  apply (exhaustion_strands 300 (λ _, 0) [1] ["declined"] 1000000 60000000 alice
    {| scheduled := 0; retry_exhausted := 1 |} fragile_leased _ 1 (row_of fragile_leased 1) 2 _ 1).
  - apply fragile_leased_reachable.
  - apply (bool_decide_unpack _). vm_compute. exact I.
  - vm_compute. reflexivity.
  - vm_compute. reflexivity.
  - vm_compute. reflexivity.
  - vm_compute. reflexivity.
  - vm_compute. reflexivity.
  - vm_compute. reflexivity.
  - vm_compute. reflexivity.
Defined.

End Settle.
