(* ===== verification/WorkflowFinish.v ===== *)
(** * Workflows finish

    From wherever a run has brought a graph, as long as none of its jobs failed or
    was deleted unfinished, leasing and completing bring it to its end: no order of
    statements can leave it in a place it cannot finish from. *)

From S2P Require Import Prelude.
From S2P Require Import PgTable.
From S2P Require Import PgJobs.
From S2P Require Import PgWorkflow.
From S2P Require Import PgInvariant.
From S2P Require Import PgSteps.
From S2P Require Import PgReach.
From S2P Require Import PgExample.
From S2P Require Import PgFetch.
From S2P Require Import PgSettle.
From S2P Require Import Compose.
From S2P Require Import WorkflowRun.
Import Table.
Import Jobs.
Import Workflow.
Import Invariant.
Import Steps.
Import Reach.
Import Example.
Import Fetch.
Import Settle.
Import Compose.
Import WorkflowRun.

Module WorkflowFinish.

Section Planned.
Context {Pl : Planner}.

(** ** One job *)

(** What leasing and completing do to the jobs around: none disappears or fails. *)
Definition onward (r r' : job_row) : Prop :=
  spec r' = spec r ∧ (state r' = state r ∨ (state r = available ∧ state r' = running)).

(** [d'] comes after [d] by one statement that brings job [i] on to [s]. *)
Record brings (i : Z) (s : job_state) (d d' : db) : Prop := {
  br_step : step d d';
  br_ok : db_ok d';
  br_job : ∃ r', jobs d' !! i = Some r' ∧ state r' = s;
  br_back j : is_Some (jobs d' !! j) → is_Some (jobs d !! j);
  br_others j r : j ≠ i → jobs d !! j = Some r → ∃ r', jobs d' !! j = Some r' ∧ onward r r';
  br_spec r r' : jobs d !! i = Some r → jobs d' !! i = Some r' → spec r' = spec r }.

(** A running job can be completed by the worker that holds it. *)
Lemma running_completes d i r :
  db_ok d → jobs d !! i = Some r → state r = running → ∃ d', brings i completed d d'.
Proof.
  intros Hd Hr Hs. destruct (running_row r (rows_ok _ Hd i r Hr) Hs) as ([w Hw] & _).
  assert (held w r = true) as Hh by by unfold held; rewrite !bool_decide_true.
  destruct (complete_exact 0 [i] [None] w d Hd) as (d' & E & Hd' & Hin & Hout); [apply NoDup_singleton|done|].
  assert (∀ j s, jobs d !! j = Some s → j ≠ i → ours w [i] j s = false) as Hno.
  { intros j s _ Hj. unfold ours. rewrite (bool_decide_false (j ∈ [i])) by (by rewrite list_elem_of_singleton).
    apply andb_false_r. }
  exists d'. split.
  - by eapply by_complete.
  - done.
  - eexists. split; [by apply (Hin 0%nat)|done].
  - intros j [r' Hr']. unfold complete, COMPLETE in E. simpl in E. destruct (commit _) as [d1|] eqn:Ec; simplify_eq/=.
    apply commit_Ok in Ec as (-> & _). apply lookup_update_Some in Hr' as (r0 & ? & _). eauto.
  - intros j s Hj Hs0. eexists. split; [by apply Hout, Hno|]. split; case_match; auto.
  - intros r0 r' Hr0 Hr'. simplify_eq. rewrite (Hin 0%nat i r) in Hr' by done. by simplify_eq.
Qed.

(** A job without a key that waits for nothing can be leased. *)
Lemma available_leased d i r t :
  db_ok d → funded [queue (spec r)] d → jobs d !! i = Some r → state r = available → scheduled_at r = At t → keyed r = false →
  ∃ d', brings i running d d'.
Proof.
  intros Hd Hf Hr Hs Ht Hk. set (q := [queue (spec r)]). set (p := open_unkeyed t q ∅).
  destruct (unkeyed_fetch t q (count p d) 0 0 ∅ d Hd Hf) as (chosen & l & d' & E & (Hnd & Hch & Hlen & _) & [_ Hj] & Hd');
    [unfold count, len; lia|].
  assert (p i r = true) as Hp.
  { unfold p, open_unkeyed, runnable, q. rewrite Hk, Hs, Ht. simpl.
    rewrite !bool_decide_true by (done || apply list_elem_of_here). rewrite bool_decide_false by set_solver.
    simpl. rewrite !andb_true_r. by apply Z.leb_le. }
  assert (i ∈ chosen.*1) as Hi.
  { destruct (decide (i ∈ chosen.*1)) as [|Hn]; [done|exfalso].
    assert (i :: chosen.*1 ⊆+ select p d) as Hsub%submseteq_length.
    - apply NoDup_submseteq; [by apply NoDup_cons|].
      intros j [->|([j' s] & -> & [? ?]%Hch)%list_elem_of_fmap]%elem_of_cons; apply elem_of_select; eauto.
    - simpl in Hsub. rewrite length_fmap in Hsub.
      change (len chosen = Z.min (count p d) (count p d)) in Hlen. unfold count, len in Hlen. lia. }
  assert (∀ j s, j ∈ chosen.*1 → jobs d !! j = Some s → state s = available) as Hav.
  { intros j s ([j' s'] & -> & [Hs' Ho]%Hch)%list_elem_of_fmap Hj'. simpl in *. simplify_eq.
    unfold p, open_unkeyed, runnable in Ho. by bool_facts. }
  exists d'. split.
  - by eapply by_unkeyed.
  - done.
  - rewrite Hj, Hr. simpl. eexists. split; [done|]. by rewrite decide_True.
  - intros j. rewrite Hj. by intros ?%fmap_is_Some.
  - intros j s _ Hs'. rewrite Hj, Hs'. simpl. eexists. split; [done|]. split; [by case_decide|].
    case_decide; [right; eauto|by left].
  - intros r0 r' Hr0. rewrite Hj, Hr0. simpl. intros ?; simplify_eq. by case_decide.
Qed.

(** ** The graph *)

(** No job of the graph failed, none is under a concurrency key, and no job of their
    queues was given zero attempts. *)
Definition healthy (ids : list Z) (d : db) : Prop :=
  ∀ a r, a ∈ ids → jobs d !! a = Some r → ¬ failed r ∧ keyed r = false ∧ funded [queue (spec r)] d.

(** Statements each job is away from its end. *)
Definition to_go (d : db) (a : Z) : nat :=
  match jobs d !! a with
  | Some r => match state r with available => 2 | running => 1 | _ => 0 end
  | None => 0
  end.
Definition left_to_do (ids : list Z) (d : db) : nat := sum_list_with (to_go d) ids.

Lemma sum_list_less (f g : Z → nat) l i :
  i ∈ l → (∀ j, j ∈ l → (f j <= g j)%nat) → (f i < g i)%nat → (sum_list_with f l < sum_list_with g l)%nat.
Proof.
  induction l as [|x l IH]; intros Hi Hle Hlt; [by apply elem_of_nil in Hi|]. simpl.
  assert (∀ j, j ∈ l → (f j <= g j)%nat) as Hle' by (intros; apply Hle; by right).
  assert (sum_list_with f l <= sum_list_with g l)%nat.
  { clear -Hle'. induction l as [|y l IH]; simpl; [done|].
    pose proof (Hle' y ltac:(left)). assert (sum_list_with f l <= sum_list_with g l)%nat; [|lia].
    apply IH. intros; apply Hle'. by right. }
  pose proof (Hle x ltac:(left)). apply elem_of_cons in Hi as [->|Hi]; [lia|]. specialize (IH Hi Hle' Hlt). lia.
Qed.

Lemma brings_funded i s d d' q : brings i s d d' → funded q d → funded q d'.
Proof.
  intros [_ _ _ Hback Hoth Hspec] Hf j r' Hr'. destruct (Hback j) as [r Hr]; [by eexists|].
  destruct (decide (j = i)) as [->|Hne]; [rewrite (Hspec r r' Hr Hr'); by apply (Hf i)|].
  destruct (Hoth j r Hne Hr) as (x & Hx & Hsp & _). simplify_eq. rewrite Hsp. by apply (Hf j).
Qed.

Lemma brings_on ids i s d d' r :
  brings i s d d' → i ∈ ids → jobs d !! i = Some r → healthy ids d →
  (s = running ∧ state r = available) ∨ (s = completed ∧ state r = running) →
  sparing ids d d' ∧ healthy ids d' ∧ (left_to_do ids d' < left_to_do ids d)%nat.
Proof.
  intros Hb Hi Hr Hh Hmove. pose proof (λ q, brings_funded _ _ _ _ q Hb) as Hfund.
  destruct Hb as [Hst _ (ri & Hri & Hsi) Hback Hoth Hspec].
  assert (∀ j x, jobs d !! j = Some x → ∃ x', jobs d' !! j = Some x' ∧ spec x' = spec x ∧
    (failed x' → failed x) ∧ (to_go d' j <= to_go d j)%nat) as Hall.
  { intros j x Hx. destruct (decide (j = i)) as [->|Hne].
    - rewrite Hr in Hx. injection Hx as <-. exists ri. split_and!; [done|by eapply Hspec| |].
      + unfold failed. rewrite Hsi. destruct Hmove as [[-> _]|[-> _]]; set_solver.
      + unfold to_go. rewrite Hri, Hr, Hsi. destruct Hmove as [[-> ->]|[-> ->]]; lia.
    - destruct (Hoth j x Hne Hx) as (x' & Hx' & Hsp & Hs'). exists x'. split_and!; [done|done| |].
      + unfold failed. destruct Hs' as [->|[_ ->]]; [done|set_solver].
      + unfold to_go. rewrite Hx', Hx. destruct Hs' as [->|[-> ->]]; [done|lia]. }
  split_and!.
  - split; [done|]. intros j x _ Hx Hn. destruct (Hall j x Hx) as (x' & ? & _). congruence.
  - intros j x' Hj Hx'. destruct (Hback j) as [x Hx]; [by eexists|]. destruct (Hall j x Hx) as (y & Hy & Hsp & Hf & _).
    simplify_eq. destruct (Hh j x Hj Hx) as (? & Hk & ?). split; [auto|]. unfold keyed in *. rewrite Hsp. auto.
  - apply (sum_list_less _ _ _ i Hi).
    + intros j _. destruct (jobs d !! j) as [x|] eqn:Hx; [by destruct (Hall j x Hx) as (_ & _ & _ & _ & ?)|].
      unfold to_go. rewrite Hx. destruct (jobs d' !! j) eqn:Hx'; [|done]. destruct (Hback j) as [? ?]; [by eexists|congruence].
    + unfold to_go. rewrite Hri, Hr, Hsi. destruct Hmove as [[-> ->]|[-> ->]]; lia.
Qed.

(** One statement further, while anything is left. *)
Lemma moves_on ids d a r :
  db_ok d → healthy ids d → a ∈ ids → jobs d !! a = Some r → movable r →
  ∃ d', db_ok d' ∧ sparing ids d d' ∧ healthy ids d' ∧ (left_to_do ids d' < left_to_do ids d)%nat.
Proof.
  intros Hd Hh Ha Hr Hm. unfold movable in Hm. destruct (state r) eqn:Hs; try done.
  - destruct Hm as [_ Hinf]. destruct (scheduled_at r) as [t|] eqn:Ht; [|done].
    destruct (available_leased d a r t Hd) as [d' Hb]; [by apply (Hh a)|done..|by apply (Hh a)|].
    exists d'. split; [apply Hb|]. eapply brings_on; [done..|by left].
  - destruct (running_completes d a r Hd Hr Hs) as [d' Hb].
    exists d'. split; [apply Hb|]. eapply brings_on; [done..|by right].
Qed.

(** C5. A workflow whose edges lead forward can always finish: whatever run of
    statements has brought the database here, if no job of the graph was deleted
    unfinished, none failed and none is under a concurrency key, and no job of
    their queues was given zero attempts (one such job fails every fetch that
    reaches it), there are statements that complete all that is left of it. So
    nothing the workers, timers and operators do, short of failing or deleting a job
    of it or enqueueing one without attempts, can strand it. *)
Theorem workflow_can_finish now f d0 ids d d' :
  reachable d0 → ascending f → enqueue_workflow now f d0 = Ok (ids, d) →
  rtc (sparing ids) d d' → healthy ids d' →
  ∃ d'', rtc (sparing ids) d' d'' ∧ ∀ a, a ∈ ids → finished d'' a.
Proof.
  intros Hd0 Hasc E Hrun Hh.
  assert (db_ok d') as Hd'.
  { assert (db_ok d) as Hd by (eapply workflow_ok; [|done]; by apply reachable_ok).
    clear -Hd Hrun. induction Hrun as [|x y z [Hs _] _ IH]; [done|]. apply IH. by eapply step_ok. }
  remember (left_to_do ids d') as n eqn:En. revert d' Hrun Hh Hd' En.
  induction (lt_wf n) as [n _ IH]. intros d' Hrun Hh Hd' ->.
  destruct (workflow_never_stuck now f d0 ids d d' Hd0 Hasc E Hrun) as [Hall|(a & r & Ha & Hr & [Hm|Hm])].
  - by exists d'.
  - destruct (moves_on ids d' a r Hd' Hh Ha Hr Hm) as (d1 & Hd1 & Hs & Hh1 & Hlt).
    destruct (IH _ Hlt d1) as (d2 & Hrun2 & Hfin); [by eapply rtc_r|done..|].
    exists d2. split; [by eapply rtc_l|done].
  - by destruct (Hh a r Ha Hr).
Qed.

End Planned.

(** ** The example's workflow, with its first job leased *)

Lemma extracting_sparing : sparing [2; 3] enqueued2 extracting.
Proof.
  split; [apply extracting_step|]. intros i r Hi _ Hn.
  assert (is_Some (jobs extracting !! i)) as [x Hx]; [|congruence].
  apply elem_of_cons in Hi as [->|Hi%list_elem_of_singleton]; [|subst i]; apply (bool_decide_unpack _); by vm_compute.
Qed.

Lemma extracting_healthy : healthy [2; 3] extracting.
Proof.
  assert (funded ["default"] extracting) as Hf by (apply (bool_decide_unpack _); vm_compute; exact I).
  assert (∀ a, a ∈ [2; 3] → ((λ r, (state r, keyed r, queue (spec r))) <$> jobs extracting !! a) ∈
    [Some (available, false, "default"); Some (running, false, "default")]) as H.
  { intros a Ha. apply elem_of_cons in Ha as [->|Ha%list_elem_of_singleton]; [|subst a];
      apply (bool_decide_unpack _); by vm_compute. }
  intros a r Ha%H Hr. rewrite Hr in Ha. clear H Hr. simpl in Ha.
  apply elem_of_cons in Ha as [E|E%list_elem_of_singleton]; injection E as Hs Hk Hq;
    (split; [unfold failed; rewrite Hs; set_solver|by rewrite Hq]).
Qed.

Lemma workflow_can_finish_witness :
  (∃ r, jobs extracting !! 2 = Some r ∧ state r = running) ∧
  ∃ d'', rtc (sparing [2; 3]) extracting d'' ∧ ∀ a, a ∈ [2; 3] → finished d'' a.
Proof.
  split; [eexists; split; by vm_compute|].
  apply (workflow_can_finish 100 pair enqueued1 [2; 3] enqueued2 extracting).
  - apply enqueued1_reachable.
  - intros p c H. change (links pair) with ({[(0%nat, 1%nat)]} : gset (nat * nat)) in H.
    apply elem_of_singleton in H. injection H as -> ->. change (order pair) with 2%nat. lia.
  - by vm_compute.
  - apply rtc_once, extracting_sparing.
  - apply extracting_healthy.
Defined.

End WorkflowFinish.
