(* ===== verification/PgRecover.v ===== *)
(** * Recovering work

    Leases that lapse, leases handed back, and dead letters
    returned to the queue by an operator. *)

From S2P Require Import Prelude.
From S2P Require Import PgTable.
From S2P Require Import PgJobs.
From S2P Require Import PgWorkflow.
From S2P Require Import PgInvariant.
From S2P Require Import PgSteps.
From S2P Require Import PgReach.
From S2P Require Import PgExample.
From S2P Require Import PgSettle.
Import Table.
Import Jobs.
Import Workflow.
Import Invariant.
Import Steps.
Import Reach.
Import Example.
Import Settle.

Module Recover.

Section Planned.
Context {Pl : Planner}.

(** What the sweep does to a row it takes. *)
Definition recovered (now : Z) (r : job_row) : job_row :=
  if attempts_left r then release_lease_row r else discard_row now (Some lease_expired_text) r.

Lemma count_split (ids : list Z) (q : job_row → bool) d :
  NoDup ids → (∀ i, i ∈ ids → is_Some (jobs d !! i)) →
  count (λ i r, bool_decide (i ∈ ids) && Bool.eqb (q r) true) d +
  count (λ i r, bool_decide (i ∈ ids) && Bool.eqb (q r) false) d = len ids.
Proof.
  intros Hnd Hin. unfold count. rewrite <- len_app. unfold len. f_equal. apply Permutation_length.
  apply NoDup_Permutation; [|done|].
  - apply NoDup_app. split_and!; try apply NoDup_select.
    intros i (r & Hr & H1)%elem_of_select (r' & Hr' & H2)%elem_of_select. simplify_eq. bool_facts. congruence.
  - intros i. rewrite elem_of_app, !elem_of_select. split.
    + intros [(r & Hr & H)|(r & Hr & H)]; by bool_facts.
    + intros Hi. destruct (Hin i Hi) as [r Hr]. rewrite (bool_decide_true _ Hi). simpl.
      destruct (q r) eqn:E; [left|right]; exists r; by rewrite E.
Qed.

Definition swept (now n : Z) (d : db) : list Z := limit n (arrange (select (λ _ r, lapsed now r) d)).

Lemma NoDup_swept now n d : NoDup (swept now n d).
Proof.
  unfold swept, limit. eapply sublist_NoDup; [|apply sublist_take].
  rewrite arrange_perm. apply NoDup_select.
Qed.

Lemma len_swept now n d : 0 <= n → len (swept now n d) = Z.min n (count (λ _ r, lapsed now r) d).
Proof.
  intros Hn. unfold swept, limit, len, count, len. rewrite length_take, (Permutation_length (arrange_perm _)). lia.
Qed.

Lemma swept_all now n d i r :
  count (λ _ r, lapsed now r) d <= n → jobs d !! i = Some r → lapsed now r = true → i ∈ swept now n d.
Proof.
  intros Hn Hr Hl. unfold swept, limit. rewrite take_ge.
  - rewrite arrange_perm. apply elem_of_select. eauto.
  - rewrite (Permutation_length (arrange_perm _)). unfold count, len in Hn. lia.
Qed.

Lemma reclaim_exact now n d :
  db_ok d → 0 <= n →
  ∃ c d', reclaim_expired now n d = Ok (c, d') ∧ db_ok d' ∧
    released c + exhausted c = Z.min n (count (λ _ r, lapsed now r) d) ∧
    ∀ i r, jobs d !! i = Some r →
      jobs d' !! i = Some (if decide (i ∈ swept now n d) then recovered now r else r).
Proof.
  intros Hd Hn. pose proof (reclaim_ok now n d Hn Hd) as (c & d' & E & Hok).
  exists c, d'. split_and!; [done|done|..].
  - unfold reclaim_expired, RECLAIM in E. apply negative_limit in E as [_ E].
    destruct (commit _) as [d1|] eqn:Ec; simplify_eq/=.
    rewrite (count_split (swept now n d)); [by apply len_swept|apply NoDup_swept|].
    intros i Hi. unfold swept in Hi. apply elem_of_limit in Hi. rewrite arrange_perm in Hi.
    apply elem_of_select in Hi as (r & Hr & _). eauto.
  - intros i r Hr. unfold reclaim_expired, RECLAIM in E. apply negative_limit in E as [_ E].
    destruct (commit _) as [d1|] eqn:Ec; simplify_eq/=.
    rewrite (update_lookup _ _ _ _ _ Ec Hr). unfold swept, recovered. by case_decide.
Qed.

(** C29. A sweep recovers leases that lapsed and nothing else: it always
    succeeds, accounts for every job it took, returns those with attempts left
    to the queue and dead-letters the rest; with a limit no smaller than the
    number of lapsed leases none is left behind. *)
Theorem reclaim_recovers now n d :
  reachable d → 0 <= n →
  ∃ c d', reclaim_expired now n d = Ok (c, d') ∧
    released c + exhausted c = Z.min n (count (λ _ r, lapsed now r) d) ∧
    (∀ i r, jobs d !! i = Some r → lapsed now r = false → jobs d' !! i = Some r) ∧
    (∀ i r, jobs d !! i = Some r → jobs d' !! i = Some r ∨ jobs d' !! i = Some (recovered now r)) ∧
    (count (λ _ r, lapsed now r) d <= n →
     ∀ i r, jobs d !! i = Some r → lapsed now r = true → jobs d' !! i = Some (recovered now r)).
Proof.
  intros Hd%reachable_ok Hn. destruct (reclaim_exact now n d Hd Hn) as (c & d' & E & _ & Hc & Hj).
  exists c, d'. split_and!; [done|done|..].
  - intros i r Hr Hl. rewrite (Hj i r Hr). case_decide as Hi; [|done].
    eapply expired_lapsed in Hi; [|done]. congruence.
  - intros i r Hr. rewrite (Hj i r Hr). case_decide; auto.
  - intros Hall i r Hr Hl. rewrite (Hj i r Hr). rewrite decide_True; [done|]. by eapply swept_all.
Qed.

(** Jobs a worker abandons are recovered by any sweep from that moment on,
    without waiting for their leases to run out. *)
Lemma abandon_recovers now now' ids worker k d d1 n i r :
  db_ok d → abandon_leases now ids worker d = Ok (k, d1) → now <= now' →
  count (λ _ r, lapsed now' r) d1 <= n →
  i ∈ ids → jobs d !! i = Some r → held worker r = true →
  ∃ c d2 r', reclaim_expired now' n d1 = Ok (c, d2) ∧ jobs d2 !! i = Some r' ∧
    locked_by r' = None ∧ state r' = if attempts_left r then available else discarded.
Proof.
  intros Hd E Hle Hn Hi Hr Hh.
  assert (db_ok d1) as Hd1 by (by eapply succeeds_ok; [apply abandon_ok|]).
  assert (0 <= n) as Hpos by (unfold count in Hn; pose proof (len_nonneg (select (λ _ r, lapsed now' r) d1)); lia).
  unfold abandon_leases, ABANDON in E.
  rewrite decide_False in E by (intros ->; by apply elem_of_nil in Hi).
  destruct (commit _) as [d0|] eqn:Ec; simplify_eq/=.
  pose proof (update_lookup _ _ _ _ _ Ec Hr) as Hr1. cbv beta in Hr1.
  rewrite (bool_decide_true _ Hi), Hh in Hr1. simpl in Hr1.
  set (r1 := set_lease_expires_at (Some (now - 1)) r) in *.
  assert (lapsed now' r1 = true) as Hl.
  { unfold lapsed, r1; simpl. rewrite bool_decide_true by by eapply held_running. apply Z.ltb_lt. lia. }
  destruct (reclaim_exact now' n d1 Hd1 Hpos) as (c & d2 & E2 & _ & _ & Hj).
  exists c, d2, (recovered now' r1). split_and!; [done|..].
  - rewrite (Hj i r1 Hr1), decide_True; [done|]. by eapply swept_all.
  - unfold recovered. by destruct (attempts_left r1).
  - unfold recovered. change (attempts_left r1) with (attempts_left r). by destruct (attempts_left r).
Qed.

(** Retrying dead letters returns exactly the discarded jobs in scope:
    each is runnable at once with all its attempts, keeping its error history;
    no other row changes. *)
Lemma dead_letters_requeued now ids q l d d' :
  reachable d → retry_discarded now ids q d = Ok (l, d') →
  (∀ i, i ∈ l ↔ ∃ r, jobs d !! i = Some r ∧ state r = discarded ∧ in_scope ids q i r = true) ∧
  ∀ i r, jobs d !! i = Some r →
    if decide (i ∈ l) then
      ∃ r', jobs d' !! i = Some r' ∧ attempt r' = 0 ∧ errors r' = errors r ∧ spec r' = spec r ∧
            runnable now [queue (spec r)] r' = true
    else jobs d' !! i = Some r.
Proof.
  intros Hd E. unfold retry_discarded in E. destruct (commit _) as [d1|] eqn:Ec; simplify_eq/=.
  assert (∀ i, i ∈ arrange (select (λ i r, bool_decide (state r = discarded) && in_scope ids q i r) d) ↔
    ∃ r, jobs d !! i = Some r ∧ state r = discarded ∧ in_scope ids q i r = true) as Hl.
  { intros i. rewrite arrange_perm, elem_of_select. split.
    - intros (r & Hr & Hp). exists r. by bool_facts.
    - intros (r & Hr & Hs & Hp). exists r. by rewrite (bool_decide_true _ Hs), Hp. }
  split; [done|]. intros i r Hr. pose proof (update_lookup _ _ _ _ _ Ec Hr) as Hr'. simpl in Hr'.
  destruct (decide (i ∈ arrange _)) as [Hi|Hi].
  - apply Hl in Hi as (r0 & ? & Hs & Hin). simplify_eq.
    rewrite (bool_decide_true _ Hs), Hin in Hr'. eexists. split_and!; [done..|].
    unfold runnable; simpl. rewrite bool_decide_true by set_solver. simpl. apply Z.leb_refl.
  - destruct (bool_decide (state r = discarded) && in_scope ids q i r) eqn:Ep; [|done].
    exfalso. apply Hi, Hl. bool_facts. eauto.
Qed.

End Planned.

(** ** Applied to the example *)

Lemma reclaim_recovers_witness :
  ∃ c d', reclaim_expired 5000 100 leased_all = Ok (c, d') ∧ released c + exhausted c = 3 ∧
    jobs d' !! 1 = Some (recovered 5000 (row_of leased_all 1)).
Proof.
  destruct (reclaim_recovers 5000 100 leased_all) as (c & d' & E & Hc & _ & _ & Hall).
  - apply leased_all_reachable.
  - lia.
  - exists c, d'. split_and!; [exact E|rewrite Hc; vm_compute; reflexivity|].
    apply Hall; vm_compute; [discriminate|reflexivity|reflexivity].
Defined.

(** The fragile workflow's first job, dead-lettered. *)
Definition charge_failed : db :=
  after (discard_many 300 [1] ["declined"] alice fragile_leased).

End Recover.
