(* ===== verification/PgHistory.v ===== *)
(** * Schedules, steps and history

    Schedules fire once, steps are recorded once, retention deletes only
    finished history, and queue depth adds up. Also here: what a job that
    cannot be attempted does to the fetch that meets it. *)

From S2P Require Import Prelude.
From S2P Require Import PgTable.
From S2P Require Import PgJobs.
From S2P Require Import PgCron.
From S2P Require Import PgRetention.
From S2P Require Import PgWorkflow.
From S2P Require Import PgInvariant.
From S2P Require Import PgSteps.
From S2P Require Import PgReach.
From S2P Require Import PgExample.
Import Table.
Import Jobs.
Import Cron.
Import Retention.
Import Workflow.
Import Invariant.
Import Steps.
Import Reach.
Import Example.

Module History.

Section Planned.
Context {Pl : Planner}.

(** ** Schedules *)

(** A statement of another session before [until], as far as the schedule [name] goes:
    one that leaves it alone, or another attempt to fire it. *)
Definition rival (name : string) (until : Z) (d d' : db) : Prop :=
  step d d' ∧
  (crons d' !! name = crons d !! name ∨
   ∃ now next i, now < until ∧ fire_cron now name next d = Ok (i, d')).

Lemma fire_early now name next c d :
  crons d !! name = Some c → now < cron_next_run_at c → fire_cron now name next d = Ok (None, d).
Proof.
  intros Hc Hlt. unfold fire_cron, FIRE_CRON. rewrite Hc. unfold cron_due.
  destruct (Z.leb_spec (cron_next_run_at c) now); [lia|]. by rewrite andb_false_r.
Qed.

Lemma rivals_early name until c d d' :
  rtc (rival name until) d d' → crons d !! name = Some c → cron_next_run_at c = until → crons d' !! name = Some c.
Proof.
  induction 1 as [|d d1 d2 [_ Hr] _ IH]; intros Hc Hu; [done|]. apply IH; [|done].
  destruct Hr as [->|(now & next & i & Hlt & Hf)]; [done|].
  rewrite (fire_early now name next c d Hc) in Hf by lia. by simplify_eq.
Qed.

(** C33. A schedule fires once per run. If it is not paused and its time has come, the
    first caller gets exactly one new job, the schedule's task on the schedule's
    queue and runnable at once, and the schedule is advanced to [next]; whatever
    other sessions do after that, short of changing the schedule, every caller whose
    clock has not reached [next] gets nothing and changes nothing. If it is paused,
    not yet due or not there, so does the first. *)
Theorem fires_once now name next d :
  reachable d →
  match crons d !! name with
  | Some c =>
    if decide (cron_paused c = false ∧ cron_next_run_at c <= now) then
      ∃ d' r c', fire_cron now name next d = Ok (Some (next_job d), d') ∧
        jobs d !! next_job d = None ∧ jobs d' = <[next_job d := r]> (jobs d) ∧
        task (spec r) = cron_task c ∧ payload (spec r) = cron_payload c ∧ runnable now [cron_queue c] r = true ∧
        crons d' = <[name := c']> (crons d) ∧ cron_next_run_at c' = next ∧ cron_last_run_at c' = Some now ∧
        ∀ d2 now' next', rtc (rival name next) d' d2 → now' < next → fire_cron now' name next' d2 = Ok (None, d2)
    else fire_cron now name next d = Ok (None, d)
  | None => fire_cron now name next d = Ok (None, d)
  end.
Proof.
  intros Hd%reachable_ok. pose proof (fire_ok now name next d Hd) as (i & d' & E & _).
  pose proof E as E0. unfold fire_cron, FIRE_CRON in E.
  destruct (crons d !! name) as [c|] eqn:Hc; [|by simplify_eq].
  destruct (cron_due now c) eqn:Hdue; unfold cron_due in Hdue.
  - bool_facts. rewrite decide_True by (split; [done|lia]).
    destruct (commit _) as [d1|] eqn:Ec; simplify_eq/=. apply commit_Ok in Ec as (-> & _).
    eexists _, (fired_row now c), (advance now next c). split_and!; [exact E0|by apply fresh_id|done..| | | | |].
    + unfold runnable; simpl. rewrite bool_decide_true by set_solver. simpl. apply Z.leb_le. lia.
    + done.
    + done.
    + done.
    + intros d2 now' next' Hr Hlt. eapply fire_early; [eapply rivals_early; [exact Hr|simpl; apply lookup_insert_eq|done]|done].
  - simplify_eq. rewrite decide_False; [done|]. intros [Hp Hle]. rewrite Hp in Hdue. simpl in Hdue. bool_facts. lia.
Qed.

(** Registering a schedule again, as every restart does, neither skips nor
    repeats a run nor undoes an operator: with the same expression and zone the
    next run stays, a pause is kept in any case, and no other schedule changes. *)
Lemma restart_keeps_schedule now e next d old :
  crons d !! ce_name e = Some old →
  ∃ c, crons (upsert_cron now e next d) !! ce_name e = Some c ∧
    cron_paused c = cron_paused old ∧ cron_last_run_at c = cron_last_run_at old ∧
    cron_next_run_at c =
      (if decide (cron_expression old = ce_expression e ∧ cron_timezone old = ce_timezone e)
       then cron_next_run_at old else next) ∧
    (∀ name, name ≠ ce_name e → crons (upsert_cron now e next d) !! name = crons d !! name).
Proof.
  intros Hold. unfold upsert_cron, UPSERT_CRON. rewrite Hold. simpl. eexists. rewrite lookup_insert_eq.
  split_and!; try done; simpl.
  - case_decide as H.
    + destruct H as [-> ->]. by rewrite !bool_decide_false by auto.
    + destruct (decide (cron_expression old = ce_expression e)) as [He|Hne].
      * rewrite (bool_decide_true (cron_timezone old ≠ ce_timezone e)) by auto. by rewrite orb_true_r.
      * by rewrite (bool_decide_true (cron_expression old ≠ ce_expression e)).
  - intros name Hne. by rewrite lookup_insert_ne.
Qed.

(** ** Steps *)

Lemma elem_of_steps_for job name res d :
  (name, res) ∈ steps_for job d ↔ ∃ s, steps d !! (job, name) = Some s ∧ step_result s = res.
Proof.
  unfold steps_for, STEPS_FOR. rewrite list_elem_of_fmap. split.
  - intros ([[j n] s] & E & H). simplify_eq/=.
    rewrite merge_sort_Permutation, list_elem_of_In, filter_In, <- list_elem_of_In in H.
    destruct H as [H%elem_of_map_to_list Hj]. bool_facts. simpl in Hj. subst. eauto.
  - intros (s & Hs & <-). exists ((job, name), s). split; [done|].
    rewrite merge_sort_Permutation, list_elem_of_In, filter_In, <- list_elem_of_In.
    split; [by apply elem_of_map_to_list|]. by apply bool_decide_eq_true.
Qed.

(** A step is recorded once: reporting it again, with any result, changes
    nothing, and replay reads back the result that was stored first, beside
    every step recorded before. *)
Lemma step_recorded_once now job name res d d' :
  record_step now job name res d = Ok d' →
  (∀ now' res', record_step now' job name res' d' = Ok d') ∧
  (∃ first, (name, first) ∈ steps_for job d' ∧
     (∀ x, (name, x) ∈ steps_for job d' → x = first) ∧
     (∀ x, (name, x) ∈ steps_for job d → x = first)) ∧
  (∀ n x, n ≠ name → (n, x) ∈ steps_for job d' ↔ (n, x) ∈ steps_for job d).
Proof.
  intros H. assert (∃ s, steps d' !! (job, name) = Some s ∧
    (∀ s', steps d !! (job, name) = Some s' → s' = s) ∧
    (∀ n, n ≠ name → steps d' !! (job, n) = steps d !! (job, n))) as (s & Hs & Hold & Hother).
  { unfold record_step, RECORD_STEP in H. destruct (steps d !! (job, name)) as [s|] eqn:E; simplify_eq.
    - exists s. split_and!; [done|congruence|done].
    - case_decide; simplify_eq. eexists. simpl. rewrite lookup_insert_eq. split_and!; [done..|].
      intros n Hn. rewrite lookup_insert_ne; [done|congruence]. }
  split_and!.
  - intros. unfold record_step, RECORD_STEP. by rewrite Hs.
  - exists (step_result s). split_and!.
    + apply elem_of_steps_for. eauto.
    + intros x (s' & ? & <-)%elem_of_steps_for. congruence.
    + intros x (s' & ? & <-)%elem_of_steps_for. by rewrite (Hold s').
  - intros n x Hn. rewrite !elem_of_steps_for. by rewrite Hother.
Qed.

(** ** Retention *)

Definition may_prune now states older q (skip : gset Z) d (i : Z) (r : job_row) : bool :=
  prunable now states older q d r && negb (bool_decide (i ∈ skip)).

Lemma victims_spec now states older q n skip d :
  0 <= n →
  NoDup (victims now states older q n skip d) ∧
  len (victims now states older q n skip d) =
    Z.min n (count (may_prune now states older q skip d) d) ∧
  (∀ i, i ∈ victims now states older q n skip d →
     ∃ r, jobs d !! i = Some r ∧ may_prune now states older q skip d i r = true).
Proof.
  intros Hn. unfold victims. set (l := List.filter _ _). split_and!.
  - unfold limit. rewrite fmap_take. eapply sublist_NoDup; [|apply sublist_take].
    rewrite merge_sort_Permutation. apply NoDup_filter_ids, NoDup_fst_map_to_list.
  - unfold limit, len. rewrite length_fmap, length_take, (Permutation_length (merge_sort_Permutation _ _)).
    unfold count, select, len. rewrite length_fmap.
    change (List.filter _ (map_to_list (jobs d))) with l. lia.
  - intros i ([j r] & -> & Hi)%list_elem_of_fmap. apply elem_of_limit in Hi.
    rewrite merge_sort_Permutation, list_elem_of_In in Hi. unfold l in Hi.
    rewrite filter_In, <- list_elem_of_In in Hi. destruct Hi as [Hi%elem_of_map_to_list Hp]. eauto.
Qed.

(** What [prunable] says of a row. *)
Lemma prunable_spec now states older q d r :
  prunable now states older q d r = true →
  state r ∈ states ∧ (∃ t, finalized_at r = Some t ∧ t < now - older) ∧
  (∀ name, q = Some name → queue (spec r) = name) ∧
  (∀ w j s, workflow_id (spec r) = Some w → jobs d !! j = Some s → workflow_id (spec s) = Some w → ¬ live s).
Proof.
  unfold prunable. intros Hp. bool_facts. split_and!; [done|..].
  - destruct (finalized_at r) as [t|]; [|done]. bool_facts. eauto.
  - intros name ->. by bool_facts.
  - intros w j s Hw Hj Hs Hlive. rewrite Hw in *. bool_facts. unfold workflow_live in *. bool_facts.
    match goal with H : ¬ (_ ≠ []) |- _ => apply H; clear H end. intros Hnil.
    assert (j ∈ select (λ _ r, bool_decide (workflow_id (spec r) = Some w) && bool_decide (live r)) d) as Hin.
    { apply elem_of_select. exists s. by rewrite !bool_decide_true. }
    rewrite Hnil in Hin. by apply elem_of_nil in Hin.
Qed.

(** A batch deletes jobs it may prune, and counts them. *)
Lemma prune_deletes now skip states older q n d c d' :
  prune_states now skip states older q n d = Ok (c, d') →
  c = Z.min n (count (may_prune now states older q skip d) d) ∧
  ∃ v, NoDup v ∧ c = len v ∧ d' = delete_jobs v d ∧
    ∀ i, i ∈ v → ∃ r, jobs d !! i = Some r ∧ may_prune now states older q skip d i r = true.
Proof.
  unfold prune_states. intros [Hn E]%negative_limit. simplify_eq.
  destruct (victims_spec now states older q n skip d Hn) as (Hnd & Hlen & Hv). split; [done|]. eauto 10.
Qed.

(** A batch below its limit leaves nothing it could have pruned. *)
Lemma prune_exhausts now skip states older q n d c d' :
  prune_states now skip states older q n d = Ok (c, d') → c < n →
  ∀ i r, jobs d !! i = Some r → may_prune now states older q skip d i r = true → jobs d' !! i = None.
Proof.
  intros (Hc & v & Hnd & Hlen & -> & Hv)%prune_deletes Hlt i r Hr Hp.
  apply eq_None_not_Some. intros [? [_ Hi]%delete_lookup]. apply Hi.
  assert (v ≡ₚ select (may_prune now states older q skip d) d) as ->; [|apply elem_of_select; eauto].
  apply submseteq_length_Permutation.
  - apply NoDup_submseteq; [done|]. intros j Hj. apply elem_of_select. eauto.
  - unfold count, len in *. lia.
Qed.

(** Retention deletes finished history and nothing else: a job that goes
    was finalised before the window, in one of the states asked for, on the
    queue asked for, and in no workflow with a member still waiting or running;
    every other job stays as it was, the count returned is exact, and a count
    below the limit means nothing prunable was left (but for rows other
    transactions hold). *)
Lemma prune_only_history now skip states older q n d c d' :
  prune_states now skip states older q n d = Ok (c, d') →
  c = Z.min n (count (may_prune now states older q skip d) d) ∧
  (∀ i r, jobs d !! i = Some r →
     jobs d' !! i = Some r ∨
     (jobs d' !! i = None ∧ state r ∈ states ∧ (∃ t, finalized_at r = Some t ∧ t < now - older) ∧
      (∀ name, q = Some name → queue (spec r) = name) ∧
      (∀ w j s, workflow_id (spec r) = Some w → jobs d !! j = Some s →
         workflow_id (spec s) = Some w → ¬ live s))) ∧
  (c < n → ∀ i r, jobs d !! i = Some r → may_prune now states older q skip d i r = true → jobs d' !! i = None).
Proof.
  intros E. pose proof E as (Hc & v & _ & _ & -> & Hv)%prune_deletes.
  split_and!; [done| |by eapply prune_exhausts].
  intros i r Hr. destruct (decide (i ∈ v)) as [Hi|Hi]; [right|left; by apply delete_lookup]. split.
  - apply eq_None_not_Some. intros [? [_ ?]%delete_lookup]. done.
  - destruct (Hv i Hi) as (r' & ? & [Hp _]%andb_prop). simplify_eq. by apply prunable_spec.
Qed.

(** ** Depth *)

(** Depth adds up: the jobs waiting in a queue are those ready, those
    scheduled for later and those blocked, and the blocked ones are exactly the
    jobs with dependencies outstanding. *)
Lemma depth_adds_up now q d :
  reachable d →
  ready (depth now q d) + depth_scheduled (depth now q d) + blocked (depth now q d) =
    count (λ _ r, bool_decide (queue (spec r) = q) && bool_decide (state r = available)) d ∧
  blocked (depth now q d) =
    count (λ _ r, bool_decide (queue (spec r) = q) && bool_decide (state r = available) &&
                  (0 <? pending_deps r)) d.
Proof.
  intros Hd%reachable_ok. unfold depth; simpl. split.
  - unfold count, select, len. rewrite !length_fmap, <- !Nat2Z.inj_add. f_equal.
    induction (map_to_list (jobs d)) as [|[i r] l IH]; [done|]. simpl.
    destruct (bool_decide (queue (spec r) = q)); simpl; [|done].
    destruct (bool_decide (state r = available)); simpl; [|done].
    destruct (due now (scheduled_at r)) eqn:E; simpl.
    + rewrite bool_decide_false by (intros E'; by rewrite E' in E). simpl. lia.
    + destruct (bool_decide (scheduled_at r = Infinity)); simpl; lia.
  - apply Z.le_antisymm; apply count_mono; intros i r Hr Hp; exists r; (split; [done|]); bool_facts;
      pose proof (ok_parked _ (rows_ok _ Hd i r Hr)) as Hpk;
      (rewrite !bool_decide_true by done; simpl).
    + apply Z.ltb_lt, Hpk; [by left|done].
    + apply bool_decide_eq_true, Hpk; [by left|done].
Qed.

(** ** A job that cannot be attempted *)

(** A job enqueued with no attempts to spend is a poison pill: the insert
    is accepted, and from then on every unkeyed pass that reaches it fails as a
    whole and leases nothing. *)
Lemma poison_job now queues n worker lease skip d i r :
  0 <= n → (i, r) ∈ limit n (unkeyed_candidates now queues skip d) →
  max_attempts (spec r) <= attempt r →
  FETCH_UNKEYED now queues n worker lease skip d = Err CheckViolation.
Proof.
  intros Hn Hi Ha. unfold FETCH_UNKEYED. destruct (Z.ltb_spec n 0); [lia|].
  rewrite lease_rows_eq. set (ids := (limit n _).*1).
  assert (commit (update (lease_update now worker lease ids) d) = Err CheckViolation) as ->; [|done].
  unfold commit. rewrite decide_False; [done|]. intros Hall.
  destruct (unkeyed_picked now queues skip n d i r Hi) as [Hr _].
  specialize (Hall i (lease_row now worker lease r)). destruct Hall as (Hb & _).
  - apply lookup_update_Some. exists r. split; [done|]. unfold lease_update.
    rewrite decide_True; [done|]. apply list_elem_of_fmap. by exists (i, r).
  - simpl in Hb. lia.
Qed.

End Planned.
(** ** Applied to the example *)

Definition nightly : CronEntry := {|
  ce_name := "nightly"; ce_queue := "default"; ce_task := "report"; ce_payload := [];
  ce_expression := "0 3 * * *"; ce_timezone := "UTC" |}.
Definition scheduled_db : db := upsert_cron 100 nightly 500 enqueued.
Definition fired_db : db := after (fire_cron 600 "nightly" 900 scheduled_db).

Definition nightly_row : cron_row := {|
  cron_queue := "default"; cron_task := "report"; cron_payload := []; cron_expression := "0 3 * * *";
  cron_timezone := "UTC"; cron_paused := false; cron_next_run_at := 500; cron_last_run_at := None;
  cron_updated_at := 100 |}.

Lemma fires_once_witness :
  fire_cron 600 "nightly" 900 scheduled_db = Ok (Some 6, fired_db) ∧
  fire_cron 700 "nightly" 900 fired_db = Ok (None, fired_db) ∧ is_Some (jobs fired_db !! 6).
Proof.
  assert (reachable scheduled_db) as Hd.
  { apply rtc_r with enqueued; [apply enqueued_reachable|]. apply by_upsert. vm_compute. reflexivity. }
  pose proof (fires_once 600 "nightly" 900 scheduled_db Hd) as H0.
  assert (crons scheduled_db !! "nightly" = Some nightly_row) as Hrow by (vm_compute; reflexivity).
  rewrite Hrow, decide_True in H0 by (split; [reflexivity|simpl; lia]). destruct H0 as (d' & r & c' & Hf & _ & Hj & _ & _ & _ & _ & _ & _ & H).
  assert (d' = fired_db) as -> by (unfold fired_db; by rewrite Hf).
  split; [exact Hf|]. split; [apply H; [apply rtc_refl|lia]|]. rewrite Hj. exists r. apply lookup_insert_eq.
Defined.

Definition finished : db := after (complete 300 [1; 2] [] alice leased_all).

End History.
