(* ===== verification/Redis.v ===== *)
(** * The Redis backend

    [crates/gylo-redis/src/lib.rs]: the keyspace of the server as the backend's
    commands see it, its three Lua scripts and every operation of [Backend].

    A command, a script and an atomic pipeline are each one step of the server;
    where an operation issues several, an argument stands for what other clients
    do in between. [now_millis()] is an argument of each use. Members of a
    sorted set are job ids in decimal. Scores are doubles that hold whole
    milliseconds; the model has them as integers. *)

From S2P Require Import Prelude.
From S2P Require Import Core.
From stdpp Require Import pretty.
#[local] Open Scope Z_scope.
Import Core.

Module Redis.

(** ** The server *)

(** Sorted sets by key, and the two hashes: payloads and attempt counters. *)
Record server := {
  zsets : gmap string (gmap Z Z);
  blobs : gmap string (gmap Z (list byte));
  counters : gmap string (gmap Z Z)
}.

Definition zset (k : string) (s : server) : gmap Z Z := default ∅ (zsets s !! k).
Definition blob (k : string) (s : server) : gmap Z (list byte) := default ∅ (blobs s !! k).
Definition counter (k : string) (s : server) : gmap Z Z := default ∅ (counters s !! k).

Definition set_zset k v s := {|
  zsets := <[k := v]> (zsets s); blobs := blobs s; counters := counters s |}.
Definition set_blob k v s := {|
  zsets := zsets s; blobs := <[k := v]> (blobs s); counters := counters s |}.
Definition set_counter k v s := {|
  zsets := zsets s; blobs := blobs s; counters := <[k := v]> (counters s) |}.

Definition zadd (k : string) (id score : Z) (s : server) : server :=
  set_zset k (<[id := score]> (zset k s)) s.
Definition zrem (k : string) (ids : list Z) (s : server) : server :=
  set_zset k (filter (λ e : Z * Z, e.1 ∉ ids) (zset k s)) s.
(** How many members [ZREM] removes. *)
Definition zrem_count (k : string) (ids : list Z) (s : server) : Z :=
  Z.of_nat (size (filter (λ e : Z * Z, e.1 ∈ ids) (zset k s))).
Definition zcard (k : string) (s : server) : Z := Z.of_nat (size (zset k s)).
Definition hset (k : string) (id : Z) (v : list byte) (s : server) : server :=
  set_blob k (<[id := v]> (blob k s)) s.
Definition hdel_blob (k : string) (ids : list Z) (s : server) : server :=
  set_blob k (filter (λ e : Z * list byte, e.1 ∉ ids) (blob k s)) s.
Definition hdel_counter (k : string) (ids : list Z) (s : server) : server :=
  set_counter k (filter (λ e : Z * Z, e.1 ∉ ids) (counter k s)) s.
Definition hincrby (k : string) (id n : Z) (s : server) : server :=
  set_counter k (<[id := default 0 (counter k s !! id) + n]> (counter k s)) s.

(** Sorted sets order by score, then by member as a string. *)
Definition member_order (a b : Z * Z) : Prop :=
  a.2 < b.2 ∨ (a.2 = b.2 ∧ String.leb (pretty a.1) (pretty b.1) = true).
#[global] Instance member_order_dec : RelDecision member_order.
Proof. intros a b. unfold member_order. apply _. Defined.

(** [ZRANGEBYSCORE k -inf max LIMIT 0 n]. *)
Definition zrangebyscore (k : string) (max n : Z) (s : server) : list Z :=
  (take (Z.to_nat n) (merge_sort member_order
     (List.filter (λ e : Z * Z, e.2 <=? max) (map_to_list (zset k s))))).*1.

(** [DEL]. *)
Definition del (ks : list string) (s : server) : server := {|
  zsets := filter (λ e : string * gmap Z Z, e.1 ∉ ks) (zsets s);
  blobs := filter (λ e : string * gmap Z (list byte), e.1 ∉ ks) (blobs s);
  counters := filter (λ e : string * gmap Z Z, e.1 ∉ ks) (counters s) |}.

(** ** Keys *)

Record Keys := { namespace : string; leased : string; payload : string; attempt : string }.

Definition Keys_new (ns : string) : Keys := {|
  namespace := ns; leased := ns +:+ ":leased"; payload := ns +:+ ":payload";
  attempt := ns +:+ ":attempt" |}.

Definition ready (k : Keys) (level : Z) : string := namespace k +:+ ":ready:" +:+ pretty level.

Definition LEVELS : Z := 10.
Definition all_levels : list Z := seqZ 0 LEVELS.

Definition level (priority : Z) : Z := Z.max 0 (Z.min priority (LEVELS - 1)).

(** ** Data *)

Record Stored := { st_id : Z; st_task : string; st_payload : list byte; st_max_attempts : Z }.

(** [rmp_serde::to_vec] and [from_slice] at [Stored]. *)
Class StoredCodec := {
  to_vec : Stored → option (list byte);
  from_slice : list byte → option Stored
}.

Class StoredCodecLaws (C : StoredCodec) : Prop := {
  stored_round_trip s bs : to_vec s = Some bs → from_slice bs = Some s
}.

(** [Malformed] is the [RedisError] of a reply that does not convert. *)
Inductive Error := Payload (id : Z) | Malformed.

Section Codec.
Context {C : StoredCodec}.

(** ** Operations *)

Definition enqueue (k : Keys) (now : Z) (id : Z) (task : string) (body : list byte)
    (priority max_attempts delay : Z) (s : server) : result Error (Z * server) :=
  match to_vec {| st_id := id; st_task := task; st_payload := body; st_max_attempts := max_attempts |} with
  | None => Err (Payload id)
  | Some encoded =>
    Ok (id, s |> hset (payload k) id encoded
              |> zadd (ready k (level priority)) id (now + delay))
  end.

(** The scripts pass the ids of a level to one [ZREM] through Lua's [unpack], which
    raises above some 8000 values; the model has no such bound, and is the script
    for limits below it. *)

(** The body of [CLAIM]'s inner loop. *)
Definition take_lease (k : Keys) (expires : Z) (s : server) (id : Z) : server :=
  s |> zadd (leased k) id expires |> hincrby (attempt k) id 1.

(** One round of [CLAIM]'s outer loop: what is due at a level, and the server
    once it is leased. *)
Definition claim_level (k : Keys) (now expires remaining l : Z) (s : server) : list Z * server :=
  let due := zrangebyscore (ready k l) now remaining s in
  (due, if 0 <? len due then foldl (take_lease k expires) (zrem (ready k l) due s) due else s).

Fixpoint claim_levels (k : Keys) (now expires : Z) (levels : list Z) (remaining : Z) (s : server)
  : list Z * server :=
  match levels with
  | [] => ([], s)
  | l :: rest =>
    if remaining <=? 0 then ([], s) else
    let '(due, s1) := claim_level k now expires remaining l s in
    let '(more, s2) := claim_levels k now expires rest (remaining - len due) s1 in
    (due ++ more, s2)
  end.

Definition CLAIM (k : Keys) (now limit expires : Z) (s : server) : list Z * server :=
  claim_levels k now expires all_levels limit s.

(** The [i16] a counter's reply converts to. *)
Definition read_attempt (c : option Z) : result Error (option Z) :=
  match c with
  | None => Ok None
  | Some n => if decide (in_signed 16 n) then Ok (Some n) else Err Malformed
  end.

Fixpoint read_attempts (cs : list (option Z)) : result Error (list (option Z)) :=
  match cs with
  | [] => Ok []
  | c :: cs' => a ← read_attempt c; l ← read_attempts cs'; Ok (a :: l)
  end.

Definition job_of (id : Z) (bytes : option (list byte)) (att : option Z) : result Error Job :=
  match bytes with
  | None => Err (Payload id)
  | Some bs =>
    match from_slice bs with
    | None => Err (Payload id)
    | Some st => Ok {| job_id := st_id st; job_task := st_task st; job_payload := st_payload st;
                       job_attempt := default 1 att; job_max_attempts := st_max_attempts st;
                       job_durable := false |}
    end
  end.

(** [claimed.iter().zip(raw).zip(attempts).map(..).collect()]. *)
Fixpoint collect_jobs (ids : list Z) (raw : list (option (list byte))) (atts : list (option Z))
  : result Error (list Job) :=
  match ids, raw, atts with
  | id :: ids', b :: raw', a :: atts' =>
    j ← job_of id b a; l ← collect_jobs ids' raw' atts'; Ok (j :: l)
  | _, _, _ => Ok []
  end.

(** [fetch]: the claim, then the payloads, then the counters. [now1] dates the
    lease, [now2] is what the script compares with; [gap1] and [gap2] are what
    other clients do in between. *)
Definition fetch (k : Keys) (now1 now2 : Z) (gap1 gap2 : server → server) (limit lease : Z) (s : server)
  : result Error (list Job) * server :=
  let '(claimed, s1) := CLAIM k now2 limit (now1 + lease) s in
  if decide (claimed = []) then (Ok [], s1) else
  let s2 := gap1 s1 in
  let raw := (λ id, blob (payload k) s2 !! id) <$> claimed in
  let s3 := gap2 s2 in
  (atts ← read_attempts ((λ id, counter (attempt k) s3 !! id) <$> claimed);
   collect_jobs claimed raw atts, s3).

Definition complete (k : Keys) (ids : list Z) (s : server) : Z * server :=
  if decide (ids = []) then (0, s) else
  (zrem_count (leased k) ids s,
   s |> zrem (leased k) ids |> hdel_blob (payload k) ids |> hdel_counter (attempt k) ids).

Definition discard (k : Keys) (ids : list Z) (s : server) : Z * server := complete k ids s.

Definition retry (k : Keys) (now id priority delay : Z) (s : server) : server :=
  s |> zrem (leased k) [id] |> zadd (ready k (level priority)) id (now + delay).

(** [RENEW]. *)
Definition renew_one (k : Keys) (expires : Z) (acc : Z * server) (id : Z) : Z * server :=
  let '(renewed, s) := acc in
  match zset (leased k) s !! id with
  | Some _ => (renewed + 1, zadd (leased k) id expires s)
  | None => (renewed, s)
  end.

Definition renew (k : Keys) (now : Z) (ids : list Z) (lease : Z) (s : server) : Z * server :=
  if decide (ids = []) then (0, s) else foldl (renew_one k (now + lease)) (0, s) ids.

Definition abandon (k : Keys) (now : Z) (gap : server → server) (ids : list Z) (s : server)
  : Z * server :=
  if decide (ids = []) then (0, s) else
  (zrem_count (leased k) ids s,
   foldl (λ s id, zadd (ready k 0) id now s) (gap (zrem (leased k) ids s)) ids).

(** [RECLAIM]: what has lapsed goes back to level 0 (for limits [unpack] can take). *)
Definition RECLAIM (k : Keys) (now limit : Z) (s : server) : Z * server :=
  let expired := zrangebyscore (leased k) now limit s in
  if decide (expired = []) then (0, s) else
  (len expired, foldl (λ s id, zadd (ready k 0) id now s) (zrem (leased k) expired s) expired).

Definition reclaim_expired (k : Keys) (now limit : Z) (s : server) : Z * server :=
  RECLAIM k now limit s.

Definition depth (k : Keys) (s : server) : Z :=
  foldl (λ total l, total + zcard (ready k l) s) 0 all_levels.

Definition backend_keys (k : Keys) : list string :=
  (ready k <$> all_levels) ++ [leased k; payload k; attempt k].

Definition clear (k : Keys) (s : server) : server := del (backend_keys k) s.

(** [fsync_every_write], given the replies to the two [CONFIG GET]. *)
Definition fsync_every_write (appendonly fsync : list string) : bool :=
  match appendonly !! 1%nat with Some v => bool_decide (v = "yes") | None => false end &&
  match fsync !! 1%nat with Some v => bool_decide (v = "always") | None => false end.

End Codec.
End Redis.
