(* ===== verification/RedisClaim.v ===== *)
(** * Claiming on Redis

    [CLAIM] against its contract: what it takes, in which order, and that no
    job goes to two callers. *)

From S2P Require Import Prelude.
From S2P Require Import Core.
From S2P Require Import Redis.
From stdpp Require Import pretty.
#[local] Open Scope Z_scope.
Import Core.
Import Redis.

Module RedisClaim.

(** ** Keys of one backend are distinct *)

Lemma ready_inj k l l' : ready k l = ready k l' → l = l'.
Proof.
  unfold ready. intros H. apply (inj (String.append _)) in H. apply (inj (String.append _)) in H.
  by apply (inj pretty) in H.
Qed.

Lemma ready_leased ns l : ready (Keys_new ns) l ≠ leased (Keys_new ns).
Proof. unfold ready; simpl. intros H. apply (inj (String.append _)) in H. done. Qed.

Lemma payload_attempt ns : payload (Keys_new ns) ≠ attempt (Keys_new ns).
Proof. simpl. intros H. apply (inj (String.append _)) in H. done. Qed.

(** ** Commands *)

Lemma zset_set k v s : zset k (set_zset k v s) = v.
Proof. unfold zset; simpl. by rewrite lookup_insert_eq. Qed.

Lemma zset_set_ne k k' v s : k ≠ k' → zset k' (set_zset k v s) = zset k' s.
Proof. intros. unfold zset; simpl. by rewrite lookup_insert_ne. Qed.

Lemma zset_zadd k id sc s : zset k (zadd k id sc s) = <[id := sc]> (zset k s).
Proof. apply zset_set. Qed.

Lemma zset_zadd_ne k k' id sc s : k ≠ k' → zset k' (zadd k id sc s) = zset k' s.
Proof. apply zset_set_ne. Qed.

Lemma lookup_zrem k ids s id :
  zset k (zrem k ids s) !! id = if decide (id ∈ ids) then None else zset k s !! id.
Proof.
  unfold zrem. rewrite zset_set. case_decide as Hi.
  - apply map_lookup_filter_None. right. by intros sc _ ?.
  - destruct (zset k s !! id) as [sc|] eqn:E.
    + by apply map_lookup_filter_Some.
    + apply map_lookup_filter_None. by left.
Qed.

Lemma zset_zrem_ne k k' ids s : k ≠ k' → zset k' (zrem k ids s) = zset k' s.
Proof. apply zset_set_ne. Qed.

Lemma counter_hincrby k id n s :
  counter k (hincrby k id n s) = <[id := default 0 (counter k s !! id) + n]> (counter k s).
Proof. unfold counter, hincrby; simpl. by rewrite lookup_insert_eq. Qed.

#[local] Instance member_order_trans : Transitive member_order.
Proof.
  intros [a x] [b y] [c z]. unfold member_order; simpl. intros [?|[-> Hab]] [?|[-> Hbc]]; [left; lia|left; lia|left; lia|].
  right. split; [done|]. apply Is_true_true. apply Is_true_true in Hab, Hbc.
  change (String.le (pretty a) (pretty c)). by transitivity (pretty b).
Qed.

#[local] Instance member_order_total : Total member_order.
Proof.
  intros [a x] [b y]. unfold member_order; simpl. destruct (Z.lt_trichotomy x y) as [?|[->|?]]; [by left; left| |by right; left].
  destruct (String.leb_total (pretty a) (pretty b)); [left|right]; by right.
Qed.

(** [a] comes no later than [b] in the sorted set [k]. *)
Definition sooner (k : string) (s : server) (a b : Z) : Prop :=
  ∀ x y, zset k s !! a = Some x → zset k s !! b = Some y → member_order (a, x) (b, y).

Lemma sorted_weaken {A} (R S : relation A) l :
  (∀ x y, x ∈ l → y ∈ l → R x y → S x y) → StronglySorted R l → StronglySorted S l.
Proof.
  intros H Hs. induction Hs as [|x l Hs IH Hx]; constructor.
  - apply IH. intros; apply H; [by right..|done].
  - rewrite Forall_forall in Hx |- *. intros y Hy. apply H; [left|by right|auto].
Qed.

Lemma sorted_fmap {A B} (R : relation A) (S : relation B) (f : A → B) l :
  (∀ x y, x ∈ l → y ∈ l → R x y → S (f x) (f y)) → StronglySorted R l → StronglySorted S (f <$> l).
Proof.
  intros H Hs. induction Hs as [|x l Hs IH Hx]; [constructor|]. rewrite fmap_cons. constructor.
  - apply IH. intros; apply H; [by right..|done].
  - rewrite Forall_fmap. rewrite Forall_forall in Hx |- *. intros y Hy. apply H; [left|by right|auto].
Qed.

Lemma range_spec k max n s :
  let l := zrangebyscore k max n s in
  NoDup l ∧ len l <= Z.max n 0 ∧
  (∀ id, id ∈ l → ∃ sc, zset k s !! id = Some sc ∧ sc <= max) ∧
  (len l < n → ∀ id sc, zset k s !! id = Some sc → sc <= max → id ∈ l).
Proof.
  unfold zrangebyscore. set (l := List.filter _ _).
  assert (∀ id sc, (id, sc) ∈ l ↔ zset k s !! id = Some sc ∧ sc <= max) as Hl.
  { intros id sc. unfold l. rewrite list_elem_of_In, filter_In, <- list_elem_of_In, elem_of_map_to_list.
    simpl. by rewrite Z.leb_le. }
  simpl. split_and!.
  - rewrite fmap_take. eapply sublist_NoDup; [|apply sublist_take].
    rewrite merge_sort_Permutation. unfold l.
    apply NoDup_filter_ids, NoDup_fst_map_to_list.
  - unfold len. rewrite length_fmap, length_take. lia.
  - intros id ([j sc] & -> & Hin)%list_elem_of_fmap. apply elem_of_take in Hin as (i & Hi & _).
    apply list_elem_of_lookup_2 in Hi. rewrite merge_sort_Permutation in Hi. apply Hl in Hi. eauto.
  - intros Hlt id sc Hs Hm. apply list_elem_of_fmap. exists (id, sc). split; [done|].
    unfold len in Hlt. rewrite length_fmap, length_take in Hlt.
    rewrite take_ge by lia. rewrite merge_sort_Permutation. by apply Hl.
Qed.

(** What is taken comes in order, and before what is left. *)
Lemma range_order k max n s :
  let l := zrangebyscore k max n s in
  StronglySorted (sooner k s) l ∧
  ∀ a b y, a ∈ l → b ∉ l → zset k s !! b = Some y → y <= max → sooner k s a b.
Proof.
  unfold zrangebyscore. set (l := List.filter _ _).
  assert (∀ id sc, (id, sc) ∈ merge_sort member_order l ↔ zset k s !! id = Some sc ∧ sc <= max) as Hl.
  { intros id sc. rewrite merge_sort_Permutation. unfold l.
    rewrite list_elem_of_In, filter_In, <- list_elem_of_In, elem_of_map_to_list. simpl. by rewrite Z.leb_le. }
  pose proof (StronglySorted_merge_sort member_order l) as Hs.
  set (m := merge_sort member_order l) in *. rewrite <- (take_drop (Z.to_nat n) m) in Hs.
  assert (∀ e, e ∈ take (Z.to_nat n) m → e ∈ m) as Ht.
  { intros e He. rewrite <- (take_drop (Z.to_nat n) m). apply elem_of_app. by left. }
  simpl. split.
  - eapply (sorted_fmap member_order); [|by eapply StronglySorted_app_1_l].
    intros [a x] [b y] [Ha _]%Ht%Hl [Hb _]%Ht%Hl Hab x' y'. simpl. rewrite Ha, Hb. intros [= ->] [= ->]. done.
  - intros a b y ([a' x] & -> & Ha)%list_elem_of_fmap Hb Hy Hm x' y'. simpl. rewrite Hy. intros Hx' [= <-].
    pose proof (Ht _ Ha) as [Hx _]%Hl. rewrite Hx in Hx'. injection Hx' as ->.
    apply (StronglySorted_app_1_elem_of _ _ _ _ _ Hs Ha).
    assert ((b, y) ∈ m) as Hin by by apply Hl. rewrite <- (take_drop (Z.to_nat n) m) in Hin.
    apply elem_of_app in Hin as [Hin|?]; [|done]. destruct Hb. apply list_elem_of_fmap. by exists (b, y).
Qed.

(** ** One level *)

Lemma decide_cons_ne {A} (id x : Z) ids (a b : A) :
  id ≠ x → (if decide (id ∈ x :: ids) then a else b) = if decide (id ∈ ids) then a else b.
Proof.
  intros Hne. destruct (decide (id ∈ ids)) as [Hi|Hi].
  - apply decide_True. by right.
  - apply decide_False. intros [?|?]%elem_of_cons; done.
Qed.

Lemma take_leases ns expires ids s :
  let k := Keys_new ns in
  let s' := foldl (take_lease k expires) s ids in
  NoDup ids →
  (∀ k', k' ≠ leased k → zset k' s' = zset k' s) ∧
  (∀ id, zset (leased k) s' !! id = if decide (id ∈ ids) then Some expires else zset (leased k) s !! id) ∧
  (∀ id, counter (attempt k) s' !! id =
     if decide (id ∈ ids) then Some (default 0 (counter (attempt k) s !! id) + 1)
     else counter (attempt k) s !! id) ∧
  blobs s' = blobs s.
Proof.
  simpl. revert s. induction ids as [|x ids IH]; intros s; simpl; [done|].
  intros [Hx Hnd]%NoDup_cons. set (s1 := take_lease (Keys_new ns) expires s x).
  destruct (IH s1 Hnd) as (H1 & H2 & H3 & H4). split_and!.
  - intros k' Hk'. rewrite H1 by done. by apply (zset_zadd_ne (leased (Keys_new ns))).
  - intros id. rewrite H2. change (zset _ s1) with (zset (ns +:+ ":leased") (zadd (ns +:+ ":leased") x expires s)).
    rewrite zset_zadd. destruct (decide (id = x)) as [->|Hne].
    + by rewrite (decide_False _ _ Hx), decide_True, lookup_insert_eq by left.
    + rewrite lookup_insert_ne by done. by rewrite (decide_cons_ne id x).
  - intros id. rewrite H3. unfold s1, take_lease. simpl. rewrite counter_hincrby.
    change (counter _ (zadd _ _ _ s)) with (counter (ns +:+ ":attempt") s).
    destruct (decide (id = x)) as [->|Hne].
    + by rewrite (decide_False _ _ Hx), decide_True, lookup_insert_eq by left.
    + rewrite lookup_insert_ne by done. by rewrite (decide_cons_ne id x).
  - by rewrite H4.
Qed.

(** [id] waits at level [l] and its time has come. *)
Definition due_at (k : Keys) (now : Z) (s : server) (l id : Z) : Prop :=
  ∃ sc, zset (ready k l) s !! id = Some sc ∧ sc <= now.

(** The server after leasing [c] until [expires]: gone from the levels walked,
    in the lease set, one attempt more, payloads as they were. *)
Definition leased_from (k : Keys) (expires : Z) (levels : list Z) (c : list Z) (s s' : server) : Prop :=
  (∀ l id, zset (ready k l) s' !! id =
     if decide (id ∈ c ∧ l ∈ levels ∧ is_Some (zset (ready k l) s !! id)) then None
     else zset (ready k l) s !! id) ∧
  (∀ id, zset (leased k) s' !! id = if decide (id ∈ c) then Some expires else zset (leased k) s !! id) ∧
  (∀ id, counter (attempt k) s' !! id =
     if decide (id ∈ c) then Some (default 0 (counter (attempt k) s !! id) + 1)
     else counter (attempt k) s !! id) ∧
  blobs s' = blobs s.

Lemma claim_level_spec ns now expires remaining l s :
  let k := Keys_new ns in
  let due := (claim_level k now expires remaining l s).1 in
  let s' := (claim_level k now expires remaining l s).2 in
  NoDup due ∧ len due <= Z.max remaining 0 ∧ (∀ id, id ∈ due → due_at k now s l id) ∧
  (len due < remaining → ∀ id, due_at k now s l id → id ∈ due) ∧
  StronglySorted (sooner (ready k l) s) due ∧
  (∀ a b, a ∈ due → b ∉ due → due_at k now s l b → sooner (ready k l) s a b) ∧
  leased_from k expires [l] due s s'.
Proof.
  simpl. destruct (range_spec (ready (Keys_new ns) l) now remaining s) as (Hnd & Hlen & Hin & Hall).
  destruct (range_order (ready (Keys_new ns) l) now remaining s) as [Hsorted Hfirst].
  set (due := zrangebyscore _ _ _ _) in *. split_and!; [done|done|done| |done| |].
  { intros Hlt id (sc & ? & ?). eauto. }
  { intros a b Ha Hb (sc & ? & ?). eauto. }
  destruct (Z.ltb_spec 0 (len due)) as [Hpos|Hpos].
  2:{ assert (due = []) as ->; [destruct due; [done|rewrite len_cons in Hpos; pose proof (len_nonneg due); lia]|].
      split_and!; try done; intros; rewrite decide_False; try done; try (by intros ?%elem_of_nil);
        by intros [?%elem_of_nil _]. }
  destruct (take_leases ns expires due (zrem (ready (Keys_new ns) l) due s) Hnd) as (H1 & H2 & H3 & H4).
  split_and!.
  - intros l' id. rewrite H1 by apply ready_leased. destruct (decide (l' = l)) as [->|Hne].
    + rewrite lookup_zrem. destruct (decide (id ∈ due)) as [Hi|Hi].
      * rewrite decide_True; [done|]. split_and!; [done|by left|]. destruct (Hin id Hi) as (sc & -> & _). eauto.
      * rewrite decide_False; [done|]. by intros [? _].
    + rewrite zset_zrem_ne by (intros H; by apply ready_inj in H).
      rewrite decide_False; [done|]. intros (_ & H%list_elem_of_singleton & _). done.
  - intros id. rewrite H2. by rewrite zset_zrem_ne by apply ready_leased.
  - done.
  - by rewrite H4.
Qed.

(** No job waits at two levels. *)
Definition one_level (k : Keys) (levels : list Z) (s : server) : Prop :=
  ∀ l l' id, l ∈ levels → l' ∈ levels → is_Some (zset (ready k l) s !! id) →
    is_Some (zset (ready k l') s !! id) → l = l'.

Lemma leased_from_ready k expires levels c s s' l id :
  leased_from k expires levels c s s' → is_Some (zset (ready k l) s' !! id) → is_Some (zset (ready k l) s !! id).
Proof. intros (H & _) [sc Hs]. rewrite H in Hs. case_decide; [done|]. eauto. Qed.

Lemma leased_from_due k now expires l0 c s s' l id :
  leased_from k expires [l0] c s s' → l ≠ l0 → due_at k now s' l id ↔ due_at k now s l id.
Proof.
  intros (H & _) Hne. unfold due_at. rewrite H, decide_False; [done|].
  by intros (_ & ?%list_elem_of_singleton & _).
Qed.

Lemma leased_from_sooner k expires l0 c s s' l a b :
  leased_from k expires [l0] c s s' → l ≠ l0 → sooner (ready k l) s' a b → sooner (ready k l) s a b.
Proof.
  intros (H & _) Hne. unfold sooner. rewrite !H, !decide_False by (by intros (_ & ?%list_elem_of_singleton & _)). done.
Qed.

Lemma leased_from_compose k expires l levels c c' s s1 s2 :
  l ∉ levels → one_level k (l :: levels) s →
  (∀ id, id ∈ c → is_Some (zset (ready k l) s !! id)) →
  (∀ id, id ∈ c' → ∃ l', l' ∈ levels ∧ is_Some (zset (ready k l') s !! id)) →
  leased_from k expires [l] c s s1 → leased_from k expires levels c' s1 s2 →
  leased_from k expires (l :: levels) (c ++ c') s s2.
Proof.
  intros Hl Hone Hc Hc' (R1 & L1 & A1 & B1) (R2 & L2 & A2 & B2).
  assert (∀ id, id ∈ c → id ∉ c') as Hdisj.
  { intros id Hi (l' & Hl' & Hs)%Hc'. apply Hl.
    assert (l = l') as ->; [|done]. eapply Hone; [left|by right|by apply Hc|done]. }
  split_and!.
  - intros l' id. rewrite R2, R1. destruct (zset (ready k l') s !! id) as [sc|] eqn:E.
    2:{ by repeat case_decide. }
    destruct (decide (l' = l)) as [->|Hne].
    + rewrite (decide_False (P := id ∈ c' ∧ _)) by (by intros (_ & ? & _)).
      destruct (decide (id ∈ c)) as [Hi|Hi].
      * rewrite !decide_True; [done|..]; split_and!; try left; try done; try (apply elem_of_app; by left); eauto.
      * rewrite !decide_False; [done|..].
        -- intros ([?|(l' & Hl' & Hs)%Hc']%elem_of_app & _ & _); [done|]. apply Hl.
           assert (l = l') as ->; [|done]. eapply Hone; [left|by right| |done]. by rewrite E.
        -- by intros [? _].
    + assert (id ∈ c → ¬ (l' ∈ levels)) as Hno.
      { intros Hi Hl'. apply Hne. symmetry. eapply Hone; [left|by right|by apply Hc|by rewrite E]. }
      rewrite (decide_False (P := id ∈ c ∧ _)) by (by intros (_ & ?%list_elem_of_singleton & _)).
      destruct (decide (id ∈ c' ∧ l' ∈ levels ∧ is_Some (Some sc))) as [(Hi & Hl' & _)|Hn].
      * rewrite decide_True; [done|]. split_and!; [apply elem_of_app; by right|by right|done].
      * rewrite decide_False; [done|]. intros ([Hi|Hi]%elem_of_app & [->|Hl']%elem_of_cons & Hs); try done.
        -- by apply (Hno Hi).
        -- by apply Hn.
  - intros id. rewrite L2, L1. destruct (decide (id ∈ c')), (decide (id ∈ c)), (decide (id ∈ c ++ c')) as [Hi|Hi];
      try done; exfalso; rewrite elem_of_app in Hi; tauto.
  - intros id. rewrite A2, A1. destruct (decide (id ∈ c')) as [H1|H1], (decide (id ∈ c)) as [H2|H2],
      (decide (id ∈ c ++ c')) as [Hi|Hi]; try done; try (exfalso; rewrite elem_of_app in Hi; tauto).
    by destruct (Hdisj id).
  - by rewrite B2.
Qed.

(** A job at level [l] goes before one at level [l']: by level, then by time, then by
    id as a string. *)
Definition ahead (k : Keys) (s : server) (l l' id id' : Z) : Prop :=
  l < l' ∨ (l = l' ∧ sooner (ready k l) s id id').

(** What a claim over [levels] of at most [n] jobs may return: its length, that
    nothing due is left short of the limit, that what is left goes after all that
    was taken, that it comes in that order, and what it does to the server. *)
Record claims (k : Keys) (now expires n : Z) (levels : list Z) (s : server) (c : list Z) (s' : server)
  : Prop := {
  claims_once : NoDup c;
  claims_few : len c <= Z.max n 0;
  claims_due id : id ∈ c → ∃ l, l ∈ levels ∧ due_at k now s l id;
  claims_all : len c < n → ∀ l id, l ∈ levels → due_at k now s l id → id ∈ c;
  claims_first l l' id id' :
    l ∈ levels → l' ∈ levels → id ∈ c → id' ∉ c → due_at k now s l id → due_at k now s l' id' → ahead k s l l' id id';
  claims_sorted :
    StronglySorted (λ id id', ∀ l l', l ∈ levels → l' ∈ levels → due_at k now s l id → due_at k now s l' id' →
      ahead k s l l' id id') c;
  claims_effect : leased_from k expires levels c s s'
}.

Lemma claims_nothing k now expires n levels s :
  n <= 0 ∨ levels = [] → claims k now expires n levels s [] s.
Proof.
  intros Hn. constructor.
  - apply NoDup_nil_2.
  - rewrite len_nil. lia.
  - by intros id ?%elem_of_nil.
  - rewrite len_nil. intros ? l id Hl. destruct Hn as [?| ->]; [lia|by apply elem_of_nil in Hl].
  - by intros l l' id id' _ _ ?%elem_of_nil.
  - constructor.
  - split_and!; try done; intros; rewrite decide_False; try done; try (by intros ?%elem_of_nil);
      by intros [?%elem_of_nil _].
Qed.

Lemma claim_levels_spec ns now expires levels n s :
  let k := Keys_new ns in
  StronglySorted Z.lt levels → one_level k levels s →
  claims k now expires n levels s (claim_levels k now expires levels n s).1
    (claim_levels k now expires levels n s).2.
Proof.
  simpl. intros Hs. revert n s. induction Hs as [|l levels Hs IH Hl]; intros n s Hone; cbn [claim_levels].
  { apply claims_nothing. by right. }
  destruct (Z.leb_spec n 0); [apply claims_nothing; by left|].
  destruct (claim_level_spec ns now expires n l s) as (Hnd & Hlen & Hdue & Hall & Hsorted & Hfirst & Heff).
  destruct (claim_level (Keys_new ns) now expires n l s) as [due s1] eqn:E. simpl in *.
  assert (l ∉ levels) as Hnl.
  { intros H1. rewrite Forall_forall in Hl. apply Hl in H1. lia. }
  assert (one_level (Keys_new ns) levels s1) as Hone1.
  { intros a b id Ha Hb Hsa Hsb. eapply Hone; [by right..| |]; by eapply leased_from_ready. }
  specialize (IH (n - len due) s1 Hone1).
  destruct (claim_levels (Keys_new ns) now expires levels (n - len due) s1) as [more s2]. simpl in *.
  destruct IH as [Hnd2 Hlen2 Hdue2 Hall2 Hfirst2 Hsorted2 Heff2].
  pose proof (len_nonneg due). pose proof (len_nonneg more).
  assert (∀ l' id, l' ∈ levels → due_at (Keys_new ns) now s1 l' id ↔ due_at (Keys_new ns) now s l' id) as Hsame.
  { intros l' id Hl'. eapply leased_from_due; [done|]. congruence. }
  assert (∀ id, id ∈ more → ∃ l', l' ∈ levels ∧ due_at (Keys_new ns) now s l' id) as Hmore.
  { intros id (l' & Hl' & Hd)%Hdue2. exists l'. split; [done|]. by apply Hsame. }
  assert (∀ id l', l' ∈ levels → due_at (Keys_new ns) now s l' id → ¬ due_at (Keys_new ns) now s l id) as Hapart.
  { intros id l' Hl' (sc & Hsc & _) (sc' & Hsc' & _). apply Hnl.
    assert (l = l') as ->; [|done]. eapply Hone; [left|by right|eauto..]. }
  assert (∀ id a b, a ∈ l :: levels → b ∈ l :: levels → due_at (Keys_new ns) now s a id →
    due_at (Keys_new ns) now s b id → a = b) as Honly.
  { intros id a b Ha Hb (x & Hx & _) (y & Hy & _). eapply Hone; eauto. }
  assert (∀ a b id id', a ∈ levels → b ∈ levels → ahead (Keys_new ns) s1 a b id id' → ahead (Keys_new ns) s a b id id')
    as Hahead.
  { intros a b id id' Ha Hb [?|[-> Hso]]; [by left|right]. split; [done|]. eapply leased_from_sooner; [done| |done]. congruence. }
  constructor.
  - apply NoDup_app. split_and!; [done| |done]. intros id Hi (l' & Hl' & Hd)%Hmore.
    eapply Hapart; [done..|]. by apply Hdue.
  - rewrite len_app. lia.
  - intros id [Hi|Hi]%elem_of_app; [exists l; split; [left|auto]|].
    destruct (Hmore id Hi) as (l' & ? & ?). exists l'. split; [by right|done].
  - rewrite len_app. intros Hlt l' id [->|Hl']%elem_of_cons Hd; apply elem_of_app.
    + left. apply Hall; [lia|done].
    + right. eapply Hall2; [lia|done|]. by apply Hsame.
  - intros a b id id' [->|Ha]%elem_of_cons [->|Hb]%elem_of_cons Hi Hi' Hd Hd'.
    + right. split; [done|]. apply Hfirst; [|by intros ?; apply Hi', elem_of_app; left|done].
      apply elem_of_app in Hi as [Hi|Hi]; [done|]. destruct (Hmore id Hi) as (l' & Hl' & ?). by destruct (Hapart id l').
    + left. rewrite Forall_forall in Hl. by apply Hl.
    + exfalso. apply Hi', elem_of_app. left. apply Hall; [|done].
      apply elem_of_app in Hi as [Hi|Hi]; [by destruct (Hapart id a Ha Hd (Hdue id Hi))|].
      destruct more; [by apply elem_of_nil in Hi|]. rewrite len_cons in *. pose proof (len_nonneg more). lia.
    + apply Hahead; [done..|]. apply (Hfirst2 a b); [done..| | |by apply Hsame|by apply Hsame].
      * apply elem_of_app in Hi as [Hi|Hi]; [|done]. by destruct (Hapart id a Ha Hd (Hdue id Hi)).
      * intros ?. apply Hi', elem_of_app. by right.
  - apply StronglySorted_app_2.
    + intros id id' Hi (b & Hb & Hd')%Hmore l1 l2 Hl1 Hl2 Hd1 Hd2. left. rewrite Forall_forall in Hl.
      rewrite (Honly id l1 l Hl1 ltac:(left) Hd1 (Hdue id Hi)), (Honly id' l2 b Hl2 ltac:(by right) Hd2 Hd'). by apply Hl.
    + eapply sorted_weaken; [|exact Hsorted]. intros id id' Hi Hi' Hso l1 l2 Hl1 Hl2 Hd1 Hd2. right.
      rewrite (Honly id l1 l Hl1 ltac:(left) Hd1 (Hdue id Hi)), (Honly id' l2 l Hl2 ltac:(left) Hd2 (Hdue id' Hi')). done.
    + eapply sorted_weaken; [|exact Hsorted2].
      intros id id' (a & Ha & Hda)%Hmore (b & Hb & Hdb)%Hmore Hso l1 l2 Hl1 Hl2 Hd1 Hd2.
      rewrite (Honly id l1 a Hl1 ltac:(by right) Hd1 Hda), (Honly id' l2 b Hl2 ltac:(by right) Hd2 Hdb).
      apply Hahead; [done..|]. apply Hso; [done..| |]; by apply Hsame.
  - eapply leased_from_compose; [done..| | |done|done].
    + intros id (sc & ? & _)%Hdue. eauto.
    + intros id (l' & ? & sc & ? & _)%Hmore. eauto.
Qed.

Lemma all_levels_sorted : StronglySorted Z.lt all_levels.
Proof. vm_compute. repeat constructor. Qed.

(** C30. A claim is exactly-once and in order: it takes at most [limit] due jobs, none
    twice, and short of the limit leaves nothing due; it takes and returns them by
    level, then by the time they came due, then by id (as a string, the order Redis
    has), so whatever due job it leaves goes after all it took; and each one is
    moved from its level to the lease set with one attempt more, while every other
    job and every payload stays as it was. No job may wait at two levels, and [limit]
    is one Lua's [unpack] can take. *)
Theorem claim_exact ns now limit expires s :
  one_level (Keys_new ns) all_levels s →
  claims (Keys_new ns) now expires limit all_levels s
    (CLAIM (Keys_new ns) now limit expires s).1 (CLAIM (Keys_new ns) now limit expires s).2.
Proof. apply claim_levels_spec, all_levels_sorted. Qed.

End RedisClaim.
