(* ===== verification/Contract.v ===== *)
(** * What a worker may rely on, whichever store holds its jobs

    An abstract lease queue: a job waits, is leased and is over, and each
    operation moves it, or leaves it, in a way the caller can name. A backend is a
    [Store]; one that keeps the contract is a [LeaseQueue], and what is proved
    here of every lease queue holds of each backend that is one. *)

From S2P Require Import Prelude.
#[local] Open Scope Z_scope.

Module Contract.

(** ** Phases and operations *)

Inductive phase := Waiting | Leased | Finished.

#[global] Instance phase_eq_dec : EqDecision phase.
Proof. solve_decision. Defined.

(** The operations, by the jobs they name or hand out. [Enqueue] and [Lease] carry
    the ids they return; [Return] gives leases up early, [Sweep] takes those that
    lapsed, [Revive] gives finished jobs another life, [Forget] deletes them and
    [Clear] empties the store. [Other] is whatever does not concern the life of a
    job: a renewal, a schedule, a checkpoint. *)
Inductive op :=
| Enqueue (ids : list Z)
| Lease (ids : list Z)
| Complete (ids : list Z)
| Discard (ids : list Z)
| Retry (ids : list Z)
| Return (ids : list Z)
| Sweep
| Cancel (ids : list Z)
| Revive (ids : list Z)
| Forget
| Clear
| Other.

(** Where an operation may leave a job: [held] says whether the caller holds its
    lease, [p] is its phase before ([None] is a job the store does not hold) and
    [over] the phase of a job that was reported done. A list with one element
    leaves no choice; an empty one says the case does not arise. *)
Definition allowed (over : option phase) (o : op) (held : bool) (i : Z) (p : option phase)
  : list (option phase) :=
  match o, p with
  | Enqueue ids, _ => if decide (i ∈ ids) then if decide (p = None) then [Some Waiting] else [] else [p]
  | Lease ids, _ =>
    if decide (i ∈ ids) then if decide (p = Some Waiting) then [Some Leased] else [] else [p]
  | Complete ids, Some Leased => if held && bool_decide (i ∈ ids) then [over] else [p]
  | Discard ids, Some Leased => if held && bool_decide (i ∈ ids) then [over] else [p]
  | Discard _, Some Waiting => [p; Some Finished]
  | Retry ids, Some Leased =>
    if held && bool_decide (i ∈ ids) then [Some Waiting; Some Finished] else [p]
  | Return ids, Some Leased => if held && bool_decide (i ∈ ids) then [Some Waiting; p] else [p]
  | Sweep, Some Leased => [p; Some Waiting; Some Finished]
  | Cancel ids, Some Waiting => if decide (i ∈ ids) then [Some Finished] else [p]
  | Revive ids, Some Finished => if decide (i ∈ ids) then [Some Waiting] else [p]
  | Forget, Some Finished => [p; None]
  | Clear, _ => [None]
  | _, _ => [p]
  end.

(** ** Stores *)

(** A store: its sound states, what an operation of a caller does to it, where a
    job is, whether a caller holds it. *)
Class Store (W S : Type) := {
  good : S → Prop;
  does : W → op → S → S → Prop;
  phase_of : S → Z → option phase;
  holds_job : W → S → Z → bool;
  over : option phase
}.

Class LeaseQueue (W S : Type) `{!Store W S} : Prop := {
  does_good w o s s' : good s → does w o s s' → good s';
  does_allowed w o s s' i :
    good s → does w o s s' → phase_of s' i ∈ allowed over o (holds_job w s i) i (phase_of s i);
  lease_held w ids s s' i :
    good s → does w (Lease ids) s s' → i ∈ ids → holds_job w s' i = true
}.

(** ** Runs *)

Section Client.
Context {W S : Type} `{LeaseQueue W S}.

Inductive run : S → list (W * op) → S → Prop :=
| run_nil s : run s [] s
| run_cons w o s s1 tr s2 : does w o s s1 → run s1 tr s2 → run s ((w, o) :: tr) s2.

Lemma run_good s tr s' : good s → run s tr s' → good s'.
Proof. intros Hs. induction 1; [done|]. eauto using does_good. Qed.

(** A run that ends where [P] no longer holds of a job has an operation after
    which it no longer does. *)
Lemma run_crosses (P : option phase → Prop) `{!∀ p, Decision (P p)} i s tr s' :
  run s tr s' → P (phase_of s i) → ¬ P (phase_of s' i) →
  ∃ t1 w o t2 u v, tr = t1 ++ (w, o) :: t2 ∧ run s t1 u ∧ does w o u v ∧ run v t2 s' ∧
    P (phase_of u i) ∧ ¬ P (phase_of v i).
Proof.
  induction 1 as [s|w o s s1 tr s2 Hd Hr IH]; intros Hp Hn; [done|].
  destruct (decide (P (phase_of s1 i))) as [H1|H1].
  - destruct (IH H1 Hn) as (t1 & w' & o' & t2 & u & v & -> & ? & ?).
    exists ((w, o) :: t1), w', o', t2, u, v. split; [done|]. split; [by econstructor|done].
  - exists [], w, o, tr, s, s1. split_and!; try done. constructor.
Qed.

(** The operation that takes a job from where it waits: a lease, or one that calls
    it off. *)
Definition takes (o : op) (i : Z) : Prop :=
  (∃ ids, o = Lease ids ∧ i ∈ ids) ∨ (∃ ids, o = Discard ids) ∨ (∃ ids, o = Cancel ids ∧ i ∈ ids).

(** The operation after which a job is no longer stored: its holder's report, in a
    store that forgets at once, or the deletion of one that had finished. *)
Definition removes (w : W) (o : op) (s : S) (i : Z) : Prop :=
  (o = Forget ∧ phase_of s i = Some Finished) ∨
  (over = None ∧ holds_job w s i = true ∧ ∃ ids, (o = Complete ids ∨ o = Discard ids) ∧ i ∈ ids).

(** What lies between a job that waits in [s] and is gone from [s']. *)
Definition farewell (i : Z) (s : S) (tr : list (W * op)) (s' : S) : Prop :=
  ∃ t1 w1 o1 t2 w2 o2 t3 u1 v1 u2 v2, tr = t1 ++ (w1, o1) :: t2 ++ (w2, o2) :: t3 ∧
    run s t1 u1 ∧ does w1 o1 u1 v1 ∧ run v1 t2 u2 ∧ does w2 o2 u2 v2 ∧ run v2 t3 s' ∧
    phase_of u1 i = Some Waiting ∧ phase_of v1 i ∈ [Some Leased; Some Finished] ∧ takes o1 i ∧
    phase_of v2 i = None ∧ removes w2 o2 u2 i.

Lemma allowed_takes o held i p :
  o ≠ Clear → p ∈ allowed over o held i (Some Waiting) → p ≠ Some Waiting →
  p ∈ [Some Leased; Some Finished] ∧ takes o i.
Proof.
  intros Ho Hp Hn. unfold takes. destruct o; simpl in Hp; repeat case_decide; try done;
    repeat (apply elem_of_cons in Hp as [->|Hp]); try done; try by apply elem_of_nil in Hp.
  all: split; [set_solver|eauto 10].
Qed.

Lemma allowed_removes w o s i p :
  o ≠ Clear → p ≠ None → phase_of s i = p → None ∈ allowed over o (holds_job w s i) i p → removes w o s i.
Proof.
  intros Ho Hn Hp Hin. unfold removes. rewrite Hp.
  destruct o, p as [[]|]; simpl in Hin; try done; destruct (holds_job w s i); simpl in Hin; try case_bool_decide;
    repeat case_decide; rewrite ?elem_of_cons, ?elem_of_nil in Hin; try done; destruct_or! Hin; try done;
    first [by left|right; split_and!; [done..|]; eauto].
Qed.

(** A job that waits and later is gone was leased or called off on the way, and then
    reported by its holder or deleted once finished. *)
Lemma waiting_not_lost s tr s' i :
  good s → run s tr s' → (∀ w, (w, Clear) ∉ tr) →
  phase_of s i = Some Waiting → phase_of s' i = None → farewell i s tr s'.
Proof.
  intros Hs Hrun Hc Hw Hn.
  destruct (run_crosses (λ p, p = Some Waiting) i s tr s' Hrun Hw) as (t1 & w1 & o1 & t & u1 & v1 & -> & R1 & D1 & R & P1 & N1);
    [congruence|].
  assert (good u1) as Hu1 by by eapply run_good.
  assert (good v1) as Hv1 by by eapply does_good.
  pose proof (does_allowed w1 o1 u1 v1 i Hu1 D1) as A1. rewrite P1 in A1.
  apply allowed_takes in A1 as [V1 T1]; [|intros ->; by apply (Hc w1), elem_of_app; right; left|done].
  destruct (run_crosses (λ p, p ≠ None) i v1 t s' R) as (t2 & w2 & o2 & t3 & u2 & v2 & -> & R2 & D2 & R3 & P2 & N2);
    [intros E; rewrite E in V1; set_solver|naive_solver|].
  apply dec_stable in N2.
  pose proof (does_allowed w2 o2 u2 v2 i (run_good _ _ _ Hv1 R2) D2) as A2. rewrite N2 in A2.
  exists t1, w1, o1, t2, w2, o2, t3, u1, v1, u2, v2. split_and!; try done.
  eapply allowed_removes; [|exact P2|done|exact A2].
  intros ->. apply (Hc w2), elem_of_app. right. right. apply elem_of_app. right. left.
Qed.

End Client.
End Contract.
