(* ===== verification/RedisSafety.v ===== *)
(** * Safety of the Redis backend

    Jobs are in one place at a time and never lost while callers enqueue under fresh
    ids and report only on leases still out, but for those of an [abandon] between
    its two round trips; a fetch then returns what was enqueued. What goes wrong when
    a caller reports on a lease it lost, which nothing here prevents. *)

From S2P Require Import Prelude.
From S2P Require Import Core.
From S2P Require Import Redis.
From S2P Require Import RedisClaim.
From S2P Require Import Contract.
From stdpp Require Import pretty.
#[local] Open Scope Z_scope.
Import Core.
Import Redis.
Import RedisClaim.
Import Contract.

Module RedisSafety.

Section Codec.
Context {C : StoredCodec} {L : StoredCodecLaws C}.

(** ** Where a job is *)

Definition at_no_level (k : Keys) (s : server) (id : Z) : Prop :=
  ∀ l, l ∈ all_levels → zset (ready k l) s !! id = None.

(** The payload is there and reads back as this job. *)
Definition has_payload (k : Keys) (s : server) (id : Z) : Prop :=
  ∃ bs st, blob (payload k) s !! id = Some bs ∧ from_slice bs = Some st ∧ st_id st = id.

(** Where a job is. [abandon] gives a lease up and puts the job back in two round
    trips; [h] holds the ids of those under way, which are in neither place. *)
Inductive placement (k : Keys) (h : gset Z) (s : server) (id : Z) : Prop :=
| absent :
    id ∉ h → at_no_level k s id → zset (leased k) s !! id = None → blob (payload k) s !! id = None →
    placement k h s id
| waiting l :
    id ∉ h → l ∈ all_levels → is_Some (zset (ready k l) s !! id) →
    (∀ l', l' ∈ all_levels → l' ≠ l → zset (ready k l') s !! id = None) →
    zset (leased k) s !! id = None → has_payload k s id → placement k h s id
| running :
    id ∉ h → at_no_level k s id → is_Some (zset (leased k) s !! id) → has_payload k s id → placement k h s id
| adrift :
    id ∈ h → at_no_level k s id → zset (leased k) s !! id = None → has_payload k s id → placement k h s id.

Definition kept (k : Keys) (h : gset Z) (s : server) : Prop := ∀ id, placement k h s id.

(** Nobody is half way through handing a job back. *)
Definition sound (k : Keys) (s : server) : Prop := kept k ∅ s.

Lemma placement_same k h s h' s' id :
  (id ∈ h' ↔ id ∈ h) →
  (∀ l, l ∈ all_levels → zset (ready k l) s' !! id = zset (ready k l) s !! id) →
  zset (leased k) s' !! id = zset (leased k) s !! id →
  blob (payload k) s' !! id = blob (payload k) s !! id →
  placement k h s id → placement k h' s' id.
Proof.
  intros Hh Hr Hl Hp.
  assert (at_no_level k s id → at_no_level k s' id) as Hn by (intros H l Hin; rewrite Hr by done; auto).
  assert (has_payload k s id → has_payload k s' id) as Hpay.
  { intros (bs & st & ? & ?). exists bs, st. by rewrite Hp. }
  intros [H0 H1 H2 H3|l H0 H1 H2 H3 H4 H5|H0 H1 H2 H3|H0 H1 H2 H3].
  - apply absent; [by rewrite Hh|auto|congruence..].
  - eapply waiting; [by rewrite Hh|done|by rewrite Hr| |congruence|auto].
    intros l' Hin Hne. rewrite Hr by done. auto.
  - apply running; [by rewrite Hh|auto|by rewrite Hl|auto].
  - apply adrift; [by rewrite Hh|auto|congruence|auto].
Qed.

Lemma kept_one_level k h s : kept k h s → one_level k all_levels s.
Proof.
  intros Hs l l' id Hl Hl' H1 H2. destruct (Hs id) as [_ Hn _ _|m _ _ _ Hm _ _|_ Hn _ _|_ Hn _ _];
    try (rewrite Hn in H1 by done; by destruct H1).
  destruct (decide (l = m)) as [->|Hne]; [|rewrite Hm in H1 by done; by destruct H1].
  destruct (decide (l' = m)) as [->|Hne]; [done|]. rewrite Hm in H2 by done. by destruct H2.
Qed.

(** A leased job is running. *)
Lemma leased_running k h s id :
  kept k h s → is_Some (zset (leased k) s !! id) → (id ∉ h) ∧ at_no_level k s id ∧ has_payload k s id.
Proof.
  intros Hs Hl. destruct (Hs id) as [_ _ Hn _|? _ _ _ _ Hn _|?|_ _ Hn _];
    [rewrite Hn in Hl; by destruct Hl..|done|rewrite Hn in Hl; by destruct Hl].
Qed.

(** A job of which a caller is half way through handing back is nowhere. *)
Lemma adrift_nowhere k h s id :
  kept k h s → id ∈ h → at_no_level k s id ∧ zset (leased k) s !! id = None ∧ has_payload k s id.
Proof. intros Hs Hi. by destruct (Hs id). Qed.

Lemma zadd_all k0 ids now s :
  let s' := foldl (λ s id, zadd k0 id now s) s ids in
  (∀ k', k' ≠ k0 → zset k' s' = zset k' s) ∧
  (∀ id, zset k0 s' !! id = if decide (id ∈ ids) then Some now else zset k0 s !! id) ∧
  blobs s' = blobs s ∧ counters s' = counters s.
Proof.
  simpl. revert s. induction ids as [|x ids IH]; intros s; simpl; [done|].
  destruct (IH (zadd k0 x now s)) as (H1 & H2 & H3 & H4). split_and!; [| |by rewrite H3|by rewrite H4].
  - intros k' Hk. rewrite H1 by done. by apply zset_zadd_ne.
  - intros id. rewrite H2, zset_zadd. destruct (decide (id = x)) as [->|Hne].
    + rewrite lookup_insert_eq. rewrite (decide_True (P := x ∈ x :: ids)) by left. by case_decide.
    + rewrite lookup_insert_ne by done. by rewrite decide_cons_ne.
Qed.

Lemma zero_level : 0 ∈ all_levels.
Proof. apply elem_of_seqZ. unfold LEVELS. lia. Qed.

Lemma level_in priority : level priority ∈ all_levels.
Proof. apply elem_of_seqZ. unfold level, LEVELS. lia. Qed.

Lemma zset_zrem_ready ns l ids s :
  zset (ready (Keys_new ns) l) (zrem (leased (Keys_new ns)) ids s) = zset (ready (Keys_new ns) l) s.
Proof. apply zset_zrem_ne, not_eq_sym, ready_leased. Qed.

(** The two round trips of [abandon], and the two halves of [RECLAIM]: leases given
    up, then the jobs put at level 0. *)
Definition hand_back (k : Keys) (now : Z) (ids : list Z) (s : server) : server :=
  foldl (λ s id, zadd (ready k 0) id now s) s ids.

Lemma let_go_kept ns h ids s :
  let k := Keys_new ns in
  kept k h s → (∀ id, id ∈ ids → is_Some (zset (leased k) s !! id)) →
  kept k (h ∪ list_to_set ids) (zrem (leased k) ids s).
Proof.
  intros k Hs Hids id. destruct (decide (id ∈ ids)) as [Hi|Hi].
  - destruct (leased_running k h s id Hs (Hids id Hi)) as (_ & Hn & Hp).
    apply adrift; [set_solver| |by rewrite lookup_zrem, decide_True|done].
    intros l Hl. unfold k. rewrite zset_zrem_ready. by apply Hn.
  - eapply placement_same; [| | | |apply (Hs id)]; [set_solver| |by rewrite lookup_zrem, decide_False|done].
    intros l _. unfold k. by rewrite zset_zrem_ready.
Qed.

Lemma hand_back_kept ns h now ids s :
  let k := Keys_new ns in
  kept k h s → list_to_set ids ⊆ h → kept k (h ∖ list_to_set ids) (hand_back k now ids s).
Proof.
  intros k Hs Hids id.
  destruct (zadd_all (ready k 0) ids now s) as (H1 & H2 & H3 & _). fold (hand_back k now ids s) in H1, H2, H3.
  assert (zset (leased k) (hand_back k now ids s) = zset (leased k) s) as Hl by (apply H1, not_eq_sym, ready_leased).
  assert (∀ l, l ≠ 0 → zset (ready k l) (hand_back k now ids s) = zset (ready k l) s) as Hr.
  { intros l Hl0. apply H1. intros E. by apply ready_inj in E. }
  assert (blob (payload k) (hand_back k now ids s) = blob (payload k) s) as Hb by (unfold blob; by rewrite H3).
  destruct (decide (id ∈ ids)) as [Hi|Hi].
  - destruct (adrift_nowhere k h s id Hs) as (Hn & Hls & Hp); [set_solver|].
    eapply (waiting _ _ _ _ 0); [set_solver|apply zero_level|rewrite H2, decide_True by done; eauto| |by rewrite Hl|].
    + intros l' Hin Hne. rewrite Hr by done. auto.
    + unfold has_payload. by rewrite Hb.
  - eapply placement_same; [| | | |apply (Hs id)]; [set_solver| |by rewrite Hl|by rewrite Hb].
    intros l _. destruct (decide (l = 0)) as [->|Hne]; [by rewrite H2, decide_False|by rewrite Hr].
Qed.

(** Leased jobs put back at level 0 in one step, as [RECLAIM] does. *)
Lemma reclaim_kept ns h now n s :
  let k := Keys_new ns in kept k h s → kept k h (reclaim_expired k now n s).2.
Proof.
  intros k Hs. unfold reclaim_expired, RECLAIM. case_decide; [done|].
  destruct (range_spec (leased k) now n s) as (_ & _ & Hin & _).
  set (expired := zrangebyscore _ _ _ _) in *. simpl.
  assert (∀ id, id ∈ expired → is_Some (zset (leased k) s !! id)) as Hl.
  { intros id Hi. destruct (Hin id Hi) as (sc & -> & _). eauto. }
  pose proof (hand_back_kept ns _ now expired _ (let_go_kept ns h expired s Hs Hl)) as Hk.
  assert ((h ∪ list_to_set expired) ∖ list_to_set expired = h) as E.
  { apply set_eq. intros id. split; [set_solver|]. intros Hi. apply elem_of_difference. split; [set_solver|].
    intros He%elem_of_list_to_set. by destruct (leased_running k h s id Hs (Hl id He)). }
  rewrite E in Hk. apply Hk. set_solver.
Qed.

Lemma claim_kept ns h now limit expires s :
  let k := Keys_new ns in kept k h s → kept k h (CLAIM k now limit expires s).2.
Proof.
  simpl. intros Hs id. set (k := Keys_new ns) in *.
  destruct (claim_levels_spec ns now expires all_levels limit s all_levels_sorted (kept_one_level _ _ _ Hs))
    as [_ _ Hdue _ _ _ (H1 & H2 & _ & H4)]. fold k in Hdue, H1, H2, H4.
  unfold CLAIM. set (c := (claim_levels _ _ _ _ _ _).1) in *. set (s' := (claim_levels _ _ _ _ _ _).2) in *.
  assert (blob (payload k) s' = blob (payload k) s) as Hb by (unfold blob; by rewrite H4).
  destruct (decide (id ∈ c)) as [Hi|Hi].
  - destruct (Hdue id Hi) as (l & Hl & sc & Hsc & _).
    destruct (Hs id) as [_ Hn _ _|? Hh _ _ _ _ Hp|_ Hn _ _|_ Hn _ _]; try (rewrite Hn in Hsc by done; done).
    apply running; [done| |rewrite H2, decide_True by done; eauto|unfold has_payload; by rewrite Hb].
    intros l' Hl'. rewrite H1. destruct (zset (ready k l') s !! id) eqn:E; [|by case_decide].
    rewrite decide_True; [done|]. eauto.
  - eapply placement_same; [done| | | |apply (Hs id)].
    + intros l _. rewrite H1, decide_False; [done|]. by intros [? _].
    + by rewrite H2, decide_False.
    + by rewrite Hb.
Qed.

Lemma lookup_hdel_blob k ids s id :
  blob k (hdel_blob k ids s) !! id = if decide (id ∈ ids) then None else blob k s !! id.
Proof.
  unfold hdel_blob, blob; simpl. rewrite lookup_insert_eq. simpl. case_decide as Hi.
  - apply map_lookup_filter_None. right. by intros sc _ ?.
  - destruct (default ∅ (blobs s !! k) !! id) as [b|] eqn:E.
    + by apply map_lookup_filter_Some.
    + apply map_lookup_filter_None. by left.
Qed.

(** Completing takes a job out of the lease set and drops its payload. *)
Lemma complete_lookups ns ids s id :
  let k := Keys_new ns in let s' := (complete k ids s).2 in
  (∀ l, zset (ready k l) s' !! id = zset (ready k l) s !! id) ∧
  zset (leased k) s' !! id = (if decide (id ∈ ids) then None else zset (leased k) s !! id) ∧
  blob (payload k) s' !! id = (if decide (id ∈ ids) then None else blob (payload k) s !! id).
Proof.
  simpl. unfold complete. case_decide as H0; simpl.
  { subst. split_and!; try done; rewrite decide_False; try done; by intros ?%elem_of_nil. }
  split_and!.
  - intros l. change (zset (ready (Keys_new ns) l) (zrem (leased (Keys_new ns)) ids s) !! id = zset (ready (Keys_new ns) l) s !! id).
    rewrite zset_zrem_ne; [done|]. apply not_eq_sym, ready_leased.
  - apply lookup_zrem.
  - exact (lookup_hdel_blob (payload (Keys_new ns)) ids (zrem (leased (Keys_new ns)) ids s) id).
Qed.

Lemma complete_kept ns h ids s :
  let k := Keys_new ns in
  kept k h s → (∀ id, id ∈ ids → is_Some (zset (leased k) s !! id)) → kept k h (complete k ids s).2.
Proof.
  simpl. intros Hs Hids id. destruct (complete_lookups ns ids s id) as (H1 & H2 & H3).
  destruct (decide (id ∈ ids)) as [Hi|Hi].
  - destruct (leased_running _ h s id Hs (Hids id Hi)) as (? & Hn & _).
    apply absent; [done|intros l Hl; rewrite H1; auto|done|done].
  - eapply placement_same; [| | | |apply (Hs id)]; auto.
Qed.

(** A job put at a level, from nowhere or from the lease set. *)
Lemma put_kept ns h id0 l sc s :
  let k := Keys_new ns in
  (∀ id, id ≠ id0 → placement k h s id) → id0 ∉ h → l ∈ all_levels →
  at_no_level k s id0 → zset (leased k) s !! id0 = None → has_payload k s id0 →
  kept k h (zadd (ready k l) id0 sc s).
Proof.
  intros k Hs Hh Hl Hn Hls Hp id.
  destruct (decide (id = id0)) as [->|Hne].
  - eapply (waiting _ _ _ _ l); [done|done| | | |exact Hp].
    + rewrite zset_zadd, lookup_insert_eq. eauto.
    + intros l' Hl' Hne. rewrite zset_zadd_ne by (intros E; by apply ready_inj in E). auto.
    + rewrite zset_zadd_ne; [done|]. apply ready_leased.
  - eapply placement_same; [done| | | |by apply Hs]; [| |done].
    + intros l' _. destruct (decide (l' = l)) as [->|Hne'].
      * by rewrite zset_zadd, lookup_insert_ne.
      * by rewrite zset_zadd_ne by (intros E; by apply ready_inj in E).
    + rewrite zset_zadd_ne; [done|]. apply ready_leased.
Qed.

Lemma enqueue_kept ns h now id task body priority max_attempts delay s s' :
  let k := Keys_new ns in
  kept k h s → blob (payload k) s !! id = None →
  enqueue k now id task body priority max_attempts delay s = Ok (id, s') → kept k h s'.
Proof.
  intros k Hs Hb. unfold enqueue. destruct (to_vec _) as [bs|] eqn:E; [|done]. intros ?; simplify_eq.
  destruct (Hs id) as [Hh Hn Hl _|? _ _ _ _ _ (?&?&?&_)|_ _ _ (?&?&?&_)|_ _ _ (?&?&?&_)]; [|congruence..].
  apply put_kept; [|done|apply level_in|done|done|].
  - intros j Hj. eapply placement_same; [..|apply (Hs j)]; [done|done|done|].
    unfold hset, blob; simpl. by rewrite lookup_insert_eq; simpl; rewrite lookup_insert_ne.
  - eexists bs, _. split_and!; [|by apply stored_round_trip|done].
    unfold hset, blob; simpl. by rewrite lookup_insert_eq; simpl; rewrite lookup_insert_eq.
Qed.

Lemma retry_kept ns h now id priority delay s :
  let k := Keys_new ns in
  kept k h s → is_Some (zset (leased k) s !! id) → kept k h (retry k now id priority delay s).
Proof.
  intros k Hs Hl. unfold retry.
  destruct (leased_running k h s id Hs Hl) as (Hh & Hn & Hp).
  apply put_kept; [|done|apply level_in| | |done].
  - intros j Hj. eapply placement_same; [..|apply (Hs j)]; [done|intros l _; by rewrite zset_zrem_ready| |done].
    rewrite lookup_zrem, decide_False; [done|]. by intros ?%list_elem_of_singleton.
  - intros l Hin. rewrite zset_zrem_ready. by apply Hn.
  - rewrite lookup_zrem, decide_True; [done|]. by apply list_elem_of_singleton.
Qed.

(** Renewal changes scores of the lease set and nothing else. *)
Lemma renew_lookups ns now ids lease s :
  let k := Keys_new ns in let s' := (renew k now ids lease s).2 in
  (∀ k', k' ≠ leased k → zset k' s' = zset k' s) ∧ blobs s' = blobs s ∧
  (∀ id, is_Some (zset (leased k) s' !! id) ↔ is_Some (zset (leased k) s !! id)).
Proof.
  simpl. unfold renew. case_decide; [done|]. generalize 0. revert s.
  clear H. induction ids as [|x ids IH]; intros s n; simpl; [done|].
  destruct (zset _ s !! x) eqn:E; [|apply IH].
  destruct (IH (zadd (ns +:+ ":leased") x (now + lease) s) (n + 1)) as (H1 & H2 & H3). split_and!.
  - intros k' Hk. rewrite H1 by done. by apply zset_zadd_ne.
  - by rewrite H2.
  - intros id. rewrite H3, zset_zadd. destruct (decide (id = x)) as [->|Hne].
    + rewrite lookup_insert_eq, E. split; eauto.
    + by rewrite lookup_insert_ne.
Qed.

Lemma renew_kept ns h now ids lease s :
  let k := Keys_new ns in kept k h s → kept k h (renew k now ids lease s).2.
Proof.
  simpl. intros Hs id. destruct (renew_lookups ns now ids lease s) as (H1 & H2 & H3).
  set (k := Keys_new ns) in *. set (s' := (renew _ _ _ _ _).2) in *.
  assert (∀ l, zset (ready k l) s' = zset (ready k l) s) as Hr by (intros l; apply H1, ready_leased).
  assert (at_no_level k s id → at_no_level k s' id) as Hno by (intros Hn l Hin; rewrite Hr; auto).
  assert (blob (payload k) s' = blob (payload k) s) as Hb by (unfold blob; by rewrite H2).
  assert (has_payload k s id → has_payload k s' id) as Hpay by (unfold has_payload; by rewrite Hb).
  assert (zset (leased k) s !! id = None → zset (leased k) s' !! id = None) as Hnone.
  { intros E. apply eq_None_not_Some. rewrite H3, E. by intros []. }
  destruct (Hs id) as [Hh Hn Hl Hp|l Hh Hin Hl Ho Hls Hp|Hh Hn Hl Hp|Hh Hn Hl Hp].
  - apply absent; [done|auto|auto|by rewrite Hb].
  - eapply (waiting _ _ _ _ l); [done|done|by rewrite Hr| |auto|auto].
    intros l' Hin' Hne. rewrite Hr. auto.
  - apply running; [done|auto|by apply H3|auto].
  - apply adrift; auto.
Qed.

Lemma lookup_del {A} key (ks : list string) (m : gmap string A) :
  filter (λ e : string * A, e.1 ∉ ks) m !! key = if decide (key ∈ ks) then None else m !! key.
Proof.
  case_decide as Hk.
  - apply map_lookup_filter_None. right. by intros x _ ?.
  - destruct (m !! key) eqn:E; [by apply map_lookup_filter_Some|]. apply map_lookup_filter_None. by left.
Qed.

(** Clearing empties every set and hash of the deployment. *)
Lemma redis_clear_empties k s key :
  key ∈ backend_keys k → zset key (clear k s) = ∅ ∧ blob key (clear k s) = ∅ ∧ counter key (clear k s) = ∅.
Proof.
  intros Hk. unfold clear, del, zset, blob, counter; simpl. rewrite !lookup_del. by destruct (decide _).
Qed.

Lemma clear_kept k s : kept k ∅ (clear k s).
Proof.
  intros id. apply absent; [done| | |].
  - intros l Hl. destruct (redis_clear_empties k s (ready k l)) as [-> _]; [|done].
    apply elem_of_app. left. by apply list_elem_of_fmap_2.
  - destruct (redis_clear_empties k s (leased k)) as [-> _]; [|done]. apply elem_of_app. right. left.
  - destruct (redis_clear_empties k s (payload k)) as (_ & -> & _); [|done]. apply elem_of_app. right. right. left.
Qed.

(** ** Steps of callers that report only on leases they hold *)

Definition holds (k : Keys) (s : server) (ids : list Z) : Prop :=
  ∀ id, id ∈ ids → is_Some (zset (leased k) s !! id).

(** One step of one client, as the server sees it, with the ids whose abandoning is
    half done before and after. An honest caller enqueues under an id of its own,
    reports only on leases that are still out, and does not clear the store while
    somebody is half way through handing a job back. *)
Inductive acts (k : Keys) (s : server) (h : gset Z) : op → server → gset Z → Prop :=
| enqueues now id task body priority max_attempts delay s' :
    blob (payload k) s !! id = None →
    enqueue k now id task body priority max_attempts delay s = Ok (id, s') → acts k s h (Enqueue [id]) s' h
| leases now limit expires :
    acts k s h (Lease (CLAIM k now limit expires s).1) (CLAIM k now limit expires s).2 h
| completes ids : holds k s ids → acts k s h (Complete ids) (complete k ids s).2 h
| discards ids : holds k s ids → acts k s h (Discard ids) (discard k ids s).2 h
| retries now id priority delay :
    holds k s [id] → acts k s h (Retry [id]) (retry k now id priority delay s) h
| renews now ids lease : acts k s h Other (renew k now ids lease s).2 h
| lets_go ids : holds k s ids → acts k s h (Return ids) (zrem (leased k) ids s) (h ∪ list_to_set ids)
| hands_back now ids :
    list_to_set ids ⊆ h → acts k s h (Return ids) (hand_back k now ids s) (h ∖ list_to_set ids)
| reclaims now limit : acts k s h Sweep (reclaim_expired k now limit s).2 h
| clears : h = ∅ → acts k s h Clear (clear k s) ∅.

Definition honest (k : Keys) (x y : server * gset Z) : Prop := ∃ o, acts k x.1 x.2 o y.1 y.2.

Lemma acts_kept ns h o s s' h' :
  kept (Keys_new ns) h s → acts (Keys_new ns) s h o s' h' → kept (Keys_new ns) h' s'.
Proof.
  intros Hs []; eauto using claim_kept, complete_kept, renew_kept, enqueue_kept, let_go_kept, hand_back_kept,
    reclaim_kept, clear_kept.
  apply retry_kept; [done|]. apply H. by left.
Qed.

(** A job whose abandoning is half done is out of everybody's reach until the second
    round trip: no other operation, a sweep included, brings it back. *)
Lemma adrift_until_back ns h o s s' h' id :
  let k := Keys_new ns in
  kept k h s → acts k s h o s' h' → id ∈ h → (∀ ids, o = Return ids → id ∉ ids) →
  at_no_level k s' id ∧ zset (leased k) s' !! id = None.
Proof.
  intros k Hs Ha Hi Ho. assert (id ∈ h') as Hi'.
  { destruct Ha; try done; [set_solver| |subst; set_solver].
    apply elem_of_difference. split; [done|]. rewrite elem_of_list_to_set. by apply Ho. }
  by destruct (adrift_nowhere k h' s' id (acts_kept _ _ _ _ _ _ Hs Ha) Hi') as (? & ? & _).
Qed.

(** An abandon nobody interleaves with is its two round trips. *)
Lemma abandon_acts k now ids s :
  holds k s ids → rtc (honest k) (s, ∅) ((abandon k now (λ x, x) ids s).2, ∅).
Proof.
  intros Hh. unfold abandon. case_decide; [done|].
  apply rtc_l with (zrem (leased k) ids s, ∅ ∪ list_to_set ids); [exists (Return ids); by apply lets_go|].
  apply rtc_once. exists (Return ids). simpl.
  replace ∅ with ((∅ ∪ list_to_set ids) ∖ list_to_set ids : gset Z) at 2 by set_solver.
  apply hands_back. set_solver.
Qed.

Lemma honest_steps_kept ns x y :
  kept (Keys_new ns) x.2 x.1 → rtc (honest (Keys_new ns)) x y → kept (Keys_new ns) y.2 y.1.
Proof. intros H0 Hr. induction Hr as [x|x y z [o Ho] _ IH]; [done|]. apply IH. by eapply acts_kept. Qed.

(** C31. No job is lost or doubled while callers enqueue under fresh ids, report only
    on leases still out and clear the store only when nobody is half way through
    abandoning: from a sound server, whatever steps of theirs interleave, every job
    whose payload is stored is at exactly one priority level or in the lease set,
    never both, and every job that waits or is leased has its payload; only the jobs
    of an [abandon] between its two round trips ([h]) are, until the second, in
    neither place, their payload kept. *)
Theorem redis_jobs_kept ns s0 s h :
  sound (Keys_new ns) s0 → rtc (honest (Keys_new ns)) (s0, ∅) (s, h) →
  ∀ id, placement (Keys_new ns) h s id.
Proof. intros H0 Hr. apply (honest_steps_kept ns (s0, ∅) (s, h)); [exact H0|exact Hr]. Qed.

(** ** Fetching *)

(** Other clients leave alone the jobs somebody has leased. *)
Definition respects (k : Keys) (gap : server → server) : Prop :=
  ∀ s id, is_Some (zset (leased k) s !! id) →
    is_Some (zset (leased k) (gap s) !! id) ∧
    blob (payload k) (gap s) !! id = blob (payload k) s !! id ∧
    counter (attempt k) (gap s) !! id = counter (attempt k) s !! id.

Lemma read_attempts_ok (g : Z → option Z) c :
  (∀ id, id ∈ c → ∃ n, g id = Some n ∧ in_signed 16 n) → read_attempts (g <$> c) = Ok (g <$> c).
Proof.
  induction c as [|x c IH]; intros H; [done|]. rewrite fmap_cons. simpl.
  destruct (H x) as (n & -> & Hn); [left|]. simpl. rewrite decide_True by done. simpl.
  rewrite IH; [done|]. intros id Hi. apply H. by right.
Qed.

Lemma collect_ok (f : Z → option (list byte)) (g : Z → option Z) c :
  (∀ id, id ∈ c → ∃ bs st, f id = Some bs ∧ from_slice bs = Some st ∧ st_id st = id) →
  ∃ l, collect_jobs c (f <$> c) (g <$> c) = Ok l ∧ job_id <$> l = c ∧
    ∀ j, j ∈ l → ∃ bs st, f (job_id j) = Some bs ∧ from_slice bs = Some st ∧
      job_task j = st_task st ∧ job_payload j = st_payload st ∧ job_max_attempts j = st_max_attempts st ∧
      job_attempt j = default 1 (g (job_id j)).
Proof.
  induction c as [|x c IH]; intros H; [exists []; split_and!; [done..|by intros j ?%elem_of_nil]|]. rewrite !fmap_cons. simpl.
  destruct (H x) as (bs & st & Hf & Hst & Hid); [left|]. unfold job_of. rewrite Hf, Hst. simpl.
  destruct IH as (l & -> & Hl & Hj); [intros id Hi; apply H; by right|]. simpl.
  eexists. split; [done|]. split; [by rewrite fmap_cons, Hl, Hid|].
  intros j [->|Hin]%elem_of_cons; [|auto]. simpl. rewrite Hid. exists bs, st. done.
Qed.

Lemma collect_err (f : Z → option (list byte)) (g : Z → option Z) c id :
  id ∈ c → f id = None → ∃ e, collect_jobs c (f <$> c) (g <$> c) = Err e.
Proof.
  induction c as [|x c IH]; [by intros ?%elem_of_nil|]. intros Hi Hf. rewrite !fmap_cons. simpl.
  destruct (job_of x (f x) (g x)) as [j|e] eqn:E; simpl; [|eauto].
  apply elem_of_cons in Hi as [<-|Hi]; [by rewrite Hf in E|].
  destruct (IH Hi Hf) as [e ->]. simpl. eauto.
Qed.

(** A fetch returns what was enqueued: while others leave leased jobs
    alone, it yields one job per id the script claimed, each with the task,
    payload and limit stored for that id and the number of this attempt. *)
Lemma redis_fetch_returns ns now1 now2 gap1 gap2 limit lease s :
  let k := Keys_new ns in
  sound k s → respects k gap1 → respects k gap2 →
  (∀ id, 0 <= default 0 (counter (attempt k) s !! id) < 2 ^ 15 - 1) →
  ∃ l, (fetch k now1 now2 gap1 gap2 limit lease s).1 = Ok l ∧
    job_id <$> l = (CLAIM k now2 limit (now1 + lease) s).1 ∧
    ∀ j, j ∈ l → ∃ bs st, blob (payload k) s !! job_id j = Some bs ∧ from_slice bs = Some st ∧
      job_task j = st_task st ∧ job_payload j = st_payload st ∧ job_max_attempts j = st_max_attempts st ∧
      job_attempt j = default 0 (counter (attempt k) s !! job_id j) + 1.
Proof.
  intros k Hs Hg1 Hg2 Hatt. unfold fetch.
  pose proof (claim_kept ns ∅ now2 limit (now1 + lease) s Hs) as Hs1.
  destruct (claim_levels_spec ns now2 (now1 + lease) all_levels limit s all_levels_sorted
    (kept_one_level _ _ _ Hs)) as [_ _ _ _ _ _ (_ & H2 & H3 & H4)]. fold k in H2, H3, H4, Hs1.
  change (claim_levels k now2 (now1 + lease) all_levels limit s) with (CLAIM k now2 limit (now1 + lease) s) in *.
  destruct (CLAIM k now2 limit (now1 + lease) s) as [c s1]. simpl in H2, H3, H4, Hs1. simpl fst.
  case_decide as Hc; [exists []; subst; split_and!; try done; by intros j ?%elem_of_nil|].
  assert (∀ id, id ∈ c → is_Some (zset (leased k) s1 !! id)) as Hleased.
  { intros id Hi. rewrite H2, decide_True by done. eauto. }
  assert (∀ id, id ∈ c → counter (attempt k) (gap2 (gap1 s1)) !! id =
    Some (default 0 (counter (attempt k) s !! id) + 1)) as Hcnt.
  { intros id Hi. destruct (Hg1 s1 id (Hleased id Hi)) as (Hl1 & _ & E1).
    destruct (Hg2 _ id Hl1) as (_ & _ & ->). by rewrite E1, H3, decide_True. }
  assert (∀ id, id ∈ c → blob (payload k) (gap1 s1) !! id = blob (payload k) s !! id) as Hblob.
  { intros id Hi. destruct (Hg1 s1 id (Hleased id Hi)) as (_ & -> & _). unfold blob. by rewrite H4. }
  rewrite (read_attempts_ok (λ id, counter (attempt k) (gap2 (gap1 s1)) !! id)); simpl.
  2:{ intros id Hi. rewrite Hcnt by done. eexists. split; [done|]. specialize (Hatt id). unfold in_signed. lia. }
  destruct (collect_ok (λ id, blob (payload k) (gap1 s1) !! id)
    (λ id, counter (attempt k) (gap2 (gap1 s1)) !! id) c) as (l & E & Hl & Hj).
  { intros id Hi. destruct (leased_running k ∅ s1 id Hs1 (Hleased id Hi)) as (_ & _ & bs & st & Hb & ?).
    exists bs, st. rewrite Hblob by done. unfold blob in *. by rewrite H4 in Hb. }
  exists l. split_and!; [exact E|exact Hl|]. intros j Hin. destruct (Hj j Hin) as (bs & st & Hb & Hrest).
  assert (job_id j ∈ c) as Hi by (rewrite <- Hl; by apply list_elem_of_fmap_2).
  rewrite (Hblob _ Hi) in Hb. rewrite (Hcnt _ Hi) in Hrest. eauto.
Qed.

(** C32. A late report poisons the queue: when a worker completes a job whose
    lease lapsed and was reclaimed, it is told nothing was completed, yet the
    payload is gone while the id still waits; the next fetch that claims it
    fails as a whole, with everything else it claimed left leased to nobody. *)
Theorem late_completion_poisons ns now1 now2 limit lease s id :
  let k := Keys_new ns in
  let s1 := (complete k [id] s).2 in
  let claimed := (CLAIM k now2 limit (now1 + lease) s1).1 in
  sound k s → is_Some (zset (ready k 0) s !! id) → id ∈ claimed →
  (complete k [id] s).1 = 0 ∧
  (∃ e, (fetch k now1 now2 (λ x, x) (λ x, x) limit lease s1).1 = Err e) ∧
  ∀ j, j ∈ claimed →
    zset (leased k) (fetch k now1 now2 (λ x, x) (λ x, x) limit lease s1).2 !! j = Some (now1 + lease).
Proof.
  intros k s1 claimed Hs Hr Hc.
  assert (zset (leased k) s !! id = None) as Hnl.
  { destruct (Hs id) as [_ _ Hn|??? ? ? Hn|_ Hn _ _|_ _ Hn _]; [done..| |done]. rewrite (Hn 0 zero_level) in Hr. by destruct Hr. }
  assert (∀ j l, zset (ready k l) s1 !! j = zset (ready k l) s !! j) as Hready.
  { intros j l. apply (complete_lookups ns [id] s j). }
  assert (one_level k all_levels s1) as Hone.
  { intros l l' j Hl Hl'. rewrite !Hready. by apply (kept_one_level k ∅). }
  destruct (claim_levels_spec ns now2 (now1 + lease) all_levels limit s1 all_levels_sorted Hone)
    as [_ _ _ _ _ _ (_ & H2 & _ & H4)].
  change (claim_levels (Keys_new ns) now2 (now1 + lease) all_levels limit s1)
    with (CLAIM k now2 limit (now1 + lease) s1) in *.
  unfold fetch. unfold claimed in *. destruct (CLAIM k now2 limit (now1 + lease) s1) as [c s2]. simpl in Hc, H2, H4.
  rewrite decide_False by (intros ->; by apply elem_of_nil in Hc). split_and!.
  - unfold complete. rewrite decide_False by done. simpl. unfold zrem_count.
    replace (filter _ _) with (∅ : gmap Z Z); [by rewrite map_size_empty|].
    symmetry. apply map_eq. intros j. rewrite lookup_empty. apply map_lookup_filter_None. right.
    intros sc Hj Hin. simpl in Hin. apply list_elem_of_singleton in Hin as ->.
    unfold k in Hnl. simpl in Hnl. congruence.
  - simpl. destruct (read_attempts _) as [atts|e] eqn:Ea; simpl; [|eauto].
    assert (atts = (λ j, counter (attempt k) s2 !! j) <$> c) as ->.
    { clear -Ea. revert atts Ea. induction c as [|x c IH]; intros atts Ea; simpl in *; [by simplify_eq|].
      destruct (read_attempt _) as [a|] eqn:E1; simplify_eq/=.
      destruct (read_attempts _) as [l|] eqn:E2; simplify_eq/=. f_equal; [|by apply IH].
      unfold read_attempt in E1. repeat case_match; simplify_eq; congruence. }
    apply collect_err with id; [done|]. unfold blob. rewrite H4.
    destruct (complete_lookups ns [id] s id) as (_ & _ & Hb). rewrite decide_True in Hb by by apply list_elem_of_singleton.
    exact Hb.
  - intros j Hj. simpl. by rewrite H2, decide_True.
Qed.

End Codec.
End RedisSafety.
