(* ===== verification/RedisKeys.v ===== *)
(** * Two deployments on one server

    Keys are built under a namespace so that deployments can share a Redis
    without touching one another's jobs. *)

From S2P Require Import Prelude.
From S2P Require Import Core.
From S2P Require Import Redis.
From S2P Require Import RedisClaim.
From S2P Require Import Contract.
From S2P Require Import RedisSafety.
From stdpp Require Import pretty.
#[local] Open Scope Z_scope.
Import Core.
Import Redis.
Import RedisClaim.
Import Contract.
Import RedisSafety.

Module RedisKeys.

(** ** Suffixes *)

Lemma append_nil t : "" +:+ t = t.
Proof. reflexivity. Qed.

Lemma append_cons c s t : String c s +:+ t = String c (s +:+ t).
Proof. reflexivity. Qed.

Lemma length_append s t : String.length (s +:+ t) = (String.length s + String.length t)%nat.
Proof.
  induction s as [|c s IH]; [by rewrite append_nil|]. rewrite append_cons. simpl. by rewrite IH.
Qed.

Lemma append_same_length s s' a b :
  String.length a = String.length b → s +:+ a = s' +:+ b → s = s'.
Proof.
  intros Hl. revert s'. induction s as [|c s IH]; intros [|c' s']; rewrite ?append_nil, ?append_cons;
    intros H; try done.
  - subst a. simpl in Hl. rewrite length_append in Hl. lia.
  - subst b. simpl in Hl. rewrite length_append in Hl. lia.
  - simplify_eq. f_equal. by apply IH.
Qed.

(** A suffix one longer than another ends in it, if the whole strings agree. *)
Lemma append_one_longer s s' a b :
  String.length a = S (String.length b) → s +:+ a = s' +:+ b → ∃ c, a = String c b.
Proof.
  intros Hl. revert s'. induction s as [|c s IH]; intros [|c' s']; rewrite ?append_nil, ?append_cons; intros H.
  - subst a. lia.
  - subst a. simpl in Hl. rewrite length_append in Hl. destruct s' as [|x s']; [by rewrite append_nil; eauto|].
    simpl in Hl. lia.
  - subst b. simpl in Hl. rewrite length_append in Hl. lia.
  - simplify_eq. by eapply IH.
Qed.

Definition suffixes : list string :=
  [":ready:0"; ":ready:1"; ":ready:2"; ":ready:3"; ":ready:4"; ":ready:5"; ":ready:6"; ":ready:7";
   ":ready:8"; ":ready:9"; ":leased"; ":payload"; ":attempt"].

Lemma backend_keys_suffixes ns : backend_keys (Keys_new ns) = String.append ns <$> suffixes.
Proof. reflexivity. Qed.

(** No suffix is another one with a character in front. *)
Definition tail_free (a b : string) : bool :=
  bool_decide (String.length a = String.length b) ||
  match a with
  | String _ a' => bool_decide (String.length a' = String.length b) && negb (bool_decide (a' = b))
  | EmptyString => false
  end || 
  match b with
  | String _ b' => bool_decide (String.length b' = String.length a) && negb (bool_decide (b' = a))
  | EmptyString => false
  end.

Lemma suffixes_free a b : a ∈ suffixes → b ∈ suffixes → tail_free a b = true.
Proof.
  intros Ha Hb.
  assert (forallb (λ a, forallb (tail_free a) suffixes) suffixes = true) as H by by vm_compute.
  rewrite forallb_forall in H. apply list_elem_of_In in Ha, Hb. specialize (H a Ha).
  rewrite forallb_forall in H. by apply H.
Qed.

Lemma keys_apart ns ns' key :
  key ∈ backend_keys (Keys_new ns) → key ∈ backend_keys (Keys_new ns') → ns = ns'.
Proof.
  rewrite !backend_keys_suffixes. intros (a & -> & Ha)%list_elem_of_fmap (b & E & Hb)%list_elem_of_fmap.
  pose proof (suffixes_free a b Ha Hb) as Hf. unfold tail_free in Hf.
  apply orb_true_iff in Hf as [Hf|Hf]; [apply orb_true_iff in Hf as [Hf|Hf]|].
  - bool_facts. by eapply append_same_length.
  - destruct a as [|c a']; [done|]. bool_facts. exfalso.
    edestruct (append_one_longer ns ns') as [x Hx]; [|exact E|]; [simpl; congruence|]. by simplify_eq.
  - destruct b as [|c b']; [done|]. bool_facts. exfalso. symmetry in E.
    edestruct (append_one_longer ns' ns) as [x Hx]; [|exact E|]; [simpl; congruence|]. by simplify_eq.
Qed.

(** ** Clearing *)

(** Clearing empties every set and hash of this deployment and leaves
    every key of a deployment under another namespace as it was, whatever the
    two namespaces are. *)
Lemma clear_scoped ns ns' s :
  (∀ key, key ∈ backend_keys (Keys_new ns) →
     zset key (clear (Keys_new ns) s) = ∅ ∧ blob key (clear (Keys_new ns) s) = ∅ ∧
     counter key (clear (Keys_new ns) s) = ∅) ∧
  (ns ≠ ns' → ∀ key, key ∈ backend_keys (Keys_new ns') →
     zset key (clear (Keys_new ns) s) = zset key s ∧ blob key (clear (Keys_new ns) s) = blob key s ∧
     counter key (clear (Keys_new ns) s) = counter key s).
Proof.
  split; [intros key; apply redis_clear_empties|].
  intros Hne key Hk. unfold clear, del, zset, blob, counter; simpl. rewrite !lookup_del.
  destruct (decide _) as [Hk'|]; [|done]. destruct Hne. by eapply keys_apart.
Qed.

(** ** The theorems on a concrete server *)

Definition demo : Stored := {| st_id := 1; st_task := "mail"; st_payload := []; st_max_attempts := 3 |}.

#[local] Instance Stored_eq_dec : EqDecision Stored.
Proof. solve_decision. Defined.

(** A codec that knows two jobs. *)
Definition demo2 : Stored := {| st_id := 2; st_task := "sync"; st_payload := []; st_max_attempts := 3 |}.

#[local] Instance demo_codec : StoredCodec := {|
  to_vec s := if decide (s = demo) then Some [Byte.x01] else
              if decide (s = demo2) then Some [Byte.x02] else None;
  from_slice bs := if decide (bs = [Byte.x01]) then Some demo else
                   if decide (bs = [Byte.x02]) then Some demo2 else None
|}.

#[local] Instance demo_laws : StoredCodecLaws demo_codec.
Proof.
  constructor. intros s bs. simpl. case_decide; [intros ?; simplify_eq; done|].
  case_decide; intros ?; simplify_eq. done.
Qed.

Definition blank : server := {| zsets := ∅; blobs := ∅; counters := ∅ |}.
Definition shop : Keys := Keys_new "shop".
Definition put (r : result Error (Z * server)) : server := match r with Ok (_, s) => s | Err _ => blank end.
Definition one_job : server := put (enqueue shop 100 1 "mail" [] 5 3 0 blank).
Definition two_jobs : server := put (enqueue shop 100 2 "sync" [] 0 3 0 one_job).
Definition one_leased : server := (CLAIM shop 200 1 300 one_job).2.
Definition lapsed : server := (reclaim_expired shop 400 10 one_leased).2.

Lemma blank_sound : sound shop blank.
Proof. intros id. apply absent; [done|intros l _|..]; done. Qed.

Lemma one_job_honest : rtc (honest shop) (blank, ∅) (one_job, ∅).
Proof. apply rtc_once. exists (Enqueue [1]). eapply (enqueues _ _ _ 100 1 "mail" [] 5 3 0); vm_compute; reflexivity. Qed.

Lemma two_jobs_honest : rtc (honest shop) (blank, ∅) (two_jobs, ∅).
Proof.
  apply rtc_r with (one_job, ∅); [apply one_job_honest|]. exists (Enqueue [2]).
  eapply (enqueues _ _ _ 100 2 "sync" [] 0 3 0); vm_compute; reflexivity.
Qed.

Lemma one_leased_honest : rtc (honest shop) (blank, ∅) (one_leased, ∅).
Proof. apply rtc_r with (one_job, ∅); [apply one_job_honest|]. eexists. apply leases. Qed.

Lemma lapsed_honest : rtc (honest shop) (blank, ∅) (lapsed, ∅).
Proof. apply rtc_r with (one_leased, ∅); [apply one_leased_honest|]. eexists. apply reclaims. Qed.

(** The lease of job 1 is given up and the job not yet put back. *)
Definition given_up : server := zrem (Redis.leased shop) [1] one_leased.

Lemma given_up_honest : rtc (honest shop) (blank, ∅) (given_up, {[1]}).
Proof.
  apply rtc_r with (one_leased, ∅); [apply one_leased_honest|]. exists (Return [1]). simpl.
  replace {[1]} with (∅ ∪ list_to_set [1] : gset Z) by set_solver. apply lets_go.
  intros id ->%list_elem_of_singleton. vm_compute. eauto.
Qed.

(** Honest runs keep the server sound, for the witnesses below. *)
Lemma honest_sound s : rtc (honest shop) (blank, ∅) (s, ∅) → sound shop s.
Proof. intros H. apply (honest_steps_kept "shop" (blank, ∅) (s, ∅)); [apply blank_sound|exact H]. Qed.

Lemma claim_exact_witness :
  claims shop 200 300 1 all_levels two_jobs [2] (CLAIM shop 200 1 300 two_jobs).2.
Proof.
  assert ((CLAIM shop 200 1 300 two_jobs).1 = [2]) as <- by (vm_compute; reflexivity).
  apply (claim_exact "shop" 200 1 300 two_jobs).
  apply (kept_one_level shop ∅), honest_sound, two_jobs_honest.
Defined.

Lemma redis_jobs_kept_witness : placement shop ∅ lapsed 1 ∧ placement shop {[1]} given_up 1.
Proof.
  split.
  - apply (redis_jobs_kept "shop" blank lapsed ∅); [apply blank_sound|apply lapsed_honest].
  - apply (redis_jobs_kept "shop" blank given_up {[1]}); [apply blank_sound|apply given_up_honest].
Defined.

Lemma late_completion_poisons_witness :
  (complete shop [1] lapsed).1 = 0 ∧
  ∃ e, (fetch shop 500 500 (λ x, x) (λ x, x) 5 100 (complete shop [1] lapsed).2).1 = Err e.
Proof.
  destruct (late_completion_poisons "shop" 500 500 5 100 lapsed 1) as (H1 & H2 & _).
  - apply honest_sound, lapsed_honest.
  - vm_compute. eauto.
  - apply list_elem_of_lookup. exists 0%nat. vm_compute. reflexivity.
  - split; [exact H1|exact H2].
Defined.

End RedisKeys.
