(* ===== verification/PgQueue.v ===== *)
(** * Postgres is a lease queue

    Each statement of the Postgres backend under the contract's name for it, and that
    it leaves every job where the contract allows. *)

From S2P Require Import Prelude.
From S2P Require Import Utf8.
From S2P Require Import Core.
From S2P Require Import PgTable.
From S2P Require Import PgJobs.
From S2P Require Import PgCron.
From S2P Require Import PgRetention.
From S2P Require Import PgWorkflow.
From S2P Require Import PgInvariant.
From S2P Require Import PgSteps.
From S2P Require Import PgReach.
From S2P Require Import PgTypes.
From S2P Require Import PgFetch.
From S2P Require Import Contract.
#[local] Open Scope Z_scope.
Import Utf8.
Import Core.
Import Table.
Import Jobs.
Import Cron.
Import Retention.
Import Workflow.
Import Invariant.
Import Steps.
Import Reach.
Import Fetch.
Import Contract.

Module PgQueue.

(** ** Where a job is *)

Definition state_phase (s : job_state) : phase :=
  match s with
  | available => Waiting
  | running => Leased
  | completed | discarded | cancelled => Finished
  end.

Definition pg_phase (d : db) (i : Z) : option phase := (λ r, state_phase (state r)) <$> jobs d !! i.

Definition pg_holds (worker : uuid) (d : db) (i : Z) : bool :=
  match jobs d !! i with Some r => held worker r | None => false end.

Section Planned.
Context {Pl : Planner}.

(** The statements by the operation each one is. *)
Inductive pg_does (w : uuid) (d : db) : op → db → Prop :=
| do_enqueue now j i d' : enqueue now j d = Ok (i, d') → typed_job j = true → pg_does w d (Enqueue [i]) d'
| do_client r d' :
    fresh_row r → commit (insert_job r d) = Ok d' → typed_spec (spec r) = true →
    pg_does w d (Enqueue [next_job d]) d'
| do_workflow now f ids d' :
    enqueue_workflow now f d = Ok (ids, d') → forallb typed_job (nodes f) = true → pg_does w d (Enqueue ids) d'
| do_fire now name next i d' :
    fire_cron now name next d = Ok (i, d') → pg_does w d (Enqueue (option_list i)) d'
| do_unkeyed now queues n lease skip l waiting d' :
    FETCH_UNKEYED now queues n w lease skip d = Ok (l, waiting, d') → pg_does w d (Lease (job_id <$> l)) d'
| do_keyed now queues n lease skip l d' :
    FETCH_KEYED now queues n w lease skip d = Ok (l, d') → pg_does w d (Lease (job_id <$> l)) d'
| do_complete now ids results n d' :
    complete now ids results w d = Ok (n, d') → pg_does w d (Complete ids) d'
| do_discard now ids errs n d' :
    discard_many now ids errs w d = Ok (n, d') → pg_does w d (Discard ids) d'
| do_retry now random ids errs base cap n d' :
    retry_many now random ids errs w base cap d = Ok (n, d') → pg_does w d (Retry ids) d'
| do_abandon now ids n d' : abandon_leases now ids w d = Ok (n, d') → pg_does w d (Return ids) d'
| do_reclaim now n c d' : reclaim_expired now n d = Ok (c, d') → pg_does w d Sweep d'
| do_cancel now ids n d' : cancel now ids d = Ok (n, d') → pg_does w d (Cancel ids) d'
| do_requeue now ids q l d' : retry_discarded now ids q d = Ok (l, d') → pg_does w d (Revive l) d'
| do_purge q : pg_does w d Forget (purge_discarded q d).2
| do_prune_completed now skip older q n c d' :
    prune_completed now skip older q n d = Ok (c, d') → pg_does w d Forget d'
| do_prune_discarded now skip older q n c d' :
    prune_discarded now skip older q n d = Ok (c, d') → pg_does w d Forget d'
| do_renew now ids lease n d' : renew_leases now ids w lease d = Ok (n, d') → pg_does w d Other d'
| do_prune_workflows : pg_does w d Other (prune_workflows d).2
| do_upsert now e next : typed_entry e = true → pg_does w d Other (upsert_cron now e next d)
| do_record now job name res d' :
    record_step now job name res d = Ok d' → bool_decide (utf8 name) = true → pg_does w d Other d'.

(** The names cover the statements, and nothing else. *)
Lemma does_step w o d d' : pg_does w d o d' → step d d'.
Proof. destruct 1; eauto using step. Qed.

Lemma step_does d d' : step d d' → ∃ w o, pg_does w d o d'.
Proof. destruct 1; (exists worker || exists 0); eauto using pg_does. Qed.

#[global] Instance pg_store : Store uuid db :=
  {| good := reachable; does w o d d' := pg_does w d o d'; phase_of := pg_phase; holds_job := pg_holds;
     over := Some Finished |}.

(** ** Statements that update rows in place *)

(** What the contract asks of a row that an update leaves as [r']. *)
Definition row_allowed (w : uuid) (o : op) (i : Z) (r r' : job_row) : Prop :=
  Some (state_phase (state r')) ∈ allowed (Some Finished) o (held w r) i (Some (state_phase (state r))).

Definition allows (w : uuid) (o : op) (d d' : db) (i : Z) : Prop :=
  pg_phase d' i ∈ allowed (Some Finished) o (pg_holds w d i) i (pg_phase d i).

(** Operations other than these do nothing to a job that is not stored. *)
Definition in_place (o : op) : Prop :=
  match o with Enqueue _ | Lease _ | Clear => False | _ => True end.

Lemma in_place_absent h o i p : in_place o → p ∈ allowed (Some Finished) o h i None ↔ p = None.
Proof. destruct o; simpl; try done; intros _; by rewrite list_elem_of_singleton. Qed.

Lemma update_allowed w o f d d' i :
  in_place o → commit (update f d) = Ok d' →
  (∀ r, jobs d !! i = Some r → row_allowed w o i r (default r (f i r))) → allows w o d d' i.
Proof.
  intros Ho (-> & _)%commit_Ok Hf. unfold allows, pg_phase, pg_holds. rewrite lookup_update.
  destruct (jobs d !! i) as [r|] eqn:E; simpl; [by apply Hf|by apply in_place_absent].
Qed.

(** A job an operation does not name, or whose lease the caller does not hold, stays. *)
Lemma same_allowed w o d d' i :
  in_place o → jobs d' !! i = jobs d !! i →
  (∀ r, jobs d !! i = Some r → row_allowed w o i r r) → allows w o d d' i.
Proof.
  intros Ho E Hf. unfold allows, pg_phase, pg_holds. rewrite E.
  destruct (jobs d !! i) as [r|]; simpl; [by apply Hf|by apply in_place_absent].
Qed.

Lemma forget_allowed w ids d i :
  (∀ j r, j ∈ ids → jobs d !! j = Some r → ¬ live r) → allows w Forget d (delete_jobs ids d) i.
Proof.
  intros Hids. unfold allows, pg_phase, pg_holds.
  destruct (jobs (delete_jobs ids d) !! i) as [r|] eqn:E.
  - apply delete_lookup in E as [-> _]. simpl. destruct (state r); simpl; set_solver.
  - destruct (jobs d !! i) as [r|] eqn:Er; [|simpl; set_solver]. simpl.
    destruct (decide (i ∈ ids)) as [Hi|Hi].
    + assert (¬ live r) as Hl by eauto. unfold live in Hl. destruct (state r); simpl; try set_solver; destruct Hl; auto.
    + exfalso. assert (jobs (delete_jobs ids d) !! i = Some r) by by apply delete_lookup. congruence.
Qed.

(** Settles what is left once an update has been taken apart: the row's state decides. *)
Ltac by_state :=
  unfold row_allowed; simpl;
  repeat match goal with H : held _ ?r = true |- _ => rewrite ?H; apply held_running in H end; try congruence;
  repeat match goal with H : held _ ?r = false |- _ => rewrite ?H; clear H end;
  repeat match goal with H : state ?r = _ |- _ => rewrite ?H; clear H end;
  repeat match goal with |- context [state_phase (state ?r)] => destruct (state r) end; simpl;
  repeat match goal with |- context [held ?w ?r] => destruct (held w r) end; simpl;
  repeat (case_decide || case_bool_decide); simpl; first [done|set_solver].

(** Takes a statement made of one update apart, row by row; one given no ids does
    nothing. *)
Ltac row_by_row :=
  repeat case_decide; simplify_eq/=; try solve [apply same_allowed; [done..|intros; by_state]];
  try match goal with H : context [existsb ?f ?l] |- _ => destruct (existsb f l); [done|] end;
  try match goal with H : context [?n <? 0] |- _ => destruct (n <? 0); [done|] end;
  match goal with H : context [commit ?x] |- _ =>
    let E := fresh "E" in destruct (commit x) eqn:E; simplify_eq/=;
    eapply update_allowed; [done|exact E|clear E; cbv beta; intros r Hr] end.

Lemma joined_in {A} ids (vs : list (option A)) i x : joined (unnest ids vs) i = Some x → i ∈ ids.
Proof. intros H. rewrite <- (fst_unnest ids vs). apply joined_is_Some. eauto. Qed.

Lemma joined_out {A} ids (vs : list (option A)) i : joined (unnest ids vs) i = None → i ∉ ids.
Proof. intros H. rewrite <- (fst_unnest ids vs), <- joined_is_Some, H. by intros []. Qed.

Lemma complete_allowed w now ids results n d d' i :
  complete now ids results w d = Ok (n, d') → allows w (Complete ids) d d' i.
Proof.
  unfold complete, COMPLETE. intros H. row_by_row. unfold complete_update.
  destruct (joined (unnest ids results) i) as [res|] eqn:Ej.
  - apply joined_in in Ej.
    destruct (held w r) eqn:Hh; [|destruct (0 <? _)]; by_state.
  - apply joined_out in Ej.
    destruct (0 <? _), (held w r) eqn:Hh; by_state.
Qed.

Lemma discard_allowed w now ids errs n d d' i :
  discard_many now ids errs w d = Ok (n, d') → allows w (Discard ids) d d' i.
Proof.
  unfold discard_many, DISCARD_MANY. intros H. row_by_row.
  destruct (joined (unnest ids (Some <$> errs)) i) as [e|] eqn:Ej; [apply joined_in in Ej|apply joined_out in Ej];
    destruct (held w r) eqn:Hh; try (destruct (bool_decide (_ ∈ walk _ _) && _) eqn:Hc; bool_facts); by_state.
Qed.

Lemma retry_allowed w now random ids errs base cap n d d' i :
  retry_many now random ids errs w base cap d = Ok (n, d') → allows w (Retry ids) d d' i.
Proof.
  unfold retry_many, RETRY_MANY. intros H. row_by_row.
  destruct (joined (unnest ids (Some <$> errs)) i) as [e|] eqn:Ej; [apply joined_in in Ej|apply joined_out in Ej];
    destruct (held w r) eqn:Hh; try destruct (attempts_left r); by_state.
Qed.

Lemma abandon_allowed w now ids n d d' i :
  abandon_leases now ids w d = Ok (n, d') → allows w (Return ids) d d' i.
Proof.
  unfold abandon_leases, ABANDON. intros H. row_by_row. destruct (bool_decide (i ∈ ids) && held w r); by_state.
Qed.

Lemma renew_allowed w now ids lease n d d' i :
  renew_leases now ids w lease d = Ok (n, d') → allows w Other d d' i.
Proof.
  unfold renew_leases, RENEW. intros H. row_by_row. destruct (bool_decide (i ∈ ids) && held w r); by_state.
Qed.

Lemma sweep_allowed w now n c d d' i : reclaim_expired now n d = Ok (c, d') → allows w Sweep d d' i.
Proof.
  unfold reclaim_expired, RECLAIM. intros H. row_by_row. case_decide as Hi; [|by_state].
  assert (lapsed now r = true) as Hl by (eapply expired_lapsed; eassumption). unfold lapsed in Hl. bool_facts.
  destruct (attempts_left r); by_state.
Qed.

Lemma cancel_allowed w now ids n d d' i : cancel now ids d = Ok (n, d') → allows w (Cancel ids) d d' i.
Proof.
  unfold cancel. intros H. row_by_row. repeat case_bool_decide; by_state.
Qed.

Lemma revive_allowed w now ids q l d d' i : retry_discarded now ids q d = Ok (l, d') → allows w (Revive l) d d' i.
Proof.
  unfold retry_discarded. intros H. row_by_row.
  assert (i ∈ arrange (select (λ i r, bool_decide (state r = discarded) && in_scope ids q i r) d) ↔
    bool_decide (state r = discarded) && in_scope ids q i r = true) as Hi.
  { rewrite arrange_perm, elem_of_select. split; [intros (r' & ? & ?); by simplify_eq|eauto]. }
  destruct (bool_decide (state r = discarded) && in_scope ids q i r) eqn:E; bool_facts; by_state.
Qed.

(** ** Statements that bring jobs, and those that lease them *)

Lemma arrival_allowed w ids d d' i :
  (∀ j, j ∈ ids → jobs d !! j = None ∧ ∃ r, jobs d' !! j = Some r ∧ state r = available) →
  (∀ j, j ∉ ids → jobs d' !! j = jobs d !! j) → allows w (Enqueue ids) d d' i.
Proof.
  intros Hin Hout. unfold allows, pg_phase. simpl. destruct (decide (i ∈ ids)) as [Hi|Hi].
  - destruct (Hin i Hi) as (-> & r & -> & Hr). simpl. rewrite Hr. by left.
  - rewrite (Hout i Hi). by left.
Qed.

Lemma insert_allowed w r d d' i :
  db_ok d → commit (insert_job r d) = Ok d' → state r = available → allows w (Enqueue [next_job d]) d d' i.
Proof.
  intros Hd (-> & _)%commit_Ok Hr. apply arrival_allowed.
  - intros j ->%list_elem_of_singleton. split; [by apply fresh_id|]. exists r. simpl. by rewrite lookup_insert_eq.
  - intros j Hj. simpl. apply lookup_insert_ne. intros <-. apply Hj. by left.
Qed.

Lemma fire_allowed w now name next i0 d d' i :
  db_ok d → fire_cron now name next d = Ok (i0, d') → allows w (Enqueue (option_list i0)) d d' i.
Proof.
  intros Hd. unfold fire_cron, FIRE_CRON.
  destruct (crons d !! name) as [c|]; [destruct (cron_due now c)|];
    [|intros ?; simplify_eq; by apply arrival_allowed; [intros j ?%elem_of_nil|]..].
  destruct (commit _) as [d1|] eqn:E; simpl; [|done]. intros ?; simplify_eq.
  eapply insert_allowed in E; [exact E|by apply set_crons_ok|done].
Qed.

Lemma workflow_allowed w now f ids d d' i :
  db_ok d → enqueue_workflow now f d = Ok (ids, d') → allows w (Enqueue ids) d d' i.
Proof.
  intros Hd. unfold enqueue_workflow. case_decide; [intros ?; simplify_eq; by apply arrival_allowed; [intros j ?%elem_of_nil|]|].
  case_decide; [done|]. destruct (insert_nodes _ _ _ _) as [[ids' d1]|] eqn:E; simpl; [|done].
  destruct (insert_edges _ _ _ _) as [m|]; [|done]. intros ?; simplify_eq.
  apply insert_nodes_ok in E as (_ & _ & Hlen & Hids & Hold & Hnew & Hback); [|by apply new_workflow_ok].
  assert (∀ j, j ∈ ids → jobs d !! j = None) as Hfresh.
  { intros j [c Hc]%list_elem_of_lookup. apply Hids in Hc as ->. apply eq_None_not_Some.
    intros Hj%(ids_ok _ Hd). simpl in Hj. lia. }
  apply arrival_allowed; simpl.
  - intros j Hj. split; [auto|]. apply list_elem_of_lookup in Hj as [c Hc].
    pose proof (lookup_lt_Some _ _ _ Hc) as Hlt. rewrite Hlen in Hlt. apply lookup_lt_is_Some in Hlt as [[jb p] Hjb].
    eexists. split; [by eapply Hnew|done].
  - intros j Hj. destruct (jobs d !! j) as [r|] eqn:Er; [rewrite Hold; [done|simpl; eauto]|].
    destruct (jobs d1 !! j) as [r|] eqn:Er1; [|done]. exfalso.
    destruct (Hback j r Er1) as [?|[c Hc]]; [simpl in *; congruence|]. apply Hj. by eapply list_elem_of_lookup_2.
Qed.

(** A fetch turns what it returns, and nothing else, into leases of its worker. *)
Lemma lease_allowed now w lease chosen l d d' i :
  (∀ j r, (j, r) ∈ chosen → jobs d !! j = Some r ∧ state r = available) →
  leased_to now w lease chosen d l d' →
  allows w (Lease (job_id <$> l)) d d' i ∧ (i ∈ job_id <$> l → pg_holds w d' i = true).
Proof.
  intros Hc [Hl Hj].
  assert (∀ j, j ∈ job_id <$> l ↔ j ∈ chosen.*1) as Hids.
  { intros j. rewrite Hl, <- list_fmap_compose. done. }
  unfold allows, pg_phase, pg_holds. rewrite Hj. simpl.
  destruct (decide (i ∈ job_id <$> l)) as [Hi|Hi].
  - pose proof Hi as ([j r] & -> & Hr)%Hids%list_elem_of_fmap. destruct (Hc _ _ Hr) as [Er Hs]. simpl in *.
    rewrite Er. simpl. rewrite !(decide_True (P := j ∈ chosen.*1)) by (by apply Hids). rewrite Hs. simpl. split; [by left|].
    intros _. unfold held. simpl. by rewrite !bool_decide_true.
  - split; [|done]. rewrite Hids in Hi. destruct (jobs d !! i) as [r|]; simpl; [|by left].
    rewrite decide_False by done. by left.
Qed.

Lemma unkeyed_lease now queues n w lease skip l waiting d d' i :
  FETCH_UNKEYED now queues n w lease skip d = Ok (l, waiting, d') →
  allows w (Lease (job_id <$> l)) d d' i ∧ (i ∈ job_id <$> l → pg_holds w d' i = true).
Proof.
  intros (_ & _ & chosen & (_ & Hch & _) & Hl)%unkeyed_took. eapply lease_allowed; [|exact Hl].
  intros j r Hj. destruct (Hch j r Hj) as [? Ho]. split; [done|]. unfold open_unkeyed, runnable in Ho. by bool_facts.
Qed.

Lemma keyed_lease now queues n w lease skip l d d' i :
  FETCH_KEYED now queues n w lease skip d = Ok (l, d') →
  allows w (Lease (job_id <$> l)) d d' i ∧ (i ∈ job_id <$> l → pg_holds w d' i = true).
Proof.
  intros [_ Hl]%keyed_took. eapply lease_allowed; [|exact Hl].
  intros j r Hj. apply keyed_picked in Hj as [? Ho]. split; [done|]. unfold runnable in Ho. by bool_facts.
Qed.

(** ** The contract *)

Lemma pg_allowed w o d d' i : reachable d → pg_does w d o d' → allows w o d d' i.
Proof.
  intros Hd%reachable_ok.
  destruct 1; eauto using complete_allowed, discard_allowed, retry_allowed, abandon_allowed, renew_allowed,
    sweep_allowed, cancel_allowed, revive_allowed, fire_allowed, workflow_allowed.
  - unfold enqueue in H. destruct (commit _) eqn:E; simplify_eq/=. by eapply insert_allowed.
  - eapply insert_allowed; [done..|]. by destruct H as (_ & ? & _).
  - by eapply unkeyed_lease.
  - by eapply keyed_lease.
  - destruct (purged_finished q d) as (ids & -> & Hids). by apply forget_allowed.
  - eapply pruned_finished in H as (ids & -> & Hids); [by apply forget_allowed|set_solver].
  - eapply pruned_finished in H as (ids & -> & Hids); [by apply forget_allowed|set_solver].
  - apply same_allowed; [done..|]. intros; by_state.
  - apply same_allowed; [done..|]. intros; by_state.
  - apply same_allowed; [done| |intros; by_state]. unfold record_step, RECORD_STEP in H. by repeat case_match; simplify_eq.
Qed.

#[global] Instance pg_queue : LeaseQueue uuid db.
Proof.
  split.
  - intros w o d d' Hd Hs. eapply rtc_r; [exact Hd|eapply does_step; exact Hs].
  - intros w o d d' i. apply pg_allowed.
  - intros w ids d d' i _ Hs Hi. simpl in Hs. inversion Hs; subst; [by eapply unkeyed_lease|by eapply keyed_lease].
Qed.

End Planned.
End PgQueue.
