(* ===== verification/RedisQueue.v ===== *)
(** * Redis is a lease queue

    The steps of honest clients of the Redis backend leave every job where the
    contract allows. A job that is reported done is gone at once: Redis keeps no
    finished jobs. *)

From S2P Require Import Prelude.
From S2P Require Import Core.
From S2P Require Import Redis.
From S2P Require Import RedisClaim.
From S2P Require Import Contract.
From S2P Require Import RedisSafety.
#[local] Open Scope Z_scope.
Import Redis.
Import RedisClaim.
Import Contract.
Import RedisSafety.

Module RedisQueue.

Section Codec.
Context {C : StoredCodec} {L : StoredCodecLaws C} (ns : string).
Let k : Keys := Keys_new ns.

(** ** Where a job is *)

Definition waits_somewhere (s : server) (i : Z) : bool :=
  existsb (λ l, bool_decide (is_Some (zset (ready k l) s !! i))) all_levels.

(** A lease is out until the job is back at a level or reported: an [abandon] half
    done still has it. *)
Definition redis_holds (x : server * gset Z) (i : Z) : bool :=
  bool_decide (is_Some (zset (leased k) x.1 !! i)) || bool_decide (i ∈ x.2).

Definition redis_phase (x : server * gset Z) (i : Z) : option phase :=
  if redis_holds x i then Some Leased else if waits_somewhere x.1 i then Some Waiting else None.

(** Leases have no owner, so neither do callers. *)
#[global] Instance redis_store : Store unit (server * gset Z) := {|
  good x := kept k x.2 x.1; does _ o x y := acts k x.1 x.2 o y.1 y.2; phase_of := redis_phase;
  holds_job _ := redis_holds; over := None |}.

Lemma waits_spec s i :
  waits_somewhere s i = true ↔ ∃ l, l ∈ all_levels ∧ is_Some (zset (ready k l) s !! i).
Proof.
  unfold waits_somewhere. rewrite existsb_exists. setoid_rewrite bool_decide_eq_true.
  by setoid_rewrite list_elem_of_In.
Qed.

Lemma phase_out s h i : zset (leased k) s !! i = None → i ∉ h → redis_holds (s, h) i = false.
Proof. intros Hl Hh. unfold redis_holds. cbn [fst snd]. rewrite Hl, !bool_decide_false; [done|done|by intros []]. Qed.

Lemma phase_leased s h i : is_Some (zset (leased k) s !! i) ∨ i ∈ h →
  redis_holds (s, h) i = true ∧ redis_phase (s, h) i = Some Leased.
Proof.
  intros Hi. assert (redis_holds (s, h) i = true) as Hh.
  { unfold redis_holds. cbn [fst snd]. apply orb_true_iff. rewrite !bool_decide_eq_true. done. }
  unfold redis_phase. by rewrite Hh.
Qed.

Lemma phase_waiting s h i l :
  zset (leased k) s !! i = None → i ∉ h → l ∈ all_levels → is_Some (zset (ready k l) s !! i) →
  redis_phase (s, h) i = Some Waiting.
Proof.
  intros Hl Hh Hin Hr. unfold redis_phase. rewrite phase_out by done. cbn [fst snd].
  by rewrite (proj2 (waits_spec s i)) by eauto.
Qed.

Lemma phase_gone s h i :
  zset (leased k) s !! i = None → i ∉ h → at_no_level k s i → redis_phase (s, h) i = None.
Proof.
  intros Hl Hh Hn. unfold redis_phase. rewrite phase_out by done. cbn [fst snd].
  destruct (waits_somewhere s i) eqn:E; [|done]. apply waits_spec in E as (l & Hin & [x Hx]). by rewrite Hn in Hx.
Qed.

(** Two servers that agree on a job. *)
Definition agree (s : server) (h : gset Z) (s' : server) (h' : gset Z) (i : Z) : Prop :=
  (is_Some (zset (leased k) s' !! i) ↔ is_Some (zset (leased k) s !! i)) ∧ (i ∈ h' ↔ i ∈ h) ∧
  ∀ l, l ∈ all_levels → zset (ready k l) s' !! i = zset (ready k l) s !! i.

Lemma phase_same s h s' h' i : agree s h s' h' i → redis_phase (s', h') i = redis_phase (s, h) i.
Proof.
  intros (Hl & Hh & Hr). unfold redis_phase, redis_holds. cbn [fst snd].
  rewrite (bool_decide_ext _ _ Hl), (bool_decide_ext _ _ Hh).
  assert (waits_somewhere s' i = waits_somewhere s i) as ->; [|done].
  apply eq_true_iff_eq. rewrite !waits_spec. split; intros (l & Hin & Hx); exists l; [rewrite <- Hr|rewrite Hr]; done.
Qed.

(** ** The steps *)

Definition allows (o : op) (s : server) (h : gset Z) (s' : server) (h' : gset Z) (i : Z) : Prop :=
  redis_phase (s', h') i ∈ allowed None o (redis_holds (s, h) i) i (redis_phase (s, h) i).

(** The jobs an operation names. *)
Definition named (o : op) (i : Z) : Prop :=
  match o with
  | Enqueue ids | Lease ids | Complete ids | Discard ids | Retry ids | Return ids => i ∈ ids
  | Clear => True
  | _ => False
  end.

(** A job the operation does not name may stay as it is. *)
Lemma allowed_keeps o hold i p :
  match o with Cancel _ | Revive _ | Forget => False | _ => True end → ¬ named o i → p ∈ allowed None o hold i p.
Proof.
  intros Ho Hn. destruct o; simpl in *; try done; destruct p as [[]|]; simpl;
    rewrite ?(bool_decide_false (i ∈ ids)), ?andb_false_r by done; repeat case_decide; try done; set_solver.
Qed.

Lemma redis_same_allowed o s h s' h' i :
  match o with Cancel _ | Revive _ | Forget => False | _ => True end → ¬ named o i → agree s h s' h' i →
  allows o s h s' h' i.
Proof. intros Ho Hn Ha. unfold allows. rewrite (phase_same _ _ _ _ _ Ha). by apply allowed_keeps. Qed.

Lemma enqueue_allowed h now id task body priority max_attempts delay s s' i :
  kept k h s → blob (payload k) s !! id = None →
  enqueue k now id task body priority max_attempts delay s = Ok (id, s') → allows (Enqueue [id]) s h s' h i.
Proof.
  intros Hs Hb. unfold enqueue. destruct (to_vec _) as [bs|] eqn:E; [|done]. intros ?; simplify_eq.
  assert (∀ a b, zset (leased k) (zadd (ready k a) id b (hset (payload k) id bs s)) = zset (leased k) s) as Hl.
  { intros a b. rewrite zset_zadd_ne; [done|]. apply ready_leased. }
  destruct (decide (i = id)) as [->|Hne].
  - destruct (Hs id) as [Hh Hn Hls _|? _ _ _ _ _ (?&?&?&_)|_ _ _ (?&?&?&_)|_ _ _ (?&?&?&_)]; [|congruence..].
    unfold allows. rewrite (phase_gone s) by done. simpl.
    rewrite decide_True by by apply list_elem_of_singleton. apply list_elem_of_singleton.
    eapply (phase_waiting _ _ _ (level priority)); [by rewrite Hl|done|apply level_in|].
    rewrite zset_zadd, lookup_insert_eq. eauto.
  - apply redis_same_allowed; [done|simpl; set_solver|]. split_and!; [by rewrite Hl|done|]. intros l _.
    destruct (decide (l = level priority)) as [->|Hne'].
    + by rewrite zset_zadd, lookup_insert_ne.
    + by rewrite zset_zadd_ne by (intros E'; by apply ready_inj in E').
Qed.

Lemma claim_allowed h now limit expires s i :
  kept k h s → allows (Lease (CLAIM k now limit expires s).1) s h (CLAIM k now limit expires s).2 h i ∧
  (i ∈ (CLAIM k now limit expires s).1 → redis_holds ((CLAIM k now limit expires s).2, h) i = true).
Proof.
  intros Hs.
  destruct (claim_levels_spec ns now expires all_levels limit s all_levels_sorted (kept_one_level _ _ _ Hs))
    as [_ _ Hdue _ _ _ (H1 & H2 & _ & _)]. fold k in Hdue, H1, H2. fold (CLAIM k now limit expires s) in *.
  set (c := (CLAIM k now limit expires s).1) in *. set (s' := (CLAIM k now limit expires s).2) in *.
  destruct (decide (i ∈ c)) as [Hi|Hi].
  - destruct (phase_leased s' h i) as [Hh Hp]; [left; rewrite H2, decide_True by done; eauto|]. split; [|done].
    unfold allows. rewrite Hp. destruct (Hdue i Hi) as (l & Hl & sc & Hsc & _).
    destruct (Hs i) as [_ Hn _ _|? Hh' _ _ _ Hls _|_ Hn _ _|_ Hn _ _]; try (rewrite Hn in Hsc by done; done).
    rewrite (phase_waiting s h i l) by eauto. simpl. rewrite decide_True by done. by left.
  - split; [|done]. apply redis_same_allowed; [done|done|]. split_and!; [by rewrite H2, decide_False|done|].
    intros l _. rewrite H1, decide_False; [done|]. by intros [? _].
Qed.

Lemma redis_complete_allowed h ids s i :
  kept k h s → holds k s ids → allows (Complete ids) s h (complete k ids s).2 h i.
Proof.
  intros Hs Hids. destruct (complete_lookups ns ids s i) as (H1 & H2 & _). fold k in H1, H2.
  destruct (decide (i ∈ ids)) as [Hi|Hi].
  - destruct (leased_running k h s i Hs (Hids i Hi)) as (Hh & Hn & _).
    destruct (phase_leased s h i) as [Hl Hp]; [by left; apply Hids|]. unfold allows. rewrite Hl, Hp. simpl.
    rewrite bool_decide_true by done. apply list_elem_of_singleton. apply phase_gone; [done|done|].
    intros l Hin. rewrite H1. by apply Hn.
  - apply redis_same_allowed; [done|done|]. split_and!; [by rewrite H2|done|]. intros l _. apply H1.
Qed.

Lemma redis_discard_allowed h ids s i :
  kept k h s → holds k s ids → allows (Discard ids) s h (discard k ids s).2 h i.
Proof.
  intros Hs Hids. pose proof (redis_complete_allowed h ids s i Hs Hids) as Ha. unfold allows, discard in *.
  destruct (redis_phase (s, h) i) as [[]|] eqn:E; simpl in *; [|done..].
  apply list_elem_of_singleton in Ha as ->. left.
Qed.

Lemma redis_retry_allowed h now id priority delay s i :
  kept k h s → holds k s [id] → allows (Retry [id]) s h (retry k now id priority delay s) h i.
Proof.
  intros Hs Hids. unfold retry.
  assert (zset (leased k) (zadd (ready k (level priority)) id (now + delay) (zrem (leased k) [id] s)) =
    zset (leased k) (zrem (leased k) [id] s)) as Hl by (apply zset_zadd_ne, ready_leased).
  destruct (decide (i = id)) as [->|Hne].
  - assert (is_Some (zset (leased k) s !! id)) as Hid by (apply Hids; left).
    destruct (leased_running k h s id Hs Hid) as (Hh & _).
    destruct (phase_leased s h id (or_introl Hid)) as [Hhold Hp]. unfold allows. rewrite Hhold, Hp.
    rewrite (phase_waiting _ h id (level priority)); [|by rewrite Hl, lookup_zrem, decide_True by left|done| |].
    + simpl. rewrite bool_decide_true by left. left.
    + apply level_in.
    + rewrite zset_zadd, lookup_insert_eq. eauto.
  - assert (i ∉ [id]) as Hi by (by intros ?%list_elem_of_singleton).
    apply redis_same_allowed; [done|done|]. split_and!; [by rewrite Hl, lookup_zrem, decide_False|done|].
    intros l _. destruct (decide (l = level priority)) as [->|Hne'].
    + rewrite zset_zadd, lookup_insert_ne by done. unfold k. by rewrite zset_zrem_ready.
    + rewrite zset_zadd_ne by (intros E'; by apply ready_inj in E'). unfold k. by rewrite zset_zrem_ready.
Qed.

Lemma let_go_allowed h ids s i :
  holds k s ids → allows (Return ids) s h (zrem (leased k) ids s) (h ∪ list_to_set ids) i.
Proof.
  intros Hids. destruct (decide (i ∈ ids)) as [Hi|Hi].
  - destruct (phase_leased s h i) as [Hhold Hp]; [by left; apply Hids|].
    destruct (phase_leased (zrem (leased k) ids s) (h ∪ list_to_set ids) i) as [_ Hp']; [right; set_solver|].
    unfold allows. rewrite Hhold, Hp, Hp'. simpl. rewrite bool_decide_true by done. right. left.
  - apply redis_same_allowed; [done|done|]. split_and!; [by rewrite lookup_zrem, decide_False|set_solver|].
    intros l _. unfold k. by rewrite zset_zrem_ready.
Qed.

(** Where a job put back at level 0 is found, and that nothing else moves. *)
Lemma hand_back_lookups now ids s :
  zset (leased k) (hand_back k now ids s) = zset (leased k) s ∧
  (∀ i, i ∈ ids → is_Some (zset (ready k 0) (hand_back k now ids s) !! i)) ∧
  (∀ l i, i ∉ ids → zset (ready k l) (hand_back k now ids s) !! i = zset (ready k l) s !! i).
Proof.
  destruct (zadd_all (ready k 0) ids now s) as (H1 & H2 & _). fold (hand_back k now ids s) in H1, H2. split_and!.
  - apply H1, not_eq_sym, ready_leased.
  - intros i Hi. rewrite H2, decide_True by done. eauto.
  - intros l i Hi. destruct (decide (l = 0)) as [->|Hne]; [by rewrite H2, decide_False|].
    rewrite H1; [done|]. intros E. by apply ready_inj in E.
Qed.

Lemma hand_back_allowed h now ids s i :
  kept k h s → list_to_set ids ⊆ h → allows (Return ids) s h (hand_back k now ids s) (h ∖ list_to_set ids) i.
Proof.
  intros Hs Hids. destruct (hand_back_lookups now ids s) as (Hl & Hin & Hout). destruct (decide (i ∈ ids)) as [Hi|Hi].
  - assert (i ∈ h) as Hh by set_solver. destruct (adrift_nowhere k h s i Hs Hh) as (_ & Hls & _).
    destruct (phase_leased s h i (or_intror Hh)) as [Hhold Hp]. unfold allows. rewrite Hhold, Hp.
    rewrite (phase_waiting _ _ i 0); [|by rewrite Hl|set_solver|apply zero_level|auto].
    simpl. rewrite bool_decide_true by done. left.
  - apply redis_same_allowed; [done|done|]. split_and!; [by rewrite Hl|set_solver|auto].
Qed.

Lemma redis_sweep_allowed h now n s i : kept k h s → allows Sweep s h (reclaim_expired k now n s).2 h i.
Proof.
  intros Hs. unfold reclaim_expired, RECLAIM. case_decide; [apply redis_same_allowed; [done|by intros []|by split_and!]|].
  destruct (range_spec (leased k) now n s) as (_ & _ & Hexp & _).
  set (expired := zrangebyscore _ _ _ _) in *. cbn [snd]. fold (hand_back k now expired (zrem (leased k) expired s)).
  destruct (hand_back_lookups now expired (zrem (leased k) expired s)) as (Hl & Hin & Hout).
  destruct (decide (i ∈ expired)) as [Hi|Hi].
  - assert (is_Some (zset (leased k) s !! i)) as Hs1 by (destruct (Hexp i Hi) as (sc & -> & _); eauto).
    destruct (leased_running k h s i Hs Hs1) as (Hh & _). destruct (phase_leased s h i (or_introl Hs1)) as [_ Hp].
    unfold allows. rewrite Hp.
    rewrite (phase_waiting _ _ i 0); [|by rewrite Hl, lookup_zrem, decide_True|done|apply zero_level|auto].
    right. left.
  - apply redis_same_allowed; [done|by intros []|]. split_and!; [by rewrite Hl, lookup_zrem, decide_False|done|].
    intros l _. rewrite Hout by done. unfold k. by rewrite zset_zrem_ready.
Qed.

Lemma clear_allowed s i : allows Clear s ∅ (clear k s) ∅ i.
Proof.
  unfold allows. simpl. destruct (clear_kept k s i) as [Hh Hn Hl _|l _ Hin Hr _ _ _|_ _ Hl _|Hh _ _ _]; [|exfalso..].
  - rewrite phase_gone by done. destruct (redis_phase (s, ∅) i) as [[]|]; by left.
  - destruct (redis_clear_empties k s (ready k l)) as [E _]; [apply elem_of_app; left; by apply list_elem_of_fmap_2|].
    rewrite E in Hr. by destruct Hr.
  - destruct (redis_clear_empties k s (leased k)) as [E _]; [apply elem_of_app; right; left|]. rewrite E in Hl. by destruct Hl.
  - set_solver.
Qed.

Lemma redis_renew_allowed h now ids lease s i : allows Other s h (renew k now ids lease s).2 h i.
Proof.
  destruct (renew_lookups ns now ids lease s) as (H1 & _ & H3). apply redis_same_allowed; [done|by intros []|].
  split_and!; [apply H3|done|]. intros l _. by rewrite H1 by apply ready_leased.
Qed.

(** ** The contract *)

Lemma redis_allowed o s h s' h' i : kept k h s → acts k s h o s' h' → allows o s h s' h' i.
Proof.
  intros Hs []; eauto using redis_complete_allowed, redis_discard_allowed, redis_retry_allowed, let_go_allowed,
    hand_back_allowed, redis_sweep_allowed, redis_renew_allowed.
  - by eapply enqueue_allowed.
  - by apply claim_allowed.
  - subst h. apply clear_allowed.
Qed.

#[global] Instance redis_queue : LeaseQueue unit (server * gset Z).
Proof.
  split.
  - intros w o x y Hx. by apply acts_kept.
  - intros w o [s h] [s' h'] i. apply redis_allowed.
  - intros w ids [s h] [s' h'] i Hs Ha Hi. simpl in *. inversion Ha; subst. by apply claim_allowed.
Qed.

End Codec.
End RedisQueue.
