(* ===== verification/LeaseQueue.v ===== *)
(** * One contract, two backends

    Both backends keep the contract of a lease queue ([Contract]), and what follows from it for
    every run: a job that waits is not lost. *)

From S2P Require Import Prelude.
From S2P Require Import PgTable.
From S2P Require Import PgJobs.
From S2P Require Import PgReach.
From S2P Require Import PgExample.
From S2P Require Import Contract.
From S2P Require Import PgQueue.
From S2P Require Import Redis.
From S2P Require Import RedisSafety.
From S2P Require Import RedisKeys.
From S2P Require Import RedisQueue.
#[local] Open Scope Z_scope.
Import Contract.
Import PgQueue.
Import RedisQueue.

Module LeaseQueue.

(** C13. Both backends implement the lease queue. On Postgres every statement has a
    name in the contract, and from any reachable database it leaves each job in a
    phase the contract allows for that name: an enqueue brings exactly the ids it
    returns; a fetch leases exactly the waiting jobs it returns, to its worker; a
    report ends exactly the named leases its worker holds; a sweep or a retry never
    loses a job; only finished jobs are deleted. On Redis the same holds of every
    step of a client that enqueues under fresh ids, reports only on leases still out
    and clears only when no [abandon] is half done, from any server such clients
    leave; there a report deletes the job at once, and a lease belongs to whoever
    reports on it. *)
Theorem backends_refine {Pl : Table.Planner} {C : Redis.StoredCodec} {L : Redis.StoredCodecLaws C} :
  (∀ d d', Reach.step d d' → ∃ w o, pg_does w d o d') ∧
  (∀ w o d d' i, Reach.reachable d → pg_does w d o d' →
     pg_phase d' i ∈ allowed (Some Finished) o (pg_holds w d i) i (pg_phase d i)) ∧
  (∀ w ids d d' i, Reach.reachable d → pg_does w d (Lease ids) d' → i ∈ ids → pg_holds w d' i = true) ∧
  (∀ ns o s h s' h' i, RedisSafety.kept (Redis.Keys_new ns) h s → RedisSafety.acts (Redis.Keys_new ns) s h o s' h' →
     redis_phase ns (s', h') i ∈ allowed None o (redis_holds ns (s, h) i) i (redis_phase ns (s, h) i)) ∧
  (∀ ns ids s h s' h' i, RedisSafety.kept (Redis.Keys_new ns) h s →
     RedisSafety.acts (Redis.Keys_new ns) s h (Lease ids) s' h' → i ∈ ids → redis_holds ns (s', h') i = true).
Proof.
  split_and!.
  - apply step_does.
  - intros w o d d' i. apply pg_allowed.
  - intros w ids d d' i. exact (lease_held w ids d d' i).
  - intros ns o s h s' h' i. apply redis_allowed.
  - intros ns ids s h s' h' i. exact (lease_held (Store0 := redis_store ns) () ids (s, h) (s', h') i).
Qed.

(** No statement of the Postgres backend empties the table. *)
Lemma pg_never_clears {Pl : Table.Planner} d tr d' w : run d tr d' → (w, Clear) ∉ tr.
Proof.
  induction 1 as [|w' o d d1 tr d2 Hd _ IH]; [by intros ?%elem_of_nil|].
  intros [?|?]%elem_of_cons; [|done]. simplify_eq. inversion Hd.
Qed.

(** C14. A waiting job is not lost, on either backend, over any run of the steps of
    C13: if it is gone at the end, then on the way some operation leased it or called
    it off (a cancellation, or the cascade of a discard), and later, on Postgres, a
    deletion removed it once finished; on Redis, provided nobody cleared the store, a
    holder of its lease reported it completed or discarded. *)
Theorem no_job_vanishes {Pl : Table.Planner} {C : Redis.StoredCodec} {L : Redis.StoredCodecLaws C} :
  (∀ d tr d' i, Reach.reachable d → run d tr d' → pg_phase d i = Some Waiting → pg_phase d' i = None →
     farewell i d tr d') ∧
  (∀ ns s h tr s' h' i, RedisSafety.kept (Redis.Keys_new ns) h s →
     run (Store0 := redis_store ns) (s, h) tr (s', h') → ((), Clear) ∉ tr →
     redis_phase ns (s, h) i = Some Waiting → redis_phase ns (s', h') i = None →
     farewell (Store0 := redis_store ns) i (s, h) tr (s', h')).
Proof.
  split.
  - intros d tr d' i Hd Hrun. apply (waiting_not_lost (H := pg_queue) d tr d' i Hd Hrun). intros w. by eapply pg_never_clears.
  - intros ns s h tr s' h' i Hs Hrun Hc.
    apply (waiting_not_lost (H := redis_queue ns) (s, h) tr (s', h') i Hs Hrun). by intros [].
Qed.

(** ** On concrete stores *)

Lemma backends_refine_witness :
  pg_phase Example.enqueued3 5 = None ∧ pg_phase Example.enqueued 5 = Some Waiting ∧
  pg_phase Example.enqueued 5 ∈ allowed (Some Finished) (Enqueue [5]) false 5 None ∧
  redis_phase "shop" (RedisKeys.lapsed, ∅) 1 ∈ allowed None Sweep true 1 (Some Leased).
Proof.
  destruct (backends_refine (C := RedisKeys.demo_codec) (L := RedisKeys.demo_laws)) as (_ & Hpg & _ & Hredis & _).
  split; [vm_compute; reflexivity|]. split; [vm_compute; reflexivity|]. split.
  - apply (Hpg Example.alice (Enqueue [5]) Example.enqueued3 Example.enqueued 5).
    + apply Example.enqueued3_reachable.
    + apply (do_enqueue _ _ 100 Example.sync); vm_compute; reflexivity.
  - apply (Hredis "shop" Sweep RedisKeys.one_leased ∅ RedisKeys.lapsed ∅ 1).
    + apply RedisKeys.honest_sound, RedisKeys.one_leased_honest.
    + apply RedisSafety.reclaims.
Defined.

Lemma no_job_vanishes_witness :
  let done := (Redis.complete RedisKeys.shop [1] RedisKeys.one_leased).2 in
  let tr := [((), Lease [1]); ((), Complete [1])] in
  redis_phase "shop" (RedisKeys.one_job, ∅) 1 = Some Waiting ∧ redis_phase "shop" (done, ∅) 1 = None ∧
  farewell (Store0 := redis_store (C := RedisKeys.demo_codec) "shop") 1 (RedisKeys.one_job, ∅) tr (done, ∅).
Proof.
  intros done tr. assert (redis_phase "shop" (RedisKeys.one_job, ∅) 1 = Some Waiting) as H1 by (vm_compute; reflexivity).
  assert (redis_phase "shop" (done, ∅) 1 = None) as H2 by (vm_compute; reflexivity).
  split; [exact H1|]. split; [exact H2|].
  apply (proj2 (no_job_vanishes (C := RedisKeys.demo_codec) (L := RedisKeys.demo_laws))
    "shop" RedisKeys.one_job ∅ tr done ∅ 1).
  - apply RedisKeys.honest_sound, RedisKeys.one_job_honest.
  - apply run_cons with (RedisKeys.one_leased, ∅).
    + change [1] with (Redis.CLAIM RedisKeys.shop 200 1 300 RedisKeys.one_job).1. apply RedisSafety.leases.
    + apply run_cons with (done, ∅); [|constructor]. apply RedisSafety.completes.
      intros id ->%list_elem_of_singleton. vm_compute. eauto.
  - intros H. repeat (apply elem_of_cons in H as [H|H]; [discriminate H|]). by apply elem_of_nil in H.
  - exact H1.
  - exact H2.
Defined.

End LeaseQueue.
