(* ===== verification/Worker.v ===== *)
(** * The supervisor's own state

    The parts of [crates/gylo-worker/src/lib.rs] that do not touch Postgres:
    configuration and its validation, the jobs in flight, the restart policy,
    the completion buffer, and what is kept of a child's output. Durations are
    microseconds. *)

From S2P Require Import Prelude.
From S2P Require Import Utf8.
From S2P Require Import Capability.
From S2P Require Import Protocol.
Import Utf8.

Module Worker.

(** ** Constants *)

Definition ms (n : Z) : Z := n * 1000.
Definition secs (n : Z) : Z := n * 1000000.

Definition LINE_CAP : Z := 8 * 1024.
Definition RESTART_DELAY : Z := ms 250.
Definition RESTART_CEILING : Z := secs 30.
Definition HEALTHY_SESSION : Z := secs 30.
Definition TICK_BUDGET : Z := secs 5.
Definition LAST_WORDS : Z := 20.

(** ** Configuration *)

Record Config := {
  queues : list string;
  processes : Z;
  concurrency : Z;
  batch : Z;
  lease : Z;
  poll_interval : Z;
  completion_batch : Z;
  completion_linger : Z;
  maintenance_interval : Z;
  reclaim_limit : Z;
  retain_completed : Z;
  retain_discarded : Z;
  prune_batch : Z;
  retry_base : Z;
  retry_cap : Z;
  max_restarts : Z;
  cron_limit : Z;
  python : string;
  app : string;
  python_path : option string;
  env : list (string * string);
  requires : list Capability.Feature
}.

(** [Config::default], on a machine with [cores] if that can be told. *)
Definition Config_default (cores : option Z) : Config := {|
  queues := ["default"]; processes := default 1 cores; concurrency := 256; batch := 128;
  lease := secs 30; poll_interval := ms 200; completion_batch := 100; completion_linger := ms 5;
  maintenance_interval := secs 10; reclaim_limit := 1000; retain_completed := secs (24 * 3600);
  retain_discarded := secs (7 * 24 * 3600); prune_batch := 5000; retry_base := secs 1;
  retry_cap := secs 3600; max_restarts := 8; cron_limit := 100; python := "python3"; app := "";
  python_path := None; env := []; requires := [] |}.

(** Why a configuration is refused; each is one of the messages of [validate]. *)
Inductive invalid :=
| NoApp
| NoQueue
| NoProcesses
| NoConcurrency
| BatchTooSmall (batch : Z)
| MaintenanceTooSlow (interval lease : Z).

(** [Error]; what an operating system or database error says is a string. *)
Inductive Error :=
| Io (reported : string)
| Database (reported : string)
| ProtocolFailed (e : Protocol.ProtocolError)
| HandshakeTimeout (after : Z)
| ChildExited (reported : string)
| ConfigInvalid (reason : invalid)
| Unsupported (e : Capability.Unsupported).

Definition validate (c : Config) : result Error unit :=
  if decide (app c = "") then Err (ConfigInvalid NoApp)
  else if decide (queues c = []) then Err (ConfigInvalid NoQueue)
  else if processes c =? 0 then Err (ConfigInvalid NoProcesses)
  else if concurrency c =? 0 then Err (ConfigInvalid NoConcurrency)
  else if batch c <? 1 then Err (ConfigInvalid (BatchTooSmall (batch c)))
  else if lease c <=? maintenance_interval c
  then Err (ConfigInvalid (MaintenanceTooSlow (maintenance_interval c) (lease c)))
  else Ok tt.

(** The checks [run] makes before it starts anything. *)
Definition startup (c : Config) : result Error unit :=
  _ ← validate c;
  map_err Unsupported (Capability.require Capability.pg_capabilities (requires c)).

(** The rest of [run]: the first child to fail decides the outcome, and from
    then on the shared token is cancelled. [joined] lists the children in the
    order they end; [None] is one that panicked. *)
Definition joined_one {E} (acc : result E unit * bool) (j : option (result E unit))
  : result E unit * bool :=
  match acc, j with
  | (Ok _, _), Some (Err e) => (Err e, true)
  | _, _ => acc
  end.

Definition run_outcome {E} (joined : list (option (result E unit))) : result E unit * bool :=
  foldl joined_one (Ok tt, false) joined.

(** ** Jobs in flight *)

Record InFlight := { ids : gset Z; limit : Z }.

Definition InFlight_new (n : Z) : InFlight := {| ids := ∅; limit := n |}.
Definition held (f : InFlight) : Z := Z.of_nat (size (ids f)).
(** [limit.saturating_sub(held)]. *)
Definition available (f : InFlight) : Z := Z.max (limit f - held f) 0.
Definition is_idle (f : InFlight) : bool := held f =? 0.
(** The order a hash set iterates in is not specified; no caller depends on it. *)
Definition snapshot (f : InFlight) : list Z := elements (ids f).
Definition take (f : InFlight) : list Z * InFlight :=
  (elements (ids f), {| ids := ∅; limit := limit f |}).
Definition reserve (l : list Z) (f : InFlight) : InFlight :=
  {| ids := ids f ∪ list_to_set l; limit := limit f |}.

(** [release], with the notifications it sends: to those waiting for the drain,
    and to the dispatcher. *)
Record wakes := { wakes_drained : bool; wakes_freed : bool }.
Definition release (l : list Z) (f : InFlight) : InFlight * wakes :=
  if decide (l = []) then (f, {| wakes_drained := false; wakes_freed := false |}) else
  let f' := {| ids := ids f ∖ list_to_set l; limit := limit f |} in
  (f', {| wakes_drained := bool_decide (ids f' = ∅); wakes_freed := true |}).

(** ** Restarts *)

(** [RESTART_DELAY.saturating_mul(1 << (consecutive - 1).min(16)).min(RESTART_CEILING)]. *)
Definition backoff (consecutive : Z) : Z :=
  Z.min (RESTART_DELAY * Z.shiftl 1 (Z.min (consecutive - 1) 16)) RESTART_CEILING.

(** One turn of [supervise]'s loop, as the world decides it: whether shutdown
    was requested before the session or during the wait after it, how long the
    session lasted and how it ended. *)
Record turn := {
  stop_before : bool;
  elapsed : Z;
  ended : result Error unit;
  stop_during_backoff : bool
}.

Inductive next :=
| Finished (outcome : result Error unit)
| Restart (consecutive : Z) (wait : Z).

(** The loop's body: what happens after the turn, and whether the session's jobs
    were handed back. *)
Definition supervise_turn (max_restarts consecutive : Z) (t : turn) : next * bool :=
  if stop_before t then (Finished (Ok tt), false) else
  match ended t with
  | Ok _ => (Finished (Ok tt), false)
  | Err error =>
    let consecutive := (if HEALTHY_SESSION <=? elapsed t then 0 else consecutive) + 1 in
    if max_restarts <? consecutive then (Finished (Err error), true)
    else if stop_during_backoff t then (Finished (Ok tt), true)
    else (Restart consecutive (backoff consecutive), true)
  end.

(** The loop over the turns that occur: the waits it makes, and how it ends,
    [None] while it still runs. *)
Fixpoint supervise (max_restarts consecutive : Z) (turns : list turn)
  : list Z * option (result Error unit) :=
  match turns with
  | [] => ([], None)
  | t :: rest =>
    match (supervise_turn max_restarts consecutive t).1 with
    | Finished outcome => ([], Some outcome)
    | Restart consecutive' wait =>
      let '(waits, last) := supervise max_restarts consecutive' rest in (wait :: waits, last)
    end
  end.

(** ** The completion buffer *)

Record Pending := {
  p_completed : list Z;
  with_result : list Z;
  results : list (list byte);
  p_retry : list Z;
  retry_errors : list string;
  terminal : list Z;
  terminal_errors : list string
}.

Definition Pending_default : Pending := {|
  p_completed := []; with_result := []; results := []; p_retry := []; retry_errors := [];
  terminal := []; terminal_errors := [] |}.

Definition push (id : Z) (o : Protocol.Outcome) (p : Pending) : Pending :=
  match o with
  | Protocol.Success [] => {|
      p_completed := p_completed p ++ [id]; with_result := with_result p; results := results p;
      p_retry := p_retry p; retry_errors := retry_errors p; terminal := terminal p;
      terminal_errors := terminal_errors p |}
  | Protocol.Success result => {|
      p_completed := p_completed p; with_result := with_result p ++ [id];
      results := results p ++ [result]; p_retry := p_retry p; retry_errors := retry_errors p;
      terminal := terminal p; terminal_errors := terminal_errors p |}
  | Protocol.Failure error true => {|
      p_completed := p_completed p; with_result := with_result p; results := results p;
      p_retry := p_retry p ++ [id]; retry_errors := retry_errors p ++ [error];
      terminal := terminal p; terminal_errors := terminal_errors p |}
  | Protocol.Failure error false => {|
      p_completed := p_completed p; with_result := with_result p; results := results p;
      p_retry := p_retry p; retry_errors := retry_errors p; terminal := terminal p ++ [id];
      terminal_errors := terminal_errors p ++ [error] |}
  end.

Definition Pending_len (p : Pending) : Z :=
  len (p_completed p) + len (with_result p) + len (p_retry p) + len (terminal p).

(** The ids [flush] releases, in the order it gathers them. *)
Definition settled (p : Pending) : list Z :=
  p_completed p ++ with_result p ++ p_retry p ++ terminal p.

(** ** A child's last words *)

(** What [watch] carries from byte to byte, and the lines kept. *)
Record LastWords := { lines : list string; line : list byte; truncated : bool }.

Definition LastWords_default : LastWords := {| lines := []; line := []; truncated := false |}.

Definition emit (w : LastWords) : LastWords :=
  let rendered := from_utf8_lossy (line w) in
  let rendered := if truncated w then rendered +:+ " [truncated]" else rendered in
  let held := if len (lines w) =? LAST_WORDS then drop 1 (lines w) else lines w in
  {| lines := held ++ [rendered]; line := []; truncated := false |}.

Definition watch_byte (w : LastWords) (b : byte) : LastWords :=
  if decide (b = Byte.x0a) then emit w
  else if len (line w) <? LINE_CAP
  then {| lines := lines w; line := line w ++ [b]; truncated := truncated w |}
  else {| lines := lines w; line := line w; truncated := true |}.

(** [watch]: every chunk read, then what is left when the stream ends. *)
Definition watch (chunks : list (list byte)) (w : LastWords) : LastWords :=
  let w' := foldl (foldl watch_byte) w chunks in
  if decide (line w' = []) then w' else emit w'.

(** [.iter().rev().find(|line| !line.trim().is_empty() && !line.starts_with(' '))]. *)
Definition quotable (s : string) : bool := negb (trim_is_empty s) && negb (starts_with_space s).

Definition tail (w : LastWords) : string := default "" (List.find quotable (rev (lines w))).

(** [exited], given how the status or the error reads. *)
Definition exited (reported : string) (w : LastWords) : Error :=
  ChildExited (if decide (tail w = "") then reported else reported +:+ ": " +:+ tail w).

(** ** Facts and properties *)

(** A configuration starts a worker exactly when it names an app and a
    queue, asks for at least one process, one job in flight and one job per
    fetch, renews leases before they lapse, and wants nothing Postgres lacks,
    which is nothing. *)
Lemma startup_accepts c :
  startup c = Ok tt ↔
  app c ≠ "" ∧ queues c ≠ [] ∧ processes c ≠ 0 ∧ concurrency c ≠ 0 ∧ 1 <= batch c ∧
  maintenance_interval c < lease c.
Proof.
  unfold startup, validate.
  assert (Capability.require Capability.pg_capabilities (requires c) = Ok tt) as Hr.
  { apply Capability.require_supported, Forall_forall. by intros []. }
  repeat case_decide; simpl; [naive_solver..|].
  destruct (Z.eqb_spec (processes c) 0); simpl; [naive_solver|].
  destruct (Z.eqb_spec (concurrency c) 0); simpl; [naive_solver|].
  destruct (Z.ltb_spec (batch c) 1); simpl; [split; [done|lia]|].
  destruct (Z.leb_spec (lease c) (maintenance_interval c)); simpl; [split; [done|lia]|].
  rewrite Hr. simpl. naive_solver.
Qed.

Lemma backoff_bounds n : 1 <= n → RESTART_DELAY <= backoff n <= RESTART_CEILING.
Proof.
  intros Hn. unfold backoff. rewrite Z.shiftl_1_l.
  assert (0 < 2 ^ Z.min (n - 1) 16) by (apply Z.pow_pos_nonneg; lia).
  unfold RESTART_DELAY, RESTART_CEILING, ms, secs. lia.
Qed.

Lemma backoff_doubles n : 1 <= n → backoff (n + 1) = Z.min (2 * backoff n) RESTART_CEILING.
Proof.
  intros Hn. unfold backoff. rewrite !Z.shiftl_1_l.
  destruct (decide (n <= 16)) as [H|H].
  - replace (Z.min (n + 1 - 1) 16) with (Z.succ (Z.min (n - 1) 16)) by lia.
    rewrite Z.pow_succ_r by lia. unfold RESTART_DELAY, RESTART_CEILING, ms, secs. lia.
  - replace (Z.min (n + 1 - 1) 16) with 16 by lia. replace (Z.min (n - 1) 16) with 16 by lia.
    unfold RESTART_DELAY, RESTART_CEILING, ms, secs. lia.
Qed.

(** *** Restarts *)

Definition failed (t : turn) : Prop :=
  stop_before t = false ∧ stop_during_backoff t = false ∧ ∃ e, ended t = Err e.
Definition short (t : turn) : Prop := elapsed t < HEALTHY_SESSION.

(** The run of failures that makes the supervisor give up: [c] before, the rest
    at the head of [turns] or later after a session that stayed up. *)
Lemma gives_up m c turns waits e :
  0 <= c <= m → supervise m c turns = (waits, Some (Err e)) →
  ∃ pre crash post, turns = pre ++ crash ++ post ∧
    Forall (λ t, stop_before t = false ∧ ∃ e, ended t = Err e) crash ∧
    ((pre = [] ∧ Forall short crash ∧ c + len crash = m + 1) ∨
     (∃ t crash', crash = t :: crash' ∧ Forall short crash' ∧ len crash = m + 1)).
Proof.
  revert c waits. induction turns as [|t turns IH]; intros c waits Hc; [done|].
  simpl. unfold supervise_turn. destruct (stop_before t) eqn:Hb; [done|].
  destruct (ended t) as [|error] eqn:He; [done|].
  set (c' := (if HEALTHY_SESSION <=? elapsed t then 0 else c) + 1).
  assert (1 <= c' <= m + 1) as Hc' by (unfold c'; case_match; lia).
  destruct (Z.ltb_spec m c') as [Hm|Hm]; simpl.
  - intros ?. exists [], [t], turns. split; [done|]. split; [constructor; [eauto|constructor]|].
    rewrite len_cons, len_nil.
    destruct (Z.leb_spec HEALTHY_SESSION (elapsed t)) as [Hl|Hl].
    + right. exists t, []. split_and!; [done|constructor|]. unfold c' in Hm. lia.
    + left. split_and!; [done|by repeat constructor|]. unfold c' in *. lia.
  - destruct (stop_during_backoff t); [done|]. simpl.
    destruct (supervise m c' turns) as [ws last] eqn:Es. intros ?; simplify_eq.
    destruct (IH c' ws) as (pre & crash & post & -> & Hf & Hor); [lia|done|].
    destruct Hor as [(-> & Hsh & Hlen)|Hright].
    + destruct (Z.leb_spec HEALTHY_SESSION (elapsed t)) as [Hl|Hl]; unfold c' in *.
      * exists [], (t :: crash), post. split_and!; [done|constructor; eauto|].
        right. exists t, crash. rewrite len_cons. split_and!; [done|done|lia].
      * exists [], (t :: crash), post. split_and!; [done|constructor; eauto|].
        left. rewrite len_cons. split_and!; [done|by constructor|lia].
    + exists (t :: pre), crash, post. split_and!; [done|done|by right].
Qed.

Lemma supervise_waits m c turns :
  0 <= c <= m → Forall (λ w, RESTART_DELAY <= w <= RESTART_CEILING) (supervise m c turns).1.
Proof.
  revert c. induction turns as [|t turns IH]; intros c Hc; [constructor|].
  simpl. unfold supervise_turn. destruct (stop_before t); [constructor|].
  destruct (ended t); [constructor|].
  set (c' := (if HEALTHY_SESSION <=? elapsed t then 0 else c) + 1).
  assert (1 <= c') as Hc' by (unfold c'; case_match; lia).
  destruct (Z.ltb_spec m c'); [constructor|]. destruct (stop_during_backoff t); [constructor|]. simpl.
  specialize (IH c'). destruct (supervise m c' turns). simpl in *.
  constructor; [by apply backoff_bounds|]. apply IH. lia.
Qed.

Lemma supervise_crashes m c crash :
  0 <= c <= m → Forall (λ t, failed t ∧ short t) crash → c + len crash = m + 1 →
  ∃ e, supervise m c crash = (backoff <$> seqZ (c + 1) (m - c), Some (Err e)).
Proof.
  intros Hc Hf. revert c Hc. induction Hf as [|t crash [(Hb & Hw & e & He) Hs] Hf IH]; intros c Hc Hlen.
  { rewrite len_nil in Hlen. lia. }
  simpl. unfold supervise_turn. rewrite Hb, He, Hw. rewrite len_cons in Hlen.
  unfold short in Hs. destruct (Z.leb_spec HEALTHY_SESSION (elapsed t)); [lia|].
  destruct (Z.ltb_spec m (c + 1)); simpl.
  - exists e. replace (m - c) with 0 by lia. done.
  - destruct (IH (c + 1)) as [e' ->]; [lia..|]. exists e'.
    rewrite (seqZ_cons (c + 1)) by lia. simpl.
    by replace (Z.pred (m - c)) with (m - (c + 1)) by lia.
Qed.

(** The waits of consecutive restarts. *)
Lemma backoff_powers m : backoff <$> seqZ 1 m = (λ k, Z.min (ms 250 * 2 ^ k) (secs 30)) <$> seqZ 0 m.
Proof.
  change (seqZ 1 m) with (seqZ (1 + 0) m). rewrite <- fmap_add_seqZ, <- list_fmap_compose.
  apply list_fmap_ext. intros i x Hx. apply lookup_seqZ in Hx as [-> _]. rewrite Z.add_0_l. simpl.
  pose proof (Nat2Z.is_nonneg i) as Hk. revert Hk. generalize (Z.of_nat i). intros k Hk.
  pattern k. apply natlike_ind; [done| |done]. clear k Hk. intros k Hk IH. replace (1 + Z.succ k) with (1 + k + 1) by lia.
  rewrite backoff_doubles, IH, Z.pow_succ_r by lia. generalize (2 ^ k). unfold RESTART_CEILING, ms, secs. lia.
Qed.

(** C38. The restart policy: every wait is between 250ms and 30s; a child that
    fails at once every time is restarted [max_restarts] times, the waits being 250ms
    doubled at each restart up to 30s, and then given up on; and the worker gives up only
    after that many failures on end, none of them, but for the first, of a
    session that stayed up. *)
Theorem restart_policy m turns :
  0 <= m →
  Forall (λ w, ms 250 <= w <= secs 30) (supervise m 0 turns).1 ∧
  (Forall (λ t, failed t ∧ short t) turns → len turns = m + 1 →
     ∃ e, supervise m 0 turns = ((λ k, Z.min (ms 250 * 2 ^ k) (secs 30)) <$> seqZ 0 m, Some (Err e))) ∧
  (∀ e, (supervise m 0 turns).2 = Some (Err e) →
     ∃ pre t crash post, turns = pre ++ (t :: crash) ++ post ∧ len (t :: crash) = m + 1 ∧
       Forall (λ t, ∃ e, ended t = Err e) (t :: crash) ∧ Forall short crash).
Proof.
  intros Hm. split_and!.
  - by apply supervise_waits.
  - intros Hf Hlen. destruct (supervise_crashes m 0 turns) as [e He]; [lia|done|lia|].
    exists e. by rewrite Z.sub_0_r, backoff_powers in He.
  - intros e He. destruct (supervise m 0 turns) as [ws last] eqn:E. simpl in He. subst last.
    destruct (gives_up m 0 turns ws e) as (pre & crash & post & -> & Hf & Hor); [lia|done|].
    assert (∃ t crash', crash = t :: crash' ∧ Forall short crash' ∧ len crash = m + 1) as (t & c & -> & Hs & Hlen).
    { destruct Hor as [(_ & Hs & Hlen)|?]; [|done]. destruct crash as [|t c]; [unfold len in Hlen; simpl in Hlen; lia|].
      exists t, c. apply Forall_cons in Hs as [_ Hs]. split_and!; [done|done|lia]. }
    exists pre, t, c, post. split_and!; [done|done| |done].
    eapply Forall_impl; [exact Hf|]. naive_solver.
Qed.

(** *** The completion buffer *)

Definition push_all (reports : list (Z * Protocol.Outcome)) (p : Pending) : Pending :=
  foldl (λ p r, push r.1 r.2 p) p reports.

(** The reports of each kind, in the order they came. *)
Definition plain (r : Z * Protocol.Outcome) : option Z :=
  match r.2 with Protocol.Success [] => Some r.1 | _ => None end.
Definition valued (r : Z * Protocol.Outcome) : option (Z * list byte) :=
  match r.2 with Protocol.Success (b :: bs) => Some (r.1, b :: bs) | _ => None end.
Definition retryable (r : Z * Protocol.Outcome) : option (Z * string) :=
  match r.2 with Protocol.Failure e true => Some (r.1, e) | _ => None end.
Definition final (r : Z * Protocol.Outcome) : option (Z * string) :=
  match r.2 with Protocol.Failure e false => Some (r.1, e) | _ => None end.

(** What the buffer holds is what was pushed, sorted by kind. *)
Record sorted (reports : list (Z * Protocol.Outcome)) (p : Pending) : Prop := {
  sorted_plain : p_completed p = omap plain reports;
  sorted_ids : with_result p = (omap valued reports).*1;
  sorted_results : results p = (omap valued reports).*2;
  sorted_retry : p_retry p = (omap retryable reports).*1;
  sorted_retry_errors : retry_errors p = (omap retryable reports).*2;
  sorted_terminal : terminal p = (omap final reports).*1;
  sorted_terminal_errors : terminal_errors p = (omap final reports).*2
}.

Lemma push_sorted reports p r : sorted reports p → sorted (reports ++ [r]) (push r.1 r.2 p).
Proof.
  intros []. destruct r as [i [[|b bs]|e []]]; constructor; simpl;
    rewrite omap_app, ?fmap_app; simpl; rewrite ?app_nil_r; congruence.
Qed.

Lemma push_all_sorted reports : sorted reports (push_all reports Pending_default).
Proof.
  induction reports as [|r reports IH] using rev_ind; [by constructor|].
  unfold push_all. rewrite foldl_app. by apply push_sorted.
Qed.

Lemma settled_perm reports p : sorted reports p → settled p ≡ₚ reports.*1.
Proof.
  intros [H1 H2 _ H3 _ H4 _]. unfold settled. rewrite H1, H2, H3, H4. clear.
  induction reports as [|[i o] reports IH]; [done|].
  destruct o as [[|b bs]|e []]; simpl; rewrite <- IH; by rewrite <- ?Permutation_middle.
Qed.

Lemma Pending_len_nil p :
  Pending_len p = 0 → p_completed p = [] ∧ with_result p = [] ∧ p_retry p = [] ∧ terminal p = [].
Proof.
  unfold Pending_len, len. intros H. split_and!; apply length_zero_iff_nil; lia.
Qed.

Lemma push_all_len reports : Pending_len (push_all reports Pending_default) = len reports.
Proof.
  pose proof (settled_perm _ _ (push_all_sorted reports)) as Hp.
  unfold Pending_len, len. rewrite <- (length_fmap fst reports), <- Hp. unfold settled. rewrite !length_app. lia.
Qed.

(** The completion buffer sorts reports without losing or mixing any: each
    kind is kept in order, every result and error stays beside the id it was
    reported for, and what a flush settles and counts is exactly what was
    pushed. *)
Lemma pending_faithful reports :
  let p := push_all reports Pending_default in
  p_completed p = omap plain reports ∧
  zip (with_result p) (results p) = omap valued reports ∧ length (with_result p) = length (results p) ∧
  zip (p_retry p) (retry_errors p) = omap retryable reports ∧ length (p_retry p) = length (retry_errors p) ∧
  zip (terminal p) (terminal_errors p) = omap final reports ∧
  length (terminal p) = length (terminal_errors p) ∧
  settled p ≡ₚ reports.*1 ∧ Pending_len p = len reports.
Proof.
  simpl. pose proof (push_all_sorted reports) as Hs. pose proof (settled_perm _ _ Hs) as Hp.
  destruct Hs as [H1 H2 H3 H4 H5 H6 H7].
  split_and!; try done; rewrite ?H2, ?H3, ?H4, ?H5, ?H6, ?H7, ?length_fmap; try done; try apply zip_fst_snd.
  apply push_all_len.
Qed.

(** *** Last words *)

(** The lines of a child's output: split at newlines, with what follows the last
    one if it is not empty. [cur] is the line being read. *)
Fixpoint raw_lines (cur bs : list byte) : list (list byte) :=
  match bs with
  | [] => if decide (cur = []) then [] else [cur]
  | b :: bs' => if decide (b = Byte.x0a) then cur :: raw_lines [] bs' else raw_lines (cur ++ [b]) bs'
  end.

Definition render (raw : list byte) : string :=
  let text := from_utf8_lossy (firstn (Z.to_nat LINE_CAP) raw) in
  if LINE_CAP <? len raw then text +:+ " [truncated]" else text.

Definition last_n {A} (n : Z) (l : list A) : list A := drop (length l - Z.to_nat n) l.

(** The state after the lines [before] and the start [cur] of another. *)
Definition heard (before : list (list byte)) (cur : list byte) (w : LastWords) : Prop :=
  lines w = last_n LAST_WORDS (render <$> before) ∧
  line w = firstn (Z.to_nat LINE_CAP) cur ∧ truncated w = (LINE_CAP <? len cur).

Lemma last_n_snoc {A} (l : list A) x :
  (if len (last_n LAST_WORDS l) =? LAST_WORDS then drop 1 (last_n LAST_WORDS l) else last_n LAST_WORDS l) ++ [x] =
  last_n LAST_WORDS (l ++ [x]).
Proof.
  unfold last_n, len, LAST_WORDS. rewrite length_drop, length_app. simpl length.
  destruct (Z.eqb_spec (Z.of_nat (length l - (length l - Z.to_nat 20))) 20).
  - rewrite drop_drop. rewrite drop_app_le by lia. f_equal. f_equal. lia.
  - rewrite drop_app_le by lia. f_equal. f_equal. lia.
Qed.

Lemma emit_heard before cur w : heard before cur w → heard (before ++ [cur]) [] (emit w).
Proof.
  intros (Hl & Hc & Ht). unfold heard, emit; simpl. rewrite Hl, Hc, Ht, fmap_app. split_and!; [|done|done].
  rewrite last_n_snoc. done.
Qed.

Lemma watch_byte_heard before cur w b :
  heard before cur w → b ≠ Byte.x0a → heard before (cur ++ [b]) (watch_byte w b).
Proof.
  intros (Hl & Hc & Ht) Hb. unfold watch_byte. rewrite decide_False by done. rewrite Hc.
  pose proof (len_nonneg cur). unfold heard, len in *. rewrite length_take, length_app.
  assert (0 <= LINE_CAP) by done. simpl length. destruct (Z.ltb_spec (Z.of_nat (Z.to_nat LINE_CAP `min` length cur)) LINE_CAP).
  - simpl. rewrite Ht. split_and!; [done| |].
    + rewrite !(take_ge _ (Z.to_nat LINE_CAP)); [done|rewrite length_app; simpl; lia|lia].
    + transitivity false; [|symmetry]; apply Z.ltb_ge; lia.
  - simpl. split_and!; [done| |].
    + by rewrite take_app_le by lia.
    + symmetry. apply Z.ltb_lt. lia.
Qed.

Lemma watch_bytes bs before cur w :
  heard before cur w →
  let w' := foldl watch_byte w bs in
  lines (if decide (line w' = []) then w' else emit w') =
  last_n LAST_WORDS (render <$> (before ++ raw_lines cur bs)).
Proof.
  revert before cur w. induction bs as [|b bs IH]; intros before cur w Hw; simpl.
  - pose proof Hw as (Hl & Hc & Ht). destruct (decide (cur = [])) as [->|Hne].
    + rewrite decide_True by done. by rewrite app_nil_r.
    + rewrite decide_False.
      * by apply emit_heard in Hw as (-> & _).
      * rewrite Hc. destruct cur; [done|]. done.
  - destruct (decide (b = Byte.x0a)) as [->|Hb].
    + rewrite cons_middle, app_assoc. apply IH. change (watch_byte w Byte.x0a) with (emit w). by apply emit_heard.
    + apply IH. by apply watch_byte_heard.
Qed.

Lemma foldl_concat {A B} (f : A → B → A) (l : list (list B)) a : foldl (foldl f) a l = foldl f a (concat l).
Proof. revert a. induction l as [|x l IH]; intros a; simpl; [done|]. by rewrite foldl_app, IH. Qed.

Lemma find_last {A} (q : A → bool) (l : list A) :
  match List.find q (rev l) with
  | Some x => ∃ pre post, l = pre ++ x :: post ∧ q x = true ∧ Forall (λ y, q y = false) post
  | None => Forall (λ y, q y = false) l
  end.
Proof.
  induction l as [|x l IH] using rev_ind; [constructor|]. rewrite rev_app_distr. simpl.
  destruct (q x) eqn:E.
  - exists l, []. done.
  - destruct (List.find q (rev l)) as [y|].
    + destruct IH as (pre & post & -> & Hy & Hp). exists pre, (post ++ [x]).
      rewrite <- app_assoc. simpl. split_and!; [done|done|]. apply Forall_app. auto.
    + apply Forall_app. auto.
Qed.

(** However a child's output is cut into reads, exactly its last twenty
    lines are kept, each cut at 8 KiB and marked when cut, so memory stays
    bounded; and the cause quoted is the last kept line that is neither blank
    nor indented. *)
Lemma last_words_kept chunks :
  let w := watch chunks LastWords_default in
  lines w = last_n LAST_WORDS (render <$> raw_lines [] (concat chunks)) ∧
  len (lines w) <= LAST_WORDS ∧
  Forall (λ s, len (as_bytes s) <= 3 * LINE_CAP + 12) (lines w) ∧
  (Forall (λ s, quotable s = false) (lines w) ∧ tail w = "" ∨
   ∃ pre post, lines w = pre ++ tail w :: post ∧ quotable (tail w) = true ∧
     Forall (λ s, quotable s = false) post).
Proof.
  intros w.
  assert (lines w = last_n LAST_WORDS (render <$> raw_lines [] (concat chunks))) as Hl.
  { unfold w, watch. rewrite foldl_concat. apply (watch_bytes (concat chunks) []). done. }
  split_and!; [done|..].
  - rewrite Hl. unfold last_n, len, LAST_WORDS. rewrite length_drop. lia.
  - rewrite Hl. apply Forall_forall. intros s Hs. unfold last_n in Hs.
    assert (s ∈ render <$> raw_lines [] (concat chunks)) as Hin.
    { erewrite <- (take_drop _ (render <$> _)). apply elem_of_app. right. exact Hs. }
    apply list_elem_of_fmap in Hin as (raw & -> & _). unfold render.
    pose proof (lossy_len (firstn (Z.to_nat LINE_CAP) raw)) as Hlen.
    assert (len (firstn (Z.to_nat LINE_CAP) raw) <= LINE_CAP).
    { unfold len. rewrite length_take. change LINE_CAP with 8192. lia. }
    case_match; [rewrite as_bytes_app, len_app; change (len (as_bytes " [truncated]")) with 12|]; lia.
  - unfold tail. pose proof (find_last quotable (lines w)) as Hf.
    destruct (List.find quotable (rev (lines w))); [right; exact Hf|left; done].
Qed.

Lemma restart_policy_witness :
  ∃ e, supervise 3 0 (replicate 4 {| stop_before := false; elapsed := 0; ended := Err (ChildExited "exit 1");
                                     stop_during_backoff := false |}) =
    ([250000; 500000; 1000000], Some (Err e)).
Proof.
  destruct (restart_policy 3 (replicate 4 {| stop_before := false; elapsed := 0; ended := Err (ChildExited "exit 1");
    stop_during_backoff := false |})) as (_ & H & _).
  - lia.
  - destruct H as [e He].
    + repeat constructor; simpl; eauto.
    + reflexivity.
    + exists e. rewrite He. reflexivity.
Defined.

End Worker.
