(* ===== verification/WorkerLoop.v ===== *)
(** * The supervisor's loops

    The parts of [crates/gylo-worker/src/lib.rs] that drive Postgres and the
    child: flushing completions, handing back a dead session's jobs, a round of
    dispatch, the completion reader as an event machine, registering and firing
    schedules, and the maintenance ticks. Each is the body of its loop; what the
    tasks around it do meanwhile is a [moment] of each database call. *)

From S2P Require Import Prelude.
From S2P Require Import Core.
From S2P Require Import Protocol.
From S2P Require Import Schedule.
From S2P Require Import PgTable.
From S2P Require Import PgJobs.
From S2P Require Import PgCron.
From S2P Require Import PgRetention.
From S2P Require Import Worker.
From stdpp Require Import pretty.
#[local] Open Scope Z_scope.
Import Table.
Import Jobs.
Import Cron.
Import Retention.

Module WorkerLoop.

(** ** Calls *)

(** One database call as the world decides it: the turn it takes, the random
    draws it makes and the time on the worker's own clock. *)
Record moment := { around :> turn; draw : Z → Z; local_time : Z }.

Definition call {A} (m : moment) (statement : db → Prelude.result db_error (A * db)) (d : db)
  : Prelude.result db_error A * db :=
  deliver (link m) statement (others m d).

(** The moments of a task's calls, in order. *)
Definition world : Type := nat → moment.
Definition later (k : nat) (w : world) : world := λ n, w (k + n)%nat.

(** The text of a [ProtocolError]. *)
Definition hex_digit (n : Z) : string :=
  default "?" (["0"; "1"; "2"; "3"; "4"; "5"; "6"; "7"; "8"; "9"; "a"; "b"; "c"; "d"; "e"; "f"] !! Z.to_nat n).

Definition hex_byte (b : byte) : string :=
  "0x" +:+ hex_digit (Z.shiftr (byte.unsigned b) 4) +:+ hex_digit (Z.land (byte.unsigned b) 15).

Definition describe (e : Protocol.ProtocolError) : string :=
  match e with
  | Protocol.FrameTooLarge n =>
    "frame body of " +:+ pretty n +:+ " bytes exceeds the " +:+ pretty Protocol.MAX_FRAME_BYTES +:+ " byte limit"
  | Protocol.Truncated => "frame body is truncated"
  | Protocol.UnknownKind b => "unknown message kind " +:+ hex_byte b
  | Protocol.UnknownOutcome b => "unknown outcome " +:+ hex_byte b
  | Protocol.NotUtf8 what => what +:+ " is not valid utf-8"
  | Protocol.TaskNameTooLong n => "task name of " +:+ pretty n +:+ " bytes exceeds the 65535 byte limit"
  | Protocol.Malformed reason => "messagepack body is malformed: " +:+ reason
  end.

Section Loops.
Context {Pl : Planner} {R : Protocol.RmpSerde} {C : Schedule.CronCrate}.

(** ** Flushing completions *)

(** [Pending::flush]: the four statements, then the buffer is cleared and its
    jobs released, whether the statements went through or not. *)
Definition flush (w : world) (c : Worker.Config) (worker : uuid)
    (p : Worker.Pending) (f : Worker.InFlight) (d : db) : Worker.Pending * Worker.InFlight * db :=
  if Worker.Pending_len p =? 0 then (p, f, d) else
  let d := (call (w 0%nat) (complete_many (at_time (w 0%nat)) (Worker.p_completed p) worker) d).2 in
  let d := (call (w 1%nat) (complete_many_with_results (at_time (w 1%nat)) (Worker.with_result p)
                              (Worker.results p) worker) d).2 in
  let d := (call (w 2%nat) (retry_many (at_time (w 2%nat)) (draw (w 2%nat)) (Worker.p_retry p)
                              (Worker.retry_errors p) worker (Worker.retry_base c) (Worker.retry_cap c)) d).2 in
  let d := (call (w 3%nat) (discard_many (at_time (w 3%nat)) (Worker.terminal p)
                              (Worker.terminal_errors p) worker) d).2 in
  (Worker.Pending_default, (Worker.release (Worker.settled p) f).1, d).

(** ** Handing back *)

Definition hand_back (w : world) (c : Worker.Config) (worker : uuid) (f : Worker.InFlight) (d : db)
  : Worker.InFlight * db :=
  let '(held, f') := Worker.take f in
  if decide (held = []) then (f', d) else
  match call (w 0%nat) (abandon_leases (at_time (w 0%nat)) held worker) d with
  | (Err _, d1) => (f', d1)
  | (Ok _, d1) => (f', (call (w 1%nat) (reclaim_expired (at_time (w 1%nat)) (Worker.reclaim_limit c)) d1).2)
  end.

(** ** Dispatch *)

(** [forward_ack]: an acknowledgement that cannot be encoded is dropped. *)
Definition forward_ack (ack : Protocol.Message) : list byte :=
  match Protocol.encode ack [] with (Ok _, buf) => buf | (Err _, _) => [] end.

Definition dispatch_message (j : Job) : Protocol.Message :=
  Protocol.Dispatch (job_id j) (job_attempt j) (job_max_attempts j) (job_task j) (job_payload j).

(** The steps sent ahead of a durable job's retry; none when they cannot be read. *)
Definition prior_steps (m : moment) (j : Job) (d : db) : list (string * list byte) * db :=
  if job_durable j && (1 <? job_attempt j) then
    match call m (λ d, Ok (steps_for (job_id j) d, d)) d with
    | (Ok steps, d) => (steps, d)
    | (Err _, d) => ([], d)
    end
  else ([], d).

(** One job of a leased batch: appended to the buffer and reserved, or discarded
    when it cannot be encoded. *)
Definition dispatch_job (worker : uuid) (acc : list byte * list Z * db) (jm : Job * world)
  : list byte * list Z * db :=
  let '(buf, reserved, d) := acc in
  let '(j, w) := jm in
  let '(steps, d) := prior_steps (w 0%nat) j d in
  let buf := if decide (steps = []) then buf
             else (Protocol.encode (Protocol.Steps (job_id j) steps) buf).2 in
  match Protocol.encode (dispatch_message j) buf with
  | (Ok _, buf) => (buf, reserved ++ [job_id j], d)
  | (Err e, buf) =>
    (buf, reserved, (call (w 1%nat) (discard_many (at_time (w 1%nat)) [job_id j] [describe e] worker) d).2)
  end.

(** The loop over a batch; each job has two moments. *)
Definition dispatch_batch (w : world) (worker : uuid) (jobs : list Job) (d : db)
  : list byte * list Z * db :=
  foldl (dispatch_job worker) ([], [], d) (imap (λ k j, (j, later (2 * k) w)) jobs).

(** What the loop does next. *)
Inductive after_round := WaitForRoom | RetryLater | WaitForWork | Sent (bytes : list byte).

(** One round of [dispatch] past the acknowledgements: lease what there is room
    for and write it to the child. *)
Definition dispatch_round (w : world) (c : Worker.Config) (worker : uuid) (f : Worker.InFlight) (d : db)
  : after_round * Worker.InFlight * db :=
  let available := Worker.available f in
  if available =? 0 then (WaitForRoom, f, d) else
  let limit := Z.min (Worker.batch c) available in
  match fetch (w 0%nat) (w 1%nat) (w 2%nat) (Worker.queues c) limit (Worker.lease c) worker d with
  | (Err _, d') => (RetryLater, f, d')
  | (Ok [], d') => (WaitForWork, f, d')
  | (Ok jobs, d') =>
    let '(buf, reserved, d'') := dispatch_batch (later 3 w) worker jobs d' in
    if decide (reserved = []) then (Sent [], f, d'')
    else (Sent buf, Worker.reserve reserved f, d'')
  end.

(** ** Schedules *)

Definition register_one (now : Z) (d : db) (em : Protocol.CronRegistration * moment) : db :=
  let '(e, m) := em in
  match Schedule.parse (Protocol.cr_expression e) (Protocol.cr_timezone e) with
  | Err _ => d
  | Ok schedule =>
    match Schedule.next_after schedule now with
    | Err _ => d
    | Ok next =>
      let record := {| ce_name := Protocol.cr_name e; ce_queue := Protocol.cr_queue e;
        ce_task := Protocol.cr_task e; ce_payload := Protocol.cr_payload e;
        ce_expression := Protocol.cr_expression e; ce_timezone := Protocol.cr_timezone e |} in
      (call m (λ d, Ok (tt, upsert_cron (at_time m) record next d)) d).2
    end
  end.

(** [register_schedules]: [now] is read once, before the first entry. *)
Definition register_schedules (w : world) (entries : list Protocol.CronRegistration) (d : db) : db :=
  foldl (register_one (local_time (w 0%nat))) d (imap (λ k e, (e, w k)) entries).

Definition fire_one (now : Z) (d : db) (em : DueCron * moment) : db :=
  let '(e, m) := em in
  match (schedule ← Schedule.parse (dc_expression e) (dc_timezone e); Schedule.next_after schedule now) with
  | Err _ => d
  | Ok next => (call m (fire_cron (at_time m) (dc_name e) next) d).2
  end.

(** [fire_due_schedules]: [now] is read once the due schedules are known. *)
Definition fire_due_schedules (w : world) (limit : Z) (d : db) : db :=
  match call (w 0%nat) (λ d, due ← due_cron (at_time (w 0%nat)) limit d; Ok (due, d)) d with
  | (Err _, d1) => d1
  | (Ok due, d1) => foldl (fire_one (local_time (w 1%nat))) d1 (imap (λ k e, (e, w (S k))) due)
  end.

(** ** Maintenance ticks *)

(** A tick of [renew]. *)
Definition renew_tick (m : moment) (c : Worker.Config) (worker : uuid) (f : Worker.InFlight) (d : db) : db :=
  let held := Worker.snapshot f in
  if decide (held = []) then d
  else (call m (renew_leases (at_time m) held worker (Worker.lease c)) d).2.

(** A tick of [recover]; the depths it samples only feed gauges. [m] is the
    moment of the sweep. *)
Definition recover_tick (w : world) (m : moment) (c : Worker.Config) (d : db) : db :=
  (call m (reclaim_expired (at_time m) (Worker.reclaim_limit c)) (fire_due_schedules w (Worker.cron_limit c) d)).2.

(** The inner loop of [retain]: batches until one comes back short, a statement
    fails or the tick's budget is spent. [fuel] bounds the batches; [None] is
    fuel run out. *)
Fixpoint prune_batches (fuel : nat) (w : world) (started older n removed : Z) (d : db)
  : option (Z * world * db) :=
  match fuel with
  | O => None
  | S fuel' =>
    let m := w 0%nat in
    match call m (prune_completed (at_time m) (locked_rows m) older None n) d with
    | (Err _, d') => Some (removed, later 1 w, d')
    | (Ok batch, d') =>
      if (batch <? n mod 2 ^ 64) || (Worker.TICK_BUDGET <? local_time (w 1%nat) - started)
      then Some (removed + batch, later 1 w, d')
      else prune_batches fuel' (later 1 w) started older n (removed + batch) d'
    end
  end.

(** A tick of [retain]. *)
Definition retain_tick (fuel : nat) (w : world) (c : Worker.Config) (d : db) : option (Z * db) :=
  let started := local_time (w 0%nat) in
  '(removed, w, d) ← prune_batches fuel w started (Worker.retain_completed c) (Worker.prune_batch c) 0 d;
  let '(removed, d) :=
    if local_time (w 0%nat) - started <=? Worker.TICK_BUDGET then
      match call (w 0%nat) (prune_discarded (at_time (w 0%nat)) (locked_rows (w 0%nat))
                              (Worker.retain_discarded c) None (Worker.prune_batch c)) d with
      | (Ok count, d) => (removed + count, d)
      | (Err _, d) => (removed, d)
      end
    else (removed, d) in
  Some (removed, if 0 <? removed then (call (w 1%nat) (λ d, Ok (prune_workflows d)) d).2 else d).

(** ** The completion reader *)

(** [ticks] counts what the task has done, and so tells its next moment. *)
Record reader := {
  decoder : Protocol.Decoder;
  pending : Worker.Pending;
  deadline : option Z;
  inflight : Worker.InFlight;
  store : db;
  acks : list Protocol.Message;
  ticks : nat
}.

Definition reader_new (f : Worker.InFlight) (d : db) : reader := {|
  decoder := Protocol.new; pending := Worker.Pending_default; deadline := None; inflight := f;
  store := d; acks := []; ticks := 0 |}.

(** What handling one decoded message does. *)
Definition handle (w : world) (c : Worker.Config) (r : reader) (msg : Protocol.Message) : reader :=
  let m := w (ticks r) in
  match msg with
  | Protocol.Complete id outcome => {|
      decoder := decoder r; pending := Worker.push id outcome (pending r);
      deadline := match deadline r with
                  | None => Some (local_time m + Worker.completion_linger c)
                  | Some at_ => Some at_
                  end;
      inflight := inflight r; store := store r; acks := acks r; ticks := S (ticks r) |}
  | Protocol.Register entries => {|
      decoder := decoder r; pending := pending r; deadline := deadline r; inflight := inflight r;
      store := register_schedules (later (ticks r) w) entries (store r); acks := acks r;
      ticks := S (ticks r + length entries) |}
  | Protocol.Record_ id name result =>
    let '(outcome, d) :=
      call m (λ d, d' ← record_step (at_time m) id name result d; Ok (tt, d')) (store r) in
    {| decoder := decoder r; pending := pending r; deadline := deadline r; inflight := inflight r;
       store := d;
       acks := match outcome with
               | Ok _ => acks r ++ [Protocol.Stored id name]
               | Err _ => acks r
               end;
       ticks := S (ticks r) |}
  | Protocol.Steps _ _ | Protocol.Stored _ _ | Protocol.Dispatch _ _ _ _ _ => r
  end.

(** What the reader wakes up to; [Closed] is the end of the stream or an error
    reading it. *)
Inductive event :=
| Chunk (bytes : list byte)
| Closed
| Timer.

Definition flush_reader (w : world) (c : Worker.Config) (worker : uuid) (r : reader) : reader :=
  let '(p, f, d) := flush (later (ticks r) w) c worker (pending r) (inflight r) (store r) in
  {| decoder := decoder r; pending := p; deadline := deadline r; inflight := f; store := d;
     acks := acks r; ticks := 4 + ticks r |}.

Definition clear_deadline (r : reader) : reader := {|
  decoder := decoder r; pending := pending r; deadline := None; inflight := inflight r;
  store := store r; acks := acks r; ticks := ticks r |}.
Definition set_decoder (d : Protocol.Decoder) (r : reader) : reader := {|
  decoder := d; pending := pending r; deadline := deadline r; inflight := inflight r;
  store := store r; acks := acks r; ticks := ticks r |}.

(** One turn of [collect_completions]'s loop, and whether the loop goes on. *)
Definition collect (w : world) (c : Worker.Config) (worker : uuid) (e : event) (r : reader) : bool * reader :=
  match e with
  | Closed => (false, flush_reader w c worker r)
  | Timer => (true, clear_deadline (flush_reader w c worker r))
  | Chunk bytes =>
    let '(msgs, stop, dec) := Protocol.read (decoder r) bytes in
    let r := set_decoder dec (foldl (handle w c) r msgs) in
    match stop with
    | Ret _ =>
      if Worker.completion_batch c <=? Worker.Pending_len (pending r)
      then (true, clear_deadline (flush_reader w c worker r))
      else (true, r)
    | Throw _ | Panic => (false, flush_reader w c worker r)
    end
  end.

(** The loop over the events that occur, and whether it still runs; no timer
    runs without a deadline. *)
Fixpoint collect_completions (w : world) (c : Worker.Config) (worker : uuid) (events : list event) (r : reader)
  : bool * reader :=
  match events with
  | [] => (true, r)
  | Timer :: rest =>
    if decide (deadline r = None) then collect_completions w c worker rest r
    else let '(_, r) := collect w c worker Timer r in collect_completions w c worker rest r
  | e :: rest =>
    match collect w c worker e r with
    | (true, r) => collect_completions w c worker rest r
    | (false, r) => (false, r)
    end
  end.

End Loops.
End WorkerLoop.
