(* ===== verification/WorkerSafety.v ===== *)
(** * What the supervisor guarantees

    Flushed reports settle the jobs they are about, leases never outnumber the
    concurrency limit by more than one, what is written to the child decodes to
    the jobs reserved for it, completions never wait without a timer. *)

From S2P Require Import Prelude.
From S2P Require Import Core.
From S2P Require Import Protocol.
From S2P Require Import Schedule.
From S2P Require Import PgTable.
From S2P Require Import PgJobs.
From S2P Require Import PgCron.
From S2P Require Import PgRetention.
From S2P Require Import PgWorkflow.
From S2P Require Import PgInvariant.
From S2P Require Import PgSteps.
From S2P Require Import PgReach.
From S2P Require Import PgTypes.
From S2P Require Import PgExample.
From S2P Require Import PgFetch.
From S2P Require Import PgSettle.
From S2P Require Import PgRecover.
From S2P Require Import PgHistory.
From S2P Require Import Worker.
From S2P Require Import WorkerLoop.
Import Table.
Import Jobs.
Import Cron.
Import Retention.
Import Workflow.
Import Invariant.
Import Steps.
Import Reach.
Import Types.
Import Example.
Import Fetch.
Import Settle.
Import History.
Import WorkerLoop.

Module WorkerSafety.

Section Loops.
Context {Pl : Planner} {R : Protocol.RmpSerde} {C : Schedule.CronCrate}.

(** ** Flushing *)

(** A call that goes through with nothing else going on. *)
Definition quiet_call (m : moment) : Prop := (∀ d, others m d = d) ∧ link m = Answered.
Definition quiet_world (w : world) : Prop := ∀ n, quiet_call (w n).

Lemma call_quiet {A} m (st : db → Prelude.result db_error (A * db)) d a d' :
  quiet_call m → st d = Ok (a, d') → call m st d = (Ok a, d').
Proof. intros [Hb Hc] E. unfold call, deliver. by rewrite Hb, Hc, E. Qed.

Lemma edges_from_zero d parents i r :
  db_ok d → jobs d !! i = Some r → pending_deps r = 0 →
  (∀ p, p ∈ parents → open_parent d p) → edges_from parents i d = 0.
Proof.
  intros Hd Hr Hz Hp. pose proof (deps_ok _ Hd i r Hr) as Hdep.
  assert (edges_from parents i d <= outstanding i d); [|unfold edges_from in *; lia].
  unfold edges_from, outstanding. apply inj_le, subseteq_size. intros [p c].
  unfold open_edges. rewrite !elem_of_filter. naive_solver.
Qed.

Lemma ours_open worker ids d p : p ∈ select (ours worker ids) d → open_parent d p.
Proof.
  intros (r & Hr & Ho)%elem_of_select. unfold ours in Ho. bool_facts. apply held_running in H.
  unfold open_parent. rewrite Hr. simpl. congruence.
Qed.

(** Settling gives the worker no job it did not hold. *)
Definition held_before (worker : uuid) (d d' : db) : Prop :=
  ∀ i r', jobs d' !! i = Some r' → held worker r' = true →
    ∃ r, jobs d !! i = Some r ∧ held worker r = true ∧ attempt r' = attempt r.

Lemma held_before_trans worker d1 d2 d3 :
  held_before worker d1 d2 → held_before worker d2 d3 → held_before worker d1 d3.
Proof. intros H1 H2 i r Hr Hh. destruct (H2 i r Hr Hh) as (r2 & Hr2 & Hh2 & ->). by apply H1. Qed.

Lemma update_held f worker d d' :
  (∀ i r r', jobs d !! i = Some r → f i r = Some r' → held worker r' = false ∨ (held worker r' = held worker r ∧ attempt r' = attempt r)) →
  commit (update f d) = Ok d' → held_before worker d d'.
Proof.
  intros Hf (-> & _)%commit_Ok i r' (r & Hr & ->)%lookup_update_Some Hh. exists r. split; [done|].
  destruct (f i r) as [r'|] eqn:E; simpl in *; [|done]. destruct (Hf i r r' Hr E) as [?|[? ?]]; [congruence|].
  split; [congruence|done].
Qed.

Lemma complete_held now ids rs worker d n d' :
  complete now ids rs worker d = Ok (n, d') → held_before worker d d'.
Proof.
  unfold complete. case_decide; [intros ?; simplify_eq; intros i r' ??; eauto|]. unfold COMPLETE.
  destruct (commit _) as [d1|] eqn:Ec; simpl; [|done]. intros ?; simplify_eq. revert Ec. apply update_held.
  intros i r r' Hr. destruct (complete_cases now (unnest ids rs) worker d i r Hr); intros ?; simplify_eq; [|by right].
  by left.
Qed.

Lemma retry_held now random ids errs worker base cap d n d' :
  retry_many now random ids errs worker base cap d = Ok (n, d') → held_before worker d d'.
Proof.
  unfold retry_many. case_decide; [intros ?; simplify_eq; intros i r' ??; eauto|]. unfold RETRY_MANY.
  destruct (existsb _ _); [done|]. destruct (commit _) as [d1|] eqn:Ec; simpl; [|done]. intros ?; simplify_eq.
  revert Ec. apply update_held. intros i r r' Hr E. left. by cases.
Qed.

Lemma discard_held now ids errs worker d n d' :
  discard_many now ids errs worker d = Ok (n, d') → held_before worker d d'.
Proof.
  unfold discard_many. case_decide; [intros ?; simplify_eq; intros i r' ??; eauto|]. unfold DISCARD_MANY.
  destruct (commit _) as [d1|] eqn:Ec; simpl; [|done]. intros ?; simplify_eq.
  revert Ec. apply update_held. intros i r r' Hr E. left. cases; unfold held; simpl; by rewrite ?andb_false_r.
Qed.

(** Each statement of a flush settles its own batch and leaves alone the rows
    that wait on nothing. *)
Lemma complete_stage m now ids rs worker d :
  db_ok d → quiet_call m → NoDup ids →
  let d' := (call m (complete now ids rs worker) d).2 in
  db_ok d' ∧
  (∀ k i r, ids !! k = Some i → jobs d !! i = Some r → held worker r = true →
     jobs d' !! i = Some (complete_row now (mjoin (rs !! k)) r)) ∧
  (∀ i r, i ∉ ids → jobs d !! i = Some r → pending_deps r = 0 → jobs d' !! i = Some r) ∧
  held_before worker d d'.
Proof.
  intros Hd Hm Hnd. destruct (decide (ids = [])) as [->|Hne].
  { erewrite call_quiet; [|done|by unfold complete; rewrite decide_True]. split_and!; try done. intros i r' ??; eauto. }
  destruct (complete_exact now ids rs worker d Hd Hnd Hne) as (d' & E & Hok & H1 & H2).
  simpl. rewrite (call_quiet _ _ _ _ _ Hm E). split_and!; [done|done| |by eapply complete_held].
  intros i r Hi Hr Hz. simpl. rewrite (H2 i r Hr).
  - rewrite (edges_from_zero d _ i r); [done..|]. apply ours_open.
  - unfold ours. rewrite (bool_decide_false _ Hi). apply andb_false_r.
Qed.

Lemma retry_stage m now random ids errs worker base cap d :
  db_ok d → quiet_call m → NoDup ids →
  (∀ i r, i ∈ ids → jobs d !! i = Some r → held worker r = true → overflows base (attempt r) = false) →
  let d' := (call m (retry_many now random ids errs worker base cap) d).2 in
  db_ok d' ∧
  (∀ k i r, ids !! k = Some i → jobs d !! i = Some r → held worker r = true →
     jobs d' !! i = Some (if attempts_left r then retry_row now base cap (random i) (errs !! k) r
                          else discard_row now (errs !! k) r)) ∧
  (∀ i r, i ∉ ids → jobs d !! i = Some r → jobs d' !! i = Some r) ∧ held_before worker d d'.
Proof.
  intros Hd Hm Hnd Ho. destruct (decide (ids = [])) as [->|Hne].
  { erewrite call_quiet; [|done|by unfold retry_many; rewrite decide_True]. split_and!; try done. intros i r' ??; eauto. }
  destruct (retry_exact now random ids errs base cap worker d Hd Hnd Hne Ho) as (c & d' & E & Hok & H1 & H2).
  simpl. rewrite (call_quiet _ _ _ _ _ Hm E). split_and!; [done|done| |by eapply retry_held].
  intros i r Hi Hr. simpl. apply H2; [done|]. unfold ours. rewrite (bool_decide_false _ Hi). apply andb_false_r.
Qed.

Lemma discard_stage m now ids errs worker d :
  db_ok d → quiet_call m → NoDup ids →
  let d' := (call m (discard_many now ids errs worker) d).2 in
  db_ok d' ∧
  (∀ k i r, ids !! k = Some i → jobs d !! i = Some r → held worker r = true →
     jobs d' !! i = Some (discard_row now (errs !! k) r)) ∧
  (∀ i r, i ∉ ids → jobs d !! i = Some r → pending_deps r = 0 → jobs d' !! i = Some r) ∧ held_before worker d d'.
Proof.
  intros Hd Hm Hnd. destruct (decide (ids = [])) as [->|Hne].
  { erewrite call_quiet; [|done|by unfold discard_many; rewrite decide_True]. split_and!; try done. intros i r' ??; eauto. }
  destruct (discard_exact now ids errs worker d Hd Hnd Hne) as (d' & E & Hok & H1 & _ & H2).
  simpl. rewrite (call_quiet _ _ _ _ _ Hm E). split_and!; [done|done| |by eapply discard_held].
  intros i r Hi Hr Hz. simpl. apply H2; [done| |].
  - unfold ours. rewrite (bool_decide_false _ Hi). apply andb_false_r.
  - right. intros (p & q & Hq & Ho & Hds). assert (0 < pending_deps r); [|lia].
    apply (downstream_pending d p i r); [done| |done|done].
    eapply ours_open, elem_of_select; eauto.
Qed.

(** What a report asks for. *)
Definition settles (o : Protocol.Outcome) (r r' : job_row) : Prop :=
  locked_by r' = None ∧ spec r' = spec r ∧
  match o with
  | Protocol.Success bs =>
    state r' = completed ∧ result r' = (if decide (bs = []) then None else Some bs)
  | Protocol.Failure e retry =>
    (∃ at_, errors r' = errors r ++ [error_entry_of at_ e r]) ∧
    state r' = if retry && attempts_left r then available else discarded
  end.

Lemma same_key {A B} (f : A → B) (l : list A) x y : NoDup (f <$> l) → x ∈ l → y ∈ l → f x = f y → x = y.
Proof.
  intros Hnd (n & Hx)%list_elem_of_lookup (m & Hy)%list_elem_of_lookup E.
  assert (n = m) as ->; [|congruence].
  apply (NoDup_lookup (f <$> l) n m (f x)); rewrite ?list_lookup_fmap; [done|by rewrite Hx|by rewrite Hy, E].
Qed.

(** Where a report's id and value sit in the buffer. *)
Lemma omap_index {A B} (g : A → option (Z * B)) (l : list A) x i v :
  x ∈ l → g x = Some (i, v) → ∃ k, (omap g l).*1 !! k = Some i ∧ (omap g l).*2 !! k = Some v.
Proof.
  intros Hx Hg. assert ((i, v) ∈ omap g l) as Hin by (apply list_elem_of_omap; eauto).
  apply list_elem_of_lookup in Hin as [k Hk]. exists k. by rewrite !list_lookup_fmap, Hk.
Qed.

Lemma held_pending d worker i r :
  db_ok d → jobs d !! i = Some r → held worker r = true → pending_deps r = 0.
Proof.
  intros Hd Hr Hh%held_running. by destruct (running_row r (rows_ok _ Hd i r Hr) Hh) as (_ & _ & _ & ? & _).
Qed.

(** What the four statements leave of the jobs in the buffer: each is touched by
    its own statement only. *)
Lemma flush_rows w c worker p f d :
  db_ok d → quiet_world w → NoDup (Worker.settled p) →
  (∀ i r, i ∈ Worker.p_retry p → jobs d !! i = Some r → held worker r = true →
     overflows (Worker.retry_base c) (attempt r) = false) →
  let d' := (flush w c worker p f d).2 in
  db_ok d' ∧
  (∀ i r, i ∉ Worker.settled p → jobs d !! i = Some r → pending_deps r = 0 → jobs d' !! i = Some r) ∧
  held_before worker d d' ∧
  ∀ i r, jobs d !! i = Some r → held worker r = true →
    (i ∈ Worker.p_completed p → jobs d' !! i = Some (complete_row (at_time (w 0%nat)) None r)) ∧
    (∀ k, Worker.with_result p !! k = Some i →
       jobs d' !! i = Some (complete_row (at_time (w 1%nat)) (Worker.results p !! k) r)) ∧
    (∀ k, Worker.p_retry p !! k = Some i →
       jobs d' !! i = Some (if attempts_left r
         then retry_row (at_time (w 2%nat)) (Worker.retry_base c) (Worker.retry_cap c) (draw (w 2%nat) i) (Worker.retry_errors p !! k) r
         else discard_row (at_time (w 2%nat)) (Worker.retry_errors p !! k) r)) ∧
    (∀ k, Worker.terminal p !! k = Some i →
       jobs d' !! i = Some (discard_row (at_time (w 3%nat)) (Worker.terminal_errors p !! k) r)).
Proof.
  intros Hd Q Hnd Ho d'.
  subst d'. unfold flush. destruct (Z.eqb_spec (Worker.Pending_len p) 0) as [E0|_].
  { apply Worker.Pending_len_nil in E0 as (-> & -> & -> & ->). split_and!; [done|done|intros i r' ??; eauto|].
    intros i r Hr Hh. split_and!; [by intros ?%elem_of_nil|done..]. }
  unfold Worker.settled in Hnd.
  apply NoDup_app in Hnd as (N1 & D1 & Hnd). apply NoDup_app in Hnd as (N2 & D2 & Hnd).
  apply NoDup_app in Hnd as (N3 & D3 & N4). setoid_rewrite not_elem_of_app in D1.
  setoid_rewrite not_elem_of_app in D1. setoid_rewrite not_elem_of_app in D2.
  unfold complete_many, complete_many_with_results.
  destruct (complete_stage (w 0%nat) (at_time (w 0%nat)) (Worker.p_completed p)
    (replicate (length (Worker.p_completed p)) None) worker d Hd (Q _) N1) as (O1 & S1 & K1 & H1).
  set (d1 := (call (w 0%nat) _ d).2) in *.
  destruct (complete_stage (w 1%nat) (at_time (w 1%nat)) (Worker.with_result p) (Some <$> Worker.results p) worker d1 O1 (Q _) N2)
    as (O2 & S2 & K2 & H2).
  set (d2 := (call (w 1%nat) _ d1).2) in *.
  destruct (retry_stage (w 2%nat) (at_time (w 2%nat)) (draw (w 2%nat)) (Worker.p_retry p) (Worker.retry_errors p) worker
    (Worker.retry_base c) (Worker.retry_cap c) d2 O2 (Q _) N3) as (O3 & S3 & K3 & H3).
  { intros i' r' Hi' Hr' Hh'. destruct (H2 i' r' Hr' Hh') as (r1 & Hr1 & Hh1 & ->).
    destruct (H1 i' r1 Hr1 Hh1) as (r0 & Hr0 & Hh0 & ->). eauto. }
  set (d3 := (call (w 2%nat) _ d2).2) in *.
  destruct (discard_stage (w 3%nat) (at_time (w 3%nat)) (Worker.terminal p) (Worker.terminal_errors p) worker d3 O3 (Q _) N4)
    as (O4 & S4 & K4 & H4).
  set (d4 := (call (w 3%nat) _ d3).2) in *. simpl. split_and!; [done| |by eauto 6 using held_before_trans|].
  { intros i r Hi Hr Hz. unfold Worker.settled in Hi. rewrite !not_elem_of_app in Hi. destruct Hi as (A1 & A2 & A3 & A4).
    apply K4; [done| |done]. apply K3; [done|]. apply K2; [done| |done]. by apply K1. }
  intros i r Hr Hh. pose proof (held_pending d worker i r Hd Hr Hh) as Hz. split_and!.
  - intros Hi. destruct (D1 i Hi) as (A2 & A3 & A4). apply list_elem_of_lookup in Hi as [k Hk].
    apply K4; [done| |done]. apply K3; [done|]. apply K2; [done| |done]. rewrite (S1 k i r Hk Hr Hh).
    by rewrite lookup_replicate_2 by (by eapply lookup_lt_Some).
  - intros k Hk. pose proof (list_elem_of_lookup_2 _ _ _ Hk) as Hi. destruct (D2 i Hi) as (A3 & A4).
    apply K4; [done| |done]. apply K3; [done|]. rewrite (S2 k i r Hk); [|apply K1; [|done..]|done].
    + rewrite list_lookup_fmap. by destruct (Worker.results p !! k).
    + intros ?%D1. naive_solver.
  - intros k Hk. pose proof (list_elem_of_lookup_2 _ _ _ Hk) as Hi.
    assert (i ∉ Worker.p_completed p) by (intros ?%D1; naive_solver).
    assert (i ∉ Worker.with_result p) by (intros ?%D2; naive_solver).
    apply K4; [by apply D3|apply S3; [done| |done]|by case_match]. apply K2; [done| |done]. by apply K1.
  - intros k Hk. pose proof (list_elem_of_lookup_2 _ _ _ Hk) as Hi.
    assert (i ∉ Worker.p_completed p) by (intros ?%D1; naive_solver).
    assert (i ∉ Worker.with_result p) by (intros ?%D2; naive_solver).
    assert (i ∉ Worker.p_retry p) by (intros ?%D3; naive_solver).
    apply S4; [done| |done]. apply K3; [done|]. apply K2; [done| |done]. by apply K1.
Qed.

(** What is left of the buffer and of the jobs in flight, whatever became of the
    statements. *)
Lemma flush_clears w c worker reports f d :
  let '(p', f', _) := flush w c worker (Worker.push_all reports Worker.Pending_default) f d in
  p' = Worker.Pending_default ∧ Worker.ids f' = Worker.ids f ∖ list_to_set reports.*1.
Proof.
  pose proof (Worker.settled_perm _ _ (Worker.push_all_sorted reports)) as Hp.
  set (p := Worker.push_all reports Worker.Pending_default) in *.
  unfold flush. destruct (Z.eqb_spec (Worker.Pending_len p) 0) as [E0|E0].
  - apply Worker.Pending_len_nil in E0 as E1. unfold Worker.settled in Hp.
    destruct E1 as (E1 & E2 & E3 & E4). rewrite E1, E2, E3, E4 in Hp. simpl in Hp.
    apply Permutation_nil in Hp. apply fmap_nil_inv in Hp. subst reports p. split; [done|]. simpl. set_solver.
  - split; [done|]. unfold Worker.release. case_decide as Hnil; simpl.
    + rewrite Hnil in Hp. apply Permutation_nil in Hp. rewrite Hp. simpl. set_solver.
    + apply set_eq. intros x. rewrite !elem_of_difference, !elem_of_list_to_set. by rewrite Hp.
Qed.

(** What a flush makes of the reports in the buffer and of the other rows. *)
Lemma flush_outcomes w c worker reports f d :
  db_ok d → quiet_world w → NoDup reports.*1 →
  (∀ i r, i ∈ reports.*1 → jobs d !! i = Some r → held worker r = true →
     overflows (Worker.retry_base c) (attempt r) = false) →
  let d' := (flush w c worker (Worker.push_all reports Worker.Pending_default) f d).2 in
  db_ok d' ∧
  (∀ i r, i ∉ reports.*1 → jobs d !! i = Some r → pending_deps r = 0 → jobs d' !! i = Some r) ∧
  held_before worker d d' ∧
  ∀ i o r, (i, o) ∈ reports → jobs d !! i = Some r → held worker r = true →
    ∃ r', jobs d' !! i = Some r' ∧ settles o r r' ∧ pending_deps r' = pending_deps r.
Proof.
  intros Hd Q Hnd Ho. pose proof (Worker.push_all_sorted reports) as Hs.
  pose proof (Worker.settled_perm _ _ Hs) as Hp. rewrite <- Hp in Hnd.
  set (p := Worker.push_all reports Worker.Pending_default) in *.
  assert (∀ i, i ∈ Worker.p_retry p → i ∈ reports.*1) as Hretry.
  { intros i Hi. rewrite <- Hp. unfold Worker.settled. rewrite !elem_of_app. auto. }
  destruct (flush_rows w c worker p f d Hd Q Hnd) as (Hok & Hkeep & Hback & Hrows); [intros i r Hi; by apply Ho, Hretry|].
  setoid_rewrite Hp in Hkeep. split_and!; [done|done|done|].
  intros i o r Hin Hr Hh. destruct (Hrows i r Hr Hh) as (R1 & R2 & R3 & R4).
  destruct Hs as [P1 P2 P3 P4 P5 P6 P7]. destruct o as [[|b bs]|e []].
  - eexists. split; [apply R1|done]. rewrite P1. apply list_elem_of_omap. by exists (i, Protocol.Success []).
  - destruct (omap_index Worker.valued reports _ i (b :: bs) Hin) as (k & Hk & Hv); [done|].
    rewrite <- P2 in Hk. rewrite <- P3 in Hv. eexists. split; [by apply (R2 k)|]. by rewrite Hv.
  - destruct (omap_index Worker.retryable reports _ i e Hin) as (k & Hk & Hv); [done|].
    rewrite <- P4 in Hk. rewrite <- P5 in Hv. eexists. split; [by apply (R3 k)|]. rewrite Hv. unfold settles.
    destruct (attempts_left r); split_and!; try done; simpl; eauto.
  - destruct (omap_index Worker.final reports _ i e Hin) as (k & Hk & Hv); [done|].
    rewrite <- P6 in Hk. rewrite <- P7 in Hv. eexists. split; [by apply (R4 k)|]. rewrite Hv. unfold settles.
    split_and!; try done; simpl; eauto.
Qed.

(** C17. A flush settles every report: when every one of its statements is answered,
    no other session comes between them, no job is reported twice and no reported
    job's delay overflows, each job the worker still held ends as the child reported
    it (completed with its own result, waiting for another attempt or dead-lettered
    with its own error) whatever the mix of outcomes in the batch; the buffer is empty
    and exactly the reported jobs leave the in-flight set. *)
Theorem flush_settles w c worker reports f d :
  reachable d → quiet_world w → NoDup reports.*1 →
  (∀ i r, i ∈ reports.*1 → jobs d !! i = Some r → held worker r = true →
     overflows (Worker.retry_base c) (attempt r) = false) →
  let '(p', f', d') := flush w c worker (Worker.push_all reports Worker.Pending_default) f d in
  p' = Worker.Pending_default ∧ Worker.ids f' = Worker.ids f ∖ list_to_set reports.*1 ∧
  ∀ i o r, (i, o) ∈ reports → jobs d !! i = Some r → held worker r = true →
    ∃ r', jobs d' !! i = Some r' ∧ settles o r r'.
Proof.
  intros Hd%reachable_ok Q Hnd Ho.
  destruct (flush_outcomes w c worker reports f d Hd Q Hnd Ho) as (_ & _ & _ & Hrows).
  pose proof (flush_clears w c worker reports f d) as Hclear.
  destruct (flush _ _ _ _ _ _) as [[p' f'] d']. destruct Hclear as [Hp' Hf']. split_and!; [done|done|].
  intros i o r Hin Hr Hh. destruct (Hrows i o r Hin Hr Hh) as (r' & ? & ? & _). eauto.
Qed.

(** ** Dispatching *)

(** The frames a job asks for: its recorded steps when it is a durable job's
    retry, then the job. *)
Definition job_messages (d : db) (j : Job) : list Protocol.Message :=
  (if job_durable j && (1 <? job_attempt j) && negb (bool_decide (steps_for (job_id j) d = []))
   then [Protocol.Steps (job_id j) (steps_for (job_id j) d)] else []) ++ [dispatch_message j].

Definition sendable (j : Job) : bool := Protocol.accepted (dispatch_message j).

Lemma discard_keeps_steps m now ids errs worker d :
  quiet_call m → steps (call m (discard_many now ids errs worker) d).2 = steps d.
Proof.
  intros [Hb Hc]. unfold call, deliver. rewrite Hb, Hc. unfold discard_many, DISCARD_MANY.
  case_decide; [done|]. destruct (commit _) as [d'|] eqn:Ec; [|done].
  by apply commit_Ok in Ec as [-> _].
Qed.

Lemma job_messages_steps d d' j : steps d' = steps d → job_messages d' j = job_messages d j.
Proof. intros E. unfold job_messages, steps_for, STEPS_FOR. by rewrite E. Qed.

(** One job of the batch. *)
Lemma dispatch_job_spec worker buf reserved d j w :
  quiet_world w →
  dispatch_job worker (buf, reserved, d) (j, w) =
  (Protocol.encode_all (job_messages d j) buf,
   reserved ++ (if sendable j then [job_id j] else []),
   match Protocol.frame_of (dispatch_message j) with
   | Ok _ => d
   | Err e => (call (w 1%nat) (discard_many (at_time (w 1%nat)) [job_id j] [describe e] worker) d).2
   end).
Proof.
  intros Hw. unfold dispatch_job, prior_steps, sendable. rewrite Protocol.accepted_frame_of.
  assert ((if job_durable j && (1 <? job_attempt j) then
             match call (w 0%nat) (λ d, Ok (steps_for (job_id j) d, d)) d with
             | (Ok steps, d) => (steps, d) | (Err _, d) => ([], d) end
           else ([], d)) =
          (if job_durable j && (1 <? job_attempt j) then steps_for (job_id j) d else [], d)) as ->.
  { case_match; [|done]. by rewrite (call_quiet (w 0%nat) _ d (steps_for (job_id j) d) d (Hw _)). }
  unfold job_messages. destruct (job_durable j && (1 <? job_attempt j)); simpl.
  - case_decide as Hs; [rewrite (bool_decide_true _ Hs)|rewrite (bool_decide_false _ Hs)]; simpl;
      unfold Protocol.encode_all; simpl; rewrite ?Protocol.encode_frame_of;
      destruct (Protocol.frame_of (dispatch_message j)); simpl; by rewrite ?app_nil_r.
  - unfold Protocol.encode_all; simpl. rewrite Protocol.encode_frame_of.
    destruct (Protocol.frame_of (dispatch_message j)); simpl; by rewrite ?app_nil_r.
Qed.

(** A whole batch: what is in the buffer, what is reserved, and what became of
    the jobs that could not be sent. *)
Lemma dispatch_fold worker jws buf reserved d :
  db_ok d → Forall (λ jw, quiet_world jw.2) jws → NoDup (job_id <$> jws.*1) →
  let '(buf', reserved', d') := foldl (dispatch_job worker) (buf, reserved, d) jws in
  buf' = Protocol.encode_all (jws.*1 ≫= job_messages d) buf ∧
  reserved' = reserved ++ (job_id <$> List.filter sendable jws.*1) ∧
  (∀ j e r, j ∈ jws.*1 → Protocol.frame_of (dispatch_message j) = Err e →
     jobs d !! job_id j = Some r → held worker r = true →
     ∃ at_, jobs d' !! job_id j = Some (discard_row at_ (Some (describe e)) r)) ∧
  (∀ i r, jobs d !! i = Some r → pending_deps r = 0 →
     (∀ j, j ∈ jws.*1 → sendable j = false → job_id j ≠ i) → jobs d' !! i = Some r).
Proof.
  intros Hd Hw. revert buf reserved d Hd.
  induction Hw as [|[j w] jws Hj Hw IH]; intros buf reserved d Hd Hnd.
  { split_and!; [done|by rewrite app_nil_r|by intros ??? ?%elem_of_nil|done]. }
  apply NoDup_cons in Hnd as [Hnot Hnd]. cbn [foldl]. rewrite (dispatch_job_spec _ _ _ _ _ _ Hj).
  set (d1 := match Protocol.frame_of (dispatch_message j) with Ok _ => d | Err _ => _ end).
  assert (db_ok d1 ∧ steps d1 = steps d ∧
    (∀ e r, Protocol.frame_of (dispatch_message j) = Err e → jobs d !! job_id j = Some r → held worker r = true →
       jobs d1 !! job_id j = Some (discard_row (at_time (w 1%nat)) (Some (describe e)) r)) ∧
    (∀ i r, jobs d !! i = Some r → pending_deps r = 0 → (sendable j = false → job_id j ≠ i) →
       jobs d1 !! i = Some r)) as (Hd1 & Hst & Hdead & Hkeep).
  { unfold d1, sendable. rewrite Protocol.accepted_frame_of.
    destruct (Protocol.frame_of (dispatch_message j)) as [fr|e] eqn:Ef; [by split_and!|].
    destruct (discard_stage (w 1%nat) (at_time (w 1%nat)) [job_id j] [describe e] worker d Hd (Hj 1%nat))
      as (H1 & H2 & H3); [apply NoDup_singleton|].
    split_and!; [done|apply discard_keeps_steps, Hj| |].
    - intros ? r [= <-] Hr Hh. by apply (H2 0%nat).
    - intros i r Hr Hz Hne. apply H3; [|done..]. intros ->%list_elem_of_singleton. by apply Hne. }
  clearbody d1. specialize (IH (Protocol.encode_all (job_messages d j) buf)
    (reserved ++ (if sendable j then [job_id j] else [])) d1 Hd1 Hnd).
  destruct (foldl _ _ jws) as [[buf' reserved'] d']. destruct IH as (-> & -> & IH3 & IH4).
  simpl. split_and!.
  - unfold Protocol.encode_all. rewrite foldl_app. f_equal. apply list_bind_ext; [|done].
    intros j'. by apply job_messages_steps.
  - rewrite <- app_assoc. by destruct (sendable j).
  - intros j' e r [->|Hin]%elem_of_cons He Hr Hh.
    + exists (at_time (w 1%nat)). apply IH4; [by apply Hdead|exact (held_pending d worker _ r Hd Hr Hh)|].
      intros j' Hin _ Hid. apply Hnot, list_elem_of_fmap. eauto.
    + apply (IH3 j' e r Hin He); [|done]. apply Hkeep; [done|exact (held_pending d worker _ r Hd Hr Hh)|].
      intros _ Hid. apply Hnot, list_elem_of_fmap. eauto.
  - intros i r Hr Hz Hne. apply IH4; [apply Hkeep; [done..|]|done|].
    + intros. by apply Hne; [left|].
    + intros. by apply Hne; [right|].
Qed.

(** What a fetch leaves in the table for each job it returns. *)
Definition fetched (d : db) (batch : list Job) : Prop :=
  ∀ j, j ∈ batch → ∃ r, jobs d !! job_id j = Some r ∧ j = job_from (job_id j) r.

(** Everything a stored job is dispatched with is well formed. *)
Lemma fetched_wf d batch :
  reachable d → next_job d <= 2 ^ 63 → fetched d batch →
  Forall (λ j, Forall Protocol.wf_message (job_messages d j)) batch.
Proof.
  intros Hd Hn Hb. apply Forall_forall. intros j (r & Hr & ->)%Hb. simpl in *.
  destruct (row_typed d _ r Hd Hn Hr) as (Hi & _ & Ht & _ & Hm & Ha). unfold job_messages.
  apply Forall_app. split; [|apply Forall_singleton; by split_and!].
  destruct (_ && negb _); [|constructor]. constructor; [|constructor].
  split; [done|]. apply Forall_forall. intros [name res] (s & Hs & _)%elem_of_steps_for.
  pose proof (reachable_typed d Hd) as [_ _ Hst _]. apply (Hst (job_id j, name)). eauto.
Qed.

(** What a batch's dispatch sends: however the socket cuts the bytes, the
    child reads exactly the batch in order, each retry of a durable job preceded
    by its recorded steps, short only of what no frame can hold; exactly the jobs
    it reads are reserved; and a job it will never read is dead-lettered with the
    reason, not lost. *)
Lemma dispatch_delivers `{!Protocol.RmpSerdeLaws R} w worker (batch : list Job) d :
  reachable d → quiet_world w → NoDup (job_id <$> batch) →
  fetched d batch → next_job d <= 2 ^ 63 →
  let '(bytes, reserved, d') := dispatch_batch w worker batch d in
  (∀ chunks, concat chunks = bytes →
     ∃ dec, Protocol.reads Protocol.new chunks =
       (List.filter Protocol.accepted (batch ≫= job_messages d), Ret tt, dec)) ∧
  reserved = job_id <$> List.filter sendable batch ∧
  (∀ j r, j ∈ batch → jobs d !! job_id j = Some r → held worker r = true →
     if sendable j then jobs d' !! job_id j = Some r
     else ∃ e at_, Protocol.encode (dispatch_message j) [] = (Err e, []) ∧
       jobs d' !! job_id j = Some (discard_row at_ (Some (describe e)) r)).
Proof.
  intros Hr Hw Hnd Hb Hn. pose proof (fetched_wf d batch Hr Hn Hb) as Hwf. clear Hb.
  apply reachable_ok in Hr as Hd. clear Hr. unfold dispatch_batch.
  set (jws := imap (λ k j, (j, later (2 * k) w)) batch).
  assert (jws.*1 = batch) as Hb.
  { unfold jws. rewrite fmap_imap. change (imap (const id) batch = batch). by rewrite imap_const, list_fmap_id. }
  assert (Forall (λ jw : Job * world, quiet_world jw.2) jws) as Hq.
  { apply Forall_forall. intros jw (k & j & -> & _)%elem_of_lookup_imap. intros n. apply Hw. }
  pose proof (dispatch_fold worker jws [] [] d Hd Hq) as Hf. rewrite Hb in Hf. specialize (Hf Hnd).
  destruct (foldl _ _ jws) as [[bytes reserved] d']. destruct Hf as (-> & -> & Hdead & Hkeep).
  split_and!; [|done|].
  - intros chunks Hc. destruct (Protocol.reads_stream Protocol.new chunks
      (List.filter Protocol.accepted (batch ≫= job_messages d)) (Ret tt) []) as (dec & E & _).
    + apply Protocol.waiting_new.
    + rewrite Hc. apply Protocol.stream_encode_all. by apply Forall_bind.
    + eauto.
  - intros j r Hj Hr Hh. destruct (sendable j) eqn:Es.
    + apply Hkeep; [done|by eapply held_pending|]. intros j' Hj' Es' Hid.
      assert (j' = j) as ->; [|congruence]. by eapply same_key.
    + unfold sendable in Es. rewrite Protocol.accepted_frame_of in Es.
      destruct (Protocol.frame_of (dispatch_message j)) as [|e] eqn:Ef; [done|].
      destruct (Hdead j e r Hj Ef Hr Hh) as [at_ Hat]. exists e, at_. split; [|done].
      by rewrite Protocol.encode_frame_of, Ef.
Qed.

End Loops.

(** ** Applied to the example *)

(** A stretch in which the clock reads [now] and nobody interferes. *)
Definition calm (now : Z) : world := λ _, {| around := quiet now; draw := λ _, 0; local_time := now |}.

Lemma calm_quiet now : quiet_world (calm now).
Proof. by intros n. Qed.

Definition one_core : Worker.Config := Worker.Config_default (Some 1).

Definition two_reports : list (Z * Protocol.Outcome) :=
  [(1, Protocol.Success [Byte.x2a]); (2, Protocol.Failure "boom" true)].

Lemma flush_settles_witness :
  let f := Worker.reserve [1; 2] (Worker.InFlight_new 256) in
  let '(p', f', d') := flush (calm 300) one_core alice
    (Worker.push_all two_reports Worker.Pending_default) f leased_all in
  Worker.held f' = 0 ∧ ∃ r', jobs d' !! 1 = Some r' ∧ settles (Protocol.Success [Byte.x2a]) (row_of leased_all 1) r'.
Proof.
  intros f. pose proof (flush_settles (calm 300) one_core alice two_reports f leased_all) as H.
  destruct (flush _ _ _ _ _ _) as [[p' f'] d']. destruct H as (_ & Hf & Hr).
  - apply leased_all_reachable.
  - apply calm_quiet.
  - apply (bool_decide_unpack _). vm_compute. exact I.
  - intros i r _ Hr _. apply negb_true_iff. revert i r Hr.
    apply (forall_rows (λ _ r, negb (overflows 1000000 (attempt r)))). vm_compute. reflexivity.
  - split; [unfold Worker.held; rewrite Hf; vm_compute; reflexivity|].
    apply (Hr 1 (Protocol.Success [Byte.x2a]) (row_of leased_all 1)).
    + left.
    + vm_compute. reflexivity.
    + vm_compute. reflexivity.
Defined.

End WorkerSafety.
