(* ===== verification/WorkerTasks.v ===== *)
(** * What the supervisor's tasks guarantee over time

    The jobs in flight stay within the limit however rounds, flushes and restarts
    alternate; every completion read is settled or waits under a timer; a dead
    session's jobs are handed back at once; pruning ends. *)

From S2P Require Import Prelude.
From S2P Require Import Core.
From S2P Require Import Protocol.
From S2P Require Import Schedule.
From S2P Require Import PgTable.
From S2P Require Import PgJobs.
From S2P Require Import PgCron.
From S2P Require Import PgRetention.
From S2P Require Import PgWorkflow.
From S2P Require Import PgInvariant.
From S2P Require Import PgSteps.
From S2P Require Import PgReach.
From S2P Require Import PgExample.
From S2P Require Import PgFetch.
From S2P Require Import PgSettle.
From S2P Require Import PgRecover.
From S2P Require Import PgHistory.
From S2P Require Import Worker.
From S2P Require Import WorkerLoop.
From S2P Require Import WorkerSafety.
Import Table.
Import Jobs.
Import Cron.
Import Retention.
Import Workflow.
Import Invariant.
Import Steps.
Import Reach.
Import Example.
Import Fetch.
Import Settle.
Import Recover.
Import History.
Import WorkerLoop.
Import WorkerSafety.

Module WorkerTasks.

Section Loops.
Context {Pl : Planner} {R : Protocol.RmpSerde} {C : Schedule.CronCrate}.

(** ** Jobs in flight *)

Lemma dispatch_job_reserved worker acc jw :
  let reserved := (dispatch_job worker acc jw).1.2 in
  reserved = acc.1.2 ∨ reserved = acc.1.2 ++ [job_id jw.1].
Proof.
  destruct acc as [[buf reserved] d], jw as [j w]. unfold dispatch_job.
  destruct (prior_steps _ _ _) as [st d1]. destruct (Protocol.encode (dispatch_message j) _) as [[[]|e] buf']; auto.
Qed.

Lemma dispatch_fold_reserved worker jws acc :
  (length (foldl (dispatch_job worker) acc jws).1.2 <= length acc.1.2 + length jws)%nat.
Proof.
  revert acc. induction jws as [|jw jws IH]; intros acc; simpl; [lia|].
  specialize (IH (dispatch_job worker acc jw)).
  destruct (dispatch_job_reserved worker acc jw) as [E|E]; rewrite E, ?length_app in IH; simpl in IH; lia.
Qed.

Lemma dispatch_reserved w worker batch d : len (dispatch_batch w worker batch d).1.2 <= len batch.
Proof.
  unfold dispatch_batch, len. apply inj_le. etrans; [apply dispatch_fold_reserved|].
  simpl. by rewrite length_imap.
Qed.

(** Everything that changes what one child has in flight. *)
Inductive traffic (c : Worker.Config) (worker : uuid) : Worker.InFlight → Worker.InFlight → Prop :=
| by_round (w : world) f d : reachable d → (∀ n, interleaves (w n)) → traffic c worker f (dispatch_round w c worker f d).1.2
| by_flush w p f d : traffic c worker f (flush w c worker p f d).1.2
| by_hand_back w f d : traffic c worker f (hand_back w c worker f d).1.

Lemma size_of_list (l : list Z) : (size (list_to_set (C := gset Z) l) <= length l)%nat.
Proof.
  induction l as [|x l IH]; [done|]. rewrite list_to_set_cons, size_union_alt, size_singleton. simpl.
  assert (size (list_to_set (C := gset Z) l ∖ {[x]}) <= size (list_to_set (C := gset Z) l))%nat; [|lia].
  apply subseteq_size. set_solver.
Qed.

Lemma held_reserve l f : Worker.held (Worker.reserve l f) <= Worker.held f + len l.
Proof.
  unfold Worker.held, Worker.reserve, len; simpl. rewrite size_union_alt. pose proof (size_of_list l).
  assert (size (list_to_set l ∖ Worker.ids f) <= size (list_to_set (C := gset Z) l))%nat; [|lia].
  apply subseteq_size. set_solver.
Qed.

Lemma held_subset f f' : Worker.ids f' ⊆ Worker.ids f → Worker.held f' <= Worker.held f.
Proof. intros H. unfold Worker.held. apply inj_le. by apply subseteq_size. Qed.

(** A round leaves at most one job more than the limit in flight. *)
Lemma round_bounded (w : world) c worker f d :
  reachable d → (∀ n, interleaves (w n)) → 0 <= Worker.batch c → Worker.held f <= Worker.limit f + 1 →
  let f' := (dispatch_round w c worker f d).1.2 in
  Worker.limit f' = Worker.limit f ∧ Worker.held f' <= Worker.limit f + 1.
Proof.
  intros Hd Hw Hb Hf. unfold dispatch_round. destruct (Z.eqb_spec (Worker.available f) 0) as [_|Hav]; [done|].
  set (n := Z.min (Worker.batch c) (Worker.available f)).
  assert (0 <= n <= Worker.limit f - Worker.held f) as Hn by (unfold n, Worker.available in *; lia).
  pose proof (fetch_outcome (w 0%nat) (w 1%nat) (w 2%nat) (Worker.queues c) n (Worker.lease c) worker d
    Hd (Hw _) (Hw _) (Hw _) (proj1 Hn)) as Ho.
  destruct (fetch _ _ _ _ _ _ _ _) as [[l|e] d']; [|done]. destruct Ho as (_ & Hlen & _).
  destruct l as [|j l]; [done|].
  pose proof (dispatch_reserved (later 3 w) worker (j :: l) d') as Hr.
  destruct (dispatch_batch _ _ _ _) as [[buf reserved] d'']. simpl in Hr. case_decide; [done|]. simpl. split; [done|].
  pose proof (held_reserve reserved f). lia.
Qed.

(** A child is never given more than its concurrency limit and one job:
    however rounds of dispatch (with whatever other workers do meanwhile),
    flushes and restarts alternate, what is in flight stays within the limit
    plus the one keyed job a full fetch may add, and at that point no round
    leases anything. *)
Lemma inflight_bounded c worker f :
  0 <= Worker.batch c → 0 <= Worker.concurrency c →
  rtc (traffic c worker) (Worker.InFlight_new (Worker.concurrency c)) f →
  Worker.held f <= Worker.concurrency c + 1 ∧
  (Worker.concurrency c <= Worker.held f → ∀ w d, dispatch_round w c worker f d = (WaitForRoom, f, d)).
Proof.
  intros Hb Hc Hf.
  assert (Worker.limit f = Worker.concurrency c ∧ Worker.held f <= Worker.limit f + 1) as [Hl Hh].
  { revert f Hf. apply rtc_ind_r; [split; [done|]|intros f f' _ Ht [Hl Hh]].
    { simpl. change (0 <= Worker.concurrency c + 1). lia. }
    destruct Ht as [w f d Hd Hw|w p f d|w f d].
    - destruct (round_bounded w c worker f d Hd Hw Hb Hh) as [-> ?]. auto.
    - unfold flush. destruct (_ =? _); [done|]. simpl. unfold Worker.release. case_decide; [done|]. simpl. split; [done|].
      etrans; [apply held_subset|exact Hh]. simpl. set_solver.
    - assert ((hand_back w c worker f d).1 = (Worker.take f).2) as ->.
      { unfold hand_back. simpl. case_decide; [done|]. by destruct (call _ _ _) as [[]]. }
      simpl. split; [done|]. change (0 <= Worker.limit f + 1). lia. }
  split; [lia|]. intros Hfull w d. unfold dispatch_round.
  assert (Worker.available f = 0) as ->; [|done]. unfold Worker.available. lia.
Qed.

(** ** The completion reader *)

Definition report (m : Protocol.Message) : option (Z * Protocol.Outcome) :=
  match m with Protocol.Complete id o => Some (id, o) | _ => None end.

(** What the reader was given to read. *)
Fixpoint chunks_of (events : list event) : list (list byte) :=
  match events with
  | [] | Closed :: _ => []
  | Timer :: rest => chunks_of rest
  | Chunk bytes :: rest => bytes :: chunks_of rest
  end.

Section Reader.
Variables (w : world) (c : Worker.Config) (worker : uuid) (f : Worker.InFlight) (d : db).

(** When the reports can be followed into the table: every statement is answered, no
    other session comes between them, and no delay of a held job overflows. *)
Definition followable : Prop :=
  db_ok d ∧ quiet_world w ∧
  ∀ i r, jobs d !! i = Some r → held worker r = true → overflows (Worker.retry_base c) (attempt r) = false.

(** The rows of the jobs the worker held in [d] once [settled] is settled: those have
    ended as reported, the others are as they were. *)
Definition follows (settled : list (Z * Protocol.Outcome)) (d' : db) : Prop :=
  db_ok d' ∧ held_before worker d d' ∧ ∀ i r, jobs d !! i = Some r → held worker r = true →
    (i ∉ settled.*1 → jobs d' !! i = Some r) ∧
    (∀ o, (i, o) ∈ settled → ∃ r', jobs d' !! i = Some r' ∧ settles o r r' ∧ pending_deps r' = 0).

Lemma follows_same settled d1 d2 : jobs d2 = jobs d1 → db_ok d2 → follows settled d1 → follows settled d2.
Proof. intros E Hok (_ & Hb & H). split; [done|]. unfold held_before. by rewrite E. Qed.

(** Of the reports read, the first are settled and the rest wait in the buffer,
    under a timer. *)
Definition accounted (settled waiting : list (Z * Protocol.Outcome)) (r : reader) : Prop :=
  pending r = Worker.push_all waiting Worker.Pending_default ∧
  Worker.ids (inflight r) = Worker.ids f ∖ list_to_set settled.*1 ∧
  (waiting ≠ [] → is_Some (deadline r)) ∧
  (followable → NoDup (settled ++ waiting).*1 → follows settled (store r)).

Lemma register_keeps l d1 d2 t :
  (∀ e m, (e, m) ∈ l → quiet_call m) → db_ok d1 → foldl (register_one t) d1 l = d2 → jobs d2 = jobs d1 ∧ db_ok d2.
Proof.
  revert d1. induction l as [|[e m] l IH]; intros d1 Hq Hd E; simpl in E; [by subst|].
  assert (jobs (register_one t d1 (e, m)) = jobs d1 ∧ db_ok (register_one t d1 (e, m))) as [<- Hok].
  { unfold register_one. destruct (Schedule.parse _ _); [|done]. destruct (Schedule.next_after _ _); [|done].
    erewrite call_quiet; [|eapply Hq; left|done]. split; [done|]. by apply set_crons_ok. }
  apply IH; [|done..]. intros e' m' Hin. apply (Hq e'). by right.
Qed.

Lemma record_keeps m id name res d1 :
  quiet_call m → db_ok d1 →
  let d2 := (call m (λ d, d' ← record_step (at_time m) id name res d; Ok (tt, d')) d1).2 in
  jobs d2 = jobs d1 ∧ db_ok d2.
Proof.
  intros Hm Hd. destruct (record_step (at_time m) id name res d1) as [d2|e] eqn:E.
  - rewrite (call_quiet m _ d1 tt d2 Hm) by by rewrite E. simpl. split; [|by eapply record_step_ok].
    unfold record_step, RECORD_STEP in E. by repeat case_match; simplify_eq.
  - destruct Hm as [Ho Hl]. unfold call, deliver. rewrite Ho, Hl, E. done.
Qed.

Lemma handle_keeps settled r msg :
  quiet_world w → follows settled (store r) → follows settled (store (handle w c r msg)).
Proof.
  intros Q Hf. destruct msg as [| |i n bs| | |]; simpl; try done.
  - edestruct register_keeps as [Hj Hok]; [|exact (proj1 Hf)|reflexivity|by eapply follows_same].
    intros e m Hin. apply list_elem_of_lookup in Hin as [k Hk]. apply list_lookup_imap_Some in Hk as (? & _ & E).
    simplify_eq. apply Q.
  - pose proof (record_keeps (w (ticks r)) i n bs (store r) (Q _) (proj1 Hf)) as [Hj Hok].
    destruct (call _ _ _) as [x d2]. simpl in *. by eapply follows_same.
Qed.

Lemma handle_accounted settled waiting r msg :
  accounted settled waiting r → accounted settled (waiting ++ omap report [msg]) (handle w c r msg).
Proof.
  intros (Hp & Hf & Hd & Hs).
  assert (followable → NoDup (settled ++ waiting ++ omap report [msg]).*1 → follows settled (store (handle w c r msg))) as Hs'.
  { intros Hc Hnd. apply handle_keeps; [apply Hc|]. apply Hs; [done|].
    rewrite app_assoc, fmap_app in Hnd. by apply NoDup_app in Hnd as [? _]. }
  destruct msg; simpl in *; rewrite ?app_nil_r in *; try done.
  - unfold accounted. destruct (call _ _ _). done.
  - split_and!; [|done|intros _; simpl; by destruct (deadline r)|done].
    simpl. rewrite Hp. unfold Worker.push_all. by rewrite foldl_app.
Qed.

Lemma handles_accounted settled msgs waiting r :
  accounted settled waiting r → accounted settled (waiting ++ omap report msgs) (foldl (handle w c) r msgs).
Proof.
  revert waiting r. induction msgs as [|msg msgs IH]; intros waiting r Hr; [by rewrite app_nil_r|].
  apply (handle_accounted settled waiting r msg) in Hr. apply IH in Hr.
  rewrite <- app_assoc, <- omap_app in Hr. exact Hr.
Qed.

Lemma flush_follows t waiting settled f1 d1 :
  followable → NoDup (settled ++ waiting).*1 → follows settled d1 →
  follows (settled ++ waiting) (flush (later t w) c worker (Worker.push_all waiting Worker.Pending_default) f1 d1).2.
Proof.
  intros (Hd & Q & Ho) Hnd (Hd1 & Hb & Hf). rewrite fmap_app in Hnd. apply NoDup_app in Hnd as (_ & Hdis & Hnd).
  destruct (flush_outcomes (later t w) c worker waiting f1 d1 Hd1) as (Hok & Hkeep & Hback & Hset).
  { intros n. apply Q. }
  { done. }
  { intros i r _ Hr Hh. destruct (Hb i r Hr Hh) as (r0 & ? & ? & ->). eauto. }
  split; [done|]. split; [by eapply held_before_trans|]. intros i r Hr Hh. destruct (Hf i r Hr Hh) as [Hout Hin].
  pose proof (held_pending d worker i r Hd Hr Hh) as Hz. rewrite fmap_app. split.
  - rewrite not_elem_of_app. intros [H1 H2]. apply Hkeep; auto.
  - intros o [Hi|Hi]%elem_of_app.
    + destruct (Hin o Hi) as (r' & Hr' & ? & ?). exists r'. split; [|done]. apply Hkeep; [|done..].
      apply Hdis. by apply (list_elem_of_fmap_2 fst) in Hi.
    + assert (i ∉ settled.*1) as Hni by (intros ?%Hdis; by apply (list_elem_of_fmap_2 fst) in Hi).
      destruct (Hset i o r Hi (Hout Hni) Hh) as (r' & ? & ? & ?). exists r'. split_and!; [done|done|congruence].
Qed.

Lemma flush_accounted settled waiting r :
  accounted settled waiting r → accounted (settled ++ waiting) [] (flush_reader w c worker r).
Proof.
  intros (Hp & Hf & _ & Hs). unfold flush_reader. rewrite Hp.
  pose proof (flush_clears (later (ticks r) w) c worker waiting (inflight r) (store r)) as Hc.
  pose proof (λ Hc Hnd, flush_follows (ticks r) waiting settled (inflight r) (store r) Hc Hnd (Hs Hc Hnd)) as Hrows.
  destruct (flush _ _ _ _ _ _) as [[p' f'] d']. destruct Hc as [-> Hc].
  split_and!; [done| |done|by rewrite app_nil_r]. simpl. rewrite Hc, Hf, fmap_app, list_to_set_app_L. set_solver.
Qed.

Lemma accounted_decoder settled waiting dec r :
  accounted settled waiting r → accounted settled waiting (set_decoder dec r).
Proof. done. Qed.

Lemma accounted_cleared settled r : accounted settled [] r → accounted settled [] (clear_deadline r).
Proof. intros (? & ? & _ & ?). by split_and!. Qed.

(** The state of the loop after [reports], and whether it goes on. *)
Definition accounts (reports : list (Z * Protocol.Outcome)) (x : bool * reader) : Prop :=
  ∃ settled waiting, reports = settled ++ waiting ∧ accounted settled waiting x.2 ∧
    if x.1 then len waiting < Z.max 1 (Worker.completion_batch c) else waiting = [].

Lemma flush_accounts reports r going :
  (∃ settled waiting, reports = settled ++ waiting ∧ accounted settled waiting r) →
  accounts reports (going, flush_reader w c worker r) ∧
  accounts reports (going, clear_deadline (flush_reader w c worker r)).
Proof.
  intros (settled & waiting & -> & Hr). apply flush_accounted in Hr.
  split; exists (settled ++ waiting), []; rewrite app_nil_r; (split_and!; [done| |]);
    try (by apply accounted_cleared); try done; destruct going; unfold len; simpl; done || lia.
Qed.

Lemma flush_decoder r : decoder (flush_reader w c worker r) = decoder r.
Proof. unfold flush_reader. by destruct (flush _ _ _ _ _ _) as [[]]. Qed.

Lemma chunk_accounts bytes reports r :
  accounts reports (true, r) →
  let '(msgs, stop, dec) := Protocol.read (decoder r) bytes in
  let x := collect w c worker (Chunk bytes) r in
  accounts (reports ++ omap report msgs) x ∧ decoder x.2 = dec ∧
  x.1 = match stop with Ret _ => true | _ => false end.
Proof.
  intros (settled & waiting & -> & Hr & Hlen). unfold collect.
  destruct (Protocol.read (decoder r) bytes) as [[msgs stop] dec]. simpl in Hr.
  apply (handles_accounted settled msgs) in Hr. apply (accounted_decoder _ _ dec) in Hr.
  remember (set_decoder dec (foldl (handle w c) r msgs)) as r1 eqn:E1.
  assert (decoder r1 = dec) as Hdec by by subst.
  assert (∀ going, accounts ((settled ++ waiting) ++ omap report msgs) (going, flush_reader w c worker r1) ∧
    accounts ((settled ++ waiting) ++ omap report msgs) (going, clear_deadline (flush_reader w c worker r1))) as Hflush.
  { intros. apply flush_accounts. do 2 eexists. split; [by rewrite <- app_assoc|done]. }
  destruct stop as [[]|e|]; simpl; [|by rewrite flush_decoder; split; [apply Hflush|]..].
  destruct (Z.leb_spec (Worker.completion_batch c) (Worker.Pending_len (pending r1))) as [Hb|Hb]; simpl.
  - rewrite flush_decoder. by split; [apply Hflush|].
  - split; [|done]. exists settled, (waiting ++ omap report msgs). split_and!; [by rewrite app_assoc|done|].
    destruct Hr as [Hp _]. rewrite Hp, Worker.push_all_len in Hb. simpl. lia.
Qed.

Lemma collect_accounted events reports r :
  accounts reports (true, r) →
  accounts (reports ++ omap report (Protocol.reads (decoder r) (chunks_of events)).1.1)
    (collect_completions w c worker events r).
Proof.
  revert reports r. induction events as [|e events IH]; intros reports r Hr.
  { simpl. by rewrite app_nil_r. }
  assert (∃ settled waiting, reports = settled ++ waiting ∧ accounted settled waiting r) as Hr' by
    (destruct Hr as (? & ? & ? & ? & _); eauto).
  destruct e as [bytes| |]; cbn [collect_completions chunks_of Protocol.reads].
  - pose proof (chunk_accounts bytes reports r Hr) as Hc.
    destruct (Protocol.read (decoder r) bytes) as [[msgs stop] dec].
    destruct (collect w c worker (Chunk bytes) r) as [going r1]. destruct Hc as (Hc & Hd & Hg). simpl in Hd, Hg.
    destruct stop; subst going; [|done..]. specialize (IH _ _ Hc). rewrite Hd in IH.
    destruct (Protocol.reads dec (chunks_of events)) as [[ms' st'] d'']. simpl in *.
    by rewrite omap_app, app_assoc.
  - simpl. rewrite app_nil_r. by apply flush_accounts.
  - case_decide as Hdl; [by apply IH|]. simpl.
    rewrite <- (flush_decoder r : decoder (clear_deadline (flush_reader w c worker r)) = decoder r).
    by apply IH, flush_accounts.
Qed.

(** C18. No completion is lost or left waiting: whatever the child writes and
    whenever the timer fires, the outcomes read so far are, in order, those flushed
    and released and then those in the buffer; the buffer holds less than a batch and
    waits under a timer; and when the reader stops, because the stream ends or cannot
    be read, nothing is left in it. And flushed means settled in the table: from a
    reachable database, if every statement is answered and no other session comes
    between them, no job is reported twice and no held job's delay overflows, then the
    row of every job the worker held is as the child reported it once its report was
    flushed, and as it was until then. *)
Theorem completions_accounted events :
  let reports := omap report (Protocol.reads Protocol.new (chunks_of events)).1.1 in
  let '(going, r) := collect_completions w c worker events (reader_new f d) in
  ∃ settled waiting,
    reports = settled ++ waiting ∧
    pending r = Worker.push_all waiting Worker.Pending_default ∧
    Worker.ids (inflight r) = Worker.ids f ∖ list_to_set settled.*1 ∧
    (waiting ≠ [] → is_Some (deadline r)) ∧
    (if going then len waiting < Z.max 1 (Worker.completion_batch c) else waiting = []) ∧
    (reachable d → quiet_world w → NoDup reports.*1 →
     (∀ i row, jobs d !! i = Some row → held worker row = true →
        overflows (Worker.retry_base c) (attempt row) = false) →
     ∀ i row, jobs d !! i = Some row → held worker row = true →
       (i ∉ settled.*1 → jobs (store r) !! i = Some row) ∧
       ∀ o, (i, o) ∈ settled → ∃ row', jobs (store r) !! i = Some row' ∧ settles o row row').
Proof.
  intros reports. pose proof (collect_accounted events [] (reader_new f d)) as H. simpl app in H.
  change (decoder (reader_new f d)) with Protocol.new in H. fold reports in H.
  destruct (collect_completions _ _ _ _ _) as [going r]. destruct H as (settled & waiting & H1 & (H2 & H3 & H4 & H5) & H6).
  - exists [], []. split_and!; [done| |unfold len; simpl; lia]. split_and!; [done|simpl; set_solver|done|].
    intros (Hd & _) _. split; [done|]. split; [intros i r' ??; eauto|]. intros i row Hr _.
    split; [done|by intros o ?%elem_of_nil].
  - exists settled, waiting. split_and!; try done. intros Hd Q Hnd Ho i row Hr Hh. rewrite H1 in Hnd.
    destruct (H5 (conj (reachable_ok _ Hd) (conj Q Ho)) Hnd) as (_ & _ & Hrows). destruct (Hrows i row Hr Hh) as [Hout Hin].
    split; [done|]. intros o Hio. destruct (Hin o Hio) as (row' & ? & ? & _). eauto.
Qed.

End Reader.

(** ** Handing back *)

Definition is_running (_ : Z) (r : job_row) : bool := bool_decide (state r = Table.running).

Lemma abandon_lapsed now now' ids worker k d d1 :
  abandon_leases now ids worker d = Ok (k, d1) → count (λ _ r, lapsed now' r) d1 <= count is_running d.
Proof.
  unfold abandon_leases, ABANDON. case_decide.
  - intros ?; simplify_eq. apply count_mono. intros i r Hr Hl. exists r. split; [done|].
    unfold lapsed in Hl. unfold is_running. bool_facts. by apply bool_decide_true.
  - destruct (commit _) as [d2|] eqn:Ec; intros ?; simplify_eq/=. apply commit_Ok in Ec as (-> & _).
    apply count_mono. intros i r (r0 & Hr0 & ->)%lookup_update_Some Hl. exists r0. split; [done|].
    unfold is_running. destruct (_ && _); unfold lapsed in Hl; simpl in Hl; bool_facts; by apply bool_decide_true.
Qed.

(** A dead session's work is picked up at once: every job the child held is
    runnable again, or dead-lettered if that was its last attempt, as soon as
    the supervisor has handed back, without waiting for a lease to run out; and
    the child that replaces it starts with nothing in flight. *)
Lemma hand_back_recovers w c worker f d :
  reachable d → quiet_world w → at_time (w 0%nat) <= at_time (w 1%nat) →
  count is_running d <= Worker.reclaim_limit c →
  let '(f', d') := hand_back w c worker f d in
  Worker.ids f' = ∅ ∧
  ∀ i r, i ∈ Worker.ids f → jobs d !! i = Some r → held worker r = true →
    ∃ r', jobs d' !! i = Some r' ∧ locked_by r' = None ∧
      state r' = if attempts_left r then available else discarded.
Proof.
  intros Hd%reachable_ok Hw Hle Hn. unfold hand_back. simpl. case_decide as Hnil.
  { split; [done|]. intros i r Hi%elem_of_elements. rewrite Hnil in Hi. by apply elem_of_nil in Hi. }
  destruct (abandon_ok (at_time (w 0%nat)) (elements (Worker.ids f)) worker d Hd) as (k & d1 & E & Hd1).
  rewrite (call_quiet _ _ _ _ _ (Hw 0%nat) E). split; [done|]. intros i r Hi%elem_of_elements Hr Hh.
  destruct (abandon_recovers (at_time (w 0%nat)) (at_time (w 1%nat)) _ worker k d d1 (Worker.reclaim_limit c) i r
    Hd E Hle) as (c' & d2 & r' & E2 & ? & ? & ?); [|done..|].
  - etrans; [by eapply abandon_lapsed|done].
  - rewrite (call_quiet _ _ _ _ _ (Hw 1%nat) E2). eauto.
Qed.

(** ** Retention *)

Lemma prune_shrinks now skip states older q n d k d' :
  prune_states now skip states older q n d = Ok (k, d') → 1 <= k → (size (jobs d') < size (jobs d))%nat.
Proof.
  unfold prune_states. intros [Hn E]%negative_limit Hk. simplify_eq.
  destruct (victims_spec now states older q n skip d Hn) as (_ & _ & Hv).
  destruct (victims now states older q n skip d) as [|i v] eqn:Ev; [unfold len in Hk; simpl in Hk; lia|].
  destruct (Hv i) as (r & Hr & _); [left|]. apply map_subset_size. split.
  - apply map_subseteq_spec. intros j s [? _]%delete_lookup. done.
  - intros Hsub. rewrite map_subseteq_spec in Hsub. apply Hsub, delete_lookup in Hr as [_ Hi]. apply Hi. left.
Qed.

Lemma prune_batches_end fuel w started older n removed d :
  quiet_world w → 1 <= n < 2 ^ 63 → (size (jobs d) < fuel)%nat →
  ∃ out, prune_batches fuel w started older n removed d = Some out.
Proof.
  intros Hw Hn. revert w removed d Hw. induction fuel as [|fuel IH]; intros w removed d Hw Hlt; [lia|]. simpl.
  destruct (prune_completed (at_time (w 0%nat)) (locked_rows (w 0%nat)) older None n d) as [[k d']|e] eqn:E.
  2: { unfold prune_completed, prune_states in E. destruct (Z.ltb_spec n 0); [lia|done]. }
  rewrite (call_quiet _ _ _ _ _ (Hw 0%nat) E). rewrite Z.mod_small by lia.
  destruct (Z.ltb_spec k n) as [|Hk]; [simpl; eauto|]. simpl. destruct (_ <? _); [eauto|].
  apply IH; [intros m; apply Hw|]. apply prune_shrinks in E; lia.
Qed.

(** Retention ends: on a database nobody else writes to, a tick takes at
    most one batch more than there are jobs, whatever the clock does, so with
    that much fuel the loop is the code's. *)
Lemma retention_ends w c d :
  quiet_world w → 1 <= Worker.prune_batch c < 2 ^ 63 →
  ∃ removed d', retain_tick (S (size (jobs d))) w c d = Some (removed, d').
Proof.
  intros Hw Hn. unfold retain_tick.
  destruct (prune_batches_end (S (size (jobs d))) w (local_time (w 0%nat)) (Worker.retain_completed c)
    (Worker.prune_batch c) 0 d Hw Hn) as [[[removed w'] d'] E]; [lia|].
  rewrite E. simpl. destruct (if _ <=? _ then _ else _) as [removed' d'']. eauto.
Qed.

End Loops.

(** ** On a concrete stream *)

(** No schedule is registered below, so none need be read. *)
#[local] Instance no_schedules : Schedule.CronCrate := {|
  Schedule.Tz := unit; Schedule.CronSchedule := unit; Schedule.tz_from_str _ := None;
  Schedule.cron_from_str e := Err e; Schedule.cron_to_string _ := ""; Schedule.occurrence_after _ _ _ := None |}.
#[local] Existing Instance Protocol.NumberedCodec.numbered.

(** Jobs 1 and 2 are reported, then the child closes its stream. *)
Definition reported : list event :=
  [Chunk (Protocol.encode_all ((λ r, Protocol.Complete r.1 r.2) <$> two_reports) []); Closed].

Lemma completions_accounted_witness :
  let '(_, r) := collect_completions (calm 300) one_core alice reported (reader_new (Worker.InFlight_new 256) leased_all) in
  ∃ row', jobs (store r) !! 1 = Some row' ∧ settles (Protocol.Success [Byte.x2a]) (row_of leased_all 1) row'.
Proof.
  pose proof (completions_accounted (calm 300) one_core alice (Worker.InFlight_new 256) leased_all reported) as H.
  assert (omap report (Protocol.reads Protocol.new (chunks_of reported)).1.1 = two_reports) as Hr by (vm_compute; reflexivity).
  rewrite Hr in H.
  assert ((collect_completions (calm 300) one_core alice reported (reader_new (Worker.InFlight_new 256) leased_all)).1 = false)
    as Hg by (vm_compute; reflexivity).
  destruct (collect_completions _ _ _ _ _) as [going r]. simpl in Hg. subst going.
  destruct H as (settled & waiting & E & _ & _ & _ & -> & H). rewrite app_nil_r in E. subst settled.
  destruct (H leased_all_reachable (calm_quiet 300)) with (i := 1) (row := row_of leased_all 1) as [_ Hrow].
  - apply (bool_decide_unpack _). vm_compute. exact I.
  - intros i row Hi _. apply negb_true_iff. revert i row Hi.
    apply (forall_rows (λ _ r, negb (overflows 1000000 (attempt r)))). vm_compute. reflexivity.
  - vm_compute. reflexivity.
  - vm_compute. reflexivity.
  - apply Hrow. left.
Defined.

End WorkerTasks.
