(* ===== verification/WorkerOwnership.v ===== *)
(** * What a session holds

    The supervisor's record of the jobs in flight against the leases in the
    database: while statements get through and rounds of dispatch run to their
    end, every job leased to a worker is one its supervisor has in flight, so that
    renewals, drains and hand-backs miss none of them, however the tasks of a
    session and everybody else's statements alternate. [SystemLeases] says what is
    left of this when they do not. *)

From S2P Require Import Prelude.
From S2P Require Import Core.
From S2P Require Import Protocol.
From S2P Require Import Schedule.
From S2P Require Import PgTable.
From S2P Require Import PgJobs.
From S2P Require Import PgCron.
From S2P Require Import PgRetention.
From S2P Require Import PgWorkflow.
From S2P Require Import PgInvariant.
From S2P Require Import PgSteps.
From S2P Require Import PgReach.
From S2P Require Import PgExample.
From S2P Require Import PgFetch.
From S2P Require Import PgSettle.
From S2P Require Import PgRecover.
From S2P Require Import Worker.
From S2P Require Import WorkerLoop.
From S2P Require Import WorkerSafety.
From S2P Require Import WorkerTasks.
Import Table.
Import Jobs.
Import Cron.
Import Retention.
Import Workflow.
Import Invariant.
Import Steps.
Import Reach.
Import Example.
Import Fetch.
Import Settle.
Import Recover.
Import WorkerLoop.
Import WorkerSafety.
Import WorkerTasks.

Module WorkerOwnership.

(** [i] is leased to [worker]. *)
Definition owns (worker : uuid) (d : db) (i : Z) : Prop :=
  ∃ r, jobs d !! i = Some r ∧ held worker r = true.

(** Every job has an attempt to its name, and no job's retries leave the range of a
    double. *)
Definition tempered (base : Z) (d : db) : Prop :=
  map_Forall (λ _ r, 0 < max_attempts (spec r) ∧ overflows base (max_attempts (spec r)) = false) (jobs d).

(** [d'] comes after [d] with no new lease for [worker], and none on [ids]. *)
Record without (base : Z) (worker : uuid) (ids : list Z) (d d' : db) : Prop := {
  wo_tempered : tempered base d → tempered base d';
  wo_owns i : owns worker d' i → owns worker d i ∧ i ∉ ids }.

Lemma without_refl base worker d : without base worker [] d d.
Proof. split; [done|]. intros i ?. split; [done|apply not_elem_of_nil]. Qed.

Lemma without_trans base worker ids ids' d d' d'' :
  without base worker ids d d' → without base worker ids' d' d'' → without base worker (ids ++ ids') d d''.
Proof.
  intros [Ht Ho] [Ht' Ho']. split; [auto|]. intros i [Hi ?]%Ho'. apply Ho in Hi as [? ?].
  split; [done|]. by apply not_elem_of_app.
Qed.

Lemma update_without base worker ids f d d' :
  commit (update f d) = Ok d' →
  (∀ i r r', jobs d !! i = Some r → f i r = Some r' →
     spec r' = spec r ∧ (held worker r' = true → held worker r = true)) →
  (∀ i r, jobs d !! i = Some r → i ∈ ids → held worker (default r (f i r)) = false) →
  without base worker ids d d'.
Proof.
  intros (-> & _)%commit_Ok Hf Hids. split.
  - intros Ht i r' (r & Hr & ->)%lookup_update_Some. specialize (Ht i r Hr). simpl in Ht.
    destruct (f i r) as [r'|] eqn:E; simpl; [|done]. by destruct (Hf _ _ _ Hr E) as [-> _].
  - intros i (r' & (r & Hr & ->)%lookup_update_Some & Hh). split.
    + exists r. split; [done|]. destruct (f i r) as [r'|] eqn:E; simpl in Hh; [|done]. by eapply Hf.
    + intros Hi. by rewrite (Hids _ _ Hr Hi) in Hh.
Qed.

Lemma overflows_mono base a b : 0 <= base → a <= b → overflows base b = false → overflows base a = false.
Proof.
  unfold overflows. intros Hb Hab. rewrite !orb_false_iff, !Z.leb_gt. intros [H1 H2]. split; [lia|].
  eapply Z.le_lt_trans; [|done]. apply Z.div_le_mono; [lia|]. apply Z.mul_le_mono_nonneg_l; [done|].
  by apply Z.pow_le_mono_r.
Qed.

Lemma tempered_held base worker d i r :
  0 <= base → db_ok d → tempered base d → jobs d !! i = Some r → held worker r = true →
  overflows base (attempt r) = false.
Proof.
  intros Hb Hd Ht Hr Hh%held_running.
  apply (overflows_mono base _ (max_attempts (spec r))); [done| |exact (proj2 (Ht i r Hr))].
  destruct (running_row r (rows_ok _ Hd i r Hr) Hh) as (_ & _ & _ & _ & _ & ?). lia.
Qed.

Lemma tempered_funded base queues d : tempered base d → funded queues d.
Proof. intros Ht i r Hr _. by destruct (Ht i r Hr). Qed.

Section Planned.
Context {Pl : Planner}.

(** ** A worker's statements *)

Lemma complete_without base now ids rs worker d n d' :
  complete now ids rs worker d = Ok (n, d') → without base worker ids d d'.
Proof.
  unfold complete. case_decide; [intros; simplify_eq; apply without_refl|]. unfold COMPLETE.
  destruct (commit _) as [d1|] eqn:Ec; simpl; [|done]. intros ?; simplify_eq.
  eapply update_without; [done|..].
  - intros i r r' Hr. destruct (complete_cases now (unnest ids rs) worker d i r Hr); intros ?; by simplify_eq.
  - intros i r Hr Hi. assert (is_Some (joined (unnest ids rs) i)) as Hj.
    { apply joined_is_Some. by rewrite fst_unnest. }
    assert (held worker r = true → i ∈ completing (unnest ids rs) worker d) as Hc.
    { intros Hh. apply elem_of_select. exists r. split; [done|]. rewrite Hh. by apply bool_decide_eq_true. }
    destruct (complete_cases now (unnest ids rs) worker d i r Hr) as [| |]; simpl; [apply andb_false_r|..].
    + destruct (held worker (release_row now n r)) eqn:E; [|done]. by destruct H0; apply Hc.
    + destruct (held worker r) eqn:E; [|done]. by destruct H0; apply Hc.
Qed.

Lemma retry_without base now random ids errs b cap worker d n d' :
  retry_many now random ids errs worker b cap d = Ok (n, d') → without base worker ids d d'.
Proof.
  unfold retry_many. case_decide; [intros; simplify_eq; apply without_refl|].
  destruct (RETRY_MANY _ _ _ _ _ _ _) as [[[? ?] d1]|] eqn:E; intros ?; simplify_eq/=.
  unfold RETRY_MANY in E. destruct (existsb _ _); [done|]. destruct (commit _) as [d1|] eqn:Ec; simplify_eq/=.
  eapply update_without; [done|..].
  - intros i r r' Hr Hf. cbv beta in Hf. cases; (split; [done|]); by intros ?%held_running.
  - intros i r Hr Hi. assert (is_Some (joined (unnest ids (Some <$> errs)) i)) as [e ->].
    { apply joined_is_Some. by rewrite fst_unnest. }
    destruct (held worker r) eqn:Hh; simpl; [|done]. destruct (attempts_left r); simpl; apply andb_false_r.
Qed.

Lemma discard_without base now ids errs worker d n d' :
  discard_many now ids errs worker d = Ok (n, d') → without base worker ids d d'.
Proof.
  unfold discard_many. case_decide; [intros; simplify_eq; apply without_refl|].
  destruct (DISCARD_MANY _ _ _ _) as [[[? ?] d1]|] eqn:E; intros ?; simplify_eq/=.
  unfold DISCARD_MANY in E. destruct (commit _) as [d1|] eqn:Ec; simplify_eq/=.
  eapply update_without; [done|..].
  - intros i r r' Hr Hf. cbv beta in Hf. cases; (split; [done|]); by intros ?%held_running.
  - intros i r Hr Hi. assert (is_Some (joined (unnest ids (Some <$> errs)) i)) as [e ->].
    { apply joined_is_Some. by rewrite fst_unnest. }
    destruct (held worker r) eqn:Hh; simpl; [apply andb_false_r|]. destruct (_ && _); [|done]. simpl. apply andb_false_r.
Qed.

Lemma renew_without base now ids worker lease d n d' :
  renew_leases now ids worker lease d = Ok (n, d') → without base worker [] d d'.
Proof.
  unfold renew_leases, RENEW. case_decide; [intros; simplify_eq; apply without_refl|].
  destruct (commit _) as [d1|] eqn:Ec; simpl; intros ?; simplify_eq. eapply update_without; [done|..].
  - intros i r r' Hr Hf. cbv beta in Hf. destruct (_ && _) eqn:Eh; simplify_eq. by bool_facts.
  - by intros i r _ ?%elem_of_nil.
Qed.

Lemma abandon_without base now ids worker d n d' :
  abandon_leases now ids worker d = Ok (n, d') → without base worker [] d d'.
Proof.
  unfold abandon_leases, ABANDON. case_decide; [intros; simplify_eq; apply without_refl|].
  destruct (commit _) as [d1|] eqn:Ec; simpl; intros ?; simplify_eq. eapply update_without; [done|..].
  - intros i r r' Hr Hf. cbv beta in Hf. destruct (_ && _) eqn:Eh; simplify_eq. by bool_facts.
  - by intros i r _ ?%elem_of_nil.
Qed.

Lemma reclaim_without base now n worker d k d' :
  reclaim_expired now n d = Ok (k, d') → without base worker [] d d'.
Proof.
  unfold reclaim_expired, RECLAIM. intros [_ H]%negative_limit.
  destruct (commit _) as [d1|] eqn:Ec; simplify_eq/=. eapply update_without; [done|..].
  - intros i r r' Hr Hf. cbv beta in Hf. cases; (split; [done|]); by intros ?%held_running.
  - by intros i r _ ?%elem_of_nil.
Qed.

End Planned.

Section Loops.
Context {Pl : Planner} {R : Protocol.RmpSerde} {C : Schedule.CronCrate}.
Variables (c : Worker.Config) (worker : uuid).
Hypothesis base_positive : 0 <= Worker.retry_base c.

(** ** Calls *)

(** A call whose answer arrives; meanwhile other sessions run any statements
    that lease nothing to this worker, and enqueue no job whose retries leave
    the range of a double. *)
Record reliable (m : moment) : Prop := {
  rel_link : link m = Answered;
  rel_runs : interleaves m;
  rel_without d : without (Worker.retry_base c) worker [] d (others m d) }.

(** Where a session's tasks start from. *)
Definition ready (d : db) : Prop := reachable d ∧ tempered (Worker.retry_base c) d.

(** A call of the worker that must succeed and lets go of [ids]. *)
Lemma call_without {A} m ids (st : db → Prelude.result db_error (A * db)) d :
  reliable m → ready d →
  (∀ d0, db_ok d0 → tempered (Worker.retry_base c) d0 → ∃ a d1, st d0 = Ok (a, d1)) →
  (∀ d0 a d1, st d0 = Ok (a, d1) → step d0 d1 ∧ without (Worker.retry_base c) worker ids d0 d1) →
  ready (call m st d).2 ∧ without (Worker.retry_base c) worker ids d (call m st d).2.
Proof.
  intros [Hl Hr Hw] [Hd Ht] Hok Hst. specialize (Hr d). specialize (Hw d).
  assert (reachable (others m d)) as Hd0 by by eapply reachable_later.
  pose proof (wo_tempered _ _ _ _ _ Hw Ht) as Ht0.
  destruct (Hok _ (reachable_ok _ Hd0) Ht0) as (a & d1 & E). destruct (Hst _ _ _ E) as [Hs Hw1].
  unfold call, deliver. rewrite Hl, E. simpl. split; [split|].
  - eapply reachable_later; [exact Hd0|by apply rtc_once].
  - by apply (wo_tempered _ _ _ _ _ Hw1).
  - exact (without_trans _ _ _ _ _ _ _ Hw Hw1).
Qed.

(** One that only reads. *)
Lemma call_reads {A} m (g : db → A) d :
  reliable m → ready d →
  let x := call m (λ d, Ok (g d, d)) d in ready x.2 ∧ without (Worker.retry_base c) worker [] d x.2.
Proof.
  intros [Hl Hr Hw] [Hd Ht]. unfold call, deliver. rewrite Hl. simpl. split; [split|apply Hw].
  - eapply reachable_later; [exact Hd|apply Hr].
  - by apply (wo_tempered _ _ _ _ _ (Hw d)).
Qed.

Lemma complete_call m now ids rs d :
  reliable m → ready d →
  let d' := (call m (complete now ids rs worker) d).2 in ready d' ∧ without (Worker.retry_base c) worker ids d d'.
Proof.
  intros Hm Hd. apply call_without; [done..| |].
  - intros d0 Hd0 _. unfold complete. case_decide; [eauto|]. destruct (complete_ok now (unnest ids rs) worker d0 Hd0) as (? & ? & ? & _). eauto.
  - intros d0 a d1 E. split; [by eapply by_complete|by eapply complete_without].
Qed.

Lemma retry_call m now random ids errs cap d :
  reliable m → ready d →
  let d' := (call m (retry_many now random ids errs worker (Worker.retry_base c) cap) d).2 in ready d' ∧ without (Worker.retry_base c) worker ids d d'.
Proof.
  intros Hm Hd. apply call_without; [done..| |].
  - intros d0 Hd0 Ht. unfold retry_many. case_decide; [eauto|].
    pose proof (retry_ok now random (unnest ids (Some <$> errs)) (Worker.retry_base c) cap worker d0 Hd0) as (x & d' & E & Hok).
    { intros i r _. by apply tempered_held. }
    destruct (RETRY_MANY _ _ _ _ _ _ _) as [[[? ?] ?]|]; simplify_eq/=. eauto.
  - intros d0 a d1 E. split; [by eapply by_retry|by eapply retry_without].
Qed.

Lemma discard_call m now ids errs d :
  reliable m → ready d →
  let d' := (call m (discard_many now ids errs worker) d).2 in ready d' ∧ without (Worker.retry_base c) worker ids d d'.
Proof.
  intros Hm Hd. apply call_without; [done..| |].
  - intros d0 Hd0 Ht. unfold discard_many. case_decide; [eauto|].
    pose proof (discard_ok now (unnest ids (Some <$> errs)) worker d0 Hd0) as (x & d' & E & Hok).
    destruct (DISCARD_MANY _ _ _ _) as [[[? ?] ?]|]; simplify_eq/=. eauto.
  - intros d0 a d1 E. split; [by eapply by_discard|by eapply discard_without].
Qed.

Lemma renew_call m now ids lease d :
  reliable m → ready d →
  let d' := (call m (renew_leases now ids worker lease) d).2 in ready d' ∧ without (Worker.retry_base c) worker [] d d'.
Proof.
  intros Hm Hd. apply call_without; [done..| |].
  - intros d0 Hd0 _. destruct (renew_ok now ids worker lease d0 Hd0) as (? & ? & ? & _). eauto.
  - intros d0 a d1 E. split; [by eapply by_renew|by eapply renew_without].
Qed.

(** ** Flushes *)

Lemma flush_lets_go w p f d :
  (∀ n, reliable (w n)) → ready d →
  let '(_, f', d') := flush w c worker p f d in
  ready d' ∧ without (Worker.retry_base c) worker (Worker.settled p) d d' ∧
  Worker.ids f' = Worker.ids f ∖ list_to_set (Worker.settled p).
Proof.
  intros Hw Hd. unfold flush. destruct (Z.eqb_spec (Worker.Pending_len p) 0) as [E0|_].
  { apply Worker.Pending_len_nil in E0 as (E1 & E2 & E3 & E4). unfold Worker.settled. rewrite E1, E2, E3, E4.
    split_and!; [done|apply without_refl|simpl; set_solver]. }
  unfold complete_many, complete_many_with_results.
  destruct (complete_call (w 0%nat) (at_time (w 0%nat)) (Worker.p_completed p)
    (replicate (length (Worker.p_completed p)) None) d (Hw _) Hd) as [R1 W1].
  set (d1 := (call (w 0%nat) _ d).2) in *.
  destruct (complete_call (w 1%nat) (at_time (w 1%nat)) (Worker.with_result p) (Some <$> Worker.results p) d1 (Hw _) R1) as [R2 W2].
  set (d2 := (call (w 1%nat) _ d1).2) in *.
  destruct (retry_call (w 2%nat) (at_time (w 2%nat)) (draw (w 2%nat)) (Worker.p_retry p) (Worker.retry_errors p)
    (Worker.retry_cap c) d2 (Hw _) R2) as [R3 W3].
  set (d3 := (call (w 2%nat) _ d2).2) in *.
  destruct (discard_call (w 3%nat) (at_time (w 3%nat)) (Worker.terminal p) (Worker.terminal_errors p) d3 (Hw _) R3) as [R4 W4].
  split_and!; [done| |].
  - unfold Worker.settled. eapply without_trans; [done|]. eapply without_trans; [done|]. by eapply without_trans.
  - simpl. unfold Worker.release. case_decide as E; [|done]. rewrite E. simpl. set_solver.
Qed.

(** ** Fetches *)

(** [d'] comes after [d] with no new lease for the worker but on [ids]. *)
Definition taken (ids : list Z) (d d' : db) : Prop :=
  ready d' ∧ ∀ i, owns worker d' i → owns worker d i ∨ i ∈ ids.

Lemma without_taken ids d d' : ready d' → without (Worker.retry_base c) worker ids d d' → taken [] d d'.
Proof. intros Hd [_ Ho]. split; [done|]. intros i [? _]%Ho. by left. Qed.

Lemma taken_trans ids ids' d d' d'' : taken ids d d' → taken ids' d' d'' → taken (ids ++ ids') d d''.
Proof.
  intros [_ H] [Hd H']. split; [done|]. intros i [[?|?]%H|?]%H'; rewrite elem_of_app; auto.
Qed.

Lemma leased_taken now lease chosen d l d' :
  reachable d' → tempered (Worker.retry_base c) d → leased_to now worker lease chosen d l d' →
  (∀ i r, (i, r) ∈ chosen → jobs d !! i = Some r) → taken (job_id <$> l) d d'.
Proof.
  intros Hd' Ht [Hl Hj] Hch. split; [split; [done|]|].
  - intros i r'. rewrite Hj. intros (r & Hr & ->)%fmap_Some. specialize (Ht i r Hr). simpl in Ht. by case_decide.
  - intros i (r' & Hr' & Hh). rewrite Hj in Hr'. apply fmap_Some in Hr' as (r & Hr & ->).
    case_decide as Hi; [right|left; by exists r].
    apply list_elem_of_fmap in Hi as ([i' r0] & -> & Hi). rewrite Hl. apply list_elem_of_fmap.
    exists (job_from i' (lease_row now worker lease r0)). split; [done|].
    apply list_elem_of_fmap. by exists (i', r0).
Qed.

(** What other sessions do before a statement. *)
Lemma others_taken m d : reliable m → ready d → taken [] d (others m d).
Proof.
  intros [_ Hr Hw] [Hd Ht]. eapply without_taken; [|apply Hw]. split.
  - eapply reachable_later; [exact Hd|apply Hr].
  - by apply (wo_tempered _ _ _ _ _ (Hw d)).
Qed.

Lemma unkeyed_taken m queues n lease d :
  reliable m → ready d → 0 <= n →
  ∃ l k d', deliver (link m) (FETCH_UNKEYED (at_time m) queues n worker lease (locked_rows m)) (others m d)
    = (Ok (l, k), d') ∧ taken (job_id <$> l) d d'.
Proof.
  intros Hm Hd Hn. pose proof (others_taken m d Hm Hd) as Ho. pose proof Ho as [[Hd0 Ht0] _].
  destruct (unkeyed_fetch (at_time m) queues n worker lease (locked_rows m) (others m d))
    as (chosen & l & d1 & E & (_ & Hch & _ & _) & Hl & _); [by apply reachable_ok|by eapply tempered_funded|done|].
  unfold deliver. rewrite (rel_link _ Hm), E. do 3 eexists. split; [done|].
  apply (taken_trans [] _ _ _ _ Ho). eapply leased_taken; [|done|done|intros i r Hi; by apply Hch].
  eapply reachable_later; [exact Hd0|]. eapply rtc_once, by_unkeyed, E.
Qed.

Lemma keyed_taken m queues n lease d :
  reliable m → ready d → 0 <= n →
  ∃ l d', deliver (link m) (FETCH_KEYED (at_time m) queues n worker lease (locked_rows m)) (others m d)
    = (Ok l, d') ∧ taken (job_id <$> l) d d'.
Proof.
  intros Hm Hd Hn. pose proof (others_taken m d Hm Hd) as Ho. pose proof Ho as [[Hd0 Ht0] _].
  destruct (keyed_fetch (at_time m) queues n worker lease (locked_rows m) (others m d))
    as (l & d1 & E & Hl & _); [by apply reachable_ok|by eapply tempered_funded|done|].
  unfold deliver. rewrite (rel_link _ Hm), E. do 2 eexists. split; [done|].
  apply (taken_trans [] _ _ _ _ Ho).
  eapply leased_taken; [|done|done|intros i r Hi; by apply keyed_picked in Hi as [? _]].
  eapply reachable_later; [exact Hd0|]. eapply rtc_once, by_keyed, E.
Qed.

Lemma fetch_taken (m1 m2 m3 : moment) queues n lease d :
  reliable m1 → reliable m2 → reliable m3 → ready d → 0 <= n →
  ∃ l d', fetch m1 m2 m3 queues n lease worker d = (Ok l, d') ∧ taken (job_id <$> l) d d'.
Proof.
  intros H1 H2 H3 Hd Hn. unfold fetch.
  destruct (unkeyed_taken m1 queues n lease d H1 Hd Hn) as (rows & k & d1 & -> & T1).
  set (x := if decide (rows = []) then _ else _).
  assert (∃ b d2, x = (Ok b, d2) ∧ taken [] d1 d2) as (b & d2 & -> & T2).
  { unfold x. case_decide.
    - unfold deliver. rewrite (rel_link _ H2). do 2 eexists. split; [done|]. apply others_taken; [done|apply T1].
    - do 2 eexists. split; [done|]. split; [apply T1|auto]. }
  pose proof (taken_trans _ _ _ _ _ T1 T2) as T. rewrite app_nil_r in T.
  destruct b; [|by do 2 eexists].
  destruct (keyed_taken m3 queues (Z.max (n - len rows) 1) lease d2 H3 (proj1 T)) as (l & d3 & -> & T3); [lia|].
  do 2 eexists. split; [done|]. rewrite fmap_app. by eapply taken_trans.
Qed.

(** ** Dispatch *)

(** Every job leased to the worker is in flight, or one of [l]. *)
Definition covered (f : Worker.InFlight) (l : list Z) (d : db) : Prop :=
  ready d ∧ ∀ i, owns worker d i → i ∈ Worker.ids f ∨ i ∈ l.

Lemma covered_without f l ids d d' :
  covered f l d → ready d' → without (Worker.retry_base c) worker ids d d' →
  covered f (List.filter (λ i, negb (bool_decide (i ∈ ids))) l) d'.
Proof.
  intros [_ H] Hd [_ Ho]. split; [done|]. intros i [Hi Hn]%Ho. apply H in Hi as [?|Hi]; [by left|right].
  rewrite list_elem_of_In, filter_In, <- list_elem_of_In. split; [done|]. by rewrite bool_decide_false.
Qed.

Lemma covered_sub f l l' d : (∀ i, i ∈ l → i ∈ l') → covered f l d → covered f l' d.
Proof. intros Hl [Hd H]. split; [done|]. intros i [?|?]%H; auto. Qed.

Lemma covered_step f l d d' :
  covered f l d → ready d' → without (Worker.retry_base c) worker [] d d' → covered f l d'.
Proof.
  intros Hc Hd Hw. eapply covered_sub; [|by eapply covered_without]. intros i.
  rewrite list_elem_of_In, filter_In, <- list_elem_of_In. tauto.
Qed.

Lemma prior_steps_covered m j f l d :
  reliable m → covered f l d → covered f l (prior_steps m j d).2.
Proof.
  intros Hm Hc. unfold prior_steps. destruct (_ && _); [|done].
  destruct (call_reads m (steps_for (job_id j)) d Hm (proj1 Hc)) as [Hd Hw].
  destruct (call m _ d) as [[]]; by eapply covered_step.
Qed.

Lemma dispatch_job_covered f j (w : world) rest buf reserved d :
  (∀ n, reliable (w n)) → covered f (reserved ++ job_id j :: rest) d →
  let '(_, reserved', d') := dispatch_job worker (buf, reserved, d) (j, w) in
  covered f (reserved' ++ rest) d'.
Proof.
  intros Hw Hc. unfold dispatch_job. apply (prior_steps_covered (w 0%nat) j) in Hc; [|done].
  destruct (prior_steps _ _ _) as [st d1]. simpl in Hc.
  destruct (Protocol.encode (dispatch_message j) _) as [[[]|e] buf'].
  - by rewrite <- app_assoc.
  - destruct (discard_call (w 1%nat) (at_time (w 1%nat)) [job_id j] [describe e] d1 (Hw _) (proj1 Hc)) as [Hd Hwo].
    eapply covered_sub; [|by eapply covered_without]. intros i.
    rewrite list_elem_of_In, filter_In, <- list_elem_of_In, negb_true_iff, bool_decide_eq_false.
    rewrite !elem_of_app, elem_of_cons, list_elem_of_singleton. tauto.
Qed.

Lemma dispatch_fold_covered f (jws : list (Job * world)) buf reserved d :
  Forall (λ jw : Job * world, ∀ n, reliable (jw.2 n)) jws → covered f (reserved ++ ((λ jw, job_id jw.1) <$> jws)) d →
  let '(_, reserved', d') := foldl (dispatch_job worker) (buf, reserved, d) jws in
  covered f reserved' d'.
Proof.
  intros Hw. revert buf reserved d. induction Hw as [|[j w] jws Hw _ IH]; intros buf reserved d Hc; cbn [foldl].
  - by rewrite app_nil_r in Hc.
  - pose proof (dispatch_job_covered f j w _ buf reserved d Hw Hc) as Hc'.
    destruct (dispatch_job worker (buf, reserved, d) (j, w)) as [[buf' reserved'] d']. by apply IH.
Qed.

Lemma batch_covered f (w : world) l d :
  (∀ n, reliable (w n)) → covered f (job_id <$> l) d →
  let '(_, reserved, d') := dispatch_batch w worker l d in covered f reserved d'.
Proof.
  intros Hw Hc. apply dispatch_fold_covered.
  - apply Forall_forall. intros jw (k & j & -> & _)%elem_of_lookup_imap n. apply Hw.
  - simpl. replace (_ <$> imap _ _) with (job_id <$> l); [done|].
    apply list_eq. intros k. rewrite !list_lookup_fmap, list_lookup_imap. by destruct (l !! k).
Qed.

Lemma round_covered (w : world) f d :
  (∀ n, reliable (w n)) → 0 <= Worker.batch c → covered f [] d →
  let '(_, f', d') := dispatch_round w c worker f d in covered f' [] d'.
Proof.
  intros Hw Hb Hc. unfold dispatch_round. destruct (Z.eqb_spec (Worker.available f) 0) as [_|Hav]; [done|].
  destruct (fetch_taken (w 0%nat) (w 1%nat) (w 2%nat) (Worker.queues c) (Z.min (Worker.batch c) (Worker.available f))
    (Worker.lease c) d) as (l & d' & -> & [Hd' T]); try done; [apply Hc|unfold Worker.available in *; lia|].
  assert (covered f (job_id <$> l) d') as Hl.
  { split; [done|]. intros i [Hi|?]%T; [|by right]. apply Hc in Hi as [?|?%elem_of_nil]; [by left|done]. }
  destruct l as [|j l]; [done|]. unfold dispatch_batch.
  pose proof (batch_covered f (later 3 w) (j :: l) d') as Hf. unfold dispatch_batch in Hf.
  destruct (foldl _ _ _) as [[buf reserved] d'']. specialize (Hf (λ n, Hw _) Hl). case_decide as E.
  - by rewrite <- E.
  - destruct Hf as [? Ho]. split; [done|]. intros i Hi%Ho. left. simpl.
    rewrite elem_of_union, elem_of_list_to_set. done.
Qed.

(** ** Handing back *)

(** Nobody interferes between the two statements and one sweep covers what is
    running. *)
Definition undisturbed (w : world) (d : db) : Prop :=
  quiet_world w ∧ at_time (w 0%nat) <= at_time (w 1%nat) ∧ count is_running d <= Worker.reclaim_limit c.

Lemma hand_back_run w f d :
  quiet_world w → ready d → 0 <= Worker.reclaim_limit c →
  let d' := (hand_back w c worker f d).2 in ready d' ∧ without (Worker.retry_base c) worker [] d d'.
Proof.
  intros Hw [Hd Ht] Hn. unfold hand_back. simpl. case_decide; [split; [done|apply without_refl]|].
  pose proof (reachable_ok _ Hd) as Hok.
  destruct (abandon_ok (at_time (w 0%nat)) (elements (Worker.ids f)) worker d Hok) as (k & d1 & E & Hd1).
  rewrite (call_quiet _ _ _ _ _ (Hw 0%nat) E).
  destruct (reclaim_ok (at_time (w 1%nat)) (Worker.reclaim_limit c) d1 Hn Hd1) as (k2 & d2 & E2 & _).
  rewrite (call_quiet _ _ _ _ _ (Hw 1%nat) E2). simpl.
  pose proof (without_trans _ _ _ _ _ _ _ (abandon_without (Worker.retry_base c) _ _ _ _ _ _ E)
    (reclaim_without (Worker.retry_base c) _ _ worker _ _ _ E2)) as Hwo.
  split; [split|done].
  - eapply reachable_later; [exact Hd|]. eapply rtc_l; [by eapply by_abandon|]. eapply rtc_once. by eapply by_reclaim.
  - by apply (wo_tempered _ _ _ _ _ Hwo).
Qed.

Lemma hand_back_frees w f d :
  undisturbed w d → covered f [] d →
  let '(f', d') := hand_back w c worker f d in covered f' [] d' ∧ ∀ i, ¬ owns worker d' i.
Proof.
  intros (Hw & Hle & Hn) Hc. pose proof Hc as [[Hd Ht] Ho].
  assert (0 <= count is_running d) by (unfold count, len; lia).
  pose proof (hand_back_run w f d Hw (proj1 Hc) ltac:(lia)) as [Hd' Hwo].
  pose proof (hand_back_recovers w c worker f d Hd Hw Hle Hn) as Hr.
  destruct (hand_back w c worker f d) as [f' d']. destruct Hr as [_ Hr]. simpl in *.
  assert (∀ i, ¬ owns worker d' i) as Hnone.
  { intros i Hi. pose proof Hi as (r' & Hr' & Hh'). apply Hwo in Hi as [(r & Hr0 & Hh) _].
    destruct (Ho i) as [Hi|?%elem_of_nil]; [by exists r| |done].
    destruct (Hr i r Hi Hr0 Hh) as (r1 & ? & Hl & _). simplify_eq. unfold held in Hh'. bool_facts. congruence. }
  split; [|done]. split; [done|]. by intros i ?%Hnone.
Qed.

(** ** Sessions *)

(** Everything that changes what one worker holds or has in flight. *)
Inductive duty : Worker.InFlight * db → Worker.InFlight * db → Prop :=
| rounds (w : world) f d : (∀ n, reliable (w n)) →
    duty (f, d) ((dispatch_round w c worker f d).1.2, (dispatch_round w c worker f d).2)
| flushes (w : world) p f d : (∀ n, reliable (w n)) →
    duty (f, d) ((flush w c worker p f d).1.2, (flush w c worker p f d).2)
| ticks_renew (m : moment) f d : reliable m → duty (f, d) (f, renew_tick m c worker f d)
| hands_back (w : world) f d : undisturbed w d → duty (f, d) (hand_back w c worker f d)
| others_run (m : moment) f d : reliable m → duty (f, d) (f, others m d).

Lemma duty_covered x y : 0 <= Worker.batch c → duty x y → covered x.1 [] x.2 → covered y.1 [] y.2.
Proof.
  intros Hb Hs Hc. destruct Hs as [w f d Hw|w p f d Hw|m f d Hm|w f d Hw|m f d Hm]; simpl in *.
  - pose proof (round_covered w f d Hw Hb Hc) as H. by destruct (dispatch_round w c worker f d) as [[? ?] ?].
  - pose proof (flush_lets_go w p f d Hw (proj1 Hc)) as H.
    destruct (flush w c worker p f d) as [[? f'] d']. destruct H as (Hd & Hwo & Hf). simpl. split; [done|].
    intros i [Hi Hn]%Hwo. apply Hc in Hi as [Hi|?%elem_of_nil]; [left|done].
    rewrite Hf, elem_of_difference, elem_of_list_to_set. done.
  - unfold renew_tick. case_decide; [done|].
    destruct (renew_call m (at_time m) (Worker.snapshot f) (Worker.lease c) d Hm (proj1 Hc)). by eapply covered_step.
  - pose proof (hand_back_frees w f d Hw Hc) as H. by destruct (hand_back w c worker f d) as [? ?], H.
  - destruct (others_taken m d Hm (proj1 Hc)) as [? Ho]. split; [done|].
    intros i [Hi|?%elem_of_nil]%Ho; [|done]. by apply Hc.
Qed.

Lemma duty_bounded x y :
  0 <= Worker.batch c → duty x y → reachable x.2 → Worker.limit x.1 = Worker.concurrency c →
  0 <= Worker.concurrency c → Worker.held x.1 <= Worker.concurrency c + 1 →
  Worker.limit y.1 = Worker.concurrency c ∧ Worker.held y.1 <= Worker.concurrency c + 1.
Proof.
  intros Hb Hs Hd Hl Hc Hh. rewrite <- Hl in *. destruct Hs as [w f d Hw|w p f d Hw| |w f d Hw|]; simpl in *; try done.
  - apply round_bounded; [done| |done..]. intros n. apply (Hw n).
  - unfold flush. destruct (_ =? _); [done|]. simpl. unfold Worker.release. case_decide; [done|]. simpl. split; [done|].
    etrans; [apply held_subset|exact Hh]. simpl. set_solver.
  - assert ((hand_back w c worker f d).1 = (Worker.take f).2) as ->.
    { unfold hand_back. simpl. case_decide; [done|]. by destruct (call _ _ _) as [[]]. }
    simpl. split; [done|]. change (0 <= Worker.limit f + 1). lia.
Qed.

Lemma count_owned f d :
  (∀ i, owns worker d i → i ∈ Worker.ids f) → count (λ _ r, held worker r) d <= Worker.held f.
Proof.
  intros H. unfold count, Worker.held, len. apply inj_le.
  rewrite <- (size_list_to_set (C := gset Z)) by apply NoDup_select. apply subseteq_size.
  intros i (r & Hr & Hh)%elem_of_list_to_set%elem_of_select. apply H. by exists r.
Qed.

(** The supervisor knows what it holds, as long as every round of dispatch runs to
    its end ([SystemLeases] has the interleavings): from a start with nothing leased,
    however rounds of dispatch, flushes, renewals, hand-backs and everybody
    else's statements alternate, as long as statements get through and nobody
    enqueues a job whose retries overflow, every job leased to the worker in the
    database is one the supervisor has in flight. So no worker ever holds more
    leases than its concurrency and the one keyed job a full fetch may add, and
    after a session dies and is handed back, the database holds no lease of it:
    every job it had is waiting again or dead-lettered if that was its last
    attempt. *)
Lemma leases_accounted f d d0 :
  0 <= Worker.batch c → 0 <= Worker.concurrency c →
  reachable d0 → tempered (Worker.retry_base c) d0 → count (λ _ r, held worker r) d0 = 0 →
  rtc duty (Worker.InFlight_new (Worker.concurrency c), d0) (f, d) →
  (∀ i r, jobs d !! i = Some r → held worker r = true → i ∈ Worker.ids f) ∧
  count (λ _ r, held worker r) d <= Worker.concurrency c + 1 ∧
  ∀ w, undisturbed w d →
    let d' := (hand_back w c worker f d).2 in
    count (λ _ r, held worker r) d' = 0 ∧
    ∀ i r, jobs d !! i = Some r → held worker r = true →
      ∃ r', jobs d' !! i = Some r' ∧ state r' = if attempts_left r then available else discarded.
Proof.
  intros Hb Hc Hd0 Ht Hz Hrun.
  assert (covered f [] d ∧ Worker.limit f = Worker.concurrency c ∧ Worker.held f <= Worker.concurrency c + 1)
    as (Hcov & Hl & Hh).
  { change (covered (f, d).1 [] (f, d).2 ∧ Worker.limit (f, d).1 = Worker.concurrency c ∧
      Worker.held (f, d).1 <= Worker.concurrency c + 1).
    revert Hrun. generalize (f, d). apply rtc_ind_r.
    - simpl. split; [|split; [done|change (0 <= Worker.concurrency c + 1); lia]]. split; [done|].
      intros i (r & Hr & Hh). assert (i ∈ select (λ _ r, held worker r) d0) as Hin by (apply elem_of_select; eauto).
      unfold count, len in Hz. destruct (select _ d0); [by apply elem_of_nil in Hin|done].
    - intros x y _ Hs (Hcov & Hl & Hh). split; [by eapply duty_covered|]. eapply duty_bounded; try done. apply Hcov. }
  assert (∀ i, owns worker d i → i ∈ Worker.ids f) as Ho.
  { intros i [?|?%elem_of_nil]%Hcov; done. }
  split_and!.
  - intros i r Hr Hhr. apply Ho. by exists r.
  - etrans; [by apply count_owned|done].
  - intros w Hw. pose proof (hand_back_frees w f d Hw Hcov) as Hf. destruct Hw as (Hq & Hle & Hn).
    pose proof (hand_back_recovers w c worker f d (proj1 (proj1 Hcov)) Hq Hle Hn) as Hr.
    destruct (hand_back w c worker f d) as [f' d']. destruct Hf as [_ Hnone], Hr as [_ Hr]. simpl. split.
    + assert (count (λ _ r, held worker r) d' <= 0); [|unfold count, len in *; lia].
      apply (count_owned (Worker.InFlight_new 0)). by intros i ?%Hnone.
    + intros i r Hr0 Hhr. destruct (Hr i r) as (r' & ? & _ & ?); [apply Ho; by exists r|done..|]. eauto.
Qed.

End Loops.

End WorkerOwnership.
