(* ===== verification/Observe.v ===== *)
(** * Metrics

    [crates/gylo-worker/src/observe.rs]: what the worker tells the [metrics]
    facade, as the list of calls it makes, and what its loops report. The
    recorder behind the facade is another crate's; what is shown is what the
    calls add up to. *)

From S2P Require Import Prelude.
From S2P Require Import Core.
From S2P Require Import Protocol.
From S2P Require Import Schedule.
From S2P Require Import PgTable.
From S2P Require Import PgJobs.
From S2P Require Import PgRetention.
From S2P Require Import PgInvariant.
From S2P Require Import PgSteps.
From S2P Require Import PgReach.
From S2P Require Import PgExample.
From S2P Require Import PgFetch.
From S2P Require Import PgSettle.
From S2P Require Import Worker.
From S2P Require Import WorkerLoop.
From S2P Require Import WorkerSafety.
From S2P Require Import WorkerTasks.
Import Table.
Import Jobs.
Import Retention.
Import Invariant.
Import Steps.
Import Reach.
Import Example.
Import Fetch.
Import Settle.
Import WorkerLoop.
Import WorkerSafety.
Import WorkerTasks.

Module Observe.

(** ** The facade *)

Inductive metric :=
| Increment (name : string) (by_ : Z)
| SetGauge (name : string) (labels : list (string * string)) (value : Z)
| RecordSeconds (name : string) (elapsed : Z).

(** [n as f64], for an integer: exact up to 2^53, then to the nearest with 53
    significant bits, ties to even. *)
Definition as_f64 (n : Z) : Z :=
  let e := Z.log2 (Z.abs n) - 52 in
  if e <=? 0 then n else
  let q := Z.abs n / 2 ^ e in
  let r := Z.abs n mod 2 ^ e in
  let half := 2 ^ (e - 1) in
  let q := if (half <? r) || ((half =? r) && Z.odd q) then q + 1 else q in
  Z.sgn n * (q * 2 ^ e).

(** ** Names *)

Definition LEASED := "gylo_jobs_leased_total".
Definition COMPLETED := "gylo_jobs_completed_total".
Definition RETRIED := "gylo_jobs_retried_total".
Definition DISCARDED := "gylo_jobs_discarded_total".
Definition RECLAIMED := "gylo_leases_reclaimed_total".
Definition EXHAUSTED := "gylo_leases_exhausted_total".
Definition RESTARTS := "gylo_child_restarts_total".
Definition CHILDREN := "gylo_children_running".
Definition READY := "gylo_queue_ready".
Definition SCHEDULED := "gylo_queue_scheduled".
Definition BLOCKED := "gylo_queue_blocked".
Definition RUNNING := "gylo_queue_running".
Definition FLUSH_SECONDS := "gylo_completion_flush_seconds".
Definition PRUNED := "gylo_jobs_pruned_total".

(** ** What is recorded *)

Definition leased (count : Z) : list metric := [Increment LEASED count].

Definition settled (completed retried discarded : Z) : list metric :=
  [Increment COMPLETED completed; Increment RETRIED retried; Increment DISCARDED discarded].

Definition flushed (elapsed : Z) : list metric := [RecordSeconds FLUSH_SECONDS elapsed].

(** [released.max(0) as u64]. *)
Definition reclaimed (released exhausted : Z) : list metric :=
  [Increment RECLAIMED (Z.max released 0); Increment EXHAUSTED (Z.max exhausted 0)].

Definition child_restarted : list metric := [Increment RESTARTS 1].

Definition children (count : Z) : list metric := [SetGauge CHILDREN [] (as_f64 count)].

Definition depth_of (queue : string) (depth : Depth) : list metric :=
  [SetGauge READY [("queue", queue)] (as_f64 (ready depth));
   SetGauge SCHEDULED [("queue", queue)] (as_f64 (depth_scheduled depth));
   SetGauge BLOCKED [("queue", queue)] (as_f64 (blocked depth));
   SetGauge RUNNING [("queue", queue)] (as_f64 (depth_running depth))].

Definition pruned (count : Z) : list metric := [Increment PRUNED count].

(** ** What the loops report *)

Section Loops.
Context {Pl : Planner} {R : Protocol.RmpSerde} {C : Schedule.CronCrate}.

(** [Pending::flush], timed from before its first statement. *)
Definition flush_reports (elapsed : Z) (p : Worker.Pending) : list metric :=
  if Worker.Pending_len p =? 0 then [] else
  settled (len (Worker.p_completed p) + len (Worker.with_result p)) (len (Worker.p_retry p))
    (len (Worker.terminal p)) ++ flushed elapsed.

(** A round of [dispatch] reports what it leased, also when that is nothing. *)
Definition round_reports (w : world) (c : Worker.Config) (worker : uuid) (f : Worker.InFlight) (d : db)
  : list metric :=
  let available := Worker.available f in
  if available =? 0 then [] else
  match (fetch (w 0%nat) (w 1%nat) (w 2%nat) (Worker.queues c) (Z.min (Worker.batch c) available)
           (Worker.lease c) worker d).1 with
  | Ok jobs => leased (len jobs)
  | Err _ => []
  end.

(** [recover] samples every queue, and reports a sweep that found anything. *)
Fixpoint sample_reports (w : world) (queues : list string) (d : db) : list metric * db :=
  match queues with
  | [] => ([], d)
  | q :: rest =>
    let '(sampled, d) := call (w 0%nat) (λ d, Ok (depth (at_time (w 0%nat)) q d, d)) d in
    let '(ms, d) := sample_reports (later 1 w) rest d in
    (match sampled with Ok x => depth_of q x | Err _ => [] end ++ ms, d)
  end.

Definition sweep_reports (outcome : Prelude.result db_error Reclaimed) : list metric :=
  match outcome with
  | Ok r => if (released r =? 0) && (exhausted r =? 0) then [] else reclaimed (released r) (exhausted r)
  | Err _ => []
  end.

(** [retain]'s tick. *)
Definition retain_reports (removed : Z) : list metric := if 0 <? removed then pruned removed else [].

(** A turn of [supervise]: a session that failed counts as a restart, whether or
    not another follows. *)
Definition supervise_reports (t : Worker.turn) : list metric :=
  if Worker.stop_before t then [] else
  match Worker.ended t with Ok _ => [] | Err _ => child_restarted end.

(** [collect_completions]: each of its flushes. *)
Definition flush_elapsed (w : world) (r : reader) : Z :=
  local_time (w (4 + ticks r)%nat) - local_time (w (ticks r)).

Definition reader_reports (w : world) (r : reader) : list metric :=
  flush_reports (flush_elapsed w r) (pending r).

Definition turn_reports (w : world) (c : Worker.Config) (e : event) (r : reader) : list metric :=
  match e with
  | Closed | Timer => reader_reports w r
  | Chunk bytes =>
    let '(msgs, stop, dec) := Protocol.read (decoder r) bytes in
    let r := set_decoder dec (foldl (handle w c) r msgs) in
    match stop with
    | Ret _ => if Worker.completion_batch c <=? Worker.Pending_len (pending r) then reader_reports w r else []
    | Throw _ | Panic => reader_reports w r
    end
  end.

Fixpoint collect_reports (w : world) (c : Worker.Config) (worker : uuid) (events : list event) (r : reader)
  : list metric :=
  match events with
  | [] => []
  | Timer :: rest =>
    if decide (deadline r = None) then collect_reports w c worker rest r
    else turn_reports w c Timer r ++ collect_reports w c worker rest (collect w c worker Timer r).2
  | e :: rest =>
    turn_reports w c e r ++
    match collect w c worker e r with
    | (true, r) => collect_reports w c worker rest r
    | (false, _) => []
    end
  end.

(** ** Totals *)

(** What a counter stands at after the calls. *)
Definition increment_of (name : string) (m : metric) : Z :=
  match m with Increment n k => if decide (n = name) then k else 0 | _ => 0 end.
Definition total (name : string) (ms : list metric) : Z := foldr (λ m acc, increment_of name m + acc) 0 ms.

(** The counter an outcome belongs to. *)
Definition counter_of (o : Protocol.Outcome) : string :=
  match o with
  | Protocol.Success _ => COMPLETED
  | Protocol.Failure _ true => RETRIED
  | Protocol.Failure _ false => DISCARDED
  end.

Definition tally (name : string) (reports : list (Z * Protocol.Outcome)) : Z :=
  len (List.filter (λ r : Z * Protocol.Outcome, bool_decide (counter_of r.2 = name)) reports).

Definition waiting_for (name : string) (p : Worker.Pending) : Z :=
  if decide (name = COMPLETED) then len (Worker.p_completed p) + len (Worker.with_result p)
  else if decide (name = RETRIED) then len (Worker.p_retry p)
  else if decide (name = DISCARDED) then len (Worker.terminal p)
  else 0.

Lemma total_app name a b : total name (a ++ b) = total name a + total name b.
Proof. induction a as [|m a IH]; simpl; [done|]. rewrite IH. lia. Qed.

Lemma tally_app name a b : tally name (a ++ b) = tally name a + tally name b.
Proof. unfold tally. by rewrite List.filter_app, len_app. Qed.

Lemma push_waiting name id o p :
  waiting_for name (Worker.push id o p) = waiting_for name p + tally name [(id, o)].
Proof.
  unfold waiting_for, tally. destruct o as [[|b l]|e [|]]; simpl;
    repeat (case_bool_decide || case_decide); simplify_eq; simpl; rewrite ?len_app; unfold len; simpl; try done; lia.
Qed.

Lemma flush_total name elapsed p : total name (flush_reports elapsed p) = waiting_for name p.
Proof.
  unfold flush_reports, waiting_for. destruct (Z.eqb_spec (Worker.Pending_len p) 0) as [E|_].
  - apply Worker.Pending_len_nil in E as (-> & -> & -> & ->). by repeat case_decide.
  - simpl. repeat case_decide; subst; try done; simpl; lia.
Qed.

Lemma waiting_default name : waiting_for name Worker.Pending_default = 0.
Proof. unfold waiting_for. by repeat case_decide. Qed.

Lemma handle_waiting name w c r msg :
  waiting_for name (pending (handle w c r msg)) = waiting_for name (pending r) + tally name (omap report [msg]).
Proof.
  destruct msg; simpl; rewrite ?Z.add_0_r; try done; [by destruct (call _ _ _)|apply push_waiting].
Qed.

Lemma handles_waiting name w c msgs r :
  waiting_for name (pending (foldl (handle w c) r msgs)) =
  waiting_for name (pending r) + tally name (omap report msgs).
Proof.
  revert r. induction msgs as [|msg msgs IH]; intros r; [simpl; unfold tally, len; simpl; lia|].
  simpl foldl. rewrite IH, handle_waiting. change (msg :: msgs) with ([msg] ++ msgs).
  rewrite omap_app, tally_app. lia.
Qed.

Lemma flush_reader_waiting name w c worker r : waiting_for name (pending (flush_reader w c worker r)) = 0.
Proof.
  unfold flush_reader, flush. destruct (Z.eqb_spec (Worker.Pending_len (pending r)) 0) as [E|_];
    [|apply waiting_default]. simpl. rewrite <- (flush_total name 0). unfold flush_reports. by rewrite E.
Qed.

(** One turn: what it read is reported or waits. *)
Lemma turn_balance name w c worker e r :
  total name (turn_reports w c e r) + waiting_for name (pending (collect w c worker e r).2) =
  waiting_for name (pending r) +
  match e with Chunk bytes => tally name (omap report (Protocol.read (decoder r) bytes).1.1) | _ => 0 end.
Proof.
  assert (∀ r, total name (reader_reports w r) + waiting_for name (pending (flush_reader w c worker r)) =
    waiting_for name (pending r)) as Hf.
  { intros r'. unfold reader_reports. rewrite flush_total, flush_reader_waiting. lia. }
  destruct e as [bytes| |]; [|rewrite Z.add_0_r; apply Hf..].
  unfold turn_reports, collect. pose proof (handles_waiting name w c (Protocol.read (decoder r) bytes).1.1 r) as Hh.
  destruct (Protocol.read (decoder r) bytes) as [[msgs stop] dec]. cbn [fst snd] in *. rewrite <- Hh.
  set (r1 := set_decoder dec (foldl (handle w c) r msgs)).
  change (pending (foldl (handle w c) r msgs)) with (pending r1).
  destruct stop as [[]|err|]; [destruct (_ <=? _); [apply Hf|done]|apply Hf..].
Qed.

Lemma collect_decodes w c worker bytes r :
  let '(_, stop, dec) := Protocol.read (decoder r) bytes in
  decoder (collect w c worker (Chunk bytes) r).2 = dec ∧
  (collect w c worker (Chunk bytes) r).1 = match stop with Ret _ => true | _ => false end.
Proof.
  unfold collect. destruct (Protocol.read (decoder r) bytes) as [[msgs stop] dec].
  destruct stop as [[]|err|]; try destruct (_ <=? _); (split; [|done]);
    first [done|exact (flush_decoder w c worker (set_decoder dec _))].
Qed.

Lemma collect_balance name w c worker events r :
  total name (collect_reports w c worker events r) +
    waiting_for name (pending (collect_completions w c worker events r).2) =
  waiting_for name (pending r) + tally name (omap report (Protocol.reads (decoder r) (chunks_of events)).1.1).
Proof.
  revert r. induction events as [|e events IH]; intros r; [simpl; unfold tally, len; simpl; lia|].
  pose proof (turn_balance name w c worker e r) as Ht.
  destruct e as [bytes| |]; cbn [collect_completions collect_reports chunks_of Protocol.reads].
  - pose proof (collect_decodes w c worker bytes r) as Hd.
    destruct (Protocol.read (decoder r) bytes) as [[msgs stop] dec].
    destruct (collect w c worker (Chunk bytes) r) as [going r1]. destruct Hd as [Hd Hg]. cbn [fst snd] in *.
    rewrite total_app. destruct stop as [[]|err|]; subst going; cbn [fst snd] in *; change (total name []) with 0; [|lia..].
    specialize (IH r1). rewrite Hd in IH.
    destruct (Protocol.reads dec (chunks_of events)) as [[ms' st'] d'']. cbn [fst snd] in *.
    rewrite omap_app, tally_app. lia.
  - rewrite total_app. change (collect w c worker Closed r) with (false, flush_reader w c worker r) in *.
    cbn [Protocol.reads fst snd] in *.
    change (tally name (omap report [])) with 0. change (total name []) with 0. lia.
  - case_decide; [apply IH|]. rewrite total_app. destruct (collect w c worker Timer r) as [going r1] eqn:E.
    specialize (IH r1). cbn [fst snd] in *.
    assert (decoder r1 = decoder r) as Hd.
    { unfold collect in E. injection E as _ <-. apply (flush_decoder w c worker r). }
    rewrite Hd in IH. lia.
Qed.

(** A reader that stops has flushed. *)
Lemma collect_stops name w c worker e r r' :
  collect w c worker e r = (false, r') → waiting_for name (pending r') = 0.
Proof.
  destruct e as [bytes| |]; unfold collect; [|intros E; injection E as <-; apply flush_reader_waiting|done].
  destruct (Protocol.read (decoder r) bytes) as [[msgs stop] dec].
  destruct stop as [[]|err|]; [by destruct (_ <=? _)|intros E; injection E as <-; apply flush_reader_waiting..].
Qed.

Lemma completions_stop name w c worker events r :
  (collect_completions w c worker events r).1 = false →
  waiting_for name (pending (collect_completions w c worker events r).2) = 0.
Proof.
  revert r. induction events as [|e events IH]; intros r; [done|].
  destruct e as [bytes| |]; cbn [collect_completions].
  - destruct (collect w c worker (Chunk bytes) r) as [[] r1] eqn:E; [apply IH|]. intros _. by eapply collect_stops.
  - intros _. apply flush_reader_waiting.
  - case_decide; [apply IH|]. destruct (collect w c worker Timer r) as [going r1]. apply IH.
Qed.

(** C21. The counters add up: whatever the child writes, however it is chunked
    and whenever the timer fires, the completed, retried and discarded totals are
    the outcomes of each kind read so far, but for those still in the buffer;
    when the reader stops, because the stream ends or cannot be read, they are
    exactly the outcomes read. Nothing is counted twice, under another name, or
    not at all. *)
Theorem counters_add_up w c worker events f d name :
  let reports := omap report (Protocol.reads Protocol.new (chunks_of events)).1.1 in
  let '(going, r) := collect_completions w c worker events (reader_new f d) in
  let counted := total name (collect_reports w c worker events (reader_new f d)) in
  counted = tally name reports - waiting_for name (pending r) ∧
  (going = false → counted = tally name reports).
Proof.
  pose proof (collect_balance name w c worker events (reader_new f d)) as H.
  pose proof (completions_stop name w c worker events (reader_new f d)) as Hr.
  destruct (collect_completions _ _ _ _ _) as [going r]. cbn [fst snd] in *.
  rewrite waiting_default in H. simpl in H. split; [simpl; lia|]. intros Hg. specialize (Hr Hg). simpl. lia.
Qed.

(** ** Permanent failures the counters call retries *)

(** A job that fails on its last attempt, as a task's exception is reported, is
    dead-lettered, and counted as retried and not as discarded. *)
Lemma exhausted_counts_as_retried w c worker f d i r error elapsed :
  db_ok d → quiet_world w → jobs d !! i = Some r → held worker r = true → attempts_left r = false →
  (∀ i r, jobs d !! i = Some r → held worker r = true → overflows (Worker.retry_base c) (attempt r) = false) →
  let p := Worker.push i (Protocol.Failure error true) Worker.Pending_default in
  (∃ r', jobs (flush w c worker p f d).2 !! i = Some r' ∧ state r' = discarded) ∧
  total RETRIED (flush_reports elapsed p) = 1 ∧ total DISCARDED (flush_reports elapsed p) = 0.
Proof.
  intros Hd Hw Hr Hh Hl Ho p. split; [|done].
  destruct (flush_rows w c worker p f d Hd Hw) as (_ & _ & _ & Hrows); [apply NoDup_singleton|intros j q _; apply Ho|].
  destruct (Hrows i r Hr Hh) as (_ & _ & Hretry & _).
  eexists. split; [apply (Hretry 0%nat); done|]. by rewrite Hl.
Qed.

(** A gauge shows a count as it is, up to 2^53. *)
Lemma as_f64_exact n : Z.abs n < 2 ^ 53 → as_f64 n = n.
Proof.
  intros Hn. unfold as_f64. destruct (Z.leb_spec (Z.log2 (Z.abs n) - 52) 0) as [|H]; [done|].
  assert (Z.log2 (Z.abs n) < 53); [|lia]. destruct (decide (n = 0)) as [->|]; [done|].
  apply Z.log2_lt_pow2; lia.
Qed.

End Loops.
End Observe.
