(* ===== verification/Drain.v ===== *)
(** * The drain benchmark

    [crates/gylo-pg/examples/drain.rs]: several leasers empty one queue at the
    same time, each leasing a batch and completing it until it finds none. As a
    machine in which any leaser may take the next turn. *)

From S2P Require Import Prelude.
From S2P Require Import Core.
From S2P Require Import PgTable.
From S2P Require Import PgJobs.
From S2P Require Import PgInvariant.
From S2P Require Import PgSteps.
From S2P Require Import PgReach.
From S2P Require Import PgExample.
From S2P Require Import PgFetch.
From S2P Require Import PgSettle.
From S2P Require Import WorkerSafety.
Import Table.
Import Jobs.
Import Invariant.
Import Steps.
Import Reach.
Import Example.
Import Fetch.
Import Settle.

Module Drain.

(** ** The program *)

Definition QUEUE : string := "drainbench".

(** [Duration::from_secs(30)]. *)
Definition LEASE : Z := 30 * 1000000.

(** [DELETE FROM gylo_job WHERE queue = $1]. *)
Definition clear (d : db) : db :=
  delete_jobs (select (λ _ r, bool_decide (queue (spec r) = QUEUE)) d) d.

Definition noop : NewJob := on_queue QUEUE (NewJob_new "bench.noop" []).

(** The transaction that enqueues [n] jobs. *)
Fixpoint fill (n : nat) (now : Z) (d : db) : Prelude.result db_error db :=
  match n with
  | O => Ok d
  | S n => '(_, d) ← enqueue now noop d; fill n now d
  end.

(** A task between two of its statements. *)
Inductive leaser := Leasing | Holding (ids : list Z) | Returned.

Record bench := { store : db; leasers : list leaser; drained : Z }.

Section Run.
Context {Pl : Planner}.
Variables (worker : nat → uuid) (batch : Z).

(** One turn of task [k]: its fetch (the two or three statements of one, with nobody
    between them and no rows locked), or the completion of what it fetched. [None] is
    an [expect] that panics. *)
Definition act (now : Z) (k : nat) (b : bench) : option bench :=
  match leasers b !! k with
  | Some Leasing =>
    match fetch (quiet now) (quiet now) (quiet now) [QUEUE] batch LEASE (worker k) (store b) with
    | (Ok fetched, d) => Some {|
        store := d; drained := drained b;
        leasers := <[k := if decide (fetched = []) then Returned else Holding (job_id <$> fetched)]> (leasers b) |}
    | (Err _, _) => None
    end
  | Some (Holding ids) =>
    match complete_many now ids (worker k) (store b) with
    | Ok (_, d) => Some {|
        store := d; drained := drained b + len ids; leasers := <[k := Leasing]> (leasers b) |}
    | Err _ => None
    end
  | Some Returned | None => Some b
  end.

(** The turns that are taken, each at its time. *)
Fixpoint run (turns : list (Z * nat)) (b : bench) : option bench :=
  match turns with
  | [] => Some b
  | (now, k) :: rest => b ← act now k b; run rest b
  end.

(** One measurement, up to the tasks: an empty queue, filled, and [n] leasers. *)
Definition setup (jobs n : nat) (now : Z) (d : db) : Prelude.result db_error bench :=
  d ← fill jobs now (clear d);
  Ok {| store := d; leasers := replicate n Leasing; drained := 0 |}.

(** ** What holds throughout *)

(** A job of the queue: enqueued at [t], it waits, runs or is done, for the first
    time. *)
Definition plain (t : Z) (r : job_row) : Prop :=
  keyed r = false ∧ 0 < max_attempts (spec r) ∧
  match state r with
  | available => scheduled_at r = At t ∧ attempt r = 0
  | running | completed => attempt r = 1
  | discarded | cancelled => False
  end.

Definition ours_row (d : db) (i : Z) (r : job_row) : Prop := jobs d !! i = Some r ∧ queue (spec r) = QUEUE.

(** [all] are the jobs of the queue and [finished] those counted. *)
Record draining (t : Z) (all finished : list Z) (b : bench) : Prop := {
  dr_ok : db_ok (store b);
  dr_rows i r : ours_row (store b) i r → plain t r;
  dr_all i : i ∈ all ↔ ∃ r, ours_row (store b) i r;
  dr_held k ids : leasers b !! k = Some (Holding ids) →
    NoDup ids ∧ ids ≠ [] ∧ ∀ i, i ∈ ids → ∃ r, ours_row (store b) i r ∧ held (worker k) r = true;
  dr_running i r : ours_row (store b) i r → state r = running →
    ∃ k ids, leasers b !! k = Some (Holding ids) ∧ i ∈ ids;
  dr_finished : NoDup finished ∧ (∀ i, i ∈ finished ↔ ∃ r, ours_row (store b) i r ∧ state r = completed) ∧
    drained b = len finished;
  dr_returned k : leasers b !! k = Some Returned →
    ∀ i r, ours_row (store b) i r → state r ≠ available }.

Lemma plain_pending d t i r : db_ok d → jobs d !! i = Some r → plain t r → pending_deps r = 0.
Proof.
  intros Hd Hr (_ & _ & Hp). pose proof (rows_ok _ Hd i r Hr) as Hok. pose proof (ok_checks _ Hok) as (_&_&_&_&?).
  destruct (state r) eqn:Es; try done; try (apply (ok_met r Hok); congruence).
  destruct (decide (0 < pending_deps r)) as [Hlt|]; [|lia].
  apply (ok_parked r Hok) in Hlt; [destruct Hp; congruence|by left].
Qed.

(** ** A fetch *)

Lemma fetch_leases t now k d :
  db_ok d → 1 <= batch → t <= now → (∀ i r, ours_row d i r → plain t r) →
  ∃ chosen l d', fetch (quiet now) (quiet now) (quiet now) [QUEUE] batch LEASE (worker k) d = (Ok l, d') ∧
    db_ok d' ∧ best_of (open_unkeyed now [QUEUE] ∅) batch d chosen ∧
    leased_to now (worker k) LEASE chosen d l d'.
Proof.
  intros Hd Hb Ht Hq.
  destruct (unkeyed_fetch now [QUEUE] batch (worker k) LEASE ∅ d Hd) as (chosen & l & d' & E & Hbest & Hl & Hd');
    [intros i r Hr Hi%list_elem_of_singleton; by apply (Hq i)|lia|].
  assert (∀ x, db_ok x → (∀ i r, ours_row x i r → plain t r) → KEYED_WAITING now [QUEUE] x = false) as Hkw.
  { intros x Hx Hqx. unfold KEYED_WAITING. apply bool_decide_eq_false. intros Hn. apply Hn.
    apply select_nothing. intros i r Hr. destruct (runnable now [QUEUE] r) eqn:Er; [|done]. simpl.
    unfold runnable in Er. bool_facts. apply (Hqx i). split; [done|]. by apply list_elem_of_singleton. }
  assert (∀ i r, ours_row d' i r → plain t r) as Hq'.
  { intros i r [Hr Hqr]. destruct Hl as [_ Hj]. rewrite Hj in Hr. apply fmap_Some in Hr as (r0 & Hr0 & ->).
    case_decide as Hi; [|by apply (Hq i)]. destruct (Hq i r0) as (Hk & Hm & Hp); [by split|]. split_and!; [done|done|].
    apply list_elem_of_fmap in Hi as ([i' r1] & -> & Hi). destruct Hbest as (_ & Hch & _). apply Hch in Hi as [Hr1 Ho].
    simpl in *. simplify_eq. unfold open_unkeyed, runnable in Ho. bool_facts.
    match goal with H : state _ = available |- _ => rewrite H in Hp end. destruct Hp as [_ ->]. done. }
  exists chosen, l, d'. split_and!; try done. unfold fetch, deliver. simpl. rewrite E. simpl.
  case_decide; simpl; rewrite Hkw; done.
Qed.

Lemma leased_ours now k chosen d l d' i r' :
  leased_to now (worker k) LEASE chosen d l d' →
  ours_row d' i r' ↔
  ∃ r, ours_row d i r ∧ r' = if decide (i ∈ chosen.*1) then lease_row now (worker k) LEASE r else r.
Proof.
  intros [_ Hj]. unfold ours_row. rewrite Hj. split.
  - intros [Hr Hq]. apply fmap_Some in Hr as (r & Hr & ->). exists r. split; [|done]. split; [done|]. by case_decide.
  - intros (r & [Hr Hq] & ->). rewrite Hr. simpl. split; [done|]. by case_decide.
Qed.

Lemma leased_ids now k chosen d l d' :
  leased_to now (worker k) LEASE chosen d l d' → job_id <$> l ≡ₚ chosen.*1.
Proof.
  intros [Hl _]. rewrite Hl, <- list_fmap_compose. apply reflexive_eq, list_fmap_ext. by intros ? [i r] _.
Qed.

(** A job of the queue that waits is one the fetch may take. *)
Lemma waiting_open t now d i r :
  t <= now → ours_row d i r → plain t r → state r = available → open_unkeyed now [QUEUE] ∅ i r = true.
Proof.
  intros Ht [_ Hq] (Hk & _ & Hp) Hs. rewrite Hs in Hp. destruct Hp as [Hp _]. unfold open_unkeyed, runnable. rewrite Hk, Hs, Hp, Hq.
  rewrite !bool_decide_true by (done || apply list_elem_of_here). rewrite bool_decide_false by set_solver.
  simpl. rewrite !andb_true_r. by apply Z.leb_le.
Qed.

Lemma fetch_keeps t all finished now k b :
  1 <= batch → t <= now → draining t all finished b → leasers b !! k = Some Leasing →
  ∃ b', act now k b = Some b' ∧ draining t all finished b'.
Proof.
  intros Hb Ht Hdr Hk. unfold act. rewrite Hk. destruct Hdr as [Hd Hrows Hall Hheld Hrun Hfin Hret].
  destruct (fetch_leases t now k (store b) Hd Hb Ht Hrows) as (chosen & l & d' & -> & Hd' & (Hnd & Hch & Hlen & _) & Hl).
  pose proof (leased_ours now k chosen (store b) l d') as Hours. pose proof (leased_ids _ _ _ _ _ _ Hl) as Hids.
  assert (∀ i, i ∈ chosen.*1 → ∃ r, ours_row (store b) i r ∧ state r = available) as Hopen.
  { intros i ([i' r] & -> & Hi)%list_elem_of_fmap. apply Hch in Hi as [Hr Ho]. exists r.
    unfold open_unkeyed, runnable in Ho. bool_facts. split; [|done]. split; [done|]. by apply list_elem_of_singleton. }
  eexists. split; [done|]. split; simpl.
  - done.
  - intros i r' (r & Hr & ->)%Hours; [|done]. destruct (Hrows i r Hr) as (? & ? & Hp). case_decide as Hi; [|done]. split_and!; [done|done|].
    destruct (Hopen i Hi) as (r0 & [] & Hs). destruct Hr. simplify_eq. rewrite Hs in Hp. simpl. lia.
  - intros i. rewrite Hall. split; intros [r Hr]; [eexists; apply Hours; eauto|].
    apply Hours in Hr as (r0 & ? & _); [eauto|done].
  - intros j ids Hj. destruct (decide (j = k)) as [->|Hne].
    + rewrite list_lookup_insert_eq in Hj by by eapply lookup_lt_Some. case_decide; simplify_eq.
      split_and!; [by rewrite Hids|by intros E%fmap_nil_inv|]. intros i Hi. rewrite Hids in Hi.
      destruct (Hopen i Hi) as (r & Hr & _). exists (lease_row now (worker k) LEASE r).
      split; [|by unfold held; rewrite !bool_decide_true].
      apply Hours; [done|]. exists r. split; [done|]. by rewrite decide_True.
    + rewrite list_lookup_insert_ne in Hj by done. destruct (Hheld j ids Hj) as (? & ? & Hh). split_and!; try done.
      intros i (r & Hr & Hhr)%Hh. exists r. split; [|done]. apply Hours; [done|]. exists r. split; [done|].
      rewrite decide_False; [done|]. intros (r0 & [] & ?)%Hopen. destruct Hr. apply held_running in Hhr. congruence.
  - intros i r' (r & Hr & ->)%Hours Hs; [|done]. case_decide as Hi.
    + exists k, (job_id <$> l). rewrite list_lookup_insert_eq by by eapply lookup_lt_Some.
      assert (i ∈ job_id <$> l) as Hin by by rewrite Hids.
      rewrite decide_False; [done|]. intros ->. by apply elem_of_nil in Hin.
    + destruct (Hrun i r Hr Hs) as (j & ids & Hj & Hin). exists j, ids. split; [|done].
      rewrite list_lookup_insert_ne; [done|]. congruence.
  - destruct Hfin as (? & Hf & ?). split_and!; try done. intros i. rewrite Hf. split.
    + intros (r & Hr & Hs). exists r. split; [|done]. apply Hours; [done|]. exists r. split; [done|].
      rewrite decide_False; [done|]. intros (r0 & [] & ?)%Hopen. destruct Hr. congruence.
    + intros (r' & (r & Hr & ->)%Hours & Hs); [|done]. exists r. split; [done|]. by case_decide.
  - intros j Hj i r' (r & Hr & ->)%Hours; [|done]. destruct (decide (i ∈ chosen.*1)) as [Hi|Hi]; [done|]. destruct (decide (j = k)) as [->|Hne].
    + rewrite list_lookup_insert_eq in Hj by by eapply lookup_lt_Some. case_decide as El; simplify_eq. simpl in Hids.
      intros Hs. assert (open_unkeyed now [QUEUE] ∅ i r = true) as Ho by (eapply waiting_open; eauto).
      assert (i ∈ select (open_unkeyed now [QUEUE] ∅) (store b)) as Hin.
      { apply elem_of_select. destruct Hr. eauto. }
      symmetry in Hids. apply Permutation_nil_r, fmap_nil_inv in Hids. subst chosen.
      unfold count, len in Hlen. destruct (select _ _); [by apply elem_of_nil in Hin|]. simpl in Hlen. lia.
    + rewrite list_lookup_insert_ne in Hj by done. eauto.
Qed.

(** ** A completion *)

Lemma complete_rows now ids rs w d n d' i r' :
  complete now ids rs w d = Ok (n, d') → jobs d' !! i = Some r' → ∃ r, jobs d !! i = Some r ∧ spec r' = spec r.
Proof.
  unfold complete. case_decide; [intros; simplify_eq; eauto|]. unfold COMPLETE.
  destruct (commit _) as [d1|] eqn:Ec; simpl; [|done]. intros ?; simplify_eq.
  apply commit_Ok in Ec as (-> & _). intros (r & Hr & ->)%lookup_update_Some. exists r. split; [done|].
  by destruct (complete_cases now (unnest ids rs) w d i r Hr).
Qed.

Lemma complete_ours t now k ids d :
  db_ok d → NoDup ids → ids ≠ [] → (∀ i r, ours_row d i r → plain t r) →
  (∀ i, i ∈ ids → ∃ r, ours_row d i r ∧ held (worker k) r = true) →
  ∃ n d', complete_many now ids (worker k) d = Ok (n, d') ∧ db_ok d' ∧
    ∀ i r', ours_row d' i r' ↔
      ∃ r, ours_row d i r ∧ r' = if decide (i ∈ ids) then complete_row now None r else r.
Proof.
  intros Hd Hnd Hne Hq Hh. unfold complete_many.
  destruct (complete_exact now ids (replicate (length ids) None) (worker k) d Hd Hnd Hne) as (d' & E & Hd' & Hin & Hout).
  do 2 eexists. split; [exact E|]. split; [done|].
  assert (∀ i r, ours_row d i r → jobs d' !! i = Some (if decide (i ∈ ids) then complete_row now None r else r)) as Hfw.
  { intros i r Hr. case_decide as Hi.
    - destruct (Hh i Hi) as (r0 & Hr0 & Hhr). destruct Hr as [Hr _], Hr0 as [Hr0 _]. simplify_eq.
      apply list_elem_of_lookup in Hi as [m Hm]. rewrite (Hin m i r Hm Hr Hhr).
      by rewrite lookup_replicate_2 by by eapply lookup_lt_Some.
    - pose proof (Hq i r Hr) as Hp. destruct Hr as [Hr _]. rewrite (Hout i r Hr).
      2:{ unfold ours. rewrite (bool_decide_false _ Hi). apply andb_false_r. }
      rewrite (WorkerSafety.edges_from_zero d _ i r); [done..|exact (plain_pending d t i r Hd Hr Hp)|].
      apply WorkerSafety.ours_open. }
  intros i r'. split.
  - intros [Hr' Hqr]. destruct (complete_rows _ _ _ _ _ _ _ _ _ E Hr') as (r & Hr & Es).
    assert (ours_row d i r) as Ho by (split; congruence). exists r. split; [done|]. apply Hfw in Ho. congruence.
  - intros (r & Hr & ->). split; [by apply Hfw|]. destruct Hr. by case_decide.
Qed.

Lemma complete_keeps t all finished now k ids b :
  Inj eq eq worker → draining t all finished b → leasers b !! k = Some (Holding ids) →
  ∃ b', act now k b = Some b' ∧ draining t all (finished ++ ids) b'.
Proof.
  intros Hinj Hdr Hk. unfold act. rewrite Hk. destruct Hdr as [Hd Hrows Hall Hheld Hrun (Hnd & Hf & Htot) Hret].
  destruct (Hheld k ids Hk) as (Hn & Hne & Hh).
  destruct (complete_ours t now k ids (store b) Hd Hn Hne Hrows Hh) as (n & d' & -> & Hd' & Hours).
  eexists. split; [done|]. split; simpl.
  - done.
  - intros i r' (r & Hr & ->)%Hours. destruct (Hrows i r Hr) as (? & ? & Hp). case_decide as Hi; [|done]. split_and!; [done|done|].
    destruct (Hh i Hi) as (r0 & [] & Hs%held_running). destruct Hr. simplify_eq. by rewrite Hs in Hp.
  - intros i. rewrite Hall. split; intros [r Hr]; [eexists; apply Hours; eauto|].
    apply Hours in Hr as (r0 & ? & _). eauto.
  - intros j l Hj. destruct (decide (j = k)) as [->|Hjk].
    { by rewrite list_lookup_insert_eq in Hj by by eapply lookup_lt_Some. }
    rewrite list_lookup_insert_ne in Hj by done. destruct (Hheld j l Hj) as (? & ? & Hhj). split_and!; try done.
    intros i (r & Hr & Hhr)%Hhj. exists r. split; [|done]. apply Hours. exists r. split; [done|].
    rewrite decide_False; [done|]. intros (r0 & Hr0 & Hhr0)%Hh. destruct Hr, Hr0. simplify_eq.
    unfold held in *. bool_facts. apply Hjk, Hinj. congruence.
  - intros i r' (r & Hr & ->)%Hours Hs. case_decide as Hi; [done|].
    destruct (Hrun i r Hr Hs) as (j & l & Hj & Hin). exists j, l. split; [|done].
    rewrite list_lookup_insert_ne; [done|]. intros ->. simplify_eq.
  - split_and!.
    + apply NoDup_app. split_and!; [done| |done]. intros i (r & Hr & Hs)%Hf (r0 & Hr0 & Hhr%held_running)%Hh.
      destruct Hr, Hr0. simplify_eq. congruence.
    + intros i. rewrite elem_of_app, Hf. split.
      * intros [(r & Hr & Hs)|Hi].
        -- eexists. split; [apply Hours; eauto|]. by case_decide.
        -- destruct (Hh i Hi) as (r & Hr & _). eexists. split; [apply Hours; eauto|]. by rewrite decide_True.
      * intros (r' & (r & Hr & ->)%Hours & Hs). case_decide; [by right|left; eauto].
    + rewrite len_app, Htot. done.
  - intros j Hj i r' (r & Hr & ->)%Hours. case_decide; [done|]. destruct (decide (j = k)) as [->|Hjk].
    { by rewrite list_lookup_insert_eq in Hj by by eapply lookup_lt_Some. }
    rewrite list_lookup_insert_ne in Hj by done. eauto.
Qed.

(** ** Turns *)

(** Work left: two statements for each job that waits, one for each that runs,
    and one for each task that is still there. *)
Definition waiting (_ : Z) (r : job_row) : bool :=
  bool_decide (queue (spec r) = QUEUE) && bool_decide (state r = available).
Definition unfinished (_ : Z) (r : job_row) : bool :=
  bool_decide (queue (spec r) = QUEUE) && negb (bool_decide (state r = completed)).
Definition active (l : leaser) : bool := match l with Returned => false | _ => true end.
Definition actives (ls : list leaser) : Z := len (List.filter active ls).
Definition work (b : bench) : Z :=
  count waiting (store b) + count unfinished (store b) + actives (leasers b).

(** The turns taken by tasks that had not returned. *)
Definition busy (k : nat) (b : bench) : bool := match leasers b !! k with Some l => active l | None => false end.

Fixpoint spent (turns : list (Z * nat)) (b : bench) : Z :=
  match turns with
  | [] => 0
  | (now, k) :: rest =>
    (if busy k b then 1 else 0) + match act now k b with Some b => spent rest b | None => 0 end
  end.

Lemma count_less p d d' i r :
  (∀ j r', jobs d' !! j = Some r' → p j r' = true → ∃ r, jobs d !! j = Some r ∧ p j r = true) →
  jobs d !! i = Some r → p i r = true → (∀ r', jobs d' !! i = Some r' → p i r' = false) →
  count p d' + 1 <= count p d.
Proof.
  intros Hm Hr Hp Hn. assert (i :: select p d' ⊆+ select p d) as H%submseteq_length.
  - apply NoDup_submseteq.
    + apply NoDup_cons. split; [|apply NoDup_select]. intros (r' & Hr' & E)%elem_of_select. by rewrite (Hn r') in E.
    + intros j [->|(r' & Hr' & E)%elem_of_select]%elem_of_cons; apply elem_of_select; eauto.
  - unfold count, len. simpl in H. lia.
Qed.

Lemma actives_insert ls k l l' :
  ls !! k = Some l → actives (<[k := l']> ls) =
  actives ls + (if active l' then 1 else 0) - (if active l then 1 else 0).
Proof.
  unfold actives. revert k. induction ls as [|x ls IH]; intros [|k] H; simplify_eq/=.
  - destruct (active l), (active l'); rewrite ?len_cons; lia.
  - specialize (IH k H). destruct (active x); rewrite ?len_cons; lia.
Qed.

Lemma row_waiting d i r : jobs d !! i = Some r → waiting i r = true ↔ ours_row d i r ∧ state r = available.
Proof. intros Hr. unfold waiting, ours_row. rewrite andb_true_iff, !bool_decide_eq_true. tauto. Qed.

Lemma row_unfinished d i r : jobs d !! i = Some r → unfinished i r = true ↔ ours_row d i r ∧ state r ≠ completed.
Proof.
  intros Hr. unfold unfinished, ours_row. rewrite andb_true_iff, negb_true_iff, bool_decide_eq_true, bool_decide_eq_false. tauto.
Qed.

(** What a turn leaves to do, from what it does to the rows of the queue. *)
Lemma count_le (p : Z → job_row → bool) (d d' : db) (P : job_row → Prop) :
  (∀ x i r, jobs x !! i = Some r → p i r = true ↔ ours_row x i r ∧ P r) →
  (∀ i r', ours_row d' i r' → P r' → ∃ r, ours_row d i r ∧ P r) → count p d' <= count p d.
Proof.
  intros Hp H. apply count_mono. intros i r' Hr' E. apply (Hp d') in E as [Ho HP]; [|done].
  destruct (H i r' Ho HP) as (r & Hr & HP'). exists r. split; [apply Hr|]. apply (Hp d); [apply Hr|done].
Qed.

Lemma count_lt (p : Z → job_row → bool) (d d' : db) (P : job_row → Prop) i r :
  (∀ x i r, jobs x !! i = Some r → p i r = true ↔ ours_row x i r ∧ P r) →
  (∀ i r', ours_row d' i r' → P r' → ∃ r, ours_row d i r ∧ P r) →
  ours_row d i r → P r → (∀ r', ours_row d' i r' → ¬ P r') → count p d' + 1 <= count p d.
Proof.
  intros Hp H Ho HP Hn. eapply count_less; [|apply Ho|apply (Hp d); [apply Ho|done]|].
  - intros j r' Hr' E. apply (Hp d') in E as [Ho' HP']; [|done].
    destruct (H j r' Ho' HP') as (r0 & Hr0 & HP0). exists r0. split; [apply Hr0|]. apply (Hp d); [apply Hr0|done].
  - intros r' Hr'. apply not_true_is_false. intros E. apply (Hp d') in E as [Ho' HP']; [|done]. by apply (Hn r').
Qed.

Lemma fetch_work t all finished now k b b' :
  1 <= batch → t <= now → draining t all finished b → leasers b !! k = Some Leasing →
  act now k b = Some b' → work b' + 1 <= work b ∧ length (leasers b') = length (leasers b).
Proof.
  intros Hb Ht Hd E Ea. unfold act in Ea. rewrite E in Ea. unfold work.
  destruct (fetch_leases t now k (store b) (dr_ok _ _ _ _ Hd) Hb Ht (dr_rows _ _ _ _ Hd))
    as (chosen & l & d' & Ef & _ & (_ & Hch & _) & Hl).
  rewrite Ef in Ea. injection Ea as <-. simpl. split; [|apply length_insert]. rewrite (actives_insert _ _ _ _ E).
  pose proof (leased_ours now k chosen (store b) l d') as Hours. pose proof (leased_ids _ _ _ _ _ _ Hl) as Hids.
  assert (count unfinished d' <= count unfinished (store b)).
  { apply (count_le _ _ _ (λ r, state r ≠ completed) row_unfinished).
    intros i r' (r & Hr & ->)%Hours Hs; [|done]. exists r. split; [done|]. case_decide as Hin; [|done].
    apply list_elem_of_fmap in Hin as ([i' r1] & -> & Hin). apply Hch in Hin as [Hr1 Ho]. destruct Hr as [Hr _].
    simpl in *. simplify_eq. unfold open_unkeyed, runnable in Ho. bool_facts. congruence. }
  assert (∀ i r', ours_row d' i r' → state r' = available → ∃ r, ours_row (store b) i r ∧ state r = available) as Hback.
  { intros i r' (r & Hr & ->)%Hours Hs; [|done]. exists r. split; [done|]. by case_decide. }
  case_decide as El; simpl.
  - assert (count waiting d' <= count waiting (store b)); [|lia].
    apply (count_le _ _ _ (λ r, state r = available) row_waiting Hback).
  - assert (count waiting d' + 1 <= count waiting (store b)); [|lia].
    destruct l as [|j l]; [done|]. assert (job_id j ∈ chosen.*1) as Hin by (rewrite <- Hids; left).
    pose proof Hin as ([i r] & Ei & [Hr Ho]%Hch)%list_elem_of_fmap. simpl in Ei.
    unfold open_unkeyed, runnable in Ho. bool_facts.
    apply (count_lt _ _ _ (λ r, state r = available) i r row_waiting Hback); [|done|].
    + split; [done|]. by apply list_elem_of_singleton.
    + intros r' (r0 & _ & ->)%Hours; [|done]. rewrite decide_True by congruence. done.
Qed.

Lemma complete_work t all finished now k ids b b' :
  draining t all finished b → leasers b !! k = Some (Holding ids) →
  act now k b = Some b' → work b' + 1 <= work b ∧ length (leasers b') = length (leasers b).
Proof.
  intros Hd E Ea. unfold act in Ea. rewrite E in Ea. unfold work.
  destruct (dr_held _ _ _ _ Hd k ids E) as (Hn & Hne & Hh).
  destruct (complete_ours t now k ids (store b) (dr_ok _ _ _ _ Hd) Hn Hne (dr_rows _ _ _ _ Hd) Hh)
    as (n & d' & Ec & _ & Hours).
  rewrite Ec in Ea. injection Ea as <-. simpl. split; [|apply length_insert].
  rewrite (actives_insert _ _ _ _ E). simpl.
  assert (count waiting d' <= count waiting (store b)).
  { apply (count_le _ _ _ (λ r, state r = available) row_waiting).
    intros i r' (r & Hr & ->)%Hours Hs. exists r. split; [done|]. by case_decide. }
  assert (count unfinished d' + 1 <= count unfinished (store b)); [|lia].
  destruct ids as [|i ids]; [done|]. destruct (Hh i) as (r & Hr & Hs%held_running); [left|].
  apply (count_lt _ _ _ (λ r, state r ≠ completed) i r row_unfinished); [|done|congruence|].
  - intros i' r' (r0 & Hr0 & ->)%Hours Hs'. exists r0. split; [done|]. by case_decide.
  - intros r' (r0 & _ & ->)%Hours Hs'. rewrite decide_True in Hs' by left. done.
Qed.

Lemma act_keeps t all finished now k b :
  Inj eq eq worker → 1 <= batch → t <= now → draining t all finished b →
  ∃ b' finished', act now k b = Some b' ∧ draining t all finished' b' ∧
    work b' + (if busy k b then 1 else 0) <= work b ∧ length (leasers b') = length (leasers b).
Proof.
  intros Hi Hb Ht Hd. unfold busy. destruct (leasers b !! k) as [[|ids|]|] eqn:E; simpl.
  - destruct (fetch_keeps t all finished now k b) as (b' & Ea & Hd'); try done.
    exists b', finished. split; [done|]. split; [done|]. by eapply fetch_work.
  - destruct (complete_keeps t all finished now k ids b Hi Hd E) as (b' & Ea & Hd').
    exists b', (finished ++ ids). split; [done|]. split; [done|]. by eapply complete_work.
  - exists b, finished. unfold act. rewrite E. split_and!; [done|done|lia|done].
  - exists b, finished. unfold act. rewrite E. split_and!; [done|done|lia|done].
Qed.

Lemma run_keeps t all finished turns b :
  Inj eq eq worker → 1 <= batch → Forall (λ x : Z * nat, t <= x.1) turns → draining t all finished b →
  ∃ b' finished', run turns b = Some b' ∧ draining t all finished' b' ∧ spent turns b <= work b ∧
    length (leasers b') = length (leasers b).
Proof.
  intros Hi Hb Ht. revert b finished. induction Ht as [|[now k] turns Hnow _ IH]; intros b finished Hd; simpl.
  - exists b, finished. split_and!; try done. unfold work, count, actives, len. lia.
  - destruct (act_keeps t all finished now k b Hi Hb Hnow Hd) as (b1 & f1 & -> & Hd1 & Hw & Hl). simpl.
    destruct (IH b1 f1 Hd1) as (b2 & f2 & -> & Hd2 & Hs & Hl2).
    exists b2, f2. split_and!; [done..|lia|congruence].
Qed.

(** ** The whole measurement *)

Lemma clear_empties d i r : ¬ ours_row (clear d) i r.
Proof.
  intros [[Hr Hn]%delete_lookup Hq]. apply Hn, elem_of_select. exists r. split; [done|]. by apply bool_decide_eq_true.
Qed.

Lemma noop_enqueued now d :
  db_ok d → enqueue now noop d = Ok (next_job d, insert_job (new_row now noop) d) ∧
            db_ok (insert_job (new_row now noop) d).
Proof.
  intros Hd. assert (enqueue now noop d = Ok (next_job d, insert_job (new_row now noop) d)) as E.
  { unfold enqueue. rewrite fresh_unique; [done..|]. unfold row_checks; simpl; split_and!; by try lia. }
  split; [done|]. by eapply enqueue_ok in E as (? & _).
Qed.

(** The jobs the transaction enqueues, beside [old]. *)
Lemma fill_rows n now d old :
  db_ok d → NoDup old → (∀ i, i ∈ old ↔ ∃ r, ours_row d i r) → (∀ i r, ours_row d i r → r = new_row now noop) →
  ∃ d' new, fill n now d = Ok d' ∧ db_ok d' ∧ length new = n ∧ NoDup (old ++ new) ∧
    (∀ i, i ∈ old ++ new ↔ ∃ r, ours_row d' i r) ∧ (∀ i r, ours_row d' i r → r = new_row now noop).
Proof.
  revert d old. induction n as [|n IH]; intros d old Hd Hnd Hold Hrow; simpl.
  { exists d, []. rewrite app_nil_r. by split_and!. }
  destruct (noop_enqueued now d Hd) as [E Hd1]. rewrite E. simpl. set (d1 := insert_job (new_row now noop) d) in *.
  pose proof (fresh_id d Hd) as Hfr.
  assert (∀ i r, ours_row d1 i r ↔ ours_row d i r ∨ (i = next_job d ∧ r = new_row now noop)) as H1.
  { intros i r. unfold ours_row. simpl. rewrite lookup_insert_Some. split.
    - intros [[[<- <-]|[_ Hr]] Hq]; [by right|by left].
    - intros [[Hr Hq]|[-> ->]]; [split; [right|done]; split; [congruence|done]|by split; [left|]]. }
  destruct (IH d1 (old ++ [next_job d])) as (d' & new & Ef & Hd' & Hl & Hn' & Ha & Hr').
  - done.
  - apply NoDup_app. split_and!; [done| |apply NoDup_singleton]. intros i [r [Hr _]]%Hold ->%list_elem_of_singleton. congruence.
  - intros i. rewrite elem_of_app, list_elem_of_singleton, Hold. setoid_rewrite H1. naive_solver.
  - intros i r [?|[_ ?]]%H1; eauto.
  - exists d', (next_job d :: new). rewrite <- app_assoc in *. simpl in *. split_and!; try done. lia.
Qed.

Lemma setup_draining jobs n t d :
  db_ok d →
  ∃ b all, setup jobs n t d = Ok b ∧ draining t all [] b ∧ length all = jobs ∧
    work b <= 2 * Z.of_nat jobs + Z.of_nat n ∧ length (leasers b) = n ∧ NoDup all.
Proof.
  intros Hd. unfold setup.
  destruct (fill_rows jobs t (clear d) []) as (d' & all & -> & Hd' & Hl & Hnd & Ha & Hr).
  - by apply delete_ok.
  - constructor.
  - intros i. split; [by intros ?%elem_of_nil|intros [r []%clear_empties]].
  - by intros i r []%clear_empties.
  - simpl in *. eexists _, all. split; [done|]. split_and!; [|done| |apply length_replicate|done].
    + split; simpl; try done.
      * intros i r ->%Hr. split_and!; [done|done|]. simpl. split; [|done]. f_equal. lia.
      * by intros k ids [? _]%lookup_replicate.
      * intros i r ->%Hr. done.
      * split_and!; [constructor| |done]. intros i. split; [by intros ?%elem_of_nil|]. by intros (r & ->%Hr & ?).
      * by intros k [? _]%lookup_replicate.
    + assert (∀ p, (∀ i r, Table.jobs d' !! i = Some r → p i r = true → queue (spec r) = QUEUE) →
        count p d' <= Z.of_nat jobs) as Hc.
      { intros p Hp. unfold count, len. rewrite <- Hl. apply inj_le, submseteq_length, NoDup_submseteq; [apply NoDup_select|].
        intros i (r & Hri & Hpr)%elem_of_select. apply Ha. exists r. split; [done|]. by eapply Hp. }
      unfold work. simpl. assert (actives (replicate n Leasing) <= Z.of_nat n).
      { unfold actives, len. clear. induction n; simpl; lia. }
      assert (count waiting d' <= Z.of_nat jobs) by (apply Hc; intros i r _; unfold waiting; intros; by bool_facts).
      assert (count unfinished d' <= Z.of_nat jobs) by (apply Hc; intros i r _; unfold unfinished; intros; by bool_facts).
      lia.
Qed.

(** C20. Concurrent leasers drain a queue exactly once: from any database, with any
    number of tasks under distinct worker ids taking turns in any order, no turn
    fails, the tasks take at most two turns per job and one more each before they
    have all returned (a turn is one fetch or one completion), and then every job of
    the queue is completed, each on its first attempt, and the count printed is the
    number enqueued. *)
Theorem drain_completes jobs n t d turns :
  reachable d → Inj eq eq worker → 1 <= batch → Forall (λ x : Z * nat, t <= x.1) turns → (0 < n)%nat →
  ∃ b0 b, setup jobs n t d = Ok b0 ∧ run turns b0 = Some b ∧
    spent turns b0 <= 2 * Z.of_nat jobs + Z.of_nat n ∧
    (Forall (λ l, l = Returned) (leasers b) →
     drained b = Z.of_nat jobs ∧
     ∀ i r, Table.jobs (store b) !! i = Some r → queue (spec r) = QUEUE → state r = completed ∧ attempt r = 1).
Proof.
  intros Hd%reachable_ok Hi Hb Ht Hn.
  destruct (setup_draining jobs n t d Hd) as (b0 & all & E & Hd0 & Hall & Hw & Hlen & Hnd).
  destruct (run_keeps t all [] turns b0 Hi Hb Ht Hd0) as (b & fin & Er & Hdr & Hs & Hl).
  exists b0, b. split_and!; [done|done|lia|]. intros Hret.
  assert (∀ k l, leasers b !! k = Some l → l = Returned) as Hr.
  { intros k l Hk. exact (Forall_lookup_1 _ _ _ _ Hret Hk). }
  assert (∃ k, leasers b !! k = Some Returned) as [k Hk].
  { destruct (lookup_lt_is_Some_2 (leasers b) 0) as [l H0]; [lia|]. exists 0%nat. rewrite H0. f_equal. by eapply Hr. }
  assert (∀ i r, ours_row (store b) i r → state r = completed ∧ attempt r = 1) as Hdone.
  { intros i r Ho. pose proof (dr_rows _ _ _ _ Hdr i r Ho) as (_ & _ & Hp).
    pose proof (dr_returned _ _ _ _ Hdr k Hk i r Ho). destruct (state r) eqn:Es; try done.
    destruct (dr_running _ _ _ _ Hdr i r Ho Es) as (j & ids & Hj%Hr & _). done. }
  destruct (dr_finished _ _ _ _ Hdr) as (Hndf & Hf & ->). split; [|intros i r ? ?; by apply (Hdone i)].
  unfold len. rewrite <- Hall. f_equal. apply Permutation_length, NoDup_Permutation; [done..|].
  intros i. rewrite Hf, (dr_all _ _ _ _ Hdr i). split.
  - intros (r & Hri & _). by exists r.
  - intros [r Hri]. exists r. split; [done|]. by apply (Hdone i).
Qed.

End Run.

(** ** Two leasers and three jobs *)

(** They alternate, two jobs at a time, until both find nothing. *)
Definition alternating : list (Z * nat) := [(200, 0%nat); (201, 1%nat); (202, 0%nat); (203, 1%nat); (204, 1%nat); (205, 0%nat)].
Definition ids_of (k : nat) : uuid := Z.of_nat k.

Lemma drain_completes_witness :
  ∃ b0 b, setup 3 2 100 enqueued = Ok b0 ∧ run ids_of 2 alternating b0 = Some b ∧
    leasers b = [Returned; Returned] ∧ drained b = 3.
Proof.
  destruct (drain_completes ids_of 2 3 2 100 enqueued alternating) as (b0 & b & E & Er & _ & H).
  - apply enqueued_reachable.
  - intros i j. apply Nat2Z.inj.
  - lia.
  - repeat constructor; simpl; lia.
  - lia.
  - exists b0, b. split; [exact E|]. split; [exact Er|].
    assert (leasers b = [Returned; Returned]) as Hl.
    { assert (match setup 3 2 100 enqueued with
              | Ok b0 => leasers <$> run ids_of 2 alternating b0
              | Err _ => None end = Some [Returned; Returned]) as Hc by (vm_compute; reflexivity).
      rewrite E, Er in Hc. apply (inj Some) in Hc. exact Hc. }
    split; [exact Hl|]. apply H. rewrite Hl. repeat constructor.
Defined.

End Drain.
