(* ===== verification/Cli.v ===== *)
(** * The command line

    [crates/gylo-cli/src/main.rs] past the parsing of arguments, which [clap]
    does: the commands an operator runs against the database, what they print,
    and the configuration the [worker] command starts with. *)

From S2P Require Import Prelude.
From S2P Require Import Utf8.
From S2P Require Import PgTable.
From S2P Require Import PgJobs.
From S2P Require Import PgRetention.
From S2P Require Import Capability.
From S2P Require Import Worker.
From S2P Require Import WorkerLoop.
From stdpp Require Import pretty.
#[local] Open Scope Z_scope.
Import Utf8.
Import Table.
Import Jobs.
Import Retention.
Import WorkerLoop.

Module Cli.

(** ** Arguments *)

Inductive JobsCommand :=
| Failed (queue : option string) (limit : Z)
| Retry (ids : list Z) (queue : option string)
| Prune (older_than : Z) (queue : option string) (discarded : bool)
| Purge (queue : option string) (yes : bool).

Record WorkerArgs := {
  wa_app : string;
  wa_queues : list string;
  wa_processes : option Z;
  wa_concurrency : Z;
  wa_batch : Z;
  wa_lease : Z;
  wa_poll_interval : Z;
  wa_maintenance_interval : Z;
  wa_retry_base : Z;
  wa_retry_cap : Z;
  wa_retain_completed : Z;
  wa_retain_discarded : Z;
  wa_python : option string;
  wa_python_path : option string;
  wa_pool_size : option Z;
  wa_observe : option string
}.

(** The arguments when only the app is given. *)
Definition WorkerArgs_default (app : string) : WorkerArgs := {|
  wa_app := app; wa_queues := ["default"]; wa_processes := None; wa_concurrency := 256; wa_batch := 128;
  wa_lease := Worker.secs 30; wa_poll_interval := Worker.ms 200; wa_maintenance_interval := Worker.secs 10;
  wa_retry_base := Worker.secs 1; wa_retry_cap := Worker.secs 3600;
  wa_retain_completed := Worker.secs (24 * 3600); wa_retain_discarded := Worker.secs (7 * 24 * 3600);
  wa_python := None; wa_python_path := None; wa_pool_size := None; wa_observe := None |}.

Inductive Command :=
| Migrate
| WorkerCommand (args : WorkerArgs)
| Queue (queue : option string)
| JobsOf (command : JobsCommand).

Record Cli := { database_url : option string; command : Command }.

(** ** Commands *)

(** What a command fails with: an error under the context it is given, or a
    refusal. *)
Inductive error :=
| Context (doing : string) (cause : db_error)
| Refused (text : string).

(** A command prints, asks the database and fails; what it printed before a
    failure stays printed. *)
Definition cmd (A : Type) : Type := world * db → list string * Prelude.result error A * (world * db).

#[global] Instance cmd_ret : MRet cmd := λ A a s, ([], Ok a, s).
#[global] Instance cmd_bind : MBind cmd := λ A B f c s,
  match c s with
  | (out, Ok a, s') => let '(out', r, s'') := f a s' in (out ++ out', r, s'')
  | (out, Err e, s') => (out, Err e, s')
  end.

Definition println (line : string) : cmd unit := λ s, ([line], Ok tt, s).
Definition bail {A} (text : string) : cmd A := λ s, ([], Err (Refused text), s).

(** One statement, with the context of its failure. *)
Definition query {A} (doing : string) (statement : moment → db → Prelude.result db_error (A * db)) : cmd A := λ s,
  let '(w, d) := s in
  let '(r, d') := call (w 0%nat) (statement (w 0%nat)) d in
  ([], map_err (Context doing) r, (later 1 w, d')).

(** [for x in l { body(x)?; }]. *)
Fixpoint for_each {A} (body : A → cmd unit) (l : list A) : cmd unit :=
  match l with [] => mret tt | x :: l' => body x ;; for_each body l' end.

Definition depth_line (name : string) (d : Depth) : string :=
  pad_right 20 name +:+ " " +:+ pad_left 9 (pretty (ready d)) +:+ " " +:+ pad_left 10 (pretty (depth_scheduled d))
  +:+ " " +:+ pad_left 9 (pretty (blocked d)) +:+ " " +:+ pad_left 9 (pretty (depth_running d)).

Definition depth_header : string :=
  pad_right 20 "queue" +:+ " " +:+ pad_left 9 "ready" +:+ " " +:+ pad_left 10 "scheduled" +:+ " " +:+
  pad_left 9 "blocked" +:+ " " +:+ pad_left 9 "running".

Definition show_queues (queue : option string) : cmd unit :=
  names ← match queue with
          | Some one => mret [one]
          | None => query "listing queues" (λ _ d, Ok (queues d, d))
          end;
  if decide (names = []) then println "no queue is holding anything" else
  println depth_header ;;
  for_each (λ name,
    depth ← query ("reading the depth of " +:+ name) (λ m d, Ok (depth (at_time m) name d, d));
    println (depth_line name depth)) names.

Section Printing.
(** [DateTime::format("%Y-%m-%d %H:%M:%S")], which is [chrono]'s. *)
Context (format_time : Z → string).

Definition failed_line (job : Discarded) : string :=
  let when_ := match di_finalized_at job with Some at_ => format_time at_ | None => "-" end in
  let error := default "-" (di_error job) in
  let cause := default "-" (last (str_lines error)) in
  pad_right 10 (pretty (di_id job)) +:+ " " +:+ pad_right 16 (di_queue job) +:+ " " +:+
  pad_right 24 (di_task job) +:+ " attempt " +:+ pad_right 4 (pretty (di_attempt job)) +:+ " " +:+ when_ +:+ "  " +:+
  cause.

Definition show_failed (queue : option string) (limit : Z) : cmd unit :=
  failed ← query "listing dead-lettered jobs" (λ _ d, l ← list_discarded queue limit d; Ok (l, d));
  if decide (length failed = 0%nat) then println "nothing has been dead-lettered" else
  for_each (λ job, println (failed_line job)) failed.

End Printing.

Definition retry_failed {Pl : Planner} (ids : list Z) (queue : option string) : cmd unit :=
  let selected := if decide (ids = []) then None else Some ids in
  retried ← query "returning dead-lettered jobs to their queue" (λ m, retry_discarded (at_time m) selected queue);
  println (pretty (len retried) +:+ " job(s) queued again").

(** One of the loops of [prune_finished]: batches of 5000 until one is short.
    [fuel] bounds the batches; [None] is fuel run out. *)
Fixpoint prune_loop (fuel : nat) (doing : string) (prune : moment → db → Prelude.result db_error (Z * db))
    (removed : Z) (s : world * db) : option (Prelude.result error Z * (world * db)) :=
  match fuel with
  | O => None
  | S fuel' =>
    match query doing prune s with
    | (_, Err e, s') => Some (Err e, s')
    | (_, Ok batch, s') =>
      if batch <? 5000 then Some (Ok (removed + batch), s')
      else prune_loop fuel' doing prune (removed + batch) s'
    end
  end.

Definition prune_finished (fuel : nat) (older_than : Z) (queue : option string) (discarded : bool) (s : world * db)
  : option (list string * Prelude.result error unit * (world * db)) :=
  '(r, s1) ← prune_loop fuel "pruning finished jobs"
     (λ m, prune_completed (at_time m) (locked_rows m) older_than queue 5000) 0 s;
  match r with
  | Err e => Some ([], Err e, s1)
  | Ok removed =>
    '(r, s2) ← (if discarded : bool then
        prune_loop fuel "pruning dead-lettered jobs"
          (λ m, prune_discarded (at_time m) (locked_rows m) older_than queue 5000) removed s1
      else Some (Ok removed, s1));
    match r with
    | Err e => Some ([], Err e, s2)
    | Ok removed =>
      Some ((query "pruning finished workflows" (λ _ d, Ok (prune_workflows d)) ;;
             println (pretty removed +:+ " job(s) pruned")) s2)
    end
  end.

Definition purge_failed (queue : option string) (confirmed : bool) : cmd unit :=
  if negb confirmed then bail "pass --yes to delete dead-lettered jobs; this cannot be undone" else
  removed ← query "deleting dead-lettered jobs" (λ _ d, Ok (purge_discarded queue d));
  println (pretty removed +:+ " job(s) deleted").

(** [connect]: the URL comes first; opening a pool of [size] is [sqlx]'s. *)
Section Connecting.
Context (open_pool : string → Z → option db_error).

Definition connect (url : option string) (size : Z) : cmd unit :=
  match url with
  | None => bail "set DATABASE_URL or pass --database-url"
  | Some url => λ s,
    match open_pool url size with
    | Some e => ([], Err (Context "connecting to postgres" e), s)
    | None => ([], Ok tt, s)
    end
  end.

End Connecting.

(** [sibling_python], given the path beside the executable if it is a file. *)
Definition sibling_python (beside : option string) : string := default "python3" beside.

(** The configuration of the [worker] command. *)
Definition worker_config (cores : option Z) (beside : option string) (a : WorkerArgs) : Worker.Config :=
  let d := Worker.Config_default cores in {|
  Worker.queues := wa_queues a;
  Worker.processes := default (Worker.processes d) (wa_processes a);
  Worker.concurrency := wa_concurrency a;
  Worker.batch := wa_batch a;
  Worker.lease := wa_lease a;
  Worker.poll_interval := wa_poll_interval a;
  Worker.completion_batch := Worker.completion_batch d;
  Worker.completion_linger := Worker.completion_linger d;
  Worker.maintenance_interval := wa_maintenance_interval a;
  Worker.reclaim_limit := Worker.reclaim_limit d;
  Worker.retain_completed := wa_retain_completed a;
  Worker.retain_discarded := wa_retain_discarded a;
  Worker.prune_batch := Worker.prune_batch d;
  Worker.retry_base := wa_retry_base a;
  Worker.retry_cap := wa_retry_cap a;
  Worker.max_restarts := Worker.max_restarts d;
  Worker.cron_limit := Worker.cron_limit d;
  Worker.python := default (sibling_python beside) (wa_python a);
  Worker.app := wa_app a;
  Worker.python_path := wa_python_path a;
  Worker.env := Worker.env d;
  Worker.requires := Worker.requires d |}.

(** [pool_size.unwrap_or(processes as u32 * 3 + 4)], in wrapping [u32]. *)
Definition pool_size (cores : option Z) (a : WorkerArgs) : Z :=
  let processes := default (Worker.processes (Worker.Config_default cores)) (wa_processes a) in
  default ((processes mod 2 ^ 32 * 3 + 4) mod 2 ^ 32) (wa_pool_size a).

(** How a command ends: with what it printed and its result; for [worker], by
    running [gylo_worker::run] on a configuration until it is stopped, once
    signals and the recorder are installed ([CliWorker] has the whole of that
    arm); or with the fuel of a loop run out. *)
Inductive ending :=
| Ended (printed : list string) (r : Prelude.result error unit) (after : world * db)
| Serving (config : Worker.Config) (after : world * db)
| OutOfFuel.

Definition ends (o : list string * Prelude.result error unit * (world * db)) : ending :=
  let '(out, r, s) := o in Ended out r s.

Definition main {Pl : Planner} (format_time : Z → string) (open_pool : string → Z → option db_error)
    (migrate : db → Prelude.result db_error db) (cores : option Z) (beside : option string)
    (fuel : nat) (c : Cli) (s : world * db) : ending :=
  let pool size := connect open_pool (database_url c) size in
  match command c with
  | Migrate =>
    ends ((pool 2 ;;
           query "applying migrations" (λ _ d, d' ← migrate d; Ok (tt, d')) ;;
           println "migrations applied") s)
  | Queue queue => ends ((pool 2 ;; show_queues queue) s)
  | JobsOf (Failed queue limit) => ends ((pool 2 ;; show_failed format_time queue limit) s)
  | JobsOf (Retry ids queue) => ends ((pool 2 ;; retry_failed ids queue) s)
  | JobsOf (Prune older_than queue dead) =>
    match pool 2 s with
    | (out, Err e, s) => Ended out (Err e) s
    | (_, Ok _, s) =>
      match prune_finished fuel older_than queue dead s with
      | Some o => ends o
      | None => OutOfFuel
      end
    end
  | JobsOf (Purge queue yes) => ends ((pool 2 ;; purge_failed queue yes) s)
  | WorkerCommand args =>
    match pool (pool_size cores args) s with
    | (out, Err e, s) => Ended out (Err e) s
    | (_, Ok _, s) => Serving (worker_config cores beside args) s
    end
  end.

End Cli.
