(* ===== verification/CliSafety.v ===== *)
(** * What an operator's commands do

    [jobs prune] ends and leaves nothing it was asked to prune; [jobs retry]
    and [jobs purge] change exactly the dead letters in scope; the commands that
    only show change nothing; and a worker started with no options has the
    library's default configuration. *)

From S2P Require Import Prelude.
From S2P Require Import Utf8.
From S2P Require Import PgTable.
From S2P Require Import PgJobs.
From S2P Require Import PgRetention.
From S2P Require Import PgInvariant.
From S2P Require Import PgSteps.
From S2P Require Import PgReach.
From S2P Require Import PgExample.
From S2P Require Import PgSettle.
From S2P Require Import PgRecover.
From S2P Require Import PgHistory.
From S2P Require Import Worker.
From S2P Require Import WorkerLoop.
From S2P Require Import WorkerSafety.
From S2P Require Import Cli.
From stdpp Require Import pretty.
#[local] Open Scope Z_scope.
Import Table.
Import Jobs.
Import Retention.
Import Invariant.
Import Steps.
Import Reach.
Import Example.
Import Settle.
Import Recover.
Import History.
Import WorkerLoop.
Import WorkerSafety.
Import Cli.

Module CliSafety.

(** ** Pruning *)

(** Only finished jobs are missing from [d']. *)
Definition trimmed (d d' : db) : Prop :=
  jobs d' ⊆ jobs d ∧ ∀ i r, jobs d !! i = Some r → live r → jobs d' !! i = Some r.

Lemma trimmed_refl d : trimmed d d.
Proof. by split. Qed.

Lemma trimmed_trans d1 d2 d3 : trimmed d1 d2 → trimmed d2 d3 → trimmed d1 d3.
Proof. intros [H1 H1'] [H2 H2']. split; [by etrans|]. auto. Qed.

Lemma trimmed_cases d d' i r :
  trimmed d d' → jobs d !! i = Some r → jobs d' !! i = Some r ∨ jobs d' !! i = None.
Proof.
  intros [Hs _] Hr. destruct (jobs d' !! i) as [r'|] eqn:E; [left|by right].
  pose proof (lookup_weaken _ _ _ _ E Hs). congruence.
Qed.

(** Whether a workflow is over does not depend on the finished jobs. *)
Lemma trimmed_workflow d d' w : trimmed d d' → workflow_live w d' = workflow_live w d.
Proof.
  intros [Hs Hl]. unfold workflow_live. set (p := λ (_ : Z) (r : job_row), _).
  assert (∀ i, i ∈ select p d' ↔ i ∈ select p d) as Hin.
  { intros i. rewrite !elem_of_select. split; intros (r & Hr & Hp); exists r; (split; [|done]).
    - by eapply lookup_weaken.
    - apply Hl; [done|]. unfold p in Hp. by bool_facts. }
  apply bool_decide_ext. split; intros Hne Hnil; apply Hne, elem_of_nil_inv; intros i Hi%Hin;
    rewrite Hnil in Hi; by apply elem_of_nil in Hi.
Qed.

Lemma trimmed_prunable now states older q d d' r :
  trimmed d d' → prunable now states older q d' r = prunable now states older q d r.
Proof.
  intros Ht. unfold prunable. destruct (workflow_id (spec r)); [|done].
  by rewrite (trimmed_workflow _ _ _ Ht).
Qed.

Lemma prunable_later now now' states older q d r :
  now <= now' → prunable now states older q d r = true → prunable now' states older q d r = true.
Proof.
  intros Hle Hp. unfold prunable in *. repeat (apply andb_prop in Hp as [Hp ?]). rewrite Hp. simpl.
  destruct (finalized_at r); [|done]. bool_facts.
  rewrite (proj2 (Z.ltb_lt _ _)) by lia. simpl.
  by repeat match goal with H : _ = true |- _ => rewrite H; clear H end.
Qed.

Lemma prunable_states now states states' older q d r :
  (∀ s, s ∈ states → s ∈ states') →
  prunable now states older q d r = true → prunable now states' older q d r = true.
Proof.
  intros Hsub Hp. unfold prunable in *. repeat (apply andb_prop in Hp as [Hp ?]).
  bool_facts. rewrite bool_decide_true by auto. simpl.
  by repeat match goal with H : _ = true |- _ => rewrite H; clear H end.
Qed.

(** Deleting rows that are there takes as many as the list names. *)
Lemma delete_size v d :
  NoDup v → (∀ i, i ∈ v → is_Some (jobs d !! i)) →
  (size (jobs (delete_jobs v d)) + length v = size (jobs d))%nat.
Proof.
  intros Hnd Hin. assert (dom (jobs (delete_jobs v d)) = dom (jobs d) ∖ list_to_set (C := gset Z) v) as Hdom.
  { apply set_eq. intros i. rewrite elem_of_difference, elem_of_list_to_set, !elem_of_dom. split.
    - intros [r [? ?]%delete_lookup]. eauto.
    - intros [[r ?] ?]. exists r. by apply delete_lookup. }
  assert (list_to_set (C := gset Z) v ⊆ dom (jobs d)) as Hs.
  { intros i Hi%elem_of_list_to_set. by apply elem_of_dom, Hin. }
  rewrite <- !(size_dom (D := gset Z)), Hdom, size_difference by done.
  apply subseteq_size in Hs. rewrite size_list_to_set in Hs |- * by done. lia.
Qed.

(** States of finished jobs. *)
Definition over (s : job_state) : Prop := s ≠ available ∧ s ≠ running.

Lemma prune_trims now skip states older q n d c d' :
  Forall over states → prune_states now skip states older q n d = Ok (c, d') →
  trimmed d d' ∧ c = Z.of_nat (size (jobs d)) - Z.of_nat (size (jobs d')) ∧
  ∀ i r, jobs d !! i = Some r → jobs d' !! i = None → prunable now states older q d r = true.
Proof.
  intros Hover (_ & v & Hnd & -> & -> & Hv)%prune_deletes. split_and!.
  - split.
    + apply map_subseteq_spec. by intros i r [? _]%delete_lookup.
    + intros i r Hr Hlive. apply delete_lookup. split; [done|]. intros (r' & ? & [Hp _]%andb_prop)%Hv.
      simplify_eq. apply prunable_spec in Hp as [Hs _]. rewrite Forall_forall in Hover.
      destruct (Hover _ Hs), Hlive; done.
  - rewrite <- (delete_size v d Hnd); [unfold len; lia|]. intros i (r & ? & _)%Hv. eauto.
  - intros i r Hr Hnone. destruct (decide (i ∈ v)) as [(r' & ? & [Hp _]%andb_prop)%Hv|Hi]; [by simplify_eq|].
    assert (jobs (delete_jobs v d) !! i = Some r) by by apply delete_lookup. congruence.
Qed.

(** A world in which nobody else writes or holds rows, and time does not go back. *)
Definition idle_from (t : Z) (w : world) : Prop :=
  ∀ n, quiet_call (w n) ∧ locked_rows (w n) = ∅ ∧ t <= at_time (w n).

Lemma idle_later t k w : idle_from t w → idle_from t (later k w).
Proof. intros H n. apply H. Qed.

(** What a loop of batches has done when it ends. *)
Record swept (t : Z) (w : world) (states : list job_state) (older : Z) (q : option string) (d d' : db) : Prop := {
  swept_trimmed : trimmed d d';
  swept_clear i r : jobs d !! i = Some r → prunable t states older q d r = true → jobs d' !! i = None;
  swept_only i r : jobs d !! i = Some r → jobs d' !! i = None →
    ∃ k, prunable (at_time (w k)) states older q d r = true }.

Lemma prune_loop_sweeps t fuel doing states older q removed w d :
  Forall over states → idle_from t w → (size (jobs d) < fuel)%nat →
  ∃ k d', prune_loop fuel doing (λ m d, prune_states (at_time m) (locked_rows m) states older q 5000 d) removed (w, d) =
      Some (Ok (removed + (Z.of_nat (size (jobs d)) - Z.of_nat (size (jobs d')))), (later k w, d')) ∧
    swept t w states older q d d'.
Proof.
  intros Hover. revert removed w d. induction fuel as [|fuel IH]; intros removed w d Hw Hlt; [lia|].
  destruct (Hw 0%nat) as (Hq & Hl & Ht). cbn [prune_loop]. unfold query.
  destruct (prune_states (at_time (w 0%nat)) (locked_rows (w 0%nat)) states older q 5000 d) as [[c d1]|] eqn:E.
  2: { by unfold prune_states in E. }
  rewrite (call_quiet _ (λ d, prune_states _ _ _ _ _ _ d) _ _ _ Hq E). cbn [map_err].
  destruct (prune_trims _ _ _ _ _ _ _ _ _ Hover E) as (Htrim & Hc & Honly).
  destruct (Z.ltb_spec c 5000) as [Hshort|Hfull].
  - exists 1%nat, d1. split; [by rewrite Hc|]. split; [done| |eauto].
    intros i r Hr Hp. eapply prune_exhausts; [done..|]. unfold may_prune.
    rewrite (prunable_later _ _ _ _ _ _ _ Ht Hp), Hl. by rewrite bool_decide_false by set_solver.
  - destruct (IH (removed + c) (later 1 w) d1) as (k & d' & E' & [Ht' Hclear Hother]); [by apply idle_later|lia|].
    exists (S k), d'. rewrite E'. split; [by rewrite Hc; do 3 f_equal; lia|]. split; [by eapply trimmed_trans| |].
    + intros i r Hr Hp. destruct (trimmed_cases _ _ _ _ Htrim Hr) as [Hr1|Hnone].
      * apply (Hclear i r Hr1). by rewrite (trimmed_prunable _ _ _ _ _ _ _ Htrim).
      * destruct (jobs d' !! i) eqn:Ei; [|done]. destruct Ht' as [Hs _].
        pose proof (lookup_weaken _ _ _ _ Ei Hs). congruence.
    + intros i r Hr Hnone. destruct (trimmed_cases _ _ _ _ Htrim Hr) as [Hr1|Hnone1]; [|eauto].
      destruct (Hother i r Hr1 Hnone) as [m Hm]. exists (S m).
      by rewrite <- (trimmed_prunable _ _ _ _ _ _ _ Htrim).
Qed.

(** The states [jobs prune] is asked for. *)
Definition pruned_states (dead : bool) : list job_state :=
  [completed; cancelled] ++ if dead then [discarded] else [].

(** Two loops over different states are one over both. *)
Lemma swept_both t w k states states' older q d d1 d' :
  swept t w states older q d d1 → swept t (later k w) states' older q d1 d' →
  swept t w (states ++ states') older q d d'.
Proof.
  intros [Ht1 Hc1 Ho1] [Ht2 Hc2 Ho2]. split; [by eapply trimmed_trans| |].
  - intros i r Hr Hp. assert (prunable t states older q d r = true ∨ prunable t states' older q d r = true) as Hor.
    { unfold prunable in *. repeat (apply andb_prop in Hp as [Hp ?]).
      apply bool_decide_eq_true, elem_of_app in Hp as [Hp|Hp]; [left|right];
        rewrite bool_decide_true by done; simpl;
        by repeat match goal with H : _ = true |- _ => rewrite H; clear H end. }
    destruct (trimmed_cases _ _ _ _ Ht1 Hr) as [Hr1|Hn].
    + destruct Hor as [Hp1|Hp2]; [rewrite (Hc1 i r Hr Hp1) in Hr1; done|].
      apply (Hc2 i r Hr1). by rewrite (trimmed_prunable _ _ _ _ _ _ _ Ht1).
    + destruct (jobs d' !! i) eqn:E; [|done]. by rewrite (lookup_weaken _ _ _ _ E (proj1 Ht2)) in Hn.
  - intros i r Hr Hn. destruct (trimmed_cases _ _ _ _ Ht1 Hr) as [Hr1|Hn1].
    + destruct (Ho2 i r Hr1 Hn) as [m Hm]. exists (k + m)%nat.
      rewrite (trimmed_prunable _ _ _ _ _ _ _ Ht1) in Hm. eapply prunable_states; [|exact Hm]. set_solver.
    + destruct (Ho1 i r Hr Hn1) as [m Hm]. exists m. eapply prunable_states; [|exact Hm]. set_solver.
Qed.

Lemma prune_loops_sweep t fuel older q (dead : bool) w d :
  idle_from t w → (size (jobs d) < fuel)%nat →
  ∃ w1 d1, quiet_world w1 ∧ swept t w (pruned_states dead) older q d d1 ∧
    prune_finished fuel older q dead (w, d) =
      Some ((query "pruning finished workflows" (λ _ d, Ok (prune_workflows d)) ;;
             println (pretty (Z.of_nat (size (jobs d)) - Z.of_nat (size (jobs d1))) +:+ " job(s) pruned")) (w1, d1)).
Proof.
  intros Hw Hlt. unfold prune_finished.
  destruct (prune_loop_sweeps t fuel "pruning finished jobs" [completed; cancelled] older q 0 w d)
    as (k & d1 & E & Hs); [by repeat constructor|done..|].
  unfold prune_completed. rewrite E. cbn [mbind option_bind]. destruct dead.
  - destruct (prune_loop_sweeps t fuel "pruning dead-lettered jobs" [discarded] older q
      (0 + (Z.of_nat (size (jobs d)) - Z.of_nat (size (jobs d1)))) (later k w) d1) as (k' & d2 & E' & Hs').
    { by repeat constructor. } { by apply idle_later. }
    { apply Nat.le_lt_trans with (size (jobs d)); [|done]. apply map_subseteq_size, Hs. }
    exists (later k' (later k w)), d2. split; [intros n; apply Hw|]. split; [by eapply swept_both|].
    unfold prune_discarded. rewrite E'. cbv beta iota delta [mbind option_bind].
    by replace (0 + _ + _) with (Z.of_nat (size (jobs d)) - Z.of_nat (size (jobs d2))) by lia.
  - exists (later k w), d1. split; [intros n; apply Hw|]. split; [done|]. by rewrite Z.add_0_l.
Qed.

(** C34. [jobs prune] ends and does the whole of its work: on a database nobody
    else is changing, one batch more than there are jobs is enough; the command
    succeeds and prints how many jobs it deleted; every job that could be
    pruned when it started is gone, a job that is gone could be pruned by the
    end, every other job is as it was, and no workflow is left without members. *)
Theorem prune_finished_clears (w : world) older q (dead : bool) d :
  idle_from (at_time (w 0%nat)) w →
  ∃ w' d', prune_finished (S (size (jobs d))) older q dead (w, d) =
      Some ([pretty (Z.of_nat (size (jobs d)) - Z.of_nat (size (jobs d'))) +:+ " job(s) pruned"], Ok tt, (w', d')) ∧
    jobs d' ⊆ jobs d ∧
    (∀ i r, jobs d !! i = Some r →
       prunable (at_time (w 0%nat)) (pruned_states dead) older q d r = true → jobs d' !! i = None) ∧
    (∀ i r, jobs d !! i = Some r → jobs d' !! i = None →
       ∃ k, prunable (at_time (w k)) (pruned_states dead) older q d r = true) ∧
    (∀ x, x ∈ workflows d' → ∃ i r, jobs d' !! i = Some r ∧ workflow_id (spec r) = Some x).
Proof.
  intros Hw. destruct (prune_loops_sweep _ (S (size (jobs d))) older q dead w d Hw) as (w1 & d1 & Hq & [[Hsub _] Hc Ho] & E);
    [lia|]. rewrite E.
  exists (later 1 w1), (prune_workflows d1).2. split_and!; [|done..|].
  - unfold mbind, cmd_bind, query.
    by rewrite (call_quiet (w1 0%nat) _ _ (prune_workflows d1).1 (prune_workflows d1).2).
  - intros x Hx. simpl in Hx. apply elem_of_difference in Hx as [Hx Hne].
    destruct (select (λ _ r, bool_decide (workflow_id (spec r) = Some x)) d1) as [|i l] eqn:Es.
    { exfalso. apply Hne. by apply elem_of_filter. }
    assert (i ∈ select (λ _ r, bool_decide (workflow_id (spec r) = Some x)) d1) as Hi by (rewrite Es; left).
    apply elem_of_select in Hi as (r & Hr & Hp). bool_facts. eauto.
Qed.

(** ** Looking *)

(** A command that leaves a quiet database as it found it. *)
Definition reads {A} (c : cmd A) : Prop :=
  ∀ w d, quiet_world w → quiet_world (c (w, d)).2.1 ∧ (c (w, d)).2.2 = d.

Lemma reads_ret {A} (a : A) : reads (mret a).
Proof. by intros w d Hw. Qed.

Lemma reads_println line : reads (println line).
Proof. by intros w d Hw. Qed.

Lemma reads_query {A} doing (f : moment → db → Prelude.result db_error A) :
  reads (query doing (λ m d, a ← f m d; Ok (a, d))).
Proof.
  intros w d Hw. unfold query, call, deliver. destruct (Hw 0%nat) as [Hd Hl]. rewrite Hd, Hl.
  destruct (f _ d); (split; [intros n; apply Hw|done]).
Qed.

Lemma reads_bind {A B} (c : cmd A) (f : A → cmd B) : reads c → (∀ a, reads (f a)) → reads (c ≫= f).
Proof.
  intros Hc Hf w d Hw. specialize (Hc w d Hw). unfold mbind, cmd_bind.
  destruct (c (w, d)) as [[out [a|e]] [w' d']]; simpl in Hc; [|done]. destruct Hc as [Hw' ->].
  specialize (Hf a w' d Hw'). by destruct (f a (w', d)) as [[? ?] ?].
Qed.

Lemma reads_for_each {A} (body : A → cmd unit) l : (∀ a, reads (body a)) → reads (for_each body l).
Proof. intros Hb. induction l as [|a l IH]; [apply reads_ret|]. by apply reads_bind. Qed.

Lemma reads_show_queues q : reads (show_queues q).
Proof.
  unfold show_queues. apply reads_bind.
  - destruct q; [apply reads_ret|]. apply (reads_query _ (λ _ d, Ok (queues d))).
  - intros names. case_decide; [apply reads_println|]. apply reads_bind; [apply reads_println|].
    intros _. apply reads_for_each. intros name. apply reads_bind; [|intros; apply reads_println].
    apply (reads_query _ (λ m d, Ok (depth (at_time m) name d))).
Qed.

Lemma reads_show_failed fmt q n : reads (show_failed fmt q n).
Proof.
  unfold show_failed. apply reads_bind; [apply (reads_query _ (λ _ d, list_discarded q n d))|].
  intros l. case_decide; [apply reads_println|]. apply reads_for_each. intros. apply reads_println.
Qed.

(** ** Acting on dead letters *)

Definition dead_in_scope (ids : option (list Z)) (q : option string) (i : Z) (r : job_row) : bool :=
  bool_decide (state r = discarded) && in_scope ids q i r.

Lemma purge_exact q d i :
  jobs (purge_discarded q d).2 !! i =
    match jobs d !! i with Some r => if dead_in_scope None q i r then None else Some r | None => None end.
Proof.
  unfold purge_discarded; simpl. set (v := select _ d). apply option_eq. intros r. rewrite map_lookup_filter_Some.
  split.
  - intros [Hr Hi]. rewrite Hr. destruct (dead_in_scope None q i r) eqn:E; [|done].
    exfalso. apply Hi. unfold v. apply elem_of_select. eauto.
  - intros H. destruct (jobs d !! i) as [r'|] eqn:Hr; [|done]. destruct (dead_in_scope None q i r') eqn:E; [done|].
    simplify_eq. split; [done|]. simpl. intros (r' & ? & Hp)%elem_of_select. simplify_eq.
    unfold dead_in_scope in E. congruence.
Qed.

(** What [jobs retry] does to a dead letter. *)
Definition requeued (now : Z) (r r' : job_row) : Prop :=
  attempt r' = 0 ∧ errors r' = errors r ∧ spec r' = spec r ∧ runnable now [queue (spec r)] r' = true.

Lemma retry_failed_exact {Pl : Planner} ids q (w : world) d :
  reachable d → quiet_world w →
  ∃ out r d', retry_failed ids q (w, d) = (out, r, (later 1 w, d')) ∧
    match r with
    | Ok _ => ∃ l, out = [pretty (len l) +:+ " job(s) queued again"] ∧
        ∀ i r, jobs d !! i = Some r →
          if dead_in_scope (if decide (ids = []) then None else Some ids) q i r
          then (i ∈ l) ∧ ∃ r', jobs d' !! i = Some r' ∧ requeued (at_time (w 0%nat)) r r'
          else (i ∉ l) ∧ jobs d' !! i = Some r
    | Err _ => out = [] ∧ d' = d
    end.
Proof.
  intros Hd Hw. unfold retry_failed, mbind, cmd_bind, query. set (sel := if decide (ids = []) then _ else _).
  destruct (retry_discarded (at_time (w 0%nat)) sel q d) as [[l d']|e] eqn:E.
  - rewrite (call_quiet _ _ _ _ _ (Hw 0%nat) E). simpl. do 3 eexists. split; [done|]. exists l. split; [done|].
    destruct (dead_letters_requeued _ _ _ _ _ _ Hd E) as [Hl Hj]. intros i r Hr. specialize (Hj i r Hr).
    destruct (dead_in_scope sel q i r) eqn:Ed; unfold dead_in_scope in Ed.
    + bool_facts. assert (i ∈ l) as Hi by (apply Hl; eauto). by rewrite decide_True in Hj.
    + assert (i ∉ l) as Hi. { intros (r' & ? & Hs & Hin)%Hl. simplify_eq. by rewrite bool_decide_true, Hin in Ed. }
      by rewrite decide_False in Hj.
  - unfold call, deliver. destruct (Hw 0%nat) as [Ho Hk]. rewrite Ho, Hk, E. simpl. by do 3 eexists.
Qed.

(** C35. The commands that act on dead letters do exactly what they are asked:
    [purge] without [--yes] refuses and touches nothing, with it deletes exactly
    the discarded jobs of the queue; [retry] returns exactly the discarded jobs
    in scope, runnable at once with all their attempts and their history, or
    fails and changes nothing; both print the number of jobs they changed, and
    [failed] and [queue] change nothing. *)
Theorem operator_commands {Pl : Planner} fmt open_pool migrate cores beside fuel url ids q n (w : world) d :
  reachable d → quiet_world w → open_pool url 2 = None →
  let run c := main fmt open_pool migrate cores beside fuel {| database_url := Some url; command := c |} (w, d) in
  run (JobsOf (Purge q false)) =
    Ended [] (Err (Refused "pass --yes to delete dead-lettered jobs; this cannot be undone")) (w, d) ∧
  (∃ d', run (JobsOf (Purge q true)) =
     Ended [pretty (count (dead_in_scope None q) d) +:+ " job(s) deleted"] (Ok tt) (later 1 w, d') ∧
     ∀ i, jobs d' !! i =
       match jobs d !! i with Some r => if dead_in_scope None q i r then None else Some r | None => None end) ∧
  (∃ out r d', run (JobsOf (Retry ids q)) = Ended out r (later 1 w, d') ∧
     match r with
     | Ok _ => ∃ l, out = [pretty (len l) +:+ " job(s) queued again"] ∧
         ∀ i r, jobs d !! i = Some r →
           if dead_in_scope (if decide (ids = []) then None else Some ids) q i r
           then (i ∈ l) ∧ ∃ r', jobs d' !! i = Some r' ∧ requeued (at_time (w 0%nat)) r r'
           else (i ∉ l) ∧ jobs d' !! i = Some r
     | Err _ => out = [] ∧ d' = d
     end) ∧
  (∃ out r w', run (JobsOf (Failed q n)) = Ended out r (w', d)) ∧
  (∃ out r w', run (Queue q) = Ended out r (w', d)).
Proof.
  intros Hd Hw Hopen run.
  assert (∀ (c : cmd unit) s, (connect open_pool (Some url) 2 ;; c) s = c s) as Hpool.
  { intros c s. unfold connect, mbind, cmd_bind. rewrite Hopen. by destruct (c s) as [[? ?] ?]. }
  unfold run, main; cbn [command database_url]. rewrite !Hpool. split_and!.
  - done.
  - exists (purge_discarded q d).2. split; [|apply purge_exact].
    unfold purge_failed, mbind, cmd_bind, query. simpl.
    by rewrite (call_quiet _ _ _ (purge_discarded q d).1 (purge_discarded q d).2 (Hw 0%nat)).
  - destruct (retry_failed_exact ids q w d Hd Hw) as (out & r & d' & -> & H). by exists out, r, d'.
  - destruct (reads_show_failed fmt q n w d Hw) as [_ E].
    destruct (show_failed fmt q n (w, d)) as [[out r] [w' d']]. simpl in *. subst. eauto.
  - destruct (reads_show_queues q w d Hw) as [_ E].
    destruct (show_queues q (w, d)) as [[out r] [w' d']]. simpl in *. subst. eauto.
Qed.

(** ** Starting a worker *)

(** A worker started with nothing but its app has the library's defaults. *)
Lemma worker_defaults cores beside app :
  worker_config cores beside (WorkerArgs_default app) =
  let d := Worker.Config_default cores in {|
    Worker.queues := Worker.queues d; Worker.processes := Worker.processes d; Worker.concurrency := Worker.concurrency d;
    Worker.batch := Worker.batch d; Worker.lease := Worker.lease d; Worker.poll_interval := Worker.poll_interval d;
    Worker.completion_batch := Worker.completion_batch d; Worker.completion_linger := Worker.completion_linger d;
    Worker.maintenance_interval := Worker.maintenance_interval d; Worker.reclaim_limit := Worker.reclaim_limit d;
    Worker.retain_completed := Worker.retain_completed d; Worker.retain_discarded := Worker.retain_discarded d;
    Worker.prune_batch := Worker.prune_batch d; Worker.retry_base := Worker.retry_base d;
    Worker.retry_cap := Worker.retry_cap d; Worker.max_restarts := Worker.max_restarts d;
    Worker.cron_limit := Worker.cron_limit d; Worker.python := sibling_python beside; Worker.app := app;
    Worker.python_path := None; Worker.env := Worker.env d; Worker.requires := Worker.requires d |}.
Proof. reflexivity. Qed.

(** ** Applied to the example *)

Lemma calm_idle now : idle_from now (calm now).
Proof. intros n. split_and!; [by apply calm_quiet|done|reflexivity]. Qed.

Lemma prune_finished_clears_witness :
  ∃ w' d', prune_finished (S (size (jobs finished))) 100 None false (calm 10000, finished) =
    Some (["1 job(s) pruned"], Ok tt, (w', d')) ∧ jobs d' !! 1 = None.
Proof.
  destruct (prune_finished_clears (calm 10000) 100 None false finished) as (w' & d' & E & _ & Hc & _).
  - apply calm_idle.
  - exists w', d'. split.
    + assert (fst ∘ fst <$> prune_finished (S (size (jobs finished))) 100 None false (calm 10000, finished) =
        Some ["1 job(s) pruned"]) as Hp by (vm_compute; reflexivity).
      rewrite E in Hp. cbv beta iota delta [fmap option_fmap option_map compose fst] in Hp. apply (inj Some) in Hp.
      rewrite Hp in E. exact E.
    + apply (Hc 1 (row_of finished 1)); vm_compute; reflexivity.
Defined.

Lemma charge_failed_reachable : reachable (Pl := plain_planner) charge_failed.
Proof.
  apply rtc_r with fragile_leased; [apply fragile_leased_reachable|].
  eapply (by_discard (Pl := plain_planner) _ 300 [1] ["declined"] alice 1). vm_compute. reflexivity.
Qed.

Lemma operator_commands_witness :
  let run c := main (Pl := plain_planner) (λ _, "now") (λ _ _, None) Ok None None 1
    {| database_url := Some "postgres://"; command := c |} (calm 400, charge_failed) in
  (∃ d', run (JobsOf (Purge None true)) = Ended ["1 job(s) deleted"] (Ok tt) (later 1 (calm 400), d') ∧ jobs d' !! 1 = None) ∧
  (∃ out w', run (Queue None) = Ended out (Ok tt) (w', charge_failed)).
Proof.
  intros run.
  destruct (operator_commands (Pl := plain_planner) (λ _, "now") (λ _ _, None) Ok None None 1 "postgres://" [] None 20
    (calm 400) charge_failed) as (_ & (d' & E & H) & _ & _ & out & r & w' & Eq).
  - apply charge_failed_reachable.
  - apply calm_quiet.
  - reflexivity.
  - split.
    + exists d'. split; [exact E|]. rewrite H. vm_compute. reflexivity.
    + exists out, w'. unfold run. rewrite Eq. destruct r as [[]|e]; [reflexivity|].
      assert (match run (Queue None) with Ended _ (Ok _) _ => True | _ => False end) as Ht by (vm_compute; exact I).
      unfold run in Ht. rewrite Eq in Ht. destruct Ht.
Defined.

End CliSafety.
