(* ===== verification/CliWorker.v ===== *)
(** * The worker command

    The [worker] arm of [main] in [crates/gylo-cli/src/main.rs]: what it sets up
    before the worker runs, the signals and the metrics endpoint beside it, and
    how it ends. What the operating system, the recorder and the HTTP server
    answer are arguments; the worker itself is the rest of the development. *)

From S2P Require Import Prelude.
From S2P Require Import PgTable.
From S2P Require Import Worker.
From S2P Require Import WorkerLoop.
From S2P Require Import Cli.
Import Table.

Module CliWorker.

(** ** Before it runs *)

Inductive failure :=
| ListenFailed (reported : string)
| RecorderFailed (reported : string)
| CommandFailed (e : Cli.error)
| RunFailed (e : Worker.Error).

(** The answers to [StopSignals::listen] and [install_recorder], if they are
    errors. *)
Record surroundings := { signals : option string; recorder : option string }.

(** [StopSignals::listen], the recorder when there is an address to serve it on,
    then the pool; the first failure ends the command. *)
Definition prepare (env : surroundings) (open_pool : string → Z → option db_error) (cores : option Z)
    (beside : option string) (url : option string) (args : Cli.WorkerArgs) (s : WorkerLoop.world * db)
  : Prelude.result failure Worker.Config :=
  match signals env with
  | Some e => Err (ListenFailed e)
  | None =>
    match Cli.wa_observe args, recorder env with
    | Some _, Some e => Err (RecorderFailed e)
    | _, _ =>
      match Cli.connect open_pool url (Cli.pool_size cores args) s with
      | (_, Err e, _) => Err (CommandFailed e)
      | (_, Ok _, _) => Ok (Cli.worker_config cores beside args)
      end
    end
  end.

(** ** While it runs *)

Inductive signal := SIGINT | SIGTERM.

Definition name_of (s : signal) : string := match s with SIGINT => "SIGINT" | SIGTERM => "SIGTERM" end.

(** [StopSignals::received], over the signals that arrive: it returns for the
    first, and is not awaited again. *)
Definition received (arrivals : list signal) : option string := name_of <$> head arrivals.

(** The routes of [serve_observability]; [rendered] is what the recorder renders
    at the time of the request. *)
Definition routes (rendered : string) : list (string * string) :=
  [("/healthz", "ok"); ("/metrics", rendered)].

Definition respond (rendered path : string) : option string :=
  snd <$> List.find (λ r, bool_decide (r.1 = path)) (routes rendered).

(** What happens beside the worker, until it ends. *)
Inductive happening :=
| Arrives (s : signal)
| EndpointFails (reported : string)
| WorkerEnds (outcome : Prelude.result Worker.Error unit).

(** [shutdown], whether the task awaiting signals is still there, how the
    endpoint ended if it failed, the log, and how the command ended. *)
Record process := {
  shutdown : bool;
  awaiting : bool;
  endpoint : option string;
  log : list string;
  ended : option (Prelude.result failure unit)
}.

Definition start : process := {|
  shutdown := false; awaiting := true; endpoint := None; log := ["worker starting"]; ended := None |}.

Definition draining (s : signal) : string :=
  "draining in-flight jobs, signal again to stop now: " +:+ name_of s.

(** The end of the arm: the token is cancelled, the endpoint awaited and its
    error logged, and the worker's outcome is the command's. *)
Definition finish (outcome : Prelude.result Worker.Error unit) (p : process) : process := {|
  shutdown := true; awaiting := awaiting p; endpoint := endpoint p;
  log := log p ++ match endpoint p with Some e => ["metrics endpoint failed: " +:+ e] | None => [] end
               ++ match outcome with Ok _ => ["worker stopped"] | Err _ => [] end;
  ended := Some (map_err RunFailed outcome) |}.

Definition happens (observe : option string) (p : process) (h : happening) : process :=
  match ended p with
  | Some _ => p
  | None =>
    match h with
    | Arrives s =>
      if awaiting p then {|
        shutdown := true; awaiting := false; endpoint := endpoint p; log := log p ++ [draining s]; ended := None |}
      else p
    | EndpointFails e =>
      match observe, endpoint p with
      | Some _, None => {|
          shutdown := shutdown p; awaiting := awaiting p; endpoint := Some e; log := log p; ended := None |}
      | _, _ => p
      end
    | WorkerEnds outcome => finish outcome p
    end
  end.

Definition serve (observe : option string) (hs : list happening) : process := foldl (happens observe) start hs.

(** ** Signals and the endpoint *)

Definition arrival (h : happening) : option signal := match h with Arrives s => Some s | _ => None end.
Definition running (h : happening) : Prop := match h with WorkerEnds _ => False | _ => True end.

(** What is true while the worker runs: the token is cancelled by the first signal
    and by nothing else, and the task that waits for signals is gone with it. *)
Lemma serve_running observe hs :
  Forall running hs →
  let p := serve observe hs in
  ended p = None ∧ shutdown p = bool_decide (omap arrival hs ≠ []) ∧ awaiting p = negb (shutdown p) ∧
  log p = "worker starting" :: match omap arrival hs with [] => [] | s :: _ => [draining s] end.
Proof.
  unfold serve. induction hs as [|h hs IH] using rev_ind; intros H; [done|].
  apply Forall_app in H as [Hhs [Hh _]%Forall_cons]. destruct (IH Hhs) as (He & Hs & Ha & Hl). clear IH.
  rewrite foldl_app, omap_app. simpl. revert He Hs Ha Hl.
  generalize (foldl (happens observe) start hs). intros p He Hs Ha Hl.
  unfold happens. rewrite He. destruct h as [s|e|o]; [| |done]; simpl.
  - rewrite Ha, Hs. destruct (omap arrival hs) as [|s0 l]; simpl in *; [by rewrite Hl|]. by rewrite He, Ha, Hs, Hl.
  - rewrite app_nil_r. by destruct observe, (endpoint p).
Qed.

(** A second signal is ignored: whatever the log told the operator, it changes
    nothing. *)
Lemma second_signal_ignored observe hs s :
  Forall running hs → omap arrival hs ≠ [] → serve observe (hs ++ [Arrives s]) = serve observe hs.
Proof.
  intros Hr Hne. destruct (serve_running observe hs Hr) as (He & Hs & Ha & _).
  unfold serve in *. rewrite foldl_app. simpl. revert He Hs Ha. generalize (foldl (happens observe) start hs).
  intros p He Hs Ha. unfold happens. by rewrite He, Ha, Hs, bool_decide_true.
Qed.

(** The command ends as the worker does: with its error or with success, whatever
    became of the metrics endpoint. *)
Lemma endpoint_never_decides observe hs outcome :
  Forall running hs →
  let p := serve observe (hs ++ [WorkerEnds outcome]) in
  ended p = Some (map_err RunFailed outcome) ∧ shutdown p = true.
Proof.
  intros Hr. destruct (serve_running observe hs Hr) as (He & _). unfold serve in *.
  rewrite foldl_app. simpl. revert He. generalize (foldl (happens observe) start hs). intros p He.
  unfold happens. by rewrite He.
Qed.

(** Health does not depend on the database or the recorder. *)
Lemma health_is_shallow rendered : respond rendered "/healthz" = Some "ok".
Proof. done. Qed.

End CliWorker.
