(* ===== verification/WorkerLease.v ===== *)
(** * Leases and heartbeats

    The [renew] task of [crates/gylo-worker/src/lib.rs] against everything else
    that happens to the database meanwhile: under a configuration [validate]
    accepts, a job in flight stays with its worker for as long as renewals come
    no later than the lease leaves room for. *)

From S2P Require Import Prelude.
From S2P Require Import PgTable.
From S2P Require Import PgJobs.
From S2P Require Import PgCron.
From S2P Require Import PgRetention.
From S2P Require Import PgWorkflow.
From S2P Require Import PgInvariant.
From S2P Require Import PgSteps.
From S2P Require Import PgReach.
From S2P Require Import PgExample.
From S2P Require Import PgSettle.
From S2P Require Import PgRecover.
From S2P Require Import PgHistory.
From S2P Require Import Worker.
From S2P Require Import WorkerLoop.
From S2P Require Import WorkerSafety.
From S2P Require Import Cli.
Import Table.
Import Jobs.
Import Cron.
Import Retention.
Import Workflow.
Import Invariant.
Import Steps.
Import Reach.
Import Example.
Import Settle.
Import Recover.
Import History.
Import WorkerLoop.
Import WorkerSafety.

Module WorkerLease.

Section Leases.
Context {Pl : Planner}.

(** ** What moves a running job *)

Definition leaves_running (d d' : db) : Prop :=
  ∀ i r, jobs d !! i = Some r → state r = running → jobs d' !! i = Some r.

Lemma leaves_refl d : leaves_running d d.
Proof. by intros i r. Qed.

Lemma insert_leaves r0 d d' : db_ok d → commit (insert_job r0 d) = Ok d' → leaves_running d d'.
Proof.
  intros Hd (-> & _)%commit_Ok i r Hr _. simpl. rewrite lookup_insert_ne; [done|].
  intros <-. by rewrite fresh_id in Hr.
Qed.

Lemma lease_leaves now worker lease ids d l d' :
  leasable now ids d → lease_rows now worker lease ids d = Ok (l, d') → leaves_running d d'.
Proof.
  intros Hids. rewrite lease_rows_eq. destruct (commit _) as [d1|] eqn:E; simpl; [|done].
  intros ? i r Hr Hs; simplify_eq. eapply update_keeps; [|done..]. unfold lease_update.
  case_decide as Hi; [|done]. destruct (Hids i Hi) as (r1 & ? & ? & ?). simplify_eq. congruence.
Qed.

Lemma delete_leaves ids d :
  (∀ j s, j ∈ ids → jobs d !! j = Some s → ¬ live s) → leaves_running d (delete_jobs ids d).
Proof.
  intros Hids i r Hr Hs. apply delete_lookup. split; [done|]. intros Hi. eapply Hids; [done..|]. by right.
Qed.

Lemma prune_leaves now skip states older q n d c d' :
  (∀ s, s ∈ states → s ≠ available ∧ s ≠ running) →
  prune_states now skip states older q n d = Ok (c, d') → leaves_running d d'.
Proof.
  intros Hst (_ & v & _ & _ & -> & Hv)%prune_deletes. apply delete_leaves.
  intros j s (s' & ? & [[Hs _]%prunable_spec _]%andb_prop)%Hv ? Hl. simplify_eq.
  destruct (Hst _ Hs), Hl; done.
Qed.

(** Every statement is a worker's report, a sweep, or leaves running jobs alone. *)
Lemma step_cases d d' :
  db_ok d → step d d' →
  (∃ worker ids, worker_call worker ids d d') ∨ (∃ now n c, reclaim_expired now n d = Ok (c, d')) ∨
  leaves_running d d'.
Proof.
  intros Hd Hs. destruct Hs; try solve [left; do 2 eexists; eauto using worker_call]; right;
    try solve [left; eauto]; right.
  - unfold enqueue in H. destruct (commit _) eqn:E; simplify_eq/=. by eapply insert_leaves.
  - by eapply insert_leaves.
  - intros i r Hr _. by eapply workflow_keeps.
  - unfold FETCH_UNKEYED in H. apply negative_limit in H as [_ H].
    destruct (lease_rows _ _ _ _ _) as [[? ?]|] eqn:E; simplify_eq/=.
    eapply lease_leaves; [|done]. by eapply picked_leasable, unkeyed_picked.
  - unfold FETCH_KEYED in H. apply negative_limit in H as [_ H].
    eapply lease_leaves; [|done]. by eapply picked_leasable, keyed_picked.
  - unfold cancel in H. case_decide; [simplify_eq; apply leaves_refl|]. intros i r Hr Hs. by_keeping.
    by rewrite (bool_decide_false (state r = available)), andb_false_r by congruence.
  - unfold retry_discarded in H. intros i r Hr Hs. by_keeping.
    by rewrite (bool_decide_false (state r = discarded)) by congruence.
  - apply delete_leaves. intros j s (s' & Hs' & Hp)%elem_of_select Hj [?|?];
      simplify_eq; bool_facts; congruence.
  - eapply prune_leaves; [|done]. intros s Hs. set_solver.
  - eapply prune_leaves; [|done]. intros s Hs. set_solver.
  - by intros i r.
  - by intros i r.
  - unfold fire_cron, FIRE_CRON in H. destruct (crons d !! name); [|simplify_eq; apply leaves_refl].
    destruct (cron_due _ _); [|simplify_eq; apply leaves_refl].
    destruct (commit _) as [d1|] eqn:E; simplify_eq/=.
    eapply insert_leaves in E; [done|by apply set_crons_ok].
  - unfold record_step, RECORD_STEP in H. repeat case_match; simplify_eq; by intros k r.
Qed.

(** ** Heartbeats *)

(** The clock, the time of the last renewal, and the database. *)
Definition pulse : Type := Z * Z * db.

(** One thing that happens while [worker] runs job [i]: time passes, but the
    next renewal is never more than [late] behind its interval; [renew] ticks
    with the job among those in flight; anyone sweeps; a worker reports, though
    not this one on this job; or any other statement runs. *)
Inductive beat (c : Worker.Config) (late : Z) (worker : uuid) (i : Z) : pulse → pulse → Prop :=
| time_passes now now' last d :
    now <= now' <= last + Worker.maintenance_interval c + late →
    beat c late worker i (now, last, d) (now', last, d)
| renews (m : moment) f last d :
    quiet_call m → i ∈ Worker.ids f →
    beat c late worker i (at_time m, last, d) (at_time m, at_time m, renew_tick m c worker f d)
| sweeps now last n k d d' :
    reclaim_expired now n d = Ok (k, d') → beat c late worker i (now, last, d) (now, last, d')
| reports now last worker' ids d d' :
    worker_call worker' ids d d' → i ∉ ids ∨ worker' ≠ worker →
    beat c late worker i (now, last, d) (now, last, d')
| others_act now last d d' :
    step d d' → (∀ worker' ids, ¬ worker_call worker' ids d d') →
    (∀ t n k, reclaim_expired t n d ≠ Ok (k, d')) →
    beat c late worker i (now, last, d) (now, last, d').

(** The row is the one that was leased, its expiry a lease after the last
    renewal and not reached. *)
Record kept (c : Worker.Config) (late : Z) (worker : uuid) (i : Z) (r : job_row) (p : pulse) : Prop := {
  kept_ok : db_ok p.2;
  kept_in_time : p.1.1 <= p.1.2 + Worker.maintenance_interval c + late;
  kept_row : jobs p.2 !! i = Some (set_lease_expires_at (Some (p.1.2 + Worker.lease c)) r) }.

Lemma renew_ticks (m : moment) c worker f i r d :
  db_ok d → quiet_call m → i ∈ Worker.ids f → jobs d !! i = Some r → held worker r = true →
  db_ok (renew_tick m c worker f d) ∧
  jobs (renew_tick m c worker f d) !! i = Some (set_lease_expires_at (Some (at_time m + Worker.lease c)) r).
Proof.
  intros Hd Hm Hi%elem_of_elements Hr Hh. unfold renew_tick, Worker.snapshot.
  rewrite decide_False by (intros E; rewrite E in Hi; by apply elem_of_nil in Hi).
  destruct (renew_ok (at_time m) (elements (Worker.ids f)) worker (Worker.lease c) d Hd) as (k & d1 & E & Hd1).
  rewrite (call_quiet _ _ _ _ _ Hm E). split; [done|]. simpl. unfold renew_leases, RENEW in E.
  rewrite decide_False in E by (intros E'; rewrite E' in Hi; by apply elem_of_nil in Hi).
  destruct (commit _) as [d0|] eqn:Ec; simplify_eq/=.
  pose proof (update_lookup _ _ _ _ _ Ec Hr) as Hr1. cbv beta in Hr1.
  by rewrite (bool_decide_true _ Hi), Hh in Hr1.
Qed.

Lemma beat_keeps c late worker i r p p' :
  0 <= Worker.maintenance_interval c → 0 <= late < Worker.lease c - Worker.maintenance_interval c →
  held worker r = true → kept c late worker i r p → beat c late worker i p p' → kept c late worker i r p'.
Proof.
  intros Hm Hlate Hh [Hd Ht Hr] Hb. pose proof (held_running _ _ Hh) as Hs. destruct Hb; simpl in *.
  - split; simpl; [done|lia|done].
  - destruct (renew_ticks m c worker f i _ d Hd H H0 Hr) as [Hd' Hr']; [done|]. split; simpl; [done|lia|done].
  - split; simpl; [|lia|].
    + eapply step_ok; [done|]. by eapply by_reclaim.
    + pose proof H as [Hn _]%negative_limit. destruct (reclaim_exact now n d Hd Hn) as (k' & d2 & E & _ & _ & Hj).
      rewrite E in H. simplify_eq. rewrite (Hj _ _ Hr). case_decide as Hl; [|done].
      eapply expired_lapsed in Hl; [|done]. unfold lapsed in Hl; simpl in Hl. bool_facts. lia.
  - split; simpl; [|done|].
    + eapply step_ok; [done|]. by eapply worker_call_step.
    + eapply worker_call_keeps; [done..|]. destruct H0 as [?|Hw]; [by left|right]. simpl.
      unfold held in Hh. bool_facts. congruence.
  - split; simpl; [by eapply step_ok|done|].
    destruct (step_cases d d' Hd H) as [(w & ids & ?)|[(t & n & k & ?)|Hl]]; [by edestruct H0|by edestruct H1|].
    by apply Hl.
Qed.

(** C15. A heartbeat keeps its jobs: under a configuration [validate] accepts, a
    lease outlives the renewal interval by some slack, and as long as renewals
    are late by less than that, a job in flight stays leased to its worker
    against every sweep, every other worker's report and every other statement:
    its row is as leased but for the expiry, which is never reached. *)
Theorem heartbeat c worker i r t :
  Worker.validate c = Ok tt → 0 <= Worker.maintenance_interval c →
  ∃ slack, 0 < slack ∧ ∀ late d now last d',
    0 <= late < slack → reachable d → jobs d !! i = Some r → held worker r = true →
    lease_expires_at r = Some (t + Worker.lease c) →
    rtc (beat c late worker i) (t, t, d) (now, last, d') →
    ∃ e, jobs d' !! i = Some (set_lease_expires_at (Some e) r) ∧ now < e.
Proof.
  intros Hv Hm. exists (Worker.lease c - Worker.maintenance_interval c). split.
  { unfold Worker.validate in Hv. repeat case_decide; try done. repeat case_match; try done. bool_facts. lia. }
  intros late d now last d' Hlate Hd Hr Hh He Hb.
  assert (kept c late worker i r (t, t, d)) as Hk.
  { split; simpl; [by apply reachable_ok|lia|]. rewrite <- He. by destruct r. }
  assert (kept c late worker i r (now, last, d')) as [_ Ht Hr'].
  { clear - Hm Hlate Hh Hb Hk. induction Hb; eauto using beat_keeps. }
  exists (last + Worker.lease c). simpl in *. split; [done|lia].
Qed.

End Leases.

(** ** Applied to the example *)

(** The configuration of [gylo worker --app shop:app]. *)
Definition shop_worker : Worker.Config := Cli.worker_config (Some 1) None (Cli.WorkerArgs_default "shop:app").

Definition leased_long : db :=
  match FETCH_UNKEYED 200 ["default"] 10 alice (Worker.lease shop_worker) ∅ enqueued with
  | Ok (_, _, d) => d | Err _ => empty end.

Lemma leased_long_reachable : reachable leased_long.
Proof.
  apply rtc_r with enqueued; [apply enqueued_reachable|].
  eapply (by_unkeyed _ 200 ["default"] 10 alice (Worker.lease shop_worker) ∅). by vm_compute.
Qed.

(** Ten seconds on the worker renews, and a second later anyone sweeps. *)
Definition renewed_long : db :=
  renew_tick (calm (200 + Worker.secs 10) 0%nat) shop_worker alice (Worker.reserve [1] (Worker.InFlight_new 256)) leased_long.
Definition swept_long : db := after (reclaim_expired (200 + Worker.secs 11) 100 renewed_long).

Lemma heartbeat_witness :
  ∃ e, jobs swept_long !! 1 = Some (set_lease_expires_at (Some e) (row_of leased_long 1)) ∧ 200 + Worker.secs 11 < e.
Proof.
  destruct (heartbeat shop_worker alice 1 (row_of leased_long 1) 200) as (slack & Hslack & H).
  - vm_compute. reflexivity.
  - vm_compute. discriminate.
  - apply (H 0 leased_long (200 + Worker.secs 11) (200 + Worker.secs 10) swept_long).
    + lia.
    + apply leased_long_reachable.
    + vm_compute. reflexivity.
    + vm_compute. reflexivity.
    + vm_compute. reflexivity.
    + eapply rtc_l; [apply (time_passes _ _ _ _ 200 (200 + Worker.secs 10)); vm_compute; split; discriminate|].
      eapply rtc_l; [apply (renews shop_worker 0 alice 1 (calm (200 + Worker.secs 10) 0%nat)
        (Worker.reserve [1] (Worker.InFlight_new 256)));
        [apply calm_quiet|apply elem_of_union_r, elem_of_list_to_set; left]|].
      eapply rtc_l; [apply (time_passes _ _ _ _ (200 + Worker.secs 10) (200 + Worker.secs 11)); vm_compute; split; discriminate|].
      apply rtc_once, (sweeps _ _ _ _ _ _ 100 {| released := 0; exhausted := 0 |}). vm_compute. reflexivity.
Defined.

End WorkerLease.
