(* ===== verification/Chaos.v ===== *)
(** * The chaos harness

    [crates/gylo-chaos/src/main.rs]: what the harness measures while it kills
    workers and restarts the database, and the verdict it draws. What the
    operating system answers ([pgrep], [kill], [docker]) is a record of the
    environment; the database is the model's, moved by everyone else between
    the harness's own queries. *)

From S2P Require Import Prelude.
From S2P Require Import Utf8.
From S2P Require Import Core.
From S2P Require Import PgTable.
From S2P Require Import PgJobs.
From S2P Require Import Worker.
From S2P Require Import WorkerLoop.
From S2P Require Import Cli.
Import Utf8.
Import Table.
Import Jobs.
Import WorkerLoop.

Module Chaos.

Definition SETTLE_TIMEOUT : Z := Worker.secs 120.
Definition BUSY_TIMEOUT : Z := Worker.secs 30.

Inductive Verdict := Pass | Fail | Inconclusive.
#[global] Instance Verdict_eq_dec : EqDecision Verdict.
Proof. solve_decision. Defined.

Record Outcome := {
  scenario : string;
  faults : Z;
  outstanding_at_fault : list Z;
  settled : bool;
  note : option string
}.

(** ** Reading text *)

Definition drop_white (cs : list Z) : list Z :=
  (fix go cs := match cs with c :: cs' => if is_whitespace c then go cs' else cs | [] => [] end) cs.

(** [s.trim()], as its characters. *)
Definition trim (s : string) : list Z := rev (drop_white (rev (drop_white (str_chars s)))).

Fixpoint digits (acc : Z) (cs : list Z) : option Z :=
  match cs with
  | [] => Some acc
  | c :: cs' => if between 0x30 0x39 c then digits (10 * acc + (c - 0x30)) cs' else None
  end.

(** [parse::<i64>]: an optional sign and at least one digit, in range. *)
Definition parse_i64 (cs : list Z) : option Z :=
  let '(sign, ds) := match cs with
    | c :: cs' => if c =? 0x2B then (1, cs') else if c =? 0x2D then (-1, cs') else (1, cs)
    | [] => (1, [])
    end in
  match ds with
  | [] => None
  | _ => n ← digits 0 ds; if bool_decide (in_signed 64 (sign * n)) then Some (sign * n) else None
  end.

(** [parse::<u32>]: a plus sign is allowed, a minus sign is not. *)
Definition parse_u32 (cs : list Z) : option Z :=
  let ds := match cs with c :: cs' => if c =? 0x2B then cs' else cs | [] => [] end in
  match ds with
  | [] => None
  | _ => n ← digits 0 ds; if n <? 2 ^ 32 then Some n else None
  end.

(** ** Measuring *)

(** [TRUNCATE gylo_job CASCADE]: the tables that refer to it go too, the identity
    sequence goes on. *)
Definition truncate (d : db) : db := {|
  jobs := ∅; next_job := next_job d; steps := ∅; edges := ∅; workflows := workflows d;
  next_workflow := next_workflow d; crons := crons d |}.

Section Payload.
(** [rmp_serde::to_vec] of the arguments of one marker. *)
Context (payload_of : Z → list byte).

Fixpoint enqueue_markers (now : Z → Z) (marker : Z) (n : nat) (d : db) : Prelude.result db_error db :=
  match n with
  | O => Ok d
  | S n' => '(_, d') ← enqueue (now marker) (NewJob_new "record" (payload_of marker)) d; enqueue_markers now (marker + 1) n' d'
  end.

(** [reset], which panics where this is an [Err]; [now] is the time of each insert. *)
Definition reset (now : Z → Z) (n : nat) (d : db) : Prelude.result db_error db := enqueue_markers now 0 n (truncate d).

End Payload.

(** [unfinished]: -1 when the query fails. *)
Definition unfinished (m : moment) (d : db) : Z * db :=
  match call m (λ d, Ok (count (λ _ r, bool_decide (live r) && bool_decide (queue (spec r) = "default")) d, d)) d with
  | (Ok n, d') => (n, d')
  | (Err _, d') => (-1, d')
  end.

(** The loop of [wait_until_busy], with its 20 ms sleep between the moments;
    [None] is fuel run out. *)
Fixpoint busy_loop (fuel : nat) (deadline total : Z) (w : world) (d : db) : option (option Z * world * db) :=
  match fuel with
  | O => None
  | S fuel' =>
    if local_time (w 0%nat) <? deadline then
      let '(remaining, d') := unfinished (w 0%nat) d in
      if (0 <? remaining) && (remaining <? total) then Some (Some remaining, later 1 w, d')
      else if remaining =? 0 then Some (None, later 1 w, d')
      else busy_loop fuel' deadline total (later 1 w) d'
    else Some (None, later 1 w, d)
  end.

Definition wait_until_busy (fuel : nat) (total : Z) (w : world) (d : db) : option (option Z * world * db) :=
  busy_loop fuel (local_time (w 0%nat) + BUSY_TIMEOUT) total (later 1 w) d.

Fixpoint settle_loop (fuel : nat) (deadline : Z) (w : world) (d : db) : option (bool * world * db) :=
  match fuel with
  | O => None
  | S fuel' =>
    if local_time (w 0%nat) <? deadline then
      let '(remaining, d') := unfinished (w 0%nat) d in
      if remaining =? 0 then Some (true, later 1 w, d') else settle_loop fuel' deadline (later 1 w) d'
    else Some (false, later 1 w, d)
  end.

Definition settle (fuel : nat) (w : world) (d : db) : option (bool * world * db) :=
  settle_loop fuel (local_time (w 0%nat) + SETTLE_TIMEOUT) (later 1 w) d.

(** How often each marker is in the ledger; a ledger that is missing or not
    UTF-8 reads as an empty one. *)
Definition count_line (counts : gmap Z Z) (line : string) : gmap Z Z :=
  match parse_i64 (trim line) with
  | Some marker => <[marker := default 0 (counts !! marker) + 1]> counts
  | None => counts
  end.

Definition ledger_counts (ledger : option (list byte)) : gmap Z Z :=
  foldl count_line ∅ (str_lines (default "" (ledger ≫= from_utf8))).

(** ** The verdict *)

(** [iter().copied().max().unwrap_or(0)]. *)
Definition max_of (l : list Z) : Z := match l with [] => 0 | x :: l' => foldl Z.max x l' end.

(** [self.jobs - executed], in wrapping [usize]. *)
Definition lost (n : Z) (counts : gmap Z Z) : Z := (n - Z.of_nat (size counts)) mod 2 ^ 64.

(** [report], past the line it prints. *)
Definition report (n : Z) (ledger : option (list byte)) (o : Outcome) : Verdict :=
  if negb (settled o) || (0 <? lost n (ledger_counts ledger)) then Fail
  else if (faults o =? 0) || (max_of (outstanding_at_fault o) =? 0) then Inconclusive
  else Pass.

(** ** Scenarios *)

(** What the system answers the harness, by round. *)
Record os := {
  pgrep : nat → option (list byte);
  kill : nat → Z → bool;
  respawns : bool;
  docker_restart : bool
}.

Definition children_of (output : option (list byte)) : list Z :=
  omap (λ line, parse_u32 (trim line)) (str_lines (default "" (output ≫= from_utf8))).

Definition kill_all (kill : Z → bool) (pids : list Z) : bool := foldl (λ killed pid, killed || kill pid) false pids.

(** The loop of faults the scenarios share: wait until the worker is busy, then
    strike, round by round; the plan says whether a round's strike counts. *)
Record strikes := { rounds : nat; hits : Z; interrupted : list Z }.
Definition no_strikes : strikes := {| rounds := 0; hits := 0; interrupted := [] |}.

(** A round that found the worker busy with [remaining] jobs to go. *)
Definition struck (remaining : Z) (hit : bool) (s : strikes) : strikes := {|
  rounds := S (rounds s);
  hits := if hit then hits s + 1 else hits s;
  interrupted := if hit then interrupted s ++ [remaining] else interrupted s |}.

Fixpoint strike (fuel : nat) (total : Z) (plan : list bool) (w : world) (d : db) (s : strikes)
  : option (strikes * world * db) :=
  match plan with
  | [] => Some (s, w, d)
  | hit :: plan' =>
    match wait_until_busy fuel total w d with
    | None => None
    | Some (None, w', d') => Some (s, w', d')
    | Some (Some remaining, w', d') => strike fuel total plan' w' d' (struck remaining hit s)
    end
  end.

(** A scenario after its reset: its strikes, then [settle]. *)
Definition run_scenario (fuel : nat) (total : Z) (name : string) (plan : list bool) (note_of : nat → option string)
    (w : world) (d : db) : option (Outcome * world * db) :=
  '(s, w1, d1) ← strike fuel total plan w d no_strikes;
  '(ok, w2, d2) ← settle fuel w1 d1;
  Some ({| scenario := name; faults := hits s; outstanding_at_fault := interrupted s; settled := ok;
           note := note_of (rounds s) |}, w2, d2).

Definition no_note (_ : nat) : option string := None.

(** Four rounds; only a round that killed something counts. The first round that
    is reached looks for the replacement of the child. *)
Definition scenario_child_kill (fuel : nat) (total : Z) (o : os) (w : world) (d : db) :=
  run_scenario fuel total "python child kill -9"
    ((λ round, kill_all (kill o round) (children_of (pgrep o round))) <$> seq 0 4)
    (λ reached, if bool_decide (0 < reached)%nat && negb (respawns o)
       then Some "supervisor did not replace the killed child; recovery came only from lease expiry" else None) w d.

(** Three rounds, each counted: the supervisor itself is killed. *)
Definition scenario_worker_kill (fuel : nat) (total : Z) (w : world) (d : db) :=
  run_scenario fuel total "supervisor kill -9" (replicate 3 true) no_note w d.

(** One of two workers is torn down once they are busy. *)
Definition scenario_peer_reclaim (fuel : nat) (total : Z) (w : world) (d : db) :=
  run_scenario fuel total "peer reclaim" [true] no_note w d.

Definition scenario_postgres_restart (fuel : nat) (total : Z) (o : os) (w : world) (d : db) :=
  run_scenario fuel total "postgres restart" [docker_restart o] no_note w d.

(** The arguments [spawn_worker] gives the binary. *)
Definition spawn_worker (python python_path : string) : Cli.WorkerArgs :=
  let d := Cli.WorkerArgs_default "app:app" in {|
  Cli.wa_app := "app:app"; Cli.wa_queues := Cli.wa_queues d; Cli.wa_processes := Cli.wa_processes d;
  Cli.wa_concurrency := 16; Cli.wa_batch := 8; Cli.wa_lease := Worker.secs 2;
  Cli.wa_poll_interval := Worker.ms 100; Cli.wa_maintenance_interval := Worker.ms 400;
  Cli.wa_retry_base := Cli.wa_retry_base d; Cli.wa_retry_cap := Cli.wa_retry_cap d;
  Cli.wa_retain_completed := Cli.wa_retain_completed d; Cli.wa_retain_discarded := Cli.wa_retain_discarded d;
  Cli.wa_python := Some python; Cli.wa_python_path := Some python_path;
  Cli.wa_pool_size := Cli.wa_pool_size d; Cli.wa_observe := Cli.wa_observe d |}.

(** [main]: the scenarios asked for, in order, and the exit status. *)
Definition wanted (only : option string) (name : string) : bool :=
  match only with None => true | Some filter => bool_decide (filter = name) end.

Definition main (only : option string) (run : string → Verdict) : Z :=
  let verdicts := run <$> List.filter (wanted only) ["child"; "worker"; "peer"; "postgres"] in
  if existsb (λ v, bool_decide (v ≠ Pass)) verdicts then 1 else 0.

End Chaos.
