(* ===== verification/ChaosSafety.v ===== *)
(** * What a verdict of the harness means

    A scenario passes only if every marker ran, nothing was left to do and a
    fault landed while there was; its loops end; and the exit status sums up the
    scenarios that were asked for. *)

From S2P Require Import Prelude.
From S2P Require Import Utf8.
From S2P Require Import PgTable.
From S2P Require Import PgJobs.
From S2P Require Import PgInvariant.
From S2P Require Import PgSteps.
From S2P Require Import PgExample.
From S2P Require Import Worker.
From S2P Require Import WorkerLoop.
From S2P Require Import WorkerSafety.
From S2P Require Import Cli.
From S2P Require Import Chaos.
Import Utf8.
Import Table.
Import Jobs.
Import Invariant.
Import Steps.
Import Example.
Import WorkerLoop.
Import WorkerSafety.
Import Chaos.

Module ChaosSafety.

(** ** The ledger *)

Lemma count_line_pos line counts :
  map_Forall (λ _ n, 1 <= n) counts → map_Forall (λ _ n, 1 <= n) (count_line counts line).
Proof.
  intros H. unfold count_line. destruct (parse_i64 _) as [m|]; [|done]. apply map_Forall_insert_2; [|done].
  destruct (counts !! m) as [n|] eqn:E; simpl; [|lia]. specialize (H m n E). simpl in H. lia.
Qed.

Lemma ledger_counts_pos ledger : map_Forall (λ _ n, 1 <= n) (ledger_counts ledger).
Proof.
  unfold ledger_counts. assert (map_Forall (λ (_ : Z) n, 1 <= n) (∅ : gmap Z Z)) as H by apply map_Forall_empty.
  revert H. generalize (∅ : gmap Z Z). induction (str_lines _) as [|line l IH]; simpl; eauto using count_line_pos.
Qed.

(** If every marker counted is one that was enqueued and none is lost, all are there. *)
Lemma none_lost n (counts : gmap Z Z) :
  0 <= n < 2 ^ 64 → (∀ m, is_Some (counts !! m) → 0 <= m < n) → lost n counts = 0 →
  ∀ m, 0 <= m < n → is_Some (counts !! m).
Proof.
  intros Hn Hin Hlost m Hm. set (all := list_to_set (seqZ 0 n) : gset Z).
  assert (dom counts ⊆ all) as Hsub.
  { intros k [Hk1 Hk2]%elem_of_dom%Hin. apply elem_of_list_to_set, elem_of_seqZ. lia. }
  assert (size all = Z.to_nat n) as Hall.
  { unfold all. rewrite size_list_to_set by apply NoDup_seqZ. apply length_seqZ. }
  pose proof (subseteq_size _ _ Hsub) as Hle. rewrite size_dom in Hle.
  unfold lost in Hlost. rewrite Z.mod_small in Hlost by lia.
  apply elem_of_dom. assert (dom counts = all) as ->.
  { apply set_subseteq_size_eq; [done|]. rewrite size_dom. lia. }
  apply elem_of_list_to_set, elem_of_seqZ. lia.
Qed.

(** ** The loops *)

Lemma unfinished_zero m d d' :
  unfinished m d = (0, d') → ∀ i r, jobs d' !! i = Some r → queue (spec r) = "default" → ¬ live r.
Proof.
  unfold unfinished, call, deliver. intros E i r Hr Hq Hl.
  destruct (link m); [|done..]. cbn [fst snd] in E. apply pair_eq in E as [E <-]. revert E. unfold count, len.
  set (p := λ (_ : Z) (r : job_row), _). assert (i ∈ select p (others m d)) as Hi.
  { apply elem_of_select. exists r. split; [done|]. unfold p. by rewrite !bool_decide_true. }
  destruct (select p (others m d)); [by apply elem_of_nil in Hi|]. simpl. lia.
Qed.

Lemma settle_loop_true fuel deadline w d w' d' :
  settle_loop fuel deadline w d = Some (true, w', d') →
  ∀ i r, jobs d' !! i = Some r → queue (spec r) = "default" → ¬ live r.
Proof.
  revert w d. induction fuel as [|fuel IH]; intros w d E; simpl in E; [done|].
  destruct (_ <? _); [|done]. destruct (unfinished _ _) as [n d1] eqn:Eu. destruct (Z.eqb_spec n 0); [|eauto].
  simplify_eq. by eapply unfinished_zero.
Qed.

Lemma busy_loop_left fuel deadline total w d n w' d' :
  busy_loop fuel deadline total w d = Some (Some n, w', d') → 0 < n < total.
Proof.
  revert w d. induction fuel as [|fuel IH]; intros w d E; simpl in E; [done|].
  destruct (_ <? _); [|done]. destruct (unfinished _ _) as [k d1] eqn:Eu.
  destruct ((0 <? k) && (k <? total)) eqn:Ek; [simplify_eq; by bool_facts|]. destruct (k =? 0); [done|eauto].
Qed.

Lemma strike_busy fuel total plan w d s s' w' d' :
  strike fuel total plan w d s = Some (s', w', d') →
  Forall (λ n, 0 < n < total) (interrupted s) → Forall (λ n, 0 < n < total) (interrupted s').
Proof.
  revert w d s. induction plan as [|hit plan IH]; intros w d s E Hs; simpl in E; [by simplify_eq|].
  destruct (wait_until_busy _ _ _ _) as [[[[n|] w1] d1]|] eqn:Ew; simplify_eq; [|done].
  eapply IH; [done|]. simpl. destruct hit; [|done]. apply Forall_app. split; [done|].
  apply Forall_singleton. by eapply busy_loop_left.
Qed.

(** C37. A pass is not an accident: when a scenario passes, the queue held nothing
    unfinished when it settled, every job of the scenario ran at least once, and
    some fault struck while jobs were still outstanding, provided the ledger
    holds no marker that was never enqueued. *)
Theorem pass_means_survived fuel total name plan note_of w d o w' d' ledger :
  0 <= total < 2 ^ 64 → run_scenario fuel total name plan note_of w d = Some (o, w', d') →
  (∀ m, is_Some (ledger_counts ledger !! m) → 0 <= m < total) →
  report total ledger o = Pass →
  (∀ i r, jobs d' !! i = Some r → queue (spec r) = "default" → ¬ live r) ∧
  (∀ m, 0 <= m < total → ∃ n, ledger_counts ledger !! m = Some n ∧ 1 <= n) ∧
  0 < len (outstanding_at_fault o) ∧ Forall (λ n, 0 < n < total) (outstanding_at_fault o).
Proof.
  intros Ht Hrun Hin Hp. unfold run_scenario in Hrun.
  destruct (strike _ _ _ _ _ _) as [[[s w1] d1]|] eqn:Es; simpl in Hrun; [|done].
  destruct (settle _ _ _) as [[[ok w2] d2]|] eqn:Est; simplify_eq/=. unfold report in Hp; simpl in Hp.
  destruct ok; simpl in Hp; [|done]. destruct (Z.ltb_spec 0 (lost total (ledger_counts ledger))); [done|].
  destruct (hits s =? 0); simpl in Hp; [done|]. destruct (Z.eqb_spec (max_of (interrupted s)) 0) as [|Hm]; [done|].
  split_and!.
  - by eapply settle_loop_true.
  - intros m Hm'. destruct (none_lost total (ledger_counts ledger) Ht Hin) with m as [n Hn]; [|done|].
    + assert (0 <= lost total (ledger_counts ledger)) by (apply Z.mod_pos_bound; lia). lia.
    + exists n. split; [done|]. exact (ledger_counts_pos ledger m n Hn).
  - destruct (interrupted s); [done|]. unfold len; simpl. lia.
  - eapply strike_busy; [done|]. constructor.
Qed.

(** ** The end *)

(** Every sleep takes at least its 20 ms. *)
Definition ticking (w : world) : Prop := ∀ n, local_time (w n) + Worker.ms 20 <= local_time (w (S n)).

Lemma ticking_later k w : ticking w → ticking (later k w).
Proof. intros Hw n. specialize (Hw (k + n)%nat). unfold later. by rewrite Nat.add_succ_r. Qed.

(** A computation that ends, in a world whose clock still ticks. *)
Definition ends {A} (o : option (A * world * db)) : Prop :=
  ∃ a w d, o = Some (a, w, d) ∧ ticking w.

Lemma ends_now {A} (a : A) w d : ticking w → ends (Some (a, w, d)).
Proof. intros Hw. by exists a, w, d. Qed.

Lemma loop_fuel fuel deadline w :
  ticking w → deadline - local_time (w 0%nat) < Z.of_nat (S fuel) * Worker.ms 20 →
  deadline - local_time (later 1 w 0%nat) < Z.of_nat fuel * Worker.ms 20.
Proof. intros Hw Hlt. specialize (Hw 0%nat). unfold later; simpl. lia. Qed.

Lemma busy_loop_ends fuel deadline total w d :
  ticking w → deadline - local_time (w 0%nat) < Z.of_nat fuel * Worker.ms 20 →
  ends (busy_loop (S fuel) deadline total w d).
Proof.
  revert w d. induction fuel as [|fuel IH]; intros w d Hw Hlt; cbn [busy_loop];
    pose proof (ticking_later 1 w Hw) as Hw'; (destruct (Z.ltb_spec (local_time (w 0%nat)) deadline); [|by apply ends_now]).
  { lia. }
  destruct (unfinished _ _) as [n d1]. destruct (_ && _); [by apply ends_now|].
  destruct (n =? 0); [by apply ends_now|]. apply IH; [done|]. by apply loop_fuel.
Qed.

Lemma settle_loop_ends fuel deadline w d :
  ticking w → deadline - local_time (w 0%nat) < Z.of_nat fuel * Worker.ms 20 →
  ends (settle_loop (S fuel) deadline w d).
Proof.
  revert w d. induction fuel as [|fuel IH]; intros w d Hw Hlt; cbn [settle_loop];
    pose proof (ticking_later 1 w Hw) as Hw'; (destruct (Z.ltb_spec (local_time (w 0%nat)) deadline); [|by apply ends_now]).
  { lia. }
  destruct (unfinished _ _) as [n d1]. destruct (n =? 0); [by apply ends_now|]. apply IH; [done|]. by apply loop_fuel.
Qed.

Lemma strike_ends fuel total plan w d s :
  ticking w → BUSY_TIMEOUT < Z.of_nat fuel * Worker.ms 20 → ends (strike (S fuel) total plan w d s).
Proof.
  intros Hw Hf. revert w d s Hw. induction plan as [|hit plan IH]; intros w d s Hw; [by apply ends_now|].
  cbn [strike]. unfold wait_until_busy.
  destruct (busy_loop_ends fuel (local_time (w 0%nat) + BUSY_TIMEOUT) total (later 1 w) d) as (r & w1 & d1 & -> & Hw1).
  - by apply ticking_later.
  - specialize (Hw 0%nat). unfold later; simpl. unfold Worker.ms in *. lia.
  - destruct r; [by apply IH|by apply ends_now].
Qed.

(** A scenario ends: whatever the database answers, with a clock that moves by
    every sleep the fuel of the longer timeout is enough. *)
Lemma scenario_ends fuel total name plan note_of w d :
  ticking w → SETTLE_TIMEOUT < Z.of_nat fuel * Worker.ms 20 →
  ends (run_scenario (S fuel) total name plan note_of w d).
Proof.
  intros Hw Hf. unfold run_scenario.
  destruct (strike_ends fuel total plan w d no_strikes Hw) as (s & w1 & d1 & -> & Hw1).
  { unfold SETTLE_TIMEOUT, BUSY_TIMEOUT, Worker.secs in *. lia. }
  simpl. unfold settle.
  destruct (settle_loop_ends fuel (local_time (w1 0%nat) + SETTLE_TIMEOUT) (later 1 w1) d1) as (ok & w2 & d2 & -> & Hw2).
  - by apply ticking_later.
  - specialize (Hw1 0%nat). unfold later; simpl. unfold Worker.ms in *. lia.
  - by apply ends_now.
Qed.

(** ** The exit status *)

(** The status is zero exactly when every scenario asked for passed. *)
Lemma exit_status only run :
  main only run = 0 ↔ ∀ name, name ∈ ["child"; "worker"; "peer"; "postgres"] → wanted only name = true → run name = Pass.
Proof.
  unfold main. set (l := ["child"; "worker"; "peer"; "postgres"]). split.
  - intros H name Hn Hw. destruct (existsb _ _) eqn:E; [done|]. destruct (decide (run name = Pass)) as [|Hne]; [done|].
    assert (existsb (λ v, bool_decide (v ≠ Pass)) (run <$> List.filter (wanted only) l) = true); [|congruence].
    apply existsb_exists. exists (run name). split; [|by apply bool_decide_eq_true].
    apply list_elem_of_In, list_elem_of_fmap_2, list_elem_of_In, filter_In. split; [by apply list_elem_of_In|done].
  - intros H. destruct (existsb _ _) eqn:E; [|done]. apply existsb_exists in E as (v & Hv & Hne). bool_facts.
    apply list_elem_of_In, list_elem_of_fmap in Hv as (name & -> & Hn).
    rewrite list_elem_of_In, filter_In, <- list_elem_of_In in Hn. destruct Hn as [Hn Hw]. exfalso. auto.
Qed.

(** A scenario name nobody knows runs nothing and passes. *)
Lemma unknown_scenario_passes name run :
  name ∉ ["child"; "worker"; "peer"; "postgres"] → main (Some name) run = 0.
Proof.
  intros Hn. apply exit_status. intros name' Hin Hw. unfold wanted in Hw. bool_facts. by subst.
Qed.

(** The worker the harness spawns has a configuration the worker accepts, with
    room for four renewals in a lease. *)
Lemma spawned_worker_valid cores beside python path :
  0 < Worker.processes (Worker.Config_default cores) →
  let c := Cli.worker_config cores beside (spawn_worker python path) in
  Worker.validate c = Ok tt ∧ 4 * Worker.maintenance_interval c < Worker.lease c.
Proof.
  intros Hp. simpl. split; [|done]. unfold Worker.validate; simpl.
  simpl in Hp. by destruct (Z.eqb_spec (default 1 cores) 0); [lia|].
Qed.

(** ** Applied to an example *)

(** Two jobs, one still running when the fault strikes and done by the time the
    harness settles: what the two queries meet. *)
Definition two_jobs : db := after (enqueue 100 mail enqueued1).
Definition first_done : db :=
  after (complete 300 [1] [] alice
    match FETCH_UNKEYED 200 ["default"] 10 alice 1000 ∅ two_jobs with Ok (_, _, d) => d | Err _ => empty end).
Definition both_done : db := after (complete 400 [2] [] alice first_done).

Definition answers (d : db) (at_ : Z) : moment := {|
  around := {| at_time := at_; locked_rows := ∅; others := λ _, d; link := Answered |};
  draw := λ _, 0; local_time := at_ |}.
Definition chaotic : world := λ n,
  answers (match n with O | S O => first_done | _ => both_done end) (Z.of_nat n * Worker.ms 20).

Definition two_lines : list byte := [Byte.x30; Byte.x0a; Byte.x31; Byte.x0a; Byte.x30; Byte.x0a].

Definition peer_outcome : Outcome := {|
  scenario := "peer reclaim"; faults := 1; outstanding_at_fault := [1]; settled := true; note := None |}.

Lemma pass_means_survived_witness :
  report 2 (Some two_lines) peer_outcome = Pass ∧
  (∃ n, ledger_counts (Some two_lines) !! 1 = Some n ∧ 1 <= n) ∧
  (∀ i r, jobs both_done !! i = Some r → queue (spec r) = "default" → ¬ live r).
Proof.
  destruct (pass_means_survived 10 2 "peer reclaim" [true] no_note chaotic two_jobs peer_outcome
    (later 1 (later 1 (later 1 (later 1 chaotic)))) both_done (Some two_lines)) as (Hd & Hm & _).
  - split; [lia|vm_compute; reflexivity].
  - vm_compute. reflexivity.
  - intros m [n Hn]. assert (map_Forall (λ m _, 0 <= m < 2) (ledger_counts (Some two_lines))) as Hall
      by (apply (bool_decide_unpack _); vm_compute; exact I).
    exact (Hall m n Hn).
  - vm_compute. reflexivity.
  - split; [vm_compute; reflexivity|]. split; [|exact Hd]. apply Hm. lia.
Defined.

End ChaosSafety.
