(* ===== verification/WorkerSession.v ===== *)
(** * A session with one child

    The tasks of [crates/gylo-worker/src/lib.rs] that last as long as a child
    does: spawning it and shaking hands, the dispatch loop around
    [dispatch_round], the drain at shutdown, the loop that renews leases, and
    the listener that wakes idle dispatchers. Each is a function of what the
    world answers it: which arm of a [select!] fires, whether a write goes
    through, what the clock says. *)

From S2P Require Import Prelude.
From S2P Require Import Protocol.
From S2P Require Import Schedule.
From S2P Require Import PgTable.
From S2P Require Import PgJobs.
From S2P Require Import PgInvariant.
From S2P Require Import PgSteps.
From S2P Require Import PgReach.
From S2P Require Import PgExample.
From S2P Require Import PgFetch.
From S2P Require Import PgSettle.
From S2P Require Import PgRecover.
From S2P Require Import Worker.
From S2P Require Import WorkerLoop.
From S2P Require Import WorkerSafety.
From S2P Require Import WorkerTasks.
From S2P Require Import WorkerLease.
Import Table.
Import Jobs.
Import Invariant.
Import Steps.
Import Reach.
Import Example.
Import Fetch.
Import Settle.
Import Recover.
Import WorkerLoop.
Import WorkerSafety.
Import WorkerTasks.
Import WorkerLease.

Module WorkerSession.

Definition DRAIN_TIMEOUT : Z := Worker.secs 30.
Definition HANDSHAKE_TIMEOUT : Z := Worker.secs 30.

(** ** The child's command *)

Record command := { program : string; args : list string; environment : gmap string string }.

(** [spawn_child]: the entries of [env] come last and win. *)
Definition spawn_child (c : Worker.Config) (socket : string) : command := {|
  program := Worker.python c;
  args := ["-m"; "gylo._worker"; "--socket"; socket; "--app"; Worker.app c];
  environment :=
    foldl (λ e kv, <[kv.1 := kv.2]> e)
      (match Worker.python_path c with Some path => {["PYTHONPATH" := path]} | None => ∅ end)
      (Worker.env c) |}.

Section Session.
Context {Pl : Planner} {R : Protocol.RmpSerde} {C : Schedule.CronCrate}.

(** ** The dispatch loop *)

(** Which arm of a wait fires: an acknowledgement ([None] when the reader is
    gone), the notification or the timer, or shutdown. *)
Inductive wake := AckCame (ack : option Protocol.Message) | Woken | Stopped.

(** One turn of the loop, as the world decides it: whether shutdown was asked
    for before it, the acknowledgements waiting, the jobs the completion reader
    released since the last turn, the moments of the round's calls, what ends
    the wait after it, and which writes go through. *)
Record turn := {
  stop_before : bool;
  acks : list Protocol.Message;
  released : list Z;
  calls : world;
  woken : wake;
  writes : nat → option string
}.

(** Forwards acknowledgements; [writes] says which write fails, and how. *)
Fixpoint forward_acks (writes : nat → option string) (k : nat) (l : list Protocol.Message)
  : list byte * nat * option string :=
  match l with
  | [] => ([], k, None)
  | a :: l' =>
    match Protocol.encode a [] with
    | (Err _, _) => forward_acks writes k l'
    | (Ok _, buf) =>
      match writes k with
      | Some e => ([], k, Some e)
      | None => let '(out, k', r) := forward_acks writes (S k) l' in (buf ++ out, k', r)
      end
    end
  end.

Inductive progress := Goes_on | Ends (outcome : Prelude.result Worker.Error unit).

(** A wait that an acknowledgement may interrupt. *)
Definition after_wait (writes : nat → option string) (k : nat) (e : wake) : list byte * progress :=
  match e with
  | Stopped => ([], Ends (Ok tt))
  | Woken | AckCame None => ([], Goes_on)
  | AckCame (Some ack) =>
    let '(out, _, r) := forward_acks writes k [ack] in
    (out, match r with Some e => Ends (Err (Worker.Io e)) | None => Goes_on end)
  end.

Definition dispatch_turn (c : Worker.Config) (worker : uuid) (t : turn) (f : Worker.InFlight) (d : db)
  : list byte * Worker.InFlight * db * progress :=
  if stop_before t then ([], f, d, Ends (Ok tt)) else
  let '(out, k, failed) := forward_acks (writes t) 0 (acks t) in
  match failed with
  | Some e => (out, f, d, Ends (Err (Worker.Io e)))
  | None =>
    match dispatch_round (calls t) c worker (Worker.release (released t) f).1 d with
    | (WaitForRoom, f', d') | (WaitForWork, f', d') =>
      let '(more, p) := after_wait (writes t) k (woken t) in (out ++ more, f', d', p)
    | (RetryLater, f', d') =>
      (out, f', d', match woken t with Stopped => Ends (Ok tt) | _ => Goes_on end)
    | (Sent [], f', d') => (out, f', d', Goes_on)
    | (Sent bytes, f', d') =>
      match writes t k with
      | Some e => (out, f', d', Ends (Err (Worker.Io e)))
      | None => (out ++ bytes, f', d', Goes_on)
      end
    end
  end.

(** [dispatch] over the turns that occur; [None] while it still runs. *)
Fixpoint dispatch (c : Worker.Config) (worker : uuid) (turns : list turn) (f : Worker.InFlight) (d : db)
  : list byte * Worker.InFlight * db * option (Prelude.result Worker.Error unit) :=
  match turns with
  | [] => ([], f, d, None)
  | t :: turns' =>
    match dispatch_turn c worker t f d with
    | (out, f', d', Ends r) => (out, f', d', Some r)
    | (out, f', d', Goes_on) =>
      let '(out', f'', d'', r) := dispatch c worker turns' f' d' in (out ++ out', f'', d'', r)
    end
  end.

(** ** Draining *)

(** The drain loop over what it sees each time round: the clock and what is in
    flight. [None] while it still waits; otherwise whether all was settled. *)
Fixpoint drain (deadline : Z) (seen : list (Z * Worker.InFlight)) : option bool :=
  match seen with
  | [] => None
  | (now, f) :: seen' =>
    if negb (Worker.is_idle f) && (now <? deadline) then drain deadline seen' else Some (Worker.is_idle f)
  end.

(** ** A session *)

Inductive handshake := Accepted | TimedOut | AcceptFailed (e : string) | ExitedFirst (reported : string).

(** A session as the world decides it: [bound] and [spawned] are the errors of
    [bind] and [spawn], if any; [exit] is the child's exit while dispatch runs;
    [stopping] the time shutdown was seen requested, after dispatch. *)
Record run := {
  bound : option string;
  spawned : option string;
  said : Worker.LastWords;
  shake : handshake;
  turns : list turn;
  exit : option string;
  stopping : option Z;
  seen : list (Z * Worker.InFlight)
}.

(** [session]; [None] while it still runs. *)
Definition session (c : Worker.Config) (worker : uuid) (s : run) (f : Worker.InFlight) (d : db)
  : option (Prelude.result Worker.Error unit) :=
  match bound s, spawned s with
  | Some e, _ | None, Some e => Some (Err (Worker.Io e))
  | None, None =>
    match shake s with
    | TimedOut => Some (Err (Worker.HandshakeTimeout HANDSHAKE_TIMEOUT))
    | AcceptFailed e => Some (Err (Worker.Io e))
    | ExitedFirst reported => Some (Err (Worker.exited reported (said s)))
    | Accepted =>
      outcome ← match (dispatch c worker (turns s) f d).2, exit s with
                | Some r, _ => Some r
                | None, Some reported => Some (Err (Worker.exited reported (said s)))
                | None, None => None
                end;
      match stopping s with
      | None => Some outcome
      | Some now => _ ← drain (now + DRAIN_TIMEOUT) (seen s); Some outcome
      end
    end
  end.

(** ** Renewing *)

(** The loop of [renew] over what ends each of its sleeps: shutdown ([None]), or
    the interval, with the moment of the call and what is in flight by then. *)
Fixpoint renew (c : Worker.Config) (worker : uuid) (sleeps : list (option (moment * Worker.InFlight))) (d : db) : db :=
  match sleeps with
  | [] | None :: _ => d
  | Some (m, f) :: sleeps' => renew c worker sleeps' (renew_tick m c worker f d)
  end.

End Session.

(** ** Listening *)

Inductive listening := Connecting | Listening | Retrying | Returned.

Inductive heard :=
| Connected (listens : bool)
| ConnectFailed
| Notification (payload : string)
| StreamEnded
| RetryElapsed
| Cancelled.

(** One event of [listen], and whether it wakes the dispatchers. Events its
    state does not wait for do not occur. *)
Definition listen_step (queues : list string) (s : listening) (e : heard) : listening * bool :=
  match s, e with
  | Connecting, Connected true => (Listening, false)
  | Connecting, Connected false | Connecting, ConnectFailed => (Retrying, false)
  | Listening, Notification payload => (Listening, bool_decide (payload ∈ queues))
  | Listening, StreamEnded => (Retrying, false)
  | Listening, Cancelled | Retrying, Cancelled => (Returned, false)
  | Retrying, RetryElapsed => (Connecting, false)
  | _, _ => (s, false)
  end.

Fixpoint listen (queues : list string) (s : listening) (events : list heard) : listening * list bool :=
  match events with
  | [] => (s, [])
  | e :: events' =>
    let '(s', woke) := listen_step queues s e in
    let '(s'', wakes) := listen queues s' events' in (s'', woke :: wakes)
  end.

(** ** Facts *)

Section Facts.
Context {Pl : Planner} {R : Protocol.RmpSerde} {C : Schedule.CronCrate}.

Definition asked_to_stop (t : turn) : Prop := stop_before t = true ∨ woken t = Stopped.

Definition write_failed (t : turn) (e : string) : Prop := ∃ k, writes t k = Some e.

Lemma forward_acks_fails writes k l out k' e :
  forward_acks writes k l = (out, k', Some e) → ∃ j, writes j = Some e.
Proof.
  revert k out k'. induction l as [|a l IH]; intros k out k' E; simpl in E; [done|].
  destruct (Protocol.encode a []) as [[u|e'] buf]; [|eauto]. destruct (writes k) as [e'|] eqn:Ew; [simplify_eq; eauto|].
  destruct (forward_acks writes (S k) l) as [[out' k''] r] eqn:E'. simplify_eq. eauto.
Qed.

Lemma after_wait_ends writes k e out r :
  after_wait writes k e = (out, Ends r) →
  (r = Ok tt ∧ e = Stopped) ∨ ∃ why j, r = Err (Worker.Io why) ∧ writes j = Some why.
Proof.
  destruct e as [[ack|]| |]; cbn [after_wait]; intros E; simplify_eq; [|by left].
  destruct (forward_acks writes k [ack]) as [[out' k'] [why|]] eqn:Ef; simplify_eq.
  apply forward_acks_fails in Ef as [j Hj]. right. eauto.
Qed.

(** A turn ends the loop because it was asked to, or because a write failed. *)
Lemma dispatch_turn_ends c worker t f d out f' d' r :
  dispatch_turn c worker t f d = (out, f', d', Ends r) →
  (r = Ok tt ∧ asked_to_stop t) ∨ ∃ why, r = Err (Worker.Io why) ∧ write_failed t why.
Proof.
  unfold dispatch_turn, asked_to_stop, write_failed. destruct (stop_before t) eqn:Es; [intros ?; simplify_eq; auto|].
  destruct (forward_acks _ _ _) as [[out0 k] [why|]] eqn:Ef.
  { intros ?; simplify_eq. apply forward_acks_fails in Ef. eauto. }
  destruct (dispatch_round _ _ _ _ _) as [[[| | |[|b bytes]] f1] d1]; intros E.
  - destruct (after_wait _ _ _) as [more p] eqn:Ea. simplify_eq.
    apply after_wait_ends in Ea as [[? ?]|(why & j & ? & ?)]; eauto.
  - destruct (woken t) eqn:Ew; simplify_eq; auto.
  - destruct (after_wait _ _ _) as [more p] eqn:Ea. simplify_eq.
    apply after_wait_ends in Ea as [[? ?]|(why & j & ? & ?)]; eauto.
  - done.
  - destruct (writes t k) as [why|] eqn:Ew; simplify_eq. eauto 6.
Qed.

Lemma dispatch_ends c worker ts f d r :
  (dispatch c worker ts f d).2 = Some r →
  ∃ t, t ∈ ts ∧ ((r = Ok tt ∧ asked_to_stop t) ∨ ∃ why, r = Err (Worker.Io why) ∧ write_failed t why).
Proof.
  revert f d. induction ts as [|t ts IH]; intros f d E; simpl in E; [done|].
  destruct (dispatch_turn c worker t f d) as [[[out f1] d1] [|r1]] eqn:Et.
  - destruct (dispatch c worker ts f1 d1) as [[[out' f2] d2] r2] eqn:E2. simpl in E. subst.
    destruct (IH f1 d1) as (t' & Ht' & H); [by rewrite E2|]. exists t'. split; [by right|done].
  - simpl in E. simplify_eq. exists t. split; [left|]. by eapply dispatch_turn_ends.
Qed.

(** The drain is over once it sees nothing in flight or the deadline pass. *)
Lemma drain_ends deadline l now f :
  (now, f) ∈ l → (Worker.is_idle f = true ∨ deadline <= now) → is_Some (drain deadline l).
Proof.
  intros Hin Hover. induction l as [|[t g] l IH]; [by apply elem_of_nil in Hin|]. simpl.
  apply elem_of_cons in Hin as [E|Hin].
  - simplify_eq. destruct Hover as [->|Hd]; [simpl; eauto|].
    rewrite (proj2 (Z.ltb_ge t deadline) Hd), andb_false_r. eauto.
  - destruct (negb _ && _); eauto.
Qed.

(** A session ends well only because shutdown was asked for; otherwise its error
    says why: the system refused a socket, a process or a write, or the child
    did not connect, or it died, with its last words. *)
Lemma session_ends_for_a_reason c worker s f d outcome :
  session c worker s f d = Some outcome →
  match outcome with
  | Ok _ => ∃ t, t ∈ turns s ∧ asked_to_stop t
  | Err (Worker.Io e) => bound s = Some e ∨ spawned s = Some e ∨ shake s = AcceptFailed e ∨
      ∃ t, t ∈ turns s ∧ write_failed t e
  | Err (Worker.HandshakeTimeout after) => after = HANDSHAKE_TIMEOUT ∧ shake s = TimedOut
  | Err (Worker.ChildExited e) => ∃ reported,
      (shake s = ExitedFirst reported ∨ exit s = Some reported) ∧ Worker.exited reported (said s) = Worker.ChildExited e
  | Err _ => False
  end.
Proof.
  unfold session. destruct (bound s) as [e|] eqn:Eb; [intros ?; simplify_eq; auto|].
  destruct (spawned s) as [e|] eqn:Esp; [intros ?; simplify_eq; auto|].
  destruct (shake s) as [| |e|reported] eqn:Esh; [|intros ?; simplify_eq; unfold Worker.exited; eauto 6..].
  destruct ((dispatch c worker (turns s) f d).2) as [r|] eqn:Ed.
  - simpl. intros H. assert (outcome = r) as ->. { by destruct (stopping s); [destruct (drain _ _)|]; simplify_eq/=. }
    apply dispatch_ends in Ed as (t & Ht & [[-> ?]|(why & -> & ?)]); eauto 8.
  - destruct (exit s) as [reported|] eqn:Ee; [|done]. simpl. intros H.
    assert (outcome = Err (Worker.exited reported (said s))) as ->.
    { by destruct (stopping s); [destruct (drain _ _)|]; simplify_eq/=. }
    unfold Worker.exited. exists reported. auto.
Qed.

(** C36. The drain can outlive the leases it waits for: [renew] returns as soon as
    shutdown is asked for, so while a session still waits for a job, the lease
    last renewed before that runs out, any sweep takes the job away and the
    worker's report on it no longer counts. *)
Theorem drain_outlives_lease c worker f i r last stop now n sleeps d :
  reachable d → jobs d !! i = Some r → held worker r = true →
  lease_expires_at r = Some (last + Worker.lease c) → i ∈ Worker.ids f →
  last + Worker.lease c < now < stop + DRAIN_TIMEOUT → count (λ _ r, lapsed now r) d <= n →
  drain (stop + DRAIN_TIMEOUT) [(now, f)] = None ∧
  ∃ k d', reclaim_expired now n (renew c worker (None :: sleeps) d) = Ok (k, d') ∧
    jobs d' !! i = Some (recovered now r) ∧ held worker (recovered now r) = false.
Proof.
  intros Hd Hr Hh He Hi Hnow Hn. split.
  { simpl. assert (Worker.is_idle f = false) as ->.
    { unfold Worker.is_idle, Worker.held. apply Z.eqb_neq.
      assert (size (Worker.ids f) ≠ 0%nat); [|lia]. intros Hz%size_empty_inv. set_solver. }
    by rewrite (proj2 (Z.ltb_lt _ _) (proj2 Hnow)). }
  apply reachable_ok in Hd. assert (0 <= n) as Hpos
    by (unfold count in Hn; pose proof (len_nonneg (select (λ _ r, lapsed now r) d)); lia).
  destruct (reclaim_exact now n d Hd Hpos) as (k & d' & E & _ & _ & Hj). exists k, d'. split_and!; [done| |].
  - rewrite (Hj i r Hr), decide_True; [done|]. eapply swept_all; [done..|].
    unfold lapsed. rewrite bool_decide_true by by eapply held_running. rewrite He. apply Z.ltb_lt. lia.
  - unfold recovered. by destruct (attempts_left r).
Qed.

End Facts.

(** A listener never gives up: it returns only when cancelled. *)
Lemma listener_survives queues s events :
  s ≠ Returned → Cancelled ∉ events → (listen queues s events).1 ≠ Returned.
Proof.
  revert s. induction events as [|e events IH]; intros s Hs Hc; simpl; [done|].
  destruct (listen_step queues s e) as [s' woke] eqn:E. destruct (listen queues s' events) as [s'' wakes] eqn:E'.
  simpl. specialize (IH s'). rewrite E' in IH. simpl in IH. apply IH; [|set_solver].
  assert (e ≠ Cancelled) by set_solver. by destruct s, e as [[]| | | | |]; simplify_eq/=.
Qed.

(** While it listens, exactly the notifications of its queues wake the dispatchers. *)
Lemma listener_wakes queues payloads :
  listen queues Listening (Notification <$> payloads) =
    (Listening, (λ p, bool_decide (p ∈ queues)) <$> payloads).
Proof.
  induction payloads as [|p l IH]; [done|]. rewrite !fmap_cons. cbn [listen listen_step]. by rewrite IH.
Qed.

(** ** Applied to the example *)

(** Alice's job was leased when her worker was told to stop ten seconds in; she
    still waits for it when its lease has run out. *)
Lemma drain_outlives_lease_witness :
  drain (Worker.secs 10 + DRAIN_TIMEOUT) [(Worker.secs 31, Worker.reserve [1] (Worker.InFlight_new 256))] = None ∧
  ∃ k d', reclaim_expired (Worker.secs 31) 100 leased_long = Ok (k, d') ∧
    (state <$> jobs d' !! 1) = Some available.
Proof.
  destruct (drain_outlives_lease shop_worker alice (Worker.reserve [1] (Worker.InFlight_new 256)) 1
    (row_of leased_long 1) 200 (Worker.secs 10) (Worker.secs 31) 100 [] leased_long) as [Hw (k & d' & E & Hr & _)].
  - apply leased_long_reachable.
  - vm_compute. reflexivity.
  - vm_compute. reflexivity.
  - vm_compute. reflexivity.
  - apply elem_of_union_r, elem_of_list_to_set. left.
  - split; vm_compute; reflexivity.
  - vm_compute. discriminate.
  - split; [exact Hw|]. exists k, d'. split; [exact E|]. rewrite Hr. vm_compute. reflexivity.
Defined.

End WorkerSession.
