(* ===== verification/WorkerStream.v ===== *)
(** * What a child reads in a session

    The bytes of a whole session, acknowledgements and batches, whatever other
    sessions do to the database meanwhile and however the socket cuts them. *)

From S2P Require Import Prelude.
From S2P Require Import Utf8.
From S2P Require Import Core.
From S2P Require Import Protocol.
From S2P Require Import ChildProtocol.
From S2P Require Import Schedule.
From S2P Require Import PgTable.
From S2P Require Import PgJobs.
From S2P Require Import PgCron.
From S2P Require Import PgInvariant.
From S2P Require Import PgSteps.
From S2P Require Import PgReach.
From S2P Require Import PgTypes.
From S2P Require Import PgExample.
From S2P Require Import PgFetch.
From S2P Require Import PgSettle.
From S2P Require Import PgHistory.
From S2P Require Import Worker.
From S2P Require Import WorkerLoop.
From S2P Require Import WorkerSafety.
From S2P Require Import WorkerLease.
From S2P Require Import WorkerSession.
Import Table.
Import Jobs.
Import Cron.
Import Invariant.
Import Steps.
Import Reach.
Import Types.
Import Example.
Import Fetch.
Import Settle.
Import History.
Import WorkerLoop.
Import WorkerSafety.
Import WorkerLease.
Import WorkerSession.

Module WorkerStream.

Section Stream.
Context {Pl : Planner} {R : Protocol.RmpSerde} {C : Schedule.CronCrate}.

(** ** Databases over time *)

Lemma next_job_grows d d' : reachable d → rtc step d d' → next_job d <= next_job d'.
Proof.
  intros Hd. induction 1 as [d|d d1 d2 Hs Hrun IH]; [done|].
  pose proof (step_arrives d d1 (reachable_ok _ Hd) Hs) as [Hn _ _ _].
  assert (reachable d1) as Hd1 by (by eapply rtc_r). specialize (IH Hd1). lia.
Qed.

(** The identity sequence has not run out. *)
Definition small (d : db) : Prop := next_job d <= 2 ^ 63.

Lemma leased_wf worker d j : reachable d → small d → leased_job worker d j → Protocol.wf_message (dispatch_message j).
Proof.
  intros Hd Hs (d0 & r & Hd0 & Hrun & Hr & _ & ->)%leased_row. pose proof (next_job_grows d0 d Hd0 Hrun).
  destruct (row_typed d0 (job_id j) r Hd0) as (Hi & _ & Ht & _ & Hm & Ha); [unfold small in Hs; lia|done|].
  by split_and!.
Qed.

Lemma steps_wf d i : reachable d → Protocol.wf_i64 i → Protocol.wf_message (Protocol.Steps i (steps_for i d)).
Proof.
  intros Hd Hi. split; [done|]. apply Forall_forall. intros [name res] (s & Hs & _)%elem_of_steps_for.
  apply (typed_steps _ (reachable_typed d Hd) (i, name)). eauto.
Qed.

(** ** One job *)

Definition dispatched (i : Z) (ms : list Protocol.Message) : Prop :=
  ∃ a n t p, Protocol.Dispatch i a n t p ∈ ms.

Lemma dispatched_app i ms ms' : dispatched i (ms ++ ms') ↔ dispatched i ms ∨ dispatched i ms'.
Proof.
  unfold dispatched. split.
  - intros (a & n & t & p & [?|?]%elem_of_app); [left|right]; eauto 6.
  - intros [(a & n & t & p & ?)|(a & n & t & p & ?)]; exists a, n, t, p; apply elem_of_app; auto.
Qed.

(** A frame that hands over a job. *)
Definition hands (m : Protocol.Message) : Prop :=
  match m with Protocol.Dispatch _ _ _ _ _ => True | _ => False end.

(** What the supervisor may put on the wire. *)
Definition to_child (m : Protocol.Message) : Prop := Protocol.wf_message m ∧ ChildProtocol.for_child m.

Lemma encode_all_more ms ms' out :
  Protocol.encode_all ms' (Protocol.encode_all ms out) = Protocol.encode_all (ms ++ ms') out.
Proof. unfold Protocol.encode_all. by rewrite foldl_app. Qed.

Lemma prior_steps_run (m : moment) j d steps d' :
  reachable d → interleaves m → prior_steps m j d = (steps, d') →
  rtc step d d' ∧ ∃ d0, reachable d0 ∧ (steps = [] ∨ steps = steps_for (job_id j) d0).
Proof.
  intros Hd Hm. unfold prior_steps. destruct (_ && _); [|intros ?; simplify_eq; split; [done|eauto]].
  pose proof (deliver_reads m (steps_for (job_id j)) d Hm) as Hrun.
  pose proof (reachable_later _ _ Hd (Hm d)) as Hd0. unfold call in *. unfold deliver in *.
  destruct (link m); simpl in *; intros ?; simplify_eq; (split; [done|eauto]).
Qed.

Lemma discard_runs (m : moment) now ids errs worker d :
  interleaves m → rtc step d (call m (discard_many now ids errs worker) d).2.
Proof. intros Hm. apply deliver_steps; [done|]. intros d0 a d' E. by eapply by_discard. Qed.

(** What a job adds to the buffer and to the reservations. *)
Lemma dispatch_job_run worker buf reserved d j (w : world) buf' reserved' d' :
  reachable d → (∀ n, interleaves (w n)) → dispatch_job worker (buf, reserved, d) (j, w) = (buf', reserved', d') →
  rtc step d d' ∧
  (Protocol.wf_message (dispatch_message j) →
   ∃ ms, buf' = Protocol.encode_all ms buf ∧ Forall to_child ms ∧
     (∀ m, m ∈ ms → hands m → m = dispatch_message j) ∧
     reserved' = reserved ++ (if sendable j then [job_id j] else []) ∧ dispatch_message j ∈ ms).
Proof.
  intros Hd Hw. unfold dispatch_job. destruct (prior_steps (w 0%nat) j d) as [steps d1] eqn:Ep.
  destruct (prior_steps_run _ _ _ _ _ Hd (Hw _) Ep) as (Hrun & d0 & Hd0 & Hsteps).
  set (pre := if decide (steps = []) then [] else [Protocol.Steps (job_id j) steps]).
  assert ((if decide (steps = []) then buf else (Protocol.encode (Protocol.Steps (job_id j) steps) buf).2) =
    Protocol.encode_all pre buf) as -> by (unfold pre; by case_decide).
  rewrite Protocol.encode_frame_of. unfold sendable. rewrite Protocol.accepted_frame_of. intros E.
  assert (buf' = Protocol.encode_all (pre ++ [dispatch_message j]) buf ∧
    reserved' = reserved ++ (if is_ok (Protocol.frame_of (dispatch_message j)) then [job_id j] else []) ∧
    rtc step d1 d') as (-> & -> & Hrun').
  { rewrite <- encode_all_more. unfold Protocol.encode_all at 1; simpl. rewrite Protocol.encode_frame_of.
    destruct (Protocol.frame_of (dispatch_message j)); simplify_eq/=; (split; [done|]).
    - done.
    - rewrite app_nil_r. split; [done|]. by apply discard_runs. }
  split; [by etrans|]. intros Hwf. exists (pre ++ [dispatch_message j]). split_and!; try done.
  - apply Forall_app. split; [|by apply Forall_singleton; split]. unfold pre. case_decide; [constructor|].
    apply Forall_singleton. split; [|done]. destruct Hsteps as [?| ->]; [done|]. apply steps_wf; [done|]. by destruct Hwf.
  - intros m [Hm|Hm]%elem_of_app Hh.
    + unfold pre in Hm. case_decide; [by apply elem_of_nil in Hm|]. apply list_elem_of_singleton in Hm. by subst m.
    + by apply list_elem_of_singleton in Hm.
  - apply elem_of_app. right. left.
Qed.

(** ** A batch *)

Lemma dispatch_fold_run worker jws buf reserved d buf' reserved' d' :
  reachable d → Forall (λ jw : Job * world, ∀ n, interleaves (jw.2 n)) jws →
  foldl (dispatch_job worker) (buf, reserved, d) jws = (buf', reserved', d') →
  rtc step d d' ∧
  (Forall (λ jw : Job * world, Protocol.wf_message (dispatch_message jw.1)) jws →
   ∃ ms, buf' = Protocol.encode_all ms buf ∧ Forall to_child ms ∧
     (∀ m, m ∈ ms → hands m → ∃ j, j ∈ jws.*1 ∧ m = dispatch_message j) ∧
     (∀ i, i ∈ reserved' → i ∈ reserved ∨ dispatched i (List.filter Protocol.accepted ms))).
Proof.
  revert buf reserved d. induction jws as [|[j w] jws IH]; intros buf reserved d Hd Hw E.
  { simpl in E. simplify_eq. split; [done|]. intros _. exists []. split_and!; try done; [|auto].
    by intros m ?%elem_of_nil. }
  apply Forall_cons in Hw as [Hj Hw]. cbn [foldl] in E.
  destruct (dispatch_job worker (buf, reserved, d) (j, w)) as [[buf1 reserved1] d1] eqn:E1.
  destruct (dispatch_job_run _ _ _ _ _ _ _ _ _ Hd Hj E1) as [Hrun H1].
  destruct (IH buf1 reserved1 d1 (reachable_later _ _ Hd Hrun) Hw E) as [Hrun' H2]. split; [by etrans|].
  intros [Hwf Hwfs]%Forall_cons. destruct (H1 Hwf) as (ms1 & -> & Hms1 & Hid & -> & Hin).
  destruct (H2 Hwfs) as (ms2 & -> & Hms2 & Hids & Hres). exists (ms1 ++ ms2). split_and!.
  - apply encode_all_more.
  - by apply Forall_app.
  - intros m [Hm|Hm]%elem_of_app Hh.
    + exists j. split; [left|]. by apply Hid.
    + destruct (Hids m Hm Hh) as (j' & ? & ?). exists j'. split; [by right|done].
  - rewrite List.filter_app. setoid_rewrite dispatched_app. intros i [Hi|Hi]%Hres; [|by right; right].
    apply elem_of_app in Hi as [Hi|Hi]; [by left|]. destruct (sendable j) eqn:Es; [|by apply elem_of_nil in Hi].
    apply list_elem_of_singleton in Hi as ->. right. left. do 4 eexists.
    apply list_elem_of_In, filter_In. split; [by apply list_elem_of_In|done].
Qed.

Lemma dispatch_batch_run (w : world) worker batch d buf reserved d' :
  reachable d → (∀ n, interleaves (w n)) → (∀ j, j ∈ batch → leased_job worker d j) →
  dispatch_batch w worker batch d = (buf, reserved, d') →
  rtc step d d' ∧
  (small d' →
   ∃ ms, buf = Protocol.encode_all ms [] ∧ Forall to_child ms ∧
     (∀ m, m ∈ ms → hands m → ∃ j, j ∈ batch ∧ m = dispatch_message j) ∧
     (∀ i, i ∈ reserved → dispatched i (List.filter Protocol.accepted ms))).
Proof.
  intros Hd Hw Hb. unfold dispatch_batch. set (jws := imap _ batch). intros E.
  assert (jws.*1 = batch) as Hfst.
  { unfold jws. rewrite fmap_imap. change (imap (const id) batch = batch). by rewrite imap_const, list_fmap_id. }
  apply dispatch_fold_run in E as [Hrun H]; [|done|].
  2: { apply Forall_forall. intros jw (k & j & -> & _)%elem_of_lookup_imap. intros n. apply Hw. }
  split; [done|]. intros Hs. destruct H as (ms & -> & Hms & Hids & Hres).
  - apply Forall_forall. intros jw Hjw. apply (leased_wf worker d').
    + by eapply reachable_later.
    + done.
    + apply (leased_job_later _ d); [done|]. apply Hb. rewrite <- Hfst. by apply list_elem_of_fmap_2.
  - exists ms. rewrite Hfst in Hids. split_and!; try done. intros i Hi. by destruct (Hres i Hi) as [?%elem_of_nil|].
Qed.

(** ** A turn *)

(** The acknowledgements a reader sends: that a step is stored. *)
Definition acknowledges (m : Protocol.Message) : Prop :=
  Protocol.wf_message m ∧ ∃ i name, m = Protocol.Stored i name.

Lemma acks_not_handed l m : Forall acknowledges l → m ∈ l → ¬ hands m.
Proof. intros H Hm. rewrite Forall_forall in H. destruct (H m Hm) as (_ & i & name & ->). by intros []. Qed.

Lemma forward_acks_bytes writes k l out k' :
  forward_acks writes k l = (out, k', None) → out = Protocol.encode_all l [].
Proof.
  revert k out. induction l as [|a l IH]; intros k out E; simpl in E; [by simplify_eq|].
  unfold Protocol.encode_all; simpl. rewrite Protocol.encode_frame_of in *.
  destruct (Protocol.frame_of a) as [fr|e]; simpl in *; [|by eapply IH].
  destruct (writes k); [done|]. destruct (forward_acks writes (S k) l) as [[out' k''] r] eqn:E'. simplify_eq.
  fold (Protocol.encode_all l fr). rewrite Protocol.encode_all_app. by rewrite (IH _ _ E').
Qed.

(** What a stretch of the loop wrote and reserved, the database having gone on. *)
Definition carries (worker : uuid) (f : Worker.InFlight) (out : list byte) (f' : Worker.InFlight) (d' : db) : Prop :=
  small d' →
  ∃ ms, out = Protocol.encode_all ms [] ∧ Forall to_child ms ∧
    (∀ m, m ∈ ms → hands m → ∃ j, m = dispatch_message j ∧ leased_job worker d' j) ∧
    (∀ i, i ∈ Worker.ids f' → i ∈ Worker.ids f ∨ dispatched i (List.filter Protocol.accepted ms)).

Lemma carries_acks worker f l f' d' :
  Forall acknowledges l → Worker.ids f' ⊆ Worker.ids f → carries worker f (Protocol.encode_all l []) f' d'.
Proof.
  intros Hl Hf _. exists l. split_and!; [done| | |intros i Hi; left; by apply Hf].
  - eapply Forall_impl; [done|]. by intros m (? & i & name & ->).
  - intros m Hm Hh. by destruct (acks_not_handed l m).
Qed.

Lemma carries_app worker f out f1 d1 out' f2 d2 :
  reachable d1 → rtc step d1 d2 → carries worker f out f1 d1 → carries worker f1 out' f2 d2 → carries worker f (out ++ out') f2 d2.
Proof.
  intros Hd Hrun H1 H2 Hs. pose proof (next_job_grows _ _ Hd Hrun) as Hn.
  destruct H1 as (ms1 & -> & Hw1 & Hl1 & Hf1); [unfold small in *; lia|].
  destruct (H2 Hs) as (ms2 & -> & Hw2 & Hl2 & Hf2). exists (ms1 ++ ms2). split_and!.
  - by rewrite <- encode_all_more, (Protocol.encode_all_app ms2 (Protocol.encode_all ms1 [])).
  - by apply Forall_app.
  - intros m [Hm|Hm]%elem_of_app Hh; [|auto]. destruct (Hl1 m Hm Hh) as (j & ? & ?). exists j.
    split; [done|]. by eapply leased_job_later.
  - rewrite List.filter_app. setoid_rewrite dispatched_app. intros i [Hi|Hi]%Hf2; [|by right; right].
    destruct (Hf1 i Hi); auto.
Qed.

Lemma dispatch_round_run (w : world) c worker f d a f' d' :
  reachable d → 0 <= Worker.batch c → (∀ n, interleaves (w n)) → dispatch_round w c worker f d = (a, f', d') →
  rtc step d d' ∧ match a with Sent bytes => carries worker f bytes f' d' | _ => f' = f end.
Proof.
  intros Hd Hb Hw. unfold dispatch_round. destruct (_ =? 0); [intros ?; by simplify_eq|].
  pose proof (fetch_outcome (w 0%nat) (w 1%nat) (w 2%nat) (Worker.queues c)
    (Z.min (Worker.batch c) (Worker.available f)) (Worker.lease c) worker d Hd (Hw _) (Hw _) (Hw _)) as Ho.
  destruct (fetch _ _ _ _ _ _ _ _) as [[[|j l]|e] d1]; (destruct Ho as [Hrun Ho]; [unfold Worker.available; lia|]);
    [intros ?; by simplify_eq| |intros ?; by simplify_eq]. destruct Ho as [_ Hl].
  destruct (dispatch_batch (later 3 w) worker (j :: l) d1) as [[buf reserved] d2] eqn:E.
  apply dispatch_batch_run in E as [Hrun' H]; [|by eapply reachable_later|intros n; apply Hw|done].
  assert (rtc step d d2) by by etrans. case_decide as Hr; intros ?; simplify_eq; (split; [done|]).
  - by apply (carries_acks _ _ [] f').
  - intros Hs. destruct (H Hs) as (ms & -> & Hms & Hids & Hres). exists ms. split_and!; try done.
    + intros m Hm Hh. destruct (Hids m Hm Hh) as (j' & Hj' & ?). exists j'. split; [done|].
      apply (leased_job_later _ d1); auto.
    + intros i [?|Hi%elem_of_list_to_set]%elem_of_union; auto.
Qed.

Lemma release_ids l f : Worker.ids (Worker.release l f).1 ⊆ Worker.ids f.
Proof. unfold Worker.release. case_decide; simpl; set_solver. Qed.

Lemma carries_after worker f g out f' d' : Worker.ids g ⊆ Worker.ids f → carries worker g out f' d' → carries worker f out f' d'.
Proof.
  intros Hg H Hs. destruct (H Hs) as (ms & ? & ? & ? & Hf). exists ms. split_and!; try done.
  intros i [?|?]%Hf; auto.
Qed.

(** What the world gives a turn: interleavings of other sessions, and
    acknowledgements from the reader. *)
Record fair (t : turn) : Prop := {
  fair_calls n : interleaves (calls t n);
  fair_acks : Forall acknowledges (acks t);
  fair_wake a : woken t = AckCame (Some a) → acknowledges a }.

Definition wrote (p : progress) : Prop := match p with Ends (Err _) => False | _ => True end.

Lemma after_wait_bytes t k out p :
  fair t → after_wait (writes t) k (woken t) = (out, p) → wrote p →
  ∃ l, out = Protocol.encode_all l [] ∧ Forall acknowledges l.
Proof.
  intros [_ _ Hf]. destruct (woken t) as [[a|]| |]; cbn [after_wait]; intros E Hp; simplify_eq; try by exists [].
  destruct (forward_acks (writes t) k [a]) as [[out' k'] [e|]] eqn:Ea; simplify_eq; [done|].
  exists [a]. split; [by eapply forward_acks_bytes|]. apply Forall_singleton. auto.
Qed.

Lemma dispatch_turn_run c worker t f d out f' d' p :
  reachable d → 0 <= Worker.batch c → fair t → dispatch_turn c worker t f d = (out, f', d', p) → wrote p →
  rtc step d d' ∧ carries worker f out f' d'.
Proof.
  intros Hd Hb Ht. unfold dispatch_turn. destruct (stop_before t).
  { intros ? _; simplify_eq. split; [done|]. by apply (carries_acks _ _ []). }
  destruct (forward_acks (writes t) 0 (acks t)) as [[out0 k] [e|]] eqn:Ea; [intros ? ?; by simplify_eq|].
  apply forward_acks_bytes in Ea as ->. set (g := (Worker.release (released t) f).1).
  assert (carries worker f (Protocol.encode_all (acks t) []) g d) as Hacks
    by (apply carries_acks; [apply Ht|apply release_ids]).
  destruct (dispatch_round (calls t) c worker g d) as [[a f1] d1] eqn:Er.
  apply dispatch_round_run in Er as [Hrun Ha]; [|done|done|apply Ht].
  assert (∀ out', carries worker g out' f1 d1 → carries worker f (Protocol.encode_all (acks t) [] ++ out') f1 d1) as Happ
    by (intros out' H; by eapply carries_app).
  assert (∀ l, f1 = g → Forall acknowledges l → carries worker g (Protocol.encode_all l []) f1 d1) as Hmore
    by (intros l -> Hl; by apply carries_acks).
  assert (∀ b, b = [] → Protocol.encode_all (acks t) [] ++ b = Protocol.encode_all (acks t) []) as Hnil
    by (intros b ->; apply app_nil_r).
  destruct a as [| | |[|b bytes]]; intros E Hp.
  1, 3: destruct (after_wait _ _ _) as [more q] eqn:Ew; simplify_eq; split; [done|];
    apply after_wait_bytes in Ew as (l & -> & Hl); [|done..]; by apply Happ, Hmore.
  - simplify_eq. split; [done|]. rewrite <- (Hnil [] eq_refl). by apply Happ, (Hmore []).
  - simplify_eq. split; [done|]. rewrite <- (Hnil [] eq_refl). by apply Happ.
  - destruct (writes t k); simplify_eq; [done|]. split; [done|]. by apply Happ.
Qed.

Lemma dispatch_run c worker ts f d out f' d' r :
  reachable d → 0 <= Worker.batch c → Forall fair ts → dispatch c worker ts f d = (out, f', d', r) →
  (∀ e, r ≠ Some (Err e)) → rtc step d d' ∧ carries worker f out f' d'.
Proof.
  intros Hd Hb Hts. revert f d out Hd. induction Hts as [|t ts Ht _ IH]; intros f d out Hd E Hr; simpl in E.
  { simplify_eq. split; [done|]. by apply (carries_acks _ _ []). }
  destruct (dispatch_turn c worker t f d) as [[[out1 f1] d1] p] eqn:Et.
  assert (wrote p → rtc step d d1 ∧ carries worker f out1 f1 d1) as Hturn by (by eapply dispatch_turn_run).
  destruct p as [|[u|e]].
  - destruct (dispatch c worker ts f1 d1) as [[[out2 f2] d2] r2] eqn:E2. simplify_eq.
    destruct (Hturn I) as [Hrun Hc]. pose proof (reachable_later _ _ Hd Hrun) as Hd1.
    destruct (IH f1 d1 out2 Hd1 E2 Hr) as [Hrun' Hc']. split; [by etrans|]. by eapply carries_app.
  - simplify_eq. by apply Hturn.
  - simplify_eq. by destruct (Hr e).
Qed.

(** C19. What a session sends is one stream of whole frames for the child: whatever
    other sessions do to the database between its statements and however the socket
    cuts the bytes, as long as no write has failed and the identity sequence fits
    64 bits, the child's own [Decoder] reads every frame and keeps no byte; every
    [Dispatch] it reads is that of a job a fetch for this worker returned; and a job
    is in flight only if it was before the session or the child read its
    [Dispatch]. *)
Theorem session_stream {M : ChildProtocol.Msgspec} `{!ChildProtocol.Interop R M}
    c worker ts f d out f' d' r chunks :
  reachable d → 0 <= Worker.batch c → Forall fair ts → dispatch c worker ts f d = (out, f', d', r) →
  (∀ e, r ≠ Some (Err e)) → next_job d' <= 2 ^ 63 → concat chunks = out →
  ∃ ms, ChildProtocol.reads [] chunks = Ok (ms, []) ∧
    (∀ m, m ∈ ms → hands m → ∃ j, m = dispatch_message j ∧ leased_job worker d' j) ∧
    (∀ i, i ∈ Worker.ids f' → i ∈ Worker.ids f ∨ dispatched i ms).
Proof.
  intros Hd Hb Hts E Hr Hs Hc. destruct (dispatch_run _ _ _ _ _ _ _ _ _ Hd Hb Hts E Hr) as [_ Hcar].
  destruct (Hcar Hs) as (ms & -> & Hms & Hl & Hf). exists (List.filter Protocol.accepted ms). split_and!; [|..|done].
  - apply ChildProtocol.reads_batch; [by eapply Forall_impl; [done|]; intros m []..|done].
  - intros m [Hm _]%list_elem_of_In%filter_In. apply Hl. by apply list_elem_of_In.
Qed.

End Stream.

(** ** Applied to the example *)

(** A turn that forwards an acknowledgement and hands out what is queued, and one
    that is told to stop. *)
Definition two_turns : list turn := [
  {| stop_before := false; acks := [Protocol.Stored 7 "charge"]; released := []; calls := calm 200;
     woken := Woken; writes := λ _, None |};
  {| stop_before := true; acks := []; released := []; calls := calm 300; woken := Woken; writes := λ _, None |}].

Lemma two_turns_fair : Forall fair two_turns.
Proof.
  repeat constructor; simpl; try done; try (intros; apply rtc_refl).
  - apply (bool_decide_unpack _). vm_compute. exact I.
  - eauto.
Qed.

Definition two_turns_run := dispatch (R := Protocol.NumberedCodec.numbered)
  shop_worker alice two_turns (Worker.InFlight_new 256) enqueued.

Lemma session_stream_witness :
  two_turns_run.2 = Some (Ok tt) ∧ Worker.held two_turns_run.1.1.2 = 3 ∧
  ∃ ms, ChildProtocol.reads (M := ChildProtocol.NumberedMsgspec.numbered_msgspec) [] [two_turns_run.1.1.1] = Ok (ms, []) ∧
    dispatched 1 ms.
Proof.
  split; [vm_compute; reflexivity|]. split; [vm_compute; reflexivity|].
  destruct (session_stream (R := Protocol.NumberedCodec.numbered) (M := ChildProtocol.NumberedMsgspec.numbered_msgspec)
    shop_worker alice two_turns (Worker.InFlight_new 256)
    enqueued two_turns_run.1.1.1 two_turns_run.1.1.2 two_turns_run.1.2 two_turns_run.2 [two_turns_run.1.1.1])
    as (ms & Hread & _ & Hf).
  - apply enqueued_reachable.
  - vm_compute. discriminate.
  - apply two_turns_fair.
  - unfold two_turns_run. destruct (dispatch _ _ _ _ _) as [[[? ?] ?] ?]. reflexivity.
  - intros e. vm_compute. discriminate.
  - vm_compute. discriminate.
  - apply app_nil_r.
  - exists ms. split; [exact Hread|].
    assert (1 ∈ Worker.ids two_turns_run.1.1.2) as Hin by (apply (bool_decide_unpack _); vm_compute; exact I).
    destruct (Hf 1 Hin) as [Hi|Hi]; [|exact Hi]. exfalso. exact (not_elem_of_empty (C := gset Z) 1 Hi).
Defined.

End WorkerStream.
