(* ===== verification/System.v ===== *)
(** * A supervised child as one system

    [supervise] of [crates/gylo-worker/src/lib.rs] with everything it drives at
    once: [dispatch], [collect_completions] and [renew], the child behind its
    socket ([python/gylo/_worker.py]), the end of a session and the hand-back, and
    the database under them all. The tasks interleave at every await: a [system]
    keeps each one's place in its loop, and [next] takes it one statement, read or
    write further as an [event] of the world decides. What other sessions commit
    are events too, so a run is any interleaving whatever. [note]s record what
    passed, for the theorems to speak of. *)

From S2P Require Import Prelude.
From S2P Require Import Core.
From S2P Require Import Protocol.
From S2P Require Import ChildProtocol.
From S2P Require Import Schedule.
From S2P Require Import PgTable.
From S2P Require Import PgJobs.
From S2P Require Import PgCron.
From S2P Require Import Worker.
From S2P Require Import WorkerLoop.
Import Core.
Import Table.
Import Jobs.
Import Cron.
Import WorkerLoop.

Module System.

Definition READ_BUFFER : Z := Z.shiftl 1 16.
Definition ACK_CAPACITY : Z := 256.
(** The child's own reads. *)
Definition READ_BYTES : Z := Z.shiftl 1 16.

(** ** Places in the loops *)

(** Where [dispatch] is: at the top of its loop or in one of its waits; before
    each statement of [fetch]; between two jobs of a batch; before the statement
    that discards a job; before the write; or returned. *)
Inductive dispatcher :=
| Top
| Leasing (n : Z)
| Asking (n : Z)
| Admitting (rows : list Job) (spare : Z)
| Preparing (todo : list Job) (buf : list byte) (reserved : list Z)
| Discarding (j : Job) (e : Protocol.ProtocolError) (todo : list Job) (buf : list byte) (reserved : list Z)
| Writing (buf : list byte)
| Returned (outcome : Prelude.result Worker.Error unit).

(** Where [collect_completions] is: in its [select!]; taking messages from the
    decoder; recording schedules or a step; sending an acknowledgement; before a
    statement of a flush or its end, and whether it goes on after; or gone. *)
Inductive collector :=
| Waiting
| Decoding
| Registering (now : Z) (todo : list Protocol.CronRegistration)
| Recording (id : Z) (name : string) (res : list byte)
| Acking (ack : Protocol.Message)
| Flushing (k : nat) (stays : bool)
| Gone.

(** Where [supervise] is: in a session; handing back; waiting to restart; done. *)
Inductive supervisor :=
| InSession
| Abandoning (held : list Z)
| Reclaiming
| Resting
| Finished.

(** ** States *)

(** What [collect_completions] keeps; [armed] when it has a deadline. *)
Record reading := { dec : Protocol.Decoder; pend : Worker.Pending; armed : bool; coll : collector }.

(** The socket and the channel: bytes written and not yet read, each way, and
    acknowledgements not yet forwarded. *)
Record wires := { down : list byte; up : list byte; acks : list Protocol.Message }.

(** The child: whether it lives, its decoder's buffer and the jobs it runs. *)
Record child := { alive : bool; buffer : list byte; runs : list Z }.

Record system := {
  store : db;
  inflight : Worker.InFlight;
  disp : dispatcher;
  rd : reading;
  wire : wires;
  kid : child;
  sup : supervisor;
  stopping : bool
}.

Definition set_store d s := {| store := d; inflight := inflight s; disp := disp s; rd := rd s; wire := wire s;
  kid := kid s; sup := sup s; stopping := stopping s |}.
Definition set_inflight f s := {| store := store s; inflight := f; disp := disp s; rd := rd s; wire := wire s;
  kid := kid s; sup := sup s; stopping := stopping s |}.
Definition set_disp p s := {| store := store s; inflight := inflight s; disp := p; rd := rd s; wire := wire s;
  kid := kid s; sup := sup s; stopping := stopping s |}.
Definition set_rd r s := {| store := store s; inflight := inflight s; disp := disp s; rd := r; wire := wire s;
  kid := kid s; sup := sup s; stopping := stopping s |}.
Definition set_wire w s := {| store := store s; inflight := inflight s; disp := disp s; rd := rd s; wire := w;
  kid := kid s; sup := sup s; stopping := stopping s |}.
Definition set_kid k s := {| store := store s; inflight := inflight s; disp := disp s; rd := rd s; wire := wire s;
  kid := k; sup := sup s; stopping := stopping s |}.
Definition set_sup p s := {| store := store s; inflight := inflight s; disp := disp s; rd := rd s; wire := wire s;
  kid := kid s; sup := p; stopping := stopping s |}.
Definition set_stopping s := {| store := store s; inflight := inflight s; disp := disp s; rd := rd s; wire := wire s;
  kid := kid s; sup := sup s; stopping := true |}.

Definition set_coll p r := {| dec := dec r; pend := pend r; armed := armed r; coll := p |}.
Definition set_down b w := {| down := b; up := up w; acks := acks w |}.
Definition set_up b w := {| down := down w; up := b; acks := acks w |}.
Definition set_acks l w := {| down := down w; up := up w; acks := l |}.

(** A session's own part, before anything happened in it. *)
Definition fresh_reading : reading :=
  {| dec := Protocol.new; pend := Worker.Pending_default; armed := false; coll := Waiting |}.
Definition fresh_wires : wires := {| down := []; up := []; acks := [] |}.
Definition fresh_child : child := {| alive := true; buffer := []; runs := [] |}.

Definition start (c : Worker.Config) (d : db) : system := {|
  store := d; inflight := Worker.InFlight_new (Worker.concurrency c); disp := Top; rd := fresh_reading;
  wire := fresh_wires; kid := fresh_child; sup := InSession; stopping := false |}.

(** ** Events and notes *)

(** What happens: another session commits; shutdown is asked for; the dispatcher
    forwards an acknowledgement, starts a round, takes its next statement, writes
    (each write answered, or failed after some of its bytes) or sees the shutdown;
    the reader gets bytes, the end of the stream or an error, goes on, or its timer
    fires; a renewal; the child reads, speaks, or dies with some of what it wrote
    unsent; the session notices, perhaps with a statement under way, kills the
    child, and ends; the hand-back takes its next statement; a session starts. *)
Inductive event :=
| Elsewhere (d : db)
| Shutdown
| Forward (failed : option (nat * string))
| Begin
| Call (m : moment)
| Write (failed : option (nat * string))
| Stop
| Arrive (k : nat)
| Hangup
| Proceed (m : moment)
| Fire
| Renew (m : moment) (* the snapshot of the jobs in flight and the statement *)
| Hear (k : nat)
| Say (s : ChildProtocol.said)
| Die (k : nat)
| Notice (reported : string) (sent : option moment)
| Kill (k : nat)
| Close
| HandBack (m : moment)
| Restart.

(** How the supervisor comes to drop a lease. *)
Inductive cause := Cancelled | AnswerLost | DiscardFailed | FlushFailed | LeasedAgain | HandedBack.

Inductive note :=
| Leased (ids : list Z)
| LetGo (why : cause) (ids : list Z)
| Handed (ids : list Z)
| Said (s : ChildProtocol.said)
| Settling (k : nat) (p : Worker.Pending).

(** A moment with nobody else in it: what others do is events here. *)
Definition solo (m : moment) : moment := {|
  around := {| others := λ d, d; at_time := at_time m; locked_rows := locked_rows m; link := link m |};
  draw := draw m; local_time := local_time m |}.

Section System.
Context {Pl : Planner} {R : Protocol.RmpSerde} {C : Schedule.CronCrate} {M : ChildProtocol.Msgspec}.
Variables (c : Worker.Config) (worker : uuid).

(** ** Flushing *)

(** The ids of each statement of a flush, and those of the statements already
    sent. *)
Definition group (k : nat) (p : Worker.Pending) : list Z :=
  default [] ([Worker.p_completed p; Worker.with_result p; Worker.p_retry p; Worker.terminal p] !! k).
Definition sent_groups (k : nat) (p : Worker.Pending) : list Z :=
  concat (take k [Worker.p_completed p; Worker.with_result p; Worker.p_retry p; Worker.terminal p]).

(** The ids whose fate a flush under way has already sent. *)
Definition settling (r : reading) : list Z :=
  match coll r with Flushing k _ => sent_groups k (pend r) | _ => [] end.

(** The [k]th statement of [Pending::flush], and whether it went through. *)
Definition flush_call (k : nat) (m : moment) (p : Worker.Pending) (d : db) : bool * db :=
  match k with
  | 0%nat => let '(r, d) := call (solo m) (complete_many (at_time m) (Worker.p_completed p) worker) d in (is_ok r, d)
  | 1%nat => let '(r, d) := call (solo m) (complete_many_with_results (at_time m) (Worker.with_result p)
                                         (Worker.results p) worker) d in (is_ok r, d)
  | 2%nat => let '(r, d) := call (solo m) (retry_many (at_time m) (draw m) (Worker.p_retry p) (Worker.retry_errors p)
                                         worker (Worker.retry_base c) (Worker.retry_cap c)) d in (is_ok r, d)
  | _ => let '(r, d) := call (solo m) (discard_many (at_time m) (Worker.terminal p)
                                         (Worker.terminal_errors p) worker) d in (is_ok r, d)
  end.

(** Entering [flush], which returns at once when there is nothing to settle; what
    follows a flush clears the deadline, or the reader returns. *)
Definition after_flush (stays : bool) (r : reading) : reading :=
  if stays then {| dec := dec r; pend := pend r; armed := false; coll := Waiting |} else set_coll Gone r.
Definition start_flush (stays : bool) (r : reading) : reading :=
  if Worker.Pending_len (pend r) =? 0 then after_flush stays r else set_coll (Flushing 0 stays) r.

(** ** The dispatcher *)

(** The leases a dispatcher holds that are not yet in flight. *)
Definition in_hand (p : dispatcher) : list Z :=
  match p with
  | Admitting rows _ => job_id <$> rows
  | Preparing todo _ reserved => (job_id <$> todo) ++ reserved
  | Discarding j _ todo _ reserved => job_id j :: (job_id <$> todo) ++ reserved
  | _ => []
  end.

Definition unkeyed (m : moment) (n : Z) : db → Prelude.result db_error (list Job * bool * db) :=
  FETCH_UNKEYED (at_time m) (Worker.queues c) n worker (Worker.lease c) (locked_rows m).
Definition keyed_pass (m : moment) (n : Z) : db → Prelude.result db_error (list Job * db) :=
  FETCH_KEYED (at_time m) (Worker.queues c) n worker (Worker.lease c) (locked_rows m).

(** What a fetching statement leased although its caller got no answer. *)
Definition unheard {A} (m : moment) (ids : A → list Z) (st : Prelude.result db_error (A * db)) : list Z :=
  match link m, st with Unanswered, Ok (a, _) => ids a | _, _ => [] end.

(** Where [fetch] goes on after its first statement, and after its last. *)
Definition after_unkeyed (n : Z) (rows : list Job) (carried : bool) : dispatcher :=
  if decide (rows = []) then Asking n
  else if carried then Admitting rows (Z.max (n - len rows) 1) else Preparing rows [] [].
Definition after_fetch (batch : list Job) : dispatcher :=
  if decide (batch = []) then Top else Preparing batch [] [].

(** The jobs of [rows] whose fate a flush under way has already sent. *)
Definition again (r : reading) (rows : list Job) : list Z :=
  List.filter (λ i, bool_decide (i ∈ settling r)) (job_id <$> rows).

(** The dispatcher's next statement: its place after it, the database, and what
    there is to note. *)
Definition dispatch_call (m : moment) (r : reading) (p : dispatcher) (d : db) : option (dispatcher * db * list note) :=
  match p with
  | Leasing n =>
    let st := unkeyed m n in
    Some match call (solo m) st d with
    | (Ok (rows, carried), d') =>
      (after_unkeyed n rows carried, d', [Leased (job_id <$> rows); LetGo LeasedAgain (again r rows)])
    | (Err _, d') => (Top, d', [LetGo AnswerLost (unheard m (λ a, job_id <$> a.1) (st d))])
    end
  | Asking n =>
    Some match call (solo m) (λ d, Ok (KEYED_WAITING (at_time m) (Worker.queues c) d, d)) d with
    | (Ok true, d') => (Admitting [] (Z.max n 1), d', [])
    | (Ok false, d') | (Err _, d') => (Top, d', [])
    end
  | Admitting rows spare =>
    let st := keyed_pass m spare in
    Some match call (solo m) st d with
    | (Ok keyed, d') =>
      (after_fetch (rows ++ keyed), d', [Leased (job_id <$> keyed); LetGo LeasedAgain (again r keyed)])
    | (Err _, d') => (Top, d', [LetGo AnswerLost ((job_id <$> rows) ++ unheard m (λ a, job_id <$> a) (st d))])
    end
  | Preparing (j :: todo) buf reserved =>
    let '(steps, d) := prior_steps (solo m) j d in
    let buf := if decide (steps = []) then buf
               else (Protocol.encode (Protocol.Steps (job_id j) steps) buf).2 in
    Some match Protocol.encode (dispatch_message j) buf with
    | (Ok _, buf) => (Preparing todo buf (reserved ++ [job_id j]), d, [])
    | (Err e, buf) => (Discarding j e todo buf reserved, d, [])
    end
  | Discarding j e todo buf reserved =>
    Some match call (solo m) (discard_many (at_time m) [job_id j] [describe e] worker) d with
    | (Ok _, d') => (Preparing todo buf reserved, d', [])
    | (Err _, d') => (Preparing todo buf reserved, d', [LetGo DiscardFailed [job_id j]])
    end
  | _ => None
  end.

(** The statement a cancelled dispatcher had sent: it runs, and its answer goes
    nowhere. *)
Definition sent_anyway (m : moment) (p : dispatcher) (d : db) : list Z * db :=
  let lost := {| around := {| others := λ d, d; at_time := at_time m; locked_rows := locked_rows m; link := Unanswered |};
                 draw := draw m; local_time := local_time m |} in
  match p with
  | Leasing n => (unheard lost (λ a, job_id <$> a.1) (unkeyed m n d), (call lost (unkeyed m n) d).2)
  | Admitting _ spare => (unheard lost (λ a, job_id <$> a) (keyed_pass m spare d), (call lost (keyed_pass m spare) d).2)
  | Discarding j e _ _ _ => ([], (call lost (discard_many (at_time m) [job_id j] [describe e] worker) d).2)
  | _ => ([], d)
  end.

(** ** The reader *)

(** What [collect_completions] does next once it has bytes. *)
Definition proceed (m : moment) (s : system) : option (system * list note) :=
  let r := rd s in
  match coll r with
  | Decoding =>
    match Protocol.next_message (dec r) with
    | (Ret None, dc) =>
      let r := {| dec := dc; pend := pend r; armed := armed r; coll := Waiting |} in
      Some (set_rd (if Worker.completion_batch c <=? Worker.Pending_len (pend r) then start_flush true r else r) s, [])
    | (Ret (Some (Protocol.Complete id outcome)), dc) =>
      Some (set_rd {| dec := dc; pend := Worker.push id outcome (pend r); armed := true; coll := Decoding |} s, [])
    | (Ret (Some (Protocol.Register entries)), dc) =>
      Some (set_rd {| dec := dc; pend := pend r; armed := armed r; coll := Registering (local_time m) entries |} s, [])
    | (Ret (Some (Protocol.Record_ id name res)), dc) =>
      Some (set_rd {| dec := dc; pend := pend r; armed := armed r; coll := Recording id name res |} s, [])
    | (Ret (Some _), dc) =>
      Some (set_rd {| dec := dc; pend := pend r; armed := armed r; coll := Decoding |} s, [])
    | (Throw _, dc) | (Panic, dc) =>
      Some (set_rd (start_flush false {| dec := dc; pend := pend r; armed := armed r; coll := Waiting |}) s, [])
    end
  | Registering now [] => Some (set_rd (set_coll Decoding r) s, [])
  | Registering now (e :: todo) =>
    Some (set_store (register_one now (store s) (e, solo m)) (set_rd (set_coll (Registering now todo) r) s), [])
  | Recording id name res =>
    let '(outcome, d) := call (solo m) (λ d, d' ← record_step (at_time m) id name res d; Ok (tt, d')) (store s) in
    let next := match outcome with Ok _ => Acking (Protocol.Stored id name) | Err _ => Decoding end in
    Some (set_store d (set_rd (set_coll next r) s), [])
  | Acking ack =>
    match disp s with
    | Returned _ => Some (set_rd (set_coll Decoding r) s, [])
    | _ =>
      if len (acks (wire s)) <? ACK_CAPACITY
      then Some (set_wire (set_acks (acks (wire s) ++ [ack]) (wire s)) (set_rd (set_coll Decoding r) s), [])
      else None
    end
  | Flushing k stays =>
    if decide (k < 4)%nat then
      let '(went, d) := flush_call k m (pend r) (store s) in
      Some (set_store d (set_rd (set_coll (Flushing (S k) stays) r) s),
            Settling k (pend r) :: if went : bool then [] else [LetGo FlushFailed (group k (pend r))])
    else
      let f := (Worker.release (Worker.settled (pend r)) (inflight s)).1 in
      let r := {| dec := dec r; pend := Worker.Pending_default; armed := armed r; coll := coll r |} in
      Some (set_inflight f (set_rd (after_flush stays r) s), [])
  | Waiting | Gone => None
  end.

(** ** The child *)

(** What [serve] does with a message: a dispatch becomes a job that runs; prior
    steps and acknowledgements go to the jobs they are for. *)
Definition started (m : Protocol.Message) : option Z :=
  match m with Protocol.Dispatch id _ _ _ _ => Some id | _ => None end.

(** A chunk read by [serve]; what the decoder raises ends the process. *)
Definition hear (chunk : list byte) (k : child) : child * list Z :=
  match ChildProtocol.drain (buffer k ++ chunk) with
  | Ok (ms, rest) => ({| alive := true; buffer := rest; runs := runs k ++ omap started ms |}, omap started ms)
  | Err _ => ({| alive := false; buffer := buffer k ++ chunk; runs := runs k |}, [])
  end.

(** The first of the jobs running with this id ends. *)
Fixpoint remove_first (i : Z) (l : list Z) : list Z :=
  match l with [] => [] | j :: l' => if decide (j = i) then l' else j :: remove_first i l' end.

(** [_execute] reports once on a job it runs, and its steps write records; what a
    job runs after its report is nothing. *)
Definition speaks (s : ChildProtocol.said) (k : child) : option child :=
  match s with
  | ChildProtocol.Registers _ => Some k
  | ChildProtocol.Records id _ _ => if decide (id ∈ runs k) then Some k else None
  | ChildProtocol.Succeeds id _ | ChildProtocol.Fails id _ _ =>
    if decide (id ∈ runs k) then Some {| alive := alive k; buffer := buffer k; runs := remove_first id (runs k) |} else None
  end.

(** ** One event *)

(** A guard, and what happens when it holds. *)
Definition when {A} (b : bool) (x : option A) : option A := if b then x else None.
Arguments when {A} b x : simpl nomatch.

Definition in_session (s : system) : bool := match sup s with InSession => true | _ => false end.
Definition returned (s : system) : bool := match disp s with Returned _ => true | _ => false end.

Definition next (s : system) (e : event) : option (system * list note) :=
  let w := wire s in
  match e with
  | Elsewhere d => Some (set_store d s, [])
  | Shutdown => Some (set_stopping s, [])
  | Forward failed =>
    match disp s, acks w with
    | Top, ack :: rest =>
      when (in_session s)
      match Protocol.encode ack [], failed with
      | (Err _, _), _ => Some (set_wire (set_acks rest w) s, [])
      | (Ok _, buf), None => Some (set_wire {| down := down w ++ buf; up := up w; acks := rest |} s, [])
      | (Ok _, buf), Some (k, why) =>
        Some (set_disp (Returned (Err (Worker.Io why))) (set_wire {| down := down w ++ take k buf; up := up w; acks := rest |} s), [])
      end
    | _, _ => None
    end
  | Begin =>
    match disp s, acks w with
    | Top, [] =>
      let room := Worker.available (inflight s) in
      when (in_session s && negb (room =? 0)) (Some (set_disp (Leasing (Z.min (Worker.batch c) room)) s, []))
    | _, _ => None
    end
  | Call m =>
    when (in_session s)
    match disp s with
    | Preparing [] buf reserved =>
      if decide (reserved = []) then Some (set_disp Top s, [])
      else Some (set_disp (Writing buf) (set_inflight (Worker.reserve reserved (inflight s)) s), [])
    | p => '(p', d, notes) ← dispatch_call m (rd s) p (store s); Some (set_disp p' (set_store d s), notes)
    end
  | Write failed =>
    match disp s, failed with
    | Writing buf, None => when (in_session s) (Some (set_disp Top (set_wire (set_down (down w ++ buf) w) s), []))
    | Writing buf, Some (k, why) =>
      when (in_session s)
        (Some (set_disp (Returned (Err (Worker.Io why))) (set_wire (set_down (down w ++ take k buf) w) s), []))
    | _, _ => None
    end
  | Stop =>
    match disp s with
    | Top => when (in_session s && stopping s) (Some (set_disp (Returned (Ok tt)) s, []))
    | _ => None
    end
  | Arrive k =>
    let chunk := take k (up w) in
    match coll (rd s) with
    | Waiting =>
      when (in_session s && (0 <? len chunk) && (len chunk <=? READ_BUFFER))
        (Some (set_wire (set_up (drop k (up w)) w)
          (set_rd {| dec := Protocol.extend (dec (rd s)) chunk; pend := pend (rd s); armed := armed (rd s); coll := Decoding |} s), []))
    | _ => None
    end
  | Hangup =>
    match coll (rd s) with
    | Waiting => when (in_session s) (Some (set_rd (start_flush false (rd s)) s, []))
    | _ => None
    end
  | Proceed m => when (in_session s) (proceed m s)
  | Fire =>
    match coll (rd s) with
    | Waiting => when (in_session s && armed (rd s)) (Some (set_rd (start_flush true (rd s)) s, []))
    | _ => None
    end
  | Renew m => when (negb (stopping s)) (Some (set_store (renew_tick (solo m) c worker (inflight s) (store s)) s, []))
  | Hear k =>
    let chunk := take k (down w) in
    when (in_session s && alive (kid s) && ((0 <? len chunk) && (len chunk <=? READ_BYTES)))
      (let '(kid', ids) := hear chunk (kid s) in
       Some (set_kid kid' (set_wire (set_down (drop k (down w)) w) s), [Handed ids]))
  | Say m =>
    when (in_session s && alive (kid s))
      match speaks m (kid s), ChildProtocol.written m with
      | Some kid', Ok f => Some (set_kid kid' (set_wire (set_up (up w ++ f) w) s), [Said m])
      | _, _ => None
      end
  | Die k | Kill k =>
    let dead := {| alive := false; buffer := buffer (kid s); runs := runs (kid s) |} in
    when (in_session s && alive (kid s) && match e with Kill _ => returned s | _ => true end)
      (Some (set_kid dead (set_wire (set_up (take k (up w)) w) s), []))
  | Notice reported sent =>
    when (in_session s && negb (alive (kid s)) && negb (returned s))
      (let '(ids, d) := match sent with Some m => sent_anyway m (disp s) (store s) | None => ([], store s) end in
       Some (set_disp (Returned (Err (Worker.ChildExited reported))) (set_store d s),
             [LetGo Cancelled (in_hand (disp s) ++ ids)]))
  | Close =>
    match disp s, coll (rd s) with
    | Returned outcome, Gone =>
      when (in_session s && negb (alive (kid s)))
      match outcome with
      | Ok _ => Some (set_sup Finished s, [])
      | Err _ =>
        let '(held, f) := Worker.take (inflight s) in
        Some (set_sup (if decide (held = []) then Resting else Abandoning held) (set_inflight f s), [LetGo HandedBack held])
      end
    | _, _ => None
    end
  | HandBack m =>
    match sup s with
    | Abandoning held =>
      let '(r, d) := call (solo m) (abandon_leases (at_time m) held worker) (store s) in
      Some (set_sup (if is_ok r then Reclaiming else Resting) (set_store d s), [])
    | Reclaiming =>
      Some (set_sup Resting (set_store (call (solo m) (reclaim_expired (at_time m) (Worker.reclaim_limit c)) (store s)).2 s), [])
    | _ => None
    end
  | Restart =>
    match sup s with
    | Resting =>
      when (negb (stopping s))
        (Some (set_disp Top (set_rd fresh_reading (set_wire fresh_wires (set_kid fresh_child (set_sup InSession s)))), []))
    | _ => None
    end
  end.

(** A run, with everything noted on the way. *)
Fixpoint run (s : system) (es : list event) : option (system * list note) :=
  match es with
  | [] => Some (s, [])
  | e :: es => '(s1, n1) ← next s e; '(s2, n2) ← run s1 es; Some (s2, n1 ++ n2)
  end.

End System.
End System.
