(* ===== verification/SystemExample.v ===== *)
(** * A supervised child at work

    Concrete runs of [System] on the deployment of [PgExample]: a shift in which
    jobs are leased, dispatched, run, reported and settled; and a child that dies
    between a lease and the write of its batch. *)

From S2P Require Import Prelude.
From S2P Require Import Core.
From S2P Require Import Protocol.
From S2P Require Import ChildProtocol.
From S2P Require Import Schedule.
From S2P Require Import PgTable.
From S2P Require Import PgJobs.
From S2P Require Import PgExample.
From S2P Require Import Worker.
From S2P Require Import WorkerLoop.
From S2P Require Import WorkerSafety.
From S2P Require Import System.
Import Core.
Import Table.
Import Jobs.
Import Example.
Import WorkerLoop.
Import WorkerSafety.
Import System.

Module SystemExample.

#[global] Existing Instance Protocol.NumberedCodec.numbered.
#[global] Existing Instance ChildProtocol.NumberedMsgspec.numbered_msgspec.

(** Schedules that come due every hour. *)
#[global] Instance hourly : Schedule.CronCrate := {|
  Schedule.Tz := unit;
  Schedule.CronSchedule := string;
  Schedule.tz_from_str name := if decide (name = "UTC") then Some tt else None;
  Schedule.cron_from_str e := Ok e;
  Schedule.cron_to_string e := e;
  Schedule.occurrence_after _ _ t := Some ((t / 3600 + 1) * 3600)
|}.

Definition at_ (t : Z) : moment := calm t 0%nat.

(** A batch leased: the unkeyed statement, then the keyed one; then prepared,
    reserved and written, and read by the child. *)
Definition lease_batch : list event := [Begin; Call (at_ 200); Call (at_ 201)].
Definition send_batch : list event :=
  [Call (at_ 202); Call (at_ 203); Call (at_ 204); Call (at_ 205); Write None; Hear 1000].

(** Job 1 succeeds and job 2 fails; the reader gets both reports at once, decodes
    them, and its timer fires. *)
Definition report_two : list event :=
  [Say (ChildProtocol.Succeeds 1 [Byte.x2a]); Say (ChildProtocol.Fails 2 [98; 111; 111; 109] true); Arrive 1000;
   Proceed (at_ 206); Proceed (at_ 206); Proceed (at_ 206); Fire].
Definition flush_two : list event :=
  [Proceed (at_ 207); Proceed (at_ 208); Proceed (at_ 209); Proceed (at_ 210); Proceed (at_ 211)].
Definition shift : list event := lease_batch ++ send_batch ++ report_two ++ flush_two.

(** The child dies once the batch is leased; the session ends. *)
Definition dies_early : list event :=
  lease_batch ++ [Die 0; Notice "signal: 9" None; Hangup; Close].

Definition status (o : option (system * list note)) (i : Z) : option (job_state * option uuid) :=
  '(s, _) ← o; r ← jobs (store s) !! i; Some (state r, locked_by r).

(** A flush is between its statements when job 2, retried by it, comes due: it is
    leased, reserved, written and read again before the flush, two seconds late,
    releases it. *)
Definition retried_meanwhile : list event :=
  lease_batch ++ send_batch ++ report_two ++ [Proceed (at_ 207); Proceed (at_ 208); Proceed (at_ 209)] ++
  [Begin; Call (at_ 2000000); Call (at_ 2000001); Call (at_ 2000002); Call (at_ 2000003); Write None; Hear 1000] ++
  [Proceed (at_ 2000010); Proceed (at_ 2000011)].

Definition from_enqueued (es : list event) : option (system * list note) :=
  run one_core alice (start one_core enqueued) es.
Definition held_after (es : list event) : option (list Z) := (λ o, Worker.snapshot (inflight o.1)) <$> from_enqueued es.
Definition running_after (es : list event) : option (list Z) := (λ o, runs (kid o.1)) <$> from_enqueued es.

(** The shift: job 1 is completed and job 2 available again, job 4 still runs. *)
Example shift_settles :
  status (from_enqueued shift) <$> [1; 2; 4] = [Some (completed, None); Some (available, None); Some (running, Some alice)] ∧
  held_after shift = Some [4] ∧ running_after shift = Some [4].
Proof. by vm_compute. Qed.

(** The death: the dispatcher is dropped with its batch in hand, the supervisor
    has nothing to hand back and waits to restart, and the jobs stay leased to it
    with nobody running them, until the leases expire. *)
Example dies_early_strands :
  status (from_enqueued dies_early) <$> [1; 2; 4] = replicate 3 (Some (running, Some alice)) ∧
  held_after dies_early = Some [] ∧ (sup ∘ fst) <$> from_enqueued dies_early = Some Resting.
Proof. by vm_compute. Qed.

(** The race: job 2 runs in the child under a lease of this worker, which is no
    longer in flight, so nothing renews it. *)
Example retried_meanwhile_unrenewed :
  status (from_enqueued retried_meanwhile) 2 = Some (running, Some alice) ∧
  running_after retried_meanwhile = Some [4; 2] ∧ held_after retried_meanwhile = Some [4].
Proof. by vm_compute. Qed.

End SystemExample.
