(* ===== verification/SystemLeases.v ===== *)
(** * Every lease of a supervisor is accounted for

    Through every interleaving of [System]: a job leased to the worker is in
    flight, in the dispatcher's hands on its way there, or was let go of at one of
    six places in the code, each noted when it happens. *)

From S2P Require Import Prelude.
From S2P Require Import Core.
From S2P Require Import Protocol.
From S2P Require Import ChildProtocol.
From S2P Require Import Schedule.
From S2P Require Import PgTable.
From S2P Require Import PgJobs.
From S2P Require Import PgCron.
From S2P Require Import PgInvariant.
From S2P Require Import PgSteps.
From S2P Require Import PgReach.
From S2P Require Import PgExample.
From S2P Require Import PgFetch.
From S2P Require Import Worker.
From S2P Require Import WorkerLoop.
From S2P Require Import WorkerSafety.
From S2P Require Import WorkerTasks.
From S2P Require Import WorkerOwnership.
From S2P Require Import System.
From S2P Require Import SystemExample.
Import Core.
Import Table.
Import Jobs.
Import Cron.
Import Invariant.
Import Steps.
Import Reach.
Import Example.
Import Fetch.
Import WorkerLoop.
Import WorkerSafety.
Import WorkerTasks.
Import WorkerOwnership.
Import System.
Import SystemExample.

Module SystemLeases.

Section Leases.
Context {Pl : Planner} {R : Protocol.RmpSerde} {C : Schedule.CronCrate} {M : ChildProtocol.Msgspec}.
Variables (c : Worker.Config) (worker : uuid).

(** ** Runs *)

(** What the theorems ask of an event: what other sessions do keeps the invariant of
    the database, as every statement of the backend does ([step_ok]), and leases
    nothing to this worker. *)
Definition lawful (s : system) (e : event) : Prop :=
  match e with
  | Elsewhere d => (db_ok (store s) → db_ok d) ∧ ∀ i, owns worker d i → owns worker (store s) i
  | _ => True
  end.

(** The runs of a system from [s0]: where they lead, and what was noted. *)
Inductive leads (s0 : system) : list note → system → Prop :=
| leads_here : leads s0 [] s0
| leads_on tr s e s' notes :
    leads s0 tr s → lawful s e → next c worker s e = Some (s', notes) → leads s0 (tr ++ notes) s'.

(** A job let go of, and not leased again since. *)
Definition unleased (tr : list note) (i : Z) : Prop := ∀ ids, Leased ids ∈ tr → i ∉ ids.
Definition dropped (tr : list note) (i : Z) : Prop :=
  ∃ before why ids after, tr = before ++ LetGo why ids :: after ∧ i ∈ ids ∧ unleased after i.

Lemma unleased_app tr tr' i : unleased (tr ++ tr') i ↔ unleased tr i ∧ unleased tr' i.
Proof. unfold unleased. setoid_rewrite elem_of_app. naive_solver. Qed.

Lemma unleased_nil i : unleased [] i.
Proof. by intros ids ?%elem_of_nil. Qed.

Lemma unleased_cons n tr i : (∀ ids, n = Leased ids → i ∉ ids) → unleased tr i → unleased (n :: tr) i.
Proof. intros Hn Htr ids [<-|?]%elem_of_cons; eauto. Qed.

Lemma dropped_before tr tr' i : dropped tr i → unleased tr' i → dropped (tr ++ tr') i.
Proof.
  intros (b & why & ids & a & -> & Hi & Ha) Hu. exists b, why, ids, (a ++ tr'). rewrite <- app_assoc. split_and!; [done..|].
  by apply unleased_app.
Qed.

Lemma dropped_after tr tr' i : dropped tr' i → dropped (tr ++ tr') i.
Proof. intros (b & why & ids & a & -> & Hi & Ha). exists (tr ++ b), why, ids, a. by rewrite <- app_assoc. Qed.

Lemma dropped_last tr why ids i : i ∈ ids → dropped (tr ++ [LetGo why ids]) i.
Proof. intros Hi. exists tr, why, ids, []. split_and!; [done..|apply unleased_nil]. Qed.

Lemma dropped_here why ids i : i ∈ ids → dropped [LetGo why ids] i.
Proof. apply (dropped_last []). Qed.

(** ** Statements *)

(** What a statement sent alone comes to: an answer, or an error after which it
    may have run unheard. *)
Lemma call_solo {A} m (st : db → Prelude.result db_error (A * db)) d :
  (∃ a d', call (solo m) st d = (Ok a, d') ∧ st d = Ok (a, d')) ∨
  (∃ e a d', call (solo m) st d = (Err e, d') ∧ st d = Ok (a, d') ∧ link m = Unanswered) ∨
  ∃ e, call (solo m) st d = (Err e, d).
Proof. unfold call, deliver. simpl. destruct (link m), (st d) as [[a d']|e]; eauto 10. Qed.

(** A statement that settles [ids]: it keeps the invariant, leases nothing to the
    worker, and leaves it none of [ids]. *)
Definition settles {A} (ids : list Z) (st : db → Prelude.result db_error (A * db)) : Prop :=
  ∀ d a d', db_ok d → st d = Ok (a, d') → db_ok d' ∧ ∀ i, owns worker d' i → owns worker d i ∧ i ∉ ids.

Lemma call_settles {A} m ids (st : db → Prelude.result db_error (A * db)) d :
  settles ids st → db_ok d →
  let '(r, d') := call (solo m) st d in
  db_ok d' ∧ ∀ i, owns worker d' i → owns worker d i ∧ (is_ok r = true → i ∉ ids).
Proof.
  intros Hst Hd. destruct (call_solo m st d) as [(a & d' & -> & E)|[(e & a & d' & -> & E & _)|[e ->]]];
    [destruct (Hst _ _ _ Hd E) as [? Ho]..|split; [done|by intros i ?]]; (split; [done|]); intros i Hi; by apply Ho in Hi as [? ?].
Qed.

Lemma step_settles {A} ids (st : db → Prelude.result db_error (A * db)) :
  (∀ d a d', st d = Ok (a, d') → step d d' ∧ without 0 worker ids d d') → settles ids st.
Proof. intros Hst d a d' Hd [Hs Hw]%Hst. split; [by eapply step_ok|]. intros i. by apply (wo_owns _ _ _ _ _ Hw). Qed.

Lemma complete_settles_call now ids rs : settles ids (complete now ids rs worker).
Proof. apply step_settles. intros d a d' E. split; [by eapply by_complete|by eapply complete_without]. Qed.

Lemma discard_settles now ids errs : settles ids (discard_many now ids errs worker).
Proof. apply step_settles. intros d a d' E. split; [by eapply by_discard|by eapply discard_without]. Qed.

Lemma flush_settles_group k m p d :
  db_ok d →
  let '(went, d') := flush_call c worker k m p d in
  db_ok d' ∧ ∀ i, owns worker d' i → owns worker d i ∧ (went = true → i ∉ group k p).
Proof.
  intros Hd. destruct k as [|[|[|[|k]]]]; simpl.
  - pose proof (call_settles m _ _ d (complete_settles_call (at_time m) (Worker.p_completed p)
      (replicate (length (Worker.p_completed p)) None)) Hd) as H.
    unfold complete_many. destruct (call _ _ _). exact H.
  - pose proof (call_settles m _ _ d (complete_settles_call (at_time m) (Worker.with_result p)
      (Some <$> Worker.results p)) Hd) as H.
    unfold complete_many_with_results. destruct (call _ _ _). exact H.
  - assert (settles (Worker.p_retry p) (retry_many (at_time m) (draw m) (Worker.p_retry p) (Worker.retry_errors p) worker
      (Worker.retry_base c) (Worker.retry_cap c))) as Hs.
    { apply step_settles. intros d0 a d1 E. split; [by eapply by_retry|by eapply retry_without]. }
    pose proof (call_settles m _ _ d Hs Hd) as H. destruct (call _ _ _). exact H.
  - pose proof (call_settles m _ _ d (discard_settles (at_time m) (Worker.terminal p) (Worker.terminal_errors p)) Hd) as H.
    destruct (call _ _ _). exact H.
  - pose proof (call_settles m _ _ d (discard_settles (at_time m) (Worker.terminal p) (Worker.terminal_errors p)) Hd) as H.
    destruct (call _ _ _) as [r d']. destruct H as [? Ho]. split; [done|]. intros i [? _]%Ho. split; [done|].
    intros _. apply not_elem_of_nil.
Qed.

(** A statement that leases to the worker what it returns, [n] jobs at most. *)
Definition leases {A} (n : Z) (ids : A → list Z) (st : db → Prelude.result db_error (A * db)) : Prop :=
  ∀ d a d', db_ok d → st d = Ok (a, d') →
    db_ok d' ∧ len (ids a) <= n ∧ ∀ i, owns worker d' i → owns worker d i ∨ i ∈ ids a.

Lemma leased_to_owns now lease chosen d l d' i :
  leased_to now worker lease chosen d l d' → (∀ i r, (i, r) ∈ chosen → jobs d !! i = Some r) →
  owns worker d' i → owns worker d i ∨ i ∈ job_id <$> l.
Proof.
  intros [Hl Hj] Hch (r' & Hr' & Hh). rewrite Hj in Hr'. apply fmap_Some in Hr' as (r & Hr & ->).
  case_decide as Hi; [right|left; by exists r].
  apply list_elem_of_fmap in Hi as ([i' r0] & -> & Hi). rewrite Hl. apply list_elem_of_fmap.
  exists (job_from i' (lease_row now worker lease r0)). split; [done|]. apply list_elem_of_fmap. by exists (i', r0).
Qed.

Lemma unkeyed_leases m n : leases n (λ a : list Job * bool, job_id <$> a.1) (unkeyed c worker m n).
Proof.
  intros d [l w] d' Hd E. pose proof E as (_ & _ & chosen & (_ & Hch & Hlen & _) & Hl)%unkeyed_took.
  split_and!; [by eapply unkeyed_keeps| |].
  - pose proof (proj1 Hl) as Hp. unfold len in *. simpl. rewrite length_fmap, Hp, length_fmap. lia.
  - intros i. eapply leased_to_owns; [done|]. intros j r Hj. by apply Hch.
Qed.

Lemma keyed_leases m n : leases n (λ a, job_id <$> a) (keyed_pass c worker m n).
Proof.
  intros d l d' Hd E. pose proof E as [Hn Hl]%keyed_took. split_and!; [by eapply keyed_keeps| |].
  - pose proof (proj1 Hl) as Hp. unfold len. rewrite length_fmap, Hp, length_fmap.
    change (len (admitted [] (keyed_candidates (at_time m) (Worker.queues c) n (locked_rows m) d) d) <= n).
    etrans; [apply len_admitted|]. by apply len_limit.
  - intros i. eapply leased_to_owns; [done|]. intros j r Hj. by apply keyed_picked in Hj as [? _].
Qed.

Lemma sent_groups_S k p : (k < 4)%nat → sent_groups (S k) p = sent_groups k p ++ group k p.
Proof. intros Hk. destruct k as [|[|[|[|k]]]]; [..|lia]; unfold sent_groups; simpl; by rewrite ?app_nil_r, <- ?app_assoc. Qed.

Lemma sent_groups_all k p : (4 <= k)%nat → sent_groups k p = Worker.settled p.
Proof. intros Hk. unfold sent_groups. rewrite take_ge by done. simpl. by rewrite app_nil_r. Qed.

Lemma record_step_jobs now job name res d d' : record_step now job name res d = Ok d' → jobs d' = jobs d.
Proof. unfold record_step, RECORD_STEP. intros H. by cases. Qed.

(** The call, and what it leases unheard. *)
Lemma call_leases {A} m n ids (st : db → Prelude.result db_error (A * db)) d :
  leases n ids st → db_ok d →
  match call (solo m) st d with
  | (Ok a, d') => db_ok d' ∧ len (ids a) <= n ∧ ∀ i, owns worker d' i → owns worker d i ∨ i ∈ ids a
  | (Err _, d') => db_ok d' ∧ ∀ i, owns worker d' i → owns worker d i ∨ i ∈ unheard m ids (st d)
  end.
Proof.
  intros Hst Hd. destruct (call_solo m st d) as [(a & d' & -> & E)|[(e & a & d' & -> & E & El)|[e ->]]].
  - by eapply Hst.
  - destruct (Hst _ _ _ Hd E) as (? & _ & Ho). unfold unheard. by rewrite El, E.
  - split; [done|]. by left.
Qed.

(** ** The dispatcher *)

(** The room a dispatcher has taken up or may still take. *)
Definition claims (p : dispatcher) : Z :=
  match p with
  | Leasing n | Asking n => n + 1
  | Admitting rows spare => len rows + spare
  | p => len (in_hand p)
  end.

Definition in_range (p : dispatcher) : Prop :=
  match p with Leasing n | Asking n => 1 <= n | Admitting _ spare => 1 <= spare | _ => True end.

(** What a statement of the dispatcher does to the leases: each was there and is
    not dropped, or is in hand and not being settled, or is noted. *)
Definition moved (r : reading) (p : dispatcher) (d : db) (p' : dispatcher) (d' : db) (notes : list note) : Prop :=
  ∀ i, owns worker d' i →
    dropped notes i ∨ (owns worker d i ∧ (i ∈ in_hand p → i ∈ in_hand p') ∧ unleased notes i) ∨
    (i ∈ in_hand p' ∧ i ∉ settling r).

Lemma elem_of_again r rows i : i ∈ job_id <$> rows → i ∉ settling r ∨ i ∈ again r rows.
Proof.
  intros Hi. destruct (decide (i ∈ settling r)) as [Hs|]; [right|by left].
  unfold again. rewrite list_elem_of_In, filter_In, <- list_elem_of_In. split; [done|]. by apply bool_decide_eq_true.
Qed.

(** A statement that leased [rows] and put them in hand. *)
Lemma newly_leased r rows p d p' d' :
  (∀ i, owns worker d' i → owns worker d i ∨ i ∈ job_id <$> rows) →
  (∀ i, i ∈ in_hand p → i ∈ in_hand p') → (∀ i, i ∈ job_id <$> rows → i ∈ in_hand p') →
  moved r p d p' d' [Leased (job_id <$> rows); LetGo LeasedAgain (again r rows)].
Proof.
  intros Ho Hp Hr i Hi. destruct (decide (i ∈ job_id <$> rows)) as [Hin|Hn].
  - destruct (elem_of_again r rows i Hin) as [?|?]; [right; right; auto|left].
    by apply (dropped_last [Leased (job_id <$> rows)]).
  - right. left. destruct (Ho i Hi) as [?|?]; [|done]. split_and!; [done|by apply Hp|].
    apply unleased_cons; [by intros ids [= <-]|]. apply unleased_cons; [done|apply unleased_nil].
Qed.

Lemma in_hand_unkeyed n rows carried i : i ∈ job_id <$> rows → i ∈ in_hand (after_unkeyed n rows carried).
Proof.
  intros Hi. unfold after_unkeyed. case_decide as E; [by subst; apply elem_of_nil in Hi|].
  destruct carried; simpl; [done|]. by rewrite app_nil_r.
Qed.

Lemma in_hand_fetch batch i : i ∈ job_id <$> batch → i ∈ in_hand (after_fetch batch).
Proof.
  intros Hi. unfold after_fetch. case_decide as E; [by subst; apply elem_of_nil in Hi|]. simpl. by rewrite app_nil_r.
Qed.

Lemma leasing_call m r n d p' d' notes :
  db_ok d → 1 <= n → dispatch_call c worker m r (Leasing n) d = Some (p', d', notes) →
  db_ok d' ∧ in_range p' ∧ claims p' <= n + 1 ∧ moved r (Leasing n) d p' d' notes.
Proof.
  intros Hd Hn. cbn [dispatch_call]. pose proof (call_leases m n _ _ d (unkeyed_leases m n) Hd) as H.
  destruct (call _ _ _) as [[[rows carried]|e] d1]; intros ?; simplify_eq.
  - destruct H as (? & Hlen & Ho). simpl in Hlen. unfold len in Hlen. rewrite length_fmap in Hlen. fold (len rows) in Hlen.
    split_and!; [done| | |].
    + unfold after_unkeyed. case_decide; [done|]. destruct carried; simpl; [lia|done].
    + unfold after_unkeyed. case_decide; [done|]. destruct carried; simpl; [lia|].
      rewrite app_nil_r. unfold len in *. rewrite length_fmap. lia.
    + apply newly_leased; [done|by intros i ?%elem_of_nil|]. intros i. apply in_hand_unkeyed.
  - destruct H as (? & Ho). split_and!; [done|done|change (0 <= n + 1); lia|].
    intros i [?|Hi]%Ho; [right; left|left; by apply dropped_here].
    split_and!; [done|by intros ?%elem_of_nil|]. apply unleased_cons; [done|apply unleased_nil].
Qed.

Lemma admitting_call m r rows spare d p' d' notes :
  db_ok d → dispatch_call c worker m r (Admitting rows spare) d = Some (p', d', notes) →
  db_ok d' ∧ in_range p' ∧ claims p' <= Z.max (len rows + spare) 0 ∧ moved r (Admitting rows spare) d p' d' notes.
Proof.
  intros Hd. cbn [dispatch_call]. pose proof (call_leases m spare _ _ d (keyed_leases m spare) Hd) as H.
  destruct (call _ _ _) as [[keyed|e] d1]; intros ?; simplify_eq.
  - destruct H as (? & Hlen & Ho). unfold len in Hlen. rewrite length_fmap in Hlen. fold (len keyed) in Hlen.
    split_and!; [done| | |].
    + unfold after_fetch. by case_decide.
    + unfold after_fetch. case_decide; [change (0 <= Z.max (len rows + spare) 0); lia|]. simpl.
      rewrite app_nil_r. unfold len in *. rewrite length_fmap, length_app. lia.
    + apply newly_leased; [done|..]; intros i Hi; apply in_hand_fetch; rewrite fmap_app; apply elem_of_app; auto.
  - destruct H as (? & Ho). split_and!; [done|done|change (0 <= Z.max (len rows + spare) 0); lia|].
    intros i Hi. destruct (decide (i ∈ (job_id <$> rows) ++ unheard m (λ a, job_id <$> a) (keyed_pass c worker m spare d))) as [Hin|Hn].
    + left. by apply dropped_here.
    + rewrite not_elem_of_app in Hn. destruct Hn as [Hn1 Hn2]. apply Ho in Hi as [?|?]; [|done].
      right. left. split_and!; [done..|]. apply unleased_cons; [done|apply unleased_nil].
Qed.

Lemma prior_steps_store m j d : (prior_steps (solo m) j d).2 = d.
Proof.
  unfold prior_steps. destruct (_ && _); [|done]. unfold call, deliver. simpl. by destruct (link m).
Qed.

Lemma preparing_call m r j todo buf reserved d p' d' notes :
  dispatch_call c worker m r (Preparing (j :: todo) buf reserved) d = Some (p', d', notes) →
  d' = d ∧ notes = [] ∧ in_range p' ∧ claims p' = claims (Preparing (j :: todo) buf reserved) ∧
  ∀ i, i ∈ in_hand (Preparing (j :: todo) buf reserved) → i ∈ in_hand p'.
Proof.
  cbn [dispatch_call]. pose proof (prior_steps_store m j d) as Hd. destruct (prior_steps _ _ _) as [steps d0]. simpl in Hd. subst.
  destruct (Protocol.encode _ _) as [[u|e] buf']; intros ?; simplify_eq; split_and!; try done.
  - cbn [claims in_hand]. rewrite fmap_cons. autorewrite with gylo. lia.
  - intros i. cbn [in_hand]. rewrite fmap_cons. rewrite !elem_of_app, elem_of_cons, list_elem_of_singleton. tauto.
Qed.

Lemma discarding_call m r j e todo buf reserved d p' d' notes :
  db_ok d → dispatch_call c worker m r (Discarding j e todo buf reserved) d = Some (p', d', notes) →
  db_ok d' ∧ in_range p' ∧ claims p' <= claims (Discarding j e todo buf reserved) ∧
  moved r (Discarding j e todo buf reserved) d p' d' notes.
Proof.
  intros Hd. cbn [dispatch_call].
  pose proof (call_settles m _ _ d (discard_settles (at_time m) [job_id j] [describe e]) Hd) as H.
  destruct (call _ _ _) as [[a|err] d1]; destruct H as [? Ho]; intros ?; simplify_eq; split_and!; try done;
    try (simpl; unfold len; simpl; lia).
  - intros i [? Hn]%Ho. right. left. split_and!; [done| |apply unleased_nil]. simpl. rewrite elem_of_cons. intros [->|?]; [|done].
    destruct (Hn eq_refl). left.
  - intros i [? _]%Ho. destruct (decide (i = job_id j)) as [->|Hne]; [left; apply dropped_here; left|].
    right. left. split_and!; [done| |apply unleased_cons; [done|apply unleased_nil]]. simpl. rewrite elem_of_cons. by intros [?|?].
Qed.

Lemma dispatch_call_moved m r p d p' d' notes :
  db_ok d → in_range p → dispatch_call c worker m r p d = Some (p', d', notes) →
  db_ok d' ∧ in_range p' ∧ claims p' <= Z.max (claims p) 0 ∧ moved r p d p' d' notes.
Proof.
  intros Hd Hp E. destruct p as [|n|n|rows spare|[|j todo] buf reserved|j e todo buf reserved|buf|o]; try done.
  - simpl in Hp. destruct (leasing_call _ _ _ _ _ _ _ Hd Hp E) as (? & ? & ? & ?). split_and!; try done. simpl. lia.
  - simpl in E, Hp. assert (d' = d ∧ notes = [] ∧ in_range p' ∧ claims p' <= n + 1) as (-> & -> & ? & ?).
    { unfold call, deliver in E. simpl in E. destruct (link m); [destruct (KEYED_WAITING _ _ _)|..];
        simplify_eq; split_and!; try done; simpl; change (len []) with 0; lia. }
    split_and!; try done; [simpl; lia|]. intros i ?. right. left. split_and!; [done|by intros ?%elem_of_nil|apply unleased_nil].
  - by apply (admitting_call m r).
  - apply preparing_call in E as (-> & -> & ? & -> & Hh). split_and!; try done; try lia.
    intros i ?. right. left. auto using unleased_nil.
  - destruct (discarding_call _ _ _ _ _ _ _ _ _ _ _ Hd E) as (? & ? & ? & ?). split_and!; done || lia.
Qed.

(** A cancelled dispatcher's last statement. *)
Lemma sent_anyway_moved m p d :
  db_ok d →
  let '(ids, d') := sent_anyway c worker m p d in
  db_ok d' ∧ ∀ i, owns worker d' i → owns worker d i ∨ i ∈ ids.
Proof.
  intros Hd. unfold sent_anyway. set (lost := {| around := _ |}). change lost with (solo lost).
  destruct p as [|n|n|rows spare|todo buf reserved|j e todo buf reserved|buf|o]; try (split; [done|by left]).
  - pose proof (call_leases lost n _ _ d (unkeyed_leases m n) Hd) as H.
    destruct (call_solo lost (unkeyed c worker m n) d) as [(a & d' & E & _)|[(e & a & d' & E & _)|[e E]]]; rewrite E in *; simpl in *.
    + unfold call, deliver in E. simpl in E. by destruct (unkeyed _ _ _ _ _) as [[]|].
    + exact H.
    + exact H.
  - pose proof (call_leases lost spare _ _ d (keyed_leases m spare) Hd) as H.
    destruct (call_solo lost (keyed_pass c worker m spare) d) as [(a & d' & E & _)|[(e & a & d' & E & _)|[e E]]]; rewrite E in *; simpl in *.
    + unfold call, deliver in E. simpl in E. by destruct (keyed_pass _ _ _ _ _) as [[]|].
    + exact H.
    + exact H.
  - pose proof (call_settles lost _ _ d (discard_settles (at_time m) [job_id j] [describe e]) Hd) as H.
    destruct (call _ _ _) as [r d']. destruct H as [? Ho]. simpl. split; [done|]. intros i [? _]%Ho. by left.
Qed.

(** ** The invariant *)

Record sound (tr : list note) (s : system) : Prop := {
  so_db : db_ok (store s);
  so_owned i : owns worker (store s) i → i ∈ Worker.ids (inflight s) ∨ i ∈ in_hand (disp s) ∨ dropped tr i;
  so_flush i : owns worker (store s) i → i ∈ settling (rd s) → dropped tr i;
  so_over : sup s ≠ InSession → in_hand (disp s) = [];
  so_limit : Worker.limit (inflight s) = Worker.concurrency c;
  so_range : in_range (disp s);
  so_room : Worker.held (inflight s) + claims (disp s) <= Worker.concurrency c + 1
}.

Lemma claims_nonneg p : in_range p → 0 <= claims p.
Proof. destruct p; simpl; intros ?; unfold len; lia. Qed.

(** Silent notes lease nothing. *)
Definition silent (notes : list note) : Prop := ∀ i, unleased notes i.

Lemma silent_nil : silent [].
Proof. intros i. apply unleased_nil. Qed.

Lemma silent_cons n notes : (∀ ids, n ≠ Leased ids) → silent notes → silent (n :: notes).
Proof. intros Hn Hs i. apply unleased_cons; [|done]. by intros ids ?%Hn. Qed.

(** A step that leases nothing, and whose notes say what it drops. *)
Lemma sound_step tr notes s s' :
  sound tr s → silent notes → db_ok (store s') → inflight s' = inflight s →
  (∀ i, owns worker (store s') i → owns worker (store s) i ∨ dropped notes i) →
  (∀ i, i ∈ in_hand (disp s) → i ∈ in_hand (disp s') ∨ dropped notes i) →
  (∀ i, owns worker (store s') i → i ∈ settling (rd s') → i ∈ settling (rd s) ∨ dropped notes i) →
  (sup s' ≠ InSession → in_hand (disp s') = []) → in_range (disp s') → claims (disp s') <= claims (disp s) →
  sound (tr ++ notes) s'.
Proof.
  intros [] Hn Hd Hf Ho Hh Hs Hsup Hr Hcl. split; rewrite ?Hf; try done; [..|lia].
  - intros i [Hi|?]%Ho; auto using dropped_after. destruct (so_owned0 i Hi) as [?|[Hin|?]]; auto using dropped_before.
    destruct (Hh i Hin); auto using dropped_after.
  - intros i Hi Hset. destruct (Ho i Hi); [|auto using dropped_after].
    destruct (Hs i Hi Hset); auto using dropped_before, dropped_after.
Qed.

(** A system that differs only in what leases do not depend on. *)
Lemma sound_same tr notes s s' :
  sound tr s → silent notes → store s' = store s → inflight s' = inflight s → disp s' = disp s → sup s' = sup s →
  settling (rd s') = settling (rd s) ∨ settling (rd s') = [] → sound (tr ++ notes) s'.
Proof.
  intros Hs Hn E1 E2 E3 E4 E5. pose proof Hs as []. apply (sound_step _ _ s); rewrite ?E1, ?E2, ?E3, ?E4; auto; [|lia].
  intros i _. destruct E5 as [->| ->]; [by left|by intros ?%elem_of_nil].
Qed.

(** One whose dispatcher moved on. *)
Lemma sound_moved tr notes s p d :
  sound tr s → db_ok d → in_session s = true → in_range p → claims p <= Z.max (claims (disp s)) 0 →
  moved (rd s) (disp s) (store s) p d notes → sound (tr ++ notes) (set_disp p (set_store d s)).
Proof.
  intros Hs Hd Hin Hr Hcl Hm. pose proof (claims_nonneg _ (so_range _ _ Hs)) as Hpos. destruct Hs.
  split; simpl; try done.
  - intros i Hi. destruct (Hm i Hi) as [?|[(Ho & Hh & Hu)|[? _]]]; auto using dropped_after.
    destruct (so_owned0 i Ho) as [?|[?|?]]; auto using dropped_before.
  - intros i Hi Hf. destruct (Hm i Hi) as [?|[(Ho & Hh & Hu)|[_ ?]]]; [auto using dropped_after, dropped_before..|done].
  - intros Hsup. unfold in_session in Hin. by destruct (sup s).
  - lia.
Qed.

Lemma still_moved r p d p' : (∀ i, i ∈ in_hand p → i ∈ in_hand p') → moved r p d p' d [].
Proof. intros H i Hi. right. left. auto using unleased_nil. Qed.

(** One on whose database a statement of the worker ran that leases nothing. *)
Lemma sound_store tr notes s d r :
  sound tr s → silent notes → db_ok d → (∀ i, owns worker d i → owns worker (store s) i) →
  (∀ i, owns worker d i → i ∈ settling r → i ∈ settling (rd s) ∨ dropped notes i) →
  sound (tr ++ notes) (set_store d (set_rd r s)).
Proof. intros Hs Hn Hd Ho Hf. pose proof Hs as []. apply (sound_step _ _ s); simpl; auto; lia. Qed.

(** One whose dispatcher has nothing in hand, before or after. *)
Lemma sound_idle tr notes s s' :
  sound tr s → silent notes → store s' = store s → inflight s' = inflight s →
  in_hand (disp s) = [] → in_hand (disp s') = [] → in_range (disp s') → claims (disp s') <= 0 →
  settling (rd s') = settling (rd s) ∨ settling (rd s') = [] → sound (tr ++ notes) s'.
Proof.
  intros Hs Hn E1 E2 E3 E4 Hr Hcl E5. pose proof (claims_nonneg _ (so_range _ _ Hs)). pose proof Hs as [].
  apply (sound_step _ _ s); rewrite ?E1, ?E2, ?E3, ?E4; auto; [|lia].
  intros i _. destruct E5 as [->| ->]; [by left|by intros ?%elem_of_nil].
Qed.

(** ** Every event *)

Lemma register_one_keeps now d e m :
  db_ok d → db_ok (register_one now d (e, solo m)) ∧ jobs (register_one now d (e, solo m)) = jobs d.
Proof.
  intros Hd. unfold register_one. destruct (Schedule.parse _ _); [|done]. destruct (Schedule.next_after _ _); [|done].
  unfold call, deliver. simpl. destruct (link m); simpl; try done; (split; [by apply set_crons_ok|done]).
Qed.

Lemma owns_jobs d d' i : jobs d' = jobs d → owns worker d' i → owns worker d i.
Proof. unfold owns. by intros ->. Qed.

(** A [Call] at the end of a batch reserves it; elsewhere it is a statement. *)
Lemma call_next s m s' notes :
  next c worker s (Call m) = Some (s', notes) →
  in_session s = true ∧
  ((∃ buf reserved, disp s = Preparing [] buf reserved ∧ notes = [] ∧
      s' = if decide (reserved = []) then set_disp Top s
           else set_disp (Writing buf) (set_inflight (Worker.reserve reserved (inflight s)) s)) ∨
   ∃ p' d, dispatch_call c worker m (rd s) (disp s) (store s) = Some (p', d, notes) ∧ s' = set_disp p' (set_store d s)).
Proof.
  cbn [next]. unfold when. destruct (in_session s); [|done]. intros E. split; [done|].
  destruct (disp s) as [|n|n|rows spare|[|j todo] buf reserved|j e todo buf reserved|buf|o];
    try (right; destruct (dispatch_call _ _ _ _ _ _) as [[[p' d] notes']|]; cbn [mbind option_bind] in E; by simplify_eq; eauto).
  left. exists buf, reserved. case_decide; by simplify_eq.
Qed.

Lemma sound_call tr s m s' notes :
  sound tr s → next c worker s (Call m) = Some (s', notes) → sound (tr ++ notes) s'.
Proof.
  intros Hs [Hin [(buf & reserved & Hp & -> & ->)|(p' & d & E & ->)]]%call_next.
  2: { pose proof Hs as []. apply dispatch_call_moved in E as (? & ? & ? & ?); [by apply sound_moved|done..]. }
  rewrite app_nil_r. destruct Hs. rewrite Hp in *. simpl in *. case_decide as Hr; (split; simpl; try done).
  - intros i Hi. destruct (so_owned0 i Hi) as [?|[Hn|?]]; auto. subst. by apply elem_of_nil in Hn.
  - subst. done.
  - intros i Hi. rewrite elem_of_union, elem_of_list_to_set. destruct (so_owned0 i Hi) as [?|[?|?]]; auto.
  - change (len []) with 0. pose proof (held_reserve reserved (inflight s)). lia.
Qed.

Lemma sound_decoding tr s m s' notes :
  sound tr s → coll (rd s) = Decoding → proceed c worker m s = Some (s', notes) → sound (tr ++ notes) s'.
Proof.
  intros Hs Hc. unfold proceed. rewrite Hc.
  destruct (Protocol.next_message (dec (rd s))) as [[[[]|]|e|] dc]; intros ?; simplify_eq;
    apply (sound_same _ _ s); try done; try apply silent_nil; right; simpl; unfold start_flush, after_flush; repeat case_match; done.
Qed.

Lemma sound_recording tr s m id name res s' notes :
  sound tr s → coll (rd s) = Recording id name res → proceed c worker m s = Some (s', notes) → sound (tr ++ notes) s'.
Proof.
  intros Hs Hc. unfold proceed. rewrite Hc. destruct (call _ _ _) as [outcome d] eqn:E. intros ?; simplify_eq.
  assert (db_ok d ∧ jobs d = jobs (store s)) as [? Hj].
  { destruct (call_solo m (λ d, d' ← record_step (at_time m) id name res d; Ok (tt, d')) (store s))
      as [(a & d' & E' & E2)|[(e & a & d' & E' & E2 & _)|[e E']]]; rewrite E in E'; simplify_eq;
      [..|by split; [apply Hs|]];
      (destruct (record_step _ _ _ _ _) as [d2|] eqn:E3; simplify_eq/=; split; [by eapply record_step_ok; [apply Hs|]|]);
      by eapply record_step_jobs. }
  apply sound_store; [done|apply silent_nil|done|by intros i; apply owns_jobs|].
  intros i _. simpl. by destruct outcome; intros ?%elem_of_nil.
Qed.

Lemma held_release l f : Worker.held (Worker.release l f).1 <= Worker.held f.
Proof. apply held_subset. unfold Worker.release. case_decide; [done|]. simpl. set_solver. Qed.

Lemma sound_flushing tr s m k stays s' notes :
  sound tr s → coll (rd s) = Flushing k stays → proceed c worker m s = Some (s', notes) → sound (tr ++ notes) s'.
Proof.
  intros Hs Hc. unfold proceed. rewrite Hc. case_decide as Hk.
  - pose proof (flush_settles_group k m (pend (rd s)) (store s) (so_db _ _ Hs)) as Hf.
    destruct (flush_call _ _ _ _ _ _) as [went d]. destruct Hf as [? Ho]. intros ?; simplify_eq.
    apply sound_store; [done| |done|by intros i [? _]%Ho|].
    { destruct went; repeat (apply silent_cons; [done|]); apply silent_nil. }
    intros i [Hi Hn]%Ho. unfold settling. simpl. rewrite Hc.
    rewrite sent_groups_S by done. intros [?|Hg]%elem_of_app; [by left|right].
    destruct went; [by destruct (Hn eq_refl)|]. by apply (dropped_last [_]).
  - intros ?; simplify_eq. rewrite app_nil_r. pose proof (held_release (Worker.settled (pend (rd s))) (inflight s)) as Hh.
    destruct Hs. split; simpl; try done.
    + intros i Hi. destruct (so_owned0 i Hi) as [Hin|[?|?]]; auto.
      destruct (decide (i ∈ Worker.settled (pend (rd s)))) as [Hset|Hset].
      { right. right. apply so_flush0; [done|]. unfold settling. rewrite Hc. by rewrite sent_groups_all by lia. }
      left. unfold Worker.release. case_decide; [done|]. simpl. by rewrite elem_of_difference, elem_of_list_to_set.
    + intros i Hi. unfold after_flush. destruct stays; simpl; by intros ?%elem_of_nil.
    + rewrite <- so_limit0. unfold Worker.release. by case_decide.
    + lia.
Qed.

Lemma sound_proceed tr s m s' notes :
  sound tr s → proceed c worker m s = Some (s', notes) → sound (tr ++ notes) s'.
Proof.
  intros Hs E. destruct (coll (rd s)) as [| |now [|e todo]|id name res|ack|k stays|] eqn:Hc;
    [|by eapply sound_decoding| | |by eapply sound_recording| |by eapply sound_flushing|];
    unfold proceed in E; rewrite Hc in E; try done.
  - simplify_eq. apply (sound_same _ _ s); try done; [apply silent_nil|by right].
  - simplify_eq. pose proof (register_one_keeps now (store s) e m (so_db _ _ Hs)) as [? Hj].
    apply sound_store; [done|apply silent_nil|done|by intros i; apply owns_jobs|]. by intros i _ ?%elem_of_nil.
  - assert (notes = []) as -> by (destruct (disp s); try (destruct (_ <? _); [|done]); by simplify_eq).
    destruct (disp s) eqn:Hp; try (destruct (_ <? _); [|done]); simplify_eq;
      apply (sound_same _ _ s); try done; try apply silent_nil; by right.
Qed.

Lemma renew_settles now ids : settles [] (renew_leases now ids worker (Worker.lease c)).
Proof. apply step_settles. intros d a d' E. split; [by eapply by_renew|by eapply renew_without]. Qed.

Lemma abandon_settles now ids : settles [] (abandon_leases now ids worker).
Proof. apply step_settles. intros d a d' E. split; [by eapply by_abandon|by eapply abandon_without]. Qed.

Lemma reclaim_settles now n : settles [] (reclaim_expired now n).
Proof. apply step_settles. intros d a d' E. split; [by eapply by_reclaim|by eapply reclaim_without]. Qed.

(** A statement beside the session: nothing but the database changes. *)
Lemma sound_beside {A} tr s s' m (st : db → Prelude.result db_error (A * db)) :
  sound tr s → settles [] st → store s' = (call (solo m) st (store s)).2 → inflight s' = inflight s →
  disp s' = disp s → rd s' = rd s → (sup s' ≠ InSession → sup s ≠ InSession) → sound tr s'.
Proof.
  intros Hs Hst E1 E2 E3 E4 E5. pose proof Hs as []. pose proof (call_settles m _ _ _ Hst so_db0) as H.
  destruct (call _ _ _) as [r d]. destruct H as [? Ho]. rewrite <- (app_nil_r tr).
  apply (sound_step _ _ s); rewrite ?E1, ?E2, ?E3, ?E4; simpl; auto using silent_nil; [|lia]. intros i [? _]%Ho. by left.
Qed.

Lemma sound_begin tr s s' notes :
  1 <= Worker.batch c → sound tr s → next c worker s Begin = Some (s', notes) → sound (tr ++ notes) s'.
Proof.
  intros Hb Hs. cbn [next]. unfold when. destruct (disp s) eqn:Hp, (acks (wire s)); try done.
  destruct (_ && _) eqn:Hg; [|done]. intros ?; simplify_eq. rewrite app_nil_r. destruct Hs. rewrite Hp in *.
  apply andb_true_iff in Hg as [Hin Hr]. unfold Worker.available in *. rewrite so_limit0 in *.
  split; simpl; rewrite ?so_limit0; try done; lia.
Qed.

Lemma sound_notice tr s reported sent s' notes :
  sound tr s → next c worker s (Notice reported sent) = Some (s', notes) → sound (tr ++ notes) s'.
Proof.
  intros Hs. cbn [next]. unfold when. destruct (_ && _); [|done].
  destruct (match sent with Some _ => _ | None => _ end) as [ids d] eqn:E. intros ?; simplify_eq. pose proof Hs as [].
  assert (db_ok d ∧ ∀ i, owns worker d i → owns worker (store s) i ∨ i ∈ ids) as [Hd Ho].
  { destruct sent as [m|]; [|simplify_eq; split; auto].
    pose proof (sent_anyway_moved m (disp s) (store s) so_db0) as H. by rewrite E in H. }
  apply (sound_step _ _ s); simpl; auto.
  - apply silent_cons; [done|apply silent_nil].
  - intros i [?|?]%Ho; [by left|right]. apply dropped_here, elem_of_app. by right.
  - intros i ?. right. apply dropped_here, elem_of_app. by left.
  - by apply claims_nonneg.
Qed.

Lemma sound_close tr s s' notes :
  sound tr s → next c worker s Close = Some (s', notes) → sound (tr ++ notes) s'.
Proof.
  intros Hs. cbn [next]. unfold when. destruct (disp s) as [| | | | | | |o] eqn:Hp; try done.
  destruct (coll (rd s)) eqn:Hc; try done. destruct (_ && _); [|done]. destruct o as [u|e]; intros ?; simplify_eq/=.
  - apply (sound_idle _ _ s); simpl; rewrite ?Hp; auto using silent_nil; done.
  - destruct Hs. rewrite Hp in *. split; simpl; rewrite ?Hp; simpl; auto.
    + intros i Hi. right. right. destruct (so_owned0 i Hi) as [?|[?%elem_of_nil|?]]; [|done|].
      * apply dropped_after, dropped_here. by apply elem_of_elements.
      * apply dropped_before; [done|]. apply unleased_cons; [done|apply unleased_nil].
    + unfold settling. rewrite Hc. by intros i _ ?%elem_of_nil.
    + simpl in so_room0. change (Worker.held _) with 0. pose proof (Nat2Z.is_nonneg (size (Worker.ids (inflight s)))).
      unfold Worker.held, len in *. simpl in *. lia.
Qed.

Lemma settling_start stays r l : settling (start_flush stays r) = l ∨ settling (start_flush stays r) = [].
Proof. right. unfold start_flush, after_flush. by repeat case_match. Qed.

Lemma sound_next tr s e s' notes :
  1 <= Worker.batch c → sound tr s → lawful s e → next c worker s e = Some (s', notes) → sound (tr ++ notes) s'.
Proof.
  intros Hb Hs Hl. pose proof (silent_nil) as Hn.
  destruct e as [d| |failed| |m|failed| |k| |m| |m|k|sd|k|reported sent|k| |m|];
    try solve [intros E; by eauto using sound_begin, sound_call, sound_notice, sound_close];
    cbn [next]; unfold when.
  - intros ?; simplify_eq. destruct Hl as [Hst Ho]. pose proof Hs as [].
    apply (sound_step _ _ s); simpl; eauto; lia.
  - intros ?; simplify_eq. apply (sound_same _ _ s); simpl; auto.
  - destruct (disp s) eqn:Hp, (acks (wire s)); try done. destruct (in_session s); [|done].
    destruct (Protocol.encode _ _) as [[u|e] buf], failed as [[k why]|]; intros ?; simplify_eq;
      apply (sound_idle _ _ s); simpl; rewrite ?Hp; auto; done.
  - destruct (disp s) eqn:Hp; try done. destruct failed as [[k why]|], (in_session s); intros ?; simplify_eq;
      apply (sound_idle _ _ s); simpl; rewrite ?Hp; auto; done.
  - destruct (disp s) eqn:Hp; try done. destruct (_ && _); [|done]. intros ?; simplify_eq.
    apply (sound_idle _ _ s); simpl; rewrite ?Hp; auto; done.
  - destruct (coll (rd s)); try done. destruct (_ && _); [|done]. intros ?; simplify_eq. apply (sound_same _ _ s); auto.
  - destruct (coll (rd s)); try done. destruct (in_session s); [|done]. intros ?; simplify_eq.
    apply (sound_same _ _ s); auto. apply settling_start.
  - destruct (in_session s); [|done]. by apply sound_proceed.
  - destruct (coll (rd s)); try done. destruct (_ && _); [|done]. intros ?; simplify_eq.
    apply (sound_same _ _ s); auto. apply settling_start.
  - destruct (negb _); [|done]. intros ?; simplify_eq. rewrite app_nil_r. unfold renew_tick. case_decide.
    + rewrite <- (app_nil_r tr). apply (sound_same _ _ s); auto.
    + by eapply (sound_beside _ s _ m); [|apply renew_settles|..].
  - destruct (_ && _); [|done]. destruct (hear _ _) as [kid' ids]. intros ?; simplify_eq.
    apply (sound_same _ _ s); auto. apply silent_cons; auto.
  - destruct (_ && _); [|done]. destruct (speaks _ _), (ChildProtocol.written sd); intros ?; simplify_eq.
    apply (sound_same _ _ s); auto. apply silent_cons; auto.
  - destruct (_ && _); [|done]. intros ?; simplify_eq. apply (sound_same _ _ s); auto.
  - destruct (_ && _); [|done]. intros ?; simplify_eq. apply (sound_same _ _ s); auto.
  - destruct (sup s) as [|held| | |] eqn:Hsup; try done.
    + destruct (call _ _ _) as [r d] eqn:E. intros ?; simplify_eq. rewrite app_nil_r.
      eapply (sound_beside _ s _ m); [done|apply abandon_settles|..]; simpl; rewrite ?E, ?Hsup; done.
    + intros ?; simplify_eq. rewrite app_nil_r.
      eapply (sound_beside _ s _ m); [done|apply reclaim_settles|..]; simpl; rewrite ?Hsup; done.
  - destruct (sup s) eqn:Hsup; try done. destruct (negb _); [|done]. intros ?; simplify_eq.
    apply (sound_idle _ _ s); simpl; auto; [|done]. apply (so_over _ _ Hs). by rewrite Hsup.
Qed.

Lemma sound_start d :
  db_ok d → (∀ i, ¬ owns worker d i) → 0 <= Worker.concurrency c → sound [] (start c d).
Proof. intros Hd Ho Hc. split; simpl; try done; [by intros i ?%Ho..|]. change (0 + 0 <= Worker.concurrency c + 1). lia. Qed.

Lemma sound_leads s0 tr s :
  1 <= Worker.batch c → sound [] s0 → leads s0 tr s → sound tr s.
Proof. intros Hb H0 H. induction H; [done|]. by eapply sound_next. Qed.

Lemma leads_run s es s' tr tr0 s0 :
  leads s0 tr0 s → Forall (λ e, ∀ d, e ≠ Elsewhere d) es → run c worker s es = Some (s', tr) → leads s0 (tr0 ++ tr) s'.
Proof.
  intros H Hes. revert s tr0 tr H. induction Hes as [|e es He _ IH]; intros s tr0 tr H E; simpl in E.
  - simplify_eq. by rewrite app_nil_r.
  - destruct (next c worker s e) as [[s1 n1]|] eqn:E1; [|done]. simpl in E.
    destruct (run c worker s1 es) as [[s2 n2]|] eqn:E2; [|done]. simpl in E. simplify_eq.
    rewrite app_assoc. apply (IH s1); [|done]. eapply leads_on; [done| |done]. destruct e; try done. by destruct (He d).
Qed.

(** C8. Every lease of a supervisor is accounted for, whatever the interleaving.
    [dispatch], [collect_completions] and [renew] stop at every await, the child
    reads, reports and dies when it likes, sessions end and start again, the
    statements of any of them fail or run unheard, and other sessions work on the
    database in between. At every point, a job leased to this worker is in flight,
    where renewals, drains and hand-backs find it; or in the hands of [dispatch],
    which is about to put it in flight; or it was let go of since it was last
    leased, at one of six places: a dispatch dropped by the child's exit, a lost
    answer to a fetch, a failed discard, a failed statement of a flush, a flush
    that settled an earlier attempt of it, or the hand-back. In flight and in hand
    never exceed the child's capacity by more than the one keyed job [fetch] may
    add, and nothing is in hand outside a session. *)
Theorem every_lease_accounted d tr s :
  db_ok d → (∀ i, ¬ owns worker d i) → 1 <= Worker.batch c → 0 <= Worker.concurrency c →
  leads (start c d) tr s →
  (∀ i, owns worker (store s) i → i ∈ Worker.ids (inflight s) ∨ i ∈ in_hand (disp s) ∨ dropped tr i) ∧
  Worker.held (inflight s) + len (in_hand (disp s)) <= Worker.concurrency c + 1 ∧
  (sup s ≠ InSession → in_hand (disp s) = []).
Proof.
  intros Hd Ho Hb Hc H. destruct (sound_leads _ _ _ Hb (sound_start d Hd Ho Hc) H). split_and!; [done| |done].
  assert (len (in_hand (disp s)) <= claims (disp s)); [|lia].
  destruct (disp s); simpl in *; unfold len; rewrite ?length_fmap; simpl; lia.
Qed.

End Leases.

Lemma none_leased i : ¬ owns alice enqueued i.
Proof.
  intros (r & Hr & Hh).
  assert (map_Forall (λ _ r, held alice r = false) (jobs enqueued)) as Hn
    by (apply (bool_decide_unpack _); vm_compute; exact I).
  apply Hn in Hr. by rewrite Hr in Hh.
Qed.

(** The shift of [SystemExample]: of the jobs leased, the one still running is left
    to the worker. *)
Lemma every_lease_accounted_witness :
  ∃ s tr, from_enqueued shift = Some (s, tr) ∧ owns alice (store s) 4 ∧
    (4 ∈ Worker.ids (inflight s) ∨ 4 ∈ in_hand (disp s) ∨ dropped tr 4) ∧
    Worker.held (inflight s) + len (in_hand (disp s)) <= 257.
Proof.
  destruct (from_enqueued shift) as [[s tr]|] eqn:E; [|vm_compute in E; discriminate].
  exists s, tr. split; [reflexivity|].
  assert (owns alice (store s) 4) as Ho.
  { assert (∃ r, jobs (store (from_option fst (start one_core empty) (from_enqueued shift))) !! 4 = Some r ∧ held alice r = true)
      as (r & Hr & Hh) by (eexists; split; vm_compute; reflexivity).
    rewrite E in Hr. exists r. split; [exact Hr|]. by rewrite Hh. }
  destruct (every_lease_accounted one_core alice enqueued tr s) as (Hin & Hroom & _).
  - apply reachable_ok, enqueued_reachable.
  - apply none_leased.
  - vm_compute. discriminate.
  - vm_compute. discriminate.
  - apply (leads_run one_core alice (start one_core enqueued) shift s tr [] (start one_core enqueued)).
    + apply leads_here.
    + unfold shift, lease_batch, send_batch, report_two, flush_two. repeat constructor; intros d ?; discriminate.
    + exact E.
  - split; [exact Ho|]. split; [exact (Hin 4 Ho)|]. exact Hroom.
Defined.

End SystemLeases.
