(* ===== verification/SystemDispatch.v ===== *)
(** * A child is handed only what was leased for it

    The other direction of [SystemReports]: from the statements that lease, through
    the dispatcher's buffer, the socket and the child's decoder, to the jobs it
    runs. *)

From S2P Require Import Prelude.
From S2P Require Import Utf8.
From S2P Require Import Core.
From S2P Require Import Protocol.
From S2P Require Import ChildProtocol.
From S2P Require Import Schedule.
From S2P Require Import PgTable.
From S2P Require Import PgJobs.
From S2P Require Import PgCron.
From S2P Require Import Worker.
From S2P Require Import WorkerLoop.
From S2P Require Import WorkerSafety.
From S2P Require Import System.
From S2P Require Import SystemLeases.
Import Utf8.
Import Core.
Import Table.
Import Jobs.
Import Cron.
Import WorkerLoop.
Import WorkerSafety.
Import System.
Import SystemLeases.

Module SystemDispatch.

#[local] Opaque to_le_bytes.

(** ** Frames, as the child reads them *)

Section Frames.
Context {R : Protocol.RmpSerde} {M : ChildProtocol.Msgspec}.

Definition bigint (m : Protocol.Message) : Prop := ∀ id, started m = Some id → in_signed 64 id.

(** A body, whatever else the child makes of it, starts the job it dispatches. *)
Lemma body_starts m packed n pre k m' e :
  bigint m → Protocol.measure m = Ok (packed, n) →
  let b := Protocol.body m packed in
  ChildProtocol.drain_body (pre ++ b ++ k) (len pre) (len b) = Ok (m', e) →
  e = len pre + len b ∧ started m' = started m.
Proof.
  intros Hm Hms b. unfold b. clear b.
  assert (∀ kind rest, Protocol.body m packed = kind :: rest → kind ≠ Protocol.KIND_DISPATCH → started m = None →
    ChildProtocol.drain_body (pre ++ (kind :: rest) ++ k) (len pre) (len (kind :: rest)) = Ok (m', e) →
    e = len pre + len (kind :: rest) ∧ started m' = started m) as Hother.
  { intros kind rest _ Hk Hs. destruct (ChildProtocol.body_parts pre kind rest k) as [Hl _]. unfold ChildProtocol.drain_body.
    rewrite Hl, Hs. repeat case_decide; try done.
    - destruct (ChildProtocol.decode_steps _) as [[? ?]|]; [|done]. by intros ?; simplify_eq.
    - destruct (ChildProtocol.decode_stored _) as [[? ?]|]; [|done]. by intros ?; simplify_eq. }
  destruct m as [es|id st|id nm r|id nm|id a ma t p|id [r|er rt]]; try (by eapply Hother).
  clear Hother. cbn [Protocol.body]. set (rest := to_le_bytes 8 id ++ _).
  destruct (ChildProtocol.body_parts pre Protocol.KIND_DISPATCH rest k) as [Hl _]. unfold ChildProtocol.drain_body. rewrite Hl.
  rewrite !decide_False by (done || (intros H'; by apply H')).
  replace (ChildProtocol.cut (len pre + 1) (len pre + 9) (pre ++ (Protocol.KIND_DISPATCH :: rest) ++ k)) with (to_le_bytes 8 id).
  2: { symmetry. apply (ChildProtocol.cut_at _ _ _ (pre ++ [Protocol.KIND_DISPATCH]) _ (drop 8 rest ++ k)).
       - rewrite <- app_assoc. simpl. unfold rest. rewrite (drop_app_length' (to_le_bytes 8 id)); [by rewrite <- !app_assoc|].
         apply Nat2Z.inj. symmetry. exact (len_to_le_bytes 8 id).
       - rewrite len_app. done.
       - rewrite len_to_le_bytes. lia. }
  rewrite from_le_signed_to_le by (lia || by apply Hm).
  repeat (case_match; try done). by intros ?; simplify_eq.
Qed.

Lemma turn_starts m f pre k m' e :
  bigint m → Protocol.frame_of m = Ok f →
  ChildProtocol.drain_turn (pre ++ f ++ k) (len pre) = Ok (Some (m', e)) → e = len pre + len f ∧ started m' = started m.
Proof.
  intros Hm (packed & n & Hms & -> & Hn & Hmax & Hhead)%ChildProtocol.frame_split.
  pose proof (body_starts m packed n (pre ++ to_le_bytes 4 n) k m' e Hm Hms) as Hb. cbv zeta in Hb.
  set (b := Protocol.body m packed) in *. pose proof (len_to_le_bytes 4 n) as L4. change (Z.of_nat 4) with 4 in L4.
  pose proof (len_nonneg k). unfold ChildProtocol.drain_turn, Protocol.HEADER_BYTES. rewrite !len_app, L4, Hn.
  rewrite (proj2 (Z.ltb_ge _ _)) by lia.
  rewrite (ChildProtocol.cut_at _ _ _ pre (to_le_bytes 4 n) (b ++ k)) by (rewrite <- ?app_assoc; done || lia).
  rewrite Hhead, (proj2 (Z.ltb_ge _ _)), (proj2 (Z.ltb_ge _ _)) by lia.
  rewrite <- !app_assoc, len_app, L4, Hn in Hb. rewrite <- !app_assoc.
  destruct (ChildProtocol.drain_body _ _ _) as [[m0 e0]|] eqn:E; simpl; [|done]. intros ?; simplify_eq.
  destruct (Hb eq_refl) as [-> ->]. split; [lia|done].
Qed.

(** The frames of some messages, one after the other. *)
Definition frames (ms : list Protocol.Message) (bytes : list byte) : Prop :=
  ∃ fs, Forall2 (λ m f, Protocol.frame_of m = Ok f) ms fs ∧ bytes = concat fs.

Lemma frames_nil : frames [] [].
Proof. by exists []. Qed.

Lemma frames_app ms ms' bs bs' : frames ms bs → frames ms' bs' → frames (ms ++ ms') (bs ++ bs').
Proof. intros (fs & ? & ->) (fs' & ? & ->). exists (fs ++ fs'). rewrite concat_app. split; [by apply Forall2_app|done]. Qed.

Lemma frames_encode ms bs m : frames ms bs → ∃ ms', frames (ms ++ ms') (Protocol.encode m bs).2 ∧ (ms' = [] ∨ ms' = [m]).
Proof.
  intros H. rewrite Protocol.encode_frame_of. destruct (Protocol.frame_of m) as [f|e] eqn:E; simpl.
  - exists [m]. split; [|by right]. apply frames_app; [done|]. exists [f]. split; [by repeat constructor|]. simpl. by rewrite app_nil_r.
  - exists []. split; [by rewrite app_nil_r|by left].
Qed.

(** What the child takes from the front of a stream of frames starts the jobs of the
    messages it takes, and leaves the rest. *)
Lemma drain_starts ms fuel pre b k out last :
  frames ms (b ++ k) → Forall bigint ms →
  ChildProtocol.drain_from fuel (pre ++ b) (len pre) = Ok (out, last) →
  ∃ ms1 ms2 q r, ms = ms1 ++ ms2 ∧ omap started out = omap started ms1 ∧ frames ms2 (r ++ k) ∧
    b = q ++ r ∧ last = len pre + len q.
Proof.
  intros (fs & Hfs & Hc). revert fuel pre b out last Hc.
  induction Hfs as [|m f ms fs Hf Hfs IH]; intros fuel pre b out last Hc Hb E.
  - apply app_nil in Hc as [-> ->]. assert (out = [] ∧ last = len pre) as [-> ->].
    { destruct fuel; [by simplify_eq/=|]. simpl in E. unfold ChildProtocol.drain_turn, Protocol.HEADER_BYTES in E.
      rewrite app_nil_r, (proj2 (Z.ltb_lt _ _)) in E by lia. by simplify_eq/=. }
    exists [], [], [], []. split_and!; try done; [apply frames_nil|]. change (len []) with 0. lia.
  - apply Forall_cons in Hb as [Hm Hb]. simpl in Hc.
    assert (frames (m :: ms) (b ++ k)) as Hall.
    { exists (f :: fs). split; [by constructor|done]. }
    assert ((out = [] ∧ last = len pre) → ∃ ms1 ms2 q r, m :: ms = ms1 ++ ms2 ∧ omap started out = omap started ms1 ∧
      frames ms2 (r ++ k) ∧ b = q ++ r ∧ last = len pre + len q) as Hnone.
    { intros [-> ->]. exists [], (m :: ms), [], b. split_and!; try done. change (len []) with 0. lia. }
    destruct fuel as [|fuel]; [apply Hnone; by simplify_eq/=|].
    cbn [ChildProtocol.drain_from] in E. destruct (decide (length b < length f)%nat) as [Hlt|Hge].
    + assert (f = b ++ drop (length b) f) as Ef.
      { rewrite <- (take_drop (length b) f) at 1. f_equal. apply (f_equal (take (length b))) in Hc.
        rewrite take_app_length, take_app_le in Hc by lia. done. }
      rewrite (ChildProtocol.turn_short m f pre b (drop (length b) f)) in E; [apply Hnone; by simplify_eq/=|done|done|].
      intros Hz. apply (f_equal length) in Hz. rewrite length_drop in Hz. simpl in Hz. lia.
    + assert (b = f ++ drop (length f) b) as Eb.
      { rewrite <- (take_drop (length f) b) at 1. f_equal. apply (f_equal (take (length f))) in Hc.
        rewrite take_app_length, take_app_le in Hc by lia. done. }
      set (b' := drop (length f) b) in *. clearbody b'. subst b. rewrite <- app_assoc in Hc. apply app_inv_head in Hc.
      destruct (ChildProtocol.drain_turn _ _) as [[[m' e]|]|] eqn:Et; [|apply Hnone; by simplify_eq/=|done].
      destruct (turn_starts m f pre b' m' e Hm Hf Et) as [-> Hst]. cbn [mbind result_bind] in E.
      replace (pre ++ f ++ b') with ((pre ++ f) ++ b') in E by (by rewrite <- app_assoc). rewrite <- len_app in E.
      destruct (ChildProtocol.drain_from fuel _ _) as [[out' last']|] eqn:E'; [|done]. cbn [mbind result_bind] in E. simplify_eq.
      destruct (IH fuel (pre ++ f) b' out' last Hc Hb E') as (ms1 & ms2 & q & r & -> & Ho & Hfr & -> & ->).
      exists (m :: ms1), ms2, (f ++ q), r. split_and!; [done| |done|by rewrite app_assoc|rewrite !len_app; lia].
      change (omap started (m' :: out')) with (match started m' with Some y => y :: omap started out' | None => omap started out' end).
      by rewrite Hst, Ho.
Qed.

Lemma drain_takes ms b k out rest :
  frames ms (b ++ k) → Forall bigint ms → ChildProtocol.drain b = Ok (out, rest) →
  ∃ ms1 ms2, ms = ms1 ++ ms2 ∧ omap started out = omap started ms1 ∧ frames ms2 (rest ++ k).
Proof.
  intros Hfr Hb. unfold ChildProtocol.drain. destruct (ChildProtocol.drain_from _ _ _) as [[out' last]|] eqn:E; [|done].
  cbn [mbind result_bind]. intros ?; simplify_eq.
  destruct (drain_starts ms (S (length b)) [] b k out last Hfr Hb E) as (ms1 & ms2 & q & r & -> & Ho & Hfr2 & -> & ->).
  exists ms1, ms2. split_and!; try done. change (len []) with 0. unfold len. rewrite Z.add_0_l, Nat2Z.id.
  by rewrite drop_app_length.
Qed.

End Frames.

(** ** From the lease to the child *)

Section Dispatch.
Context {Pl : Planner} {R : Protocol.RmpSerde} {C : Schedule.CronCrate} {M : ChildProtocol.Msgspec}.
Variables (c : Worker.Config) (worker : uuid).

(** A fetch of this supervisor leased [i]; a message dispatches only such a job. *)
Definition leased_in (tr : list note) (i : Z) : Prop := ∃ ids, Leased ids ∈ tr ∧ i ∈ ids.
Definition bound (tr : list note) (m : Protocol.Message) : Prop := ∀ id, started m = Some id → leased_in tr id.

Lemma leased_in_app tr notes i : leased_in tr i → leased_in (tr ++ notes) i.
Proof. intros (ids & ? & ?). exists ids. rewrite elem_of_app. auto. Qed.

Lemma leased_in_after tr notes i : leased_in notes i → leased_in (tr ++ notes) i.
Proof. intros (ids & ? & ?). exists ids. rewrite elem_of_app. auto. Qed.

Lemma bound_app tr notes ms : Forall (bound tr) ms → Forall (bound (tr ++ notes)) ms.
Proof. intros H. eapply Forall_impl; [done|]. intros m Hm id Hid. by apply leased_in_app, Hm. Qed.

(** Whatever the child was handed had been leased before. *)
Definition chained (tr : list note) : Prop :=
  ∀ before ids after, tr = before ++ Handed ids :: after → ∀ i, i ∈ ids → leased_in before i.

Lemma chained_quiet tr notes : (∀ ids, Handed ids ∉ notes) → chained tr → chained (tr ++ notes).
Proof.
  intros Hn Hc b ids a E i Hi. apply app_eq_inv in E as [(k & -> & E)|(k & -> & E)].
  - destruct k as [|n k]; simplify_eq/=; [destruct (Hn ids); left|]. by eapply Hc.
  - destruct (Hn ids). rewrite E. apply elem_of_app. right. left.
Qed.

Lemma chained_handed tr ids : (∀ i, i ∈ ids → leased_in tr i) → chained tr → chained (tr ++ [Handed ids]).
Proof.
  intros Hn Hc b ids' a E i Hi. apply app_eq_inv in E as [(k & -> & E)|(k & -> & E)].
  - destruct k as [|n k]; simplify_eq/=; [|by eapply Hc]. rewrite app_nil_r in Hn. auto.
  - destruct k as [|n k]; simplify_eq/=; [by rewrite app_nil_r; auto|]. by destruct k.
Qed.

(** The frames a dispatcher is putting together, or about to write. *)
Definition buffered (p : dispatcher) : list byte :=
  match p with Preparing _ buf _ | Discarding _ _ _ buf _ | Writing buf => buf | _ => [] end.

Record conveyed (tr : list note) (s : system) : Prop := {
  co_hand i : i ∈ in_hand (disp s) → leased_in tr i;
  co_buf : ∃ ms, frames ms (buffered (disp s)) ∧ Forall (bound tr) ms;
  co_acks : Forall (λ m, started m = None) (acks (wire s));
  co_acking a : coll (rd s) = Acking a → started a = None;
  co_down : ∃ ms tail, frames ms (buffer (kid s) ++ down (wire s) ++ tail) ∧ Forall (bound tr) ms ∧ (returned s = false → tail = []);
  co_chained : chained tr
}.

Definition mute (notes : list note) : Prop := ∀ ids, Handed ids ∉ notes.

Lemma mute_nil : mute [].
Proof. by intros ids ?%elem_of_nil. Qed.

(** Nothing the child reads changes. *)
Lemma conveyed_same tr notes s s' :
  conveyed tr s → mute notes → disp s' = disp s → buffer (kid s') = buffer (kid s) → down (wire s') = down (wire s) →
  acks (wire s') = acks (wire s) → (∀ a, coll (rd s') = Acking a → started a = None) → conveyed (tr ++ notes) s'.
Proof.
  intros [Hh (ms & Hb & Hms) Ha Hk (ms' & tail & Hd & Hms' & Ht) Hc] Hn E1 E2 E3 E4 E5.
  split; unfold returned in *; rewrite ?E1, ?E2, ?E3, ?E4; auto using leased_in_app, chained_quiet.
  - exists ms. auto using bound_app.
  - exists ms', tail. auto using bound_app.
Qed.

(** The dispatcher moves on, with what it has in hand leased. *)
Lemma conveyed_disp tr notes s s' p :
  conveyed tr s → mute notes → disp s' = p → wire s' = wire s → kid s' = kid s → rd s' = rd s →
  (∀ i, i ∈ in_hand p → i ∈ in_hand (disp s) ∨ leased_in notes i) →
  (∃ ms, frames ms (buffered p) ∧ Forall (bound tr) ms) → (returned s' = false → returned s = false) →
  conveyed (tr ++ notes) s'.
Proof.
  intros [Hh (ms & Hb & Hms) Ha Hk (ms' & tail & Hd & Hms' & Ht) Hc] Hn <- E2 E3 E4 Hp (ms0 & Hb0 & Hms0) Hret.
  split; rewrite ?E2, ?E3, ?E4; auto using chained_quiet.
  - intros i [?|?]%Hp; auto using leased_in_app, leased_in_after.
  - exists ms0. auto using bound_app.
  - exists ms', tail. auto using bound_app.
Qed.

Lemma conveyed_prepare tr s m j todo buf reserved p' d' notes :
  conveyed tr s → disp s = Preparing (j :: todo) buf reserved →
  dispatch_call c worker m (rd s) (Preparing (j :: todo) buf reserved) (store s) = Some (p', d', notes) →
  ∃ ms, frames ms (buffered p') ∧ Forall (bound tr) ms.
Proof.
  intros [Hh (ms & Hb & Hms) _ _ _ _] Hp. rewrite Hp in *. cbn [dispatch_call]. destruct (prior_steps _ _ _) as [steps d].
  assert (bound tr (dispatch_message j)) as Hj.
  { intros id [= <-]. apply Hh. simpl. left. }
  assert (∃ ms', frames ms' (if decide (steps = []) then buf else (Protocol.encode (Protocol.Steps (job_id j) steps) buf).2) ∧
    Forall (bound tr) ms') as (ms' & Hb' & Hms').
  { case_decide; [by exists ms|]. destruct (frames_encode ms buf (Protocol.Steps (job_id j) steps) Hb) as (x & Hx & Hor).
    exists (ms ++ x). split; [done|]. apply Forall_app. split; [done|]. destruct Hor as [->| ->]; [done|]. by apply Forall_singleton. }
  destruct (frames_encode ms' _ (dispatch_message j) Hb') as (x & Hx & Hor).
  destruct (Protocol.encode (dispatch_message j) _) as [[u|e] buf']; intros ?; simplify_eq; simpl in *;
    (exists (ms' ++ x); split; [done|]; apply Forall_app; split; [done|]; destruct Hor as [->| ->]; [done|]; by apply Forall_singleton).
Qed.

Lemma no_frames tr : ∃ ms, frames ms [] ∧ Forall (bound tr) ms.
Proof. exists []. split; [apply frames_nil|constructor]. Qed.

(** What a statement of the dispatcher brings in hand it has noted as leased. *)
Lemma call_hands m r p d p' d' notes i :
  dispatch_call c worker m r p d = Some (p', d', notes) → i ∈ in_hand p' → i ∈ in_hand p ∨ leased_in notes i.
Proof.
  intros E Hi. destruct p as [|n|n|rows spare|[|j todo] buf reserved|j e todo buf reserved|buf|o]; cbn [dispatch_call] in E; try done.
  - destruct (call _ _ _) as [[[rows carried]|e] d1]; simplify_eq; [|by apply elem_of_nil in Hi].
    right. exists (job_id <$> rows). split; [left|]. unfold after_unkeyed in Hi. case_decide; [by apply elem_of_nil in Hi|].
    destruct carried; simpl in Hi; [done|]. by rewrite app_nil_r in Hi.
  - destruct (call _ _ _) as [[[]|e] d1]; simplify_eq; by apply elem_of_nil in Hi.
  - destruct (call _ _ _) as [[keyed|e] d1]; simplify_eq; [|by apply elem_of_nil in Hi].
    unfold after_fetch in Hi. case_decide; [by apply elem_of_nil in Hi|]. simpl in Hi.
    rewrite app_nil_r, fmap_app in Hi. apply elem_of_app in Hi as [?|?]; [by left|right].
    exists (job_id <$> keyed). split; [left|done].
  - left. destruct (prior_steps _ _ _). destruct (Protocol.encode (dispatch_message j) _) as [[u|e] buf']; simplify_eq; simpl in *; [|done].
    rewrite app_assoc, elem_of_app, list_elem_of_singleton in Hi. rewrite elem_of_cons. tauto.
  - left. destruct (call _ _ _) as [[a|err] d1]; simplify_eq; simpl in *; rewrite elem_of_cons; by right.
Qed.

Lemma call_mute m r p d p' d' notes : dispatch_call c worker m r p d = Some (p', d', notes) → mute notes.
Proof.
  intros E ids Hin. destruct p as [|n|n|rows spare|[|j todo] buf reserved|j e todo buf reserved|buf|o]; cbn [dispatch_call] in E;
    try done; repeat (case_match; try done); simplify_eq; set_solver.
Qed.

Lemma call_buffer tr s m p' d' notes :
  conveyed tr s → dispatch_call c worker m (rd s) (disp s) (store s) = Some (p', d', notes) →
  returned s = false ∧ ∃ ms, frames ms (buffered p') ∧ Forall (bound tr) ms.
Proof.
  intros Hs E. pose proof (co_buf _ _ Hs) as Hb. unfold returned.
  destruct (disp s) as [|n|n|rows spare|[|j todo] buf reserved|j e todo buf reserved|buf|o] eqn:Hp;
    try done; (split; [done|]); try solve [by eapply conveyed_prepare]; cbn [dispatch_call] in E.
  - destruct (call _ _ _) as [[[rows carried]|e] d1]; simplify_eq; [|apply no_frames].
    unfold after_unkeyed. case_decide; [|destruct carried]; apply no_frames.
  - destruct (call _ _ _) as [[[]|e] d1]; simplify_eq; apply no_frames.
  - destruct (call _ _ _) as [[keyed|e] d1]; simplify_eq; [|apply no_frames]. unfold after_fetch. case_decide; apply no_frames.
  - destruct (call _ _ _) as [[a|err] d1]; simplify_eq; exact Hb.
Qed.

Lemma conveyed_call tr s m s' notes :
  conveyed tr s → next c worker s (Call m) = Some (s', notes) → conveyed (tr ++ notes) s'.
Proof.
  intros Hs [Hin [(buf & reserved & Hp & -> & ->)|(p' & d & E & ->)]]%call_next.
  - pose proof (co_buf _ _ Hs) as Hb. rewrite Hp in Hb.
    case_decide; eapply (conveyed_disp _ _ s); try done; try apply mute_nil; try (by intros i ?%elem_of_nil);
      try (unfold returned; by rewrite Hp); apply no_frames || exact Hb.
  - destruct (call_buffer tr s m p' d notes Hs E) as [Hr Hb].
    eapply (conveyed_disp _ _ s); try done; [by eapply call_mute|]. intros i. by eapply call_hands.
Qed.

(** Bytes written, all of them or some before the write failed. *)
Lemma conveyed_written tr s s' buf sent :
  conveyed tr s → returned s = false → in_hand (disp s') = [] → buffered (disp s') = [] →
  (∃ ms, frames ms buf ∧ Forall (bound tr) ms) → (∃ unsent, buf = sent ++ unsent ∧ (returned s' = false → unsent = [])) →
  buffer (kid s') = buffer (kid s) → down (wire s') = down (wire s) ++ sent → rd s' = rd s →
  Forall (λ m, started m = None) (acks (wire s')) → conveyed tr s'.
Proof.
  intros [Hh _ Ha Hk (ms' & tail & Hd & Hms' & Ht) Hc] Hr E1 E2 (ms & Hf & Hms) (unsent & -> & Hu) E3 E4 E5 Hacks.
  split; rewrite ?E1, ?E2, ?E3, ?E4, ?E5; auto; [by intros i ?%elem_of_nil|apply no_frames|].
  rewrite (Ht Hr), app_nil_r in Hd. exists (ms' ++ ms), unsent. split_and!; [|by apply Forall_app|done].
  replace (buffer (kid s) ++ (down (wire s) ++ sent) ++ unsent) with ((buffer (kid s) ++ down (wire s)) ++ sent ++ unsent)
    by (by rewrite <- !app_assoc). by apply frames_app.
Qed.

Lemma conveyed_forward tr s failed s' notes :
  conveyed tr s → next c worker s (Forward failed) = Some (s', notes) → conveyed (tr ++ notes) s'.
Proof.
  intros Hs. cbn [next]. unfold when. pose proof (co_acks _ _ Hs) as Hacks.
  destruct (disp s) eqn:Hp, (acks (wire s)) as [|ack rest] eqn:Ek; try done. destruct (in_session s); [|done].
  apply Forall_cons in Hacks as [Hack Hrest].
  assert (returned s = false) as Hr by (unfold returned; by rewrite Hp).
  destruct (frames_encode [] [] ack frames_nil) as (x & Hx & Hor).
  assert (∃ ms, frames ms (Protocol.encode ack []).2 ∧ Forall (bound tr) ms) as Hb.
  { exists x. split; [done|]. destruct Hor as [->| ->]; [done|]. apply Forall_singleton. intros id. by rewrite Hack. }
  destruct (Protocol.encode ack []) as [[u|e] buf]; simpl in Hb.
  - destruct failed as [[k why]|]; intros ?; simplify_eq; rewrite app_nil_r.
    + eapply (conveyed_written _ s _ buf (take k buf)); try done. exists (drop k buf). by rewrite take_drop.
    + eapply (conveyed_written _ s _ buf buf); simpl; try done; try (by rewrite Hp). exists []. by rewrite app_nil_r.
  - intros ?; simplify_eq. rewrite app_nil_r.
    eapply (conveyed_written _ s _ [] []); simpl; try done; try (by rewrite Hp); [apply no_frames|by exists []|by rewrite app_nil_r].
Qed.

Lemma conveyed_write tr s failed s' notes :
  conveyed tr s → next c worker s (Write failed) = Some (s', notes) → conveyed (tr ++ notes) s'.
Proof.
  intros Hs. cbn [next]. unfold when. pose proof (co_buf _ _ Hs) as Hb. pose proof (co_acks _ _ Hs).
  destruct (disp s) as [| | | | | |buf|] eqn:Hp; try done.
  assert (returned s = false) as Hr by (unfold returned; by rewrite Hp).
  destruct failed as [[k why]|], (in_session s); intros ?; simplify_eq; rewrite app_nil_r.
  - eapply (conveyed_written _ s _ buf (take k buf)); try done. exists (drop k buf). by rewrite take_drop.
  - eapply (conveyed_written _ s _ buf buf); try done. exists []. by rewrite app_nil_r.
Qed.

(** Job ids fit the column they are read from. *)
Definition bigints (tr : list note) : Prop := ∀ i, leased_in tr i → in_signed 64 i.

Lemma conveyed_hear tr s k s' notes :
  bigints tr → conveyed tr s → next c worker s (Hear k) = Some (s', notes) → conveyed (tr ++ notes) s'.
Proof.
  intros Hbig Hs. cbn [next]. unfold when. destruct (_ && _); [|done].
  destruct Hs as [Hh Hb Ha Hk (ms & tail & Hd & Hms & Ht) Hc]. unfold hear.
  assert (buffer (kid s) ++ down (wire s) ++ tail = (buffer (kid s) ++ take k (down (wire s))) ++ drop k (down (wire s)) ++ tail) as Ed.
  { rewrite <- app_assoc, (app_assoc (take k _)), take_drop. done. }
  assert (∃ ms0, frames ms0 (buffered (disp s)) ∧ Forall (bound (tr ++ notes)) ms0) as Hb'.
  { destruct Hb as (ms0 & ? & ?). exists ms0. auto using bound_app. }
  destruct (ChildProtocol.drain _) as [[out rest]|e] eqn:E; intros ?; simplify_eq.
  - rewrite Ed in Hd.
    assert (Forall bigint ms) as Hbi by (eapply Forall_impl; [done|]; intros m Hm id Hid; by apply Hbig, Hm).
    destruct (drain_takes ms _ _ out rest Hd Hbi E) as (ms1 & ms2 & -> & Ho & Hfr).
    apply Forall_app in Hms as [Hms1 Hms2].
    split; simpl; auto using leased_in_app.
    + exists ms2, tail. auto using bound_app.
    + apply chained_handed; [|done]. rewrite Ho. intros i (m & Hm & Hst)%list_elem_of_omap.
      by apply (proj1 (Forall_forall _ _) Hms1 m Hm).
  - split; simpl; auto using leased_in_app.
    + exists ms, tail. rewrite <- Ed. auto using bound_app.
    + apply chained_handed; [|done]. by intros i ?%elem_of_nil.
Qed.

Lemma conveyed_proceed tr s m s' notes :
  conveyed tr s → proceed c worker m s = Some (s', notes) → conveyed (tr ++ notes) s'.
Proof.
  intros Hs. unfold proceed. destruct (coll (rd s)) as [| |now [|e todo]|id name res|ack|k stays|] eqn:Hc; try done.
  - destruct (Protocol.next_message (dec (rd s))) as [[[[]|]|e|] dc]; intros ?; simplify_eq;
      apply (conveyed_same _ _ s); try done; try apply mute_nil; simpl;
      unfold start_flush, after_flush; by repeat case_match.
  - intros ?; simplify_eq. apply (conveyed_same _ _ s); try done. apply mute_nil.
  - intros ?; simplify_eq. apply (conveyed_same _ _ s); try done. apply mute_nil.
  - destruct (call _ _ _) as [[u|e] d]; intros ?; simplify_eq; apply (conveyed_same _ _ s); try done; try apply mute_nil.
    by intros a [= <-].
  - pose proof (co_acking _ _ Hs _ Hc) as Hack.
    assert (∀ s1, s1 = set_wire (set_acks (acks (wire s) ++ [ack]) (wire s)) (set_rd (set_coll Decoding (rd s)) s) → conveyed tr s1) as Hsend.
    { intros s1 ->. destruct Hs. split; simpl; try done. apply Forall_app. split; [done|by apply Forall_singleton]. }
    assert (conveyed tr (set_rd (set_coll Decoding (rd s)) s)) as Hskip.
    { rewrite <- (app_nil_r tr). apply (conveyed_same _ _ s); try done. apply mute_nil. }
    destruct (disp s) eqn:Hp; try (destruct (_ <? _); [|done]); intros ?; simplify_eq; rewrite app_nil_r; auto.
  - case_decide.
    + destruct (flush_call _ _ _ _ _ _) as [went d]. intros ?; simplify_eq. apply (conveyed_same _ _ s); try done.
      destruct went; intros ids; set_solver.
    + intros ?; simplify_eq. apply (conveyed_same _ _ s); try done; [apply mute_nil|]. by destruct stays.
Qed.

Lemma conveyed_next tr s e s' notes :
  bigints tr → conveyed tr s → next c worker s e = Some (s', notes) → conveyed (tr ++ notes) s'.
Proof.
  intros Hbig Hs. pose proof mute_nil as Hn.
  destruct e as [d| |failed| |m|failed| |k| |m| |m|k|sd|k|reported sent|k| |m|];
    try solve [intros E; by eauto using conveyed_forward, conveyed_call, conveyed_write, conveyed_hear];
    pose proof (co_acking _ _ Hs) as Hk; cbn [next]; unfold when.
  - intros ?; simplify_eq. by apply (conveyed_same _ _ s).
  - intros ?; simplify_eq. by apply (conveyed_same _ _ s).
  - destruct (disp s) eqn:Hp, (acks (wire s)); try done. destruct (_ && _); [|done]. intros ?; simplify_eq.
    eapply (conveyed_disp _ _ s); try done; [by intros i ?%elem_of_nil|apply no_frames|unfold returned; by rewrite Hp].
  - destruct (disp s) eqn:Hp; try done. destruct (_ && _); [|done]. intros ?; simplify_eq.
    eapply (conveyed_disp _ _ s); try done; [by intros i ?%elem_of_nil|apply no_frames].
  - destruct (coll (rd s)) eqn:Hc; try done. destruct (_ && _); [|done]. intros ?; simplify_eq. by apply (conveyed_same _ _ s).
  - destruct (coll (rd s)) eqn:Hc; try done. destruct (in_session s); [|done]. intros ?; simplify_eq.
    apply (conveyed_same _ _ s); try done. simpl. unfold start_flush, after_flush. by repeat case_match.
  - destruct (in_session s); [|done]. by apply conveyed_proceed.
  - destruct (coll (rd s)) eqn:Hc; try done. destruct (_ && _); [|done]. intros ?; simplify_eq.
    apply (conveyed_same _ _ s); try done. simpl. unfold start_flush, after_flush. by repeat case_match.
  - destruct (negb _); [|done]. intros ?; simplify_eq. by apply (conveyed_same _ _ s).
  - destruct (_ && _); [|done]. destruct (speaks sd (kid s)) as [kid'|] eqn:Hsp, (ChildProtocol.written sd); intros ?; simplify_eq.
    apply (conveyed_same _ _ s); try done; [intros ids; set_solver|]. simpl.
    destruct sd; simpl in Hsp; try case_decide; by simplify_eq.
  - destruct (_ && _); [|done]. intros ?; simplify_eq. by apply (conveyed_same _ _ s).
  - destruct (_ && _); [|done]. destruct (match sent with Some _ => _ | None => _ end). intros ?; simplify_eq.
    eapply (conveyed_disp _ _ s); try done; [intros x; set_solver|by intros i ?%elem_of_nil|apply no_frames].
  - destruct (_ && _); [|done]. intros ?; simplify_eq. by apply (conveyed_same _ _ s).
  - destruct (disp s) as [| | | | | | |o] eqn:Hp; try done. destruct (coll (rd s)) eqn:Hc; try done. destruct (_ && _); [|done].
    destruct o; intros ?; simplify_eq/=; apply (conveyed_same _ _ s); try done; simpl; rewrite ?Hc, ?Hp; try done; intros x; set_solver.
  - destruct (sup s) as [|held| | |]; try done; [destruct (call _ _ _)|]; intros ?; simplify_eq; by apply (conveyed_same _ _ s).
  - destruct (sup s); try done. destruct (negb _); [|done]. intros ?; simplify_eq. rewrite app_nil_r. destruct Hs.
    split; simpl; try done; [by intros i ?%elem_of_nil|apply no_frames|]. exists [], []. split_and!; [apply frames_nil|done|done].
Qed.

Lemma conveyed_leads d tr s : leads c worker (start c d) tr s → bigints tr → conveyed tr s.
Proof.
  intros H Hb. induction H as [|tr s e s' notes _ IH _ E].
  - split; simpl; try done; [by intros i ?%elem_of_nil|apply no_frames|exists [], []; split_and!; [apply frames_nil|done|done]|].
    by intros [|] ids a E.
  - assert (bigints tr) as Hb' by (intros i Hi; by apply Hb, leased_in_app). by eapply conveyed_next; auto.
Qed.

(** Whatever the interleaving, a child is handed only jobs its supervisor leased
    before: the dispatch frames it reads, however the socket cut them and whatever
    prior steps and acknowledgements are among them, are those of the batches. *)
Lemma handed_was_leased d tr s before ids after i :
  leads c worker (start c d) tr s → bigints tr → tr = before ++ Handed ids :: after → i ∈ ids → leased_in before i.
Proof. intros Hl Hb E Hi. exact (co_chained _ _ (conveyed_leads d tr s Hl Hb) before ids after E i Hi). Qed.

End Dispatch.
End SystemDispatch.
