(* ===== verification/SystemReports.v ===== *)
(** * A job is settled as its child reported

    What the child of a [System] says travels through its socket, the reader's
    decoder and the buffer of reports to the statements of a flush, and nothing
    on the way turns it into anything else. *)

From S2P Require Import Prelude.
From S2P Require Import Utf8.
From S2P Require Import Core.
From S2P Require Import Protocol.
From S2P Require Import ChildProtocol.
From S2P Require Import Schedule.
From S2P Require Import PgTable.
From S2P Require Import PgJobs.
From S2P Require Import PgCron.
From S2P Require Import PgInvariant.
From S2P Require Import PgSteps.
From S2P Require Import PgReach.
From S2P Require Import PgExample.
From S2P Require Import PgFetch.
From S2P Require Import PgSettle.
From S2P Require Import Worker.
From S2P Require Import WorkerLoop.
From S2P Require Import WorkerSafety.
From S2P Require Import WorkerTasks.
From S2P Require Import WorkerOwnership.
From S2P Require Import System.
From S2P Require Import SystemExample.
From S2P Require Import SystemLeases.
From S2P Require Import SystemDispatch.
Import Utf8.
Import Core.
Import Table.
Import Jobs.
Import Cron.
Import Invariant.
Import Steps.
Import Reach.
Import Example.
Import Fetch.
Import Settle.
Import WorkerLoop.
Import WorkerSafety.
Import WorkerTasks.
Import WorkerOwnership.
Import System.
Import SystemExample.
Import SystemLeases.
Import SystemDispatch.

Module SystemReports.

(** ** What statements do to a row they free *)

Section Statements.
Context {Pl : Planner}.
Variable worker : uuid.

Lemma unnest_in {A} ids (vs : list (option A)) i x :
  (i, x) ∈ unnest ids vs → ∃ k, ids !! k = Some i ∧ x = mjoin (vs !! k).
Proof.
  intros (k & Hk)%list_elem_of_lookup. exists k.
  assert (ids !! k = Some i) as Hi by (by rewrite <- (fst_unnest ids vs), list_lookup_fmap, Hk).
  rewrite (unnest_lookup _ _ _ _ Hi) in Hk. by simplify_eq.
Qed.

Lemma unnest_pairs {A} (l : list (Z * A)) i x : (i, x) ∈ unnest l.*1 (Some <$> l.*2) → ∃ v, x = Some v ∧ (i, v) ∈ l.
Proof.
  intros (k & Hi & ->)%unnest_in. rewrite list_lookup_fmap in Hi. apply fmap_Some in Hi as ([i' v] & Hk & ->).
  exists v. rewrite !list_lookup_fmap, Hk. split; [done|]. by eapply list_elem_of_lookup_2.
Qed.

(** A row of the worker's that a statement takes from it. *)
Definition frees (d d' : db) (i : Z) (r r' : job_row) : Prop :=
  jobs d !! i = Some r ∧ held worker r = true ∧ jobs d' !! i = Some r' ∧ held worker r' = false.

Lemma frees_same d i r r' : ¬ frees d d i r r'.
Proof. intros (Hr & Hh & Hr' & Hh'). simplify_eq. by rewrite Hh in Hh'. Qed.

Lemma update_frees f d d' i r r' :
  commit (update f d) = Ok d' → frees d d' i r r' → f i r = Some r'.
Proof.
  intros Ec (Hr & Hh & Hr' & Hh'). rewrite (update_lookup _ _ _ _ _ Ec Hr) in Hr'.
  destruct (f i r) as [r0|]; simplify_eq/=; [done|]. by rewrite Hh in Hh'.
Qed.

Lemma complete_frees now ids rs d n d' i r r' :
  complete now ids rs worker d = Ok (n, d') → frees d d' i r r' →
  ∃ res, (i, res) ∈ unnest ids rs ∧ r' = complete_row now res r.
Proof.
  unfold complete. case_decide; [by intros ? Hf; simplify_eq; apply frees_same in Hf|].
  unfold COMPLETE. destruct (commit _) as [d1|] eqn:Ec; simpl; [|done]. intros ? Hf; simplify_eq.
  pose proof (update_frees _ _ _ _ _ _ Ec Hf) as E. destruct Hf as (Hr & Hh & Hr' & Hh').
  unfold complete_update in E. rewrite Hh in E. destruct (joined _ i) as [res|] eqn:Hj; simplify_eq.
  - exists res. split; [|done]. by apply elem_of_joined.
  - destruct (0 <? _); simplify_eq. change (held worker r = false) in Hh'. by rewrite Hh in Hh'.
Qed.

Lemma retry_frees now random ids errs base cap d n d' i r r' :
  retry_many now random ids errs worker base cap d = Ok (n, d') → frees d d' i r r' →
  ∃ e, (i, e) ∈ unnest ids (Some <$> errs) ∧
    r' = if attempts_left r then retry_row now base cap (random i) e r else discard_row now e r.
Proof.
  unfold retry_many. case_decide; [by intros ? Hf; simplify_eq; apply frees_same in Hf|].
  destruct (RETRY_MANY _ _ _ _ _ _ _) as [[[? ?] d1]|] eqn:E; intros ? Hf; simplify_eq/=.
  unfold RETRY_MANY in E. destruct (existsb _ _); [done|]. destruct (commit _) as [d1|] eqn:Ec; simplify_eq/=.
  pose proof (update_frees _ _ _ _ _ _ Ec Hf) as E. destruct Hf as (Hr & Hh & Hr' & Hh').
  cbv beta in E. rewrite Hh in E. destruct (joined _ i) as [e|] eqn:Hj; [|done].
  exists e. split; [by apply elem_of_joined|]. destruct (attempts_left r); by simplify_eq.
Qed.

Lemma discard_frees now ids errs d n d' i r r' :
  discard_many now ids errs worker d = Ok (n, d') → frees d d' i r r' →
  ∃ e, (i, e) ∈ unnest ids (Some <$> errs) ∧ r' = discard_row now e r.
Proof.
  unfold discard_many. case_decide; [by intros ? Hf; simplify_eq; apply frees_same in Hf|].
  destruct (DISCARD_MANY _ _ _ _) as [[[? ?] d1]|] eqn:E; intros ? Hf; simplify_eq/=.
  unfold DISCARD_MANY in E. destruct (commit _) as [d1|] eqn:Ec; simplify_eq/=.
  pose proof (update_frees _ _ _ _ _ _ Ec Hf) as E. destruct Hf as (Hr & Hh & Hr' & Hh').
  cbv beta in E. rewrite Hh in E. destruct (joined _ i) as [e|] eqn:Hj; simplify_eq; [exists e; split; [by apply elem_of_joined|done]|].
  apply held_running in Hh. destruct (_ && _) eqn:Ea; [|done]. apply andb_prop in Ea as [_ Ea].
  apply bool_decide_eq_true in Ea. congruence.
Qed.

(** Renewals and hand-backs of leases free nothing; a sweep frees what lapsed. *)
Lemma renew_frees now ids lease d n d' i r r' : renew_leases now ids worker lease d = Ok (n, d') → ¬ frees d d' i r r'.
Proof.
  unfold renew_leases. case_decide; [by intros ? Hf; simplify_eq; apply frees_same in Hf|].
  unfold RENEW. destruct (commit _) as [d1|] eqn:Ec; simpl; [|done]. intros ? Hf; simplify_eq.
  pose proof (update_frees _ _ _ _ _ _ Ec Hf) as E. destruct Hf as (Hr & Hh & Hr' & Hh').
  cbv beta in E. destruct (_ && _); simplify_eq. change (held worker r = false) in Hh'. by rewrite Hh in Hh'.
Qed.

Lemma abandon_frees now ids d n d' i r r' : abandon_leases now ids worker d = Ok (n, d') → ¬ frees d d' i r r'.
Proof.
  unfold abandon_leases. case_decide; [by intros ? Hf; simplify_eq; apply frees_same in Hf|].
  unfold ABANDON. destruct (commit _) as [d1|] eqn:Ec; simpl; [|done]. intros ? Hf; simplify_eq.
  pose proof (update_frees _ _ _ _ _ _ Ec Hf) as E. destruct Hf as (Hr & Hh & Hr' & Hh').
  cbv beta in E. destruct (_ && _); simplify_eq. change (held worker r = false) in Hh'. by rewrite Hh in Hh'.
Qed.

Lemma reclaim_frees now n d k d' i r r' :
  reclaim_expired now n d = Ok (k, d') → frees d d' i r r' →
  lapsed now r = true ∧
  r' = if attempts_left r then release_lease_row r else discard_row now (Some lease_expired_text) r.
Proof.
  unfold reclaim_expired, RECLAIM. intros [_ H]%negative_limit. destruct (commit _) as [d1|] eqn:Ec; simplify_eq/=.
  intros Hf. pose proof (update_frees _ _ _ _ _ _ Ec Hf) as E. destruct Hf as (Hr & Hh & Hr' & Hh').
  cbv beta in E. case_decide as Hi; simplify_eq. split; [by eapply expired_lapsed|done].
Qed.

Lemma lease_frees now lease chosen d l d' i r r' :
  leased_to now worker lease chosen d l d' → ¬ frees d d' i r r'.
Proof.
  intros [_ Hj] (Hr & Hh & Hr' & Hh'). rewrite Hj, Hr in Hr'. simpl in Hr'. case_decide; simplify_eq; [|congruence].
  unfold held in Hh'. simpl in Hh'. by rewrite bool_decide_true in Hh' by done.
Qed.

(** ** A flush frees as reported *)

Definition flush_statement (c : Worker.Config) (k : nat) (m : moment) (p : Worker.Pending) (d d' : db) : Prop :=
  match k with
  | 0%nat => ∃ n, complete_many (at_time m) (Worker.p_completed p) worker d = Ok (n, d')
  | 1%nat => ∃ n, complete_many_with_results (at_time m) (Worker.with_result p) (Worker.results p) worker d = Ok (n, d')
  | 2%nat => ∃ n, retry_many (at_time m) (draw m) (Worker.p_retry p) (Worker.retry_errors p) worker
                    (Worker.retry_base c) (Worker.retry_cap c) d = Ok (n, d')
  | _ => ∃ n, discard_many (at_time m) (Worker.terminal p) (Worker.terminal_errors p) worker d = Ok (n, d')
  end.

Lemma solo_call {A} m (st : db → Prelude.result db_error (A * db)) d :
  (call (solo m) st d).2 = d ∨ ∃ a, st d = Ok (a, (call (solo m) st d).2).
Proof. destruct (call_solo m st d) as [(a & d' & -> & E)|[(e & a & d' & -> & E & _)|[e ->]]]; eauto. Qed.

Lemma flush_call_runs c k m p d :
  (flush_call c worker k m p d).2 = d ∨ flush_statement c k m p d (flush_call c worker k m p d).2.
Proof.
  destruct k as [|[|[|k]]]; simpl;
    match goal with |- context [call (solo m) ?st d] => pose proof (solo_call m st d) end; by destruct (call _ _ _).
Qed.

Lemma flush_frees c reports k m p d d' i r r' :
  Worker.sorted reports p → flush_statement c k m p d d' → frees d d' i r r' →
  ∃ o, (i, o) ∈ reports ∧ WorkerSafety.settles o r r'.
Proof.
  intros [H1 H2 H3 H4 H5 H6 H7] Hst Hf.
  destruct k as [|[|[|k]]]; destruct Hst as [n E].
  - destruct (complete_frees _ _ _ _ _ _ _ _ _ E Hf) as (res & Hin & ->). apply unnest_in in Hin as (j & Hj & ->).
    exists (Protocol.Success []). split.
    + rewrite H1 in Hj. apply list_elem_of_lookup_2, list_elem_of_omap in Hj as ([i' [[|b bs]|e rt]] & Hin & Hp); cbv in Hp; by simplify_eq.
    + split_and!; try done. simpl. destruct (replicate _ _ !! j) as [x|] eqn:Ex; [|done].
      by apply lookup_replicate in Ex as [-> _].
  - destruct (complete_frees _ _ _ _ _ _ _ _ _ E Hf) as (res & Hin & ->). rewrite H2, H3 in Hin.
    apply unnest_pairs in Hin as (v & -> & Hin). exists (Protocol.Success v).
    assert ((i, Protocol.Success v) ∈ reports ∧ v ≠ []) as [? Hv].
    { apply list_elem_of_omap in Hin as ([i' [[|b bs]|e rt]] & Hin & Hp); cbv in Hp; by simplify_eq. }
    split; [done|]. split_and!; try done. simpl. by rewrite decide_False.
  - destruct (retry_frees _ _ _ _ _ _ _ _ _ _ _ _ E Hf) as (e & Hin & ->). rewrite H4, H5 in Hin.
    apply unnest_pairs in Hin as (v & -> & Hin). exists (Protocol.Failure v true). split.
    { apply list_elem_of_omap in Hin as ([i' [[|b bs]|e []]] & Hin & Hp); cbv in Hp; by simplify_eq. }
    destruct (attempts_left r) eqn:Ea; split_and!; try done; simpl; rewrite ?Ea; eauto.
  - destruct (discard_frees _ _ _ _ _ _ _ _ _ E Hf) as (e & Hin & ->). rewrite H6, H7 in Hin.
    apply unnest_pairs in Hin as (v & -> & Hin). exists (Protocol.Failure v false). split.
    { apply list_elem_of_omap in Hin as ([i' [[|b bs]|e []]] & Hin & Hp); cbv in Hp; by simplify_eq. }
    split_and!; try done. simpl. eauto.
Qed.

End Statements.
(** ** Frames *)

Section Frames.
Context {R : Protocol.RmpSerde} {M : ChildProtocol.Msgspec}.

#[local] Opaque to_le_bytes.

(** What a child writes is one frame, whose body can only be read as the report it
    is, if it is a report. *)
Lemma written_frame x f :
  ChildProtocol.written x = Ok f →
  ∃ b, f = to_le_bytes 4 (len b) ++ b ∧ in_unsigned 32 (len b) ∧
    ∀ i o, Protocol.decode_body b = Ret (Protocol.Complete i o) → ChildProtocol.means x = Protocol.Complete i o.
Proof.
  assert (∀ id code tail, ChildProtocol.pack_complete (ChildProtocol.COMPLETE_BODY_BYTES + len tail) id code ≫=
    (λ head, Ok (head ++ tail)) = Ok f → in_signed 64 id ∧
    let b := Protocol.KIND_COMPLETE :: to_le_bytes 8 id ++ code :: tail in
    f = to_le_bytes 4 (len b) ++ b ∧ in_unsigned 32 (len b)) as Hpack.
  { intros id code tail. unfold ChildProtocol.pack_complete. case_decide as H; [|done]. destruct H as [Hn Hid].
    cbn [mbind result_bind]. intros [= <-]. split; [done|]. cbv zeta.
    replace (len (Protocol.KIND_COMPLETE :: to_le_bytes 8 id ++ code :: tail)) with (ChildProtocol.COMPLETE_BODY_BYTES + len tail)
      by (rewrite len_cons, len_app, len_cons, len_to_le_bytes; unfold ChildProtocol.COMPLETE_BODY_BYTES; lia).
    split; [|done]. rewrite <- !app_assoc. cbn [app]. by rewrite <- !app_assoc. }
  assert (∀ kind packed, ChildProtocol.pack_length (len (kind :: packed)) ≫= (λ head, Ok (head ++ kind :: packed)) = Ok f →
    f = to_le_bytes 4 (len (kind :: packed)) ++ kind :: packed ∧ in_unsigned 32 (len (kind :: packed))) as Hlen.
  { intros kind packed. unfold ChildProtocol.pack_length. case_decide; [|done]. cbn [mbind result_bind]. by intros [= <-]. }
  destruct x as [es|id name res|id res|id error retry]; simpl; intros H.
  - destruct (Hlen _ _ H) as [-> ?]. eexists. split_and!; [done..|]. intros i o. simpl. by destruct (Protocol.unpack _).
  - destruct (Hlen _ _ H) as [-> ?]. eexists. split_and!; [done..|]. intros i o. simpl. by destruct (Protocol.unpack _).
  - destruct (Hpack _ _ _ H) as (Hid & -> & ?). eexists. split_and!; [done..|]. intros i o. cbn [Protocol.decode_body].
    rewrite !decide_False, decide_True, Protocol.decode_complete_body, decide_True by done. by intros [= <- <-].
  - destruct (Hpack _ _ _ H) as (Hid & -> & ?). eexists. split_and!; [done..|]. intros i o. cbn [Protocol.decode_body].
    rewrite !decide_False, decide_True, Protocol.decode_complete_body by done.
    destruct (from_utf8 _) as [e|] eqn:He; [|by destruct retry].
    unfold from_utf8 in He. destruct (chars _); simplify_eq. destruct retry; by intros [= <- <-].
Qed.

(** So the frame at the front of a stream, once it is all there, is taken whole. *)
Lemma written_taken x f b k k' m rest :
  ChildProtocol.written x = Ok f → b ++ k' = f ++ k → Protocol.parse b = Protocol.Frame m rest →
  rest ++ k' = k ∧ ∀ i o, m = Protocol.Complete i o → ChildProtocol.means x = Protocol.Complete i o.
Proof.
  intros (body & -> & Hn & Hm)%written_frame E Hp. pose proof (Protocol.parse_app b k') as H. rewrite Hp, E in H.
  rewrite <- app_assoc in H. destruct (decide (len body <= Protocol.MAX_FRAME_BYTES)) as [Hmax|Hmax].
  - rewrite ChildProtocol.parse_body in H by done.
    destruct (Protocol.decode_body body) as [m'|e|] eqn:Ed; simplify_eq. split; [done|]. intros i o ->. by apply Hm.
  - unfold Protocol.parse, Protocol.HEADER_BYTES in H. pose proof (len_to_le_bytes 4 (len body)) as L4. change (Z.of_nat 4) with 4 in L4.
    rewrite !len_app, L4 in H. pose proof (len_nonneg body). pose proof (len_nonneg k).
    destruct (Z.ltb_spec (4 + (len body + len k)) 4); [done|].
    rewrite (take_app_length' _ _ 4) in H by (apply Nat2Z.inj; exact (eq_sym L4)).
    rewrite from_le_unsigned_to_le in H by done. destruct (Z.ltb_spec Protocol.MAX_FRAME_BYTES (len body)); [done|lia].
Qed.

End Frames.

(** ** From the child to the buffer of reports *)

Section Reports.
Context {Pl : Planner} {R : Protocol.RmpSerde} {C : Schedule.CronCrate} {M : ChildProtocol.Msgspec}.
Variables (c : Worker.Config) (worker : uuid).

(** The child read a dispatch of [i]; it said [x], a report only on a job it had
    read before; and [o] is what it reported on [i]. *)
Definition handed (tr : list note) (i : Z) : Prop := ∃ ids, Handed ids ∈ tr ∧ i ∈ ids.
Definition spoken (tr : list note) (x : ChildProtocol.said) : Prop :=
  ∃ before after, tr = before ++ Said x :: after ∧
    ∀ i o, ChildProtocol.means x = Protocol.Complete i o → handed before i.
Definition reported (tr : list note) (i : Z) (o : Protocol.Outcome) : Prop :=
  ∃ x, spoken tr x ∧ ChildProtocol.means x = Protocol.Complete i o.

Lemma handed_app tr notes i : handed tr i → handed (tr ++ notes) i.
Proof. intros (ids & ? & ?). exists ids. rewrite elem_of_app. auto. Qed.

Lemma spoken_app tr notes x : spoken tr x → spoken (tr ++ notes) x.
Proof. intros (b & a & -> & ?). exists b, (a ++ notes). by rewrite <- app_assoc. Qed.

Lemma reported_app tr notes i o : reported tr i o → reported (tr ++ notes) i o.
Proof. intros (x & ? & ?). exists x. auto using spoken_app. Qed.

(** The jobs the child runs were handed to it; the bytes on their way to the
    reader, with those that died with the child, are frames of what it said; and
    the buffer holds reports. *)
Record relayed (tr : list note) (s : system) : Prop := {
  re_runs i : i ∈ runs (kid s) → handed tr i;
  re_dec : Protocol.decoder_ok (dec (rd s));
  re_up : ∃ ss frames tail, Forall2 (λ x f, ChildProtocol.written x = Ok f) ss frames ∧ Forall (spoken tr) ss ∧
    Protocol.pending (dec (rd s)) ++ up (wire s) ++ tail = concat frames ∧ (alive (kid s) = true → tail = []);
  re_pend : ∃ reports, Worker.sorted reports (pend (rd s)) ∧ Forall (λ r, reported tr r.1 r.2) reports
}.

Lemma relayed_same tr notes s s' :
  relayed tr s → kid s' = kid s → dec (rd s') = dec (rd s) → pend (rd s') = pend (rd s) → up (wire s') = up (wire s) →
  relayed (tr ++ notes) s'.
Proof.
  intros [Hruns Hdec (ss & frames & tail & Hf & Hss & Hc & Ht) (reports & Hs & Hr)] E1 E2 E3 E4.
  split; rewrite ?E1, ?E2, ?E3, ?E4; auto using handed_app.
  - exists ss, frames, tail. split_and!; try done. eapply Forall_impl; eauto using spoken_app.
  - exists reports. split; [done|]. eapply Forall_impl; [done|]. intros r. apply reported_app.
Qed.

(** One more message taken from the decoder. *)
Lemma relayed_taken tr s m dc p armed' place :
  relayed tr s → Protocol.next_message (dec (rd s)) = (Ret (Some m), dc) →
  p = match m with Protocol.Complete i o => Worker.push i o (pend (rd s)) | _ => pend (rd s) end →
  relayed tr (set_rd {| dec := dc; pend := p; armed := armed'; coll := place |} s).
Proof.
  intros [Hruns Hdec (ss & frames & tail & Hf & Hss & Hc & Ht) (reports & Hs & Hr)] Hn ->.
  pose proof (Protocol.next_message_answers _ Hdec) as Ha. unfold Protocol.answers in Ha.
  destruct (Protocol.parse (Protocol.pending (dec (rd s)))) as [|e|m' rest] eqn:Hp; try congruence.
  destruct Ha as (d' & Hd' & Hrest & Hok & _). rewrite Hn in Hd'. simplify_eq.
  destruct Hf as [|x f ss frames Hx Hf].
  { apply app_nil in Hc as [Hnil _]. by rewrite Hnil in Hp. }
  apply Forall_cons in Hss as [Hsx Hss].
  destruct (written_taken x f _ (concat frames) (up (wire s) ++ tail) _ _ Hx Hc Hp) as [Hk Hm].
  split; simpl; auto.
  - exists ss, frames, tail. by rewrite Hk.
  - destruct m' as [| | | | |i o]; eauto. exists (reports ++ [(i, o)]). split; [by apply (Worker.push_sorted _ _ (i, o))|].
    apply Forall_app. split; [done|]. apply Forall_singleton. exists x. auto.
Qed.

(** A decoder that has no message to give keeps what it has. *)
Lemma next_message_stuck d v d' :
  Protocol.decoder_ok d → Protocol.next_message d = (v, d') → (∀ m, v ≠ Ret (Some m)) → d' = d.
Proof.
  intros Hok E Hv. pose proof (Protocol.next_message_answers d Hok) as Ha. unfold Protocol.answers in Ha. rewrite E in Ha.
  destruct (Protocol.parse _); naive_solver.
Qed.

Lemma flush_keeps_dec stays r : dec (start_flush stays r) = dec r.
Proof. unfold start_flush, after_flush. by repeat case_match. Qed.

Lemma flush_keeps_pend stays r : pend (start_flush stays r) = pend r.
Proof. unfold start_flush, after_flush. by repeat case_match. Qed.

Lemma relayed_proceed tr s m s' notes :
  relayed tr s → proceed c worker m s = Some (s', notes) → relayed (tr ++ notes) s'.
Proof.
  intros Hs. unfold proceed. destruct (coll (rd s)) as [| |now [|e todo]|id name res|ack|k stays|] eqn:Hc; try done.
  - destruct (Protocol.next_message (dec (rd s))) as [v dc] eqn:E. pose proof (re_dec _ _ Hs) as Hok.
    destruct v as [[m'|]|e|].
    + intros H. assert (notes = []) as -> by (destruct m'; by simplify_eq). rewrite app_nil_r.
      destruct m'; simplify_eq; by eapply relayed_taken.
    + apply next_message_stuck in E as ->; [|done..]. intros ?; simplify_eq.
      apply (relayed_same _ _ s); try done; simpl; case_match; try done; by rewrite ?flush_keeps_dec, ?flush_keeps_pend.
    + apply next_message_stuck in E as ->; [|done..]. intros ?; simplify_eq.
      apply (relayed_same _ _ s); try done; simpl; by rewrite ?flush_keeps_dec, ?flush_keeps_pend.
    + apply next_message_stuck in E as ->; [|done..]. intros ?; simplify_eq.
      apply (relayed_same _ _ s); try done; simpl; by rewrite ?flush_keeps_dec, ?flush_keeps_pend.
  - intros ?; simplify_eq. by apply (relayed_same _ _ s).
  - intros ?; simplify_eq. by apply (relayed_same _ _ s).
  - destruct (call _ _ _). intros ?; simplify_eq. by apply (relayed_same _ _ s).
  - destruct (disp s); try (destruct (_ <? _); [|done]); intros ?; simplify_eq; by apply (relayed_same _ _ s).
  - case_decide.
    + destruct (flush_call _ _ _ _ _ _) as [went d]. intros ?; simplify_eq. by apply (relayed_same _ _ s).
    + intros ?; simplify_eq. rewrite app_nil_r. destruct Hs. split; simpl; try done; [by destruct stays..|].
      exists []. split; [|constructor]. by destruct stays.
Qed.

Lemma relayed_say tr s x s' notes :
  relayed tr s → next c worker s (Say x) = Some (s', notes) → relayed (tr ++ notes) s'.
Proof.
  intros [Hruns Hdec (ss & frames & tail & Hf & Hss & Hc & Ht) (reports & Hs & Hr)]. cbn [next]. unfold when.
  destruct (in_session s && alive (kid s)) eqn:Hg; [|done]. apply andb_prop in Hg as [_ Ha].
  rewrite (Ht Ha), app_nil_r in Hc.
  destruct (speaks x (kid s)) as [kid'|] eqn:Hk, (ChildProtocol.written x) as [f|] eqn:Hx; intros ?; simplify_eq.
  assert (alive kid' = true ∧ (∀ i, i ∈ runs kid' → i ∈ runs (kid s)) ∧
    ∀ i o, ChildProtocol.means x = Protocol.Complete i o → i ∈ runs (kid s)) as (Ha' & Hsub & Hin).
  { assert (∀ i l j, j ∈ remove_first i l → j ∈ l) as Hrem.
    { intros i l j. induction l as [|k l IH]; simpl; [done|]. case_decide; rewrite !elem_of_cons; naive_solver. }
    destruct x as [es|id name res|id res|id error retry]; simpl in Hk; try case_decide; simplify_eq/=;
      split_and!; try done; eauto; intros i o [= <- _]; done. }
  assert (spoken (tr ++ [Said x]) x) as Hsp.
  { exists tr, []. split; [done|]. intros i o Hm. apply Hruns. by eapply Hin. }
  split; simpl; auto using handed_app.
  - exists (ss ++ [x]), (frames ++ [f]), []. split_and!; try done.
    + apply Forall2_app; [done|]. by repeat constructor.
    + apply Forall_app. split; [eapply Forall_impl; eauto using spoken_app|by apply Forall_singleton].
    + rewrite concat_app. simpl. rewrite !app_nil_r, <- Hc. by rewrite app_assoc.
  - exists reports. split; [done|]. eapply Forall_impl; [done|]. intros r. apply reported_app.
Qed.

(** The child and the wire, changed in what they may lose or have read. *)
Lemma relayed_wire tr notes s s' :
  relayed tr s → pend (rd s') = pend (rd s) → (∀ i, i ∈ runs (kid s') → i ∈ runs (kid s) ∨ handed notes i) →
  Protocol.decoder_ok (dec (rd s')) →
  (∃ lost, Protocol.pending (dec (rd s)) ++ up (wire s) = Protocol.pending (dec (rd s')) ++ up (wire s') ++ lost ∧
     (alive (kid s') = true → lost = [] ∧ alive (kid s) = true)) →
  relayed (tr ++ notes) s'.
Proof.
  intros [Hruns Hdec (ss & frames & tail & Hf & Hss & Hc & Ht) (reports & Hs & Hr)] Ep Hk Hok (lost & Hl & Ha).
  split; rewrite ?Ep; auto.
  - intros i [?|(ids & ? & ?)]%Hk; [auto using handed_app|]. exists ids. rewrite elem_of_app. auto.
  - exists ss, frames, (lost ++ tail). split_and!; try done.
    + eapply Forall_impl; eauto using spoken_app.
    + rewrite <- Hc, (app_assoc _ (up (wire s))), Hl. by rewrite <- !app_assoc.
    + intros [-> ?]%Ha. auto.
  - exists reports. split; [done|]. eapply Forall_impl; [done|]. intros r. apply reported_app.
Qed.

Lemma relayed_hear tr s k s' notes :
  relayed tr s → next c worker s (Hear k) = Some (s', notes) → relayed (tr ++ notes) s'.
Proof.
  intros Hs. cbn [next]. unfold when. destruct (_ && _) eqn:Hg; [|done].
  apply andb_prop in Hg as [Hg _]. apply andb_prop in Hg as [_ Ha]. unfold hear.
  destruct (ChildProtocol.drain _) as [[ms rest]|e]; intros ?; simplify_eq;
    (apply (relayed_wire _ _ s); simpl; [done|done| |apply Hs|exists []; by rewrite app_nil_r]).
  - intros i [?|?]%elem_of_app; [by left|right]. eexists. split; [left|done].
  - auto.
Qed.

Lemma relayed_next tr s e s' notes :
  relayed tr s → next c worker s e = Some (s', notes) → relayed (tr ++ notes) s'.
Proof.
  intros Hs.
  destruct e as [d| |failed| |m|failed| |k| |m| |m|k|sd|k|reported sent|k| |m|];
    try solve [intros E; by eauto using relayed_say, relayed_hear]; cbn [next]; unfold when.
  - intros ?; simplify_eq. by apply (relayed_same _ _ s).
  - intros ?; simplify_eq. by apply (relayed_same _ _ s).
  - destruct (disp s), (acks (wire s)); try done. destruct (in_session s); [|done].
    destruct (Protocol.encode _ _) as [[u|e] buf], failed as [[k why]|]; intros ?; simplify_eq; by apply (relayed_same _ _ s).
  - destruct (disp s), (acks (wire s)); try done. destruct (_ && _); [|done]. intros ?; simplify_eq. by apply (relayed_same _ _ s).
  - intros E. destruct (call_next _ _ s m s' notes E) as [_ [(buf & reserved & _ & -> & ->)|(p' & d & _ & ->)]];
      [case_decide|]; by apply (relayed_same _ _ s).
  - destruct (disp s); try done. destruct failed as [[k why]|], (in_session s); intros ?; simplify_eq; by apply (relayed_same _ _ s).
  - destruct (disp s); try done. destruct (_ && _); [|done]. intros ?; simplify_eq. by apply (relayed_same _ _ s).
  - destruct (coll (rd s)); try done. destruct (_ && _); [|done]. intros ?; simplify_eq.
    pose proof (re_dec _ _ Hs) as Hok. apply (relayed_wire _ _ s); simpl; auto using Protocol.decoder_ok_extend.
    exists []. rewrite Protocol.pending_extend, app_nil_r, <- app_assoc, take_drop by done. auto.
  - destruct (coll (rd s)); try done. destruct (in_session s); [|done]. intros ?; simplify_eq.
    apply (relayed_same _ _ s); simpl; auto using flush_keeps_dec, flush_keeps_pend.
  - destruct (in_session s); [|done]. by apply relayed_proceed.
  - destruct (coll (rd s)); try done. destruct (_ && _); [|done]. intros ?; simplify_eq.
    apply (relayed_same _ _ s); simpl; auto using flush_keeps_dec, flush_keeps_pend.
  - destruct (negb _); [|done]. intros ?; simplify_eq. by apply (relayed_same _ _ s).
  - destruct (_ && _); [|done]. intros ?; simplify_eq. apply (relayed_wire _ _ s); simpl; auto; [apply Hs|].
    exists (drop k (up (wire s))). by rewrite take_drop.
  - destruct (_ && _); [|done]. destruct (match sent with Some _ => _ | None => _ end). intros ?; simplify_eq.
    by apply (relayed_same _ _ s).
  - destruct (_ && _); [|done]. intros ?; simplify_eq. apply (relayed_wire _ _ s); simpl; auto; [apply Hs|].
    exists (drop k (up (wire s))). by rewrite take_drop.
  - destruct (disp s) as [| | | | | | |o], (coll (rd s)); try done. destruct (_ && _); [|done].
    destruct o; intros ?; simplify_eq/=; by apply (relayed_same _ _ s).
  - destruct (sup s) as [|held| | |]; try done; [destruct (call _ _ _)|]; intros ?; simplify_eq; by apply (relayed_same _ _ s).
  - destruct (sup s); try done. destruct (negb _); [|done]. intros ?; simplify_eq. split; simpl.
    + by intros i ?%elem_of_nil.
    + done.
    + exists [], [], []. split_and!; try done; constructor.
    + exists []. split; [done|constructor].
Qed.

Lemma relayed_leads d tr s : leads c worker (start c d) tr s → relayed tr s.
Proof.
  intros H. induction H as [|tr s e s' notes _ IH _ E]; [|by eapply relayed_next].
  split; simpl; [by intros i ?%elem_of_nil|done|exists [], [], []; split_and!; try done; constructor|exists []; split; [done|constructor]].
Qed.

(** ** Which statements free a job *)

Lemma solo_frees {A} m (st : db → Prelude.result db_error (A * db)) d (P : Prop) i r r' :
  (∀ a d', st d = Ok (a, d') → frees worker d d' i r r' → P) →
  frees worker d (call (solo m) st d).2 i r r' → P.
Proof. intros H. destruct (solo_call m st d) as [->|[a E]]; [by intros ?%frees_same|eauto]. Qed.

Lemma unkeyed_frees m n d a d' i r r' :
  db_ok d → unkeyed c worker m n d = Ok (a, d') → ¬ frees worker d d' i r r'.
Proof.
  intros Hd E. destruct a. apply unkeyed_took in E as (_ & _ & chosen & _ & Hl). by eapply lease_frees.
Qed.

Lemma keyed_frees m n d a d' i r r' :
  db_ok d → keyed_pass c worker m n d = Ok (a, d') → ¬ frees worker d d' i r r'.
Proof.
  intros Hd E. apply keyed_took in E as [_ Hl]. by eapply lease_frees.
Qed.

(** A dispatcher frees the job it cannot send, and no other. *)
Definition unsendable (p : dispatcher) (i : Z) (r r' : job_row) : Prop :=
  ∃ j e todo buf reserved at_, p = Discarding j e todo buf reserved ∧ i = job_id j ∧
    r' = discard_row at_ (Some (describe e)) r.

Lemma discarding_frees m j e d a d' i r r' :
  discard_many (at_time m) [job_id j] [describe e] worker d = Ok (a, d') → frees worker d d' i r r' →
  i = job_id j ∧ r' = discard_row (at_time m) (Some (describe e)) r.
Proof.
  intros E Hf. destruct (discard_frees _ _ _ _ _ _ _ _ _ _ E Hf) as (x & Hin & ->).
  apply (unnest_pairs [(job_id j, describe e)]) in Hin as (v & -> & Hin%list_elem_of_singleton). by simplify_eq.
Qed.

Lemma dispatch_frees m rdr p d p' d' notes i r r' :
  db_ok d → dispatch_call c worker m rdr p d = Some (p', d', notes) → frees worker d d' i r r' → unsendable p i r r'.
Proof.
  intros Hd E Hf. destruct p as [|n|n|rows spare|[|j todo] buf reserved|j e todo buf reserved|buf|o]; try done.
  - cbn [dispatch_call] in E. destruct (call _ _ _) as [v d1] eqn:Ec.
    assert (d1 = d') as -> by (destruct v as [[]|]; by simplify_eq).
    assert (frees worker d (call (solo m) (unkeyed c worker m n) d).2 i r r') as Hf' by (by rewrite Ec).
    exfalso. eapply solo_frees; [|exact Hf']. intros a d2. by apply unkeyed_frees.
  - cbn [dispatch_call] in E. unfold call, deliver in E. simpl in E.
    destruct (link m); [destruct (KEYED_WAITING _ _ _)|..]; simplify_eq; by apply frees_same in Hf.
  - cbn [dispatch_call] in E. destruct (call _ _ _) as [v d1] eqn:Ec.
    assert (d1 = d') as -> by (destruct v; by simplify_eq).
    assert (frees worker d (call (solo m) (keyed_pass c worker m spare) d).2 i r r') as Hf' by (by rewrite Ec).
    exfalso. eapply solo_frees; [|exact Hf']. intros a d2. by apply keyed_frees.
  - apply preparing_call in E as (-> & _). by apply frees_same in Hf.
  - cbn [dispatch_call] in E. destruct (call _ _ _) as [v d1] eqn:Ec.
    assert (d1 = d') as -> by (destruct v; by simplify_eq).
    assert (frees worker d (call (solo m) (discard_many (at_time m) [job_id j] [describe e] worker) d).2 i r r') as Hf' by (by rewrite Ec).
    eapply solo_frees; [|exact Hf']. intros a d2 E2 [-> ->]%(discarding_frees _ _ _ _ _ _ _ _ _ E2).
    by exists j, e, todo, buf, reserved, (at_time m).
Qed.

Lemma cancelled_frees m p d i r r' :
  db_ok d → frees worker d (sent_anyway c worker m p d).2 i r r' → unsendable p i r r'.
Proof.
  intros Hd. unfold sent_anyway. set (lost := {| around := _ |}). change lost with (solo lost).
  destruct p as [|n|n|rows spare|todo buf reserved|j e todo buf reserved|buf|o]; simpl; try by intros ?%frees_same.
  - apply solo_frees. intros a d2 E H. by destruct (unkeyed_frees _ _ _ _ _ _ _ _ Hd E H).
  - apply solo_frees. intros a d2 E H. by destruct (keyed_frees _ _ _ _ _ _ _ _ Hd E H).
  - apply solo_frees. intros a d2 E [-> ->]%(discarding_frees _ _ _ _ _ _ _ _ _ E).
    by exists j, e, todo, buf, reserved, (at_time m).
Qed.

Lemma frees_jobs d d' i r r' : jobs d' = jobs d → ¬ frees worker d d' i r r'.
Proof. intros E (Hr & Hh & Hr' & Hh'). rewrite E in Hr'. simplify_eq. by rewrite Hh in Hh'. Qed.

Lemma proceed_frees m s s' notes i r r' :
  db_ok (store s) → proceed c worker m s = Some (s', notes) → frees worker (store s) (store s') i r r' →
  ∃ k, flush_statement worker c k m (pend (rd s)) (store s) (store s').
Proof.
  intros Hd. unfold proceed. destruct (coll (rd s)) as [| |now [|e todo]|id name res|ack|k stays|] eqn:Hc; try done.
  - destruct (Protocol.next_message _) as [[[[]|]|e|] dc]; intros ? Hf; simplify_eq; by apply frees_same in Hf.
  - intros ? Hf; simplify_eq. by apply frees_same in Hf.
  - intros ? Hf; simplify_eq. apply frees_jobs in Hf; [done|]. by apply register_one_keeps.
  - destruct (call _ _ _) as [v d1] eqn:Ec. intros ?; simplify_eq. simpl. change d1 with ((v, d1).2). rewrite <- Ec.
    apply solo_frees. intros a d2 E Hf. apply frees_jobs in Hf; [done|].
    destruct (record_step _ _ _ _ _) eqn:E3; simplify_eq/=. by eapply record_step_jobs.
  - destruct (disp s); try (destruct (_ <? _); [|done]); intros ? Hf; simplify_eq; by apply frees_same in Hf.
  - case_decide; [|intros ? Hf; simplify_eq; by apply frees_same in Hf].
    pose proof (flush_call_runs worker c k m (pend (rd s)) (store s)) as Hrun.
    destruct (flush_call _ _ _ _ _ _) as [went d1]. intros ? Hf; simplify_eq. simpl in *.
    destruct Hrun as [->|?]; [by apply frees_same in Hf|eauto].
Qed.

(** What frees a job, of all that may happen. *)
Lemma event_frees s e s' notes i r r' :
  db_ok (store s) → (∀ d', e ≠ Elsewhere d') → next c worker s e = Some (s', notes) →
  frees worker (store s) (store s') i r r' →
  (∃ k m, flush_statement worker c k m (pend (rd s)) (store s) (store s')) ∨
  unsendable (disp s) i r r' ∨
  (∃ m, e = HandBack m ∧ sup s = Reclaiming ∧ lapsed (at_time m) r = true ∧ state r' ≠ completed).
Proof.
  intros Hd He E Hf.
  assert (store s' = store s → False) as Hsame by (intros Es; rewrite Es in Hf; by apply frees_same in Hf).
  destruct e as [d| |failed| |m|failed| |k| |m| |m|k|sd|k|reported sent|k| |m|]; [by destruct (He d)|..]; revert E.
  4: { intros [_ [(buf & reserved & _ & -> & ->)|(p' & d & E & ->)]]%call_next;
         [by case_decide; destruct Hsame|right; left; by eapply dispatch_frees]. }
  all: cbn [next]; unfold when.
  all: try solve [repeat (case_match; try done); intros ?; simplify_eq; by destruct Hsame].
  - destruct (in_session s); [|done]. intros E. left. destruct (proceed_frees _ _ _ _ _ _ _ Hd E Hf). eauto.
  - destruct (negb _); [|done]. intros ?; simplify_eq. exfalso. revert Hf. unfold renew_tick. simpl.
    case_decide; [apply frees_same|]. apply solo_frees. intros a d'. by apply renew_frees.
  - destruct (_ && _); [|done]. destruct sent as [m|]; [|intros ?; simplify_eq; by destruct Hsame].
    destruct (sent_anyway _ _ _ _ _) as [ids d] eqn:Es. intros ?; simplify_eq. right. left.
    apply (cancelled_frees m _ (store s)); [done|]. by rewrite Es.
  - destruct (sup s) as [|held| | |] eqn:Hsup; try done.
    + destruct (call _ _ _) as [v d] eqn:Ec. intros ?; simplify_eq. exfalso. revert Hf. simpl. change d with ((v, d).2).
      rewrite <- Ec. apply solo_frees. intros a d'. by apply abandon_frees.
    + intros ?; simplify_eq. right. right. exists m. split; [done|]. split; [done|]. revert Hf. simpl.
      apply solo_frees. intros a d' Er [? ->]%(reclaim_frees _ _ _ _ _ _ _ _ _ Er). split; [done|].
      by destruct (attempts_left r).
Qed.

(** The life of a job in a session: a fetch leased it, then the child read a
    dispatch of it, then it reported [o]. *)
Definition ran (tr : list note) (i : Z) (o : Protocol.Outcome) : Prop :=
  ∃ t1 fetched t2 read t3 x t4,
    tr = t1 ++ Leased fetched :: t2 ++ Handed read :: t3 ++ Said x :: t4 ∧
    i ∈ fetched ∧ i ∈ read ∧ ChildProtocol.means x = Protocol.Complete i o.

Lemma reported_ran d tr s i o : leads c worker (start c d) tr s → bigints tr → reported tr i o → ran tr i o.
Proof.
  intros Hl Hb (x & (before & t4 & E & Hh) & Hx). destruct (Hh i o Hx) as (read & Hread & Hi).
  apply list_elem_of_split in Hread as (t12 & t3 & ->). rewrite <- app_assoc in E.
  destruct (handed_was_leased c worker d tr s t12 read (t3 ++ Said x :: t4) i Hl Hb E Hi) as (fetched & Hf & Hi').
  apply list_elem_of_split in Hf as (t1 & t2 & ->). exists t1, fetched, t2, read, t3, x, t4.
  split_and!; try done. rewrite E. by rewrite <- app_assoc.
Qed.

(** C7. A supervisor settles a job only as its child reported it. Whenever an
    event of the supervisor's own takes a job from this worker's lease, after
    whatever interleaving of its tasks, the child's reads, reports and deaths, and
    other sessions: a fetch had leased the job, then the child had read a dispatch
    of it, then it had reported exactly the outcome the row now has, down to the
    bytes of the result or the text of the error, which crossed the socket, the
    decoder and the buffer of reports; or the job could not be sent, and is
    discarded saying why; or its lease had lapsed when the hand-back swept. So a
    job this supervisor completed was leased, run and reported successful, with
    that result. *)
Theorem settled_as_reported d tr s e s' notes i r r' :
  db_ok d → (∀ i, ¬ owns worker d i) → 1 <= Worker.batch c → 0 <= Worker.concurrency c →
  leads c worker (start c d) tr s → bigints tr → (∀ d', e ≠ Elsewhere d') → next c worker s e = Some (s', notes) →
  frees worker (store s) (store s') i r r' →
  (∃ o, ran tr i o ∧ WorkerSafety.settles o r r') ∨
  unsendable (disp s) i r r' ∨
  (∃ m, e = HandBack m ∧ sup s = Reclaiming ∧ lapsed (at_time m) r = true ∧ state r' ≠ completed).
Proof.
  intros Hd Ho Hb Hc Hl Hbig He E Hf. pose proof (so_db _ _ _ _ (sound_leads _ _ _ _ _ Hb (sound_start _ _ d Hd Ho Hc) Hl)) as Hdb.
  pose proof (relayed_leads d tr s Hl) as [_ _ _ (reports & Hs & Hr)].
  destruct (event_frees s e s' notes i r r' Hdb He E Hf) as [(k & m & Hk)|[?|?]]; [left|by right; left|by right; right].
  destruct (flush_frees worker c reports k m _ _ _ i r r' Hs Hk Hf) as (o & Hin & Hset). exists o. split; [|done].
  apply (reported_ran d tr s); [done|done|]. by apply (proj1 (Forall_forall _ _) Hr (i, o)).
Qed.

End Reports.

(** The shift of [SystemExample] up to the statement of its flush that stores the
    result of job 1. *)
Definition before_storing : list event := lease_batch ++ send_batch ++ report_two ++ [Proceed (at_ 207)].

Definition storing : option (system * list note) :=
  '(s, _) ← from_enqueued before_storing; next one_core alice s (Proceed (at_ 208)).

Definition fetched_by (n : note) : list Z := match n with Leased ids => ids | _ => [] end.
Definition all_fetched (tr : list note) : list Z := tr ≫= fetched_by.

Lemma elem_of_all_fetched tr i : leased_in tr i → i ∈ all_fetched tr.
Proof. intros (ids & Hin & Hi). apply list_elem_of_bind. exists (Leased ids). auto. Qed.

Lemma settled_as_reported_witness :
  ∃ s tr s' notes r r', from_enqueued before_storing = Some (s, tr) ∧ storing = Some (s', notes) ∧
    frees alice (store s) (store s') 1 r r' ∧ ∃ o, ran tr 1 o ∧ WorkerSafety.settles o r r'.
Proof.
  destruct (from_enqueued before_storing) as [[s tr]|] eqn:E; [|vm_compute in E; discriminate].
  destruct storing as [[s' notes]|] eqn:E'; [|vm_compute in E'; discriminate].
  assert (∃ r r', (λ o, jobs (store o.1) !! 1) <$> from_enqueued before_storing = Some (Some r) ∧ held alice r = true ∧
    (λ o, jobs (store o.1) !! 1) <$> storing = Some (Some r') ∧ held alice r' = false ∧
    (λ o, disp o.1) <$> from_enqueued before_storing = Some Top)
    as (r & r' & Hr & Hh & Hr' & Hh' & Ht)
    by (do 2 eexists; split_and!; vm_compute; reflexivity).
  assert (from_option (λ o : system * list note, all_fetched o.2) [] (from_enqueued before_storing) = [1; 2; 4]) as Hle by (vm_compute; reflexivity).
  rewrite E in Hr, Ht, Hle. rewrite E' in Hr'. cbn [fmap option_fmap option_map from_option fst snd] in Hr, Hr', Ht, Hle.
  injection Hr as Hr. injection Hr' as Hr'. injection Ht as Ht.
  assert (frees alice (store s) (store s') 1 r r') as Hf by (split_and!; assumption).
  exists s, tr, s', notes, r, r'. split_and!; [reflexivity|reflexivity|exact Hf|].
  destruct (settled_as_reported one_core alice enqueued tr s (Proceed (at_ 208)) s' notes 1 r r') as [H|[H|H]].
  - apply reachable_ok, enqueued_reachable.
  - apply none_leased.
  - vm_compute. discriminate.
  - vm_compute. discriminate.
  - apply (leads_run one_core alice (start one_core enqueued) before_storing s tr [] (start one_core enqueued)).
    + apply leads_here.
    + unfold before_storing, lease_batch, send_batch, report_two. repeat constructor; intros d ?; discriminate.
    + exact E.
  - intros i Hi%elem_of_all_fetched. rewrite Hle in Hi. clear -Hi. revert i Hi. apply (proj1 (Forall_forall _ _)).
    repeat constructor; vm_compute; discriminate || reflexivity.
  - intros d' ?. discriminate.
  - unfold storing in E'. rewrite E in E'. exact E'.
  - exact Hf.
  - exact H.
  - destruct H as (j & e & todo & buf & reserved & a & H & _). congruence.
  - destruct H as (m & H & _). discriminate.
Defined.

End SystemReports.
