(* ===== verification/SystemWedge.v ===== *)
(** * A report that cannot be read

    What [collect_completions] does with a frame it cannot decode: it settles what
    it has and returns, and the session goes on without it. *)

From S2P Require Import Prelude.
From S2P Require Import Core.
From S2P Require Import Protocol.
From S2P Require Import ChildProtocol.
From S2P Require Import Schedule.
From S2P Require Import PgTable.
From S2P Require Import PgJobs.
From S2P Require Import PgCron.
From S2P Require Import PgInvariant.
From S2P Require Import PgSteps.
From S2P Require Import PgExample.
From S2P Require Import PgSettle.
From S2P Require Import Worker.
From S2P Require Import WorkerLoop.
From S2P Require Import WorkerSafety.
From S2P Require Import System.
From S2P Require Import SystemExample.
From S2P Require Import SystemLeases.
Import Core.
Import Table.
Import Jobs.
Import Cron.
Import Invariant.
Import Steps.
Import Example.
Import Settle.
Import WorkerLoop.
Import WorkerSafety.
Import System.
Import SystemExample.
Import SystemLeases.

Module SystemWedge.

Section Wedge.
Context {Pl : Planner} {R : Protocol.RmpSerde} {C : Schedule.CronCrate} {M : ChildProtocol.Msgspec}.
Variables (c : Worker.Config) (worker : uuid).

(** A session whose reader has returned, as long as its child lives. *)
Definition wedged (s : system) : Prop := coll (rd s) = Gone ∧ sup s = InSession.

(** What a wedged session can still do. *)
Definition stuck (s s' : system) (notes : list note) : Prop :=
  wedged s' ∧ Worker.ids (inflight s) ⊆ Worker.ids (inflight s') ∧ ∀ k p, Settling k p ∉ notes.

Lemma alive_before s e s' notes :
  next c worker s e = Some (s', notes) → e ≠ Restart → alive (kid s') = true → alive (kid s) = true.
Proof.
  intros E He. destruct e as [d| |failed| |m|failed| |k| |m| |m|k|sd|k|reported sent|k| |m|]; [..|done]; revert E.
  5: { intros [_ [(buf & reserved & _ & -> & ->)|(p' & d & E & ->)]]%call_next; [by case_decide|done]. }
  all: cbn [next]; unfold when.
  all: try solve [repeat (case_match; try done); intros ?; by simplify_eq].
  - destruct (in_session s); [|done]. unfold proceed. intros H. repeat (case_match; try done); by simplify_eq.
  - destruct (_ && _) eqn:Hg; [|done]. apply andb_prop in Hg as [Hg _]. by apply andb_prop in Hg as [_ ->].
  - destruct (_ && _) eqn:Hg; [|done]. by apply andb_prop in Hg as [_ ->].
Qed.

Lemma dispatch_call_settling m r p d p' d' notes k q :
  dispatch_call c worker m r p d = Some (p', d', notes) → Settling k q ∉ notes.
Proof.
  intros E Hin. destruct p as [|n|n|rows spare|[|j todo] buf reserved|j e todo buf reserved|buf|o]; cbn [dispatch_call] in E;
    try done; repeat (case_match; try done); simplify_eq; set_solver.
Qed.

Lemma wedged_next s e s' notes :
  next c worker s e = Some (s', notes) → wedged s → e ≠ Restart → alive (kid s') = true → stuck s s' notes.
Proof.
  intros E [Hc Hs] He Ha. assert (in_session s = true) as Hin by (unfold in_session; by rewrite Hs).
  pose proof (alive_before _ _ _ _ E He Ha) as Ha0.
  destruct e as [d| |failed| |m|failed| |k| |m| |m|k|sd|k|reported sent|k| |m|]; [..|done]; revert E.
  5: { intros [_ [(buf & reserved & _ & -> & ->)|(p' & d & E & ->)]]%call_next.
       - case_decide; (split_and!; [done|simpl; set_solver|by intros k p ?%elem_of_nil]).
       - split_and!; [done|done|]. intros k p. by eapply dispatch_call_settling. }
  all: cbn [next]; unfold when.
  all: rewrite ?Hin, ?Hs, ?Hc, ?Ha0; simpl.
  all: try done.
  all: try solve [repeat (case_match; try done); intros ?; simplify_eq; split_and!; try done; by intros k0 p ?%elem_of_nil].

  - unfold proceed. by rewrite Hc.
  - destruct (_ && _); [|done]. destruct (hear _ _). intros ?; simplify_eq. split_and!; [done..|set_solver].
  - destruct (speaks _ _), (ChildProtocol.written sd); intros ?; simplify_eq. split_and!; [done..|set_solver].
Qed.

Lemma run_cons s e es s' notes :
  run c worker s (e :: es) = Some (s', notes) →
  ∃ s1 n1 n2, next c worker s e = Some (s1, n1) ∧ run c worker s1 es = Some (s', n2) ∧ notes = n1 ++ n2.
Proof.
  simpl. destruct (next c worker s e) as [[s1 n1]|]; [|done]. simpl.
  destruct (run c worker s1 es) as [[s2 n2]|] eqn:E; [|done]. simpl. intros ?; simplify_eq. eauto 10.
Qed.

Lemma alive_run es s s' notes :
  run c worker s es = Some (s', notes) → Forall (λ e, e ≠ Restart) es → alive (kid s') = true → alive (kid s) = true.
Proof.
  intros E Hes Ha. revert s notes E. induction Hes as [|e es He _ IH]; intros s notes E; [by simplify_eq/=|].
  apply run_cons in E as (s1 & n1 & n2 & E1 & E2 & ->). eapply alive_before; eauto.
Qed.

Lemma stuck_run es s s' notes :
  run c worker s es = Some (s', notes) → wedged s → Forall (λ e, e ≠ Restart) es → alive (kid s') = true →
  stuck s s' notes.
Proof.
  intros E Hw Hes Ha. revert s notes E Hw. induction Hes as [|e es He Hes IH]; intros s notes E Hw.
  - simplify_eq/=. split_and!; [done|done|by intros k p ?%elem_of_nil].
  - apply run_cons in E as (s1 & n1 & n2 & E1 & E2 & ->).
    destruct (wedged_next _ _ _ _ E1 Hw He (alive_run _ _ _ _ E2 Hes Ha)) as (Hw1 & Hsub1 & Hn1).
    destruct (IH _ _ E2 Hw1) as (Hw2 & Hsub2 & Hn2). split_and!; [done|set_solver|].
    intros k p [Hin|Hin]%elem_of_app; [by eapply Hn1|by eapply Hn2].
Qed.

(** The reader returns: at once when it holds no reports, and after the four
    statements of a flush otherwise. *)
Lemma reader_flushes s k ms :
  sup s = InSession → coll (rd s) = Flushing k false → (k + length ms = 5)%nat → (k < 5)%nat →
  ∃ s1 tr1, run c worker s (Proceed <$> ms) = Some (s1, tr1) ∧ wedged s1 ∧ kid s1 = kid s ∧
    Worker.ids (inflight s1) = Worker.ids (inflight s) ∖ list_to_set (Worker.settled (pend (rd s))).
Proof.
  intros Hs Hc Hlen Hk. revert s k Hs Hc Hlen Hk. induction ms as [|m ms IH]; intros s k Hs Hc Hlen Hk; simpl in Hlen; [lia|].
  assert (next c worker s (Proceed m) = proceed c worker m s) as En.
  { cbn [next]. unfold when, in_session. by rewrite Hs. }
  rewrite fmap_cons. cbn [run]. rewrite En. unfold proceed. rewrite Hc. case_decide as Hk4.
  - destruct (flush_call _ _ _ _ _ _) as [went d]. cbn [mbind option_bind].
    set (s0 := set_store d _). destruct (IH s0 (S k)) as (s1 & tr1 & E & Hw & Hkid & Hids); [exact Hs|done|lia|lia|].
    rewrite E. cbn [mbind option_bind].
    do 2 eexists. split_and!; [done|done|done|exact Hids].
  - assert (ms = []) as -> by (destruct ms; [done|]; simpl in Hlen; lia). simpl. do 2 eexists. split_and!; [done|done|done|].
    simpl. unfold Worker.release. case_decide as E; [|done]. simpl. rewrite E. set_solver.
Qed.

Lemma reader_returns s e ms :
  Protocol.decoder_ok (dec (rd s)) → sup s = InSession → coll (rd s) = Decoding →
  Protocol.parse (Protocol.pending (dec (rd s))) = Protocol.Bad e → length ms = 6%nat →
  ∃ n s1 tr1, run c worker s (Proceed <$> take n ms) = Some (s1, tr1) ∧ wedged s1 ∧ kid s1 = kid s ∧
    Worker.ids (inflight s1) = Worker.ids (inflight s) ∖ list_to_set (Worker.settled (pend (rd s))).
Proof.
  intros Hok Hs Hc Hbad Hlen. destruct ms as [|m ms]; [done|].
  set (r0 := {| dec := dec (rd s); pend := pend (rd s); armed := armed (rd s); coll := Waiting |}).
  assert (next c worker s (Proceed m) = Some (set_rd (start_flush false r0) s, [])) as En.
  { pose proof (Protocol.next_message_answers _ Hok) as Ha. rewrite Hbad in Ha. simpl in Ha.
    cbn [next]. unfold when, in_session, proceed. by rewrite Hs, Hc, Ha. }
  unfold start_flush in En. change (pend r0) with (pend (rd s)) in En.
  destruct (Worker.Pending_len (pend (rd s)) =? 0) eqn:Hp.
  - exists 1%nat. do 2 eexists. split_and!.
    + cbn [take]. rewrite fmap_cons. cbn [run]. rewrite En. done.
    + done.
    + done.
    + simpl. apply Z.eqb_eq in Hp. pose proof (Worker.Pending_len_nil _ Hp) as (H1 & H2 & H3 & H4).
      unfold Worker.settled. rewrite H1, H2, H3, H4. set_solver.
  - set (s0 := set_rd _ s) in En. injection Hlen as Hlen.
    destruct (reader_flushes s0 0 ms) as (s1 & tr1 & E & Hw & Hkid & Hids); [exact Hs|done|lia|lia|].
    exists 6%nat. do 2 eexists. split_and!.
    + rewrite take_ge by (simpl; lia). rewrite fmap_cons. cbn [run]. rewrite En. cbn [mbind option_bind]. rewrite E. done.
    + done.
    + done.
    + exact Hids.
Qed.

(** A renewal reaches every job in flight. *)
Lemma renewal_extends (m : moment) s :
  stopping s = false → db_ok (store s) → link m = Answered →
  ∃ s', next c worker s (Renew m) = Some (s', []) ∧
    ∀ i r, i ∈ Worker.ids (inflight s) → jobs (store s) !! i = Some r → held worker r = true →
      jobs (store s') !! i = Some (set_lease_expires_at (Some (at_time m + Worker.lease c)) r).
Proof.
  intros Hst Hd Hm. cbn [next]. unfold when. rewrite Hst. cbn [negb]. eexists. split; [done|].
  intros i r Hi Hr Hh. simpl. unfold renew_tick.
  assert (i ∈ Worker.snapshot (inflight s)) as Hin by (unfold Worker.snapshot; by apply elem_of_elements).
  rewrite decide_False by (intros E; by rewrite E in Hin; apply elem_of_nil in Hin).
  destruct (renew_ok (at_time m) (Worker.snapshot (inflight s)) worker (Worker.lease c) (store s) Hd) as (n & d' & E & _).
  unfold call, deliver. simpl. change (at_time (solo m)) with (at_time m). rewrite Hm, E. simpl.
  unfold renew_leases, RENEW in E. rewrite decide_False in E by (intros E'; by rewrite E' in Hin; apply elem_of_nil in Hin).
  destruct (commit _) as [d1|] eqn:Ec; simpl in E; [|done]. simplify_eq.
  rewrite (update_lookup _ _ _ _ _ Ec Hr), Hh. by rewrite bool_decide_true.
Qed.

(** C11. A report the supervisor cannot read wedges the child's session. When the
    decoder refuses a frame, [collect_completions] flushes what it holds and
    returns, within the statements of one flush. From then on, until the child dies
    or its session is stopped: nothing the child reports is settled, no job leaves
    the in-flight set, the session does not end, and every renewal extends the lease
    of every job in flight, so no sweep ever frees one. *)
Theorem unreadable_report_wedges s e ms :
  Protocol.decoder_ok (dec (rd s)) → sup s = InSession → coll (rd s) = Decoding →
  Protocol.parse (Protocol.pending (dec (rd s))) = Protocol.Bad e → length ms = 6%nat →
  ∃ n s1 tr1, run c worker s (Proceed <$> take n ms) = Some (s1, tr1) ∧ kid s1 = kid s ∧
    Worker.ids (inflight s1) = Worker.ids (inflight s) ∖ list_to_set (Worker.settled (pend (rd s))) ∧
    ∀ es s2 tr2, run c worker s1 es = Some (s2, tr2) → Forall (λ e, e ≠ Restart) es → alive (kid s2) = true →
      sup s2 = InSession ∧ next c worker s2 Close = None ∧ (∀ k p, Settling k p ∉ tr2) ∧
      Worker.ids (inflight s1) ⊆ Worker.ids (inflight s2) ∧
      ∀ m : moment, stopping s2 = false → db_ok (store s2) → link m = Answered →
        ∃ s3, next c worker s2 (Renew m) = Some (s3, []) ∧
          ∀ i r, i ∈ Worker.ids (inflight s1) → jobs (store s2) !! i = Some r → held worker r = true →
            jobs (store s3) !! i = Some (set_lease_expires_at (Some (at_time m + Worker.lease c)) r).
Proof.
  intros Hok Hs Hc Hbad Hlen. destruct (reader_returns s e ms Hok Hs Hc Hbad Hlen) as (n & s1 & tr1 & E & Hw & Hkid & Hids).
  exists n, s1, tr1. split_and!; [done..|]. intros es s2 tr2 E2 Hes Ha.
  destruct (stuck_run es s1 s2 tr2 E2 Hw Hes Ha) as ([_ Hsup] & Hsub & Hn). split_and!; [done| |done|done|].
  - cbn [next]. unfold when. destruct (disp s2), (coll (rd s2)); try done. by rewrite Ha, andb_false_r.
  - intros m Hst Hd Hm. destruct (renewal_extends m s2 Hst Hd Hm) as (s3 & E3 & Hr). exists s3. split; [done|].
    intros i r Hi. apply Hr. set_solver.
Qed.

End Wedge.

(** A traceback of 65537 bytes whose last character is two bytes long: the child
    cuts it in the middle of that character. *)
Definition long_error : list Z := replicate (Z.to_nat 65535) 97 ++ [233].

Definition refused : list event :=
  lease_batch ++ send_batch ++
  [Say (ChildProtocol.Fails 1 long_error true); Arrive (Z.to_nat 65536); Proceed (at_ 206); Arrive 100].

Lemma unreadable_report_wedges_witness :
  ∃ s tr, from_enqueued refused = Some (s, tr) ∧
    ∃ n s1 tr1, run one_core alice s (Proceed <$> take n (replicate 6 (at_ 300))) = Some (s1, tr1) ∧
      ∀ es s2 tr2, run one_core alice s1 es = Some (s2, tr2) → Forall (λ e, e ≠ Restart) es → alive (kid s2) = true →
        1 ∈ Worker.ids (inflight s2).
Proof.
  assert ((λ o : system * list note, (sup o.1, coll (rd o.1), Protocol.parse (Protocol.pending (dec (rd o.1))),
      bool_decide (Protocol.decoder_ok (dec (rd o.1))), Worker.settled (pend (rd o.1)), bool_decide (1 ∈ Worker.ids (inflight o.1))))
      <$> from_enqueued refused =
    Some (InSession, Decoding, Protocol.Bad (Protocol.NotUtf8 "error message"), true, [], true)) as H
    by (vm_compute; reflexivity).
  destruct (from_enqueued refused) as [[s tr]|] eqn:E; [|discriminate].
  exists s, tr. split; [reflexivity|].
  simpl in H. injection H as H1 H2 H3 H4 H5 H6.
  destruct (unreadable_report_wedges one_core alice s (Protocol.NotUtf8 "error message") (replicate 6 (at_ 300)))
    as (n & s1 & tr1 & Hrun & _ & Hids & Hw).
  - apply (bool_decide_eq_true_1 _ H4).
  - exact H1.
  - exact H2.
  - exact H3.
  - reflexivity.
  - exists n, s1, tr1. split; [exact Hrun|]. intros es s2 tr2 E2 Hes Ha.
    destruct (Hw es s2 tr2 E2 Hes Ha) as (_ & _ & _ & Hsub & _). apply Hsub. rewrite Hids, H5.
    rewrite elem_of_difference, elem_of_list_to_set. split; [exact (bool_decide_eq_true_1 _ H6)|apply not_elem_of_nil].
Defined.

End SystemWedge.
