(* ===== verification/Fleet.v ===== *)
(** * A worker: its children and its sweeps together

    [run] of [crates/gylo-worker/src/lib.rs] starts [processes] supervisors, one
    task that fires schedules and sweeps, and one that prunes. They share the
    database and a token, and nothing else: each supervisor, whatever the others
    do, goes through a run of [System]. The [Notify] that wakes their dispatchers and
    the bound of the connection pool only delay a task; here a task may go on at any
    time. *)

From S2P Require Import Prelude.
From S2P Require Import Core.
From S2P Require Import Protocol.
From S2P Require Import ChildProtocol.
From S2P Require Import Schedule.
From S2P Require Import PgTable.
From S2P Require Import PgJobs.
From S2P Require Import PgCron.
From S2P Require Import PgRetention.
From S2P Require Import PgWorkflow.
From S2P Require Import PgInvariant.
From S2P Require Import PgSteps.
From S2P Require Import PgReach.
From S2P Require Import PgExample.
From S2P Require Import PgFetch.
From S2P Require Import PgSettle.
From S2P Require Import PgHistory.
From S2P Require Import Worker.
From S2P Require Import WorkerLoop.
From S2P Require Import WorkerSafety.
From S2P Require Import WorkerTasks.
From S2P Require Import WorkerOwnership.
From S2P Require Import System.
From S2P Require Import SystemExample.
From S2P Require Import SystemLeases.
Import Core.
Import Table.
Import Jobs.
Import Cron.
Import Retention.
Import Workflow.
Import Invariant.
Import Steps.
Import Reach.
Import Example.
Import Fetch.
Import Settle.
Import WorkerLoop.
Import WorkerSafety.
Import WorkerTasks.
Import WorkerOwnership.
Import System.
Import SystemExample.
Import SystemLeases.

Module Fleet.

(** ** The worker *)

(** The database, and the supervisors with their identities. The token [internal]
    is in each of them, as [stopping]. *)
Record fleet := { shared : db; crew : list (uuid * system) }.

(** A database every supervisor sees. *)
Definition spread (d : db) (member : uuid * system) : uuid * system := (member.1, set_store d member.2).
Definition settle (d : db) (f : fleet) : fleet := {| shared := d; crew := spread d <$> crew f |}.

Definition halt (member : uuid * system) : uuid * system := (member.1, set_stopping member.2).

(** The statements of [recover] and [retain] that write: firing a schedule that was
    due when [fire_due_schedules] read it, at [now]; the sweep; and the three of
    retention. [WorkerLoop] has the order a tick runs them in; here they come in
    any order, which covers every point where a tick may be interrupted. *)
Inductive chore :=
| FireDue (now : Z) (e : DueCron)
| Sweep
| PruneCompleted
| PruneDiscarded
| PruneWorkflows.

(** What happens: a supervisor takes a step; one of the other two tasks runs a
    statement; another process commits; the token is cancelled, by the caller or
    for a child that gave up. *)
Inductive doing :=
| Child (k : nat) (e : event)
| Chore (m : moment) (x : chore)
| Outside (d : db)
| Cancel.

Section Fleet.
Context {Pl : Planner} {R : Protocol.RmpSerde} {C : Schedule.CronCrate} {M : ChildProtocol.Msgspec}.
Variable c : Worker.Config.

(** One supervisor for each identity. *)
Definition launch (us : list uuid) (d : db) : fleet :=
  {| shared := d; crew := (λ u, (u, start c d)) <$> us |}.

(** An event a supervisor has of its own. *)
Definition own (e : event) : bool := match e with Elsewhere _ | Shutdown => false | _ => true end.

Definition chore_call (m : moment) (x : chore) (d : db) : db :=
  match x with
  | FireDue now e => fire_one now d (e, m)
  | Sweep => (call m (reclaim_expired (at_time m) (Worker.reclaim_limit c)) d).2
  | PruneCompleted =>
    (call m (prune_completed (at_time m) (locked_rows m) (Worker.retain_completed c) None (Worker.prune_batch c)) d).2
  | PruneDiscarded =>
    (call m (prune_discarded (at_time m) (locked_rows m) (Worker.retain_discarded c) None (Worker.prune_batch c)) d).2
  | PruneWorkflows => (call m (λ d, Ok (prune_workflows d)) d).2
  end.

Definition fleet_next (f : fleet) (x : doing) : option (fleet * list (nat * note)) :=
  match x with
  | Child k e =>
    match crew f !! k with
    | Some (u, s) =>
      match next c u s e with
      | Some (s', notes) =>
        when (own e)
          (Some (settle (store s') {| shared := store s'; crew := <[k := (u, s')]> (crew f) |}, (λ n : note, (k, n)) <$> notes))
      | None => None
      end
    | None => None
    end
  | Chore m x => Some (settle (chore_call (solo m) x (shared f)) f, [])
  | Outside d => Some (settle d f, [])
  | Cancel => Some ({| shared := shared f; crew := halt <$> crew f |}, [])
  end.

Fixpoint fleet_run (f : fleet) (xs : list doing) : option (fleet * list (nat * note)) :=
  match xs with
  | [] => Some (f, [])
  | x :: xs => '(f1, n1) ← fleet_next f x; '(f2, n2) ← fleet_run f1 xs; Some (f2, n1 ++ n2)
  end.

(** ** Nobody leases for another *)

(** A statement that gives [u] no lease. *)
Definition spares {A} (u : uuid) (st : db → Prelude.result db_error (A * db)) : Prop :=
  ∀ d a d', db_ok d → st d = Ok (a, d') → ∀ i, owns u d' i → owns u d i.

Lemma call_spares {A} u m (st : db → Prelude.result db_error (A * db)) d i :
  spares u st → db_ok d → owns u (call (solo m) st d).2 i → owns u d i.
Proof.
  intros Hst Hd. destruct (call_solo m st d) as [(a & d' & -> & E)|[(e & a & d' & -> & E & _)|[e ->]]]; simpl; eauto.
Qed.

Lemma update_spares u f d d' i :
  commit (update f d) = Ok d' →
  (∀ j r r', jobs d !! j = Some r → f j r = Some r' → held u r' = true → held u r = true) →
  owns u d' i → owns u d i.
Proof.
  intros Ec Hf (r' & Hr' & Hh). apply commit_Ok in Ec as (-> & _). apply lookup_update_Some in Hr' as (r & Hr & ->).
  exists r. split; [done|]. destruct (f i r) as [r'|] eqn:E; [|done]. by eapply Hf.
Qed.

Lemma complete_spares u v now ids rs : spares u (complete now ids rs v).
Proof.
  intros d n d' _ E i. unfold complete in E. case_decide; [by simplify_eq|]. unfold COMPLETE in E.
  destruct (commit _) as [d1|] eqn:Ec; simplify_eq/=. apply (update_spares _ _ _ _ _ Ec).
  intros j r r' Hr. destruct (complete_cases now (unnest ids rs) v d j r Hr); intros ?; simplify_eq; [|done].
  by intros ?%held_running.
Qed.

Lemma retry_spares u v now random ids errs base cap : spares u (retry_many now random ids errs v base cap).
Proof.
  intros d n d' _ E i. unfold retry_many in E. case_decide; [by simplify_eq|].
  destruct (RETRY_MANY _ _ _ _ _ _ _) as [[[? ?] d1]|] eqn:E1; simplify_eq/=.
  unfold RETRY_MANY in E1. destruct (existsb _ _); [done|]. destruct (commit _) as [d1|] eqn:Ec; simplify_eq/=.
  apply (update_spares _ _ _ _ _ Ec). intros j r r' Hr Hf. cbv beta in Hf. cases; by intros ?%held_running.
Qed.

Lemma discard_spares u v now ids errs : spares u (discard_many now ids errs v).
Proof.
  intros d n d' _ E i. unfold discard_many in E. case_decide; [by simplify_eq|].
  destruct (DISCARD_MANY _ _ _ _) as [[[? ?] d1]|] eqn:E1; simplify_eq/=.
  unfold DISCARD_MANY in E1. destruct (commit _) as [d1|] eqn:Ec; simplify_eq/=.
  apply (update_spares _ _ _ _ _ Ec). intros j r r' Hr Hf. cbv beta in Hf. cases; by intros ?%held_running.
Qed.

Lemma renew_spares u v now ids lease : spares u (renew_leases now ids v lease).
Proof.
  intros d n d' _ E i. unfold renew_leases, RENEW in E. case_decide; [by simplify_eq|].
  destruct (commit _) as [d1|] eqn:Ec; simplify_eq/=.
  apply (update_spares _ _ _ _ _ Ec). intros j r r' Hr Hf. cbv beta in Hf. by cases.
Qed.

Lemma abandon_spares u v now ids : spares u (abandon_leases now ids v).
Proof.
  intros d n d' _ E i. unfold abandon_leases, ABANDON in E. case_decide; [by simplify_eq|].
  destruct (commit _) as [d1|] eqn:Ec; simplify_eq/=.
  apply (update_spares _ _ _ _ _ Ec). intros j r r' Hr Hf. cbv beta in Hf. by cases.
Qed.

Lemma reclaim_spares u now n : spares u (reclaim_expired now n).
Proof. intros d a d' _ E i Hi. by destruct (wo_owns _ _ _ _ _ (reclaim_without 0 _ _ u _ _ _ E) i Hi). Qed.

Lemma leased_spares u v now lease chosen d l d' i : u ≠ v → leased_to now v lease chosen d l d' → owns u d' i → owns u d i.
Proof.
  intros Huv [_ Hj] (r' & Hr' & Hh). rewrite Hj in Hr'. apply fmap_Some in Hr' as (r & Hr & ->). exists r. split; [done|].
  case_decide; [|done]. unfold held in Hh. simpl in Hh. by rewrite bool_decide_false in Hh by congruence.
Qed.

Lemma unkeyed_spares u v m n : u ≠ v → spares u (unkeyed c v m n).
Proof.
  intros Huv d [l w] d' Hd E i. apply unkeyed_took in E as (_ & _ & chosen & _ & Hl). by eapply leased_spares.
Qed.

Lemma keyed_spares u v m n : u ≠ v → spares u (keyed_pass c v m n).
Proof.
  intros Huv d l d' Hd E i. apply keyed_took in E as [_ Hl]. by eapply leased_spares.
Qed.

Lemma flush_spares u v k m p d i : db_ok d → owns u (flush_call c v k m p d).2 i → owns u d i.
Proof.
  intros Hd. destruct k as [|[|[|k]]]; simpl;
    match goal with |- context [call (solo m) ?st d] => pose proof (call_spares u m st d i) as H end;
    destruct (call _ _ _) as [r d']; simpl; intros Ho; (apply H; [|done|done]);
    solve [apply complete_spares|apply retry_spares|apply discard_spares].
Qed.

Lemma dispatch_spares u v m r p d p' d' notes i :
  u ≠ v → db_ok d → dispatch_call c v m r p d = Some (p', d', notes) → owns u d' i → owns u d i.
Proof.
  intros Huv Hd E Ho. destruct p as [|n|n|rows spare|[|j todo] buf reserved|j e todo buf reserved|buf|o]; try done.
  - cbn [dispatch_call] in E. pose proof (call_spares u m _ d i (unkeyed_spares u v m n Huv) Hd) as H.
    destruct (call _ _ _) as [[[]|] d1]; simplify_eq; auto.
  - cbn [dispatch_call] in E. unfold call, deliver in E. simpl in E.
    destruct (link m); [destruct (KEYED_WAITING _ _ _)|..]; by simplify_eq.
  - cbn [dispatch_call] in E. pose proof (call_spares u m _ d i (keyed_spares u v m spare Huv) Hd) as H.
    destruct (call _ _ _) as [[|] d1]; simplify_eq; auto.
  - by apply preparing_call in E as (-> & _).
  - cbn [dispatch_call] in E.
    pose proof (call_spares u m _ d i (discard_spares u v (at_time m) [job_id j] [describe e]) Hd) as H.
    destruct (call _ _ _) as [[|] d1]; simplify_eq; auto.
Qed.

Lemma cancelled_spares u v m p d i : u ≠ v → db_ok d → owns u (sent_anyway c v m p d).2 i → owns u d i.
Proof.
  intros Huv Hd. unfold sent_anyway. set (lost := {| around := _ |}). change lost with (solo lost).
  destruct p as [|n|n|rows spare|todo buf reserved|j e todo buf reserved|buf|o]; simpl; try done.
  - apply call_spares; [by apply unkeyed_spares|done].
  - apply call_spares; [by apply keyed_spares|done].
  - apply call_spares; [by apply discard_spares|done].
Qed.

Lemma proceed_spares u v m s s' notes i :
  db_ok (store s) → proceed c v m s = Some (s', notes) → owns u (store s') i → owns u (store s) i.
Proof.
  intros Hd. unfold proceed. destruct (coll (rd s)) as [| |now [|e todo]|id name res|ack|k stays|] eqn:Hc; try done.
  - destruct (Protocol.next_message _) as [[[[]|]|e|] dc]; intros ?; by simplify_eq.
  - intros ?; by simplify_eq.
  - intros ?; simplify_eq. by apply (owns_jobs u), register_one_keeps.
  - destruct (call _ _ _) as [w d1] eqn:Ec. intros ?; simplify_eq. simpl. change d1 with ((w, d1).2). rewrite <- Ec.
    apply call_spares; [|done]. intros d a d2 _ E. destruct (record_step _ _ _ _ _) eqn:E3; simplify_eq/=.
    intros j. unfold owns. by rewrite (record_step_jobs _ _ _ _ _ _ E3).
  - destruct (disp s); try (destruct (_ <? _); [|done]); intros ?; by simplify_eq.
  - case_decide; [|intros ?; by simplify_eq]. pose proof (flush_spares u v k m (pend (rd s)) (store s) i Hd) as Hs.
    destruct (flush_call _ _ _ _ _ _) as [went d1]. intros ?; simplify_eq. by apply Hs.
Qed.

(** A supervisor gives no lease to another. *)
Lemma next_spares u v s e s' notes i :
  u ≠ v → db_ok (store s) → own e = true → next c v s e = Some (s', notes) → owns u (store s') i → owns u (store s) i.
Proof.
  intros Huv Hd He E Ho.
  destruct e as [d| |failed| |m|failed| |k| |m| |m|k|sd|k|reported sent|k| |m|]; try done; revert E.
  3: { intros [_ [(buf & reserved & _ & -> & ->)|(p' & d & E & ->)]]%call_next;
         [by case_decide|by eapply dispatch_spares]. }
  all: cbn [next]; unfold when.
  all: try solve [repeat (case_match; try done); intros ?; by simplify_eq].
  - destruct (in_session s); [|done]. intros E. by eapply proceed_spares.
  - destruct (negb _); [|done]. intros ?; simplify_eq. revert Ho. unfold renew_tick. simpl.
    case_decide; [done|]. apply call_spares; [apply renew_spares|done].
  - destruct (_ && _); [|done]. destruct sent as [m|]; [|intros ?; by simplify_eq].
    destruct (sent_anyway _ _ _ _ _) as [ids d] eqn:Es. intros ?; simplify_eq.
    apply (cancelled_spares u v m (disp s)); [done|done|]. by rewrite Es.
  - destruct (sup s) as [|held| | |] eqn:Hsup; try done.
    + destruct (call _ _ _) as [w d] eqn:Ec. intros ?; simplify_eq. revert Ho. simpl. change d with ((w, d).2).
      rewrite <- Ec. apply call_spares; [apply abandon_spares|done].
    + intros ?; simplify_eq. revert Ho. simpl. apply call_spares; [apply reclaim_spares|done].
Qed.

(** ** Sweeps and retention *)

(** A change that keeps the invariant and gives nobody a lease. *)
Definition upkeep (d d' : db) : Prop := db_ok d → db_ok d' ∧ ∀ u i, owns u d' i → owns u d i.

#[local] Instance upkeep_preorder : PreOrder upkeep.
Proof.
  split; [by intros d Hd|]. intros d1 d2 d3 H1 H2 Hd. destruct (H1 Hd) as [Hd2 Ho1]. destruct (H2 Hd2) as [Hd3 Ho2]. eauto.
Qed.

Lemma call_upkeep {A} m (st : db → Prelude.result db_error (A * db)) d :
  (∀ d a d', st d = Ok (a, d') → upkeep d d') → upkeep d (call (solo m) st d).2.
Proof.
  intros Hst. destruct (call_solo m st d) as [(a & d' & -> & E)|[(e & a & d' & -> & E & _)|[e ->]]]; simpl; eauto; done.
Qed.

Lemma reclaim_upkeep now n d a d' : reclaim_expired now n d = Ok (a, d') → upkeep d d'.
Proof. intros E Hd. split; [by eapply step_ok, by_reclaim|]. intros u i. by eapply reclaim_spares. Qed.

Lemma fire_upkeep now name next d a d' : fire_cron now name next d = Ok (a, d') → upkeep d d'.
Proof.
  intros E Hd. split; [by eapply step_ok, by_fire|]. intros u i. unfold fire_cron, FIRE_CRON in E.
  destruct (crons d !! name) as [cr|]; [|by simplify_eq]. destruct (cron_due _ _); [|by simplify_eq].
  destruct (commit _) as [d1|] eqn:Ec; simplify_eq/=. apply commit_Ok in Ec as (-> & _). intros (r & Hr & Hh). simpl in Hr.
  apply lookup_insert_Some in Hr as [[_ <-]|[_ ?]]; [by apply held_running in Hh|by exists r].
Qed.

Lemma delete_spares u ids d i : owns u (delete_jobs ids d) i → owns u d i.
Proof. intros (r & Hr & Hh). exists r. split; [|done]. by apply delete_lookup in Hr as [? _]. Qed.

Lemma prune_completed_upkeep now skip older q n d a d' : prune_completed now skip older q n d = Ok (a, d') → upkeep d d'.
Proof.
  intros E Hd. split; [by eapply step_ok, by_prune_completed|]. intros u i.
  pose proof E as (_ & v & _ & _ & -> & _)%History.prune_deletes. apply delete_spares.
Qed.

Lemma prune_discarded_upkeep now skip older q n d a d' : prune_discarded now skip older q n d = Ok (a, d') → upkeep d d'.
Proof.
  intros E Hd. split; [by eapply step_ok, by_prune_discarded|]. intros u i.
  pose proof E as (_ & v & _ & _ & -> & _)%History.prune_deletes. apply delete_spares.
Qed.

Lemma prune_workflows_upkeep d : upkeep d (prune_workflows d).2.
Proof. intros Hd. split; [by eapply step_ok, by_prune_workflows|done]. Qed.

Lemma chore_upkeep m x d : upkeep d (chore_call (solo m) x d).
Proof.
  destruct x as [now e| | | |]; simpl; [destruct (Schedule.parse _ _ ≫= _); [|done]|..]; apply call_upkeep; intros d1 ? d2.
  - apply fire_upkeep.
  - apply reclaim_upkeep.
  - apply prune_completed_upkeep.
  - apply prune_discarded_upkeep.
  - intros E. assert (d2 = (prune_workflows d1).2) as -> by (by injection E as <-). apply prune_workflows_upkeep.
Qed.

(** ** Each supervisor runs as if alone *)

(** What other processes do keeps the invariant, and leases nothing to these
    children. *)
Definition fleet_lawful (us : list uuid) (f : fleet) (x : doing) : Prop :=
  match x with
  | Outside d => (db_ok (shared f) → db_ok d) ∧ ∀ u i, u ∈ us → owns u d i → owns u (shared f) i
  | _ => True
  end.

Inductive fleet_leads (us : list uuid) (f0 : fleet) : list (nat * note) → fleet → Prop :=
| fleet_here : fleet_leads us f0 [] f0
| fleet_on tr f x f' notes :
    fleet_leads us f0 tr f → fleet_lawful us f x → fleet_next f x = Some (f', notes) → fleet_leads us f0 (tr ++ notes) f'.

(** What one supervisor notes. *)
Definition own_notes (k : nat) (tr : list (nat * note)) : list note := (filter (λ p, p.1 = k) tr).*2.

Lemma own_notes_app k tr tr' : own_notes k (tr ++ tr') = own_notes k tr ++ own_notes k tr'.
Proof. unfold own_notes. by rewrite filter_app, fmap_app. Qed.

Lemma own_notes_mine k (notes : list note) : own_notes k ((λ n, (k, n)) <$> notes) = notes.
Proof.
  unfold own_notes. induction notes as [|n notes IH]; [done|]. rewrite fmap_cons, filter_cons_True by done.
  rewrite fmap_cons. by f_equal.
Qed.

Lemma own_notes_other j k (notes : list note) : j ≠ k → own_notes j ((λ n, (k, n)) <$> notes) = [].
Proof.
  intros Hjk. unfold own_notes. induction notes as [|n notes IH]; [done|]. rewrite fmap_cons, filter_cons_False; [done|].
  simpl. congruence.
Qed.

Lemma set_store_same s : set_store (store s) s = s.
Proof. by destruct s. Qed.

Section Refined.
Variables (us : list uuid) (d0 : db).
Hypotheses (Hd0 : db_ok d0) (Hus : NoDup us) (Hfree : ∀ u i, u ∈ us → ¬ owns u d0 i)
  (Hbatch : 1 <= Worker.batch c) (Hconc : 0 <= Worker.concurrency c).

(** Every supervisor sees the shared database, and got there by a run of its own. *)
Definition simulated (tr : list (nat * note)) (f : fleet) : Prop :=
  db_ok (shared f) ∧ length (crew f) = length us ∧
  ∀ k u s, crew f !! k = Some (u, s) →
    us !! k = Some u ∧ store s = shared f ∧ leads c u (start c d0) (own_notes k tr) s.

(** A change of the database under all of them. *)
Lemma simulated_settle tr f d :
  simulated tr f → db_ok d → (∀ u i, u ∈ us → owns u d i → owns u (shared f) i) → simulated tr (settle d f).
Proof.
  intros (Hd & Hlen & H) Hd' Ho. split_and!; [done|by simpl; rewrite length_fmap|]. intros k u s Hk. simpl in Hk.
  rewrite list_lookup_fmap in Hk. apply fmap_Some in Hk as ([u' s0] & Hk & E). unfold spread in E. simplify_eq/=.
  destruct (H _ _ _ Hk) as (Hu & Hst & Hl). split_and!; [done|done|]. rewrite <- (app_nil_r (own_notes k tr)).
  eapply (leads_on _ _ _ _ s0 (Elsewhere d)); [exact Hl| |done]. simpl. rewrite Hst. split; [done|].
  intros i. apply Ho. by eapply list_elem_of_lookup_2.
Qed.

Lemma simulated_child tr f k e f' notes :
  simulated tr f → fleet_next f (Child k e) = Some (f', notes) → simulated (tr ++ notes) f'.
Proof.
  intros (Hd & Hlen & H). cbn [fleet_next]. destruct (crew f !! k) as [[u s]|] eqn:Hk; [|done].
  destruct (next c u s e) as [[s' ns]|] eqn:E; [|done]. unfold when. destruct (own e) eqn:He; [|done]. intros ?; simplify_eq.
  destruct (H _ _ _ Hk) as (Hu & Hst & Hl).
  assert (leads c u (start c d0) (own_notes k tr ++ ns) s') as Hl'.
  { eapply leads_on; [done| |done]. by destruct e. }
  assert (∀ i, ¬ owns u d0 i) as Hfu by (intros i; apply Hfree; by eapply list_elem_of_lookup_2).
  pose proof (so_db _ _ _ _ (sound_leads _ _ _ _ _ Hbatch (sound_start c u d0 Hd0 Hfu Hconc) Hl')) as Hd'.
  split_and!; [done|simpl; by rewrite length_fmap, length_insert|]. intros j v sj Hj. simpl in Hj.
  rewrite list_lookup_fmap in Hj. apply fmap_Some in Hj as ([v' s0] & Hj & Ej). unfold spread in Ej. simplify_eq/=.
  destruct (decide (j = k)) as [->|Hne].
  - rewrite list_lookup_insert_eq in Hj by (by eapply lookup_lt_Some). simplify_eq. split_and!; [done|done|].
    by rewrite set_store_same, own_notes_app, own_notes_mine.
  - rewrite list_lookup_insert_ne in Hj by done. destruct (H _ _ _ Hj) as (Hv & Hstj & Hlj). split_and!; [done|done|].
    rewrite own_notes_app, own_notes_other by done.
    eapply (leads_on _ _ _ _ s0 (Elsewhere (store s'))); [exact Hlj| |done]. simpl. split; [done|].
    intros i Hi. rewrite Hstj, <- Hst. eapply (next_spares v' u); [|by rewrite Hst|done|done|done].
    intros ->. destruct Hne. by eapply NoDup_lookup.
Qed.

Lemma simulated_next tr f x f' notes :
  simulated tr f → fleet_lawful us f x → fleet_next f x = Some (f', notes) → simulated (tr ++ notes) f'.
Proof.
  intros Hs Hx. destruct x as [k e|m x|d|]; [by apply simulated_child|..]; cbn [fleet_next].
  - intros ?; simplify_eq. rewrite app_nil_r.
    destruct (chore_upkeep m x (shared f) (proj1 Hs)). apply simulated_settle; auto.
  - intros ?; simplify_eq. rewrite app_nil_r. destruct Hx as [Hd Ho]. apply simulated_settle; [done|by apply Hd, Hs|done].
  - intros ?; simplify_eq. rewrite app_nil_r. destruct Hs as (Hd & Hlen & H). split_and!; [done|by simpl; rewrite length_fmap|].
    intros k u s Hk. simpl in Hk. rewrite list_lookup_fmap in Hk. apply fmap_Some in Hk as ([u' s0] & Hk & E).
    unfold halt in E. simplify_eq/=. destruct (H _ _ _ Hk) as (Hu & Hst & Hl). split_and!; [done|done|].
    rewrite <- (app_nil_r (own_notes k tr)). by eapply (leads_on _ _ _ _ s0 Shutdown).
Qed.

(** C9. The children of a worker coordinate through the queue and nothing else:
    however the supervisors, the sweeps and the pruning of one worker and the rest
    of the world interleave, each supervisor goes through a run it could have gone
    through with the others as other sessions on the database, noting what it notes
    here. So all that is proved of one supervisor in [SystemLeases],
    [SystemDispatch], [SystemReports] and [SystemWedge] holds of every one of
    them, and the database keeps its invariant. *)
Theorem fleet_refines tr f :
  fleet_leads us (launch us d0) tr f →
  db_ok (shared f) ∧ length (crew f) = length us ∧
  ∀ k u s, crew f !! k = Some (u, s) →
    us !! k = Some u ∧ store s = shared f ∧ leads c u (start c d0) (own_notes k tr) s.
Proof.
  intros H. change (simulated tr f). induction H as [|tr f x f' notes _ IH Hx E]; [|by eapply simulated_next].
  split_and!; [done|simpl; by rewrite length_fmap|]. intros k u s Hk. simpl in Hk. rewrite list_lookup_fmap in Hk.
  apply fmap_Some in Hk as (u' & Hk & E). simplify_eq. split_and!; [done|done|]. apply leads_here.
Qed.

End Refined.

Lemma fleet_leads_run us f xs f' tr f0 tr0 :
  fleet_leads us f0 tr0 f → Forall (λ x, ∀ d, x ≠ Outside d) xs → fleet_run f xs = Some (f', tr) →
  fleet_leads us f0 (tr0 ++ tr) f'.
Proof.
  intros H Hxs. revert f tr0 tr H. induction Hxs as [|x xs Hx _ IH]; intros f tr0 tr H E; cbn [fleet_run] in E.
  - simplify_eq. by rewrite app_nil_r.
  - destruct (fleet_next f x) as [[f1 n1]|] eqn:E1; [|done]. cbn [mbind option_bind] in E.
    destruct (fleet_run f1 xs) as [[f2 n2]|] eqn:E2; [|done]. cbn [mbind option_bind] in E. simplify_eq.
    rewrite app_assoc. apply (IH f1); [|done]. eapply fleet_on; [done| |done]. destruct x; try done. by destruct (Hx d).
Qed.

End Fleet.

(** Two supervisors. The first leases a batch and its child dies with it; a sweep
    finds the leases when they have run out, and the second takes the jobs over. *)
Definition two : list uuid := [alice; bob].
Definition takeover : list doing :=
  (Child 0 <$> dies_early) ++
  [Chore (at_ 100000000) Sweep; Child 1 Begin; Child 1 (Call (at_ 100000001)); Child 1 (Call (at_ 100000002)); Cancel].
Definition taken_over : option (fleet * list (nat * note)) := fleet_run one_core (launch one_core two enqueued) takeover.

Example bob_takes_over :
  ((λ o : fleet * list (nat * note), (λ i, r ← jobs (shared o.1) !! i; locked_by r) <$> [1; 2; 4]) <$> taken_over) =
    Some (replicate 3 (Some bob)).
Proof. by vm_compute. Qed.

Lemma none_leased_yet u i : u ∈ two → ¬ owns u enqueued i.
Proof.
  intros Hu (r & Hr & Hh).
  assert (map_Forall (λ _ r, state r ≠ running) (jobs enqueued)) as Hn by (apply (bool_decide_unpack _); vm_compute; exact I).
  apply (Hn _ _ Hr). by apply held_running in Hh.
Qed.

(** The takeover: what the second supervisor did is a run of its own, in which it
    leased what the first had held. *)
Lemma fleet_refines_witness :
  ∃ f tr s, taken_over = Some (f, tr) ∧ crew f !! 1%nat = Some (bob, s) ∧ store s = shared f ∧
    leads one_core bob (start one_core enqueued) [Leased [1; 2]; LetGo LeasedAgain []; Leased [4]; LetGo LeasedAgain []] s.
Proof.
  destruct taken_over as [[f tr]|] eqn:E; [|vm_compute in E; discriminate].
  assert (from_option (λ o, own_notes 1 o.2) [] taken_over =
            [Leased [1; 2]; LetGo LeasedAgain []; Leased [4]; LetGo LeasedAgain []]) as Hn by (vm_compute; reflexivity).
  assert (from_option (λ o, match crew o.1 !! 1%nat with Some (u, _) => u | None => 0 end) 0 taken_over = bob) as Hu
    by (vm_compute; reflexivity).
  rewrite E in Hn, Hu. cbn [from_option fst snd] in Hn, Hu.
  destruct (crew f !! 1%nat) as [[u s]|] eqn:Hk; [|discriminate]. subst u.
  exists f, tr, s. split; [reflexivity|]. split; [exact Hk|]. rewrite <- Hn.
  destruct (fleet_refines one_core two enqueued) with (tr := tr) (f := f) as (_ & _ & H).
  - apply reachable_ok, enqueued_reachable.
  - apply (bool_decide_unpack _). vm_compute. exact I.
  - exact none_leased_yet.
  - vm_compute. discriminate.
  - vm_compute. discriminate.
  - apply (fleet_leads_run one_core two (launch one_core two enqueued) takeover f tr (launch one_core two enqueued) []).
    + apply fleet_here.
    + unfold takeover, dies_early, lease_batch. repeat constructor; intros d ?; discriminate.
    + exact E.
  - destruct (H _ _ _ Hk) as (_ & Hst & Hl). split; [exact Hst|exact Hl].
Defined.

End Fleet.
